(* ===== verification/_CoqProject ===== *)
-Q . S2P
Prelude.v
CStdlib.v
ErrFns.v
Process.v
GetNum.v
Ugid.v
SockIO.v
InotifyCache.v
InotifyTree.v
InotifyEvents.v
InotifyMain.v
InotifyProofs.v
InotifySpec.v
Seccomp.v
FilterFiles.v
Unotify.v
AclUpdate.v
NsCapable.v
ShmXfr.v
Environ.v
Tlpi.v
InetSockets.v
SeqNum.v
Getopt.v
Caps.v
UsernsExec.v
WaitStatus.v
Threads.v
ProdCondvar.v
OneTimeInit.v
PidFile.v
FilePerms.v
SvMsg.v
MsgTransfer.v
SemOps.v
Execlp.v
FileIO.v
MultiJoin.v
ThreadIncr.v
Append.v
Cmsg.v
Scm.v
PsUser.v
SemInit.v
Daemon.v
Sendfile.v
Chiflag.v
TimerFd.v
Strerror.v
SimpleInit.v
Pty.v
Script.v
TtyTest.v
Barrier.v
SelfPipe.v
RandDtree.v
InitSetup.v
ShmSetup.v
SeccompRun.v
TreeFork.v
