(* ===== verification/Prelude.v ===== *)
(** * Verified models of the Linux programming practice code

    The repository holds the programs of a book on Linux system programming,
    under src/tlpi-book, with exercises and copies around them.  Each program
    is small and stands alone, linked with a few shared helpers.  This library
    models the ones with logic of their own, from the source, and proves what
    makes them correct.

    ** Method

    A C function is a definition of the same name.  Pure code is a function;
    code with effects is a computation of the monad [M S A] below, which
    passes a state [S] and may end the process: [exit], [abort], a crash
    (null pointer, write outside an object), or loss of fuel in a loop that
    is not structural.  Everything outside src/ (the kernel, libacl, libcap,
    the password database, [strerror], what [getopt] returns) is a class of
    operations, over which the definitions and theorems are stated; a second
    class with the suffix Ok gives the documented laws a theorem needs.  Each
    file ends with a concrete instance of its classes, at which the theorems
    are applied.  Machine integers are [Z] with explicit wrapping, characters
    are [ascii], C strings and buffers are lists.  A failing system call
    returns [inl errno].

    ** Files

    - Prelude: integers, strings, buffers, printing, the monad and its
      weakest preconditions ([wp], [safe]), and the rules for [strict]: success, or a
      failure that has one of the reasons given.
    - CStdlib: [strtol], [atoi] and the grammar of numerals.
    - ErrFns: lib/error_functions.c.  Process: output and system calls of
      the stand-alone programs.
    - GetNum: lib/get_num.c.  Ugid: users_groups/ugid_functions.c.
    - SockIO: sockets/rdwrn.c, read_line.c and read_line_buf.c, over the
      interface [Stream].
    - InotifyCache, InotifyTree, InotifyEvents, InotifyMain: the directory
      tree monitor inotify/inotify_dtree.c: its watch cache as pure
      operations on an array, then the functions that use it, the event
      handlers, and commands and main.  The record [istate] has one field per
      global variable.  InotifyProofs has the lemmas on each function,
      InotifySpec the theorems.
    - Seccomp: the BPF filters of seccomp/, with an evaluator of the
      instructions they use.  FilterFiles: dump_seccomp_filter.c and
      seccomp_launch.c.  Unotify: seccomp_unotify_mkdir.c.
    - AclUpdate: acl/acl_update.c, a client of ErrFns and Ugid.
    - NsCapable: namespaces/ns_capable.c and userns_functions.c.
    - ShmXfr: svsem/binary_sems.c and event_flags.c, and the two programs
      svshm/svshm_xfr_writer.c and svshm_xfr_reader.c as concurrent processes.
    - Environ: proc/setenv.c, on an array of pointers into allocated strings.
    - Tlpi: the programs that use the error functions of ErrFns, as
      computations over their streams, [errno] and a kernel, with the rules
      for [safe], [wp] and [strict].
    - InetSockets: sockets/inet_sockets.c.  SeqNum: its clients
      is_seqnum_sv.c, is_seqnum_v2_sv.c, is_seqnum_cl.c, is_seqnum_v2_cl.c, which
      also use SockIO and GetNum, and the FIFO versions
      pipes/fifo_seqnum_server.c and fifo_seqnum_client.c.
    - Getopt: the library function getopt.  Caps: cap/cap_functions.c.
      UsernsExec: namespaces/userns_child_exec.c, a client of the two and of
      NsCapable's mapping files, with the pipe protocol between parent and child
      as a step relation.
    - WaitStatus: procexec/print_wait_status.c and procexec/system.c.
    - Threads: mutexes and sums over threads, for ProdCondvar
      (threads/prod_condvar.c) and OneTimeInit (threads/one_time_init.c).
      MultiJoin: threads/thread_multijoin.c.  ThreadIncr:
      threads/thread_incr.c and its versions with a mutex, a read-write lock, a
      spin lock and a semaphore, over the interface [Lock].
    - SvMsg: svmsg/svmsg_file_server.c and svmsg_file_client.c.  MsgTransfer: a child
      of that server and its client as concurrent processes over a bounded queue.
    - PidFile: filelock/region_locking.c and create_pid_file.c.
      FilePerms: files/file_perms.c.
    - SemOps: svsem/svsem_op.c and time/curr_time.c.  SemInit:
      svsem/svsem_good_init.c and svsem_bad_init.c as concurrent processes.
    - Execlp: procexec/execlp.c, with its vectors as arrays of cells.
    - FileIO: fileio/copy.c, fileio/seek_io.c and the copying exercise of
      chapter 4.  Append: fileio/atomic_append.c as concurrent processes.
    - Cmsg: the macros for control messages.  Scm: sockets/unix_sockets.c,
      scm_functions.c, scm_multi_send.c and scm_multi_recv.c, on control buffers
      of bytes.
    - PsUser: the process listings of chapter 12, on the line buffer that
      [strtok_r] and [trim] share.
    - Daemon: daemons/become_daemon.c, followed into each process it makes.
    - Sendfile: sockets/sendfile.c, a client of the interface of FileIO.
      Chiflag: files/chiflag.c.
    - TimerFd: timers/itimerspec_from_str.c and timers/demo_timerfd.c.
    - Strerror: threads/strerror.c, strerror_tsd.c and strerror_tls.c, called
      by any number of threads, and again by the error functions when a call fails.
    - SimpleInit: namespaces/simple_init.c, with the SIGCHLD handler as an
      interruption of its main loop.  InitSetup: what the program does before
      that loop.  ShmSetup: the same for the two programs of ShmXfr.
    - Pty: tty/tty_functions.c, pty/pty_master_open.c and pty/pty_fork.c, a client
      of the process interface of Daemon.  Script: pty/script.c, a client of Pty.
      TtyTest: tty/test_tty_functions.c, its main program and handlers as a stack
      on which signals push.
    - Barrier: threads/pthread_barrier_demo.c.  SelfPipe: altio/self_pipe.c, with
      SIGINT as an interruption at any point.
    - RandDtree: inotify/rand_dtree.c, which exercises the monitor.
    - TreeFork: the two processes of the process tree scan of PsUser.
    - SeccompRun: the main programs of seccomp/, which make calls under the filters
      of Seccomp.

    ** What is shown

    - Monitor: the array of watches represents a finite map from descriptors
      to paths, and each handler refines its effect on that map (renames,
      deletions, removal of subtrees); an invariant holds in every state of
      the main loop; the loop over the buffer ends; events decode as they are
      encoded; and what goes wrong when a secondary read is interrupted or
      the read size exceeds the buffer.
    - Streams: the readers and writers transfer exactly the right bytes
      through short transfers and interruptions, and the buffered and the
      unbuffered line readers agree when both succeed.
    - Numbers, names and errors: which arguments are accepted, what is
      printed, how the process ends, and where ids wrap.
    - Filters: the policy each filter implements, for every call; that every
      filter decides every call; what the programs do under their filters, and
      which calls the kernel performs for them; saving and loading; and each turn of
      the supervisor, on every path.
    - ACLs: parsing inverts printing, and applying an entry is the edit it
      stands for, in whatever order the library keeps the entries.
    - Namespaces: the ancestor walk is correct as far as the caller may see, and closes a
      descriptor twice.
      The launcher parses every command line into options that its child can
      follow safely, writes the mapping files in the order the kernel needs, and
      its child waits for them; some documented options have no effect, and a
      child whose parent failed runs unmapped.
    - Servers: whatever the clients send, a sequence-number server grants
      disjoint ranges of the lengths asked for, and a request is answered; the file server
      and its client transfer a file whole unless a call fails, and end; the socket library leaves
      no descriptor behind, except when [listen] fails.
    - Processes and threads: [system] restores the signal state on every path and returns what waitpid gave;
      the producers and the consumer neither lose a unit nor block while units
      are left, if their number fits an int; one-time initialization runs once; a PID file keeps a second
      instance out.
    - Shared memory: mutual exclusion, correct transfer and termination in
      every interleaving.
      A semaphore is never used before it is initialized.
    - Files and descriptors: the copying and seeking programs do to the file
      what their arguments denote, with transfers that may be short, and fail only for a missing file or a wrong
      argument where the kernel refuses nothing; appending processes lose data
      exactly without O_APPEND; a descriptor that is passed arrives unless the kernel drops it, and control
      buffers are filled and walked within their bounds.  [sendfile] sends the
      right characters as long as no write is partial, and chiflag does what it
      says for one file.
    - Programs: [execlp] is a search over candidate pathnames, for up to 98 arguments; operations on
      semaphores are parsed as they are printed; the process listings print what
      the status files say, but for a name that is read from a buffer in use; a
      daemon is detached and its descriptors are what its flags ask for.
    - Threads and children: every ended thread is joined once; locked counters
      count exactly; an error text stays with its thread, although a failing call can hang the function
      that gives it; init reaps every
      child, but may pause for ever.
    - Terminals: [ptyFork] sets the child up on the slave or leaves nothing
      behind; the recorder relays and records everything and gives the terminal
      back; the terminal has the mode of the program while it runs and the
      settings of the user whenever it does not, when signals come only to its main loop; two
      races show that they must.
    - Signals and barriers: the self-pipe loses no signal and its handler no
      [errno]; no thread passes a barrier before all have come to it.
    - Tree generator: each operation ends and touches only what carries the
      marker; three ways in which the program misbehaves.
    - Timers: settings are parsed as they are printed, and the expirations asked
      for are read and printed.
    - Environment: [setenv] refines an update of the list of strings, and what
      it does when memory runs out.

    ** Fuel

    Loops that wait for input take fuel.  The theorems give bounds that are
    enough: bytes plus interruptions for the stream loops, the bytes left
    and a buffer's worth for each further read for the event loop, the number
    of entries for the ACL search and the environment, the depth of the
    namespace for the ancestor walk, the interruptions for the wait of
    [system].  The main loops of the monitor, the supervisor and the servers
    run forever by design; statements about them are about each turn or every
    reachable state.  The threaded programs need no fuel: a step relation
    with a bound on the steps shows that they end.

    ** Not modelled

    Signal handlers as interruptions, but for simple_init.c, self_pipe.c and
    test_tty_functions.c; the file server of SvMsg has its SIGCHLD handler as a
    function, the supervisor of Unotify is modelled without its handlers for
    SIGCHLD and SIGINT.  The exact text of [strerror], the formatting of
    variable arguments beyond the conversions that occur, and the weak memory
    effects of code that races.  pdeath_signal.c and the many demonstration
    programs that make one call and print its result: what they do is what the
    kernel does.  The copies of the sources under make-practice. *)

From Stdlib Require Export Ascii Lia ZArith.
From stdpp Require Export base numbers list gmap strings.
From Corelib Require Export ssreflect.

#[global] Open Scope Z_scope.
#[global] Open Scope general_if_scope.
Declare Scope c_scope.
Delimit Scope c_scope with C.

(** ** Machine integers

    A C integer of width [w] is a [Z]; conversions wrap explicitly. *)

Definition wrapU (w x : Z) : Z := x mod 2 ^ w.
Definition wrapS (w x : Z) : Z := (x + 2 ^ (w - 1)) mod 2 ^ w - 2 ^ (w - 1).

Definition INT_MAX : Z := 2147483647.
Definition INT_MIN : Z := -2147483648.
Definition LONG_MAX : Z := 9223372036854775807.
Definition LONG_MIN : Z := -9223372036854775808.

Definition to_int (x : Z) : Z := wrapS 32 x.
Definition to_uint (x : Z) : Z := wrapU 32 x.

Definition in_int (x : Z) : Prop := INT_MIN ≤ x ≤ INT_MAX.
Definition in_long (x : Z) : Prop := LONG_MIN ≤ x ≤ LONG_MAX.

Lemma to_int_id x : in_int x → to_int x = x.
Proof.
  rw /in_int /to_int /wrapS /INT_MIN /INT_MAX => H.
  rw Z.mod_small; lia.
Qed.

Lemma to_uint_id x : 0 ≤ x < 2 ^ 32 → to_uint x = x.
Proof. rw /to_uint /wrapU => H. by rw Z.mod_small. Qed.

Lemma to_int_range x : in_int (to_int x).
Proof.
  rw /in_int /to_int /wrapS /INT_MIN /INT_MAX.
  pose proof (Z.mod_pos_bound (x + 2 ^ (32 - 1)) (2 ^ 32)). lia.
Qed.

Lemma to_int_wrapU x : in_int x → to_int (wrapU 32 x) = x.
Proof.
  intros Hx. rw -{2}(to_int_id x Hx) /to_int /wrapS /wrapU. f_equal.
  by rw Zplus_mod_idemp_l.
Qed.

Lemma wrapU32_range x : 0 ≤ wrapU 32 x < 2 ^ 32.
Proof. rw /wrapU. apply Z.mod_pos_bound. lia. Qed.

(** Flag tests, [(mask & flag)] used as a condition. *)
Definition flag (mask f : Z) : bool := negb (Z.land mask f =? 0).

(** ** Bytes and C strings

    A [char] is an [ascii]; a C string is the list of its characters before
    the terminating null. *)

Abbreviation cstring := (list ascii).

Definition cs (s : string) : cstring := String.list_ascii_of_string s.

Definition NUL : ascii := "000"%char.
Definition NL : ascii := "010"%char.
Definition QUOTE : cstring := [Ascii.ascii_of_nat 34].

Definition byte_Z (c : ascii) : Z := Z.of_N (N_of_ascii c).
Definition Z_byte (z : Z) : ascii := ascii_of_N (Z.to_N (z mod 256)).

Lemma byte_Z_range c : 0 ≤ byte_Z c < 256.
Proof.
  rw /byte_Z. pose proof (N_ascii_bounded c). lia.
Qed.

Lemma Z_byte_Z c : Z_byte (byte_Z c) = c.
Proof.
  rw /Z_byte Z.mod_small; [apply byte_Z_range|].
  by rw /byte_Z N2Z.id ascii_N_embedding.
Qed.

Lemma byte_Z_byte z : byte_Z (Z_byte z) = z mod 256.
Proof.
  rw /byte_Z /Z_byte N_ascii_embedding.
  - pose proof (Z.mod_pos_bound z 256). lia.
  - pose proof (Z.mod_pos_bound z 256). lia.
Qed.

(** Little-endian 32-bit word at the start of a byte list. *)
Definition le32 (b : list ascii) : Z :=
  match b with
  | b0 :: b1 :: b2 :: b3 :: _ =>
      byte_Z b0 + 256 * byte_Z b1 + 65536 * byte_Z b2 + 16777216 * byte_Z b3
  | _ => 0
  end.

Definition put_le32 (z : Z) : list ascii :=
  [Z_byte z; Z_byte (z / 256); Z_byte (z / 65536); Z_byte (z / 16777216)].

Lemma le32_put z r : 0 ≤ z < 2 ^ 32 → le32 (put_le32 z ++ r) = z.
Proof.
  intros Hz. rw /le32 /put_le32 /= !byte_Z_byte.
  pose proof (Z.div_mod z 256). pose proof (Z.div_mod (z / 256) 256).
  pose proof (Z.div_mod (z / 65536) 256).
  assert (z / 256 / 256 = z / 65536) as E1 by (by rw Z.div_div).
  assert (z / 65536 / 256 = z / 16777216) as E2 by (by rw Z.div_div).
  assert (0 ≤ z / 16777216 < 256).
  { split; [apply Z.div_pos; lia|]. apply Z.div_lt_upper_bound; lia. }
  rw (Z.mod_small (z / 16777216)); [done|]. lia.
Qed.

(** [strlen] as a machine-independent count. *)
Definition strlen (s : cstring) : Z := Z.of_nat (length s).

(** The characters before the first [c], and the characters after it:
    what [strchr] followed by overwriting the hit with a null leaves. *)
Fixpoint strchr_split (c : ascii) (s : cstring) : option (cstring * cstring) :=
  match s with
  | [] => None
  | x :: r =>
      if decide (x = c) then Some ([], r)
      else match strchr_split c r with
           | Some (a, b) => Some (x :: a, b)
           | None => None
           end
  end.

(** The C string stored at the start of a byte buffer. *)
Fixpoint until_nul (s : list ascii) : cstring :=
  match s with
  | [] => []
  | x :: r => if decide (x = NUL) then [] else x :: until_nul r
  end.

(** [snprintf(buf, n, "%s", s)] leaves at most [n - 1] characters. *)
Definition snprintf (n : nat) (s : cstring) : cstring := take (n - 1) s.

(** [strncmp(a, b, len) == 0]. *)
Definition strncmp_eq (a b : cstring) (len : nat) : bool :=
  bool_decide (take len (a ++ [NUL]) = take len (b ++ [NUL])).

(** A test for string literals: no null character inside. *)
Lemma nul_free_spec (s : cstring) : forallb (λ c, negb (Ascii.eqb c NUL)) s = true → NUL ∉ s.
Proof.
  rw forallb_forall. intros H Hin. apply list_elem_of_In in Hin.
  specialize (H _ Hin). by rw Ascii.eqb_refl in H.
Qed.

(** Comparing with all of [b] tests whether [b] is a prefix. *)
Lemma strncmp_eq_prefix a b :
  NUL ∉ b → strncmp_eq a b (length b) = bool_decide (b `prefix_of` a).
Proof.
  intros Hb. rw /strncmp_eq. apply bool_decide_ext.
  rw (take_app_length b). split.
  - intros H. destruct (decide (length b ≤ length a)%nat) as [Hl|Hl].
    + rw take_app_le // in H. exists (drop (length b) a). by rw -{1}H take_drop.
    + exfalso. apply Hb. rw -H take_ge; [rw length_app /=; lia|].
      apply elem_of_app. right. by apply list_elem_of_singleton.
  - intros [c ->]. by rw -app_assoc take_app_length.
Qed.

Lemma strchr_split_Some c s a b :
  strchr_split c s = Some (a, b) → s = a ++ c :: b ∧ c ∉ a.
Proof.
  elim: s a b => [//|x r IH] a b /=.
  case_decide as Hx.
  - intros [= <- <-]. subst. split; [done|set_solver].
  - destruct (strchr_split c r) as [[a1 b1]|] eqn:E; [|done].
    intros [= <- <-]. destruct (IH a1 b1 eq_refl) as [-> ?].
    split; [done|set_solver].
Qed.

Lemma strchr_split_None c s : strchr_split c s = None ↔ c ∉ s.
Proof.
  elim: s => [|x r IH] /=; [set_solver|].
  case_decide as Hx.
  - subst. split; [done|set_solver].
  - destruct (strchr_split c r) as [[a1 b1]|] eqn:E.
    + split; [done|]. apply strchr_split_Some in E as [-> ?]. set_solver.
    + split; [|done]. intros _. rw elem_of_cons. naive_solver.
Qed.

Lemma strchr_split_app c a b : c ∉ a → strchr_split c (a ++ c :: b) = Some (a, b).
Proof.
  elim: a => [|x r IH] /= Hn; [by rw decide_True|].
  rw decide_False; [set_solver|]. by rw IH; set_solver.
Qed.

Lemma until_nul_id s : NUL ∉ s → until_nul s = s.
Proof.
  elim: s => [//|x r IH] Hn /=. rw decide_False; [set_solver|].
  rw IH //. set_solver.
Qed.

Lemma until_nul_app s r : NUL ∉ s → until_nul (s ++ NUL :: r) = s.
Proof.
  elim: s => [//|x s IH] Hn /=. rw decide_False; [set_solver|].
  rw IH //. set_solver.
Qed.

Lemma length_snprintf n s : (0 < n)%nat → (length (snprintf n s) < n)%nat.
Proof. rw /snprintf length_take. lia. Qed.

Lemma snprintf_fits n s : (length s < n)%nat → snprintf n s = s.
Proof. intros. rw /snprintf take_ge //. lia. Qed.

(** Overwrite a buffer from offset [off]. *)
Definition store (buf : list ascii) (off : nat) (d : list ascii) : list ascii :=
  take off buf ++ d ++ drop (off + length d) buf.

Lemma store_nil buf off : (off ≤ length buf)%nat → store buf off [] = buf.
Proof. intros. by rw /store /= Nat.add_0_r take_drop. Qed.

Lemma store_store buf off d1 d2 :
  (off ≤ length buf)%nat →
  store (store buf off d1) (off + length d1) d2 = store buf off (d1 ++ d2).
Proof.
  intros H. rw /store. assert (length (take off buf) = off) as Hl by (rw length_take; lia).
  rw (app_assoc (take off buf) d1) take_app_length'; [by rw length_app Hl|].
  rw -app_assoc -(app_assoc d1 d2). do 3 f_equal. rw -app_assoc length_app.
  rw drop_app_ge; [rw Hl; lia|]. rw drop_app_ge; [rw Hl; lia|].
  rw drop_drop Hl. f_equal. lia.
Qed.

Lemma store_cons buf off c d :
  (off ≤ length buf)%nat → store (store buf off [c]) (S off) d = store buf off (c :: d).
Proof. intros H. by rw -(store_store buf off [c] d H) /= Nat.add_1_r. Qed.

Lemma length_store buf off d :
  (off + length d ≤ length buf)%nat → length (store buf off d) = length buf.
Proof. intros. rw /store !length_app length_take length_drop. lia. Qed.

(** ** Decimal output, the [%d] and [%ld] conversions *)

Definition digit_char (d : Z) : ascii := Z_byte (48 + d).

Fixpoint fmt_go (fuel : nat) (n : Z) (acc : cstring) : cstring :=
  match fuel with
  | O => acc
  | S f =>
      let acc' := digit_char (n mod 10) :: acc in
      if n <? 10 then acc' else fmt_go f (n / 10) acc'
  end.

(** [log2 n + 1] binary digits are at least as many as the decimal ones. *)
Definition fmt_u (n : Z) : cstring := fmt_go (S (Z.to_nat (Z.log2 n))) n [].
Fixpoint fmt_base_go (fuel : nat) (b n : Z) (acc : cstring) : cstring :=
  match fuel with
  | O => acc
  | S f =>
      let d := n mod b in
      let acc' := Z_byte (if d <? 10 then 48 + d else 87 + d) :: acc in
      if n <? b then acc' else fmt_base_go f b (n / b) acc'
  end.

(** [%#x] and [%#o]: a prefix unless the value is zero. *)
Definition fmt_base (b n : Z) : cstring := fmt_base_go (S (Z.to_nat (Z.log2 n))) b n [].
Definition fmt_hex (n : Z) : cstring := if n =? 0 then cs "0" else cs "0x" ++ fmt_base 16 n.
Definition fmt_oct (n : Z) : cstring := if n =? 0 then cs "0" else cs "0" ++ fmt_base 8 n.

Definition fmt_d (n : Z) : cstring :=
  if n <? 0 then "-"%char :: fmt_u (- n) else fmt_u n.

(** ** Programs

    A call returns a value, or it ends the process: [exit] with a status,
    [abort], or [Crash] where the C program dereferences a null pointer or
    writes outside an object.  [NoFuel] marks a loop cut off by its fuel. *)

Inductive outcome (A : Type) : Type :=
| Ret (a : A)
| Exit (status : Z)
| Abort
| Crash
| NoFuel.
Arguments Ret {A} a.
Arguments Exit {A} status.
Arguments Abort {A}.
Arguments Crash {A}.
Arguments NoFuel {A}.

Definition PATH_MAX : nat := 4096.
Definition EXIT_SUCCESS : Z := 0.
Definition EXIT_FAILURE : Z := 1.

(** State-passing computations that may end the process. *)
Definition M (S A : Type) : Type := S → outcome A * S.

#[export] Instance M_ret S : MRet (M S) := λ A a s, (Ret a, s).
#[export] Instance M_bind S : MBind (M S) := λ A B k m s,
  match m s with
  | (Ret a, s') => k a s'
  | (Exit n, s') => (Exit n, s')
  | (Abort, s') => (Abort, s')
  | (Crash, s') => (Crash, s')
  | (NoFuel, s') => (NoFuel, s')
  end.

Definition get {S} : M S S := λ s, (Ret s, s).
Definition gets {S A} (f : S → A) : M S A := λ s, (Ret (f s), s).
Definition modify {S} (f : S → S) : M S unit := λ s, (Ret tt, f s).
Definition stop {S A} (o : outcome A) : M S A := λ s, (o, s).
Definition exit {S A} (status : Z) : M S A := stop (Exit status).
Definition when {S} (b : bool) (m : M S unit) : M S unit :=
  if b then m else mret tt.

(** [for (x in l) f x]. *)
Fixpoint for_each {S A} (l : list A) (f : A → M S unit) : M S unit :=
  match l with
  | [] => mret tt
  | x :: r => f x ;; for_each r f
  end.

(** ** Weakest preconditions

    [wp m Q E s]: run from [s], [m] returns with [Q], or ends the process in
    a state satisfying [E]. *)

Definition wp {S A} (m : M S A) (Q : A → S → Prop) (E : S → Prop) (s : S) : Prop :=
  match m s with
  | (Ret a, s') => Q a s'
  | (_, s') => E s'
  end.

Section wp.
Context {S : Type}.
Implicit Types (s : S) (E : S → Prop).

Lemma wp_ret {A} (a : A) Q E s : Q a s → wp (mret a) Q E s.
Proof. done. Qed.

Lemma wp_bind {A B} (m : M S A) (k : A → M S B) Q E s :
  wp m (λ a, wp (k a) Q E) E s → wp (m ≫= k) Q E s.
Proof. rw /wp /mbind /M_bind. by destruct (m s) as [[] ?]. Qed.

Lemma wp_get Q E s : Q s s → wp get Q E s.
Proof. done. Qed.

Lemma wp_gets {A} (f : S → A) Q E s : Q (f s) s → wp (gets f) Q E s.
Proof. done. Qed.

Lemma wp_modify f Q E s : Q tt (f s) → wp (modify f) Q E s.
Proof. done. Qed.

Lemma wp_exit {A} n (Q : A → S → Prop) E s : E s → wp (exit n) Q E s.
Proof. done. Qed.

Lemma wp_when b m Q E s :
  (b = true → wp m Q E s) → (b = false → Q tt s) → wp (when b m) Q E s.
Proof. destruct b => /= H1 H2; [exact (H1 eq_refl)|exact (H2 eq_refl)]. Qed.

Lemma wp_mono {A} (m : M S A) (Q Q' : A → S → Prop) (E E' : S → Prop) s :
  wp m Q E s → (∀ a s', Q a s' → Q' a s') → (∀ s', E s' → E' s') → wp m Q' E' s.
Proof. rw /wp => H HQ HE. destruct (m s) as [[] ?]; eauto. Qed.

Lemma wp_conseq {A} (m : M S A) (Q Q' : A → S → Prop) E s :
  wp m Q E s → (∀ a s', Q a s' → Q' a s') → wp m Q' E s.
Proof. intros H HQ. eapply wp_mono; eauto. Qed.

Lemma wp_for_each {A} (I : S → Prop) (l : list A) f E s :
  I s →
  (∀ x s, x ∈ l → I s → wp (f x) (λ _, I) E s) →
  wp (for_each l f) (λ _, I) E s.
Proof.
  elim: l s => [//|x l IH] s HI Hf /=.
  apply wp_bind, (wp_conseq _ (λ _, I)); [apply Hf; set_solver|].
  intros _ s' HI'. apply IH; [done|]. intros y s'' Hy. apply Hf. set_solver.
Qed.

Lemma wp_Ret {A} (m : M S A) Q E s a s' :
  wp m Q E s → m s = (Ret a, s') → Q a s'.
Proof. rw /wp => H Hm. by rw Hm in H. Qed.

(** A computation that cannot end the process returns. *)
Lemma wp_returns {A} (m : M S A) Q s :
  wp m Q (λ _, False) s → ∃ a s', m s = (Ret a, s') ∧ Q a s'.
Proof. rw /wp. destruct (m s) as [[] s']; naive_solver. Qed.
End wp.

Create HintDb wp.
#[export] Hint Resolve wp_ret wp_gets wp_modify wp_exit : wp.

Lemma bind_Ret {S A B} (m : M S A) (k : A → M S B) s a s' :
  m s = (Ret a, s') → (m ≫= k) s = k a s'.
Proof. rw /mbind /M_bind => H. by rw H. Qed.

Lemma bind_assoc {S A B C} (m : M S A) (f : A → M S B) (g : B → M S C) s :
  ((m ≫= f) ≫= g) s = (m ≫= λ a, f a ≫= g) s.
Proof. rw /mbind /M_bind. by destruct (m s) as [[] ?]. Qed.

Lemma bind_Crash {S A B} (m : M S A) (k : A → M S B) s s' :
  m s = (Crash, s') → (m ≫= k) s = (Crash, s').
Proof. rw /mbind /M_bind => H. by rw H. Qed.

Lemma bind_Exit {S A B} (m : M S A) (k : A → M S B) s n s' :
  m s = (Exit n, s') → (m ≫= k) s = (Exit n, s').
Proof. rw /mbind /M_bind => H. by rw H. Qed.

(** Step through a [wp] goal one primitive at a time. *)
Ltac wp_step :=
  lazymatch goal with
  | |- wp (mbind _ _) _ _ _ => apply wp_bind
  | |- wp (mret _) _ _ _ => apply wp_ret
  | |- wp (gets _) _ _ _ => apply wp_gets
  | |- wp get _ _ _ => apply wp_get
  | |- wp (modify _) _ _ _ => apply wp_modify
  | |- wp (exit _) _ _ _ => apply wp_exit
  | |- wp (when _ _) _ _ _ => apply wp_when
  end.

(** [safe m Q s]: run from [s], [m] returns with [Q] or ends the process
    deliberately; it neither crashes nor runs out of fuel. *)
Definition safe {S A} (m : M S A) (Q : A → S → Prop) (s : S) : Prop :=
  match m s with
  | (Ret a, s') => Q a s'
  | (Exit _, _) | (Abort, _) => True
  | _ => False
  end.

Section safe.
Context {S : Type}.

Lemma safe_ret {A} (a : A) (Q : A → S → Prop) s : Q a s → safe (mret a) Q s.
Proof. done. Qed.

Lemma safe_bind {A B} (m : M S A) (k : A → M S B) Q s :
  safe m (λ a, safe (k a) Q) s → safe (m ≫= k) Q s.
Proof. rw /safe /mbind /M_bind. by destruct (m s) as [[] ?]. Qed.

Lemma safe_conseq {A} (m : M S A) (Q Q' : A → S → Prop) s :
  safe m Q s → (∀ a s', Q a s' → Q' a s') → safe m Q' s.
Proof. rw /safe => H HQ. destruct (m s) as [[] ?]; eauto. Qed.

Lemma safe_when b (m : M S unit) Q s :
  (b = true → safe m Q s) → (b = false → Q tt s) → safe (when b m) Q s.
Proof. destruct b => /= H1 H2; [exact (H1 eq_refl)|exact (H2 eq_refl)]. Qed.
End safe.

(** ** Success or failure

    [strict F m Q s]: run from [s], [m] returns with [Q], or ends the process as
    a failure: with EXIT_FAILURE, or by abort where EF_DUMPCORE asks for it.
    It fails only where [F] holds, the reason there can be. *)

Definition failure {A} (o : outcome A) : Prop := o = Abort ∨ o = Exit EXIT_FAILURE.

Definition strict {S A} (F : Prop) (m : M S A) (Q : A → S → Prop) (s : S) : Prop :=
  match m s with
  | (Ret a, s') => Q a s'
  | (Exit n, _) => n = EXIT_FAILURE ∧ F
  | (Abort, _) => F
  | _ => False
  end.

Section strict.
Context {S : Type} (F : Prop).

Lemma strict_ret {A} (a : A) (Q : A → S → Prop) s : Q a s → strict F (mret a) Q s.
Proof. done. Qed.

Lemma strict_bind {A B} (m : M S A) (k : A → M S B) Q s :
  strict F m (λ a, strict F (k a) Q) s → strict F (m ≫= k) Q s.
Proof. rw /strict /mbind /M_bind. by destruct (m s) as [[] ?]. Qed.

Lemma strict_bind_Ret {A B} (m : M S A) (k : A → M S B) Q s a s' :
  m s = (Ret a, s') → strict F (k a) Q s' → strict F (m ≫= k) Q s.
Proof. intros H. by rw /strict (bind_Ret _ _ _ _ _ H). Qed.

Lemma strict_conseq {A} (m : M S A) (Q Q' : A → S → Prop) s :
  strict F m Q s → (∀ a s', Q a s' → Q' a s') → strict F m Q' s.
Proof. rw /strict => H HQ. destruct (m s) as [[] ?]; eauto. Qed.

Lemma strict_reason {A} (F' : Prop) (m : M S A) Q s :
  strict F' m Q s → (F' → F) → strict F m Q s.
Proof. rw /strict => H HF. destruct (m s) as [[] ?]; naive_solver. Qed.

Lemma strict_when b (m : M S unit) Q s :
  (b = true → strict F m Q s) → (b = false → Q tt s) → strict F (when b m) Q s.
Proof. destruct b => /= H1 H2; [exact (H1 eq_refl)|exact (H2 eq_refl)]. Qed.

(** Where there is no reason to fail, the computation returns. *)
Lemma strict_returns {A} (m : M S A) Q s :
  strict F m Q s → ¬ F → ∃ a s', m s = (Ret a, s') ∧ Q a s'.
Proof. rw /strict. destruct (m s) as [[] s']; naive_solver. Qed.
End strict.

(** ** Errno values the sources test *)

Definition EPERM : Z := 1.
Definition ENOENT : Z := 2.
Definition EINTR : Z := 4.
Definition EBADF : Z := 9.
Definition EAGAIN : Z := 11.
Definition ENOMEM : Z := 12.
Definition EACCES : Z := 13.
Definition EEXIST : Z := 17.
Definition EINVAL : Z := 22.
Definition ERANGE : Z := 34.
Definition ENOTSUP : Z := 95.

(** A system call yields an errno or a value. *)
Definition res (A : Type) : Type := (Z + A)%type.
