(* ===== verification/CStdlib.v ===== *)
(** * The C library functions the sources call

    [isspace], [strtol], [atoi] and [strtok_r]-style splitting, written out
    from the C standard's description, with the arithmetic facts the clients
    use: decimal output is read back by [strtol] unchanged. *)

From S2P Require Import Prelude.

Definition isspace (c : ascii) : bool :=
  bool_decide (byte_Z c ∈ [32; 9; 10; 11; 12; 13]).

Definition isdigit (c : ascii) : bool := bool_decide (48 ≤ byte_Z c ≤ 57).

(** The value of a digit in bases up to 36. *)
Definition digit_val (c : ascii) : option Z :=
  let z := byte_Z c in
  if bool_decide (48 ≤ z ≤ 57) then Some (z - 48)
  else if bool_decide (97 ≤ z ≤ 122) then Some (z - 87)
  else if bool_decide (65 ≤ z ≤ 90) then Some (z - 55)
  else None.

Definition digit_in (base : Z) (c : ascii) : option Z :=
  match digit_val c with
  | Some d => if d <? base then Some d else None
  | None => None
  end.

(** Read digits of [base] into the accumulator; the rest starts at the first
    character that is no digit. *)
Fixpoint scan_digits (base : Z) (s : cstring) (acc : Z) : Z * cstring :=
  match s with
  | [] => (acc, [])
  | c :: r =>
      match digit_in base c with
      | Some d => scan_digits base r (acc * base + d)
      | None => (acc, s)
      end
  end.

Fixpoint skip_spaces (s : cstring) : cstring :=
  match s with
  | c :: r => if isspace c then skip_spaces r else s
  | [] => []
  end.

Definition take_sign (s : cstring) : bool * cstring :=
  match s with
  | "-"%char :: r => (true, r)
  | "+"%char :: r => (false, r)
  | _ => (false, s)
  end.

(** Base selection: base 0 reads a [0x] prefix as hexadecimal and a leading
    [0] as octal; base 16 skips a [0x] prefix.  The prefix counts only when a
    hexadecimal digit follows it. *)
Definition take_base (base : Z) (s : cstring) : Z * cstring :=
  let hex := match s with
             | "0"%char :: x :: h :: r =>
                 if bool_decide (x = "x"%char ∨ x = "X"%char)
                 then match digit_in 16 h with Some _ => Some (h :: r) | None => None end
                 else None
             | _ => None
             end in
  match hex with
  | Some r => if (base =? 0) || (base =? 16) then (16, r) else (base, s)
  | None =>
      if base =? 0
      then match s with "0"%char :: _ => (8, s) | _ => (10, s) end
      else (base, s)
  end.

(** [strtol(s, &end, base)]: the value, the text at [end], and the errno it
    leaves (0 or [ERANGE]).  With no digits the value is 0 and [end] is [s]. *)
Definition strtol (s : cstring) (base : Z) : Z * cstring * Z :=
  let (neg, s2) := take_sign (skip_spaces s) in
  let (b, s3) := take_base base s2 in
  let (m, r) := scan_digits b s3 0 in
  if bool_decide (length r = length s3) then (0, s, 0)
  else
    let v := if neg : bool then - m else m in
    if LONG_MAX <? v then (LONG_MAX, r, ERANGE)
    else if v <? LONG_MIN then (LONG_MIN, r, ERANGE)
    else (v, r, 0).

(** [atoi] is [(int) strtol(s, NULL, 10)]. *)
Definition atoi (s : cstring) : Z := to_int (strtol s 10).1.1.

(** ** Facts *)

Lemma digit_val_digit_char d : 0 ≤ d < 10 → digit_val (digit_char d) = Some d.
Proof.
  intros Hd. rw /digit_val /digit_char byte_Z_byte Z.mod_small; [lia|].
  rw bool_decide_true; [lia|]. f_equal. lia.
Qed.

Lemma digit_in_digit_char base d :
  0 ≤ d < 10 → d < base → digit_in base (digit_char d) = Some d.
Proof.
  intros. rw /digit_in digit_val_digit_char //. case_match; [done|lia].
Qed.

Lemma scan_digits_length base s acc :
  (length (scan_digits base s acc).2 ≤ length s)%nat.
Proof.
  elim: s acc => [//|c r IH] acc /=. destruct (digit_in base c); [|done].
  etrans; [apply IH|]. lia.
Qed.

(** The digits printed for [n] carry the accumulator from [a] to
    [a * 10^k + n], whatever follows them. *)
Lemma fmt_go_scan fuel n acc :
  0 ≤ n < 10 ^ Z.of_nat fuel →
  ∃ ds, fmt_go fuel n acc = ds ++ acc ∧
    (∀ a r, scan_digits 10 (ds ++ r) a =
            scan_digits 10 r (a * 10 ^ Z.of_nat (length ds) + n)) ∧
    (fuel ≠ 0%nat → ds ≠ []).
Proof.
  elim: fuel n acc => [|f IH] n acc Hn.
  - exists []. split; [done|]. split; [|done]. intros a r. simpl. f_equal.
    change (10 ^ Z.of_nat 0) with 1 in Hn. simpl. lia.
  - cbn [fmt_go]. rw Nat2Z.inj_succ Z.pow_succ_r in Hn; [lia|].
    destruct (Z.ltb_spec n 10).
    + exists [digit_char (n mod 10)]. split; [done|]. split; [|done].
      intros a r. simpl. rw Z.mod_small; [lia|].
      rw digit_in_digit_char; [lia|lia|]. f_equal.
    + destruct (IH (n / 10) (digit_char (n mod 10) :: acc)) as (ds & Hds & Hs & Hne).
      { split; [apply Z.div_pos; lia|]. apply Z.div_lt_upper_bound; lia. }
      exists (ds ++ [digit_char (n mod 10)]).
      rw Hds -app_assoc. split; [done|]. split; [|by destruct ds].
      intros a r. rw -app_assoc Hs. cbn [app scan_digits].
      pose proof (Z.mod_pos_bound n 10).
      rw digit_in_digit_char; [lia|lia|]. f_equal.
      rw length_app Nat2Z.inj_add Z.pow_add_r; [lia|lia|].
      change (10 ^ Z.of_nat (length [digit_char (n mod 10)])) with 10.
      pose proof (Z.div_mod n 10). lia.
Qed.

Lemma fmt_u_scan n :
  0 ≤ n → ∃ ds, fmt_u n = ds ∧ ds ≠ [] ∧
    ∀ r, scan_digits 10 (ds ++ r) 0 = scan_digits 10 r n.
Proof.
  intros Hn. rw /fmt_u.
  destruct (fmt_go_scan (S (Z.to_nat (Z.log2 n))) n []) as (ds & -> & Hs & Hne).
  { split; [done|].
    rw Nat2Z.inj_succ Z2Nat.id; [apply Z.log2_nonneg|].
    destruct (decide (n = 0)) as [->|]; [done|].
    pose proof (Z.log2_spec n ltac:(lia)).
    apply Z.lt_le_trans with (2 ^ Z.succ (Z.log2 n)); [lia|].
    apply Z.pow_le_mono_l. lia. }
  exists ds. rw app_nil_r. split; [done|]. split; [by apply Hne|].
  intros r. by rw Hs Z.mul_0_l.
Qed.

(** ** Numerals

    The declarative reading of the text [strtol] accepts in a base that has
    no prefix: white space, an optional sign, then at least one digit. *)

Definition digits_value (base : Z) (ds : cstring) : option Z :=
  foldl (λ acc c, match acc, digit_in base c with
                  | Some a, Some d => Some (a * base + d)
                  | _, _ => None
                  end) (Some 0) ds.

Inductive sign_of : cstring → bool → Prop :=
| sign_none : sign_of [] false
| sign_plus : sign_of ["+"%char] false
| sign_minus : sign_of ["-"%char] true.

Definition numeral (base : Z) (s : cstring) (v : Z) : Prop :=
  ∃ sp sg neg ds m,
    s = sp ++ sg ++ ds ∧ Forall (λ c, isspace c = true) sp ∧ sign_of sg neg ∧
    ds ≠ [] ∧ digits_value base ds = Some m ∧ v = (if neg : bool then - m else m).

Lemma foldl_None base (ds : cstring) :
  foldl (λ acc c, match acc, digit_in base c with
                  | Some a, Some d => Some (a * base + d)
                  | _, _ => None
                  end) None ds = None.
Proof. by elim: ds. Qed.

Lemma scan_digits_all base ds acc m :
  foldl (λ acc c, match acc, digit_in base c with
                  | Some a, Some d => Some (a * base + d)
                  | _, _ => None
                  end) (Some acc) ds = Some m ↔
  scan_digits base ds acc = (m, []).
Proof.
  elim: ds acc => [|c r IH] acc /=; [naive_solver|].
  destruct (digit_in base c) as [d|]; [by rw IH|].
  rw foldl_None. naive_solver.
Qed.

Lemma skip_spaces_split s :
  ∃ sp, s = sp ++ skip_spaces s ∧ Forall (λ c, isspace c = true) sp.
Proof.
  elim: s => [|c r [sp [IH Hsp]]] /=; [by exists []|].
  destruct (isspace c) eqn:E; [|by exists []].
  exists (c :: sp). rw /= -IH. split; [done|by constructor].
Qed.

Lemma skip_spaces_app sp s :
  Forall (λ c, isspace c = true) sp → skip_spaces (sp ++ s) = skip_spaces s.
Proof. by elim => [//|c l Hc _ IH] /=; rw Hc. Qed.

Lemma digit_not_space base c d : digit_in base c = Some d → isspace c = false.
Proof.
  rw /digit_in /digit_val /isspace => H.
  apply bool_decide_eq_false. rw !elem_of_cons elem_of_nil.
  repeat case_bool_decide; try done; lia.
Qed.

Lemma digit_not_sign base c d :
  digit_in base c = Some d → c ≠ "-"%char ∧ c ≠ "+"%char.
Proof. split; intros ->; done. Qed.

Lemma take_sign_digit base c d r :
  digit_in base c = Some d → take_sign (c :: r) = (false, c :: r).
Proof.
  intros H. destruct (digit_not_sign _ _ _ H).
  destruct c as [[] [] [] [] [] [] [] []]; done.
Qed.

Lemma take_sign_spec s neg r :
  take_sign s = (neg, r) → ∃ sg, s = sg ++ r ∧ sign_of sg neg.
Proof.
  rw /take_sign => H. repeat case_match; simplify_eq/=;
    (exists []; by split; [|constructor]) ||
    (exists ["-"%char]; by split; [|constructor]) ||
    (exists ["+"%char]; by split; [|constructor]).
Qed.

Lemma take_base_plain base s : base = 8 ∨ base = 10 → take_base base s = (base, s).
Proof. rw /take_base. intros [-> | ->]; by case_match. Qed.

(** In bases 8 and 10, [strtol] consumes the whole of a nonempty text
    without a range error exactly when the text is a numeral of a [long]. *)
Lemma strtol_numeral base s v :
  base = 8 ∨ base = 10 → s ≠ [] →
  strtol s base = (v, [], 0) ↔ numeral base s v ∧ in_long v.
Proof.
  intros Hb Hs. rw /strtol. split.
  - destruct (take_sign (skip_spaces s)) as [neg s2] eqn:Hsg.
    rw take_base_plain //. destruct (scan_digits base s2 0) as [m r] eqn:Hsc.
    case_bool_decide as Hlen; [naive_solver|].
    destruct (Z.ltb_spec LONG_MAX (if neg then - m else m)); [done|].
    destruct (Z.ltb_spec (if neg then - m else m) LONG_MIN); [done|].
    intros [= <- ->]. apply take_sign_spec in Hsg as (sg & Hsg & Hneg).
    destruct (skip_spaces_split s) as (sp & Hsp & Hall).
    split; [|done]. exists sp, sg, neg, s2, m. rw -Hsg -Hsp.
    split_and!; try done; [|by apply scan_digits_all].
    intros ->. by rw /= in Hlen.
  - intros [(sp & sg & neg & ds & m & -> & Hsp & Hsg & Hds & Hm & ->) [Hlo Hhi]].
    destruct ds as [|c ds]; [done|].
    assert (∃ d, digit_in base c = Some d) as [d Hd].
    { rw /digits_value /= in Hm. destruct (digit_in base c); [eauto|].
      by rw foldl_None in Hm. }
    assert (take_sign (skip_spaces (sp ++ sg ++ c :: ds)) = (neg, c :: ds)) as ->.
    { rw skip_spaces_app //. destruct Hsg; try done. simpl.
      by rw (digit_not_space _ _ _ Hd) (take_sign_digit _ _ _ _ Hd). }
    rw take_base_plain //. apply scan_digits_all in Hm. rw Hm /=.
    destruct (Z.ltb_spec LONG_MAX (if neg then - m else m)); [lia|].
    destruct (Z.ltb_spec (if neg then - m else m) LONG_MIN); [lia|]. done.
Qed.

Lemma scan_digits_nil base acc : scan_digits base [] acc = (acc, []).
Proof. done. Qed.

Lemma fmt_u_numeral n : 0 ≤ n → ∃ m, digits_value 10 (fmt_u n) = Some m ∧ m = n.
Proof.
  intros Hn. destruct (fmt_u_scan n Hn) as (ds & -> & _ & Hs).
  exists n. split; [|done]. apply scan_digits_all.
  pose proof (Hs []) as H. by rw app_nil_r in H.
Qed.

Lemma fmt_u_not_nil n : 0 ≤ n → fmt_u n ≠ [].
Proof. intros Hn. by destruct (fmt_u_scan n Hn) as (ds & -> & ? & _). Qed.

Lemma fmt_d_numeral n : numeral 10 (fmt_d n) n.
Proof.
  rw /fmt_d. destruct (Z.ltb_spec n 0).
  - destruct (fmt_u_numeral (- n)) as (m & Hm & ->); [lia|].
    exists [], ["-"%char], true, (fmt_u (- n)), (- n).
    split_and!; try done; [constructor|apply fmt_u_not_nil; lia|lia].
  - destruct (fmt_u_numeral n) as (m & Hm & ->); [lia|].
    exists [], [], false, (fmt_u n), n.
    split_and!; try done; [constructor|apply fmt_u_not_nil; lia].
Qed.

Lemma fmt_d_not_nil n : fmt_d n ≠ [].
Proof.
  rw /fmt_d. destruct (Z.ltb_spec n 0); [done|]. by apply fmt_u_not_nil.
Qed.

Lemma strtol_fmt_d n : in_long n → strtol (fmt_d n) 10 = (n, [], 0).
Proof.
  intros Hn. apply strtol_numeral; [by right|apply fmt_d_not_nil|].
  split; [apply fmt_d_numeral|done].
Qed.

(** A number below [10 ^ k] has at most [k] digits. *)
Lemma length_fmt_go fuel n acc (k : nat) :
  (0 < k)%nat → 0 ≤ n < 10 ^ Z.of_nat k →
  (length (fmt_go fuel n acc) ≤ k + length acc)%nat.
Proof.
  elim: fuel n acc k => [|fuel IH] n acc k Hk Hn; cbn [fmt_go]; [lia|].
  destruct (Z.ltb_spec n 10) as [|Hn']; [simpl; lia|].
  destruct k as [|[|k]]; [lia|simpl in Hn; lia|].
  rw (Nat2Z.inj_succ (S k)) Z.pow_succ_r in Hn; [lia|].
  specialize (IH (n / 10) (digit_char (n mod 10) :: acc) (S k) ltac:(lia)).
  cbn [length] in IH. etrans; [apply IH|lia].
  split; [apply Z.div_pos; lia|]. apply Z.div_lt_upper_bound; lia.
Qed.

Lemma length_fmt_d n : in_int n → (length (fmt_d n) ≤ 11)%nat.
Proof.
  rw /in_int /INT_MIN /INT_MAX /fmt_d. intros Hn.
  assert (∀ m, 0 ≤ m < 10 ^ Z.of_nat 10 → (length (fmt_u m) ≤ 10)%nat) as H.
  { intros m Hm. etrans; [by apply (length_fmt_go _ _ _ 10); [lia|]|simpl; lia]. }
  destruct (Z.ltb_spec n 0).
  - cbn [length]. apply le_n_S, H. lia.
  - etrans; [apply H|]; lia.
Qed.

(** ** Numerals followed by other text *)

Definition no_digit (base : Z) (s : cstring) : Prop :=
  match s with [] => True | c :: _ => digit_in base c = None end.

Lemma scan_digits_tail base ds rest acc m :
  scan_digits base ds acc = (m, []) → no_digit base rest →
  scan_digits base (ds ++ rest) acc = (m, rest).
Proof.
  intros H Hr. elim: ds acc H => [|c ds IH] acc /=.
  - intros [= ->]. destruct rest as [|c r]; [done|]. cbn in *. by rw Hr.
  - destruct (digit_in base c); [apply IH|done].
Qed.

Lemma strtol_tail base s v rest :
  base = 8 ∨ base = 10 → numeral base s v → in_long v → no_digit base rest →
  strtol (s ++ rest) base = (v, rest, 0).
Proof.
  intros Hb (sp & sg & neg & ds & m & -> & Hsp & Hsg & Hds & Hm & ->) [Hlo Hhi] Hr.
  destruct ds as [|c ds]; [done|].
  assert (∃ d, digit_in base c = Some d) as [d Hd].
  { rw /digits_value /= in Hm. destruct (digit_in base c); [eauto|]. by rw foldl_None in Hm. }
  rw /strtol -!app_assoc.
  assert (take_sign (skip_spaces (sp ++ sg ++ (c :: ds) ++ rest)) = (neg, (c :: ds) ++ rest)) as ->.
  { rw skip_spaces_app //. destruct Hsg; try done. simpl.
    by rw (digit_not_space _ _ _ Hd) (take_sign_digit _ _ _ _ Hd). }
  rw take_base_plain //. apply scan_digits_all in Hm. rw (scan_digits_tail _ _ _ _ _ Hm Hr).
  rw bool_decide_eq_false_2; [rw length_app /=; lia|].
  destruct (Z.ltb_spec LONG_MAX (if neg then - m else m)); [lia|].
  destruct (Z.ltb_spec (if neg then - m else m) LONG_MIN); [lia|]. done.
Qed.

Lemma in_int_long n : in_int n → in_long n.
Proof. rw /in_int /in_long /INT_MIN /INT_MAX /LONG_MIN /LONG_MAX. lia. Qed.

Lemma atoi_tail s n rest : numeral 10 s n → in_int n → no_digit 10 rest → atoi (s ++ rest) = n.
Proof.
  intros Hs Hn Hr. rw /atoi (strtol_tail 10 s n rest) //; [by right|by apply in_int_long|].
  by apply to_int_id.
Qed.

(** ** Decimal output consists of digits *)

Lemma isdigit_digit_char d : 0 ≤ d < 10 → isdigit (digit_char d) = true.
Proof.
  intros Hd. rw /isdigit /digit_char byte_Z_byte Z.mod_small; [lia|]. apply bool_decide_true. lia.
Qed.

Lemma fmt_go_isdigit fuel n acc :
  0 ≤ n → Forall (λ c, isdigit c = true) acc → Forall (λ c, isdigit c = true) (fmt_go fuel n acc).
Proof.
  elim: fuel n acc => [|f IH] n acc Hn Ha; cbn [fmt_go]; [done|].
  assert (Forall (λ c, isdigit c = true) (digit_char (n mod 10) :: acc)) as Ha'.
  { constructor; [|done]. apply isdigit_digit_char. by apply Z.mod_pos_bound. }
  destruct (n <? 10); [done|]. apply IH; [|done]. by apply Z.div_pos.
Qed.

Lemma fmt_d_isdigit n : 0 ≤ n → Forall (λ c, isdigit c = true) (fmt_d n).
Proof.
  intros Hn. rw /fmt_d. destruct (Z.ltb_spec n 0); [lia|]. apply fmt_go_isdigit; [done|constructor].
Qed.

Lemma not_digit_10 c : isdigit c = false → digit_in 10 c = None.
Proof.
  rw /isdigit /digit_in /digit_val. intros H. case_bool_decide; [done|].
  repeat case_bool_decide; try done; by rw (proj2 (Z.ltb_ge _ _)); [lia|].
Qed.

(** The text of a non-negative number: a digit, and more of them. *)
Lemma fmt_d_head n : 0 ≤ n → ∃ c r, fmt_d n = c :: r ∧ isdigit c = true.
Proof.
  intros Hn. pose proof (fmt_d_isdigit n Hn) as H. pose proof (fmt_d_not_nil n).
  destruct (fmt_d n) as [|c r]; [done|]. apply Forall_cons in H as [Hc _]. eauto.
Qed.

Lemma fmt_d_free n c : 0 ≤ n → isdigit c = false → c ∉ fmt_d n.
Proof.
  intros Hn Hc Hin. pose proof (fmt_d_isdigit n Hn) as H. rw Forall_forall in H.
  specialize (H c Hin). congruence.
Qed.

(** A character that is neither a digit nor the sign. *)
Definition separator (c : ascii) : Prop := isdigit c = false ∧ c ≠ "-"%char.

Lemma fmt_d_no_sep n c : separator c → c ∉ fmt_d n.
Proof.
  intros [Hd Hs]. destruct (Z.lt_ge_cases n 0) as [Hn|Hn]; [|by apply fmt_d_free].
  rw /fmt_d. replace (n <? 0) with true by lia. rw not_elem_of_cons. split; [done|].
  pose proof (fmt_d_free (- n) c ltac:(lia) Hd) as H. rw /fmt_d in H. by replace (- n <? 0) with false in H by lia.
Qed.
