(* ===== verification/ErrFns.v ===== *)
(** * Error reporting: [lib/error_functions.c]

    The state is what the process has written: [e_buffered] is standard output
    not yet flushed, [e_stdout] and [e_stderr] what has reached the two streams,
    and [e_errno] the value of [errno].  [strerror] and the environment
    variable [EF_DUMPCORE] are parameters; a message arrives already formatted
    from its arguments. *)

From S2P Require Import Prelude.

Record estate := EState {
  e_buffered : cstring;
  e_stdout : cstring;
  e_stderr : cstring;
  e_errno : Z;
}.

(** [ename.c.inc]. *)
Definition ename : list string := [
    ""; "EPERM"; "ENOENT"; "ESRCH"; "EINTR"; "EIO"; "ENXIO"; "E2BIG"; "ENOEXEC"; "EBADF";
    "ECHILD"; "EAGAIN/EWOULDBLOCK"; "ENOMEM"; "EACCES"; "EFAULT"; "ENOTBLK"; "EBUSY"; "EEXIST";
    "EXDEV"; "ENODEV"; "ENOTDIR"; "EISDIR"; "EINVAL"; "ENFILE"; "EMFILE"; "ENOTTY"; "ETXTBSY";
    "EFBIG"; "ENOSPC"; "ESPIPE"; "EROFS"; "EMLINK"; "EPIPE"; "EDOM"; "ERANGE";
    "EDEADLK/EDEADLOCK"; "ENAMETOOLONG"; "ENOLCK"; "ENOSYS"; "ENOTEMPTY"; "ELOOP"; ""; "ENOMSG";
    "EIDRM"; "ECHRNG"; "EL2NSYNC"; "EL3HLT"; "EL3RST"; "ELNRNG"; "EUNATCH"; "ENOCSI"; "EL2HLT";
    "EBADE"; "EBADR"; "EXFULL"; "ENOANO"; "EBADRQC"; "EBADSLT"; ""; "EBFONT"; "ENOSTR";
    "ENODATA"; "ETIME"; "ENOSR"; "ENONET"; "ENOPKG"; "EREMOTE"; "ENOLINK"; "EADV"; "ESRMNT";
    "ECOMM"; "EPROTO"; "EMULTIHOP"; "EDOTDOT"; "EBADMSG"; "EOVERFLOW"; "ENOTUNIQ"; "EBADFD";
    "EREMCHG"; "ELIBACC"; "ELIBBAD"; "ELIBSCN"; "ELIBMAX"; "ELIBEXEC"; "EILSEQ"; "ERESTART";
    "ESTRPIPE"; "EUSERS"; "ENOTSOCK"; "EDESTADDRREQ"; "EMSGSIZE"; "EPROTOTYPE"; "ENOPROTOOPT";
    "EPROTONOSUPPORT"; "ESOCKTNOSUPPORT"; "EOPNOTSUPP/ENOTSUP"; "EPFNOSUPPORT"; "EAFNOSUPPORT";
    "EADDRINUSE"; "EADDRNOTAVAIL"; "ENETDOWN"; "ENETUNREACH"; "ENETRESET"; "ECONNABORTED";
    "ECONNRESET"; "ENOBUFS"; "EISCONN"; "ENOTCONN"; "ESHUTDOWN"; "ETOOMANYREFS"; "ETIMEDOUT";
    "ECONNREFUSED"; "EHOSTDOWN"; "EHOSTUNREACH"; "EALREADY"; "EINPROGRESS"; "ESTALE"; "EUCLEAN";
    "ENOTNAM"; "ENAVAIL"; "EISNAM"; "EREMOTEIO"; "EDQUOT"; "ENOMEDIUM"; "EMEDIUMTYPE";
    "ECANCELED"; "ENOKEY"; "EKEYEXPIRED"; "EKEYREVOKED"; "EKEYREJECTED"; "EOWNERDEAD";
    "ENOTRECOVERABLE"; "ERFKILL"; "EHWPOISON"]%string.

Definition MAX_ENAME : Z := 133.
Definition BUF_SIZE : nat := 500.

Section error_functions.
Context (strerror : Z → cstring) (EF_DUMPCORE : option cstring).

Definition fflush_stdout : M estate unit :=
  modify (λ s, EState [] (e_stdout s ++ e_buffered s) (e_stderr s) (e_errno s)).
Definition fputs_stderr (t : cstring) : M estate unit :=
  modify (λ s, EState (e_buffered s) (e_stdout s) (e_stderr s ++ t) (e_errno s)).
(** A library call may set [errno]; [e] is what it leaves there. *)
Definition set_errno (e : Z) : M estate unit :=
  modify (λ s, EState (e_buffered s) (e_stdout s) (e_stderr s) e).

(** [exit] flushes standard output, [_exit] does not. *)
Definition terminate {A} (useExit3 : bool) : M estate A :=
  match EF_DUMPCORE with
  | Some (_ :: _) => stop Abort
  | _ => if useExit3 then fflush_stdout ;; exit EXIT_FAILURE else exit EXIT_FAILURE
  end.

Definition errName (err : Z) : cstring :=
  if (0 <? err) && (err <=? MAX_ENAME) then cs (default "" (ename !! Z.to_nat err))
  else cs "?UNKNOWN?".

Definition outputError (useErr : bool) (err : Z) (flushStdout : bool) (message : cstring) :
    M estate unit :=
  let userMsg := snprintf BUF_SIZE message in
  let errText :=
    if useErr then snprintf BUF_SIZE (cs " [" ++ errName err ++ cs " " ++ strerror err ++ cs "]")
    else snprintf BUF_SIZE (cs ":") in
  let buf := snprintf BUF_SIZE (cs "ERROR" ++ errText ++ cs " " ++ userMsg ++ [NL]) in
  when flushStdout fflush_stdout ;;
  fputs_stderr buf.

(** [leaked]: the value the output calls leave in [errno]. *)
Definition errMsg (leaked : Z) (message : cstring) : M estate unit :=
  savedErrno ← gets e_errno ;
  outputError true savedErrno true message ;;
  set_errno leaked ;;
  set_errno savedErrno.

Definition errExit {A} (message : cstring) : M estate A :=
  errno ← gets e_errno ; outputError true errno true message ;; terminate true.

Definition err_exit {A} (message : cstring) : M estate A :=
  errno ← gets e_errno ; outputError true errno false message ;; terminate false.

Definition errExitEN {A} (errnum : Z) (message : cstring) : M estate A :=
  outputError true errnum true message ;; terminate true.

Definition fatal {A} (message : cstring) : M estate A :=
  outputError false 0 true message ;; terminate true.

Definition usageErr {A} (message : cstring) : M estate A :=
  fflush_stdout ;; fputs_stderr (cs "Usage: ") ;; fputs_stderr message ;;
  fflush_stdout ;; exit EXIT_FAILURE.

Definition cmdLineErr {A} (message : cstring) : M estate A :=
  fflush_stdout ;; fputs_stderr (cs "Command-line usage error: ") ;; fputs_stderr message ;;
  fflush_stdout ;; exit EXIT_FAILURE.

(** ** Properties *)

(** The line an error function writes. *)
Definition error_line (useErr : bool) (err : Z) (message : cstring) : cstring :=
  cs "ERROR" ++
  (if useErr then cs " [" ++ errName err ++ cs " " ++ strerror err ++ cs "]" else cs ":") ++
  cs " " ++ message ++ [NL].

(** Truncating a part before truncating the whole makes no difference. *)
Lemma snprintf_inner n (a b c : cstring) :
  snprintf n (a ++ snprintf n b ++ c) = snprintf n (a ++ b ++ c).
Proof.
  rw /snprintf !take_app. f_equal.
  destruct (decide (length b ≤ n - 1)%nat) as [Hl|Hl]; [by rw (take_ge b)|].
  rw take_take. assert ((n - 1 - length a) `min` (n - 1) = n - 1 - length a)%nat as -> by lia.
  f_equal. rw !length_take.
  by assert (n - 1 - length a - (n - 1) `min` length b = 0 ∧
             n - 1 - length a - length b = 0)%nat as [-> ->] by lia.
Qed.

Lemma outputError_eq useErr err fl message s :
  outputError useErr err fl message s =
  (Ret tt, EState (if fl then [] else e_buffered s)
             (if fl then e_stdout s ++ e_buffered s else e_stdout s)
             (e_stderr s ++ snprintf BUF_SIZE (error_line useErr err message)) (e_errno s)).
Proof.
  rw /outputError /error_line. set T := (if useErr then cs " [" ++ _ else cs ":").
  assert ((if useErr then snprintf BUF_SIZE (cs " [" ++ errName err ++ cs " " ++ strerror err ++ cs "]")
           else snprintf BUF_SIZE (cs ":")) = snprintf BUF_SIZE T) as -> by by destruct useErr.
  rw snprintf_inner. rw (app_assoc T) (app_assoc (cs "ERROR")) snprintf_inner -!app_assoc.
  by destruct fl.
Qed.

Lemma errExit_eq {A} message s :
  @errExit A message s =
  (if bool_decide (EF_DUMPCORE ≠ None ∧ EF_DUMPCORE ≠ Some []) then Abort else Exit EXIT_FAILURE,
   EState [] (e_stdout s ++ e_buffered s)
     (e_stderr s ++ snprintf BUF_SIZE (error_line true (e_errno s) message)) (e_errno s)).
Proof.
  rw /errExit (bind_Ret (gets _) _ _ _ _ eq_refl).
  rw (bind_Ret _ _ _ _ _ (outputError_eq true (e_errno s) true message s)) /terminate.
  destruct EF_DUMPCORE as [[|c r]|]; [|done|].
  all: rw (bind_Ret fflush_stdout _ _ _ _ eq_refl) /exit /stop; by rw app_nil_r.
Qed.

(** errExit flushes the pending standard output, writes one error line cut
    off at 499 characters, and then dumps core exactly when EF_DUMPCORE is
    set and nonempty, exiting with EXIT_FAILURE otherwise. *)
Lemma errExit_spec message s :
  @errExit unit message s =
  (if bool_decide (EF_DUMPCORE ≠ None ∧ EF_DUMPCORE ≠ Some []) then Abort else Exit EXIT_FAILURE,
   EState [] (e_stdout s ++ e_buffered s)
     (e_stderr s ++ snprintf BUF_SIZE (error_line true (e_errno s) message)) (e_errno s)).
Proof. apply errExit_eq. Qed.

(** errMsg reports the current errno and leaves it unchanged, whatever the
    output calls did to it. *)
Lemma errMsg_keeps_errno leaked message s :
  errMsg leaked message s =
  (Ret tt, EState [] (e_stdout s ++ e_buffered s)
     (e_stderr s ++ snprintf BUF_SIZE (error_line true (e_errno s) message)) (e_errno s)).
Proof.
  rw /errMsg (bind_Ret (gets _) _ _ _ _ eq_refl).
  by rw (bind_Ret _ _ _ _ _ (outputError_eq true (e_errno s) true message s)).
Qed.
End error_functions.
