(* ===== verification/Process.v ===== *)
(** * Processes that print and make system calls

    The state shared by the models of the stand-alone programs: the text
    written to the two standard streams and the kernel.  [perror] and the
    macro [errExit] of those programs need the text of an error number, the
    class [Strerror]. *)

From S2P Require Import Prelude.

Record proc (K : Type) := Proc { p_out : cstring; p_err : cstring; p_os : K }.
Arguments Proc {K} _ _ _.
Arguments p_out {K} _.
Arguments p_err {K} _.
Arguments p_os {K} _.

Class Strerror (K : Type) := strerror : Z → cstring.

Section process.
Context {K : Type} `{!Strerror K}.
Abbreviation P := (M (proc K)).
Implicit Types s : proc K.

Definition psys {A} (f : K → A * K) : P A := λ s,
  let '(a, k) := f (p_os s) in (Ret a, Proc (p_out s) (p_err s) k).
Definition printf (t : cstring) : P unit :=
  modify (λ s, Proc (p_out s ++ t) (p_err s) (p_os s)).
Definition eprintf (t : cstring) : P unit :=
  modify (λ s, Proc (p_out s) (p_err s ++ t) (p_os s)).
Definition perror (msg : cstring) (errno : Z) : P unit :=
  eprintf (msg ++ cs ": " ++ strerror errno ++ [NL]).
Definition errExit {A} (msg : cstring) (errno : Z) : P A :=
  perror msg errno ;; exit EXIT_FAILURE.

(** [if (call == -1) errExit(msg)], yielding the call's value. *)
Definition checked {A} (msg : string) (f : K → res A * K) : P A :=
  r ← psys f ;
  match r with
  | inl e => errExit (cs msg) e
  | inr v => mret v
  end.

(** A call whose result is ignored. *)
Definition psys_ {A} (f : K → A * K) : P unit := psys f ;; mret tt.

Lemma psys_ok {A} (f : K → A * K) s v k :
  f (p_os s) = (v, k) → psys f s = (Ret v, Proc (p_out s) (p_err s) k).
Proof. intros H. by rw /psys H. Qed.

Lemma checked_ok {A} msg (f : K → res A * K) s v k :
  f (p_os s) = (inr v, k) → checked msg f s = (Ret v, Proc (p_out s) (p_err s) k).
Proof. intros H. by rw /checked (bind_Ret _ _ _ _ _ (psys_ok f s _ _ H)). Qed.

Lemma safe_psys {A} (f : K → A * K) (Q : A → proc K → Prop) s :
  (∀ v k, f (p_os s) = (v, k) → Q v (Proc (p_out s) (p_err s) k)) → safe (psys f) Q s.
Proof. intros H. rw /safe /psys. destruct (f (p_os s)) as [v k] eqn:E. by apply H. Qed.

Lemma safe_checked {A} msg (f : K → res A * K) (Q : A → proc K → Prop) s :
  (∀ v k, f (p_os s) = (inr v, k) → Q v (Proc (p_out s) (p_err s) k)) →
  safe (checked msg f) Q s.
Proof.
  intros H. rw /checked. apply safe_bind, safe_psys. intros [e|v] k Hf; [done|by apply H].
Qed.

Lemma safe_printf t (Q : unit → proc K → Prop) s :
  Q tt (Proc (p_out s ++ t) (p_err s) (p_os s)) → safe (printf t) Q s.
Proof. done. Qed.

Lemma safe_eprintf t (Q : unit → proc K → Prop) s :
  Q tt (Proc (p_out s) (p_err s ++ t) (p_os s)) → safe (eprintf t) Q s.
Proof. done. Qed.

Lemma safe_psys_ {A} (f : K → A * K) (Q : unit → proc K → Prop) s :
  (∀ v k, f (p_os s) = (v, k) → Q tt (Proc (p_out s) (p_err s) k)) → safe (psys_ f) Q s.
Proof. intros H. rw /psys_. apply safe_bind, safe_psys. intros v k Hf. by eapply H, Hf. Qed.

Lemma strict_psys {A} F (f : K → A * K) (Q : A → proc K → Prop) s :
  (∀ v k, f (p_os s) = (v, k) → Q v (Proc (p_out s) (p_err s) k)) → strict F (psys f) Q s.
Proof. intros H. rw /strict /psys. destruct (f (p_os s)) as [v k] eqn:E. by apply H. Qed.

Lemma strict_checked {A} (F : Prop) msg (f : K → res A * K) (Q : A → proc K → Prop) s :
  (∀ v k, f (p_os s) = (inr v, k) → Q v (Proc (p_out s) (p_err s) k)) →
  (∀ e k, f (p_os s) = (inl e, k) → F) →
  strict F (checked msg f) Q s.
Proof.
  intros H HF. rw /checked. apply strict_bind, strict_psys. intros [e|v] k Hf; [|by apply H].
  split; [done|exact (HF _ _ Hf)].
Qed.

(** A computation that never crashes nor runs out of fuel. *)
Definition total {A} (m : P A) : Prop := ∀ s, safe m (λ _ _, True) s.

Lemma total_ret {A} (a : A) : total (mret a).
Proof. by intros s. Qed.

Lemma total_bind {A B} (m : P A) (k : A → P B) : total m → (∀ a, total (k a)) → total (m ≫= k).
Proof.
  intros Hm Hk s. apply safe_bind. eapply safe_conseq; [apply Hm|]. intros a s' _. apply Hk.
Qed.

Lemma total_psys {A} (f : K → A * K) : total (psys f).
Proof. intros s. by apply safe_psys. Qed.

Lemma total_psys_ {A} (f : K → A * K) : total (psys_ f).
Proof. intros s. by apply safe_psys_. Qed.

Lemma total_checked {A} msg (f : K → res A * K) : total (checked msg f).
Proof. intros s. by apply safe_checked. Qed.

Lemma total_exit {A} n : total (@exit (proc K) A n).
Proof. by intros s. Qed.

Lemma total_for_each {A} (l : list A) f : (∀ x, x ∈ l → total (f x)) → total (for_each l f).
Proof.
  elim: l => [|x l IH] Hf /=; [apply total_ret|].
  apply total_bind; [apply Hf; set_solver|]. intros _. apply IH. intros y Hy. apply Hf. set_solver.
Qed.
End process.

(** Syntax-directed proof that a computation is total. *)
Create HintDb total.
Ltac total_step :=
  lazymatch goal with
  | |- total (mbind _ _) => apply total_bind; [|intros ?]
  | |- total (mret _) => apply total_ret
  | |- total (psys _) => apply total_psys
  | |- total (psys_ _) => apply total_psys_
  | |- total (checked _ _) => apply total_checked
  | |- total (exit _) => apply total_exit
  | |- total (printf _) => by intros ?
  | |- total (eprintf _) => by intros ?
  | |- total (errExit _ _) => by intros ?
  | |- total get => by intros ?
  | |- total (gets _) => by intros ?
  | |- total (when ?b _) => destruct b; [|apply total_ret]; cbn [when]
  | |- total (match ?x with _ => _ end) => destruct x
  | |- _ => solve [eauto 2 with total nocore]
  end.
Ltac total := repeat total_step.
