(* ===== verification/GetNum.v ===== *)
(** * Command-line numbers: [lib/get_num.c]

    [getNum] and its two clients.  The state is the text written to standard
    error; a rejected argument ends the process with [EXIT_FAILURE]. *)

From S2P Require Import Prelude CStdlib.

Definition GN_NONNEG : Z := 1.
Definition GN_GT_0 : Z := 2.
Definition GN_ANY_BASE : Z := 64.
Definition GN_BASE_8 : Z := 128.
Definition GN_BASE_16 : Z := 256.

Definition gnFail {A} (fname msg : cstring) (arg name : option cstring) : M cstring A :=
  modify (λ err, err ++ fname ++ cs " error") ;;
  match name with
  | Some n => modify (λ err, err ++ cs " (in " ++ n ++ cs ")")
  | None => mret tt
  end ;;
  modify (λ err, err ++ cs ": " ++ msg ++ [NL]) ;;
  match arg with
  | Some (c :: r) => modify (λ err, err ++ cs "        offending text: " ++ c :: r ++ [NL])
  | _ => mret tt
  end ;;
  exit EXIT_FAILURE.

Definition gnBase (flags : Z) : Z :=
  if flag flags GN_ANY_BASE then 0
  else if flag flags GN_BASE_8 then 8
  else if flag flags GN_BASE_16 then 16 else 10.

Definition getNum (fname : cstring) (arg : option cstring) (flags : Z)
    (name : option cstring) : M cstring Z :=
  match arg with
  | None | Some [] => gnFail fname (cs "null or empty string") arg name
  | Some a =>
      let '(res, endptr, errno) := strtol a (gnBase flags) in
      if negb (errno =? 0) then gnFail fname (cs "strtol() failed") arg name
      else if negb (bool_decide (endptr = [])) then
        gnFail fname (cs "nonnumeric characters") arg name
      else if flag flags GN_NONNEG && (res <? 0) then
        gnFail fname (cs "negative value not allowed") arg name
      else if flag flags GN_GT_0 && (res <=? 0) then
        gnFail fname (cs "value must be > 0") arg name
      else mret res
  end.

Definition getLong (arg : option cstring) (flags : Z) (name : option cstring) : M cstring Z :=
  getNum (cs "getLong") arg flags name.

Definition getInt (arg : option cstring) (flags : Z) (name : option cstring) : M cstring Z :=
  res ← getNum (cs "getInt") arg flags name ;
  if (INT_MAX <? res) || (res <? INT_MIN)
  then gnFail (cs "getInt") (cs "integer out of range") arg name
  else mret (to_int res).

(** ** Correctness *)

(** The constraints the flags put on an accepted value. *)
Definition gn_ok (flags v : Z) : Prop :=
  (flag flags GN_NONNEG = true → 0 ≤ v) ∧ (flag flags GN_GT_0 = true → 0 < v).

Lemma gnFail_exits {A} fname msg arg name err :
  ∃ err', @gnFail A fname msg arg name err = (Exit EXIT_FAILURE, err ++ err') ∧ err' ≠ [].
Proof.
  rw /gnFail /mbind /M_bind /modify /mret /M_ret /exit /stop.
  destruct name, arg as [[]|]; cbn; rw -!app_assoc;
    (eexists; split; [reflexivity|]); by destruct fname.
Qed.

(** A hypothesis that a failing call returned is absurd. *)
Ltac gn_absurd H :=
  simpl in H;
  match type of H with
  | gnFail ?f ?m ?x ?n ?e = (Ret ?v, _) =>
      destruct (@gnFail_exits Z f m x n e) as (? & Hf & _); by rw Hf in H
  end.

Section get_num.
Context (fname : cstring) (flags : Z) (name : option cstring).

Lemma getNum_returns arg err v err' :
  getNum fname arg flags name err = (Ret v, err') ↔
  err' = err ∧ gn_ok flags v ∧
  ∃ a, arg = Some a ∧ a ≠ [] ∧ strtol a (gnBase flags) = (v, [], 0).
Proof.
  rw /getNum /gn_ok. split.
  - intros H. destruct arg as [[|c a]|]; [gn_absurd H| |gn_absurd H].
    destruct (strtol (c :: a) (gnBase flags)) as [[r e] en] eqn:Hst.
    destruct (Z.eqb_spec en 0) as [->|]; [|gn_absurd H].
    destruct e as [|? ?]; [|gn_absurd H]. simpl in H.
    destruct (flag flags GN_NONNEG) eqn:F1, (Z.ltb_spec r 0); simpl in H;
      try gn_absurd H;
      destruct (flag flags GN_GT_0) eqn:F2, (Z.leb_spec r 0); simpl in H;
      try gn_absurd H; injection H as -> ->; naive_solver.
  - intros (-> & [Hn Hp] & a & -> & Ha & Hst).
    destruct a as [|c a]; [done|]. rw Hst /=.
    destruct (flag flags GN_NONNEG), (Z.ltb_spec v 0); simpl;
      try (specialize (Hn eq_refl); lia);
      destruct (flag flags GN_GT_0), (Z.leb_spec v 0); simpl;
      try (specialize (Hp eq_refl); lia); done.
Qed.

Lemma getNum_total arg err :
  (∃ v, getNum fname arg flags name err = (Ret v, err)) ∨
  (∃ err', getNum fname arg flags name err = (Exit EXIT_FAILURE, err ++ err') ∧ err' ≠ []).
Proof.
  rw /getNum. repeat case_match; try (right; apply gnFail_exits). left. by eexists.
Qed.
End get_num.

(** What an accepted command-line number is: a text in the language of the
    flags' base, whose value fits and satisfies the flags. *)
Definition int_argument (flags : Z) (a : cstring) (v : Z) : Prop :=
  numeral (gnBase flags) a v ∧ in_int v ∧ gn_ok flags v.

Lemma getInt_iff (a : cstring) (flags v : Z) (name : option cstring) (err : cstring) :
  gnBase flags = 8 ∨ gnBase flags = 10 → a ≠ [] →
  getInt (Some a) flags name err = (Ret v, err) ↔ int_argument flags a v.
Proof.
  intros Hb Ha. rw /getInt /int_argument. split.
  - intros H.
    destruct (getNum_total (cs "getInt") flags name (Some a) err)
      as [[r Hr] | (e & Hr & _)]; rw /mbind /M_bind Hr in H; [|done].
    destruct (Z.ltb_spec INT_MAX r), (Z.ltb_spec r INT_MIN); simpl in H; try gn_absurd H.
    injection H as <-. rw to_int_id; [done|].
    apply getNum_returns in Hr as (_ & ? & a' & [= <-] & _ & Hst).
    apply strtol_numeral in Hst as [? _]; done.
  - intros (Hn & Hv & Hok).
    assert (getNum (cs "getInt") (Some a) flags name err = (Ret v, err)) as Hr.
    { apply getNum_returns. split_and!; try done. exists a. split_and!; try done.
      apply strtol_numeral; [done..|]. split; [done|].
      rw /in_long /LONG_MIN /LONG_MAX. rw /in_int /INT_MIN /INT_MAX in Hv. lia. }
    rw (bind_Ret _ _ _ _ _ Hr). destruct Hv.
    destruct (Z.ltb_spec INT_MAX v), (Z.ltb_spec v INT_MIN); try lia. by rw to_int_id.
Qed.

(** getInt accepts exactly the numerals of ints (in bases 8 and 10)
    that satisfy the flags, and returns their value without touching stderr. *)
Lemma getInt_accepts (a : cstring) (flags v : Z) (name : option cstring) (err : cstring) :
  gnBase flags = 8 ∨ gnBase flags = 10 → a ≠ [] →
  getInt (Some a) flags name err = (Ret v, err) ↔ int_argument flags a v.
Proof. apply getInt_iff. Qed.

Lemma getInt_accepts_witness :
  getInt (Some (cs " -42")) 0 None [] = (Ret (-42), []) ↔ int_argument 0 (cs " -42") (-42).
Proof. apply getInt_accepts; [right; reflexivity|discriminate]. Defined.

(** Printing an int in decimal and parsing it with getInt is the identity. *)
Lemma getInt_roundtrip (z : Z) (name : option cstring) (err : cstring) :
  in_int z → getInt (Some (fmt_d z)) 0 name err = (Ret z, err).
Proof.
  intros Hz. apply getInt_iff; [by right|apply fmt_d_not_nil|].
  split_and!; [apply fmt_d_numeral|done|by split].
Qed.

Lemma getInt_roundtrip_witness :
  getInt (Some (fmt_d INT_MIN)) 0 None [] = (Ret INT_MIN, []).
Proof. apply getInt_roundtrip. by split. Defined.

(** getInt either returns an int that satisfies the flags, or ends
    the process with EXIT_FAILURE after writing a diagnostic. *)
Lemma getInt_total (arg : option cstring) (flags : Z) (name : option cstring) (err : cstring) :
  (∃ v, getInt arg flags name err = (Ret v, err) ∧ in_int v ∧ gn_ok flags v) ∨
  (∃ msg, getInt arg flags name err = (Exit EXIT_FAILURE, err ++ msg) ∧ msg ≠ []).
Proof.
  rw /getInt /mbind /M_bind.
  destruct (getNum_total (cs "getInt") flags name arg err) as [[r Hr] | (e & Hr & He)];
    rw Hr; [|right; eauto].
  destruct (Z.ltb_spec INT_MAX r), (Z.ltb_spec r INT_MIN); simpl;
    try (right; apply gnFail_exits).
  left. exists r. rw to_int_id; [done|]. split_and!; [done..|].
  by apply getNum_returns in Hr as (_ & ? & _).
Qed.
