(* ===== verification/Ugid.v ===== *)
(** * Names and numbers of users and groups: [users_groups/ugid_functions.c]

    The password and group databases are parameters.  A [uid_t] or [gid_t] is
    an unsigned 32-bit number, and the error value -1 is [NO_ID]. *)

From S2P Require Import Prelude CStdlib.

Definition NO_ID : Z := 4294967295.

Section ugid.
Context (getpwuid getgrgid : Z → option cstring) (getpwnam getgrnam : cstring → option Z).

Definition userNameFromId (uid : Z) : option cstring := getpwuid uid.

Definition userIdFromName (name : option cstring) : Z :=
  match name with
  | None | Some [] => NO_ID
  | Some n =>
      let '(v, endptr, _) := strtol n 10 in
      let u := to_uint v in
      if bool_decide (endptr = []) then u
      else match getpwnam n with
           | None => NO_ID
           | Some uid => uid
           end
  end.

Definition groupNameFromId (gid : Z) : option cstring := getgrgid gid.

Definition groupIdFromName (name : option cstring) : Z :=
  match name with
  | None | Some [] => NO_ID
  | Some n =>
      let '(v, endptr, _) := strtol n 10 in
      let g := to_uint v in
      if bool_decide (endptr = []) then g
      else match getgrnam n with
           | None => NO_ID
           | Some gid => gid
           end
  end.

Lemma id_of_number z :
  in_long z →
  userIdFromName (Some (fmt_d z)) = to_uint z ∧ groupIdFromName (Some (fmt_d z)) = to_uint z.
Proof.
  intros Hz. rw /userIdFromName /groupIdFromName.
  destruct (fmt_d z) as [|c r] eqn:E; [by destruct (fmt_d_not_nil z)|].
  by rw -E strtol_fmt_d.
Qed.

(** The text of a number names the id with its low 32 bits: every id round-trips, and a
    number that is out of range for an id is taken for another one (for
    instance 4294967296 for root) instead of being refused. *)
Lemma numeric_names_wrap z :
  in_long z →
  userIdFromName (Some (fmt_d z)) = z mod 2 ^ 32 ∧
  groupIdFromName (Some (fmt_d z)) = z mod 2 ^ 32.
Proof. apply id_of_number. Qed.
End ugid.

Lemma numeric_names_wrap_witness :
  userIdFromName (λ _, None) (Some (fmt_d 4294967296)) = 4294967296 mod 2 ^ 32 ∧
  groupIdFromName (λ _, None) (Some (fmt_d 4294967296)) = 4294967296 mod 2 ^ 32.
Proof.
  apply (numeric_names_wrap (λ _, None) (λ _, None) 4294967296).
  rw /in_long /LONG_MIN /LONG_MAX. lia.
Defined.
