(* ===== verification/SockIO.v ===== *)
(** * Reading and writing byte streams: [sockets/rdwrn.c], [sockets/read_line.c],
      [sockets/read_line_buf.c]

    The descriptors come from an interface: [Stream] gives the results of
    [read] and [write], [StreamOk] what POSIX says of them, stated with the
    bytes still to arrive ([pending]), the bytes delivered ([written]) and a
    bound on the interruptions to come.  Loops take fuel; the theorems show
    that fuel linear in the bytes and the interruptions is enough. *)

From S2P Require Import Prelude.

Class Stream (K : Type) := {
  st_read : Z → nat → K → res (list ascii) * K;
  st_write : Z → list ascii → K → res nat * K;
}.

Class StreamOk (K : Type) `{!Stream K} (fd : Z) := {
  pending : K → list ascii;
  written : K → list ascii;
  interrupts : K → nat;
  st_read_ok n k d k' :
    st_read fd n k = (inr d, k') → (0 < n)%nat →
    pending k = d ++ pending k' ∧ (length d ≤ n)%nat ∧ (d = [] → pending k = []) ∧
    written k' = written k ∧ (interrupts k' ≤ interrupts k)%nat;
  st_read_err n k e k' :
    st_read fd n k = (inl e, k') →
    pending k' = pending k ∧ written k' = written k ∧
    (e = EINTR → interrupts k' < interrupts k)%nat;
  st_write_ok d k c k' :
    st_write fd d k = (inr c, k') → d ≠ [] →
    (0 < c ≤ length d)%nat ∧ written k' = written k ++ take c d ∧
    pending k' = pending k ∧ (interrupts k' ≤ interrupts k)%nat;
  st_write_err d k e k' :
    st_write fd d k = (inl e, k') →
    pending k' = pending k ∧ written k' = written k ∧
    (e = EINTR → interrupts k' < interrupts k)%nat;
}.

Section io.
Context {K : Type} `{!Stream K}.

Definition sysS {A} (f : K → A * K) : M K A := λ k, let '(a, k') := f k in (Ret a, k').

(** ** [readn] and [writen]

    A result [inl e] is the return value -1 with [errno] set to [e]. *)

Fixpoint readn_loop (fuel : nat) (fd : Z) (buf : list ascii) (n totRead : nat) :
    M K (res nat * list ascii) :=
  match fuel with
  | O => stop NoFuel
  | S f =>
      if (totRead <? n)%nat then
        r ← sysS (st_read fd (n - totRead)) ;
        match r with
        | inr [] => mret (inr totRead, buf)
        | inl e => if e =? EINTR then readn_loop f fd buf n totRead else mret (inl e, buf)
        | inr d => readn_loop f fd (store buf totRead d) n (totRead + length d)
        end
      else mret (inr totRead, buf)
  end.

Definition readn (fuel : nat) (fd : Z) (buffer : list ascii) (n : nat) :
    M K (res nat * list ascii) :=
  readn_loop fuel fd buffer n 0.

Fixpoint writen_loop (fuel : nat) (fd : Z) (buffer : list ascii) (n totWritten : nat) :
    M K (res nat) :=
  match fuel with
  | O => stop NoFuel
  | S f =>
      if (totWritten <? n)%nat then
        r ← sysS (st_write fd (take (n - totWritten) (drop totWritten buffer))) ;
        match r with
        | inr O => mret (inl 0)
        | inl e => if e =? EINTR then writen_loop f fd buffer n totWritten else mret (inl e)
        | inr c => writen_loop f fd buffer n (totWritten + c)
        end
      else mret (inr totWritten)
  end.

Definition writen (fuel : nat) (fd : Z) (buffer : list ascii) (n : nat) : M K (res nat) :=
  writen_loop fuel fd buffer n 0.

(** ** [readLine] *)

Fixpoint readLine_loop (fuel : nat) (fd : Z) (buf : list ascii) (n totRead : nat) :
    M K (res nat * list ascii) :=
  match fuel with
  | O => stop NoFuel
  | S f =>
      r ← sysS (st_read fd 1) ;
      match r with
      | inl e => if e =? EINTR then readLine_loop f fd buf n totRead else mret (inl e, buf)
      | inr [] =>
          if (totRead =? 0)%nat then mret (inr 0%nat, buf)
          else mret (inr totRead, store buf totRead [NUL])
      | inr (ch :: _) =>
          let '(totRead', buf') :=
            if (totRead <? n - 1)%nat then (S totRead, store buf totRead [ch])
            else (totRead, buf) in
          if decide (ch = NL) then mret (inr totRead', store buf' totRead' [NUL])
          else readLine_loop f fd buf' n totRead'
      end
  end.

Definition readLine (fuel : nat) (fd : Z) (buffer : option (list ascii)) (n : nat) :
    M K (res nat * list ascii) :=
  match buffer with
  | Some buf => if (n <=? 0)%nat then mret (inl EINVAL, buf)
                else readLine_loop fuel fd buf n 0
  | None => mret (inl EINVAL, [])
  end.

(** ** [readLineBuf] *)

Definition RL_MAX_BUF : nat := 10.

Record ReadLineBuf := RLBuf { rl_fd : Z; rl_buf : list ascii; rl_next : Z; rl_len : Z }.

Definition readLineBufInit (fd : Z) (rl : ReadLineBuf) : ReadLineBuf :=
  RLBuf fd (rl_buf rl) 0 0.

(** Take the next character of the structure's buffer. *)
Definition rl_getc (rl : ReadLineBuf) : ascii * ReadLineBuf :=
  (default NUL (rl_buf rl !! Z.to_nat (rl_next rl)),
   RLBuf (rl_fd rl) (rl_buf rl) (rl_next rl + 1) (rl_len rl)).

Fixpoint readLineBuf_loop (fuel : nat) (rl : ReadLineBuf) (buffer : list ascii) (n cnt : nat) :
    M K (res nat * list ascii * ReadLineBuf) :=
  let take_char f rl :=
    let '(c, rl') := rl_getc rl in
    let '(cnt', buffer') :=
      if (cnt <? n)%nat then (S cnt, store buffer cnt [c]) else (cnt, buffer) in
    if decide (c = NL) then mret (inr cnt', buffer', rl')
    else readLineBuf_loop f rl' buffer' n cnt' in
  match fuel with
  | O => stop NoFuel
  | S f =>
      if rl_len rl <=? rl_next rl then
        r ← sysS (st_read (rl_fd rl) RL_MAX_BUF) ;
        match r with
        | inl e => mret (inl e, buffer, RLBuf (rl_fd rl) (rl_buf rl) (rl_next rl) (-1))
        | inr [] => mret (inr cnt, buffer, RLBuf (rl_fd rl) (rl_buf rl) (rl_next rl) 0)
        | inr d => take_char f (RLBuf (rl_fd rl) (store (rl_buf rl) 0 d) 0 (Z.of_nat (length d)))
        end
      else take_char f rl
  end.

Definition readLineBuf (fuel : nat) (rl : ReadLineBuf) (buffer : option (list ascii)) (n : nat) :
    M K (res nat * list ascii * ReadLineBuf) :=
  match buffer with
  | Some buf => if (n <=? 0)%nat then mret (inl EINVAL, buf, rl)
                else readLineBuf_loop fuel rl buf n 0
  | None => mret (inl EINVAL, [], rl)
  end.
End io.

(** ** Correctness *)

(** The first line of a byte sequence, with its newline, and the rest. *)
Fixpoint span_line (p : list ascii) : list ascii * list ascii :=
  match p with
  | [] => ([], [])
  | c :: r => if decide (c = NL) then ([c], r)
              else let '(l, rest) := span_line r in (c :: l, rest)
  end.

Lemma span_line_app p : (span_line p).1 ++ (span_line p).2 = p.
Proof.
  elim: p => [//|c r IH] /=. case_decide; [done|].
  destruct (span_line r) as [l rest]. simpl in *. by rw IH.
Qed.

Section correct.
Context {K : Type} `{!Stream K} (fd : Z) `{Ok : !StreamOk K fd}.

Lemma readn_loop_spec fuel buf n tot k :
  (n ≤ length buf)%nat → (tot ≤ n)%nat → (n - tot + interrupts k < fuel)%nat →
  ∃ o buf' k', readn_loop fuel fd buf n tot k = (Ret (o, buf'), k') ∧
    match o with
    | inr c => c = (tot + Nat.min (n - tot) (length (pending k)))%nat ∧
               buf' = store buf tot (take (n - tot) (pending k)) ∧
               pending k' = drop (n - tot) (pending k)
    | inl e => e ≠ EINTR ∧ ∃ d, pending k = d ++ pending k' ∧ (length d < n - tot)%nat ∧
               buf' = store buf tot d
    end.
Proof.
  elim: fuel buf tot k => [|fuel IH] buf tot k Hbuf Htot Hfuel; [lia|].
  cbn [readn_loop]. destruct (Nat.ltb_spec tot n) as [Hlt|Hge].
  2:{ assert (n - tot = 0)%nat as -> by lia. eexists _, _, _. split; [done|].
      rw /= Nat.add_0_r store_nil //. lia. }
  rw /mbind /M_bind /sysS.
  destruct (st_read fd (n - tot) k) as [[e|d] k1] eqn:Hr.
  - destruct (st_read_err _ _ _ _ Hr) as (Hp & _ & Hi).
    destruct (Z.eqb_spec e EINTR) as [He|He].
    + rw -Hp. apply IH; [done..|]. specialize (Hi He). lia.
    + eexists _, _, _. split; [done|]. split; [done|]. exists [].
      rw Hp store_nil /=; [lia|]. split_and!; [done|lia|done].
  - destruct (st_read_ok _ _ _ _ Hr) as (Hp & Hl & Hn & _ & Hi); [lia|].
    destruct d as [|c d].
    + eexists _, _, _. split; [done|]. rw (Hn eq_refl) in Hp |- *. simpl in Hp.
      rw take_nil drop_nil store_nil /=; [lia|]. split_and!; [lia|done|done].
    + set dd := c :: d in Hp, Hl |- *. assert (0 < length dd)%nat by (simpl; lia).
      destruct (IH (store buf tot dd) (tot + length dd)%nat k1)
        as (o & buf' & k' & Hgo & Ho); [rw length_store; lia|lia|lia|].
      exists o, buf', k'. split; [exact Hgo|].
      rw Hp. destruct o as [e|cnt].
      * destruct Ho as (He & d2 & -> & Hd2 & ->). split; [done|]. exists (dd ++ d2).
        rw -app_assoc store_store ?length_app; [lia|]. split_and!; [done|lia|done].
      * destruct Ho as (-> & -> & ->).
        rw length_app store_store; [lia|].
        rw take_app_ge // drop_app_ge // !Nat.sub_add_distr.
        split_and!; [lia|done|done].
Qed.

(** readn, whatever short reads and interruptions the descriptor produces, returns the
    next n bytes of the stream, or what is left of it before end of file; on
    another error it leaves the bytes it had already taken in the buffer. *)
Lemma readn_spec fuel buf n k :
  (n ≤ length buf)%nat → (n + interrupts k < fuel)%nat →
  ∃ o buf' k', readn fuel fd buf n k = (Ret (o, buf'), k') ∧
    match o with
    | inr c => c = Nat.min n (length (pending k)) ∧
               buf' = store buf 0 (take n (pending k)) ∧ pending k' = drop n (pending k)
    | inl e => e ≠ EINTR ∧ ∃ d, pending k = d ++ pending k' ∧ (length d < n)%nat ∧
               buf' = store buf 0 d
    end.
Proof.
  intros Hn Hf. destruct (readn_loop_spec fuel buf n 0 k) as (o & buf' & k' & H); [lia..|].
  rw Nat.sub_0_r in H. by exists o, buf', k'.
Qed.

Lemma writen_loop_spec fuel buf n tot k :
  (n ≤ length buf)%nat → (tot ≤ n)%nat → (n - tot + interrupts k < fuel)%nat →
  ∃ o k', writen_loop fuel fd buf n tot k = (Ret o, k') ∧ pending k' = pending k ∧
    match o with
    | inr c => c = n ∧ written k' = written k ++ take (n - tot) (drop tot buf)
    | inl e => e ≠ EINTR ∧ ∃ c, (c < n - tot)%nat ∧
               written k' = written k ++ take c (drop tot buf)
    end.
Proof.
  elim: fuel tot k => [|fuel IH] tot k Hbuf Htot Hfuel; [lia|].
  cbn [writen_loop]. destruct (Nat.ltb_spec tot n) as [Hlt|Hge].
  2:{ assert (n - tot = 0)%nat as -> by lia. eexists _, _. split; [done|].
      rw /= app_nil_r. split_and!; [done|lia|done]. }
  rw /mbind /M_bind /sysS. set d := take (n - tot) (drop tot buf).
  assert (length d = n - tot)%nat as Hd by (rw length_take length_drop; lia).
  destruct (st_write fd d k) as [[e|c] k1] eqn:Hw.
  - destruct (st_write_err _ _ _ _ Hw) as (Hp & Hwr & Hi).
    destruct (Z.eqb_spec e EINTR) as [He|He].
    + rw -Hp -Hwr. apply IH; [done..|]. specialize (Hi He). lia.
    + eexists _, _. split; [done|]. split; [done|]. split; [done|]. exists 0%nat.
      rw /= app_nil_r. split; [lia|done].
  - destruct (st_write_ok _ _ _ _ Hw) as (Hc & Hwr & Hp & Hi).
    { intros E. rw E /= in Hd. lia. }
    destruct c as [|c']; [lia|]. set c := S c' in Hc, Hwr |- *. simpl in Hc.
    destruct (IH (tot + c)%nat k1) as (o & k' & Hgo & Hp' & Ho); [lia..|].
    exists o, k'. split; [exact Hgo|]. split; [congruence|].
    assert (∀ j, (j ≤ n - (tot + c))%nat →
      take c d ++ take j (drop (tot + c) buf) = take (c + j) (drop tot buf)) as Hj.
    { intros j Hj. rw -take_take_drop drop_drop. f_equal. rw /d take_take. f_equal. lia. }
    destruct o as [e|cnt].
    + destruct Ho as (He & j & Hlt' & Hj'). split; [done|]. exists (c + j)%nat.
      split; [lia|]. rw Hj' Hwr -app_assoc Hj //. lia.
    + destruct Ho as (-> & Hw'). split; [done|]. rw Hw' Hwr -app_assoc Hj //.
      f_equal. rw /d. f_equal. lia.
Qed.

(** writen delivers all n bytes in order, whatever the partial writes and interruptions;
    on another error a proper prefix of them was delivered. *)
Lemma writen_spec fuel buf n k :
  (n ≤ length buf)%nat → (n + interrupts k < fuel)%nat →
  ∃ o k', writen fuel fd buf n k = (Ret o, k') ∧ pending k' = pending k ∧
    match o with
    | inr c => c = n ∧ written k' = written k ++ take n buf
    | inl e => e ≠ EINTR ∧ ∃ c, (c < n)%nat ∧ written k' = written k ++ take c buf
    end.
Proof.
  intros Hn Hf. destruct (writen_loop_spec fuel buf n 0 k) as (o & k' & H); [lia..|].
  rw Nat.sub_0_r drop_0 in H. by exists o, k'.
Qed.

(** What a line reader with room for [room] more characters leaves in the
    buffer: the start of the line, then a null byte, unless the input ended
    before any character could be kept. *)
Definition line_stored (buf : list ascii) (tot room : nat) (line : list ascii) : list ascii :=
  let kept := take room line in
  if bool_decide ((NL ∉ line) ∧ (tot + length kept = 0)%nat) then buf
  else store buf tot (kept ++ [NUL]).

Lemma line_stored_step buf tot room c line :
  (tot < length buf)%nat → c ≠ NL →
  line_stored (store buf tot [c]) (S tot) room line = line_stored buf tot (S room) (c :: line).
Proof.
  intros Hl Hc. rw /line_stored. do 2 (rw bool_decide_eq_false_2; [intros [_ ?]; simpl in *; lia|]). simpl.
  rw store_cons //. lia.
Qed.

Lemma line_stored_skip buf tot c line :
  (0 < tot)%nat → line_stored buf tot 0 line = line_stored buf tot 0 (c :: line).
Proof. intros H. rw /line_stored. by do 2 (rw bool_decide_eq_false_2; [intros [_ ?]; simpl in *; lia|]). Qed.

Lemma line_stored_tight buf c line :
  c ≠ NL → line_stored buf 0 0 line = line_stored buf 0 0 (c :: line).
Proof.
  intros H. rw /line_stored /=. by assert (bool_decide ((NL ∉ line) ∧ 0%nat = 0%nat) =
    bool_decide ((NL ∉ c :: line) ∧ 0%nat = 0%nat)) as ->
    by (apply bool_decide_ext; rw not_elem_of_cons; naive_solver).
Qed.

Lemma readLine_loop_spec fuel buf n tot k :
  (0 < n ≤ length buf)%nat → (tot ≤ n - 1)%nat →
  (length (pending k) + interrupts k < fuel)%nat →
  ∃ o buf' k', readLine_loop fuel fd buf n tot k = (Ret (o, buf'), k') ∧
    let '(line, rest) := span_line (pending k) in
    match o with
    | inr c => c = (tot + Nat.min (n - 1 - tot) (length line))%nat ∧
               buf' = line_stored buf tot (n - 1 - tot) line ∧ pending k' = rest
    | inl e => e ≠ EINTR
    end.
Proof.
  elim: fuel buf tot k => [|fuel IH] buf tot k Hbuf Htot Hfuel; [lia|].
  cbn [readLine_loop]. rw /mbind /M_bind /sysS.
  destruct (st_read fd 1 k) as [[e|d] k1] eqn:Hr.
  { destruct (st_read_err _ _ _ _ Hr) as (Hp & _ & Hi).
    destruct (Z.eqb_spec e EINTR) as [He|He].
    - rw -Hp. apply IH; [done..|]. rw Hp. specialize (Hi He). lia.
    - eexists _, _, _. split; [done|]. by destruct (span_line _). }
  destruct (st_read_ok _ _ _ _ Hr) as (Hp & Hl & Hn & _ & Hi); [lia|].
  destruct d as [|ch [|? ?]]; [|clear Hl|simpl in Hl; lia].
  { rw (Hn eq_refl) in Hp |- *. simpl in *.
    destruct (Nat.eqb_spec tot 0) as [->|Ht]; eexists _, _, _; (split; [done|]);
      rw /line_stored take_nil Nat.min_0_r ?Nat.add_0_r; cbn [length app].
    - rw bool_decide_eq_true_2; [split; [set_solver|done]|done].
    - rw bool_decide_eq_false_2; [intros [_ ?]; lia|done]. }
  rw Hp. cbn [app span_line]. rw Hp /= in Hfuel.
  destruct (decide (ch = NL)) as [->|Hch].
  { destruct (Nat.ltb_spec tot (n - 1)) as [Hlt|Hge];
      (eexists _, _, _; split; [reflexivity|]);
      rw /line_stored bool_decide_eq_false_2; try by (intros [Hnl _]; apply Hnl; left).
    - destruct (n - 1 - tot)%nat as [|r] eqn:E; [lia|]. simpl. rw take_nil /=.
      rw store_cons; [lia|]. split_and!; [lia|done|done].
    - assert (n - 1 - tot = 0)%nat as -> by lia. split_and!; [lia|done|done]. }
  specialize (IH (if (tot <? n - 1)%nat then store buf tot [ch] else buf)
    (if (tot <? n - 1)%nat then S tot else tot) k1).
  destruct (span_line (pending k1)) as [line rest] eqn:Hsp.
  destruct (Nat.ltb_spec tot (n - 1)) as [Hlt|Hge];
    destruct IH as (o & buf' & k' & -> & Ho); rw ?length_store /=; try lia;
    (exists o, buf', k'; split; [done|]); destruct o as [|cnt]; try done;
    destruct Ho as (-> & -> & ->).
  - rw line_stored_step //; [lia|].
    assert (S (n - 1 - S tot) = n - 1 - tot)%nat as -> by lia. split_and!; [simpl; lia|done|done].
  - assert (n - 1 - tot = 0)%nat as -> by lia. split_and!; [lia| |done].
    destruct (decide (tot = 0%nat)) as [->|]; [by apply line_stored_tight|].
    apply line_stored_skip. lia.
Qed.

(** readLine consumes exactly the next line of the stream (or the rest of it, before end
    of file), keeps its first n-1 characters followed by a null byte, and
    returns how many it kept; it never writes past the n bytes of the buffer. *)
Lemma readLine_spec fuel buf n k :
  (0 < n ≤ length buf)%nat → (length (pending k) + interrupts k < fuel)%nat →
  ∃ o buf' k', readLine fuel fd (Some buf) n k = (Ret (o, buf'), k') ∧
    let '(line, rest) := span_line (pending k) in
    match o with
    | inr c => c = Nat.min (n - 1) (length line) ∧
               buf' = line_stored buf 0 (n - 1) line ∧ pending k' = rest
    | inl e => e ≠ EINTR
    end.
Proof.
  intros Hn Hf. rw /readLine. destruct (Nat.leb_spec n 0); [lia|].
  destruct (readLine_loop_spec fuel buf n 0 k) as (o & buf' & k' & Hgo); [lia..|].
  rw Nat.sub_0_r in Hgo. by exists o, buf', k'.
Qed.

(** ** The buffered reader

    Its input is the unread part of its own buffer followed by the stream. *)

Definition unread (rl : ReadLineBuf) : list ascii :=
  drop (Z.to_nat (rl_next rl)) (take (Z.to_nat (rl_len rl)) (rl_buf rl)).

Definition input (rl : ReadLineBuf) (k : K) : list ascii := unread rl ++ pending k.

Definition rl_wf (rl : ReadLineBuf) : Prop :=
  rl_fd rl = fd ∧ length (rl_buf rl) = RL_MAX_BUF ∧ 0 ≤ rl_next rl ∧
  -1 ≤ rl_len rl ≤ Z.of_nat RL_MAX_BUF.

Lemma rl_getc_spec rl :
  rl_wf rl → rl_next rl < rl_len rl →
  rl_wf (rl_getc rl).2 ∧ unread rl = (rl_getc rl).1 :: unread (rl_getc rl).2.
Proof.
  intros (Hfd & Hb & Hn & Hl) Hlt. rw /rl_wf /unread /=. split; [split_and!; lia|].
  destruct (rl_buf rl !! Z.to_nat (rl_next rl)) as [c|] eqn:Hc.
  2:{ apply lookup_ge_None in Hc. lia. }
  simpl. rw (drop_S _ c); [rw lookup_take_lt //; lia|].
  f_equal. f_equal. lia.
Qed.

Lemma unread_empty rl : rl_len rl ≤ rl_next rl → unread rl = [].
Proof.
  intros H. rw /unread. apply drop_ge. rw length_take. lia.
Qed.

(** The state of the buffer after a refill. *)
Lemma refill_spec rl d :
  rl_wf rl → (0 < length d ≤ RL_MAX_BUF)%nat →
  let rl' := RLBuf (rl_fd rl) (store (rl_buf rl) 0 d) 0 (Z.of_nat (length d)) in
  rl_wf rl' ∧ unread rl' = d ∧ rl_next rl' < rl_len rl'.
Proof.
  intros (Hfd & Hb & Hn & Hl) Hd rl'. rw /rl_wf /unread /= length_store; [lia|].
  rw Nat2Z.id /store take_0 /=.
  split_and!; try done; try lia. by rw take_app_length.
Qed.

(** What one call leaves: the line read, or the part of it taken before an error. *)
Definition line_result (n cnt : nat) (buffer : list ascii) (p : list ascii)
    (o : res nat) (buffer' p' : list ascii) : Prop :=
  let '(line, rest) := span_line p in
  match o with
  | inr c => c = (cnt + Nat.min (n - cnt) (length line))%nat ∧
             buffer' = store buffer cnt (take (n - cnt) line) ∧ p' = rest
  | inl _ => ∃ lost, p = lost ++ p' ∧ NL ∉ lost
  end.

Lemma line_result_step n cnt buffer c p o buffer' p' :
  c ≠ NL → (cnt ≤ n ≤ length buffer)%nat →
  line_result n (if (cnt <? n)%nat then S cnt else cnt)
    (if (cnt <? n)%nat then store buffer cnt [c] else buffer) p o buffer' p' →
  line_result n cnt buffer (c :: p) o buffer' p'.
Proof.
  intros Hc Hn. rw /line_result /= decide_False //.
  destruct (span_line p) as [line rest]. destruct o as [e|cnt'].
  - intros (lost & -> & Hl). exists (c :: lost). split; [done|]. set_solver.
  - destruct (Nat.ltb_spec cnt n) as [Hlt|Hge]; intros (-> & -> & ->).
    + destruct (n - cnt)%nat as [|r] eqn:E; [lia|].
      assert (n - S cnt = r)%nat as -> by lia. rw store_cons /=; [lia|].
      split_and!; [lia|done|done].
    + assert (n - cnt = 0)%nat as -> by lia. split_and!; [done|done|done].
Qed.

Lemma readLineBuf_loop_spec fuel rl buffer n cnt k :
  rl_wf rl → (n ≤ length buffer)%nat → (cnt ≤ n)%nat →
  (length (input rl k) < fuel)%nat →
  ∃ o buffer' rl' k',
    readLineBuf_loop fuel rl buffer n cnt k = (Ret (o, buffer', rl'), k') ∧
    rl_wf rl' ∧ line_result n cnt buffer (input rl k) o buffer' (input rl' k').
Proof.
  elim: fuel rl buffer cnt k => [|fuel IH] rl buffer cnt k Hwf Hbuf Hcnt Hfuel; [lia|].
  assert (∀ rl1 k1, rl_wf rl1 → rl_next rl1 < rl_len rl1 → input rl1 k1 = input rl k →
    ∃ o buffer' rl' k',
    (let '(c, rl') := rl_getc rl1 in
     let '(cnt', buffer') :=
       if (cnt <? n)%nat then (S cnt, store buffer cnt [c]) else (cnt, buffer) in
     if decide (c = NL) then mret (inr cnt', buffer', rl')
     else readLineBuf_loop fuel rl' buffer' n cnt') k1 = (Ret (o, buffer', rl'), k') ∧
    rl_wf rl' ∧ line_result n cnt buffer (input rl k) o buffer' (input rl' k')) as Htake.
  { intros rl1 k1 Hwf1 Hlt1 Hin. destruct (rl_getc_spec rl1 Hwf1 Hlt1) as [Hwf2 Hun].
    destruct (rl_getc rl1) as [c rl2]. simpl in Hwf2, Hun.
    assert (input rl k = c :: input rl2 k1) as HE by by rw -Hin /input Hun.
    rw HE. destruct (decide (c = NL)) as [->|Hc].
    - destruct (Nat.ltb_spec cnt n);
        (eexists _, _, _, _; split; [reflexivity|]); (split; [done|]);
        rw /line_result /=.
      + destruct (n - cnt)%nat as [|r] eqn:E; [lia|]. simpl. rw take_nil.
        split_and!; [lia|done|done].
      + assert (n - cnt = 0)%nat as -> by lia. rw /= store_nil; [lia|].
        split_and!; [lia|done|done].
    - destruct (IH rl2 (if (cnt <? n)%nat then store buffer cnt [c] else buffer)
        (if (cnt <? n)%nat then S cnt else cnt) k1) as (o & b & rl3 & k3 & Hgo & Hwf3 & Hres).
      + done.
      + destruct (Nat.ltb_spec cnt n); [rw length_store /=; lia|done].
      + destruct (Nat.ltb_spec cnt n); lia.
      + rw HE /= in Hfuel. lia.
      + exists o, b, rl3, k3. split; [|split; [done|by apply line_result_step]].
        by destruct (cnt <? n)%nat. }
  cbn [readLineBuf_loop]. destruct (Z.leb_spec (rl_len rl) (rl_next rl)) as [Hle|Hlt];
    [|by apply Htake].
  rw /mbind /M_bind /sysS. pose proof Hwf as (Hfd & Hb & Hnx & Hln). rw Hfd.
  destruct (st_read fd RL_MAX_BUF k) as [[e|d] k1] eqn:Hr.
  - destruct (st_read_err _ _ _ _ Hr) as (Hp & _ & _).
    eexists _, _, _, _. split; [reflexivity|]. split; [rw /rl_wf /=; split_and!; lia|].
    rw /line_result. destruct (span_line _). exists [].
    split; [|set_solver]. rw /input !unread_empty //=. lia.
  - destruct (st_read_ok _ _ _ _ Hr) as (Hp & Hl & Hn & _ & _); [rw /RL_MAX_BUF; lia|].
    destruct d as [|c d].
    + eexists _, _, _, _. split; [reflexivity|]. split; [rw /rl_wf /=; split_and!; lia|].
      rw /line_result /input !unread_empty //=. rw (Hn eq_refl) in Hp |- *. simpl in *.
      rw take_nil store_nil; [lia|]. split_and!; [lia|done|done].
    + rw -Hfd. destruct (refill_spec rl (c :: d) Hwf) as (Hwf1 & Hun & Hlt1); [simpl in *; lia|].
      apply Htake; [done..|]. rw /input Hun unread_empty //.
Qed.


Lemma take_store buf d r : take (length d) (store buf 0 (d ++ r)) = d.
Proof. by rw /store take_0 /= -app_assoc take_app_length. Qed.

(** C38: The buffered reader agrees with the reader that makes a system call per character, when
    both calls succeed and the sizes passed give room for the same number of characters: n + 1 for [readLine], which
    counts the terminating null, and n for [readLineBuf], which does not write one.  On the same input they
    then return the same count and the same characters and leave the
    same input.  With equal sizes they differ on a long line, and when a read is
    interrupted only [readLine] goes on: see [readLine_variants_sizes] and
    [readLine_variants_interrupted]. *)
Theorem readLine_variants_agree fuel rl buf1 buf2 n k1 k2 c1 c2 b1 b2 rl' k1' k2' :
  rl_wf rl → (n < length buf1)%nat → (0 < n ≤ length buf2)%nat →
  (length (pending k1) + interrupts k1 < fuel)%nat → pending k1 = input rl k2 →
  readLine fuel fd (Some buf1) (S n) k1 = (Ret (inr c1, b1), k1') →
  readLineBuf fuel rl (Some buf2) n k2 = (Ret (inr c2, b2, rl'), k2') →
  c1 = c2 ∧ take c1 b1 = take c2 b2 ∧ pending k1' = input rl' k2' ∧ rl_wf rl'.
Proof.
  intros Hwf Hb1 Hb2 Hf Hin H1 H2.
  destruct (readLine_loop_spec fuel buf1 (S n) 0 k1) as (o1 & ? & ? & E1 & R1); [lia..|].
  destruct (readLineBuf_loop_spec fuel rl buf2 n 0 k2) as (o2 & ? & ? & ? & E2 & Hwf' & R2);
    [done|lia|lia|rw -Hin; lia|].
  rw /readLine /= E1 in H1. rw /readLineBuf in H2. destruct (Nat.leb_spec n 0); [lia|].
  rw E2 in H2. simplify_eq/=. rw /line_result -Hin in R2.
  destruct (span_line (pending k1)) as [line rest]. rw ?Nat.sub_0_r in R1 R2.
  destruct R1 as (-> & -> & ->), R2 as (-> & -> & ->).
  assert (length (take n line) = Nat.min n (length line)) as Hl by apply length_take.
  split_and!; [lia| |done|done].
  rw -[in RHS](app_nil_r (take n line)) /= -Hl take_store /line_stored /=.
  case_bool_decide as Hd; [|by rw take_store].
  destruct (take n line); [done|]. destruct Hd as [_ Hd]. done.
Qed.
End correct.

(** ** A concrete stream for the examples

    Transfers move at most [wire_chunk + 1] bytes, and the first
    [wire_intr] calls are interrupted. *)

Record wire := Wire { wire_in : list ascii; wire_out : list ascii; wire_chunk : nat; wire_intr : nat }.

#[export] Instance wire_stream : Stream wire := {|
  st_read fd n k :=
    match wire_intr k with
    | S i => (inl EINTR, Wire (wire_in k) (wire_out k) (wire_chunk k) i)
    | O => let m := Nat.min n (S (wire_chunk k)) in
           (inr (take m (wire_in k)), Wire (drop m (wire_in k)) (wire_out k) (wire_chunk k) 0)
    end;
  st_write fd d k :=
    match wire_intr k with
    | S i => (inl EINTR, Wire (wire_in k) (wire_out k) (wire_chunk k) i)
    | O => let m := Nat.min (length d) (S (wire_chunk k)) in
           (inr m, Wire (wire_in k) (wire_out k ++ take m d) (wire_chunk k) 0)
    end;
|}.

#[export, refine] Instance wire_ok fd : StreamOk wire fd := {|
  pending := wire_in; written := wire_out; interrupts := wire_intr;
|}.
Proof.
  - intros n [i o c t] d k'. cbn. destruct t; [|done]. intros [= <- <-] Hn. cbn.
    rw take_drop length_take. split_and!; [done|lia| |done|done].
    destruct (Nat.min n (S c)) eqn:E; [lia|]. by destruct i.
  - intros n [i o c t] e k'. cbn. destruct t; [done|]. intros [= <- <-]. cbn.
    split_and!; [done|done|lia].
  - intros d [i o c t] m k'. cbn. destruct t; [|done]. intros [= <- <-] Hd. cbn.
    destruct d; [done|]. simpl. split_and!; [lia|lia|done|done|done].
  - intros d [i o c t] e k'. cbn. destruct t; [done|]. intros [= <- <-]. cbn.
    split_and!; [done|done|lia].
Defined.

Definition wire0 : wire := Wire (cs "hello" ++ [NL] ++ cs "world") [] 2 3.
Definition buf16 : list ascii := replicate 16 "."%char.

Abbreviation todo := (pending (fd := 5)).
Abbreviation sent := (written (fd := 5)).

Lemma readn_spec_witness :
  ∃ o buf' k', readn 20 5 buf16 8 wire0 = (Ret (o, buf'), k') ∧
    match o with
    | inr c => c = Nat.min 8 (length (todo wire0)) ∧
               buf' = store buf16 0 (take 8 (todo wire0)) ∧ todo k' = drop 8 (todo wire0)
    | inl e => e ≠ EINTR ∧ ∃ d, todo wire0 = d ++ todo k' ∧ (length d < 8)%nat ∧
               buf' = store buf16 0 d
    end.
Proof. apply (readn_spec 5 20 buf16 8 wire0); vm_compute; lia. Defined.

Lemma writen_spec_witness :
  ∃ o k', writen 30 5 (cs "some bytes") 10 wire0 = (Ret o, k') ∧ todo k' = todo wire0 ∧
    match o with
    | inr c => c = 10%nat ∧ sent k' = sent wire0 ++ take 10 (cs "some bytes")
    | inl e => e ≠ EINTR ∧ ∃ c, (c < 10)%nat ∧
               sent k' = sent wire0 ++ take c (cs "some bytes")
    end.
Proof. apply (writen_spec 5 30 (cs "some bytes") 10 wire0); vm_compute; lia. Defined.

Lemma readLine_spec_witness :
  ∃ o buf' k', readLine 40 5 (Some buf16) 4 wire0 = (Ret (o, buf'), k') ∧
    let '(line, rest) := span_line (todo wire0) in
    match o with
    | inr c => c = Nat.min 3 (length line) ∧ buf' = line_stored buf16 0 3 line ∧
               todo k' = rest
    | inl e => e ≠ EINTR
    end.
Proof. apply (readLine_spec 5 40 buf16 4 wire0); vm_compute; lia. Defined.

Definition rl0 : ReadLineBuf := readLineBufInit 5 (RLBuf 0 (replicate 10 NUL) 7 7).


Definition wire1 : wire := Wire (cs "hello" ++ [NL] ++ cs "world") [] 2 0.

Lemma readLine_variants_agree_witness :
  ∃ b1 b2 rl' k1' k2',
    readLine 40 5 (Some buf16) 9 wire0 = (Ret (inr 6%nat, b1), k1') ∧
    readLineBuf 40 rl0 (Some buf16) 8 wire1 = (Ret (inr 6%nat, b2, rl'), k2') ∧
    6%nat = 6%nat ∧ take 6 b1 = take 6 b2 ∧ todo k1' = input 5 rl' k2' ∧ rl_wf 5 rl'.
Proof.
  do 5 eexists. split; [vm_compute; reflexivity|]. split; [vm_compute; reflexivity|].
  apply (readLine_variants_agree 5 40 rl0 buf16 buf16 8 wire0 wire1).
  - rw /rl_wf /=. split_and!; done.
  - vm_compute; lia.
  - vm_compute; lia.
  - vm_compute; lia.
  - done.
  - vm_compute; reflexivity.
  - vm_compute; reflexivity.
Defined.

(** The same size for both. *)
Example readLine_variants_sizes :
  (readLine 40 5 (Some buf16) 4 wire1).1 = Ret (inr 3%nat, store buf16 0 (cs "hel" ++ [NUL])) ∧
  ∃ rl', (readLineBuf 40 rl0 (Some buf16) 4 wire1).1 = Ret (inr 4%nat, store buf16 0 (cs "hell"), rl').
Proof. split; [|eexists]; vm_compute; reflexivity. Qed.

(** The first read is interrupted. *)
Example readLine_variants_interrupted :
  let k := Wire (cs "hello" ++ [NL]) [] 2 1 in
  (∃ b, (readLine 40 5 (Some buf16) 9 k).1 = Ret (inr 6%nat, b)) ∧
  (∃ b rl', (readLineBuf 40 rl0 (Some buf16) 8 k).1 = Ret (inl EINTR, b, rl')).
Proof. split; [eexists|eexists _, _]; vm_compute; reflexivity. Qed.
