(* ===== verification/InotifyCache.v ===== *)
(** * The watch cache of [inotify/inotify_dtree.c]

    The program caches, for every watched directory, its inotify watch
    descriptor and its pathname, in an array that is searched linearly.  This
    file has the array operations as pure functions, the well-formedness
    invariant, and the finite map from descriptors to pathnames that the
    array represents; every operation is shown to refine its counterpart on
    that map. *)

From S2P Require Import Prelude.

Definition NAME_MAX : nat := 255.

(** [struct watch]: [w_wd] is -1 in an unused slot. *)
Record watch := Watch { w_wd : Z; w_path : cstring }.

#[export] Instance watch_eq_dec : EqDecision watch.
Proof. solve_decision. Defined.

(** ** Operations on the array *)

Definition wl_findWatch (c : list watch) (wd : Z) : option nat :=
  fst <$> list_find (λ w, w_wd w = wd) c.

Definition wl_findEmpty (c : list watch) : option nat :=
  fst <$> list_find (λ w, w_wd w = -1) c.

Definition wl_pathSlot (c : list watch) (p : cstring) : option nat :=
  fst <$> list_find (λ w, 0 ≤ w_wd w ∧ w_path w = p) c.

Definition wl_clear (j : nat) (c : list watch) : list watch :=
  <[j := Watch (-1) []]> c.

(** [strncpy(dst, p, PATH_MAX)] copies at most [PATH_MAX] characters. *)
Definition wl_set (j : nat) (wd : Z) (p : cstring) (c : list watch) : list watch :=
  <[j := Watch wd (take PATH_MAX p)]> c.

Definition ALLOC_INCR : nat := 200.

(** [strncmp(dir, p, len) == 0 && (p[len] == '/' || p[len] == '\0')] with
    [len = strlen(dir)]. *)
Definition under (dir p : cstring) : bool :=
  bool_decide (take (length dir) dir = take (length dir) p) &&
  match p !! length dir with
  | None => true
  | Some c => bool_decide (c = "/"%char)
  end.

(** The pathname given to an entry under [fullPath] when it is renamed. *)
Definition rename_path (fullPath newPrefix p : cstring) : cstring :=
  snprintf PATH_MAX (newPrefix ++ drop (length fullPath) p).

Definition wl_rename (fullPath newPrefix : cstring) (w : watch) : watch :=
  if under fullPath (w_path w)
  then Watch (w_wd w) (take PATH_MAX (rename_path fullPath newPrefix (w_path w)))
  else w.

(** Entries that [zapSubtree] removes, and what it leaves in their slots. *)
Definition zapped (pn : cstring) (w : watch) : Prop :=
  0 ≤ w_wd w ∧ under pn (w_path w) = true.

#[export] Instance zapped_dec pn w : Decision (zapped pn w).
Proof. rw /zapped. apply _. Defined.

Definition zap_clear (pn : cstring) (w : watch) : watch :=
  if decide (zapped pn w) then Watch (-1) [] else w.

(** ** Well-formedness *)

(** Live descriptors occur once, unused slots hold the empty path, and every
    path is null-terminated inside its buffer. *)
Record cache_wf (c : list watch) : Prop := {
  wf_unique : ∀ i j w w', c !! i = Some w → c !! j = Some w' →
                0 ≤ w_wd w → w_wd w = w_wd w' → i = j;
  wf_slot : ∀ i w, c !! i = Some w → w_wd w = -1 ∧ w_path w = [] ∨ 0 ≤ w_wd w;
  wf_len : ∀ i w, c !! i = Some w → (length (w_path w) < PATH_MAX)%nat;
}.

(** The map a cache array stands for. *)
Definition repr (c : list watch) (m : gmap Z cstring) : Prop :=
  ∀ wd p, m !! wd = Some p ↔ 0 ≤ wd ∧ Watch wd p ∈ c.

(** ** Facts *)

Lemma under_spec dir p :
  under dir p = true ↔ p = dir ∨ ∃ s, p = dir ++ "/"%char :: s.
Proof.
  rw /under andb_true_iff bool_decide_eq_true firstn_all. split.
  - intros [Ht Hc]. rw -(take_drop (length dir) p) -Ht.
    destruct (p !! length dir) as [c|] eqn:E.
    + right. apply bool_decide_eq_true in Hc as ->.
      rw (drop_S _ _ _ E). eauto.
    + left. rw drop_ge; [by apply lookup_ge_None|]. by rw app_nil_r.
  - intros [-> | [s ->]].
    + rw firstn_all lookup_ge_None_2 //.
    + rw take_app_length lookup_app_r // Nat.sub_diag //=.
Qed.

Lemma under_refl dir : under dir dir = true.
Proof. apply under_spec. by left. Qed.

Lemma wl_findWatch_Some c wd j :
  wl_findWatch c wd = Some j →
  ∃ p, c !! j = Some (Watch wd p) ∧
       ∀ k w, (k < j)%nat → c !! k = Some w → w_wd w ≠ wd.
Proof.
  rw /wl_findWatch fmap_Some. intros ([i [wd' p]] & Hf & ->).
  apply list_find_Some in Hf as (Hl & Hwd & Hmin). simplify_eq/=. eauto.
Qed.

Lemma wl_findWatch_None c wd :
  wl_findWatch c wd = None ↔ ∀ p, Watch wd p ∉ c.
Proof.
  rw /wl_findWatch fmap_None list_find_None Forall_forall. split.
  - intros H p Hp. by apply (H _ Hp).
  - intros H [wd' p] Hp Heq. simpl in Heq. subst. by apply (H p).
Qed.

Lemma wl_findEmpty_Some c j :
  wl_findEmpty c = Some j → ∃ p, c !! j = Some (Watch (-1) p).
Proof.
  rw /wl_findEmpty fmap_Some. intros ([i [wd p]] & Hf & ->).
  apply list_find_Some in Hf as (Hl & Hwd & _). simplify_eq/=. eauto.
Qed.

Lemma wl_pathSlot_Some c p j :
  wl_pathSlot c p = Some j → ∃ wd, c !! j = Some (Watch wd p) ∧ 0 ≤ wd.
Proof.
  rw /wl_pathSlot fmap_Some. intros ([i [wd p']] & Hf & ->).
  apply list_find_Some in Hf as (Hl & [? ?] & _). simplify_eq/=. eauto.
Qed.

Lemma wl_pathSlot_is_Some c p :
  is_Some (wl_pathSlot c p) ↔ ∃ wd, 0 ≤ wd ∧ Watch wd p ∈ c.
Proof.
  split.
  - intros [j (wd & Hj & ?)%wl_pathSlot_Some]. exists wd. split; [done|].
    apply list_elem_of_lookup. eauto.
  - intros (wd & ? & Hin).
    rw /wl_pathSlot fmap_is_Some.
    destruct (list_find (λ w, 0 ≤ w_wd w ∧ w_path w = p) c) eqn:E; [eauto|].
    apply list_find_None in E. rw Forall_forall in E. exfalso. by apply (E _ Hin).
Qed.

Lemma repr_unique c m1 m2 : repr c m1 → repr c m2 → m1 = m2.
Proof.
  intros H1 H2. apply map_eq. intros wd. apply option_eq. intros p.
  by rw (H1 wd p) (H2 wd p).
Qed.

(** The descriptor of a live slot determines the slot. *)
Lemma wf_in_unique c i w p :
  cache_wf c → c !! i = Some w → 0 ≤ w_wd w → Watch (w_wd w) p ∈ c → p = w_path w.
Proof.
  intros Hc Hi Hw [j Hj]%list_elem_of_lookup.
  assert (i = j) as <-.
  { by eapply (wf_unique _ Hc i j w (Watch (w_wd w) p)). }
  destruct w. by simplify_eq/=.
Qed.

Lemma elem_of_list_insert {A} (l : list A) i (x y : A) :
  (i < length l)%nat →
  y ∈ <[i := x]> l ↔ y = x ∨ ∃ j, j ≠ i ∧ l !! j = Some y.
Proof.
  intros Hi. rw list_elem_of_lookup. split.
  - intros [j [(? & ? & ?)|[? ?]]%list_lookup_insert_Some]; [by left|].
    right. exists j. split; congruence.
  - intros [-> | (j & ? & ?)].
    + exists i. apply list_lookup_insert_Some. by left.
    + exists j. apply list_lookup_insert_Some. right. split; congruence.
Qed.

(** ** Every operation preserves well-formedness and refines the map *)

Section refinement.
Implicit Types (c : list watch) (m : gmap Z cstring).

(** A new array. *)
Lemma cache_wf_nil : cache_wf [].
Proof. split; naive_solver. Qed.

Lemma repr_nil : repr [] ∅.
Proof. intros wd p. rw lookup_empty elem_of_nil. naive_solver. Qed.

(** Appended unused slots change nothing. *)
Lemma lookup_app_replicate c n i w :
  (c ++ replicate n (Watch (-1) [])) !! i = Some w →
  c !! i = Some w ∨ w = Watch (-1) [].
Proof.
  rw lookup_app. destruct (c !! i); [naive_solver|].
  intros [-> _]%lookup_replicate. by right.
Qed.

Lemma cache_wf_grow c n : cache_wf c → cache_wf (c ++ replicate n (Watch (-1) [])).
Proof.
  intros [Hu Hs Hl]. split.
  - intros i j w w' [Hi| ->]%lookup_app_replicate Hj; [|simpl; lia].
    apply lookup_app_replicate in Hj as [Hj| ->]; [by eauto|simpl; lia].
  - intros i w [Hi| ->]%lookup_app_replicate; [by eauto|by left].
  - intros i w [Hi| ->]%lookup_app_replicate; [by eauto|]. simpl. rw /PATH_MAX. lia.
Qed.

Lemma repr_grow c m n : repr c m → repr (c ++ replicate n (Watch (-1) [])) m.
Proof.
  intros Hr wd p. rw (Hr wd p) elem_of_app. split; [naive_solver|].
  intros [? [?|Hin]]; [done|]. apply elem_of_replicate in Hin as [[= -> ->] _]. lia.
Qed.

(** Storing a fresh descriptor in an unused slot. *)
Lemma cache_wf_set c j q wd p :
  cache_wf c → c !! j = Some (Watch (-1) q) → 0 ≤ wd →
  (∀ p', Watch wd p' ∉ c) → (length p < PATH_MAX)%nat → cache_wf (wl_set j wd p c).
Proof.
  intros [Hu Hs Hl] Hj Hwd Hfresh Hp. rw /wl_set.
  assert (Hjl := lookup_lt_Some _ _ _ Hj).
  assert (Hother : ∀ i w, c !! i = Some w → w_wd w ≠ wd).
  { intros i [wd' p'] Hi Heq. simpl in Heq. subst. apply (Hfresh p').
    apply list_elem_of_lookup. eauto. }
  split.
  - intros i k w w' Hi Hk Hw Heq.
    apply list_lookup_insert_Some in Hi as [(-> & <- & _)|[? Hi]];
      apply list_lookup_insert_Some in Hk as [(-> & <- & _)|[? Hk]]; simpl in *; eauto;
      exfalso; [eapply (Hother k _ Hk); congruence|eapply (Hother i _ Hi); congruence].
  - intros i w [(-> & <- & _)|[? Hi]]%list_lookup_insert_Some; [by right|by eauto].
  - intros i w [(-> & <- & _)|[? Hi]]%list_lookup_insert_Some; [|by eauto].
    simpl. rw length_take. lia.
Qed.

Lemma repr_set c m j q wd p :
  repr c m → c !! j = Some (Watch (-1) q) → 0 ≤ wd →
  (∀ p', Watch wd p' ∉ c) → (length p < PATH_MAX)%nat →
  repr (wl_set j wd p c) (<[wd := p]> m).
Proof.
  intros Hr Hj Hwd Hfresh Hp wd' p'. rw /wl_set take_ge; [lia|].
  rw elem_of_list_insert; [exact (lookup_lt_Some _ _ _ Hj)|]. rw lookup_insert_Some.
  split.
  - intros [[-> ->]|[Hne [? Hin]%Hr]]; [by auto|]. split; [done|]. right.
    apply list_elem_of_lookup in Hin as [i Hi]. exists i. split; [|done].
    intros ->. rw Hj in Hi. injection Hi as ??. lia.
  - intros [? [[= -> ->]|(i & Hij & Hi)]]; [by left|]. right.
    assert (Watch wd' p' ∈ c) by (apply list_elem_of_lookup; eauto).
    split; [intros ->; eapply Hfresh; eauto|by apply Hr].
Qed.

(** Emptying a slot forgets its descriptor. *)
Lemma cache_wf_clear c j : cache_wf c → cache_wf (wl_clear j c).
Proof.
  intros [Hu Hs Hl]. rw /wl_clear. split.
  - intros i k w w' Hi Hk Hw Heq.
    apply list_lookup_insert_Some in Hi as [(-> & <- & _)|[? Hi]]; [simpl in Hw; lia|].
    apply list_lookup_insert_Some in Hk as [(-> & <- & _)|[? Hk]];
      [simpl in Heq; lia|by eauto].
  - intros i w [(-> & <- & _)|[? Hi]]%list_lookup_insert_Some; [by left|by eauto].
  - intros i w [(-> & <- & _)|[? Hi]]%list_lookup_insert_Some; [|by eauto].
    simpl. rw /PATH_MAX. lia.
Qed.

Lemma repr_clear c m j w :
  cache_wf c → repr c m → c !! j = Some w → repr (wl_clear j c) (delete (w_wd w) m).
Proof.
  intros Hc Hr Hj wd p. rw /wl_clear.
  rw elem_of_list_insert; [exact (lookup_lt_Some _ _ _ Hj)|]. rw lookup_delete_Some. split.
  - intros [Hne [? Hin]%Hr]. split; [done|]. right.
    apply list_elem_of_lookup in Hin as [i Hi]. exists i. split; [|done].
    intros ->. by simplify_eq/=.
  - intros [? [[= -> ->]|(i & Hij & Hi)]]; [lia|]. split.
    + intros <-. apply Hij. symmetry.
      by eapply (wf_unique _ Hc j i w (Watch (w_wd w) p)).
    + apply Hr. split; [done|]. apply list_elem_of_lookup. eauto.
Qed.

(** Renaming a directory rewrites exactly the paths at or below it. *)
Definition rename_map (fullPath newPrefix : cstring) (p : cstring) : cstring :=
  if under fullPath p then rename_path fullPath newPrefix p else p.

Lemma wl_rename_wd f n w : w_wd (wl_rename f n w) = w_wd w.
Proof. rw /wl_rename. by case_match. Qed.

Lemma wl_rename_path f n w : w_path (wl_rename f n w) = rename_map f n (w_path w).
Proof.
  rw /wl_rename /rename_map. case_match; [|done]. simpl.
  apply take_ge. rw /rename_path.
  pose proof (length_snprintf PATH_MAX (n ++ drop (length f) (w_path w))).
  rw /PATH_MAX in H0 |- *. lia.
Qed.

Lemma cache_wf_rename c f n :
  f ≠ [] → cache_wf c → cache_wf (wl_rename f n <$> c).
Proof.
  intros Hf [Hu Hs Hl]. split.
  - intros i j w w' Hi Hj. rw !list_lookup_fmap !fmap_Some in Hi, Hj.
    destruct Hi as (v & ? & ->), Hj as (v' & ? & ->). rw !wl_rename_wd. eauto.
  - intros i w Hi. rw list_lookup_fmap fmap_Some in Hi. destruct Hi as (v & Hv & ->).
    rw wl_rename_wd wl_rename_path. destruct (Hs i v Hv) as [[? He]|?]; [|by right].
    left. split; [done|]. rw He /rename_map.
    destruct (under f []) eqn:E; [|done].
    apply under_spec in E as [?|[s ?]]; [congruence|]. by destruct f.
  - intros i w Hi. rw list_lookup_fmap fmap_Some in Hi. destruct Hi as (v & Hv & ->).
    rw wl_rename_path /rename_map. case_match; [|by eauto].
    apply length_snprintf. rw /PATH_MAX. lia.
Qed.

Lemma repr_rename c m f n :
  repr c m → repr (wl_rename f n <$> c) (rename_map f n <$> m).
Proof.
  intros Hr wd p. rw lookup_fmap fmap_Some list_elem_of_fmap. split.
  - intros (q & [? Hin]%Hr & ->). split; [done|]. exists (Watch wd q). split; [|done].
    pose proof (wl_rename_wd f n (Watch wd q)) as H1.
    pose proof (wl_rename_path f n (Watch wd q)) as H2.
    destruct (wl_rename f n (Watch wd q)). simpl in *. congruence.
  - intros [? ([wd' q] & Heq & Hin)].
    pose proof (wl_rename_wd f n (Watch wd' q)) as H1.
    pose proof (wl_rename_path f n (Watch wd' q)) as H2.
    rw -Heq /= in H1, H2. subst. exists q. split; [by apply Hr|done].
Qed.

(** Zapping a subtree removes exactly the entries at or below its root. *)
Lemma cache_wf_pointwise c c' :
  cache_wf c →
  (∀ i w', c' !! i = Some w' → w' = Watch (-1) [] ∨ c !! i = Some w') → cache_wf c'.
Proof.
  intros [Hu Hs Hl] H. split.
  - intros i j w w' [-> |Hi]%H Hj Hw Heq; [simpl in Hw; lia|].
    apply H in Hj as [-> |Hj]; [simpl in Heq; lia|by eauto].
  - intros i w [-> |Hi]%H; [by left|by eauto].
  - intros i w [-> |Hi]%H; [|by eauto]. simpl. rw /PATH_MAX. lia.
Qed.

Lemma lookup_zap_clear pn c i w' :
  (zap_clear pn <$> c) !! i = Some w' → w' = Watch (-1) [] ∨ c !! i = Some w'.
Proof.
  rw list_lookup_fmap fmap_Some. intros (w & Hw & ->). rw /zap_clear.
  case_decide; auto.
Qed.

Lemma cache_wf_zap pn c k : cache_wf c → cache_wf ((zap_clear pn <$> take k c) ++ drop k c).
Proof.
  intros Hc. apply (cache_wf_pointwise c); [done|]. intros i w'.
  rw lookup_app. destruct ((zap_clear pn <$> take k c) !! i) eqn:E.
  - intros [= ->]. apply lookup_zap_clear in E as [?|E]; [by left|].
    right. by eapply lookup_take_Some in E as [? ?].
  - apply lookup_ge_None in E. rw length_fmap length_take in E. intros Hd. right.
    rw length_fmap length_take lookup_drop in Hd. rw -Hd. f_equal.
    assert (k ≤ i ∧ k ≤ length c ∨ length c ≤ k)%nat as [?|?] by lia; [lia|].
    apply lookup_lt_Some in Hd. lia.
Qed.

Lemma repr_zap pn c m :
  repr c m → repr (zap_clear pn <$> c) (filter (λ kv, under pn kv.2 = false) m).
Proof.
  intros Hr wd p. rw map_lookup_filter_Some /= list_elem_of_fmap (Hr wd p). split.
  - intros [[? Hin] Hu]. split; [done|]. exists (Watch wd p). split; [|done].
    rw /zap_clear decide_False //. rw /zapped /=. intros [_ ?]. congruence.
  - intros [? ([wd' q] & Heq & Hin)]. rw /zap_clear in Heq.
    case_decide as Hz; [injection Heq as -> ->; lia|]. injection Heq as -> ->.
    split; [done|]. rw /zapped /= in Hz. destruct (under pn q); [|done].
    by destruct Hz.
Qed.
End refinement.

(** The represented map, computed. *)
Definition cache_map (c : list watch) : gmap Z cstring :=
  foldr (λ w m, if 0 <=? w_wd w then <[w_wd w := w_path w]> m else m) ∅ c.

Lemma cache_wf_tail w c : cache_wf (w :: c) → cache_wf c.
Proof.
  intros [Hu Hs Hl]. split.
  - intros i j v v' Hi Hj Hv Heq. specialize (Hu (S i) (S j) v v' Hi Hj Hv Heq). lia.
  - intros i v Hi. apply (Hs (S i) v Hi).
  - intros i v Hi. apply (Hl (S i) v Hi).
Qed.

Lemma cache_map_repr c : cache_wf c → repr c (cache_map c).
Proof.
  elim: c => [|w c IH] Hwf; [apply repr_nil|].
  pose proof (IH (cache_wf_tail _ _ Hwf)) as Hr. intros wd p. simpl.
  rw elem_of_cons. destruct (Z.leb_spec 0 (w_wd w)) as [Hw|Hw].
  - rw lookup_insert_Some (Hr wd p). split.
    + intros [[<- <-]|(? & ? & ?)]; [|by auto]. split; [done|]. left. by destruct w.
    + intros [? [<-|Hin]]; [by left|]. right. split; [|done]. intros <-.
      apply list_elem_of_lookup in Hin as [i Hi].
      pose proof (wf_unique _ Hwf 0 (S i) w _ eq_refl Hi Hw eq_refl). lia.
  - rw (Hr wd p). split; [naive_solver|]. intros [? [<-|?]]; [simpl in Hw; lia|done].
Qed.

Create HintDb cache.
#[export] Hint Resolve cache_wf_nil cache_wf_grow cache_wf_clear cache_wf_rename : cache.
