(* ===== verification/InotifyTree.v ===== *)
(** * [inotify/inotify_dtree.c]: state and cache management

    The program's global variables are one record; each C function is one
    computation over it.  The system calls and [nftw], [strdup], [realloc] and
    [strerror] are operations of a class, so that every theorem holds for any
    behaviour of the kernel and of the processes that change the directory
    tree meanwhile. *)

From S2P Require Import Prelude CStdlib InotifyCache.

(** What the program looks at in a [struct stat]. *)
Record fstat := Fstat { st_isdir : bool; st_ino : Z; st_dev : Z }.

(** ** The operating system

    A call yields an errno or its value, and the next system state.  [os_alloc]
    is [false] when the C library is out of memory; [os_uninit k j] is what
    slot [j] of freshly allocated memory happens to hold, and [os_stack] what an
    uninitialised buffer holds; [os_ptr] is the [%p] text of a string's address;
    [os_nftw] gives the
    visits one [nftw] call makes, in order, and its error if it stops early. *)
Class InotifyOS (K : Type) := {
  os_lstat : cstring → K → res fstat * K;
  os_alloc : K → bool * K;
  os_uninit : K → nat → watch;
  os_nftw : cstring → K → (list (cstring * fstat) * option Z) * K;
  os_add_watch : Z → cstring → Z → K → res Z * K;
  os_rm_watch : Z → Z → K → option Z * K;
  os_inotify_init : K → res Z * K;
  os_close : Z → K → K;
  os_open_stop : option cstring → K → K;
  os_read : Z → Z → K → res (list ascii) * K;
  os_sigaction : K → option Z * K;
  os_ualarm : Z → K → K;
  os_fopen : cstring → K → bool * K;
  os_fprintf : cstring → cstring → K → K;
  os_fclose : cstring → K → K;
  os_select : Z → K → res (bool * bool) * K;
  os_errno : K → Z;
  os_stack : K → nat → ascii;
  os_ptr : cstring → K → cstring;
  os_strerror : Z → cstring;
}.

(** Documented behaviour the program relies on: a new watch descriptor is not
    negative, and (the limitation its opening comment states) the pathnames
    of a tree walk are shorter than [PATH_MAX]. *)
Class InotifyOSOk (K : Type) `{!InotifyOS K} := {
  os_add_watch_nonneg : ∀ fd p fl k wd k', os_add_watch fd p fl k = (inr wd, k') → 0 ≤ wd;
  os_nftw_path_max : ∀ p k vs e k', os_nftw p k = (vs, e, k') →
    ∀ q st, (q, st) ∈ vs → (length q < PATH_MAX)%nat;
}.

(** Event bits of [<sys/inotify.h>]. *)
Definition IN_MOVED_FROM : Z := 64.
Definition IN_MOVED_TO : Z := 128.
Definition IN_CREATE : Z := 256.
Definition IN_DELETE_SELF : Z := 1024.
Definition IN_MOVE_SELF : Z := 2048.
Definition IN_UNMOUNT : Z := 8192.
Definition IN_Q_OVERFLOW : Z := 16384.
Definition IN_IGNORED : Z := 32768.
Definition IN_ONLYDIR : Z := 16777216.
Definition IN_ISDIR : Z := 1073741824.

Definition VB_BASIC : Z := 1.
Definition VB_NOISY : Z := 2.

Section inotify.
Context {K : Type} `{OS : !InotifyOS K}.

Record istate := IState {
  verboseMask : Z;
  checkCache : bool;
  dumpCache : bool;
  readBufferSize : Z;
  stopFile : option cstring;
  abortOnCacheProblem : bool;
  logfp : option cstring;  (* text in the log file; None for NULL *)
  inotifyReadCnt : Z;
  wlCache : list watch;  (* the array; cacheSize is its length *)
  rootDirPaths : list (option cstring);  (* None for a zapped path; numRootDirs is the length *)
  ignoreRootDirs : Z;
  dirCnt : Z;
  ifd : Z;
  reinitCnt : Z;
  overflowCnt : Z;
  out : cstring;  (* standard output *)
  err : cstring;  (* standard error *)
  os : K;  (* the operating system *)
}.
Definition set_verboseMask (x : Z) (s : istate) : istate :=
  IState x (checkCache s) (dumpCache s) (readBufferSize s) (stopFile s) (abortOnCacheProblem s) (logfp s) (inotifyReadCnt s) (wlCache s) (rootDirPaths s) (ignoreRootDirs s) (dirCnt s) (ifd s) (reinitCnt s) (overflowCnt s) (out s) (err s) (os s).
Definition set_checkCache (x : bool) (s : istate) : istate :=
  IState (verboseMask s) x (dumpCache s) (readBufferSize s) (stopFile s) (abortOnCacheProblem s) (logfp s) (inotifyReadCnt s) (wlCache s) (rootDirPaths s) (ignoreRootDirs s) (dirCnt s) (ifd s) (reinitCnt s) (overflowCnt s) (out s) (err s) (os s).
Definition set_dumpCache (x : bool) (s : istate) : istate :=
  IState (verboseMask s) (checkCache s) x (readBufferSize s) (stopFile s) (abortOnCacheProblem s) (logfp s) (inotifyReadCnt s) (wlCache s) (rootDirPaths s) (ignoreRootDirs s) (dirCnt s) (ifd s) (reinitCnt s) (overflowCnt s) (out s) (err s) (os s).
Definition set_readBufferSize (x : Z) (s : istate) : istate :=
  IState (verboseMask s) (checkCache s) (dumpCache s) x (stopFile s) (abortOnCacheProblem s) (logfp s) (inotifyReadCnt s) (wlCache s) (rootDirPaths s) (ignoreRootDirs s) (dirCnt s) (ifd s) (reinitCnt s) (overflowCnt s) (out s) (err s) (os s).
Definition set_stopFile (x : option cstring) (s : istate) : istate :=
  IState (verboseMask s) (checkCache s) (dumpCache s) (readBufferSize s) x (abortOnCacheProblem s) (logfp s) (inotifyReadCnt s) (wlCache s) (rootDirPaths s) (ignoreRootDirs s) (dirCnt s) (ifd s) (reinitCnt s) (overflowCnt s) (out s) (err s) (os s).
Definition set_abortOnCacheProblem (x : bool) (s : istate) : istate :=
  IState (verboseMask s) (checkCache s) (dumpCache s) (readBufferSize s) (stopFile s) x (logfp s) (inotifyReadCnt s) (wlCache s) (rootDirPaths s) (ignoreRootDirs s) (dirCnt s) (ifd s) (reinitCnt s) (overflowCnt s) (out s) (err s) (os s).
Definition set_logfp (x : option cstring) (s : istate) : istate :=
  IState (verboseMask s) (checkCache s) (dumpCache s) (readBufferSize s) (stopFile s) (abortOnCacheProblem s) x (inotifyReadCnt s) (wlCache s) (rootDirPaths s) (ignoreRootDirs s) (dirCnt s) (ifd s) (reinitCnt s) (overflowCnt s) (out s) (err s) (os s).
Definition set_inotifyReadCnt (x : Z) (s : istate) : istate :=
  IState (verboseMask s) (checkCache s) (dumpCache s) (readBufferSize s) (stopFile s) (abortOnCacheProblem s) (logfp s) x (wlCache s) (rootDirPaths s) (ignoreRootDirs s) (dirCnt s) (ifd s) (reinitCnt s) (overflowCnt s) (out s) (err s) (os s).
Definition set_wlCache (x : list watch) (s : istate) : istate :=
  IState (verboseMask s) (checkCache s) (dumpCache s) (readBufferSize s) (stopFile s) (abortOnCacheProblem s) (logfp s) (inotifyReadCnt s) x (rootDirPaths s) (ignoreRootDirs s) (dirCnt s) (ifd s) (reinitCnt s) (overflowCnt s) (out s) (err s) (os s).
Definition set_rootDirPaths (x : list (option cstring)) (s : istate) : istate :=
  IState (verboseMask s) (checkCache s) (dumpCache s) (readBufferSize s) (stopFile s) (abortOnCacheProblem s) (logfp s) (inotifyReadCnt s) (wlCache s) x (ignoreRootDirs s) (dirCnt s) (ifd s) (reinitCnt s) (overflowCnt s) (out s) (err s) (os s).
Definition set_ignoreRootDirs (x : Z) (s : istate) : istate :=
  IState (verboseMask s) (checkCache s) (dumpCache s) (readBufferSize s) (stopFile s) (abortOnCacheProblem s) (logfp s) (inotifyReadCnt s) (wlCache s) (rootDirPaths s) x (dirCnt s) (ifd s) (reinitCnt s) (overflowCnt s) (out s) (err s) (os s).
Definition set_dirCnt (x : Z) (s : istate) : istate :=
  IState (verboseMask s) (checkCache s) (dumpCache s) (readBufferSize s) (stopFile s) (abortOnCacheProblem s) (logfp s) (inotifyReadCnt s) (wlCache s) (rootDirPaths s) (ignoreRootDirs s) x (ifd s) (reinitCnt s) (overflowCnt s) (out s) (err s) (os s).
Definition set_ifd (x : Z) (s : istate) : istate :=
  IState (verboseMask s) (checkCache s) (dumpCache s) (readBufferSize s) (stopFile s) (abortOnCacheProblem s) (logfp s) (inotifyReadCnt s) (wlCache s) (rootDirPaths s) (ignoreRootDirs s) (dirCnt s) x (reinitCnt s) (overflowCnt s) (out s) (err s) (os s).
Definition set_reinitCnt (x : Z) (s : istate) : istate :=
  IState (verboseMask s) (checkCache s) (dumpCache s) (readBufferSize s) (stopFile s) (abortOnCacheProblem s) (logfp s) (inotifyReadCnt s) (wlCache s) (rootDirPaths s) (ignoreRootDirs s) (dirCnt s) (ifd s) x (overflowCnt s) (out s) (err s) (os s).
Definition set_overflowCnt (x : Z) (s : istate) : istate :=
  IState (verboseMask s) (checkCache s) (dumpCache s) (readBufferSize s) (stopFile s) (abortOnCacheProblem s) (logfp s) (inotifyReadCnt s) (wlCache s) (rootDirPaths s) (ignoreRootDirs s) (dirCnt s) (ifd s) (reinitCnt s) x (out s) (err s) (os s).
Definition set_out (x : cstring) (s : istate) : istate :=
  IState (verboseMask s) (checkCache s) (dumpCache s) (readBufferSize s) (stopFile s) (abortOnCacheProblem s) (logfp s) (inotifyReadCnt s) (wlCache s) (rootDirPaths s) (ignoreRootDirs s) (dirCnt s) (ifd s) (reinitCnt s) (overflowCnt s) x (err s) (os s).
Definition set_err (x : cstring) (s : istate) : istate :=
  IState (verboseMask s) (checkCache s) (dumpCache s) (readBufferSize s) (stopFile s) (abortOnCacheProblem s) (logfp s) (inotifyReadCnt s) (wlCache s) (rootDirPaths s) (ignoreRootDirs s) (dirCnt s) (ifd s) (reinitCnt s) (overflowCnt s) (out s) x (os s).
Definition set_os (x : K) (s : istate) : istate :=
  IState (verboseMask s) (checkCache s) (dumpCache s) (readBufferSize s) (stopFile s) (abortOnCacheProblem s) (logfp s) (inotifyReadCnt s) (wlCache s) (rootDirPaths s) (ignoreRootDirs s) (dirCnt s) (ifd s) (reinitCnt s) (overflowCnt s) (out s) (err s) x.

Abbreviation I := (M istate).

(** Run a system call on the state's system component. *)
Definition sys {A} (f : K → A * K) : I A := λ s,
  let (a, k) := f (os s) in (Ret a, set_os k s).
Definition sys_ (f : K → K) : I unit := λ s, (Ret tt, set_os (f (os s)) s).

Definition fputs_err (t : cstring) : I unit := modify (λ s, set_err (err s ++ t) s).
Definition printf (t : cstring) : I unit := modify (λ s, set_out (out s ++ t) s).
Definition fprintf_log (t : cstring) : I unit := λ s,
  match logfp s with
  | Some l => (Ret tt, set_logfp (Some (l ++ t)) s)
  | None => (Crash, s)
  end.

(** [perror(msg); exit(EXIT_FAILURE)]. *)
Definition errExit {A} (msg : cstring) : I A :=
  s ← get ;
  fputs_err (msg ++ cs ": " ++ os_strerror (os_errno (os s)) ++ [NL]) ;;
  exit EXIT_FAILURE.

(** ** Logging *)

Definition logMessage (vb_mask : Z) (text : cstring) : I unit :=
  s ← get ;
  when ((vb_mask =? 0) || flag vb_mask (verboseMask s)) (fputs_err text) ;;
  match logfp s with
  | Some l => modify (set_logfp (Some (l ++ text)))
  | None => mret tt
  end.

(** ** The watch list cache *)

Definition freeCache : I unit := modify (set_wlCache []).

Definition indexed (c : list watch) : list (nat * watch) := imap pair c.

Definition dumpCacheToLog : I unit :=
  c ← gets wlCache ;
  for_each (indexed c) (λ '(j, w),
    when (0 <=? w_wd w)
      (fprintf_log (fmt_d (Z.of_nat j) ++ cs ": wd = " ++ fmt_d (w_wd w)
                    ++ cs "; " ++ w_path w ++ [NL]))) ;;
  fprintf_log (cs "Total entries: "
    ++ fmt_d (Z.of_nat (length (filter (λ w, 0 ≤ w_wd w) c))) ++ [NL]).

Definition createStopFileAndAbort {A} : I A :=
  f ← gets stopFile ;
  sys_ (os_open_stop f) ;;
  dumpCacheToLog ;;
  stop Abort.

(** One live slot of the consistency check; the result counts a failed
    [lstat]. *)
Definition checkSlot (j : nat) (w : watch) (failures : Z) : I Z :=
  if 0 <=? w_wd w then
    r ← sys (os_lstat (w_path w)) ;
    match r with
    | inl e =>
        logMessage 0 (cs "checkCacheConsistency: stat: [slot = " ++ fmt_d (Z.of_nat j)
          ++ cs "; wd = " ++ fmt_d (w_wd w) ++ cs "] " ++ w_path w ++ cs ": "
          ++ os_strerror e ++ [NL]) ;;
        mret (failures + 1)
    | inr st =>
        if st_isdir st then mret failures
        else logMessage 0 (cs "checkCacheConsistency: " ++ w_path w
               ++ cs " is not a directory" ++ [NL]) ;;
             exit EXIT_FAILURE
    end
  else mret failures.

Fixpoint checkSlots (l : list (nat * watch)) (failures : Z) : I Z :=
  match l with
  | [] => mret failures
  | (j, w) :: r => f ← checkSlot j w failures ; checkSlots r f
  end.

Definition checkCacheConsistency : I unit :=
  c ← gets wlCache ;
  failures ← checkSlots (indexed c) 0 ;
  when (0 <? failures)
    (logMessage VB_NOISY (cs "checkCacheConsistency: " ++ fmt_d failures
                          ++ cs " failures" ++ [NL])).

(** The slot of [wd]; [None] is the C result -1. *)
Definition findWatch (wd : Z) : I (option nat) := gets (λ s, wl_findWatch (wlCache s) wd).

Definition findWatchChecked (wd : Z) : I (option nat) :=
  slot ← findWatch wd ;
  match slot with
  | Some j => mret (Some j)
  | None =>
      logMessage 0 (cs "Could not find watch " ++ fmt_d wd ++ [NL]) ;;
      a ← gets abortOnCacheProblem ;
      if a : bool then createStopFileAndAbort else mret None
  end.

Definition slot_wd (s : istate) (j : nat) : Z := default 0 (w_wd <$> wlCache s !! j).
Definition slot_path (s : istate) (j : nat) : cstring := default [] (w_path <$> wlCache s !! j).

Definition markCacheSlotEmpty (slot : nat) : I unit :=
  s ← get ;
  logMessage VB_NOISY (cs "        markCacheSlotEmpty: slot = " ++ fmt_d (Z.of_nat slot)
    ++ cs ";  wd = " ++ fmt_d (slot_wd s slot) ++ cs "; path = " ++ slot_path s slot ++ [NL]) ;;
  modify (λ s, set_wlCache (wl_clear slot (wlCache s)) s).

Definition findEmptyCacheSlot : I nat :=
  c ← gets wlCache ;
  match wl_findEmpty c with
  | Some j => mret j
  | None =>
      ok ← sys os_alloc ;
      if ok : bool then
        modify (λ s, set_wlCache (c ++ (os_uninit (os s) <$> seq (length c) ALLOC_INCR)) s) ;;
        for_each (seq (length c) ALLOC_INCR) markCacheSlotEmpty ;;
        mret (length c)
      else errExit (cs "realloc")
  end.

Definition addWatchToCache (wd : Z) (pathname : cstring) : I nat :=
  slot ← findEmptyCacheSlot ;
  modify (λ s, set_wlCache (wl_set slot wd pathname (wlCache s)) s) ;;
  mret slot.

Definition pathnameToCacheSlot (pathname : cstring) : I (option nat) :=
  gets (λ s, wl_pathSlot (wlCache s) pathname).

Definition pathnameInCache (pathname : cstring) : I bool :=
  slot ← pathnameToCacheSlot pathname ;
  mret (bool_decide (is_Some slot)).

(** ** Root directories *)

Fixpoint countRootDirs (argv : list cstring) : I unit :=
  match argv with
  | [] => mret tt
  | p :: r =>
      st ← sys (os_lstat p) ;
      match st with
      | inl _ => fputs_err (cs "lstat() failed on '" ++ p ++ cs "'" ++ [NL]) ;; exit EXIT_FAILURE
      | inr st =>
          if st_isdir st then countRootDirs r
          else fputs_err (cs "'" ++ p ++ cs "' is not a directory" ++ [NL]) ;; exit EXIT_FAILURE
      end
  end.

(** Compare a root with the roots before it. *)
Fixpoint checkDuplicates (p : cstring) (st : fstat) (seen : list (cstring * fstat)) : I unit :=
  match seen with
  | [] => mret tt
  | (q, st') :: r =>
      if (st_ino st =? st_ino st') && (st_dev st =? st_dev st') then
        fputs_err (cs "Duplicate filesystem objects: " ++ p ++ cs ", " ++ q ++ [NL]) ;;
        exit EXIT_FAILURE
      else checkDuplicates p st r
  end.

(** [stat_ok]: the array of [struct stat] was allocated.  The program tests
    the other array a second time instead; a null array makes [lstat] fail. *)
Fixpoint storeRootDirs (stat_ok : bool) (argv : list cstring)
    (seen : list (cstring * fstat)) : I (list (cstring * fstat)) :=
  match argv with
  | [] => mret seen
  | p :: r =>
      dup ← sys os_alloc ;
      if negb dup then errExit (cs "strdup") else
      st ← sys (os_lstat p) ;
      match st with
      | inl _ => errExit (cs "lstat")
      | inr st =>
          if negb stat_ok then errExit (cs "lstat") else
          checkDuplicates p st seen ;;
          storeRootDirs stat_ok r (seen ++ [(p, st)])
      end
  end.

Definition copyRootDirPaths (argv : list cstring) : I unit :=
  countRootDirs argv ;;
  ok1 ← sys os_alloc ;
  if negb ok1 then errExit (cs "calloc") else
  ok2 ← sys os_alloc ;
  roots ← storeRootDirs ok2 argv [] ;
  modify (set_rootDirPaths (Some ∘ fst <$> roots)) ;;
  modify (set_ignoreRootDirs 0).

Definition findRootDirPath (path : cstring) : I (option nat) :=
  gets (λ s, fst <$> list_find (λ p, p = Some path) (rootDirPaths s)).

Definition isRootDirPath (path : cstring) : I bool :=
  r ← findRootDirPath path ; mret (bool_decide (is_Some r)).

Definition zapRootDirPath (path : cstring) : I unit :=
  printf (cs "zapRootDirPath: " ++ path ++ [NL]) ;;
  p ← findRootDirPath path ;
  match p with
  | None => fputs_err (cs "zapRootDirPath(): path not found!" ++ [NL]) ;; exit EXIT_FAILURE
  | Some j =>
      modify (λ s, set_rootDirPaths (<[j := None]> (rootDirPaths s)) s) ;;
      modify (λ s, set_ignoreRootDirs (ignoreRootDirs s + 1) s) ;;
      s ← get ;
      when (ignoreRootDirs s =? Z.of_nat (length (rootDirPaths s)))
        (fputs_err (cs "No more root paths left to monitor; bye!" ++ [NL]) ;;
         exit EXIT_SUCCESS)
  end.

(** ** Adding subtrees *)

Definition traverseTree (pathname : cstring) (sb : fstat) : I unit :=
  if negb (st_isdir sb) then mret tt else
  root ← isRootDirPath pathname ;
  let flags := Z.lor (Z.lor (Z.lor IN_CREATE IN_MOVED_FROM) IN_MOVED_TO) IN_DELETE_SELF in
  let flags := if root : bool then Z.lor flags IN_MOVE_SELF else flags in
  fd ← gets ifd ;
  r ← sys (os_add_watch fd pathname (Z.lor flags IN_ONLYDIR)) ;
  match r with
  | inl e =>
      logMessage VB_BASIC (cs "inotify_add_watch: " ++ pathname ++ cs ": "
                           ++ os_strerror e ++ [NL]) ;;
      if e =? ENOENT then mret tt else exit EXIT_FAILURE
  | inr wd =>
      slot ← findWatch wd ;
      match slot with
      | Some _ =>
          logMessage VB_BASIC (cs "WD " ++ fmt_d wd ++ cs " already in cache ("
                               ++ pathname ++ cs ")" ++ [NL])
      | None =>
          modify (λ s, set_dirCnt (dirCnt s + 1) s) ;;
          slot ← addWatchToCache wd pathname ;
          logMessage VB_NOISY (cs "    watchDir: wd = " ++ fmt_d wd ++ cs " [cache slot: "
            ++ fmt_d (Z.of_nat slot) ++ cs "]; " ++ pathname ++ [NL])
      end
  end.

Definition watchDir (inotifyFd : Z) (pathname : cstring) : I Z :=
  modify (set_dirCnt 0) ;;
  modify (set_ifd inotifyFd) ;;
  walk ← sys (os_nftw pathname) ;
  for_each walk.1 (λ '(p, sb), traverseTree p sb) ;;
  match walk.2 with
  | Some e => logMessage VB_BASIC (cs "nftw: " ++ pathname ++ cs ": " ++ os_strerror e
                ++ cs " (directory probably deleted before we could watch)" ++ [NL])
  | None => mret tt
  end ;;
  gets dirCnt.

Definition watchSubtree (inotifyFd : Z) (path : cstring) : I unit :=
  cnt ← watchDir inotifyFd path ;
  logMessage VB_BASIC (cs "    watchSubtree: " ++ path ++ cs ": " ++ fmt_d cnt
                       ++ cs " entries added" ++ [NL]).

(** ** Renaming and zapping subtrees *)

Definition rewriteSlot (fullPath newPrefix : cstring) (j : nat) : I unit :=
  s ← get ;
  let path := slot_path s j in
  if under fullPath path then
    let full := newPrefix ++ drop (length fullPath) path in
    let newPath := snprintf PATH_MAX full in
    when (Z.of_nat PATH_MAX <? Z.of_nat (length full))
      (logMessage VB_BASIC (cs "Truncated pathname: " ++ newPath ++ [NL])) ;;
    modify (λ s, set_wlCache
      (alter (λ w, Watch (w_wd w) (take PATH_MAX newPath)) j (wlCache s)) s) ;;
    logMessage VB_NOISY (cs "    wd " ++ fmt_d (slot_wd s j) ++ cs " [cache slot "
      ++ fmt_d (Z.of_nat j) ++ cs "] ==> " ++ newPath ++ [NL])
  else mret tt.

Definition rewriteCachedPaths (oldPathPrefix oldName newPathPrefix newName : cstring) : I unit :=
  let fullPath := snprintf PATH_MAX (oldPathPrefix ++ "/"%char :: oldName) in
  let newPrefix := snprintf PATH_MAX (newPathPrefix ++ "/"%char :: newName) in
  logMessage VB_BASIC (cs "Rename: " ++ fullPath ++ cs " ==> " ++ newPrefix ++ [NL]) ;;
  n ← gets (length ∘ wlCache) ;
  for_each (seq 0 n) (rewriteSlot fullPath newPrefix).

(** The loop of [zapSubtree] from slot [j] on; [pn] is the copy of the path
    ([None] when [strdup] failed, and then comparing with it crashes). *)
Fixpoint zapSlots (inotifyFd : Z) (pn : option cstring) (js : list nat) (cnt : Z) : I Z :=
  match js with
  | [] => mret cnt
  | j :: r =>
      s ← get ;
      if 0 <=? slot_wd s j then
        match pn with
        | None => stop Crash
        | Some pn =>
            if under pn (slot_path s j) then
              logMessage VB_NOISY (cs "    removing watch: wd = " ++ fmt_d (slot_wd s j)
                ++ cs " (" ++ slot_path s j ++ cs ")" ++ [NL]) ;;
              e ← sys (os_rm_watch inotifyFd (slot_wd s j)) ;
              match e with
              | Some e =>
                  logMessage 0 (cs "inotify_rm_watch wd = " ++ fmt_d (slot_wd s j)
                    ++ cs " (" ++ slot_path s j ++ cs "): " ++ os_strerror e ++ [NL]) ;;
                  mret (-1)
              | None =>
                  markCacheSlotEmpty j ;;
                  zapSlots inotifyFd (Some pn) r (cnt + 1)
              end
            else zapSlots inotifyFd (Some pn) r cnt
        end
      else zapSlots inotifyFd pn r cnt
  end.

Definition zapSubtree (inotifyFd : Z) (path : cstring) : I Z :=
  logMessage VB_NOISY (cs "Zapping subtree: " ++ path ++ [NL]) ;;
  ok ← sys os_alloc ;
  n ← gets (length ∘ wlCache) ;
  zapSlots inotifyFd (if ok : bool then Some path else None) (seq 0 n) 0.

(** ** Rebuilding the cache *)

Definition reinitialize (oldInotifyFd : Z) : I Z :=
  (if 0 <=? oldInotifyFd then
     sys_ (os_close oldInotifyFd) ;;
     modify (λ s, set_reinitCnt (reinitCnt s + 1) s) ;;
     n ← gets reinitCnt ;
     logMessage 0 (cs "Reinitializing cache and inotify FD (reinitCnt = " ++ fmt_d n
                   ++ cs ")" ++ [NL])
   else
     logMessage 0 (cs "Initializing cache" ++ [NL]) ;;
     modify (set_reinitCnt 0)) ;;
  r ← sys os_inotify_init ;
  match r with
  | inl _ => errExit (cs "inotify_init")
  | inr inotifyFd =>
      logMessage VB_BASIC (cs "    new inotifyFd = " ++ fmt_d inotifyFd ++ [NL]) ;;
      freeCache ;;
      roots ← gets rootDirPaths ;
      for_each roots (λ p, match p with
                           | Some p => watchSubtree inotifyFd p
                           | None => mret tt
                           end) ;;
      c ← gets wlCache ;
      when (0 <=? oldInotifyFd)
        (logMessage 0 (cs "Rebuilt cache with "
           ++ fmt_d (Z.of_nat (length (filter (λ w, 0 ≤ w_wd w) c))) ++ cs " entries" ++ [NL])) ;;
      mret inotifyFd
  end.
End inotify.

Arguments istate : clear implicits.
