(* ===== verification/InotifyEvents.v ===== *)
(** * [inotify/inotify_dtree.c]: events, commands and the main loop

    The buffer that [read] fills from the inotify descriptor is a list of
    bytes; events are decoded from it at byte offsets, as the C code does by
    casting pointers. *)

From S2P Require Import Prelude CStdlib InotifyCache InotifyTree.

(** [100 * (sizeof(struct inotify_event) + NAME_MAX + 1)]. *)
Definition EVENT_SIZE : nat := 16.
Definition INOTIFY_READ_BUF_LEN : Z := 27200.

(** [struct inotify_event]; [ev_name] is the C string stored in [name]. *)
Record inotify_event := Event {
  ev_wd : Z; ev_mask : Z; ev_cookie : Z; ev_len : Z; ev_name : cstring
}.

(** The event at the start of a buffer; [None] if not even its fixed part
    lies inside the array. *)
Definition event_at (buf : list ascii) : option inotify_event :=
  if decide (EVENT_SIZE ≤ length buf)%nat then
    Some (Event (to_int (le32 buf)) (le32 (drop 4 buf)) (le32 (drop 8 buf))
                (le32 (drop 12 buf)) (until_nul (drop EVENT_SIZE buf)))
  else None.

(** The bytes of an event as the kernel lays it out, its name padded with
    nulls to [ev_len] bytes. *)
Definition encode_event (ev : inotify_event) : list ascii :=
  put_le32 (ev_wd ev mod 2 ^ 32) ++ put_le32 (ev_mask ev) ++ put_le32 (ev_cookie ev)
  ++ put_le32 (ev_len ev)
  ++ ev_name ev ++ replicate (Z.to_nat (ev_len ev) - length (ev_name ev)) NUL.

(** [%4d]. *)
Definition pad4 (t : cstring) : cstring := replicate (4 - length t) " "%char ++ t.

Section events.
Context {K : Type} `{OS : !InotifyOS K}.
Abbreviation I := (M (istate K)).

Definition displayInotifyEvent (ev : inotify_event) : I unit :=
  let name b t := when (flag (ev_mask ev) b) (logMessage VB_NOISY (cs t)) in
  logMessage VB_NOISY (cs "==> wd = " ++ fmt_d (ev_wd ev) ++ cs "; ") ;;
  when (0 <? ev_cookie ev)
    (logMessage VB_NOISY (cs "cookie = " ++ pad4 (fmt_d (to_int (ev_cookie ev))) ++ cs "; ")) ;;
  logMessage VB_NOISY (cs "mask = ") ;;
  name IN_ISDIR "IN_ISDIR "%string ;;
  name IN_CREATE "IN_CREATE "%string ;;
  name IN_DELETE_SELF "IN_DELETE_SELF "%string ;;
  name IN_MOVE_SELF "IN_MOVE_SELF "%string ;;
  name IN_MOVED_FROM "IN_MOVED_FROM "%string ;;
  name IN_MOVED_TO "IN_MOVED_TO "%string ;;
  name IN_IGNORED "IN_IGNORED "%string ;;
  name IN_Q_OVERFLOW "IN_Q_OVERFLOW "%string ;;
  name IN_UNMOUNT "IN_UNMOUNT "%string ;;
  logMessage VB_NOISY [NL] ;;
  when (0 <? ev_len ev)
    (logMessage VB_NOISY (cs "        name = " ++ ev_name ev ++ [NL])).

(** An uninitialised [evCacheSlot] used as an index. *)
Definition with_slot {A} (slot : option nat) (k : nat → I A) : I A :=
  match slot with Some j => k j | None => stop Crash end.

(** Rebuild the cache on a new inotify descriptor and discard the rest of
    the buffer. *)
Definition rebuild (inotifyFd : Z) : I (Z * Z) :=
  fd ← reinitialize inotifyFd ;
  mret (fd, INOTIFY_READ_BUF_LEN).

(** The tail every branch that falls through runs. *)
Definition afterEvent (fd evLen : Z) : I (Z * Z) :=
  s ← get ;
  when (checkCache s) checkCacheConsistency ;;
  s ← get ;
  when (dumpCache s) dumpCacheToLog ;;
  mret (fd, evLen).

Definition zapOrRebuild (inotifyFd : Z) (path : cstring) (evLen : Z) : I (Z * Z) :=
  cnt ← zapSubtree inotifyFd path ;
  if cnt =? -1 then rebuild inotifyFd else afterEvent inotifyFd evLen.

(** A directory was created in the tree or moved into it. *)
Definition onDirAppears (inotifyFd : Z) (ev : inotify_event) (slot : option nat)
    (evLen : Z) : I (Z * Z) :=
  with_slot slot (λ j,
    s ← get ;
    let fullPath := snprintf (PATH_MAX + NAME_MAX) (slot_path s j ++ "/"%char :: ev_name ev) in
    logMessage VB_BASIC (cs "Directory creation on wd " ++ fmt_d (ev_wd ev) ++ cs ": "
                         ++ fullPath ++ [NL]) ;;
    cached ← pathnameInCache fullPath ;
    when (negb cached) (watchSubtree inotifyFd fullPath) ;;
    afterEvent inotifyFd evLen).

Definition onDeleteSelf (inotifyFd : Z) (ev : inotify_event) (slot : option nat)
    (evLen : Z) : I (Z * Z) :=
  with_slot slot (λ j,
    s ← get ;
    logMessage VB_BASIC (cs "Clearing watchlist item " ++ fmt_d (ev_wd ev) ++ cs " ("
                         ++ slot_path s j ++ cs ")" ++ [NL]) ;;
    root ← isRootDirPath (slot_path s j) ;
    when root (zapRootDirPath (slot_path s j)) ;;
    markCacheSlotEmpty j ;;
    afterEvent inotifyFd evLen).

(** The value [(size_t) -1] asks the caller for another read. *)
Definition READ_MORE : Z := wrapU 64 (-1).

(** A directory was moved away.  [rest] is the buffer from [nextEv] on. *)
Definition onMovedFrom (inotifyFd : Z) (ev : inotify_event) (slot : option nat)
    (evLen : Z) (rest : list ascii) (bufSize : Z) (firstTry : bool) : I (Z * Z) :=
  let hasNext := evLen <? bufSize in
  let movedOut :=
    with_slot slot (λ j,
      s ← get ;
      logMessage VB_NOISY (cs "MOVED_OUT: " ++ os_ptr (slot_path s j) (os s) ++ cs " "
                           ++ os_ptr (ev_name ev) (os s) ++ [NL]) ;;
      logMessage VB_NOISY (cs "firstTry = " ++ fmt_d (Z.b2z firstTry)
        ++ cs "; remaining bytes = " ++ fmt_d (bufSize - evLen) ++ [NL]) ;;
      zapOrRebuild inotifyFd
        (snprintf (PATH_MAX + NAME_MAX) (slot_path s j ++ "/"%char :: ev_name ev)) evLen) in
  if hasNext then
    match event_at rest with
    | None => stop Crash
    | Some nextEv =>
        if flag (ev_mask nextEv) IN_MOVED_TO && (ev_cookie nextEv =? ev_cookie ev) then
          nextSlot ← findWatchChecked (ev_wd nextEv) ;
          match nextSlot with
          | None => rebuild inotifyFd
          | Some nj =>
              with_slot slot (λ j,
                s ← get ;
                rewriteCachedPaths (slot_path s j) (ev_name ev)
                                   (slot_path s nj) (ev_name nextEv) ;;
                afterEvent inotifyFd (evLen + (Z.of_nat EVENT_SIZE + ev_len nextEv)))
          end
        else movedOut
    end
  else if negb firstTry then movedOut
  else logMessage VB_NOISY (cs "HANGING IN_MOVED_FROM" ++ [NL]) ;;
       mret (inotifyFd, READ_MORE).

Definition onOverflow (inotifyFd : Z) : I (Z * Z) :=
  modify (λ s, set_overflowCnt (overflowCnt s + 1) s) ;;
  s ← get ;
  logMessage 0 (cs "Queue overflow (" ++ fmt_d (overflowCnt s) ++ cs ") (inotifyReadCnt = "
                ++ fmt_d (inotifyReadCnt s) ++ cs ")" ++ [NL]) ;;
  fd ← reinitialize inotifyFd ;
  afterEvent fd INOTIFY_READ_BUF_LEN.

Definition onUnmount (inotifyFd : Z) (slot : option nat) (evLen : Z) : I (Z * Z) :=
  with_slot slot (λ j,
    s ← get ;
    logMessage 0 (cs "Filesystem unmounted: " ++ slot_path s j ++ [NL]) ;;
    markCacheSlotEmpty j ;;
    afterEvent inotifyFd evLen).

Definition onMoveSelf (inotifyFd : Z) (slot : option nat) (evLen : Z) : I (Z * Z) :=
  with_slot slot (λ j,
    s ← get ;
    root ← isRootDirPath (slot_path s j) ;
    if root : bool then
      logMessage 0 (cs "Root path moved: " ++ slot_path s j ++ [NL]) ;;
      zapRootDirPath (slot_path s j) ;;
      zapOrRebuild inotifyFd (slot_path s j) evLen
    else afterEvent inotifyFd evLen).

(** The dispatch of [processNextInotifyEvent] once the event's cache slot is
    known. *)
Definition dispatchEvent (inotifyFd : Z) (ev : inotify_event) (slot : option nat)
    (buf : list ascii) (bufSize : Z) (firstTry : bool) : I (Z * Z) :=
  let evLen := Z.of_nat EVENT_SIZE + ev_len ev in
  let mask := ev_mask ev in
  if flag mask IN_ISDIR && flag mask (Z.lor IN_CREATE IN_MOVED_TO) then
    onDirAppears inotifyFd ev slot evLen
  else if flag mask IN_DELETE_SELF then onDeleteSelf inotifyFd ev slot evLen
  else if Z.land mask (Z.lor IN_MOVED_FROM IN_ISDIR) =? Z.lor IN_MOVED_FROM IN_ISDIR then
    onMovedFrom inotifyFd ev slot evLen (drop (Z.to_nat evLen) buf) bufSize firstTry
  else if flag mask IN_Q_OVERFLOW then onOverflow inotifyFd
  else if flag mask IN_UNMOUNT then onUnmount inotifyFd slot evLen
  else if flag mask IN_MOVE_SELF then onMoveSelf inotifyFd slot evLen
  else afterEvent inotifyFd evLen.

(** The result is the inotify descriptor after the call and the [size_t]
    the C function returns. *)
Definition processNextInotifyEvent (inotifyFd : Z) (buf : list ascii) (bufSize : Z)
    (firstTry : bool) : I (Z * Z) :=
  match event_at buf with
  | None => stop Crash
  | Some ev =>
      displayInotifyEvent ev ;;
      if negb (ev_wd ev =? -1) && negb (flag (ev_mask ev) IN_IGNORED) then
        slot ← findWatchChecked (ev_wd ev) ;
        match slot with
        | None => rebuild inotifyFd
        | Some j => dispatchEvent inotifyFd ev (Some j) buf bufSize firstTry
        end
      else dispatchEvent inotifyFd ev None buf bufSize firstTry
  end.

(** ** Reading events *)

Definition readZero {A} : I A :=
  fputs_err (cs "read() from inotify fd returned 0!") ;; exit EXIT_FAILURE.

(** The loop over [evp]; [evp] and [numRead] are offsets into [buf]. *)
Fixpoint eventLoop (fuel : nat) (inotifyFd : Z) (buf : list ascii) (evp numRead : Z)
    (firstTry : bool) : I Z :=
  match fuel with
  | O => stop NoFuel
  | S fuel =>
      if evp <? numRead then
        r ← processNextInotifyEvent inotifyFd (drop (Z.to_nat evp) buf) (numRead - evp) firstTry ;
        let (fd, ret) := (r : Z * Z) in
        let evLen := to_int ret in
        if 0 <? evLen then eventLoop fuel fd buf (evp + evLen) numRead true
        else
          let rem := numRead - evp in
          let buf := take (Z.to_nat rem) (drop (Z.to_nat evp) buf) ++ drop (Z.to_nat rem) buf in
          sys_ (os_ualarm 2000) ;;
          r ← sys (os_read fd (INOTIFY_READ_BUF_LEN - rem)) ;
          sys_ (os_ualarm 0) ;;
          let next (data : list ascii) (nr : Z) :=
            modify (λ s, set_inotifyReadCnt (inotifyReadCnt s + 1) s) ;;
            n ← gets inotifyReadCnt ;
            logMessage VB_NOISY ([NL] ++ cs "==========> SECONDARY Read " ++ fmt_d n
              ++ cs ": got " ++ fmt_d nr ++ cs " bytes" ++ [NL]) ;;
            eventLoop fuel fd
              (take (Z.to_nat rem) buf ++ data ++ drop (Z.to_nat rem + length data) buf)
              0 (rem + nr) false in
          match r with
          | inl e => if e =? EINTR then next [] (-1) else errExit (cs "read")
          | inr data =>
              let data := take (Z.to_nat (INOTIFY_READ_BUF_LEN - rem)) data in
              match data with
              | [] => readZero
              | _ => next data (Z.of_nat (length data))
              end
          end
      else mret inotifyFd
  end.

Definition processInotifyEvents (fuel : nat) (inotifyFd : Z) : I Z :=
  sa ← sys os_sigaction ;
  match sa with
  | Some _ => errExit (cs "sigaction")
  | None =>
      s ← get ;
      let buf := os_stack (os s) <$> seq 0 (Z.to_nat INOTIFY_READ_BUF_LEN) in
      let cnt := if 0 <? readBufferSize s then readBufferSize s else INOTIFY_READ_BUF_LEN in
      r ← sys (os_read inotifyFd cnt) ;
      match r with
      | inl _ => errExit (cs "read")
      | inr data =>
          let data := take (Z.to_nat cnt) data in
          let numRead := Z.of_nat (length data) in
          if numRead =? 0 then readZero
          else if INOTIFY_READ_BUF_LEN <? numRead then stop Crash
          else
            modify (λ s, set_inotifyReadCnt (inotifyReadCnt s + 1) s) ;;
            n ← gets inotifyReadCnt ;
            logMessage VB_NOISY ([NL] ++ cs "==========> Read " ++ fmt_d n ++ cs ": got "
                                 ++ fmt_d numRead ++ cs " bytes" ++ [NL]) ;;
            eventLoop fuel inotifyFd (data ++ drop (length data) buf) 0 numRead true
      end
  end.
End events.
