(* ===== verification/InotifyMain.v ===== *)
(** * [inotify/inotify_dtree.c]: interactive commands and [main] *)

From S2P Require Import Prelude CStdlib InotifyCache InotifyTree InotifyEvents.

Section commands.
Context {K : Type} `{OS : !InotifyOS K}.
Abbreviation I := (M (istate K)).

Definition MAX_LINE : Z := 100.

Fixpoint take_word (s : cstring) : cstring :=
  match s with
  | c :: r => if isspace c then [] else c :: take_word r
  | [] => []
  end.

(** [sscanf(line, "%c %s\n", &cmd, arg)] on a nonempty line: the command and
    the argument, [None] when only one item was converted. *)
Definition scan_command (line : cstring) : option (ascii * option cstring) :=
  match line with
  | [] => None
  | c :: r => Some (c, match take_word (skip_spaces r) with [] => None | w => Some w end)
  end.

(** Use of [arg] before anything was stored in it. *)
Definition with_arg {A} (arg : option cstring) (k : cstring → I A) : I A :=
  match arg with Some a => k a | None => stop Crash end.

Definition onOff (b : bool) : cstring := cs (if b then "on" else "off")%string ++ [NL].

(** The loop of commands [c] and [C] over the slots. *)
Fixpoint verifySlots (verbose : bool) (l : list (nat * watch)) (cnt failures : Z) : I (Z * Z) :=
  match l with
  | [] => mret (cnt, failures)
  | (j, w) :: r =>
      if 0 <=? w_wd w then
        st ← sys (os_lstat (w_path w)) ;
        match st with
        | inl e =>
            when verbose (logMessage VB_BASIC (cs "stat: [slot = " ++ fmt_d (Z.of_nat j)
              ++ cs "; wd = " ++ fmt_d (w_wd w) ++ cs "] " ++ w_path w ++ cs ": "
              ++ os_strerror e ++ [NL])) ;;
            verifySlots verbose r cnt (failures + 1)
        | inr st =>
            if negb (st_isdir st) then
              when verbose (logMessage 0 (w_path w ++ cs " is not a directory" ++ [NL])) ;;
              exit EXIT_FAILURE
            else
              when verbose (logMessage VB_NOISY (cs "OK: [slot = " ++ fmt_d (Z.of_nat j)
                ++ cs "; wd = " ++ fmt_d (w_wd w) ++ cs "] " ++ w_path w ++ [NL])) ;;
              verifySlots verbose r (cnt + 1) failures
        end
      else verifySlots verbose r cnt failures
  end.

Definition verifyCommand (verbose : bool) : I unit :=
  c ← gets wlCache ;
  r ← verifySlots verbose (indexed c) 0 0 ;
  let (cnt, failures) := (r : Z * Z) in
  logMessage 0 (cs "Successfully verified " ++ fmt_d cnt ++ cs " entries" ++ [NL]) ;;
  logMessage 0 (cs "Failures: " ++ fmt_d failures ++ [NL]).

Definition listCommand : I unit :=
  c ← gets wlCache ;
  for_each (indexed c) (λ '(j, w),
    when (0 <=? w_wd w) (logMessage 0 (fmt_d (Z.of_nat j) ++ cs ": " ++ fmt_d (w_wd w)
                                        ++ cs " " ++ w_path w ++ [NL]))) ;;
  logMessage VB_BASIC (cs "Total entries: "
    ++ fmt_d (Z.of_nat (length (filter (λ w, 0 ≤ w_wd w) c))) ++ [NL]).

(** [fclose] on the null pointer a failed [fopen] returned is a crash (the
    cache loop before it crashes too when there is an entry to print). *)
Definition writeCommand (file : cstring) : I unit :=
  ok ← sys (os_fopen file) ;
  if ok : bool then
    c ← gets wlCache ;
    for_each c (λ w, when (0 <=? w_wd w) (sys_ (os_fprintf file (w_path w ++ [NL])))) ;;
    sys_ (os_fclose file)
  else
    s ← get ;
    fputs_err (cs "fopen: " ++ os_strerror (os_errno (os s)) ++ [NL]) ;;
    stop Crash.

Definition helpText : list string :=
  ["Commands:"; "0        Rebuild cache";
   "a path   Add/refresh pathname watches and cache"; "c        Verify cached pathnames";
   "d        Toggle cache dumping"; "l        List cached pathnames"; "q        Quit";
   "v [n]    Toggle/set verbose level for messages to stderr";
   "             0 = no messages"; "             1 = basic messages";
   "             2 = verbose messages"; "             3 = basic and verbose messages";
   "w file   Write directory list to file"; "x        Toggle cache checking";
   "z path   Zap pathname and watches from cache"]%string.

Definition unknownCommand (cmd : ascii) : I unit :=
  printf (cs "Unrecognized command: " ++ [cmd] ++ [NL]) ;;
  for_each helpText (λ l, printf (cs l ++ [NL])).

(** The switch of [executeCommand]; the result is the inotify descriptor
    after the command. *)
Definition runCommand (inotifyFd : Z) (cmd : ascii) (arg : option cstring) : I Z :=
  if decide (cmd = "a"%char) then
    with_arg arg (λ a,
      cnt ← zapSubtree inotifyFd a ;
      (if cnt =? 0
       then logMessage VB_BASIC (cs "Adding new subtree: " ++ a ++ [NL])
       else logMessage VB_BASIC (cs "Zapped: " ++ a ++ cs ", " ++ fmt_d cnt
                                 ++ cs " entries" ++ [NL])) ;;
      watchSubtree inotifyFd a ;;
      mret inotifyFd)
  else if decide (cmd = "c"%char) then verifyCommand true ;; mret inotifyFd
  else if decide (cmd = "C"%char) then verifyCommand false ;; mret inotifyFd
  else if decide (cmd = "l"%char) then listCommand ;; mret inotifyFd
  else if decide (cmd = "q"%char) then exit EXIT_SUCCESS
  else if decide (cmd = "v"%char) then
    match arg with
    | Some a => modify (set_verboseMask (atoi a))
    | None =>
        modify (λ s, set_verboseMask (if verboseMask s =? 0 then 1 else 0) s) ;;
        s ← get ; printf (onOff (negb (verboseMask s =? 0)))
    end ;; mret inotifyFd
  else if decide (cmd = "d"%char) then
    modify (λ s, set_dumpCache (negb (dumpCache s)) s) ;;
    s ← get ; printf (onOff (dumpCache s)) ;; mret inotifyFd
  else if decide (cmd = "x"%char) then
    modify (λ s, set_checkCache (negb (checkCache s)) s) ;;
    s ← get ; printf (onOff (checkCache s)) ;; mret inotifyFd
  else if decide (cmd = "w"%char) then with_arg arg writeCommand ;; mret inotifyFd
  else if decide (cmd = "z"%char) then
    with_arg arg (λ a,
      cnt ← zapSubtree inotifyFd a ;
      logMessage VB_BASIC (cs "Zapped: " ++ a ++ cs ", " ++ fmt_d cnt
                           ++ cs " entries" ++ [NL]) ;;
      mret inotifyFd)
  else if decide (cmd = "0"%char) then
    sys_ (os_close inotifyFd) ;; reinitialize (-1)
  else unknownCommand cmd ;; mret inotifyFd.

Definition STDIN_FILENO : Z := 0.

Definition executeCommand (inotifyFd : Z) : I Z :=
  r ← sys (os_read STDIN_FILENO MAX_LINE) ;
  match r with
  | inl _ | inr [] => printf (cs "bye!" ++ [NL]) ;; exit EXIT_FAILURE
  | inr data =>
      let data := take (Z.to_nat MAX_LINE) data in
      let line := until_nul (take (length data - 1) data) in
      match scan_command line with
      | None => mret inotifyFd
      | Some (cmd, arg) => runCommand inotifyFd cmd arg
      end
  end.

(** ** [main] *)

(** One option as [getopt] delivers it. *)
Inductive option_arg :=
| OptA (file : cstring) | OptX | OptD | OptV (arg : cstring)
| OptB (arg : cstring) | OptL (file : cstring) | OptOther.

Definition usageError {A} (pname : cstring) : I A :=
  fputs_err (cs "Usage: " ++ pname ++ cs " [options] directory-path" ++ [NL; NL]) ;;
  for_each ["    -v lvl   Display logging information";
            "    -l file  Send logging information to a file";
            "    -x       Check cache consistency after each operation";
            "    -d       Dump cache to log after every operation";
            "    -b size  Set buffer size for read() from inotify FD";
            "    -a file  Abort when cache inconsistency detected, and create 'stop' file"]%string
    (λ l, fputs_err (cs l ++ [NL])) ;;
  exit EXIT_FAILURE.

Definition applyOption (pname : cstring) (o : option_arg) : I unit :=
  match o with
  | OptA f => modify (set_abortOnCacheProblem true) ;; modify (set_stopFile (Some f))
  | OptX => modify (set_checkCache true)
  | OptD => modify (set_dumpCache true)
  | OptV a => modify (set_verboseMask (atoi a))
  | OptB a => modify (set_readBufferSize (atoi a))
  | OptL f =>
      ok ← sys (os_fopen f) ;
      if ok : bool then modify (set_logfp (Some [])) else errExit (cs "fopen")
  | OptOther => usageError pname
  end.

(** One iteration of the [for (;;)] loop.  [FD_ISSET] looks the descriptor
    up in the set built for the previous one, so events are read only when
    a command left the descriptor alone. *)
Definition mainStep (fuel : nat) (pname : cstring) (inotifyFd : Z) : I Z :=
  r ← sys (os_select (inotifyFd + 1)) ;
  match r with
  | inl _ => errExit (cs "select")
  | inr (stdin_ready, inotify_ready) =>
      fd ← (if stdin_ready : bool then
              fd ← executeCommand inotifyFd ;
              printf (pname ++ cs "> ") ;; mret fd
            else mret inotifyFd) ;
      if inotify_ready && (fd =? inotifyFd) then processInotifyEvents fuel fd else mret fd
  end.

Fixpoint mainLoop (steps fuel : nat) (pname : cstring) (inotifyFd : Z) : I Z :=
  match steps with
  | O => stop NoFuel
  | S n => fd ← mainStep fuel pname inotifyFd ; mainLoop n fuel pname fd
  end.

(** The globals before [main] runs. *)
Definition initial (k : K) : istate K :=
  IState 0 false false 0 None false None 0 [] [] 0 0 0 0 0 [] [] k.

(** [main] up to its loop. *)
Definition startup (pname : cstring) (opts : list option_arg) (argv : list cstring) : I Z :=
  for_each opts (applyOption pname) ;;
  if decide (argv = []) then usageError pname else
  copyRootDirPaths argv ;;
  inotifyFd ← reinitialize (-1) ;
  printf (pname ++ cs "> ") ;;
  mret inotifyFd.

Definition inotify_main (steps fuel : nat) (pname : cstring) (opts : list option_arg)
    (argv : list cstring) : I Z :=
  inotifyFd ← startup pname opts argv ;
  mainLoop steps fuel pname inotifyFd.

(** The states at the top of the loop. *)
Inductive reachable (pname : cstring) (opts : list option_arg) (argv : list cstring)
    (k0 : K) : Z → istate K → Prop :=
| reach_start fd s :
    startup pname opts argv (initial k0) = (Ret fd, s) →
    reachable pname opts argv k0 fd s
| reach_step fuel fd s fd' s' :
    reachable pname opts argv k0 fd s →
    mainStep fuel pname fd s = (Ret fd', s') →
    reachable pname opts argv k0 fd' s'.
End commands.
