(* ===== verification/InotifyProofs.v ===== *)
(** * Correctness of [inotify/inotify_dtree.c]

    The frame lemmas say what a function leaves alone, the refinement lemmas
    what it does to the map from watch descriptors to pathnames that the cache
    represents; the last part proves that the cache invariant holds in every
    state the program can reach, whatever the kernel answers. *)

From S2P Require Import Prelude CStdlib InotifyCache InotifyTree InotifyEvents InotifyMain.

Create HintDb quiet.
Create HintDb keeps.

Section proofs.
Context {K : Type} `{OS : !InotifyOS K}.
Implicit Types (s : istate K) (E : istate K → Prop).

(** The part of the state the invariants speak about. *)
Definition core s : list watch * list (option cstring) * Z :=
  (wlCache s, rootDirPaths s, ignoreRootDirs s).

(** A computation that returns without touching the core, unless it ends
    the process. *)
Definition quiet {A} (m : M (istate K) A) : Prop :=
  ∀ s, wp m (λ _ s', core s' = core s) (λ _, True) s.

Lemma quiet_ret {A} (a : A) : quiet (mret a).
Proof. by intros s. Qed.

Lemma quiet_bind {A B} (m : M (istate K) A) (k : A → M (istate K) B) :
  quiet m → (∀ a, quiet (k a)) → quiet (m ≫= k).
Proof.
  intros Hm Hk s. apply wp_bind. eapply wp_conseq; [apply Hm|].
  intros a s' Hs. eapply wp_conseq; [apply Hk|]. intros ?? ->. done.
Qed.

Lemma quiet_get : quiet get.
Proof. by intros s. Qed.

Lemma quiet_gets {A} (f : istate K → A) : quiet (gets f).
Proof. by intros s. Qed.

Lemma quiet_stop {A} (o : outcome A) : (∀ a, o ≠ Ret a) → quiet (stop o).
Proof. intros Ho s. rw /wp /stop. destruct o; naive_solver. Qed.

Lemma quiet_exit {A} n : quiet (@exit (istate K) A n).
Proof. by apply quiet_stop. Qed.

Lemma quiet_modify f : (∀ s, core (f s) = core s) → quiet (modify f).
Proof. intros Hf s. apply Hf. Qed.

Lemma quiet_sys {A} (f : K → A * K) : quiet (sys f).
Proof. intros s. rw /wp /sys. by destruct (f (os s)). Qed.

Lemma quiet_sys_ f : quiet (sys_ f).
Proof. by intros s. Qed.

Lemma quiet_when b m : quiet m → quiet (when b m).
Proof. destruct b; [done|]. intros _. apply quiet_ret. Qed.

Lemma quiet_for_each {A} (l : list A) f : (∀ x, quiet (f x)) → quiet (for_each l f).
Proof.
  intros Hf. elim: l => [|x l IH] /=; [apply quiet_ret|]. by apply quiet_bind.
Qed.

Lemma quiet_fputs_err t : quiet (fputs_err t).
Proof. by apply quiet_modify. Qed.

Lemma quiet_printf t : quiet (printf t).
Proof. by apply quiet_modify. Qed.

Lemma quiet_fprintf_log t : quiet (fprintf_log t).
Proof. intros s. rw /wp /fprintf_log. by destruct (logfp s). Qed.

(** Syntax-directed proof that a computation is quiet. *)
Ltac quiet_step :=
  lazymatch goal with
  | |- quiet (mbind _ _) => apply quiet_bind; [|intros ?]
  | |- quiet (when _ _) => apply quiet_when
  | |- quiet (for_each _ _) => apply quiet_for_each; intros ?
  | |- quiet (mret _) => apply quiet_ret
  | |- quiet get => apply quiet_get
  | |- quiet (gets _) => apply quiet_gets
  | |- quiet (modify _) => apply quiet_modify; reflexivity
  | |- quiet (exit _) => apply quiet_exit
  | |- quiet (stop _) => apply quiet_stop; discriminate
  | |- quiet (sys _) => apply quiet_sys
  | |- quiet (sys_ _) => apply quiet_sys_
  | |- quiet (fputs_err _) => apply quiet_fputs_err
  | |- quiet (printf _) => apply quiet_printf
  | |- quiet (fprintf_log _) => apply quiet_fprintf_log
  | |- quiet (match ?x with _ => _ end) => destruct x
  | |- _ => solve [eauto 2 with quiet nocore]
  end.
Ltac quiet := repeat quiet_step.

Lemma quiet_errExit {A} t : quiet (errExit (A := A) t).
Proof. rw /errExit. quiet. Qed.

Lemma wp_errExit {A} t (Q : A → istate K → Prop) s : wp (errExit t) Q (λ _, True) s.
Proof. rw /errExit. by repeat wp_step. Qed.

Lemma quiet_logMessage m t : quiet (logMessage m t).
Proof. rw /logMessage. quiet. Qed.
Hint Resolve quiet_logMessage quiet_errExit : quiet.

Lemma quiet_dumpCacheToLog : quiet dumpCacheToLog.
Proof. rw /dumpCacheToLog. quiet. Qed.
Hint Resolve quiet_dumpCacheToLog : quiet.

Lemma quiet_checkSlots l n : quiet (checkSlots l n).
Proof. elim: l n => [|[j w] l IH] n /=; rw ?/checkSlot; quiet. Qed.
Hint Resolve quiet_checkSlots : quiet.

Lemma quiet_checkCacheConsistency : quiet checkCacheConsistency.
Proof. rw /checkCacheConsistency. quiet. Qed.

Lemma quiet_findWatchChecked wd : quiet (findWatchChecked wd).
Proof. rw /findWatchChecked /findWatch /createStopFileAndAbort. quiet. Qed.

Lemma quiet_isRootDirPath p : quiet (isRootDirPath p).
Proof. rw /isRootDirPath /findRootDirPath. quiet. Qed.

Lemma quiet_displayInotifyEvent ev : quiet (displayInotifyEvent ev).
Proof. rw /displayInotifyEvent. quiet. Qed.

(** ** What each function does to the cache *)

Abbreviation never := (λ _ : istate K, False).
Abbreviation ended := (λ _ : istate K, True).

(** The core with another cache. *)
Definition with_cache c s : list watch * list (option cstring) * Z :=
  (c, rootDirPaths s, ignoreRootDirs s).

Lemma with_cache_core c s s' : core s = core s' → with_cache c s = with_cache c s'.
Proof. rw /core /with_cache. by intros [= ? -> ->]. Qed.

Lemma core_cache s s' : core s = core s' → wlCache s = wlCache s'.
Proof. by intros [= ->]. Qed.

Lemma with_cache_wl c s s' : core s' = with_cache c s → wlCache s' = c.
Proof. by intros [= ->]. Qed.

Lemma with_cache_trans c c1 s s' :
  core s' = with_cache c1 s → with_cache c s' = with_cache c s.
Proof. rw /core /with_cache. by intros [= ? -> ->]. Qed.

Lemma logMessage_returns m t s : wp (logMessage m t) (λ _ s', core s' = core s) never s.
Proof.
  rw /wp /logMessage /mbind /M_bind /get /when /fputs_err /modify /mret /M_ret.
  destruct (_ || _), (logfp s); done.
Qed.

(** Run a log message inside a [wp] goal. *)
Ltac wp_log s' Hs' :=
  apply wp_bind; eapply wp_mono; [apply logMessage_returns|intros [] s' Hs'; simpl in Hs'|try done].

Lemma markCacheSlotEmpty_spec j s :
  wp (markCacheSlotEmpty j) (λ _ s', core s' = with_cache (wl_clear j (wlCache s)) s) never s.
Proof.
  rw /markCacheSlotEmpty. wp_step. wp_step. wp_log s' Hs'. wp_step.
  rw /core /= (core_cache _ _ Hs'). by apply with_cache_core.
Qed.

Lemma clearSlots_spec k c g s :
  wlCache s = c ++ g → length g = k →
  wp (for_each (seq (length c) k) markCacheSlotEmpty)
     (λ _ s', core s' = with_cache (c ++ replicate k (Watch (-1) [])) s) never s.
Proof.
  elim: k c g s => [|k IH] c g s Hc Hg /=.
  - wp_step. destruct g; [|done]. by rw /core Hc.
  - destruct g as [|w g]; [done|]. simplify_eq/=. wp_step.
    eapply wp_conseq; [apply markCacheSlotEmpty_spec|]. intros [] s' Hs'.
    assert (wlCache s' = (c ++ [Watch (-1) []]) ++ g) as Hc'.
    { rw (with_cache_wl _ _ _ Hs') Hc /wl_clear insert_app_r_alt //.
      by rw Nat.sub_diag /= -app_assoc. }
    pose proof (IH _ _ _ Hc' eq_refl) as H. rw length_app /= Nat.add_1_r in H.
    eapply wp_conseq; [exact H|]. intros [] s'' ->. rw -app_assoc /=.
    exact (with_cache_trans _ _ _ _ Hs').
Qed.

Lemma findEmptyCacheSlot_spec s :
  wp findEmptyCacheSlot (λ j s', ∃ c q,
      core s' = with_cache c s ∧ c !! j = Some (Watch (-1) q) ∧
      (c = wlCache s ∨ c = wlCache s ++ replicate ALLOC_INCR (Watch (-1) []))) ended s.
Proof.
  rw /findEmptyCacheSlot. wp_step. wp_step.
  destruct (wl_findEmpty (wlCache s)) as [j|] eqn:Hj.
  - wp_step. apply wl_findEmpty_Some in Hj as [q Hq]. exists (wlCache s), q. by auto.
  - wp_step. rw {1}/wp /sys. destruct (os_alloc (os s)) as [[] k];
      [|by apply wp_errExit].
    wp_step. wp_step. wp_step. eapply wp_mono; [eapply clearSlots_spec| |].
    + done.
    + by rw length_fmap length_seq.
    + intros [] s' Hs'. wp_step. eexists _, []. split; [exact Hs'|]. split; [|by right].
      rw lookup_app_r // Nat.sub_diag. apply lookup_replicate_2. rw /ALLOC_INCR. lia.
    + done.
Qed.

Lemma grow_cases c c0 :
  c = c0 ∨ c = c0 ++ replicate ALLOC_INCR (Watch (-1) []) → cache_wf c0 →
  cache_wf c ∧ (∀ m, repr c0 m → repr c m) ∧ (∀ wd p, 0 ≤ wd → Watch wd p ∈ c ↔ Watch wd p ∈ c0).
Proof.
  intros Hc Hwf. split_and!.
  - destruct Hc as [-> | ->]; auto with cache.
  - destruct Hc as [-> | ->]; auto using repr_grow.
  - intros wd p Hwd. destruct Hc as [-> | ->]; [done|]. rw elem_of_app elem_of_replicate.
    split; [|by left]. intros [?|[[= -> ->] _]]; [done|lia].
Qed.

(** A new descriptor is stored in a free slot: the map gains one entry. *)
Lemma addWatchToCache_refines wd p m s :
  cache_wf (wlCache s) → repr (wlCache s) m → m !! wd = None → 0 ≤ wd →
  (length p < PATH_MAX)%nat →
  wp (addWatchToCache wd p) (λ j s', ∃ c, core s' = with_cache c s ∧ cache_wf c ∧
      repr c (<[wd := p]> m) ∧ c !! j = Some (Watch wd p)) ended s.
Proof.
  intros Hwf Hr Hm Hwd Hp. rw /addWatchToCache. wp_step.
  eapply wp_conseq; [apply findEmptyCacheSlot_spec|].
  intros j s' (c & q & Hs' & Hj & Hc). do 2 wp_step. wp_step.
  apply grow_cases in Hc as (Hwf' & Hr' & Hin); [|done].
  assert (∀ p', Watch wd p' ∉ c) as Hfresh.
  { intros p' Hp'%Hin; [|done]. assert (m !! wd = Some p') by (by apply Hr). congruence. }
  exists (wl_set j wd p c). rw /core /= (with_cache_wl _ _ _ Hs').
  split_and!; [exact (with_cache_trans _ _ _ _ Hs')| | |].
  - by eapply cache_wf_set; eauto.
  - eapply repr_set; eauto.
  - rw /wl_set take_ge; [lia|]. apply list_lookup_insert_eq. exact (lookup_lt_Some _ _ _ Hj).
Qed.

(** The map after one visit that obtained descriptor [wd]. *)
Definition visit_map (wd : Z) (p : cstring) (m : gmap Z cstring) : gmap Z cstring :=
  match m !! wd with Some _ => m | None => <[wd := p]> m end.

Lemma findWatch_repr c m wd :
  repr c m → 0 ≤ wd → wl_findWatch c wd = None ↔ m !! wd = None.
Proof.
  intros Hr Hwd. rw wl_findWatch_None eq_None_not_Some. split.
  - intros H [p Hp]. by apply (H p), Hr.
  - intros H p Hp. apply H. exists p. by apply Hr.
Qed.

Context `{OSok : !InotifyOSOk K}.

Lemma traverseTree_refines p sb m s :
  cache_wf (wlCache s) → repr (wlCache s) m → (length p < PATH_MAX)%nat →
  wp (traverseTree p sb) (λ _ s', ∃ c m', core s' = with_cache c s ∧ cache_wf c ∧
      repr c m' ∧ (m' = m ∨ ∃ wd, 0 ≤ wd ∧ m' = visit_map wd p m)) ended s.
Proof.
  intros Hwf Hr Hp. rw /traverseTree.
  assert (∃ c m', core s = with_cache c s ∧ cache_wf c ∧ repr c m' ∧
            (m' = m ∨ ∃ wd, 0 ≤ wd ∧ m' = visit_map wd p m)) as Hsame.
  { exists (wlCache s), m. by auto. }
  destruct (st_isdir sb); simpl; [|by wp_step].
  wp_step. eapply wp_conseq; [apply quiet_isRootDirPath|]. intros root s1 Hs1. simpl in Hs1.
  do 2 wp_step. wp_step. rw {1}/wp /sys.
  destruct (os_add_watch _ _ _ _) as [[e|wd] k] eqn:Hadd.
  - wp_log s2 Hs2. destruct (e =? ENOENT); [|by wp_step]. wp_step.
    rw Hs2. change (core (set_os k s1)) with (core s1). by rw Hs1.
  - apply os_add_watch_nonneg in Hadd. wp_step. rw /findWatch. wp_step. simpl.
    rw (core_cache _ _ Hs1). destruct (wl_findWatch (wlCache s) wd) as [j|] eqn:Hf.
    + eapply wp_mono; [apply logMessage_returns| |done]. intros [] s2 Hs2. simpl in Hs2.
      rw Hs2. change (core (set_os k s1)) with (core s1). by rw Hs1.
    + do 2 wp_step. wp_step. eapply wp_conseq; [eapply addWatchToCache_refines|].
      * simpl. by rw (core_cache _ _ Hs1).
      * simpl. by rw (core_cache _ _ Hs1).
      * by apply (findWatch_repr _ _ _ Hr).
      * done.
      * done.
      * intros j s2 (c & Hs2 & Hwf2 & Hr2 & _).
        eapply wp_mono; [apply logMessage_returns| |done]. intros [] s3 Hs3. simpl in Hs3.
        exists c, (<[wd := p]> m). rw Hs3 Hs2. split_and!; [|done|done|].
        { apply (with_cache_core c _ s). exact Hs1. }
        right. exists wd. split; [done|]. rw /visit_map.
        by rw (proj1 (findWatch_repr _ _ _ Hr Hadd) Hf).
Qed.

Lemma visit_map_extends wd p m : m ⊆ visit_map wd p m.
Proof. rw /visit_map. destruct (m !! wd) eqn:E; [done|]. by apply insert_subseteq. Qed.

(** From [s] with map [m], [s'] differs in the cache only, which is well
    formed and represents an extension of [m]. *)
Definition extends (m : gmap Z cstring) s s' : Prop :=
  ∃ c m', core s' = with_cache c s ∧ cache_wf c ∧ repr c m' ∧ m ⊆ m'.

Lemma extends_same m s s' :
  cache_wf (wlCache s) → repr (wlCache s) m → core s' = core s → extends m s s'.
Proof. intros. exists (wlCache s), m. by split_and!. Qed.

Lemma extends_core m s s' s'' : extends m s s' → core s'' = core s' → extends m s s''.
Proof. intros (c & m' & ? & ?) Hs. exists c, m'. by rw Hs. Qed.

Lemma extends_pre m s1 s2 s' : core s1 = core s2 → extends m s1 s' → extends m s2 s'.
Proof.
  intros Hs (c & m' & Hc & ?). exists c, m'. rw Hc. split; [by apply with_cache_core|done].
Qed.

Lemma watchSubtree_extends fd path m s :
  cache_wf (wlCache s) → repr (wlCache s) m →
  wp (watchSubtree fd path) (λ _ s', extends m s s') ended s.
Proof.
  intros Hwf Hr. rw /watchSubtree /watchDir. do 3 wp_step. do 3 wp_step.
  rw {1}/wp /sys. simpl. destruct (os_nftw path (os s)) as [[vs e] k] eqn:Hwalk.
  set s1 := set_os _ _. wp_step. simpl.
  eapply wp_conseq with (Q := λ _ s', extends m s s').
  - apply (wp_for_each (extends m s)); [by apply extends_same|].
    intros [q sb] s2 Hq (c & m' & Hs2 & Hwf2 & Hr2 & Hsub).
    rw -(with_cache_wl _ _ _ Hs2) in Hwf2, Hr2.
    eapply wp_conseq; [eapply traverseTree_refines; [exact Hwf2|exact Hr2|]|].
    + eapply os_nftw_path_max; eauto.
    + intros [] s3 (c3 & m3 & Hs3 & Hwf3 & Hr3 & Hm3). exists c3, m3.
      split_and!; [|done|done|].
      * rw Hs3. exact (with_cache_trans _ _ _ _ Hs2).
      * destruct Hm3 as [-> | (wd & _ & ->)]; [done|].
        etrans; [exact Hsub|apply visit_map_extends].
  - intros [] s2 Hs2. wp_step. eapply wp_conseq with (Q := λ _ s', extends m s s').
    { destruct e; [|by wp_step].
      eapply wp_mono; [apply logMessage_returns| |done]. intros [] s3 Hs3.
      eapply extends_core; eauto. }
    intros [] s3 Hs3. wp_step.
    eapply wp_mono; [apply logMessage_returns| |done]. intros [] s4 Hs4.
    eapply extends_core; eauto.
Qed.

(** ** Renaming *)

Lemma rewriteSlot_spec f n j w s :
  wlCache s !! j = Some w →
  wp (rewriteSlot f n j)
     (λ _ s', core s' = with_cache (<[j := wl_rename f n w]> (wlCache s)) s) never s.
Proof.
  intros Hj. rw /rewriteSlot. do 2 wp_step. rw /slot_path Hj /= /wl_rename.
  destruct (under f (w_path w)); simpl; [|wp_step; by rw list_insert_id].
  wp_step. eapply wp_conseq with (Q := λ _ s', core s' = core s).
  { apply wp_when; [|done]. intros _. eapply wp_mono; [apply logMessage_returns|done|done]. }
  intros [] s1 Hs1. do 2 wp_step. eapply wp_mono; [apply logMessage_returns| |done].
  intros [] s2 ->. rw /core /=. rw (core_cache _ _ Hs1).
  assert (∀ g, alter g j (wlCache s) = <[j := g w]> (wlCache s)) as ->.
  { intros g. apply list_eq. intros i. destruct (decide (j = i)) as [->|].
    - rw list_lookup_alter_eq Hj /= list_lookup_insert_eq //. eapply lookup_lt_Some; eauto.
    - by rw list_lookup_alter_ne // list_lookup_insert_ne. }
  by apply with_cache_core.
Qed.

Lemma rewriteSlots_spec f n pre l s :
  wlCache s = pre ++ l →
  wp (for_each (seq (length pre) (length l)) (rewriteSlot f n))
     (λ _ s', core s' = with_cache (pre ++ (wl_rename f n <$> l)) s) never s.
Proof.
  elim: l pre s => [|w l IH] pre s Hc; cbn [length seq for_each].
  - wp_step. by rw /core Hc.
  - wp_step. eapply wp_conseq; [apply (rewriteSlot_spec _ _ _ w)|].
    { by rw Hc lookup_app_r // Nat.sub_diag. }
    intros [] s1 Hs1.
    assert (wlCache s1 = (pre ++ [wl_rename f n w]) ++ l) as Hc1.
    { rw (with_cache_wl _ _ _ Hs1) Hc insert_app_r_alt //.
      by rw Nat.sub_diag /= -app_assoc. }
    pose proof (IH _ _ Hc1) as H. rw length_app /= Nat.add_1_r in H.
    eapply wp_conseq; [exact H|]. intros [] s2 ->. rw -app_assoc /=.
    exact (with_cache_trans _ _ _ _ Hs1).
Qed.

(** The old and new pathname of a renamed directory, as the program forms
    them. *)
Definition entry_path (dir name : cstring) : cstring :=
  snprintf PATH_MAX (dir ++ "/"%char :: name).

Lemma entry_path_not_nil dir name : entry_path dir name ≠ [].
Proof.
  rw /entry_path /snprintf. intros H%(f_equal length).
  rw length_take length_app /PATH_MAX in H. cbn [length] in H. lia.
Qed.

Lemma rewriteCachedPaths_spec d1 n1 d2 n2 s :
  wp (rewriteCachedPaths d1 n1 d2 n2)
     (λ _ s', core s' =
        with_cache (wl_rename (entry_path d1 n1) (entry_path d2 n2) <$> wlCache s) s) never s.
Proof.
  rw /rewriteCachedPaths. wp_log s1 Hs1. do 2 wp_step. simpl.
  eapply wp_conseq; [apply (rewriteSlots_spec _ _ [] (wlCache s1))|]; [done|].
  intros [] s2 ->. rw /= (core_cache _ _ Hs1). by apply with_cache_core.
Qed.

(** ** Zapping *)

(** The loop ran to the end, or stopped at slot [k] when the kernel refused
    to remove a watch. *)
Definition zap_result (pn : cstring) (c : list watch) (cnt r : Z)
    (c' : list watch) : Prop :=
  (r = cnt + Z.of_nat (length (filter (zapped pn) c)) ∧ c' = zap_clear pn <$> c) ∨
  (r = -1 ∧ ∃ k, (k < length c)%nat ∧ c' = (zap_clear pn <$> take k c) ++ drop k c).

Lemma zap_result_skip pn w l cnt r c' :
  ¬ zapped pn w → zap_result pn l cnt r c' → zap_result pn (w :: l) cnt r (w :: c').
Proof.
  intros Hz [[-> ->]|[-> (k & ? & ->)]]; [left|right].
  - rw filter_cons_False //. by rw /= /zap_clear decide_False.
  - split; [done|]. exists (S k). simpl. split; [lia|]. by rw {2}/zap_clear decide_False.
Qed.

Lemma zap_result_hit pn w l cnt r c' :
  zapped pn w → zap_result pn l (cnt + 1) r c' →
  zap_result pn (w :: l) cnt r (Watch (-1) [] :: c').
Proof.
  intros Hz [[-> ->]|[-> (k & ? & ->)]]; [left|right].
  - rw filter_cons_True //=. rw /zap_clear decide_True //. split; [lia|done].
  - split; [done|]. exists (S k). simpl. split; [lia|]. by rw {2}/zap_clear decide_True.
Qed.

Lemma zapSlots_spec fd pn pre l cnt s :
  wlCache s = pre ++ l →
  wp (zapSlots fd (Some pn) (seq (length pre) (length l)) cnt)
     (λ r s', ∃ c', core s' = with_cache (pre ++ c') s ∧ zap_result pn l cnt r c') never s.
Proof.
  elim: l pre cnt s => [|w l IH] pre cnt s Hc; cbn [length seq zapSlots].
  { wp_step. exists []. rw /core Hc. split; [done|]. left. simpl. split; [lia|done]. }
  do 2 wp_step. rw /slot_wd /slot_path.
  assert (wlCache s !! length pre = Some w) as ->.
  { by rw Hc lookup_app_r // Nat.sub_diag. }
  simpl.
  (* Continue with [w'] in place of [w]. *)
  assert (∀ w' cnt' s1, wlCache s1 = (pre ++ [w']) ++ l →
    (∀ c0, with_cache c0 s1 = with_cache c0 s) →
    (∀ r c', zap_result pn l cnt' r c' → zap_result pn (w :: l) cnt r (w' :: c')) →
    wp (zapSlots fd (Some pn) (seq (S (length pre)) (length l)) cnt')
       (λ r s', ∃ c', core s' = with_cache (pre ++ c') s ∧ zap_result pn (w :: l) cnt r c')
       never s1) as Hgo.
  { intros w' cnt' s1 Hc1 Hs1 Hz.
    pose proof (IH _ cnt' _ Hc1) as H. rw length_app /= Nat.add_1_r in H.
    eapply wp_conseq; [exact H|]. intros r s2 (c' & Hs2 & Hc').
    exists (w' :: c'). rw Hs2 Hs1 -app_assoc. by auto. }
  destruct (Z.leb_spec 0 (w_wd w)) as [Hw|Hw].
  - destruct (under pn (w_path w)) eqn:Hu.
    + wp_log s1 Hs1. wp_step. rw {1}/wp /sys.
      destruct (os_rm_watch fd (w_wd w) (os s1)) as [[e|] k].
      * wp_log s2 Hs2. wp_step. exists (w :: l). rw Hs2.
        change (core (set_os k s1)) with (core s1). rw Hs1 /core Hc. split; [done|].
        right. split; [done|]. exists 0%nat. simpl. split; [lia|done].
      * wp_step. eapply wp_conseq; [apply markCacheSlotEmpty_spec|]. intros [] s2 Hs2.
        apply (Hgo (Watch (-1) [])).
        -- rw (with_cache_wl _ _ _ Hs2) /= (core_cache _ _ Hs1) Hc /wl_clear.
           rw insert_app_r_alt // Nat.sub_diag /=. by rw -app_assoc.
        -- intros c0. rw (with_cache_trans _ _ _ _ Hs2).
           change (with_cache c0 (set_os k s1)) with (with_cache c0 s1).
           by apply with_cache_core.
        -- intros r c' Hz. by apply zap_result_hit.
    + apply (Hgo w); [by rw Hc -app_assoc|done|].
      intros r c' Hz. apply zap_result_skip; [|done]. intros [_ ?]. congruence.
  - apply (Hgo w); [by rw Hc -app_assoc|done|].
    intros r c' Hz. apply zap_result_skip; [|done]. intros [? _]. lia.
Qed.

Lemma zapSlots_no_copy fd pn pre l cnt s :
  wlCache s = pre ++ l →
  wp (zapSlots fd None (seq (length pre) (length l)) cnt)
     (λ r s', s' = s ∧ zap_result pn l cnt r l) ended s.
Proof.
  elim: l pre cnt => [|w l IH] pre cnt Hc; cbn [length seq zapSlots].
  { wp_step. split; [done|]. left. simpl. split; [lia|done]. }
  do 2 wp_step. rw /slot_wd Hc lookup_app_r // Nat.sub_diag /=.
  destruct (Z.leb_spec 0 (w_wd w)) as [Hw|Hw]; [done|].
  pose proof (IH (pre ++ [w]) cnt) as H. rw length_app /= Nat.add_1_r in H.
  eapply wp_conseq; [apply H; by rw Hc -app_assoc|]. intros r s' [-> Hz].
  split; [done|]. apply zap_result_skip; [|done]. intros [? _]. lia.
Qed.

Lemma zapSubtree_spec fd path s :
  wp (zapSubtree fd path) (λ r s', ∃ c', core s' = with_cache c' s ∧
        zap_result path (wlCache s) 0 r c') ended s.
Proof.
  rw /zapSubtree. wp_log s1 Hs1. wp_step. rw {1}/wp /sys.
  destruct (os_alloc (os s1)) as [[] k]; do 2 wp_step; simpl; rw (core_cache _ _ Hs1).
  - eapply wp_mono; [apply (zapSlots_spec _ _ [] (wlCache s)); apply (core_cache _ _ Hs1)| |done].
    intros r s2 (c' & Hs2 & Hz). exists c'. rw Hs2 /=. split; [|done].
    by apply (with_cache_core c' s1).
  - eapply wp_conseq; [apply (zapSlots_no_copy _ path [] (wlCache s)); apply (core_cache _ _ Hs1)|].
    intros r s2 [-> Hz]. exists (wlCache s). split; [|done].
    change (core (set_os k s1)) with (core s1). by rw Hs1.
Qed.

(** ** The invariant of the running program *)

(** [ignoreRootDirs] counts the zapped roots, and some root is left. *)
Definition roots_wf (roots : list (option cstring)) (ign : Z) : Prop :=
  ign = Z.of_nat (length (filter (λ p, p = None) roots)) ∧ ign < Z.of_nat (length roots).

Definition iwf s : Prop :=
  cache_wf (wlCache s) ∧ roots_wf (rootDirPaths s) (ignoreRootDirs s).

Definition keeps {A} (m : M (istate K) A) : Prop :=
  ∀ s, iwf s → wp m (λ _, iwf) ended s.

Lemma iwf_core s s' : core s' = core s → iwf s → iwf s'.
Proof. rw /iwf. by intros [= -> -> ->]. Qed.

Lemma iwf_with_cache c s s' : core s' = with_cache c s → cache_wf c → iwf s → iwf s'.
Proof. rw /iwf. by intros [= -> -> ->] ? [_ ?]. Qed.

Lemma quiet_keeps {A} (m : M (istate K) A) : quiet m → keeps m.
Proof.
  intros Hq s Hs. eapply wp_conseq; [apply Hq|]. intros a s' Ha. exact (iwf_core _ _ Ha Hs).
Qed.

Lemma keeps_bind {A B} (m : M (istate K) A) (k : A → M (istate K) B) :
  keeps m → (∀ a, keeps (k a)) → keeps (m ≫= k).
Proof.
  intros Hm Hk s Hs. apply wp_bind. eapply wp_conseq; [by apply Hm|].
  intros a s' Hs'. by apply Hk.
Qed.

Lemma keeps_when b m : keeps m → keeps (when b m).
Proof. destruct b; [done|]. intros _ s ?. by wp_step. Qed.

Lemma keeps_for_each {A} (l : list A) f : (∀ x, keeps (f x)) → keeps (for_each l f).
Proof.
  intros Hf. elim: l => [|x l IH] /=; [by apply quiet_keeps, quiet_ret|]. by apply keeps_bind.
Qed.

Lemma keeps_markCacheSlotEmpty j : keeps (markCacheSlotEmpty j).
Proof.
  intros s Hs. eapply wp_mono; [apply markCacheSlotEmpty_spec| |done]. intros [] s' Hs'.
  eapply iwf_with_cache; [exact Hs'| |done]. apply cache_wf_clear, Hs.
Qed.

Lemma keeps_watchSubtree fd p : keeps (watchSubtree fd p).
Proof.
  intros s Hs. eapply wp_conseq; [apply watchSubtree_extends; [apply Hs|]|].
  - apply cache_map_repr, Hs.
  - intros [] s' (c & m' & Hs' & ? & _). eapply iwf_with_cache; eauto.
Qed.

Lemma keeps_rewriteCachedPaths d1 n1 d2 n2 : keeps (rewriteCachedPaths d1 n1 d2 n2).
Proof.
  intros s Hs. eapply wp_mono; [apply rewriteCachedPaths_spec| |done]. intros [] s' Hs'.
  eapply iwf_with_cache; [exact Hs'| |done].
  apply cache_wf_rename; [apply entry_path_not_nil|apply Hs].
Qed.

Lemma zap_result_wf pn c cnt r c' : cache_wf c → zap_result pn c cnt r c' → cache_wf c'.
Proof.
  intros Hc [[_ ->]|[_ (k & _ & ->)]]; [|by apply cache_wf_zap].
  pose proof (cache_wf_zap pn c (length c) Hc) as H.
  by rw drop_all app_nil_r firstn_all in H.
Qed.

Lemma keeps_zapSubtree fd p : keeps (zapSubtree fd p).
Proof.
  intros s Hs. eapply wp_conseq; [apply zapSubtree_spec|]. intros r s' (c' & Hs' & Hz).
  eapply iwf_with_cache; [exact Hs'| |done]. eapply zap_result_wf; [apply Hs|exact Hz].
Qed.

(** Zapping one root leaves the count right; when none is left the program
    exits. *)
Lemma filter_insert_None (l : list (option cstring)) j p :
  l !! j = Some (Some p) →
  length (filter (λ p, p = None) (<[j := None]> l)) =
  S (length (filter (λ p, p = None) l)).
Proof.
  elim: l j => [//|x l IH] [|j] H; simpl in H.
  - by simplify_eq.
  - cbn [insert list_insert]. rw !filter_cons. case_decide; cbn [length]; by rw (IH _ H).
Qed.

Lemma length_filter_None_le (l : list (option cstring)) :
  (length (filter (λ p, p = None) l) ≤ length l)%nat.
Proof. elim: l => [//|x l IH]. rw filter_cons. case_decide; simpl; lia. Qed.

Lemma keeps_zapRootDirPath p : keeps (zapRootDirPath p).
Proof.
  intros s [Hc [Hi Hl]]. rw /zapRootDirPath /findRootDirPath /printf /fputs_err.
  do 2 wp_step. do 2 wp_step. simpl.
  destruct (fst <$> list_find (λ q, q = Some p) (rootDirPaths s)) as [j|] eqn:Hj;
    [|by repeat wp_step].
  apply fmap_Some in Hj as ([j' q] & Hj & ->).
  apply list_find_Some in Hj as (Hj & -> & _). simpl.
  repeat wp_step; simpl; [done|]. rw length_insert Z.eqb_neq. intros Hne.
  split; [done|]. rw /roots_wf /= length_insert (filter_insert_None _ _ _ Hj).
  pose proof (length_filter_None_le (<[j' := None]> (rootDirPaths s))) as H.
  rw (filter_insert_None _ _ _ Hj) length_insert in H. lia.
Qed.

(** Whatever the cache held, rebuilding it gives a well-formed one. *)
Lemma reinitialize_wf fd s :
  roots_wf (rootDirPaths s) (ignoreRootDirs s) → wp (reinitialize fd) (λ _, iwf) ended s.
Proof.
  intros Hroots. rw /reinitialize. wp_step.
  eapply wp_conseq with (Q := λ _ s', core s' = core s).
  { destruct (0 <=? fd).
    - wp_step. apply wp_bind. do 2 wp_step. wp_step.
      eapply wp_mono; [apply logMessage_returns|done|done].
    - wp_log s1 Hs1. wp_step. exact Hs1. }
  intros [] s1 Hs1. wp_step. rw {1}/wp /sys.
  destruct (os_inotify_init (os s1)) as [[e|fd'] k]; [by apply wp_errExit|].
  wp_log s2 Hs2. change (core (set_os k s1)) with (core s1) in Hs2.
  rw /freeCache. do 2 wp_step. do 2 wp_step. wp_step.
  eapply wp_conseq with (Q := λ _, iwf).
  { apply keeps_for_each.
    - intros [p|]; [apply keeps_watchSubtree|apply quiet_keeps, quiet_ret].
    - split; [apply cache_wf_nil|]. rw Hs1 in Hs2. injection Hs2 as _ Hr Hi.
      simpl. by rw Hr Hi. }
  intros [] s3 Hs3. do 2 wp_step. wp_step.
  eapply wp_conseq with (Q := λ _, iwf).
  { apply keeps_when; [apply quiet_keeps, quiet_logMessage|done]. }
  intros [] s4 Hs4. by wp_step.
Qed.

Lemma keeps_reinitialize fd : keeps (reinitialize fd).
Proof. intros s [_ Hr]. by apply reinitialize_wf. Qed.

Hint Resolve keeps_markCacheSlotEmpty keeps_watchSubtree keeps_rewriteCachedPaths
  keeps_zapSubtree keeps_zapRootDirPath keeps_reinitialize : keeps.
Hint Resolve quiet_findWatchChecked quiet_isRootDirPath quiet_displayInotifyEvent
  quiet_checkCacheConsistency : quiet.

(** Syntax-directed proof that a computation keeps the invariant. *)
Ltac keeps_step :=
  lazymatch goal with
  | |- keeps (mbind _ _) => apply keeps_bind; [|intros ?]
  | |- keeps (when _ _) => apply keeps_when
  | |- keeps (for_each _ _) => apply keeps_for_each; intros ?
  | |- keeps (match ?x with _ => _ end) => destruct x
  | |- _ => first [solve [eauto 2 with keeps nocore] | solve [apply quiet_keeps; quiet]]
  end.
Ltac keeps := repeat keeps_step.

Lemma keeps_afterEvent fd n : keeps (afterEvent fd n).
Proof. rw /afterEvent. keeps. Qed.
Hint Resolve keeps_afterEvent : keeps.

Lemma keeps_rebuild fd : keeps (rebuild fd).
Proof. rw /rebuild. keeps. Qed.
Hint Resolve keeps_rebuild : keeps.

Lemma keeps_zapOrRebuild fd p n : keeps (zapOrRebuild fd p n).
Proof. rw /zapOrRebuild. keeps. Qed.
Hint Resolve keeps_zapOrRebuild : keeps.

Lemma keeps_onMovedFrom fd ev slot n rest sz first :
  keeps (onMovedFrom fd ev slot n rest sz first).
Proof. rw /onMovedFrom /with_slot. keeps. Qed.
Hint Resolve keeps_onMovedFrom : keeps.

Lemma keeps_dispatchEvent fd ev slot buf sz first :
  keeps (dispatchEvent fd ev slot buf sz first).
Proof.
  rw /dispatchEvent /onDirAppears /onDeleteSelf /onOverflow /onUnmount /onMoveSelf
     /with_slot /pathnameInCache /pathnameToCacheSlot. keeps.
Qed.
Hint Resolve keeps_dispatchEvent : keeps.

Lemma keeps_processNextInotifyEvent fd buf sz first :
  keeps (processNextInotifyEvent fd buf sz first).
Proof. rw /processNextInotifyEvent. keeps. Qed.
Hint Resolve keeps_processNextInotifyEvent : keeps.

Lemma keeps_eventLoop fuel fd buf evp n first : keeps (eventLoop fuel fd buf evp n first).
Proof.
  elim: fuel fd buf evp n first => [|fuel IH] fd buf evp n first; cbn [eventLoop]; rw ?/readZero; keeps.
Qed.
Hint Resolve keeps_eventLoop : keeps.

Lemma keeps_processInotifyEvents fuel fd : keeps (processInotifyEvents fuel fd).
Proof. rw /processInotifyEvents /readZero. keeps. Qed.
Hint Resolve keeps_processInotifyEvents : keeps.

Lemma quiet_verifySlots v l a b : quiet (verifySlots v l a b).
Proof. elim: l a b => [|[j w] l IH] a b /=; quiet. Qed.
Hint Resolve quiet_verifySlots : quiet.

Lemma keeps_executeCommand fd : keeps (executeCommand fd).
Proof.
  rw /executeCommand /runCommand /with_arg /verifyCommand /listCommand /writeCommand
     /unknownCommand. keeps.
Qed.
Hint Resolve keeps_executeCommand : keeps.

Lemma keeps_mainStep fuel pname fd : keeps (mainStep fuel pname fd).
Proof. rw /mainStep. keeps. Qed.

(** ** Startup *)

(** Two roots are never the same object. *)
Definition object_id (x : cstring * fstat) : Z * Z := (st_ino x.2, st_dev x.2).

Lemma checkDuplicates_spec p st seen s :
  wp (checkDuplicates p st seen)
     (λ _ s', s' = s ∧ object_id (p, st) ∉ (object_id <$> seen)) ended s.
Proof.
  elim: seen => [|[q st'] seen IH] /=; [wp_step; split; [done|set_solver]|].
  destruct (Z.eqb_spec (st_ino st) (st_ino st')), (Z.eqb_spec (st_dev st) (st_dev st'));
    simpl; [by rw /fputs_err; repeat wp_step|..];
    (eapply wp_conseq; [apply IH|]; intros [] s' [-> Hn]; split; [done|];
     rw elem_of_cons; intros [[=]|?]; [congruence|done]).
Qed.

Lemma storeRootDirs_spec ok argv seen s :
  NoDup (object_id <$> seen) →
  wp (storeRootDirs ok argv seen)
     (λ l s', core s' = core s ∧ l.*1 = seen.*1 ++ argv ∧ NoDup (object_id <$> l)) ended s.
Proof.
  elim: argv seen s => [|p argv IH] seen s Hnd; cbn [storeRootDirs].
  { wp_step. by rw app_nil_r. }
  wp_step. rw {1}/wp /sys. destruct (os_alloc (os s)) as [[] k]; [|by apply wp_errExit].
  cbn [negb]. wp_step. rw {1}/wp /sys. destruct (os_lstat p _) as [[e|st] k']; [by apply wp_errExit|].
  destruct ok; [|by apply wp_errExit]. cbn [negb]. wp_step.
  eapply wp_conseq; [apply checkDuplicates_spec|]. intros [] s1 [-> Hn].
  eapply wp_conseq; [apply IH|].
  - rw fmap_app NoDup_app. split_and!; [done| |apply NoDup_singleton].
    intros x Hx. rw list_elem_of_singleton. by intros ->.
  - intros l s2 (Hs2 & Hl & ?). split_and!; [exact Hs2| |done].
    by rw Hl fmap_app -app_assoc.
Qed.

Lemma quiet_countRootDirs argv : quiet (countRootDirs argv).
Proof. elim: argv => [|p argv IH] /=; quiet. Qed.

Lemma copyRootDirPaths_spec argv s :
  wp (copyRootDirPaths argv)
     (λ _ s', core s' = (wlCache s, Some <$> argv, 0)) ended s.
Proof.
  rw /copyRootDirPaths. wp_step. eapply wp_conseq; [apply quiet_countRootDirs|].
  intros [] s1 Hs1. wp_step. rw {1}/wp /sys.
  destruct (os_alloc (os s1)) as [[] k]; [|by apply wp_errExit]. cbn [negb].
  wp_step. rw {1}/wp /sys. destruct (os_alloc _) as [ok k'].
  wp_step. eapply wp_conseq; [apply storeRootDirs_spec; constructor|].
  intros l s2 (Hs2 & Hl & _). do 2 wp_step. wp_step.
  change (core (set_os k' (set_os k s1))) with (core s1) in Hs2.
  rw /core /= (core_cache _ _ Hs2) (core_cache _ _ Hs1).
  by rw list_fmap_compose Hl.
Qed.

Lemma wp_usageError {A} p (Q : A → istate K → Prop) s : wp (usageError p) Q ended s.
Proof.
  rw /usageError /fputs_err. do 2 wp_step. wp_step.
  eapply wp_conseq; [by apply (wp_for_each ended)|]. intros. by wp_step.
Qed.

Lemma quiet_usageError {A} p : quiet (usageError (A := A) p).
Proof. rw /usageError. quiet. Qed.
Hint Resolve quiet_usageError : quiet.

Lemma quiet_applyOption p o : quiet (applyOption p o).
Proof. rw /applyOption. quiet. Qed.

Lemma roots_wf_fresh argv : argv ≠ [] → roots_wf (Some <$> argv) 0.
Proof.
  intros Hne. rw /roots_wf length_fmap. split; [|destruct argv; [done|simpl; lia]].
  clear Hne. by elim: argv => [//|p argv IH].
Qed.

Lemma startup_wf pname opts argv k :
  wp (startup pname opts argv) (λ _, iwf) ended (initial k).
Proof.
  rw /startup. wp_step. eapply wp_conseq.
  { apply quiet_for_each. apply quiet_applyOption. }
  intros [] s1 Hs1. case_decide as Hne.
  { apply wp_usageError. }
  wp_step. eapply wp_conseq; [apply copyRootDirPaths_spec|].
  intros [] s2 Hs2. injection Hs2 as Hc Hr Hi.
  wp_step. eapply wp_conseq; [apply reinitialize_wf|].
  { rw Hr Hi. by apply roots_wf_fresh. }
  intros fd s3 Hs3. rw /printf. do 2 wp_step. by wp_step.
Qed.
End proofs.
