(* ===== verification/InotifySpec.v ===== *)
(** * What [inotify/inotify_dtree.c] guarantees

    The theorems about whole handlers: the invariant of every reachable
    state, the effect of each kind of event on the map from watch descriptors
    to pathnames, the layout of events in the read buffer, and the loop that
    consumes them. *)

From S2P Require Import Prelude CStdlib InotifyCache InotifyTree InotifyEvents InotifyMain InotifyProofs.

(** ** Event layout *)

Definition event_ok (ev : inotify_event) : Prop :=
  in_int (ev_wd ev) ∧ (0 ≤ ev_mask ev < 2 ^ 32) ∧ (0 ≤ ev_cookie ev < 2 ^ 32) ∧
  (0 ≤ ev_len ev < 2 ^ 32) ∧ (NUL ∉ ev_name ev) ∧ Z.of_nat (length (ev_name ev)) < ev_len ev.

Lemma to_int_mod z : in_int z → to_int (z mod 2 ^ 32) = z.
Proof.
  rw /in_int /INT_MIN /INT_MAX /to_int /wrapS => Hz.
  rw Zplus_mod_idemp_l Z.mod_small; lia.
Qed.

Lemma length_encode_event ev :
  Z.of_nat (length (ev_name ev)) ≤ ev_len ev →
  length (encode_event ev) = (EVENT_SIZE + Z.to_nat (ev_len ev))%nat.
Proof.
  intros H. rw /encode_event !length_app length_replicate /EVENT_SIZE /=. lia.
Qed.

(** Decoding the bytes the kernel lays out for an event gives the
    event back, whatever follows it in the buffer. *)
Lemma event_roundtrip (ev : inotify_event) (rest : list ascii) :
  event_ok ev → event_at (encode_event ev ++ rest) = Some ev.
Proof.
  intros (Hwd & Hm & Hc & Hl & Hn & Hlen). rw /event_at.
  case_decide as Hd; [|exfalso; apply Hd; rw length_app length_encode_event; lia].
  destruct ev as [wd mask cookie len name]. rw /encode_event -!app_assoc.
  cbn [ev_wd ev_mask ev_cookie ev_len ev_name] in *.
  set tl := replicate _ _ ++ rest. f_equal.
  assert (Hmod : 0 ≤ wd mod 2 ^ 32 < 2 ^ 32) by (apply Z.mod_pos_bound; lia).
  f_equal.
  - by rw le32_put // to_int_mod.
  - by apply (le32_put mask (put_le32 cookie ++ put_le32 len ++ name ++ tl)).
  - by apply (le32_put cookie (put_le32 len ++ name ++ tl)).
  - by apply (le32_put len (name ++ tl)).
  - change (until_nul (name ++ tl) = name). subst tl.
    destruct (Z.to_nat len - length name)%nat as [|n] eqn:E; [lia|].
    by apply (until_nul_app name (replicate n NUL ++ rest)).
Qed.

Create HintDb bounded.

Section spec.
Context {K : Type} `{OS : !InotifyOS K}.
Implicit Types (s : istate K) (m : gmap Z cstring).
Abbreviation never := (λ _ : istate K, False).
Abbreviation ended := (λ _ : istate K, True).

(** A state in which only the two log texts changed. *)
Definition relog (e : cstring) (l : option cstring) s : istate K := set_err e (set_logfp l s).

Definition logs {A} (f : M (istate K) A) : Prop :=
  ∀ s, ∃ a e l, f s = (Ret a, relog e l s).

Lemma relog_id s : relog (err s) (logfp s) s = s.
Proof. by destruct s. Qed.

Lemma logs_ret {A} (a : A) : logs (mret a).
Proof. intros s. exists a, (err s), (logfp s). by rw relog_id. Qed.

Lemma logs_bind {A B} (f : M (istate K) A) (g : A → M (istate K) B) :
  logs f → (∀ a, logs (g a)) → logs (f ≫= g).
Proof.
  intros Hf Hg s. destruct (Hf s) as (a & e & l & Ha).
  destruct (Hg a (relog e l s)) as (b & e' & l' & Hb).
  exists b, e', l'. by rw (bind_Ret _ _ _ _ _ Ha) Hb.
Qed.

Lemma logs_when b f : logs f → logs (when b f).
Proof. destruct b; [done|]. intros _. apply logs_ret. Qed.

Lemma logs_logMessage vb t : logs (logMessage vb t).
Proof.
  intros s. exists tt.
  rw /logMessage /mbind /M_bind /get /when /fputs_err /modify /mret /M_ret.
  destruct (_ || _), (logfp s) as [l|] eqn:Hl; simpl; rw ?Hl.
  - by exists (err s ++ t), (Some (l ++ t)).
  - exists (err s ++ t), None. destruct s. simpl in *. by subst.
  - exists (err s), (Some (l ++ t)). by destruct s.
  - exists (err s), None. destruct s. simpl in *. by subst.
Qed.

Lemma logs_displayInotifyEvent ev : logs (displayInotifyEvent ev).
Proof.
  rw /displayInotifyEvent.
  repeat (apply logs_bind; [|intros _]); repeat apply logs_when; apply logs_logMessage.
Qed.

Lemma wp_logs {A} (f : M (istate K) A) Q E s :
  logs f → (∀ a e l, Q a (relog e l s)) → wp f Q E s.
Proof. intros Hf HQ. destruct (Hf s) as (a & e & l & H). rw /wp H. apply HQ. Qed.

Lemma findWatch_of_map m wd d s :
  cache_wf (wlCache s) → repr (wlCache s) m → m !! wd = Some d →
  ∃ j, wl_findWatch (wlCache s) wd = Some j ∧ slot_path s j = d ∧
       wlCache s !! j = Some (Watch wd d).
Proof.
  intros Hwf Hr Hd. assert (0 ≤ wd ∧ Watch wd d ∈ wlCache s) as [Hwd Hin] by by apply Hr.
  destruct (wl_findWatch (wlCache s) wd) as [j|] eqn:Hj.
  - apply wl_findWatch_Some in Hj as (p & Hp & _). exists j. split; [done|].
    assert (m !! wd = Some p).
    { apply Hr. split; [done|]. apply list_elem_of_lookup. eauto. }
    simplify_eq. by rw /slot_path Hp.
  - rw (findWatch_repr _ _ _ Hr Hwd) in Hj. congruence.
Qed.

Lemma findWatchChecked_hit wd j s :
  wl_findWatch (wlCache s) wd = Some j → findWatchChecked wd s = (Ret (Some j), s).
Proof. intros H. rw /findWatchChecked /findWatch /mbind /M_bind /gets H. done. Qed.

(** With the debugging checks off, an event handler ends quietly. *)
Definition no_checks s : Prop := checkCache s = false ∧ dumpCache s = false.

Lemma afterEvent_no_checks fd n s : no_checks s → afterEvent fd n s = (Ret (fd, n), s).
Proof.
  intros [H1 H2]. rw /afterEvent /mbind /M_bind /get /when H1. simpl. by rw H2.
Qed.

Lemma rewriteSlot_checks f n j s s0 :
  no_checks s → wp (rewriteSlot f n j) (λ _, no_checks) ended s.
Proof.
  intros H. rw /rewriteSlot. do 2 wp_step. case_match; [|by wp_step].
  wp_step. eapply wp_conseq with (Q := λ _, no_checks).
  { apply wp_when; [|done]. intros _. by apply wp_logs; [apply logs_logMessage|]. }
  intros [] s1 Hs1. do 2 wp_step. by apply wp_logs; [apply logs_logMessage|].
Qed.

Lemma rewriteCachedPaths_checks d1 n1 d2 n2 s :
  no_checks s → wp (rewriteCachedPaths d1 n1 d2 n2) (λ _, no_checks) ended s.
Proof.
  intros H. rw /rewriteCachedPaths. wp_step. apply wp_logs; [apply logs_logMessage|].
  intros _ e l. do 2 wp_step.
  apply (wp_for_each no_checks); [done|]. intros j s' _. by apply rewriteSlot_checks.
Qed.

Lemma rewriteCachedPaths_returns d1 n1 d2 n2 m s :
  cache_wf (wlCache s) → repr (wlCache s) m → no_checks s →
  ∃ s', rewriteCachedPaths d1 n1 d2 n2 s = (Ret tt, s') ∧ no_checks s' ∧
    cache_wf (wlCache s') ∧
    repr (wlCache s') (rename_map (entry_path d1 n1) (entry_path d2 n2) <$> m).
Proof.
  intros Hwf Hr Hc. pose proof (rewriteCachedPaths_spec d1 n1 d2 n2 s) as H1.
  pose proof (rewriteCachedPaths_checks d1 n1 d2 n2 s Hc) as H2.
  rw /wp in H1, H2. destruct (rewriteCachedPaths d1 n1 d2 n2 s) as [[[]| | | |] s'];
    try done. exists s'. rw (with_cache_wl _ _ _ H1).
  split_and!; [done|done| |by apply repr_rename].
  by apply cache_wf_rename; [apply entry_path_not_nil|].
Qed.

(** The directory masks the kernel sends. *)
Definition MOVED_FROM_DIR : Z := Z.lor IN_MOVED_FROM IN_ISDIR.
Definition MOVED_TO_DIR : Z := Z.lor IN_MOVED_TO IN_ISDIR.

Lemma dispatch_moved_from fd ev slot buf sz first :
  ev_mask ev = MOVED_FROM_DIR →
  dispatchEvent fd ev slot buf sz first =
  onMovedFrom fd ev slot (Z.of_nat EVENT_SIZE + ev_len ev)
    (drop (Z.to_nat (Z.of_nat EVENT_SIZE + ev_len ev)) buf) sz first.
Proof. rw /dispatchEvent => ->. done. Qed.

(** A handler up to the lookup of the event's watch. *)
Lemma processNext_known fd buf sz first ev d m s :
  cache_wf (wlCache s) → repr (wlCache s) m →
  event_at buf = Some ev → flag (ev_mask ev) IN_IGNORED = false →
  m !! ev_wd ev = Some d →
  ∃ j e l, wlCache s !! j = Some (Watch (ev_wd ev) d) ∧
    processNextInotifyEvent fd buf sz first s =
    dispatchEvent fd ev (Some j) buf sz first (relog e l s).
Proof.
  intros Hwf Hr Hev Hign Hd. destruct (findWatch_of_map _ _ _ _ Hwf Hr Hd) as (j & Hj & _ & Hl).
  destruct (logs_displayInotifyEvent ev s) as ([] & e & l & Hlog).
  exists j, e, l. split; [done|]. rw /processNextInotifyEvent Hev (bind_Ret _ _ _ _ _ Hlog).
  assert (0 ≤ ev_wd ev) by (by apply Hr in Hd as [? _]).
  destruct (Z.eqb_spec (ev_wd ev) (-1)); [lia|]. rw Hign. cbn [negb andb].
  by rw (bind_Ret _ _ _ _ _ (findWatchChecked_hit (ev_wd ev) j (relog e l s) Hj)).
Qed.

(** C1: An IN_MOVED_FROM event immediately followed by the IN_MOVED_TO event with the same
    cookie consumes both events and renames, in the map, exactly the paths
    at or below the moved directory. *)
Theorem rename_event_refines fd buf sz first ev ev2 d1 d2 m s :
  cache_wf (wlCache s) → repr (wlCache s) m → no_checks s →
  event_at buf = Some ev → ev_mask ev = MOVED_FROM_DIR → 0 ≤ ev_len ev →
  Z.of_nat EVENT_SIZE + ev_len ev < sz →
  event_at (drop (Z.to_nat (Z.of_nat EVENT_SIZE + ev_len ev)) buf) = Some ev2 →
  ev_mask ev2 = MOVED_TO_DIR → ev_cookie ev2 = ev_cookie ev →
  m !! ev_wd ev = Some d1 → m !! ev_wd ev2 = Some d2 →
  ∃ s', processNextInotifyEvent fd buf sz first s =
          (Ret (fd, 32 + ev_len ev + ev_len ev2), s') ∧
    cache_wf (wlCache s') ∧
    repr (wlCache s')
      (rename_map (entry_path d1 (ev_name ev)) (entry_path d2 (ev_name ev2)) <$> m).
Proof.
  intros Hwf Hr Hc Hev Hm Hlen Hsz Hev2 Hm2 Hck Hd1 Hd2.
  assert (flag (ev_mask ev) IN_IGNORED = false) as Hign by by rw Hm.
  destruct (processNext_known fd buf sz first _ _ _ _ Hwf Hr Hev Hign Hd1)
    as (j & e & l & Hj & ->).
  rw dispatch_moved_from //.
  rw /onMovedFrom. destruct (Z.ltb_spec (Z.of_nat EVENT_SIZE + ev_len ev) sz); [|lia].
  rw Hev2 Hm2 Hck Z.eqb_refl. change (flag MOVED_TO_DIR IN_MOVED_TO && true) with true.
  cbv iota.
  destruct (findWatch_of_map _ _ _ (relog e l s) Hwf Hr Hd2) as (nj & Hnj & Hp2 & _).
  rw (bind_Ret _ _ _ _ _ (findWatchChecked_hit _ _ _ Hnj)). simpl with_slot.
  assert (slot_path (relog e l s) j = d1) as Hp1 by by rw /slot_path /= Hj.
  destruct (rewriteCachedPaths_returns d1 (ev_name ev) d2 (ev_name ev2) m (relog e l s))
    as (s' & Hs' & Hc' & ? & ?); [done..|].
  exists s'. rw /mbind /M_bind /get Hp1 Hp2 Hs' afterEvent_no_checks //.
  split; [|done]. f_equal. f_equal. f_equal. rw /EVENT_SIZE. lia.
Qed.

(** A hanging IN_MOVED_FROM (nothing after it in the buffer, first try) changes nothing and
    asks the caller to read more. *)
Lemma hanging_moved_from fd buf sz ev d m s :
  cache_wf (wlCache s) → repr (wlCache s) m →
  event_at buf = Some ev → ev_mask ev = MOVED_FROM_DIR →
  sz ≤ Z.of_nat EVENT_SIZE + ev_len ev → m !! ev_wd ev = Some d →
  ∃ s', processNextInotifyEvent fd buf sz true s = (Ret (fd, READ_MORE), s') ∧
        core s' = core s ∧ to_int READ_MORE = -1.
Proof.
  intros Hwf Hr Hev Hm Hsz Hd.
  assert (flag (ev_mask ev) IN_IGNORED = false) as Hign by by rw Hm.
  destruct (processNext_known fd buf sz true _ _ _ _ Hwf Hr Hev Hign Hd)
    as (j & e & l & Hj & ->).
  rw dispatch_moved_from // /onMovedFrom.
  destruct (Z.ltb_spec (Z.of_nat EVENT_SIZE + ev_len ev) sz); [lia|]. cbn [negb].
  destruct (logs_logMessage VB_NOISY (cs "HANGING IN_MOVED_FROM" ++ [NL]) (relog e l s))
    as ([] & e' & l' & Hlog).
  rw (bind_Ret _ _ _ _ _ Hlog). by eexists.
Qed.

(** *** Removing a subtree *)

(** The watch descriptors that the loop of [zapSubtree] comes to, in the order of the
    slots, and the calls of [inotify_rm_watch] on them up to the first one that is
    refused: how many were accepted, and the error of the one that was not. *)
Definition zap_targets (pn : cstring) (c : list watch) : list Z := w_wd <$> filter (zapped pn) c.

Fixpoint rm_watches (fd : Z) (wds : list Z) (k : K) : nat * option Z * K :=
  match wds with
  | [] => (0%nat, None, k)
  | wd :: r =>
      match os_rm_watch fd wd k with
      | (Some e, k1) => (0%nat, Some e, k1)
      | (None, k1) => let '(n, e, k2) := rm_watches fd r k1 in (S n, e, k2)
      end
  end.

(** The array with the first [n] of these entries removed. *)
Fixpoint zap_first (pn : cstring) (n : nat) (c : list watch) : list watch :=
  match c with
  | [] => []
  | w :: r =>
      if decide (zapped pn w) then
        match n with
        | O => w :: r
        | S n => Watch (-1) [] :: zap_first pn n r
        end
      else w :: zap_first pn n r
  end.

Lemma zap_first_lookup pn n c i w :
  zap_first pn n c !! i = Some w → ∃ w0, c !! i = Some w0 ∧ (w = w0 ∨ w = Watch (-1) []).
Proof.
  elim: c n i => [|v c IH] n i //=. case_decide; [destruct n as [|n]|]; destruct i as [|i]; cbn;
    solve [eauto|intros [= <-]; eauto].
Qed.

Lemma zap_first_wf pn n c : cache_wf c → cache_wf (zap_first pn n c).
Proof.
  intros [H1 H2 H3]. split.
  - intros i j w w' Hi Hj Hw He.
    apply zap_first_lookup in Hi as (v & Hi & [->| ->]), Hj as (v' & Hj & [->| ->]);
      cbn in *; eauto; lia.
  - intros i w (v & Hi & [->| ->])%zap_first_lookup; eauto.
  - intros i w (v & Hi & [->| ->])%zap_first_lookup; [eauto|]. rw /PATH_MAX /=. lia.
Qed.

Lemma zap_first_in pn n c wd p :
  (∀ i j w w', c !! i = Some w → c !! j = Some w' → 0 ≤ w_wd w → w_wd w = w_wd w' → i = j) →
  0 ≤ wd → Watch wd p ∈ zap_first pn n c ↔ Watch wd p ∈ c ∧ wd ∉ take n (zap_targets pn c).
Proof.
  intros Hu Hwd. elim: c n Hu => [|w c IH] n Hu; [set_solver|].
  assert (∀ p', Watch wd p' ∈ c → w_wd w ≠ wd) as Hne.
  { intros p' [i Hi]%list_elem_of_lookup Hw. by specialize (Hu (S i) 0%nat _ w Hi eq_refl Hwd (eq_sym Hw)). }
  specialize (IH n) as IHn. cbn [zap_first]. rw /zap_targets filter_cons.
  assert (∀ i j w w', c !! i = Some w → c !! j = Some w' → 0 ≤ w_wd w → w_wd w = w_wd w' → i = j) as Hc.
  { intros i j w1 w2 Hi Hj Hw E. by pose proof (Hu (S i) (S j) _ _ Hi Hj Hw E) as [=]. }
  case_decide as Hz.
  - destruct n as [|n]; [set_solver|]. rw fmap_cons firstn_cons !elem_of_cons (IH n Hc) -/(zap_targets pn c).
    split; [intros [[= -> ->]|[Hin Hn]]; [lia|]|].
    + split; [by right|]. intros [->|?]; [by apply (Hne p)|done].
    + intros [[<-|Hin] Hn]; [by destruct Hn; left|]. right. split; [done|]. intros ?. by apply Hn; right.
  - rw !elem_of_cons (IHn Hc). split; [|naive_solver]. intros [<-|[? ?]]; [|naive_solver].
    split; [by left|].
    intros (i & Hi & _)%elem_of_take. apply list_elem_of_lookup_2, list_elem_of_fmap in Hi as (v & Hv & Hin).
    apply list_elem_of_filter in Hin as [_ Hin]. destruct v as [vd vp]. cbn in Hv. subst vd. by apply (Hne vp).
Qed.

Lemma zap_first_skip pn n w c :
  ¬ zapped pn w → zap_first pn n (w :: c) = w :: zap_first pn n c.
Proof. intros H. cbn [zap_first]. by rw decide_False. Qed.

Lemma zap_targets_skip pn w c : ¬ zapped pn w → zap_targets pn (w :: c) = zap_targets pn c.
Proof. intros H. by rw /zap_targets filter_cons_False. Qed.

Lemma rm_watches_all fd wds k n k' : rm_watches fd wds k = (n, None, k') → n = length wds.
Proof.
  elim: wds k n => [|wd wds IH] k n /=; [by intros [= <-]|].
  destruct (os_rm_watch fd wd k) as [[e|] k1]; [done|].
  destruct (rm_watches fd wds k1) as [[m e] k2] eqn:E. intros [= <- -> ->]. by rw (IH _ _ E).
Qed.

Lemma logs_markCacheSlotEmpty j s :
  ∃ e l, markCacheSlotEmpty j s = (Ret tt, relog e l (set_wlCache (wl_clear j (wlCache s)) s)).
Proof.
  rw /markCacheSlotEmpty (bind_Ret get _ _ _ _ eq_refl).
  destruct (logs_logMessage VB_NOISY (cs "        markCacheSlotEmpty: slot = " ++ fmt_d (Z.of_nat j)
    ++ cs ";  wd = " ++ fmt_d (slot_wd s j) ++ cs "; path = " ++ slot_path s j ++ [NL]) s)
    as ([] & e & l & Hl). exists e, l. by rw (bind_Ret _ _ _ _ _ Hl).
Qed.

Lemma zapSlots_exact fd pn pre l cnt s :
  wlCache s = pre ++ l →
  let '(n, refused, k) := rm_watches fd (zap_targets pn l) (os s) in
  ∃ e lg, zapSlots fd (Some pn) (seq (length pre) (length l)) cnt s =
    (Ret (if refused is Some _ then -1 else cnt + Z.of_nat n),
     relog e lg (set_os k (set_wlCache (pre ++ zap_first pn n l) s))).
Proof.
  elim: l pre cnt s => [|w l IH] pre cnt s Hc; cbn [length seq zapSlots].
  { exists (err s), (logfp s). cbn. rw Z.add_0_r app_nil_r. rw app_nil_r in Hc.
    rw -Hc. by destruct s. }
  rw (bind_Ret get _ _ _ _ eq_refl) /slot_wd /slot_path.
  assert (wlCache s !! length pre = Some w) as -> by (by rw Hc lookup_app_r // Nat.sub_diag).
  change (default 0 (w_wd <$> Some w)) with (w_wd w).
  change (default [] (w_path <$> Some w)) with (w_path w).
  assert (wlCache s = (pre ++ [w]) ++ l) as Hc' by (by rw Hc -app_assoc).
  destruct (Z.leb_spec 0 (w_wd w)) as [Hw|Hw].
  2:{ pose proof (IH _ cnt s Hc') as H. rw length_app Nat.add_comm /= in H.
      rw zap_targets_skip; [intros [? _]; lia|]. destruct (rm_watches _ _ _) as [[n e] k].
      rw zap_first_skip; [intros [? _]; lia|]. by rw -app_assoc in H. }
  destruct (under pn (w_path w)) eqn:Hun.
  2:{ pose proof (IH _ cnt s Hc') as H. rw length_app Nat.add_comm /= in H.
      rw zap_targets_skip; [intros [_ ?]; congruence|]. destruct (rm_watches _ _ _) as [[n e] k].
      rw zap_first_skip; [intros [_ ?]; congruence|]. by rw -app_assoc in H. }
  rw /zap_targets filter_cons_True // fmap_cons -/(zap_targets pn l). cbn [rm_watches].
  destruct (logs_logMessage VB_NOISY (cs "    removing watch: wd = " ++ fmt_d (w_wd w)
    ++ cs " (" ++ w_path w ++ cs ")" ++ [NL]) s) as ([] & e1 & l1 & Hl1).
  destruct (os_rm_watch fd (w_wd w) (os s)) as [r k1] eqn:Hrm.
  assert (sys (os_rm_watch fd (w_wd w)) (relog e1 l1 s) = (Ret r, set_os k1 (relog e1 l1 s))) as Hsys
    by (by rw /sys /= Hrm).
  destruct r as [e|].
  - destruct (logs_logMessage 0 (cs "inotify_rm_watch wd = " ++ fmt_d (w_wd w)
      ++ cs " (" ++ w_path w ++ cs "): " ++ os_strerror e ++ [NL]) (set_os k1 (relog e1 l1 s)))
      as ([] & e2 & l2 & Hl2). exists e2, l2.
    rw (bind_Ret _ _ _ _ _ Hl1) (bind_Ret _ _ _ _ _ Hsys) (bind_Ret _ _ _ _ _ Hl2).
    cbn [zap_first]. rw decide_True // -Hc. by destruct s.
  - destruct (logs_markCacheSlotEmpty (length pre) (set_os k1 (relog e1 l1 s))) as (e2 & l2 & Hm).
    set s2 := relog e2 l2 (set_os k1 (set_wlCache (pre ++ Watch (-1) [] :: l) s)).
    assert (markCacheSlotEmpty (length pre) (set_os k1 (relog e1 l1 s)) = (Ret tt, s2)) as Hm'.
    { rw Hm /s2 /= Hc /wl_clear insert_app_r_alt // Nat.sub_diag. by destruct s. }
    pose proof (IH (pre ++ [Watch (-1) []]) (cnt + 1) s2) as H.
    rw length_app Nat.add_comm /= -!app_assoc /= in H. specialize (H eq_refl).
    change (os s2) with k1 in H. destruct (rm_watches fd (zap_targets pn l) k1) as [[n e] k2].
    destruct H as (e3 & l3 & H). exists e3, l3.
    rw (bind_Ret _ _ _ _ _ Hl1) (bind_Ret _ _ _ _ _ Hsys) (bind_Ret _ _ _ _ _ Hm') H.
    cbn [zap_first]. rw decide_True // -app_assoc. destruct e; [done|]. f_equal. f_equal. lia.
Qed.

(** C3: zapSubtree asks the kernel to remove the watches at or below its argument, in the
    order of their slots, up to the first one the kernel refuses.  It removes
    from the map exactly the entries whose watches the kernel has removed, and returns how
    many they were if the kernel refused none, and -1 if it refused one; then all
    entries at or below the argument are gone, and nothing but the log has changed
    besides. *)
Theorem zapSubtree_refines fd path m s :
  cache_wf (wlCache s) → repr (wlCache s) m → (os_alloc (os s)).1 = true →
  let targets := zap_targets path (wlCache s) in
  let '(n, refused, k) := rm_watches fd targets (os_alloc (os s)).2 in
  let m' := filter (λ kv, kv.1 ∉ take n targets) m in
  (∀ wd, wd ∈ targets ↔ ∃ p, m !! wd = Some p ∧ under path p = true) ∧
  (refused = None → n = length targets ∧ m' = filter (λ kv, under path kv.2 = false) m) ∧
  ∃ e l c', zapSubtree fd path s =
    (Ret (if refused is Some _ then -1 else Z.of_nat n), relog e l (set_os k (set_wlCache c' s))) ∧
    cache_wf c' ∧ repr c' m'.
Proof.
  intros Hwf Hr Ha targets.
  assert (∀ wd, wd ∈ targets ↔ ∃ p, m !! wd = Some p ∧ under path p = true) as Ht.
  { intros wd. rw /targets /zap_targets list_elem_of_fmap. split.
    - intros ([wd' p] & -> & [[? ?] ?]%list_elem_of_filter). exists p. by rw (Hr wd' p).
    - intros (p & [? ?]%Hr & Hu). exists (Watch wd p). by rw list_elem_of_filter. }
  destruct (rm_watches fd targets (os_alloc (os s)).2) as [[n refused] k] eqn:Hrm.
  split_and!; [exact Ht| |].
  - intros ->. apply rm_watches_all in Hrm. split; [done|]. rw Hrm take_ge //.
    apply map_filter_ext. intros wd p Hp. cbn. rw Ht. split.
    + intros Hn. apply not_true_is_false. intros Hu. apply Hn. eauto.
    + intros Hu (p' & Hp' & Hu'). congruence.
  - destruct (logs_logMessage VB_NOISY (cs "Zapping subtree: " ++ path ++ [NL]) s)
      as ([] & e & l & Hlog).
    destruct (os_alloc (os s)) as [ok k0] eqn:Hal. cbn in Ha, Hrm. subst ok.
    pose proof (zapSlots_exact fd path [] (wlCache s) 0 (set_os k0 (relog e l s)) eq_refl) as H.
    change (os (set_os k0 (relog e l s))) with k0 in H. rw -/targets Hrm in H.
    destruct H as (e' & l' & H). exists e', l', (zap_first path n (wlCache s)).
    split_and!; [|by apply zap_first_wf|].
    + rw /zapSubtree (bind_Ret _ _ _ _ _ Hlog).
      rw (bind_Ret _ _ _ true (set_os k0 (relog e l s))); [by rw /sys /= Hal|].
      rw (bind_Ret (gets _) _ _ _ _ eq_refl) /=. rw H. by destruct refused.
    + intros wd p. rw map_lookup_filter_Some (Hr wd p) /=. split.
      * intros [[H0 Hin] Hn]. split; [done|]. apply zap_first_in; [apply Hwf|done|done].
      * intros [H0 Hin]. apply zap_first_in in Hin as [? ?]; [done|apply Hwf|done].
Qed.

(** ** The event loop *)

(** Computations without an unbounded loop, which read no events: they never
    run out of fuel, and leave the count of reads alone. *)
Definition bounded {A} (f : M (istate K) A) : Prop :=
  ∀ s, (f s).1 ≠ NoFuel ∧ inotifyReadCnt (f s).2 = inotifyReadCnt s.

Lemma bounded_ret {A} (a : A) : bounded (mret a).
Proof. by intros s. Qed.

Lemma bounded_bind {A B} (f : M (istate K) A) (g : A → M (istate K) B) :
  bounded f → (∀ a, bounded (g a)) → bounded (f ≫= g).
Proof.
  intros Hf Hg s. rw /mbind /M_bind. specialize (Hf s).
  destruct (f s) as [[] s'], Hf as [? Hc]; [|done..]. destruct (Hg a s') as [??].
  simpl in *. split; [done|congruence].
Qed.

Lemma bounded_when b f : bounded f → bounded (when b f).
Proof. by destruct b. Qed.

Lemma bounded_for_each {A} (l : list A) f : (∀ x, bounded (f x)) → bounded (for_each l f).
Proof. intros Hf. elim: l => [|x l IH] /=; [done|]. by apply bounded_bind. Qed.

Lemma bounded_sys {A} (f : K → A * K) : bounded (sys f).
Proof. intros s. rw /sys. by destruct (f (os s)). Qed.

Lemma bounded_fprintf_log t : bounded (fprintf_log t).
Proof. intros s. rw /fprintf_log. by destruct (logfp s). Qed.

Ltac bounded :=
  repeat lazymatch goal with
  | |- bounded (mbind _ _) => apply bounded_bind; [|intros ?]
  | |- bounded (when _ _) => apply bounded_when
  | |- bounded (for_each _ _) => apply bounded_for_each; intros ?
  | |- bounded (sys _) => apply bounded_sys
  | |- bounded (fprintf_log _) => apply bounded_fprintf_log
  | |- bounded (match ?x with _ => _ end) => destruct x
  | |- bounded (stop _) => by intros ?
  | |- bounded (exit _) => by intros ?
  | |- bounded (mret _) => by intros ?
  | |- bounded (gets _) => by intros ?
  | |- bounded get => by intros ?
  | |- bounded (modify _) => by intros ?
  | |- bounded (sys_ _) => by intros ?
  | |- _ => solve [auto with bounded nocore]
  end.

Lemma bounded_fputs_err t : bounded (fputs_err t).
Proof. by intros s. Qed.
Hint Resolve bounded_fputs_err : bounded.

Lemma bounded_logMessage vb t : bounded (logMessage vb t).
Proof. rw /logMessage. bounded. Qed.
Hint Resolve bounded_logMessage : bounded.

Lemma bounded_errExit {A} t : bounded (errExit (A := A) t).
Proof. rw /errExit. bounded. Qed.
Hint Resolve bounded_errExit : bounded.

Lemma bounded_dumpCacheToLog : bounded dumpCacheToLog.
Proof. rw /dumpCacheToLog. bounded. Qed.
Hint Resolve bounded_dumpCacheToLog : bounded.

Lemma bounded_findWatchChecked wd : bounded (findWatchChecked wd).
Proof. rw /findWatchChecked /findWatch /createStopFileAndAbort. bounded. Qed.
Hint Resolve bounded_findWatchChecked : bounded.

Lemma bounded_markCacheSlotEmpty j : bounded (markCacheSlotEmpty j).
Proof. rw /markCacheSlotEmpty. bounded. Qed.
Hint Resolve bounded_markCacheSlotEmpty : bounded.

Lemma bounded_isRootDirPath p : bounded (isRootDirPath p).
Proof. rw /isRootDirPath /findRootDirPath. bounded. Qed.
Hint Resolve bounded_isRootDirPath : bounded.

Lemma bounded_traverseTree p sb : bounded (traverseTree p sb).
Proof.
  rw /traverseTree /findWatch /addWatchToCache /findEmptyCacheSlot. bounded.
Qed.
Hint Resolve bounded_traverseTree : bounded.

Lemma bounded_watchSubtree fd p : bounded (watchSubtree fd p).
Proof. rw /watchSubtree /watchDir. bounded. Qed.
Hint Resolve bounded_watchSubtree : bounded.

Lemma bounded_reinitialize fd : bounded (reinitialize fd).
Proof. rw /reinitialize /freeCache. bounded. Qed.
Hint Resolve bounded_reinitialize : bounded.

Lemma bounded_zapSubtree fd p : bounded (zapSubtree fd p).
Proof.
  assert (∀ js pn n, bounded (zapSlots fd pn js n)) as H.
  { intros js. elim: js => [|j js IH] pn n; cbn [zapSlots]; bounded; apply IH. }
  rw /zapSubtree. bounded; apply H.
Qed.
Hint Resolve bounded_zapSubtree : bounded.

Lemma bounded_checkCacheConsistency : bounded checkCacheConsistency.
Proof.
  assert (∀ l n, bounded (checkSlots l n)) as H.
  { intros l. elim: l => [|[j w] l IH] n; cbn [checkSlots]; rw ?/checkSlot; bounded; apply IH. }
  rw /checkCacheConsistency. bounded; apply H.
Qed.
Hint Resolve bounded_checkCacheConsistency : bounded.

Lemma bounded_afterEvent fd n : bounded (afterEvent fd n).
Proof. rw /afterEvent. bounded. Qed.
Hint Resolve bounded_afterEvent : bounded.

Lemma bounded_zapRootDirPath p : bounded (zapRootDirPath p).
Proof. rw /zapRootDirPath /findRootDirPath /printf. bounded. Qed.
Hint Resolve bounded_zapRootDirPath : bounded.

Lemma bounded_processNextInotifyEvent fd buf sz first :
  bounded (processNextInotifyEvent fd buf sz first).
Proof.
  assert (∀ ev, bounded (displayInotifyEvent ev)).
  { intros ev. rw /displayInotifyEvent. bounded. }
  rw /processNextInotifyEvent /dispatchEvent /onDirAppears /onDeleteSelf /onMovedFrom
     /onOverflow /onUnmount /onMoveSelf /zapOrRebuild /rebuild /with_slot /pathnameInCache
     /pathnameToCacheSlot /rewriteCachedPaths /rewriteSlot. bounded.
Qed.

(** Run the message logged first in [H]. *)
Ltac run_log H :=
  match type of H with context [logMessage ?vb ?t ?s] =>
    let Hl := fresh in destruct (logs_logMessage vb t s) as ([] & ? & ? & Hl);
    simpl in Hl; rw Hl in H; clear Hl
  end.

(** An iteration of the loop that does not end it: it either consumes an event
    of the buffer, or makes one secondary read and restarts on what was kept
    and read. *)
Lemma eventLoop_iteration fuel fd buf evp numRead first s :
  (eventLoop (S fuel) fd buf evp numRead first s).1 ≠ NoFuel ∨
  evp < numRead ∧ ∃ fd' s',
    (∃ evLen, 0 < evLen ∧ inotifyReadCnt s' = inotifyReadCnt s ∧
       eventLoop (S fuel) fd buf evp numRead first s =
       eventLoop fuel fd' buf (evp + evLen) numRead true s') ∨
    (∃ buf' nr, nr ≤ Z.max 0 (INOTIFY_READ_BUF_LEN - (numRead - evp)) ∧
       inotifyReadCnt s' = inotifyReadCnt s + 1 ∧
       eventLoop (S fuel) fd buf evp numRead first s =
       eventLoop fuel fd' buf' 0 (numRead - evp + nr) false s').
Proof.
  remember (eventLoop (S fuel) fd buf evp numRead first s) as X eqn:HX.
  cbn [eventLoop] in HX. destruct (Z.ltb_spec evp numRead) as [Hlt|]; [|left; by rw HX].
  rw {1}/mbind /M_bind in HX.
  pose proof (bounded_processNextInotifyEvent fd (drop (Z.to_nat evp) buf)
    (numRead - evp) first s) as Hb.
  destruct (processNextInotifyEvent _ _ _ _ s) as [[[fd' r]| | | |] s1], Hb as [? Hc];
    try (left; by rw HX).
  simpl in Hc. destruct (Z.ltb_spec 0 (to_int r)) as [Hr|Hr].
  { right. split; [done|]. exists fd', s1. left. by exists (to_int r). }
  rw /mbind /M_bind in HX. cbn [sys_] in HX. rw /sys in HX.
  destruct (os_read _ _ _) as [[e|d] k'] in HX.
  - destruct (e =? EINTR); [|left; by rw HX]. simpl in HX. run_log HX.
    right. split; [done|]. exists fd'. eexists. right. eexists _, (-1).
    split_and!; [lia| |exact HX]. simpl. lia.
  - set (d' := take _ d) in HX. assert (length d' ≤ Z.to_nat (INOTIFY_READ_BUF_LEN - (numRead - evp)))%nat
      by (subst d'; rw length_take; lia).
    destruct d' as [|x d']; [left; by rw HX|]. simpl in HX. run_log HX.
    right. split; [done|]. exists fd'. eexists. right. eexists _, (Z.of_nat (S (length d'))).
    split_and!; [simpl in *; lia| |exact HX]. simpl. lia.
Qed.

(** If no more events arrive (every further read of the inotify descriptor is
    interrupted), the loop over the buffer ends within fuel linear in the bytes read. *)
Lemma eventLoop_terminates fuel fd buf evp numRead first s :
  (∀ fd n k, ∃ k', os_read fd n k = (inl EINTR, k')) →
  2 * Z.max 0 (numRead - evp) + Z.b2z first < Z.of_nat fuel →
  (eventLoop fuel fd buf evp numRead first s).1 ≠ NoFuel.
Proof.
  intros Hread. elim: fuel fd buf evp numRead first s
    => [|fuel IH] fd buf evp numRead first s Hfuel; [destruct first; simpl in Hfuel; lia|].
  cbn [eventLoop]. destruct (Z.ltb_spec evp numRead) as [Hlt|]; [|done].
  rw {1}/mbind /M_bind.
  pose proof (bounded_processNextInotifyEvent fd (drop (Z.to_nat evp) buf)
    (numRead - evp) first s) as Hb.
  destruct (processNextInotifyEvent _ _ _ _ s) as [[[fd' r]| | | |] s1], Hb as [? _]; try done.
  destruct (Z.ltb_spec 0 (to_int r)) as [Hr|Hr].
  { apply IH. destruct first; simpl in *; lia. }
  rw /mbind /M_bind. cbn [sys_]. rw /sys.
  destruct (Hread fd' (INOTIFY_READ_BUF_LEN - (numRead - evp)) (os (set_os (os_ualarm 2000 (os s1)) s1)))
    as [k' ->]. simpl.
  destruct (logs_logMessage VB_NOISY ([NL] ++ cs "==========> SECONDARY Read "
     ++ fmt_d (inotifyReadCnt s1 + 1) ++ cs ": got " ++ fmt_d (-1) ++ cs " bytes" ++ [NL])
     (set_inotifyReadCnt (inotifyReadCnt s1 + 1) (set_os (os_ualarm 0 k') s1)))
    as ([] & e & l & Hlog).
  simpl in Hlog. rw Hlog. apply IH. destruct first; simpl in *; lia.
Qed.

(** C37: The only way to keep the loop running is to keep delivering events: with fuel for
    the bytes in the buffer and one buffer's worth more for each secondary read made,
    it does not run out, whatever the events and whatever the kernel answers. *)
Theorem eventLoop_progress fuel fd buf evp numRead first s :
  numRead - evp ≤ INOTIFY_READ_BUF_LEN →
  Z.max 0 (numRead - evp) + (INOTIFY_READ_BUF_LEN + 1) *
    (inotifyReadCnt (eventLoop fuel fd buf evp numRead first s).2 - inotifyReadCnt s)
    < Z.of_nat fuel →
  (eventLoop fuel fd buf evp numRead first s).1 ≠ NoFuel.
Proof.
  elim: fuel fd buf evp numRead first s
    => [|fuel IH] fd buf evp numRead first s Hn Hfuel; [simpl in Hfuel; lia|].
  destruct (eventLoop_iteration fuel fd buf evp numRead first s) as [|(Hlt & fd' & s' &
    [(n & Hp & Hc & E)|(buf' & nr & Hnr & Hc & E)])]; [done|..];
    rw E in Hfuel |- *; apply IH; try lia; rw Hc; lia.
Qed.

(** When the secondary read is interrupted, the loop does not restart with the bytes it
    kept: it adds read's result -1 to their count, so the last byte of the
    pending event falls outside the bytes it goes on to process. *)
Lemma interrupted_read_drops_a_byte fuel fd fd' buf evp numRead first r s s1 k' :
  evp < numRead →
  processNextInotifyEvent fd (drop (Z.to_nat evp) buf) (numRead - evp) first s =
    (Ret (fd', r), s1) → to_int r ≤ 0 →
  os_read fd' (INOTIFY_READ_BUF_LEN - (numRead - evp)) (os_ualarm 2000 (os s1)) =
    (inl EINTR, k') →
  ∃ s2, core s2 = core s1 ∧ inotifyReadCnt s2 = inotifyReadCnt s1 + 1 ∧
    eventLoop (S fuel) fd buf evp numRead first s =
    eventLoop fuel fd'
      (let kept := take (Z.to_nat (numRead - evp)) (drop (Z.to_nat evp) buf)
                   ++ drop (Z.to_nat (numRead - evp)) buf in
       take (Z.to_nat (numRead - evp)) kept ++ drop (Z.to_nat (numRead - evp) + 0) kept)
      0 (numRead - evp - 1) false s2.
Proof.
  intros Hlt Hp Hr Hread. cbn [eventLoop].
  destruct (Z.ltb_spec evp numRead); [|lia]. rw (bind_Ret _ _ _ _ _ Hp). cbv beta iota.
  destruct (Z.ltb_spec 0 (to_int r)); [lia|].
  rw (bind_Ret (sys_ _) _ s1 tt (set_os (os_ualarm 2000 (os s1)) s1) eq_refl).
  assert (∀ n, os_read fd' n (os_ualarm 2000 (os s1)) = (inl EINTR, k') →
    sys (os_read fd' n) (set_os (os_ualarm 2000 (os s1)) s1) = (Ret (inl EINTR), set_os k' s1))
    as Hsys by (intros n Hn; rw /sys; cbn [os set_os]; by rw Hn).
  rw (bind_Ret _ _ _ _ _ (Hsys _ Hread)). clear Hsys Hread.
  rw (bind_Ret (sys_ _) _ (set_os k' s1) tt (set_os (os_ualarm 0 k') s1) eq_refl).
  change (EINTR =? EINTR) with true. cbv beta iota zeta.
  rw (bind_Ret (modify (λ s, set_inotifyReadCnt (inotifyReadCnt s + 1) s)) _
    (set_os (os_ualarm 0 k') s1) tt
    (set_inotifyReadCnt (inotifyReadCnt s1 + 1) (set_os (os_ualarm 0 k') s1)) eq_refl).
  rw (bind_Ret (gets inotifyReadCnt) _
    (set_inotifyReadCnt (inotifyReadCnt s1 + 1) (set_os (os_ualarm 0 k') s1))
    (inotifyReadCnt s1 + 1) _ eq_refl).
  match goal with |- context [logMessage VB_NOISY ?t] =>
    destruct (logs_logMessage VB_NOISY t
      (set_inotifyReadCnt (inotifyReadCnt s1 + 1) (set_os (os_ualarm 0 k') s1)))
      as ([] & e & l & Hlog) end.
  rw (bind_Ret _ _ _ _ _ Hlog). eexists. split_and!; [..|reflexivity]; done.
Qed.

(** With -b SIZE larger than the buffer, a read that returns more bytes than the buffer
    holds overruns it. *)
Lemma oversized_read_overruns fuel fd data k k' s :
  INOTIFY_READ_BUF_LEN < readBufferSize s →
  os_sigaction (os s) = (None, k) →
  os_read fd (readBufferSize s) k = (inr data, k') →
  INOTIFY_READ_BUF_LEN < Z.of_nat (length data) →
  (processInotifyEvents fuel fd s).1 = Crash.
Proof.
  intros Hsz Hsa Hread Hlen.
  assert (INOTIFY_READ_BUF_LEN = 27200) as E by done.
  rw /processInotifyEvents /mbind /M_bind /sys Hsa /get. cbn [os set_os readBufferSize].
  destruct (Z.ltb_spec 0 (readBufferSize s)); [|lia]. rw Hread.
  rw !length_take.
  destruct (Z.eqb_spec (Z.of_nat (Nat.min (Z.to_nat (readBufferSize s)) (length data))) 0); [lia|].
  destruct (Z.ltb_spec INOTIFY_READ_BUF_LEN
    (Z.of_nat (Nat.min (Z.to_nat (readBufferSize s)) (length data)))); [done|lia].
Qed.

(** The event of a deleted directory removes exactly that directory's entry. *)
Lemma delete_self_refines fd buf sz first ev d m s :
  cache_wf (wlCache s) → repr (wlCache s) m → no_checks s →
  event_at buf = Some ev → ev_mask ev = IN_DELETE_SELF →
  m !! ev_wd ev = Some d → Some d ∉ rootDirPaths s →
  ∃ s', processNextInotifyEvent fd buf sz first s =
          (Ret (fd, Z.of_nat EVENT_SIZE + ev_len ev), s') ∧
    cache_wf (wlCache s') ∧ repr (wlCache s') (delete (ev_wd ev) m) ∧
    rootDirPaths s' = rootDirPaths s.
Proof.
  intros Hwf Hr Hc Hev Hm Hd Hroot.
  assert (flag (ev_mask ev) IN_IGNORED = false) as Hign by by rw Hm.
  destruct (processNext_known fd buf sz first _ _ _ _ Hwf Hr Hev Hign Hd)
    as (j & e & l & Hj & ->).
  rw /dispatchEvent Hm. change (flag IN_DELETE_SELF IN_ISDIR) with false.
  change (flag IN_DELETE_SELF IN_DELETE_SELF) with true. cbv zeta. cbn [andb].
  rw /onDeleteSelf. cbn [with_slot].
  rw (bind_Ret get _ _ _ _ eq_refl).
  destruct (logs_logMessage VB_BASIC (cs "Clearing watchlist item " ++ fmt_d (ev_wd ev)
    ++ cs " (" ++ slot_path (relog e l s) j ++ cs ")" ++ [NL]) (relog e l s))
    as ([] & e1 & l1 & Hlog).
  rw (bind_Ret _ _ _ _ _ Hlog).
  assert (slot_path (relog e l s) j = d) as -> by by rw /slot_path /= Hj.
  assert (isRootDirPath d (relog e1 l1 (relog e l s)) = (Ret false, relog e1 l1 (relog e l s)))
    as Hroot'.
  { rw /isRootDirPath /findRootDirPath /mbind /M_bind /gets /=.
    destruct (list_find (λ p, p = Some d) (rootDirPaths s)) as [[i q]|] eqn:Hf; [|done].
    apply list_find_Some in Hf as (Hi & -> & _). exfalso. apply Hroot.
    apply list_elem_of_lookup. eauto. }
  rw (bind_Ret _ _ _ _ _ Hroot'). cbn [when].
  rw (bind_Ret (mret tt) _ _ _ _ eq_refl) /markCacheSlotEmpty.
  rw /mbind /M_bind /get.
  match goal with |- context [logMessage VB_NOISY ?t ?s] =>
    destruct (logs_logMessage VB_NOISY t s) as ([] & e2 & l2 & Hlog2) end.
  rw Hlog2 /modify afterEvent_no_checks //. eexists. split; [done|].
  split_and!; [by apply cache_wf_clear|by apply (repr_clear _ _ _ (Watch (ev_wd ev) d))|done].
Qed.

Context `{OSok : !InotifyOSOk K}.

(** C2: In every state at the top of the main loop, whatever the kernel and the other
    processes did, live watch descriptors are distinct, unused slots are
    empty, every cached path fits its buffer, the count of abandoned roots
    is exact and some root is still monitored. *)
Theorem reachable_invariant pname opts argv k0 fd s :
  reachable pname opts argv k0 fd s → iwf s.
Proof.
  intros H. induction H as [fd s Hst|fuel fd s fd' s' _ IH Hst].
  - exact (wp_Ret _ _ _ _ _ _ (startup_wf pname opts argv k0) Hst).
  - exact (wp_Ret _ _ _ _ _ _ (keeps_mainStep fuel pname fd s IH) Hst).
Qed.

(** An event for a descriptor that is not cached rebuilds the cache on a new inotify
    descriptor, whatever the old cache held, and discards the buffer. *)
Lemma unknown_watch_rebuilds fd buf sz first ev fd' r s s' :
  roots_wf (rootDirPaths s) (ignoreRootDirs s) →
  event_at buf = Some ev → ev_wd ev ≠ -1 → flag (ev_mask ev) IN_IGNORED = false →
  (∀ p, Watch (ev_wd ev) p ∉ wlCache s) →
  processNextInotifyEvent fd buf sz first s = (Ret (fd', r), s') →
  iwf s' ∧ r = INOTIFY_READ_BUF_LEN.
Proof.
  intros Hroots Hev Hwd Hign Hno Hp.
  assert (wp (processNextInotifyEvent fd buf sz first)
    (λ '(fd', r) s', iwf s' ∧ r = INOTIFY_READ_BUF_LEN) ended s) as H;
    [|exact (wp_Ret _ _ _ _ _ _ H Hp)].
  rw /processNextInotifyEvent Hev. wp_step.
  apply wp_logs; [apply logs_displayInotifyEvent|]. intros _ e l.
  destruct (Z.eqb_spec (ev_wd ev) (-1)); [done|]. rw Hign. cbn [negb andb].
  wp_step. rw /findWatchChecked /findWatch. do 2 wp_step.
  assert (wl_findWatch (wlCache (relog e l s)) (ev_wd ev) = None) as ->
    by by apply wl_findWatch_None.
  wp_step. apply wp_logs; [apply logs_logMessage|]. intros _ e1 l1. do 2 wp_step.
  simpl. destruct (abortOnCacheProblem s).
  - rw /createStopFileAndAbort /wp /mbind /M_bind /gets /sys_.
    by destruct (dumpCacheToLog _) as [[] ?].
  - wp_step. rw /rebuild. wp_step.
    eapply wp_conseq; [by apply reinitialize_wf|]. intros fd1 s1 Hs1. by wp_step.
Qed.

(** The roots the program stores are its arguments, in order, and no two of them are the
    same filesystem object: a duplicate ends the program. *)
Lemma stored_roots_distinct stat_ok argv l s s' :
  storeRootDirs stat_ok argv [] s = (Ret l, s') →
  l.*1 = argv ∧ NoDup (object_id <$> l) ∧ core s' = core s.
Proof.
  intros H. pose proof (wp_Ret _ _ _ _ _ _
    (storeRootDirs_spec stat_ok argv [] s (NoDup_nil_2)) H) as (? & ? & ?).
  by split_and!.
Qed.
End spec.

(** ** Renames compose as they do on the filesystem *)

Lemma under_app dir s : under dir (dir ++ "/"%char :: s) = true.
Proof. apply under_spec. eauto. Qed.

(** Renaming a directory and renaming it back restores every cached path,
    as long as nothing was below the new name and no path was truncated. *)
Lemma rename_there_and_back f n p :
  (length (n ++ drop (length f) p) < PATH_MAX)%nat → (length p < PATH_MAX)%nat →
  under n p = false → rename_map n f (rename_map f n p) = p.
Proof.
  intros Hlen Hp Hn. rw {2}/rename_map. destruct (under f p) eqn:Hf.
  - rw /rename_path snprintf_fits //. apply under_spec in Hf as [-> | [s ->]].
    + rw drop_all app_nil_r /rename_map under_refl /rename_path drop_all app_nil_r.
      by rw snprintf_fits.
    + rw drop_app_length /rename_map under_app /rename_path drop_app_length.
      by rw snprintf_fits.
  - by rw /rename_map Hn.
Qed.

(** ** A concrete kernel for the examples

    Directories are a fixed list, watch descriptors count up from 1, and reads
    are scripted; once the script is empty every read is interrupted. *)

Record sim := Sim { sim_wd : nat; sim_dirs : list cstring; sim_reads : list (res (list ascii)) }.

#[export] Instance sim_os : InotifyOS sim := {|
  os_lstat p k := (inr (Fstat true (Z.of_nat (length p)) 0), k);
  os_alloc k := (true, k);
  os_uninit k j := Watch 77 (cs "garbage");
  os_nftw p k := (((λ q, (q, Fstat true 0 0)) <$>
                   filter (λ q, under p q = true ∧ (length q < PATH_MAX)%nat) (sim_dirs k), None), k);
  os_add_watch fd p fl k :=
    (inr (Z.of_nat (S (sim_wd k))), Sim (S (sim_wd k)) (sim_dirs k) (sim_reads k));
  os_rm_watch fd wd k := (None, k);
  os_inotify_init k := (inr 3, k);
  os_close fd k := k;
  os_open_stop f k := k;
  os_read fd n k := match sim_reads k with
                    | r :: rs => (r, Sim (sim_wd k) (sim_dirs k) rs)
                    | [] => (inl EINTR, k)
                    end;
  os_sigaction k := (None, k);
  os_ualarm n k := k;
  os_fopen f k := (true, k);
  os_fprintf f t k := k;
  os_fclose f k := k;
  os_select n k := (inr (false, true), k);
  os_errno k := EINTR;
  os_stack k j := NUL;
  os_ptr p k := cs "0x1000";
  os_strerror e := cs "error";
|}.

#[export] Instance sim_os_ok : InotifyOSOk sim.
Proof.
  split.
  - intros fd p fl k wd k' [= <- <-]. lia.
  - intros p k vs e k' [= <- <- <-] q st.
    rw list_elem_of_fmap. intros (q' & [= -> ->] & Hq).
    by apply list_elem_of_filter in Hq as [[_ ?] _].
Qed.

Definition sim_dirs0 : list cstring := [cs "/r"; cs "/r/a"; cs "/r/a/b"; cs "/r/ab"].
Definition sim0 : sim := Sim 0 sim_dirs0 [].

(** The state after starting on [/r]. *)
Definition st0 : istate sim := (startup (cs "prog") [] [cs "/r"] (initial sim0)).2.

(** The rename of [/r/a] to [/r/c], as two events, and other single events. *)
Definition ev_from : inotify_event := Event 1 (Z.lor IN_MOVED_FROM IN_ISDIR) 9 16 (cs "a").
Definition ev_to : inotify_event := Event 1 (Z.lor IN_MOVED_TO IN_ISDIR) 9 16 (cs "c").
Definition ev_gone : inotify_event := Event 4 IN_DELETE_SELF 0 16 [].
Definition ev_stale : inotify_event := Event 9 IN_DELETE_SELF 0 16 [].

Lemma st0_iwf : iwf st0.
Proof.
  refine (wp_Ret _ _ _ _ 3 _ (startup_wf (cs "prog") [] [cs "/r"] sim0) _).
  vm_compute. reflexivity.
Qed.

Lemma st0_wf : cache_wf (wlCache st0).
Proof. apply st0_iwf. Qed.

(** ** The theorems at concrete inputs *)

Definition m0 : gmap Z cstring := cache_map (wlCache st0).
Definition buf_rename : list ascii := encode_event ev_from ++ encode_event ev_to.

Lemma event_roundtrip_witness : event_at (encode_event ev_from ++ cs "xyz") = Some ev_from.
Proof.
  apply (event_roundtrip ev_from (cs "xyz")).
  rw /event_ok /in_int /INT_MIN /INT_MAX. cbn [ev_from ev_wd ev_mask ev_cookie ev_len ev_name].
  split_and!; try (vm_compute; congruence).
  intros H. apply list_elem_of_singleton in H. discriminate.
Defined.

Lemma rename_event_refines_witness :
  ∃ s', processNextInotifyEvent 3 buf_rename 64 true st0 = (Ret (3, 32 + 16 + 16), s') ∧
    cache_wf (wlCache s') ∧
    repr (wlCache s') (rename_map (entry_path (cs "/r") (cs "a")) (entry_path (cs "/r") (cs "c"))
                       <$> m0).
Proof.
  apply (rename_event_refines 3 buf_rename 64 true ev_from ev_to (cs "/r") (cs "/r") m0 st0).
  - apply st0_wf.
  - apply cache_map_repr, st0_wf.
  - split; vm_compute; reflexivity.
  - vm_compute; reflexivity.
  - reflexivity.
  - vm_compute; congruence.
  - vm_compute; congruence.
  - vm_compute; reflexivity.
  - reflexivity.
  - reflexivity.
  - vm_compute; reflexivity.
  - vm_compute; reflexivity.
Defined.

Lemma hanging_moved_from_witness :
  ∃ s', processNextInotifyEvent 3 (encode_event ev_from) 32 true st0 = (Ret (3, READ_MORE), s') ∧
        core s' = core st0 ∧ to_int READ_MORE = -1.
Proof.
  apply (hanging_moved_from 3 (encode_event ev_from) 32 ev_from (cs "/r") m0 st0).
  - apply st0_wf.
  - apply cache_map_repr, st0_wf.
  - vm_compute; reflexivity.
  - reflexivity.
  - vm_compute; congruence.
  - vm_compute; reflexivity.
Defined.

Lemma zapSubtree_refines_witness :
  ∃ e l c', zapSubtree 3 (cs "/r/a") st0 =
    (Ret 2, relog e l (set_os (rm_watches 3 [2; 3] (os_alloc (os st0)).2).2 (set_wlCache c' st0))) ∧
    cache_wf c' ∧ repr c' (filter (λ kv, kv.1 ∉ [2; 3]) m0).
Proof.
  pose proof (zapSubtree_refines 3 (cs "/r/a") m0 st0 st0_wf (cache_map_repr _ st0_wf) eq_refl) as H.
  assert (zap_targets (cs "/r/a") (wlCache st0) = [2; 3]) as Ht by (vm_compute; reflexivity).
  cbv zeta in H. rw Ht in H. set k0 := (os_alloc (os st0)).2 in H |- *.
  change (rm_watches 3 [2; 3] k0) with (2%nat, @None Z, k0) in H |- *.
  by destruct H as (_ & _ & H).
Defined.

(** The same kernel, never delivering another event. *)
Definition quiet_os : InotifyOS sim := {|
  os_lstat := os_lstat; os_alloc := os_alloc; os_uninit := os_uninit;
  os_nftw := os_nftw; os_add_watch := os_add_watch; os_rm_watch := os_rm_watch;
  os_inotify_init := os_inotify_init; os_close := os_close; os_open_stop := os_open_stop;
  os_read := λ fd n k, (inl EINTR, k); os_sigaction := os_sigaction; os_ualarm := os_ualarm;
  os_fopen := os_fopen; os_fprintf := os_fprintf; os_fclose := os_fclose;
  os_select := os_select; os_errno := os_errno; os_stack := os_stack; os_ptr := os_ptr;
  os_strerror := os_strerror |}.

Lemma eventLoop_terminates_witness :
  (@eventLoop sim quiet_os 200 3 buf_rename 0 64 true st0).1 ≠ NoFuel.
Proof.
  apply (@eventLoop_terminates sim quiet_os 200 3 buf_rename 0 64 true st0).
  - intros fd n k. by exists k.
  - vm_compute. reflexivity.
Defined.

Lemma eventLoop_progress_witness : (eventLoop 80 3 buf_rename 0 64 true st0).1 ≠ NoFuel.
Proof.
  apply (eventLoop_progress 80 3 buf_rename 0 64 true st0); vm_compute; congruence.
Defined.

(** The pending event of the witness is the first half of a rename; the read
    for its second half is interrupted. *)
Lemma interrupted_read_drops_a_byte_witness :
  ∃ s1 s2 : istate sim, core s2 = core s1 ∧ inotifyReadCnt s2 = inotifyReadCnt s1 + 1 ∧
    eventLoop 5 3 (encode_event ev_from) 0 32 true st0 =
    eventLoop 4 3
      (let kept := take (Z.to_nat (32 - 0)) (drop (Z.to_nat 0) (encode_event ev_from))
                   ++ drop (Z.to_nat (32 - 0)) (encode_event ev_from) in
       take (Z.to_nat (32 - 0)) kept ++ drop (Z.to_nat (32 - 0) + 0) kept)
      0 (32 - 0 - 1) false s2.
Proof.
  pose (s1 := (processNextInotifyEvent 3 (encode_event ev_from) 32 true st0).2).
  exists s1.
  apply (interrupted_read_drops_a_byte 4 3 3 (encode_event ev_from) 0 32 true READ_MORE
           st0 s1 (os s1)).
  - reflexivity.
  - vm_compute. reflexivity.
  - vm_compute. congruence.
  - vm_compute. reflexivity.
Defined.

(** A buffer size of 30000 bytes, and a kernel with that many to deliver. *)
Definition big_data : list ascii := replicate (Z.to_nat 27300) NUL.
Definition st_big : istate sim :=
  set_readBufferSize 30000 (set_os (Sim 4 sim_dirs0 [inr big_data]) st0).

Lemma oversized_read_overruns_witness : (processInotifyEvents 10 3 st_big).1 = Crash.
Proof.
  apply (oversized_read_overruns 10 3 big_data (os st_big) (Sim 4 sim_dirs0 []) st_big).
  - vm_compute. reflexivity.
  - reflexivity.
  - reflexivity.
  - vm_compute. reflexivity.
Defined.

Lemma delete_self_refines_witness :
  ∃ s', processNextInotifyEvent 3 (encode_event ev_gone) 32 true st0 =
          (Ret (3, Z.of_nat EVENT_SIZE + 16), s') ∧
    cache_wf (wlCache s') ∧ repr (wlCache s') (delete 4 m0) ∧
    rootDirPaths s' = rootDirPaths st0.
Proof.
  apply (delete_self_refines 3 (encode_event ev_gone) 32 true ev_gone (cs "/r/ab") m0 st0).
  - apply st0_wf.
  - apply cache_map_repr, st0_wf.
  - split; vm_compute; reflexivity.
  - vm_compute. reflexivity.
  - reflexivity.
  - vm_compute. reflexivity.
  - intros H. vm_compute in H. apply list_elem_of_singleton in H. discriminate.
Defined.

Lemma reachable_invariant_witness : iwf st0.
Proof.
  apply (reachable_invariant (cs "prog") [] [cs "/r"] sim0 3 st0).
  apply reach_start. vm_compute. reflexivity.
Defined.

Lemma unknown_watch_rebuilds_witness :
  iwf (processNextInotifyEvent 3 (encode_event ev_stale) 32 true st0).2 ∧
  INOTIFY_READ_BUF_LEN = INOTIFY_READ_BUF_LEN.
Proof.
  apply (unknown_watch_rebuilds 3 (encode_event ev_stale) 32 true ev_stale 3
           INOTIFY_READ_BUF_LEN st0).
  - apply st0_iwf.
  - vm_compute. reflexivity.
  - discriminate.
  - reflexivity.
  - intros p H. vm_compute in H. set_solver.
  - vm_compute. reflexivity.
Defined.

Lemma stored_roots_distinct_witness :
  ∃ l, l.*1 = [cs "/r"; cs "/home"] ∧ NoDup (object_id <$> l) ∧ core st0 = core st0.
Proof.
  eexists. apply (stored_roots_distinct true [cs "/r"; cs "/home"] _ st0 st0).
  vm_compute. reflexivity.
Defined.

Lemma rename_there_and_back_witness :
  rename_map (cs "/r/c") (cs "/r/a") (rename_map (cs "/r/a") (cs "/r/c") (cs "/r/a/b"))
  = cs "/r/a/b".
Proof.
  apply rename_there_and_back; [| |reflexivity];
    apply Nat.ltb_lt; vm_compute; reflexivity.
Defined.
