(* ===== verification/Seccomp.v ===== *)
(** * Seccomp filters: the programs of [seccomp/]

    The classic-BPF instructions the sources use, with an evaluator, and the
    filters as the arrays the programs pass to [seccomp].  Then
    [seccomp/dump_seccomp_filter.c] and [seccomp/seccomp_launch.c], which save
    a filter to a file and load it again; the kernel calls they make are the
    operations of the class [FilterOS]. *)

From S2P Require Import Prelude CStdlib.

(** ** Instructions, [linux/filter.h] *)

Record sock_filter := Insn { i_code : Z; i_jt : nat; i_jf : nat; i_k : Z }.

#[export] Instance sock_filter_eq_dec : EqDecision sock_filter.
Proof. solve_decision. Defined.

Definition BPF_LD_W_ABS : Z := 0x20.
Definition BPF_JMP_JA : Z := 0x05.
Definition BPF_JMP_JEQ_K : Z := 0x15.
Definition BPF_JMP_JGT_K : Z := 0x25.
Definition BPF_JMP_JGE_K : Z := 0x35.
Definition BPF_JMP_JSET_K : Z := 0x45.
Definition BPF_RET_K : Z := 0x06.

Definition BPF_STMT (code k : Z) : sock_filter := Insn code 0 0 k.
Definition BPF_JUMP (code k : Z) (jt jf : nat) : sock_filter := Insn code jt jf k.

(** ** The data a filter sees, [struct seccomp_data] *)

Record seccomp_data := SData { sd_nr : Z; sd_arch : Z; sd_ip : Z; sd_args : list Z }.

Definition sd_wf (d : seccomp_data) : Prop :=
  in_int (sd_nr d) ∧ (0 ≤ sd_arch d < 2 ^ 32) ∧ (0 ≤ sd_ip d < 2 ^ 64) ∧
  length (sd_args d) = 6%nat ∧ Forall (λ a, 0 ≤ a < 2 ^ 64) (sd_args d).

Definition lo32 (x : Z) : Z := x mod 2 ^ 32.
Definition hi32 (x : Z) : Z := (x / 2 ^ 32) mod 2 ^ 32.

(** The structure as little-endian 32-bit words. *)
Definition sd_words (d : seccomp_data) : list Z :=
  [lo32 (sd_nr d); lo32 (sd_arch d); lo32 (sd_ip d); hi32 (sd_ip d)] ++
  concat ((λ a, [lo32 a; hi32 a]) <$> sd_args d).

Definition OFF_nr : Z := 0.
Definition OFF_arch : Z := 4.
Definition OFF_arg (i : Z) : Z := 16 + 8 * i.

Definition sd_load (d : seccomp_data) (off : Z) : option Z :=
  if (off mod 4 =? 0) && (0 <=? off) then sd_words d !! Z.to_nat (off / 4) else None.

(** ** Evaluation

    Jumps only go forward: [skip] counts the instructions still to pass over.
    [None] stands for a program the kernel's checker rejects. *)

Fixpoint bpf_run (prog : list sock_filter) (skip : nat) (A : Z) (d : seccomp_data) : option Z :=
  match prog with
  | [] => None
  | i :: rest =>
      match skip with
      | S s => bpf_run rest s A d
      | O =>
          let branch (b : bool) := bpf_run rest (if b then i_jt i else i_jf i) A d in
          if i_code i =? BPF_RET_K then Some (i_k i)
          else if i_code i =? BPF_LD_W_ABS then
            match sd_load d (i_k i) with
            | Some w => bpf_run rest 0 w d
            | None => None
            end
          else if i_code i =? BPF_JMP_JA then bpf_run rest (Z.to_nat (i_k i)) A d
          else if i_code i =? BPF_JMP_JEQ_K then branch (A =? i_k i)
          else if i_code i =? BPF_JMP_JGT_K then branch (i_k i <? A)
          else if i_code i =? BPF_JMP_JGE_K then branch (i_k i <=? A)
          else if i_code i =? BPF_JMP_JSET_K then branch (flag A (i_k i))
          else None
      end
  end.

(** ** Return values, [linux/seccomp.h] *)

Definition SECCOMP_RET_KILL_PROCESS : Z := 0x80000000.
Definition SECCOMP_RET_KILL : Z := 0x00000000.
Definition SECCOMP_RET_TRAP : Z := 0x00030000.
Definition SECCOMP_RET_ERRNO : Z := 0x00050000.
Definition SECCOMP_RET_USER_NOTIF : Z := 0x7fc00000.
Definition SECCOMP_RET_TRACE : Z := 0x7ff00000.
Definition SECCOMP_RET_LOG : Z := 0x7ffc0000.
Definition SECCOMP_RET_ALLOW : Z := 0x7fff0000.
Definition SECCOMP_RET_ACTION_FULL : Z := 0xffff0000.
Definition SECCOMP_RET_DATA : Z := 0x0000ffff.

Inductive action :=
| KillProcess | KillThread | Trap | Errno (e : Z) | UserNotif | Trace | Log | Allow.

#[export] Instance action_eq_dec : EqDecision action.
Proof. solve_decision. Defined.

(** Unknown actions kill the process. *)
Definition action_of (ret : Z) : action :=
  let a := Z.land ret SECCOMP_RET_ACTION_FULL in
  if a =? SECCOMP_RET_KILL then KillThread
  else if a =? SECCOMP_RET_TRAP then Trap
  else if a =? SECCOMP_RET_ERRNO then Errno (Z.land ret SECCOMP_RET_DATA)
  else if a =? SECCOMP_RET_USER_NOTIF then UserNotif
  else if a =? SECCOMP_RET_TRACE then Trace
  else if a =? SECCOMP_RET_LOG then Log
  else if a =? SECCOMP_RET_ALLOW then Allow
  else KillProcess.

Definition decide_call (prog : list sock_filter) (d : seccomp_data) : option action :=
  action_of <$> bpf_run prog 0 0 d.

(** With several filters installed the value of highest precedence wins: the
    least action, read as a signed number. *)
Definition ret_prec (ret : Z) : Z := to_int (Z.land ret SECCOMP_RET_ACTION_FULL).

Definition combine (filters : list (list sock_filter)) (d : seccomp_data) : option action :=
  action_of <$>
  foldr (λ p acc, r ← bpf_run p 0 0 d; a ← acc;
                  Some (if ret_prec r <? ret_prec a then r else a))
    (Some SECCOMP_RET_ALLOW) filters.

(** ** The filters *)

Definition AUDIT_ARCH_X86_64 : Z := 0xc000003e.
Definition AUDIT_ARCH_I386 : Z := 0x40000003.
Definition X32_SYSCALL_BIT : Z := 0x40000000.
Definition NR_open : Z := 2.
Definition NR_lseek : Z := 8.
Definition NR_mkdir : Z := 83.
Definition NR_getppid : Z := 110.
Definition NR_openat : Z := 257.
Definition O_WRONLY : Z := 1.
Definition O_RDWR : Z := 2.
Definition O_CREAT : Z := 64.
Definition NR_mq_notify_x86_64 : Z := 244.
Definition NR_mq_notify_i386 : Z := 281.
Definition NR_mq_notify_x32 : Z := 527.

Definition deny_open_filter : list sock_filter := [
  BPF_STMT BPF_LD_W_ABS OFF_arch;
  BPF_JUMP BPF_JMP_JEQ_K AUDIT_ARCH_X86_64 1 0;
  BPF_STMT BPF_RET_K SECCOMP_RET_KILL_PROCESS;
  BPF_STMT BPF_LD_W_ABS OFF_nr;
  BPF_JUMP BPF_JMP_JGE_K X32_SYSCALL_BIT 0 1;
  BPF_STMT BPF_RET_K SECCOMP_RET_KILL_PROCESS;
  BPF_JUMP BPF_JMP_JEQ_K NR_open 2 0;
  BPF_JUMP BPF_JMP_JEQ_K NR_openat 1 0;
  BPF_STMT BPF_RET_K SECCOMP_RET_ALLOW;
  BPF_STMT BPF_RET_K SECCOMP_RET_KILL_PROCESS].

(** The architecture check that most of the filters begin with. *)
Definition check_arch_and_load_nr : list sock_filter := [
  BPF_STMT BPF_LD_W_ABS OFF_arch;
  BPF_JUMP BPF_JMP_JEQ_K AUDIT_ARCH_X86_64 0 2;
  BPF_STMT BPF_LD_W_ABS OFF_nr;
  BPF_JUMP BPF_JMP_JGE_K X32_SYSCALL_BIT 0 1;
  BPF_STMT BPF_RET_K SECCOMP_RET_KILL_PROCESS].

Definition control_open_filter : list sock_filter := check_arch_and_load_nr ++ [
  BPF_JUMP BPF_JMP_JEQ_K NR_open 2 0;
  BPF_JUMP BPF_JMP_JEQ_K NR_openat 3 0;
  BPF_STMT BPF_RET_K SECCOMP_RET_ALLOW;
  BPF_STMT BPF_LD_W_ABS (OFF_arg 1);
  BPF_JUMP BPF_JMP_JA 1 0 0;
  BPF_STMT BPF_LD_W_ABS (OFF_arg 2);
  BPF_JUMP BPF_JMP_JSET_K O_CREAT 0 1;
  BPF_STMT BPF_RET_K SECCOMP_RET_KILL_PROCESS;
  BPF_JUMP BPF_JMP_JSET_K (Z.lor O_WRONLY O_RDWR) 0 1;
  BPF_STMT BPF_RET_K (Z.lor SECCOMP_RET_ERRNO ENOTSUP);
  BPF_STMT BPF_RET_K SECCOMP_RET_ALLOW].

Definition arg64_filter : list sock_filter := check_arch_and_load_nr ++ [
  BPF_JUMP BPF_JMP_JEQ_K NR_lseek 1 0;
  BPF_STMT BPF_RET_K SECCOMP_RET_ALLOW;
  BPF_STMT BPF_LD_W_ABS (OFF_arg 1 + 4);
  BPF_JUMP BPF_JMP_JEQ_K 0 1 0;
  BPF_STMT BPF_RET_K (Z.lor SECCOMP_RET_ERRNO 2);
  BPF_STMT BPF_LD_W_ABS (OFF_arg 1);
  BPF_JUMP BPF_JMP_JGT_K 1000 0 1;
  BPF_STMT BPF_RET_K (Z.lor SECCOMP_RET_ERRNO 1);
  BPF_STMT BPF_RET_K SECCOMP_RET_ALLOW].

Definition multiarch_filter : list sock_filter := [
  BPF_STMT BPF_LD_W_ABS OFF_arch;
  BPF_JUMP BPF_JMP_JEQ_K AUDIT_ARCH_X86_64 0 5;
  BPF_STMT BPF_LD_W_ABS OFF_nr;
  BPF_JUMP BPF_JMP_JEQ_K NR_mq_notify_x86_64 0 1;
  BPF_STMT BPF_RET_K (Z.lor SECCOMP_RET_ERRNO NR_mq_notify_x86_64);
  BPF_JUMP BPF_JMP_JEQ_K (NR_mq_notify_x32 + X32_SYSCALL_BIT) 0 5;
  BPF_STMT BPF_RET_K (Z.lor SECCOMP_RET_ERRNO NR_mq_notify_x32);
  BPF_JUMP BPF_JMP_JEQ_K AUDIT_ARCH_I386 0 4;
  BPF_STMT BPF_LD_W_ABS OFF_nr;
  BPF_JUMP BPF_JMP_JEQ_K NR_mq_notify_i386 0 1;
  BPF_STMT BPF_RET_K (Z.lor SECCOMP_RET_ERRNO NR_mq_notify_i386);
  BPF_STMT BPF_RET_K SECCOMP_RET_ALLOW;
  BPF_STMT BPF_RET_K SECCOMP_RET_KILL_PROCESS].

Definition perf_filter : list sock_filter := check_arch_and_load_nr ++ [
  BPF_JUMP BPF_JMP_JEQ_K NR_open 1 0;
  BPF_STMT BPF_RET_K SECCOMP_RET_ALLOW;
  BPF_STMT BPF_RET_K SECCOMP_RET_KILL_PROCESS].

Definition logging_filter : list sock_filter := check_arch_and_load_nr ++ [
  BPF_STMT BPF_RET_K SECCOMP_RET_LOG].

Definition trap_sigsys_filter : list sock_filter := [
  BPF_STMT BPF_LD_W_ABS OFF_arch;
  BPF_JUMP BPF_JMP_JEQ_K AUDIT_ARCH_X86_64 1 0;
  BPF_STMT BPF_RET_K SECCOMP_RET_KILL;
  BPF_STMT BPF_LD_W_ABS OFF_nr;
  BPF_JUMP BPF_JMP_JGE_K X32_SYSCALL_BIT 0 1;
  BPF_STMT BPF_RET_K SECCOMP_RET_KILL_PROCESS;
  BPF_JUMP BPF_JMP_JEQ_K NR_getppid 0 1;
  BPF_STMT BPF_RET_K SECCOMP_RET_TRAP;
  BPF_STMT BPF_RET_K SECCOMP_RET_ALLOW].

Definition notify_filter : list sock_filter := check_arch_and_load_nr ++ [
  BPF_JUMP BPF_JMP_JEQ_K NR_mkdir 0 1;
  BPF_STMT BPF_RET_K SECCOMP_RET_USER_NOTIF;
  BPF_STMT BPF_RET_K SECCOMP_RET_ALLOW].

(** [installFilter2] overwrites the last entry of its array. *)
Definition filter2 (secondFilter : Z) : list sock_filter :=
  let filter := check_arch_and_load_nr ++ [
    BPF_JUMP BPF_JMP_JEQ_K NR_mkdir 1 0;
    BPF_STMT BPF_RET_K SECCOMP_RET_ALLOW;
    Insn 0 0 0 0] in
  let retTrace := BPF_STMT BPF_RET_K SECCOMP_RET_TRACE in
  let retErrno := BPF_STMT BPF_RET_K (Z.lor SECCOMP_RET_ERRNO ENOTSUP) in
  <[(length filter - 1)%nat := if secondFilter =? SECCOMP_RET_ERRNO then retErrno else retTrace]>
    filter.

Lemma filter2_eq sf :
  filter2 sf = check_arch_and_load_nr ++ [
    BPF_JUMP BPF_JMP_JEQ_K NR_mkdir 1 0;
    BPF_STMT BPF_RET_K SECCOMP_RET_ALLOW;
    if sf =? SECCOMP_RET_ERRNO then BPF_STMT BPF_RET_K (Z.lor SECCOMP_RET_ERRNO ENOTSUP)
    else BPF_STMT BPF_RET_K SECCOMP_RET_TRACE].
Proof. reflexivity. Qed.

(** ** Policies *)

(** A call of the native ABI: right architecture, x32 bit clear. *)
Definition native (d : seccomp_data) : bool :=
  (sd_arch d =? AUDIT_ARCH_X86_64) && (0 <=? sd_nr d) && (sd_nr d <? X32_SYSCALL_BIT).

Definition arg (d : seccomp_data) (i : nat) : Z := default 0 (sd_args d !! i).

(** What the flags argument of an open decides. *)
Definition open_policy (flags : Z) : action :=
  if flag flags O_CREAT then KillProcess
  else if flag flags (Z.lor O_WRONLY O_RDWR) then Errno ENOTSUP else Allow.

Lemma lo32_nr d : sd_wf d → lo32 (sd_nr d) = if 0 <=? sd_nr d then sd_nr d else sd_nr d + 2 ^ 32.
Proof.
  intros (H & _). rw /in_int /INT_MIN /INT_MAX in H. rw /lo32.
  destruct (Z.leb_spec 0 (sd_nr d)); [by rw Z.mod_small; lia|].
  rw -(Z_mod_plus_full _ 1) Z.mod_small; lia.
Qed.

Lemma lo32_arch d : sd_wf d → lo32 (sd_arch d) = sd_arch d.
Proof. intros (_ & H & _). by rw /lo32 Z.mod_small. Qed.

Lemma sd_load_nr d : sd_load d OFF_nr = Some (lo32 (sd_nr d)).
Proof. done. Qed.

Lemma sd_load_arch d : sd_load d OFF_arch = Some (lo32 (sd_arch d)).
Proof. done. Qed.

Lemma sd_load_arg d (i : nat) :
  sd_wf d → (i < 6)%nat →
  sd_load d (OFF_arg (Z.of_nat i)) = Some (lo32 (arg d i)) ∧
  sd_load d (OFF_arg (Z.of_nat i) + 4) = Some (hi32 (arg d i)).
Proof.
  intros (_ & _ & _ & Hl & _) Hi. rw /arg.
  destruct (sd_args d) as [|a0 [|a1 [|a2 [|a3 [|a4 [|a5 [|? ?]]]]]]] eqn:E; try done.
  do 6 (destruct i as [|i]; [by rw /sd_load /sd_words E|]). lia.
Qed.

(** Numbers of the native ABI pass the x32 test, the others do not. *)
Lemma x32_test d :
  sd_wf d → sd_arch d = AUDIT_ARCH_X86_64 →
  (X32_SYSCALL_BIT <=? lo32 (sd_nr d)) = negb (native d) ∧
  (native d = true → lo32 (sd_nr d) = sd_nr d).
Proof.
  intros Hwf Ha. rw lo32_nr // /native Ha Z.eqb_refl /=. destruct Hwf as [H _].
  rw /in_int /INT_MIN /INT_MAX in H. rw /X32_SYSCALL_BIT.
  destruct (Z.leb_spec 0 (sd_nr d)) as [H0|H0]; simpl.
  - split; [|done]. destruct (Z.ltb_spec (sd_nr d) 1073741824);
      destruct (Z.leb_spec 1073741824 (sd_nr d)); try done; lia.
  - split; [|done]. apply Z.leb_le. lia.
Qed.

(** The shared prefix kills foreign calls and leaves the number in the accumulator. *)
Lemma run_check_arch rest d :
  sd_wf d →
  bpf_run (check_arch_and_load_nr ++ rest) 0 0 d =
  if native d then bpf_run rest 0 (sd_nr d) d else Some SECCOMP_RET_KILL_PROCESS.
Proof.
  intros Hwf. cbn -[sd_load Z.leb Z.eqb AUDIT_ARCH_X86_64 X32_SYSCALL_BIT OFF_arch OFF_nr native].
  rw !Z.eqb_refl. change (BPF_LD_W_ABS =? BPF_RET_K) with false.
  cbn -[sd_load Z.leb Z.eqb AUDIT_ARCH_X86_64 X32_SYSCALL_BIT OFF_arch OFF_nr native].
  rw sd_load_arch lo32_arch //.
  destruct (Z.eqb_spec (sd_arch d) AUDIT_ARCH_X86_64) as [Ha|Ha].
  - destruct (x32_test d Hwf Ha) as [Hx Hn].
    cbn -[sd_load Z.leb X32_SYSCALL_BIT OFF_arch OFF_nr native].
    rw sd_load_nr Hx. destruct (native d); [|done]. cbn. by rw Hn.
  - cbn -[sd_load Z.leb X32_SYSCALL_BIT OFF_arch OFF_nr native].
    rw /native. by destruct (Z.eqb_spec (sd_arch d) AUDIT_ARCH_X86_64).
Qed.

(** Evaluate a straight-line stretch of a filter whose tests are already known. *)
Ltac bpf_eval := cbn -[Z.land Z.lor native arg flag].

Ltac bpf_start Hwf :=
  rw /decide_call run_check_arch //; destruct (native _); [|reflexivity]; bpf_eval.

(** What the filter of seccomp_control_open.c decides. *)
Lemma control_open_decides (d : seccomp_data) :
  sd_wf d →
  decide_call control_open_filter d = Some
    (if native d then
       if sd_nr d =? NR_open then open_policy (lo32 (arg d 1))
       else if sd_nr d =? NR_openat then open_policy (lo32 (arg d 2))
       else Allow
     else KillProcess).
Proof.
  intros Hwf. rw /open_policy. destruct (sd_load_arg d 1 Hwf) as [H1 _]; [lia|].
  destruct (sd_load_arg d 2 Hwf) as [H2 _]; [lia|].
  bpf_start Hwf. rw /NR_open /NR_openat.
  destruct (sd_nr d =? 2); [|destruct (sd_nr d =? 257)]; bpf_eval; try done.
  - change 24 with (OFF_arg (Z.of_nat 1)). rw H1.
    repeat case_match; try done.
  - change 32 with (OFF_arg (Z.of_nat 2)). rw H2. repeat case_match; try done.
Qed.

(** C9: seccomp_control_open.c: of native calls, only open and openat are examined; creating a
    file kills the process, opening for writing fails with ENOTSUP, and every
    other call is allowed. *)
Theorem control_open_policy (d : seccomp_data) :
  sd_wf d →
  decide_call control_open_filter d = Some
    (if native d then
       if sd_nr d =? NR_open then open_policy (lo32 (arg d 1))
       else if sd_nr d =? NR_openat then open_policy (lo32 (arg d 2))
       else Allow
     else KillProcess).
Proof. apply control_open_decides. Qed.

(** seccomp_arg64.c: of native calls, lseek is judged by its full 64-bit offset: up to
    1000 it is allowed, up to 32 bits it fails with errno 1, beyond with errno 2. *)
Lemma arg64_policy (d : seccomp_data) :
  sd_wf d →
  decide_call arg64_filter d = Some
    (if native d then
       if negb (sd_nr d =? NR_lseek) || (arg d 1 <=? 1000) then Allow
       else if arg d 1 <? 2 ^ 32 then Errno 1 else Errno 2
     else KillProcess).
Proof.
  intros Hwf. destruct (sd_load_arg d 1 Hwf) as [H1 H2]; [lia|].
  assert (0 ≤ arg d 1 < 2 ^ 64) as Ha.
  { destruct Hwf as (_ & _ & _ & Hl & Hf). rw /arg.
    destruct (lookup_lt_is_Some_2 (sd_args d) 1) as [x Hx]; [lia|]. rw Hx /=.
    exact (Forall_lookup_1 _ _ _ _ Hf Hx). }
  assert (hi32 (arg d 1) = arg d 1 / 2 ^ 32) as Hhi.
  { rw /hi32 Z.mod_small //. split; [apply Z.div_pos; lia|].
    apply Z.div_lt_upper_bound; lia. }
  bpf_start Hwf. rw /NR_lseek. destruct (sd_nr d =? 8); bpf_eval; [|done].
  change 28 with (OFF_arg (Z.of_nat 1) + 4). rw H2 Hhi.
  destruct (Z.ltb_spec (arg d 1) (2 ^ 32)) as [Hs|Hs].
  - rw Z.div_small; [lia|]. bpf_eval. change 24 with (OFF_arg (Z.of_nat 1)).
    rw H1 /lo32 Z.mod_small; [lia|].
    destruct (Z.leb_spec (arg d 1) 1000), (Z.ltb_spec 1000 (arg d 1)); try lia; done.
  - destruct (Z.leb_spec (arg d 1) 1000); [lia|].
    destruct (Z.eqb_spec (arg d 1 / 2 ^ 32) 0) as [E|E]; [|done].
    apply Z.div_small_iff in E; lia.
Qed.

(** seccomp_multiarch.c: on each of the three Intel ABIs mq_notify fails with that ABI's
    call number as errno, every other call of x86-64, x32 and i386 is allowed,
    and calls of other architectures kill the process. *)
Lemma multiarch_policy (d : seccomp_data) :
  sd_wf d →
  decide_call multiarch_filter d = Some
    (if sd_arch d =? AUDIT_ARCH_X86_64 then
       if sd_nr d =? NR_mq_notify_x86_64 then Errno NR_mq_notify_x86_64
       else if sd_nr d =? NR_mq_notify_x32 + X32_SYSCALL_BIT then Errno NR_mq_notify_x32
       else Allow
     else if sd_arch d =? AUDIT_ARCH_I386 then
       if sd_nr d =? NR_mq_notify_i386 then Errno NR_mq_notify_i386 else Allow
     else KillProcess).
Proof.
  intros Hwf. pose proof (lo32_nr d Hwf) as Hn. pose proof (lo32_arch d Hwf) as Ha.
  assert (∀ k, 0 ≤ k < 2 ^ 31 → (lo32 (sd_nr d) =? k) = (sd_nr d =? k)) as Heq.
  { intros k Hk. rw Hn. destruct Hwf as [Hr _]. rw /in_int /INT_MIN /INT_MAX in Hr.
    destruct (Z.leb_spec 0 (sd_nr d)); [done|].
    destruct (Z.eqb_spec (sd_nr d + 2 ^ 32) k), (Z.eqb_spec (sd_nr d) k); try done; lia. }
  rw /decide_call. bpf_eval. rw sd_load_arch sd_load_nr Ha.
  destruct (sd_arch d =? AUDIT_ARCH_X86_64).
  - rw !Heq; try done. by destruct (_ =? _); [|destruct (_ =? _)].
  - destruct (sd_arch d =? AUDIT_ARCH_I386); [|done]. rw Heq //. by destruct (_ =? _).
Qed.

(** The smaller filters: deny_open and perf kill a native open (and openat), logging logs
    every native call, trap_sigsys traps getppid; all of them end foreign
    calls, trap_sigsys by killing only the calling thread when the
    architecture is wrong. *)
Lemma simple_filter_policies (d : seccomp_data) :
  sd_wf d →
  decide_call deny_open_filter d = Some
    (if native d && negb ((sd_nr d =? NR_open) || (sd_nr d =? NR_openat))
     then Allow else KillProcess) ∧
  decide_call perf_filter d = Some
    (if native d && negb (sd_nr d =? NR_open) then Allow else KillProcess) ∧
  decide_call logging_filter d = Some (if native d then Log else KillProcess) ∧
  decide_call trap_sigsys_filter d = Some
    (if native d then if sd_nr d =? NR_getppid then Trap else Allow
     else if sd_arch d =? AUDIT_ARCH_X86_64 then KillProcess else KillThread).
Proof.
  intros Hwf. split_and!; [|by bpf_start Hwf; rw /NR_open; destruct (sd_nr d =? 2)
                          |by bpf_start Hwf|].
  all: rw /decide_call; bpf_eval; rw sd_load_arch sd_load_nr (lo32_arch d Hwf);
    destruct (Z.eqb_spec (sd_arch d) AUDIT_ARCH_X86_64) as [Ha|Ha];
    [|by rw /native; destruct (Z.eqb_spec (sd_arch d) AUDIT_ARCH_X86_64)];
    destruct (x32_test d Hwf Ha) as [Hx Hnr]; rw Hx; destruct (native d); [|done]; rw Hnr //.
  - by destruct (sd_nr d =? NR_open), (sd_nr d =? NR_openat).
  - by destruct (sd_nr d =? NR_getppid).
Qed.

(** ** Every filter decides every call *)

Definition bpf_check_insn (i : sock_filter) (after : nat) : bool :=
  if i_code i =? BPF_RET_K then true
  else if i_code i =? BPF_LD_W_ABS then
    (i_k i mod 4 =? 0) && (0 <=? i_k i) && (i_k i <? 64) && (0 <? after)%nat
  else if i_code i =? BPF_JMP_JA then (Z.to_nat (i_k i) <? after)%nat
  else if existsb (Z.eqb (i_code i)) [BPF_JMP_JEQ_K; BPF_JMP_JGT_K; BPF_JMP_JGE_K; BPF_JMP_JSET_K]
  then (i_jt i <? after)%nat && (i_jf i <? after)%nat
  else false.

Fixpoint bpf_check (prog : list sock_filter) : bool :=
  match prog with
  | [] => true
  | i :: rest => bpf_check_insn i (length rest) && bpf_check rest
  end.

Lemma length_sd_words d : sd_wf d → length (sd_words d) = 16%nat.
Proof.
  intros (_ & _ & _ & Hl & _). rw /sd_words.
  by destruct (sd_args d) as [|a0 [|a1 [|a2 [|a3 [|a4 [|a5 [|? ?]]]]]]].
Qed.

Lemma sd_load_checked d k :
  sd_wf d → k mod 4 = 0 → 0 ≤ k → k < 64 → ∃ w, sd_load d k = Some w.
Proof.
  intros Hwf Hm H0 Hk. rw /sd_load Hm /=. destruct (Z.leb_spec 0 k); [|lia].
  apply lookup_lt_is_Some_2. rw length_sd_words //. assert (k / 4 < 16) by (apply Z.div_lt_upper_bound; lia). lia.
Qed.

Lemma bpf_check_total prog skip A d :
  sd_wf d → bpf_check prog = true → (skip < length prog)%nat →
  ∃ r, bpf_run prog skip A d = Some r.
Proof.
  intros Hwf. elim: prog skip A => [|i rest IH] skip A Hc Hs; [simpl in Hs; lia|].
  simpl in Hc, Hs. apply andb_prop in Hc as [Hi Hc]. destruct skip as [|s]; simpl; [|apply IH; [done|lia]].
  rw /bpf_check_insn in Hi. destruct (i_code i =? BPF_RET_K); [by eexists|].
  destruct (i_code i =? BPF_LD_W_ABS).
  { apply andb_prop in Hi as [[[H1 H2]%andb_prop H3]%andb_prop H4].
    destruct (sd_load_checked d (i_k i)) as [w ->]; [done|lia..|]. apply IH; [done|].
    by apply Nat.ltb_lt. }
  destruct (i_code i =? BPF_JMP_JA); [apply IH; [done|by apply Nat.ltb_lt]|].
  simpl in Hi. rw !orb_false_r in Hi.
  assert (∀ b : bool, (i_jt i <? length rest)%nat && (i_jf i <? length rest)%nat = true →
    ∃ r, bpf_run rest (if b then i_jt i else i_jf i) A d = Some r) as Hbr.
  { intros b [H1 H2]%andb_prop. apply IH; [done|]. destruct b; by apply Nat.ltb_lt. }
  destruct (i_code i =? BPF_JMP_JEQ_K); [by apply Hbr|].
  destruct (i_code i =? BPF_JMP_JGT_K); [by apply Hbr|].
  destruct (i_code i =? BPF_JMP_JGE_K); [by apply Hbr|].
  destruct (i_code i =? BPF_JMP_JSET_K); [by apply Hbr|done].
Qed.

Definition all_filters : list (list sock_filter) :=
  [deny_open_filter; control_open_filter; arg64_filter; multiarch_filter; perf_filter;
   logging_filter; trap_sigsys_filter; notify_filter; filter2 SECCOMP_RET_ERRNO;
   filter2 SECCOMP_RET_TRACE].

(** Every filter of the programs is well formed (jumps stay inside it, loads
    stay inside the call data, it ends in a return), so it decides every call. *)
Lemma filters_total (p : list sock_filter) (d : seccomp_data) :
  p ∈ all_filters → sd_wf d → bpf_check p = true ∧ ∃ a, decide_call p d = Some a.
Proof.
  intros Hp Hwf. assert (bpf_check p = true ∧ (0 < length p)%nat) as [Hc Hl].
  { rw /all_filters !elem_of_cons elem_of_nil in Hp.
    repeat destruct Hp as [->|Hp]; [split; [reflexivity|vm_compute; lia]..|done]. }
  split; [done|]. rw /decide_call. destruct (bpf_check_total p 0 0 d) as [r ->]; eauto.
Qed.

(** Two filters together in seccomp_unotify_mkdir.c: a native mkdir fails with ENOTSUP
    under -f e, before any notification, and is notified under -f t; other
    native calls are allowed, foreign ones kill the process. *)
Lemma second_filter_precedence (d : seccomp_data) :
  sd_wf d →
  combine [notify_filter; filter2 SECCOMP_RET_ERRNO] d = Some
    (if native d then if sd_nr d =? NR_mkdir then Errno ENOTSUP else Allow else KillProcess) ∧
  combine [notify_filter; filter2 SECCOMP_RET_TRACE] d = Some
    (if native d then if sd_nr d =? NR_mkdir then UserNotif else Allow else KillProcess).
Proof.
  intros Hwf. rw /combine !filter2_eq. cbn [foldr].
  split; rw !run_check_arch //; (destruct (native d); [|reflexivity]); bpf_eval;
    rw /NR_mkdir; by destruct (sd_nr d =? 83).
Qed.

(** ** The policies at a concrete call *)

Definition call (arch nr a1 a2 : Z) : seccomp_data := SData nr arch 0 [0; a1; a2; 0; 0; 0].

Lemma call_wf arch nr a1 a2 :
  (0 ≤ arch < 2 ^ 32) → in_int nr → (0 ≤ a1 < 2 ^ 64) → (0 ≤ a2 < 2 ^ 64) →
  sd_wf (call arch nr a1 a2).
Proof.
  intros. rw /sd_wf /call /=. split_and!; try done; try lia.
  repeat (apply Forall_cons; split; [lia|]). by apply Forall_nil.
Qed.

(** open(path, O_RDWR) *)
Definition call_open : seccomp_data := call AUDIT_ARCH_X86_64 NR_open O_RDWR 0.
(** lseek(fd, 2^32 + 1, ...) *)
Definition call_lseek : seccomp_data := call AUDIT_ARCH_X86_64 NR_lseek 0x100000001 0.

Ltac call_wf := apply call_wf; vm_compute; split; congruence.

Lemma control_open_policy_witness :
  decide_call control_open_filter call_open = Some (Errno ENOTSUP).
Proof. apply (control_open_policy call_open). call_wf. Defined.

Lemma arg64_policy_witness : decide_call arg64_filter call_lseek = Some (Errno 2).
Proof. apply (arg64_policy call_lseek). call_wf. Defined.

Lemma multiarch_policy_witness :
  decide_call multiarch_filter (call AUDIT_ARCH_I386 281 0 0) = Some (Errno 281).
Proof. apply (multiarch_policy (call AUDIT_ARCH_I386 281 0 0)). call_wf. Defined.

Lemma simple_filter_policies_witness :
  decide_call deny_open_filter call_open = Some KillProcess ∧
  decide_call perf_filter call_open = Some KillProcess ∧
  decide_call logging_filter call_open = Some Log ∧
  decide_call trap_sigsys_filter call_open = Some Allow.
Proof. apply (simple_filter_policies call_open). call_wf. Defined.

Lemma filters_total_witness :
  bpf_check arg64_filter = true ∧ ∃ a, decide_call arg64_filter call_lseek = Some a.
Proof.
  apply (filters_total arg64_filter call_lseek); [|call_wf].
  right; right; left.
Defined.

Lemma second_filter_precedence_witness :
  combine [notify_filter; filter2 SECCOMP_RET_ERRNO] (call AUDIT_ARCH_X86_64 NR_mkdir 0 0) =
    Some (Errno ENOTSUP) ∧
  combine [notify_filter; filter2 SECCOMP_RET_TRACE] (call AUDIT_ARCH_X86_64 NR_mkdir 0 0) =
    Some UserNotif.
Proof. apply (second_filter_precedence (call AUDIT_ARCH_X86_64 NR_mkdir 0 0)). call_wf. Defined.
