(* ===== verification/FilterFiles.v ===== *)
(** * Saving and loading filters: [seccomp/dump_seccomp_filter.c] and
      [seccomp/seccomp_launch.c]

    The two programs exchange a filter through a file of 8-byte [sock_filter]
    structures.  Their system calls are the operations of [FilterOS]; a
    result [inl e] is a return of -1 with [errno] [e]. *)

From S2P Require Import Prelude CStdlib Seccomp.

(** ** The layout of [struct sock_filter] *)

Definition SOCK_FILTER_SIZE : nat := 8.

Definition encode_insn (i : sock_filter) : list ascii :=
  [Z_byte (i_code i); Z_byte (i_code i / 256); Z_byte (Z.of_nat (i_jt i));
   Z_byte (Z.of_nat (i_jf i))] ++ put_le32 (i_k i).

Definition decode_insn (b : list ascii) : sock_filter :=
  match b with
  | c0 :: c1 :: t :: f :: r =>
      Insn (byte_Z c0 + 256 * byte_Z c1) (Z.to_nat (byte_Z t)) (Z.to_nat (byte_Z f)) (le32 r)
  | _ => Insn 0 0 0 0
  end.

Definition encode_prog (p : list sock_filter) : list ascii := concat (encode_insn <$> p).

(** Reading a byte buffer as an array of [n] structures. *)
Fixpoint decode_prog (n : nat) (b : list ascii) : list sock_filter :=
  match n with
  | O => []
  | S m => decode_insn b :: decode_prog m (drop SOCK_FILTER_SIZE b)
  end.

Definition insn_ok (i : sock_filter) : Prop :=
  (0 ≤ i_code i < 2 ^ 16) ∧ (Z.of_nat (i_jt i) < 256) ∧ (Z.of_nat (i_jf i) < 256) ∧
  (0 ≤ i_k i < 2 ^ 32).

Class FilterOS (K : Type) := {
  fo_attach : Z → K → res unit * K;
  fo_waitpid : Z → K → res unit * K;
  fo_filter_len : Z → Z → K → res Z * K;
  fo_filter_get : Z → Z → K → res (list sock_filter) * K;
  fo_alloc : Z → K → bool * K;
  fo_open : cstring → bool → K → res Z * K;
  fo_write : Z → list ascii → K → res Z * K;
  fo_fstat : Z → K → res Z * K;
  fo_read : Z → Z → K → res (list ascii) * K;
  fo_close : Z → K → res unit * K;
  fo_prctl : K → res unit * K;
  fo_seccomp : list sock_filter → K → res Z * K;
  fo_execvp : list cstring → K → res unit * K;
  fo_strerror : Z → cstring;
}.

(** [noNewPrivsAlreadySet] is the static variable of [loadFilter]. *)
Record fstate (K : Type) := FState {
  noNewPrivsAlreadySet : bool;
  f_err : cstring;
  f_os : K;
}.
Arguments FState {K} _ _ _.
Arguments noNewPrivsAlreadySet {K} _.
Arguments f_err {K} _.
Arguments f_os {K} _.

Section filter_files.
Context {K : Type} `{!FilterOS K}.
Abbreviation F := (M (fstate K)).

Definition fsys {A} (f : K → A * K) : F A := λ s,
  let '(a, k) := f (f_os s) in (Ret a, FState (noNewPrivsAlreadySet s) (f_err s) k).

Definition fprintf_err (t : cstring) : F unit :=
  modify (λ s, FState (noNewPrivsAlreadySet s) (f_err s ++ t) (f_os s)).

(** The macro [errExit]: [perror], then [exit]. *)
Definition errExit {A} (msg : cstring) (errno : Z) : F A :=
  fprintf_err (msg ++ cs ": " ++ fo_strerror errno ++ [NL]) ;; exit EXIT_FAILURE.

(** [if (call == -1) errExit(msg)], yielding the call's value. *)
Definition checked {A} (msg : string) (f : K → res A * K) : F A :=
  r ← fsys f ;
  match r with
  | inl e => errExit (cs msg) e
  | inr v => mret v
  end.

Definition fetchFilter (pid filterIndex : Z) : F (list sock_filter * Z) :=
  checked "ptrace - PTRACE_ATTACH" (fo_attach pid) ;;
  checked "waitpid" (fo_waitpid pid) ;;
  icnt ← fsys (fo_filter_len pid filterIndex) ;
  match icnt with
  | inl e =>
      if e =? ENOENT then
        fprintf_err (cs "No BPF program exists at index " ++ fmt_d filterIndex ++ [NL]) ;;
        exit EXIT_FAILURE
      else if e =? EACCES then
        fprintf_err (cs "You lack the CAP_SYS_ADMIN capability; run this program as root" ++ [NL]) ;;
        exit EXIT_FAILURE
      else errExit (cs "ptrace - PTRACE_SECCOMP_GET_FILTER-1") e
  | inr icnt =>
      ok ← fsys (fo_alloc (icnt * 8)) ;
      if negb ok then errExit (cs "calloc") ENOMEM else
      filterProg ← checked "ptrace - PTRACE_SECCOMP_GET_FILTER-2" (fo_filter_get pid filterIndex) ;
      mret (filterProg, Z.of_nat (length filterProg))
  end.

Definition dumpFilter (pathname : cstring) (filterProg : list sock_filter) (instrCnt : Z) : F unit :=
  fd ← checked "open" (fo_open pathname true) ;
  checked "write" (fo_write fd (encode_prog (take (Z.to_nat instrCnt) filterProg))) ;;
  checked "close" (fo_close fd) ;;
  fprintf_err (cs "Dumped " ++ fmt_d instrCnt ++ cs " BPF instructions" ++ [NL]).

(** [main] of the dumping program; without a file name [open] is
    given a null pointer and fails with [EFAULT], number 14. *)
Definition dump_main (argv : list cstring) : F unit :=
  match argv with
  | pname :: a1 :: rest =>
      if bool_decide (a1 = cs "--help") then
        fprintf_err (pname ++ cs " PID dump-file [filter-index]" ++ [NL]) ;; exit EXIT_FAILURE
      else
        let filterIndex := match rest with _ :: a3 :: _ => atoi a3 | _ => 0 end in
        '(filterProg, instrCnt) ← fetchFilter (atoi a1) filterIndex ;
        match rest with
        | path :: _ => dumpFilter path filterProg instrCnt ;; exit EXIT_SUCCESS
        | [] => errExit (cs "open") 14
        end
  | _ => fprintf_err (default [] (head argv) ++ cs " PID dump-file [filter-index]" ++ [NL]) ;;
         exit EXIT_FAILURE
  end.

Definition loadFilter (filterPathname : cstring) : F unit :=
  nnp ← gets noNewPrivsAlreadySet ;
  when (negb nnp)
    (checked "prctl" fo_prctl ;; modify (λ s, FState true (f_err s) (f_os s))) ;;
  fd ← checked "open" (fo_open filterPathname false) ;
  size ← checked "fstat" (fo_fstat fd) ;
  let filterSize := to_int size in
  if negb (wrapU 64 filterSize mod 8 =? 0) then
    fprintf_err (cs "Filter has odd size" ++ [NL]) ;; exit EXIT_FAILURE
  else
  ok ← fsys (fo_alloc (wrapU 64 filterSize)) ;
  if negb ok then errExit (cs "malloc") ENOMEM else
  r ← fsys (fo_read fd (wrapU 64 filterSize)) ;
  let numRead := match r with inl _ => -1 | inr d => Z.of_nat (length d) end in
  if negb (numRead =? filterSize) then
    fprintf_err (cs "Failure reading filter" ++ [NL]) ;; exit EXIT_FAILURE
  else
  checked "close" (fo_close fd) ;;
  let len := wrapU 16 (wrapU 64 filterSize / 8) in
  checked "seccomp" (fo_seccomp
    (decode_prog (Z.to_nat len) (match r with inr d => d | inl _ => [] end))) ;;
  mret tt.

Definition launch_usageError {A} (pname msg : cstring) : F A :=
  fprintf_err msg ;;
  fprintf_err (cs "Usage: " ++ pname ++ cs " [-f filter] prog arg..." ++ [NL]) ;;
  exit EXIT_FAILURE.

(** [main] of the launcher: [opts] is what [getopt] returns, [None] for an
    option it rejects, and [args] what is left after the options. *)
Definition launch_main (pname : cstring) (argv1 : cstring) (opts : list (option cstring))
    (args : list cstring) : F unit :=
  for_each opts (λ o,
    match o with
    | Some f => loadFilter f
    | None => launch_usageError pname (cs "Bad option" ++ [NL])
    end) ;;
  if bool_decide (args = []) || bool_decide (argv1 = cs "--help") then
    launch_usageError pname (cs "No program specified" ++ [NL])
  else
  checked "execve" (fo_execvp args).

(** ** Round trip *)

Lemma decode_encode_insn i r :
  insn_ok i → decode_insn (encode_insn i ++ r) = i.
Proof.
  destruct i as [c t f k]. intros (Hc & Ht & Hf & Hk). cbn [i_code i_jt i_jf i_k] in *.
  rw /encode_insn -app_assoc. cbn [i_code i_jt i_jf i_k app decode_insn].
  rw !byte_Z_byte le32_put //. pose proof (Z.div_mod c 256).
  assert (c / 256 < 256) by (apply Z.div_lt_upper_bound; lia).
  assert (0 ≤ c / 256) by (apply Z.div_pos; lia).
  rw (Z.mod_small (c / 256)); [lia|]. rw !(Z.mod_small (Z.of_nat _)); [lia..|].
  f_equal; lia.
Qed.

Lemma decode_encode_prog p n :
  Forall insn_ok p → (n ≤ length p)%nat → decode_prog n (encode_prog p) = take n p.
Proof.
  intros Hp. elim: n p Hp => [//|n IH] p Hp Hn. destruct p as [|i p]; [simpl in Hn; lia|].
  apply Forall_cons in Hp as [Hi Hp]. cbn [decode_prog take].
  change (encode_prog (i :: p)) with (encode_insn i ++ encode_prog p).
  rw decode_encode_insn // drop_app_length'; [done|]. rw IH //. simpl in Hn. lia.
Qed.

Lemma length_encode_prog p : length (encode_prog p) = (8 * length p)%nat.
Proof.
  elim: p => [//|i p IH]. change (encode_prog (i :: p)) with (encode_insn i ++ encode_prog p).
  rw length_app IH. simpl. lia.
Qed.

Lemma fchecked_ok {A} msg (f : K → res A * K) s v k :
  f (f_os s) = (inr v, k) →
  checked msg f s = (Ret v, FState (noNewPrivsAlreadySet s) (f_err s) k).
Proof. intros H. by rw /checked /mbind /M_bind /fsys H. Qed.

(** Loading a file that holds a dumped filter installs that filter; beyond
    65535 instructions the 16-bit length field wraps and only the wrapped
    count of instructions is installed. *)
Lemma load_dumped_filter path fd n e k k1 k2 k3 k4 k5 k6 p :
  Forall insn_ok p → 8 * Z.of_nat (length p) ≤ INT_MAX →
  fo_open path false k = (inr fd, k1) →
  fo_fstat fd k1 = (inr (8 * Z.of_nat (length p)), k2) →
  fo_alloc (8 * Z.of_nat (length p)) k2 = (true, k3) →
  fo_read fd (8 * Z.of_nat (length p)) k3 = (inr (encode_prog p), k4) →
  fo_close fd k4 = (inr tt, k5) →
  fo_seccomp (take (Z.to_nat (wrapU 16 (Z.of_nat (length p)))) p) k5 = (inr n, k6) →
  loadFilter path (FState true e k) = (Ret tt, FState true e k6).
Proof.
  intros Hp Hmax Hopen Hstat Halloc Hread Hclose Hsec. rw /INT_MAX in Hmax.
  rw /loadFilter (bind_Ret (gets _) _ _ _ _ eq_refl) /=.
  rw (bind_Ret (mret tt) _ _ _ _ eq_refl).
  rw (bind_Ret _ _ _ _ _ (fchecked_ok _ _ (FState true e k) _ _ Hopen)).
  rw (bind_Ret _ _ _ _ _ (fchecked_ok _ _ (FState true e k1) _ _ Hstat)).
  rw to_int_id; [rw /in_int /INT_MIN /INT_MAX; lia|].
  assert (wrapU 64 (8 * Z.of_nat (length p)) = 8 * Z.of_nat (length p)) as ->
    by (rw /wrapU Z.mod_small; lia).
  rw {1}(Z.mul_comm 8) Z.mod_mul //=.
  assert (8 * Z.of_nat (length p) / 8 = Z.of_nat (length p)) as ->
    by (by rw (Z.mul_comm 8) Z.div_mul).
  rw (bind_Ret (fsys _) _ _ true (FState true e k3)); [by rw /fsys /= Halloc|]. simpl.
  rw (bind_Ret (fsys _) _ _ (inr (encode_prog p)) (FState true e k4)); [by rw /fsys /= Hread|].
  rw length_encode_prog Nat2Z.inj_mul Z.eqb_refl /=.
  rw (bind_Ret _ _ _ _ _ (fchecked_ok _ _ (FState true e k4) _ _ Hclose)).
  assert (0 ≤ wrapU 16 (Z.of_nat (length p)) ≤ Z.of_nat (length p)).
  { rw /wrapU. pose proof (Z.mod_pos_bound (Z.of_nat (length p)) (2 ^ 16)).
    pose proof (Z.mod_le (Z.of_nat (length p)) (2 ^ 16)). lia. }
  rw decode_encode_prog //; [lia|].
  by rw (bind_Ret _ _ _ _ _ (fchecked_ok _ _ (FState true e k5) _ _ Hsec)).
Qed.
End filter_files.

(** ** A concrete kernel: one file, and the last filter installed *)

Record fsim := FSim { fs_file : list ascii; fs_installed : list sock_filter }.

#[export] Instance fsim_os : FilterOS fsim := {|
  fo_attach _ k := (inr tt, k);
  fo_waitpid _ k := (inr tt, k);
  fo_filter_len _ _ k := (inr (Z.of_nat (length (fs_installed k))), k);
  fo_filter_get _ _ k := (inr (fs_installed k), k);
  fo_alloc _ k := (true, k);
  fo_open _ w k := (inr 3, if w then FSim [] (fs_installed k) else k);
  fo_write _ d k := (inr (Z.of_nat (length d)), FSim (fs_file k ++ d) (fs_installed k));
  fo_fstat _ k := (inr (Z.of_nat (length (fs_file k))), k);
  fo_read _ n k := (inr (take (Z.to_nat n) (fs_file k)), k);
  fo_close _ k := (inr tt, k);
  fo_prctl k := (inr tt, k);
  fo_seccomp p k := (inr 0, FSim (fs_file k) p);
  fo_execvp _ k := (inl ENOENT, k);
  fo_strerror _ := cs "error";
|}.

(** What dumping [control_open_filter] leaves. *)
Definition fsim_dumped : fsim :=
  f_os (dump_main [cs "dump"; cs "42"; cs "f"] (FState false [] (FSim [] control_open_filter))).2.

(** The same file, nothing installed; and after loading it. *)
Definition fsim_before : fsim := FSim (fs_file fsim_dumped) [].
Definition fsim_after : fsim := FSim (fs_file fsim_dumped) control_open_filter.

Lemma control_open_filter_ok : Forall insn_ok control_open_filter.
Proof.
  repeat (apply Forall_cons; split; [rw /insn_ok; vm_compute; intuition congruence|]).
  by apply Forall_nil.
Qed.

Lemma load_dumped_filter_witness :
  loadFilter (cs "f") (FState true [] fsim_before) = (Ret tt, FState true [] fsim_after).
Proof.
  apply (load_dumped_filter (cs "f") 3 0 [] fsim_before fsim_before fsim_before fsim_before
    fsim_before fsim_before fsim_after control_open_filter).
  - exact control_open_filter_ok.
  - vm_compute. congruence.
  - reflexivity.
  - vm_compute. reflexivity.
  - reflexivity.
  - vm_compute. reflexivity.
  - reflexivity.
  - vm_compute. reflexivity.
Defined.
