(* ===== verification/Unotify.v ===== *)
(** * A seccomp supervisor: [seccomp/seccomp_unotify_mkdir.c]

    The target process installs a filter that turns its [mkdir] calls into
    notifications; the supervisor reads the pathname from the target's memory
    and answers each notification.  System calls are the operations of the
    class [NotifyOS]; the pathname buffer, which survives from one
    notification to the next, is passed explicitly. *)

From S2P Require Import Prelude CStdlib Process Seccomp.

Record seccomp_notif := Notif { n_id : Z; n_pid : Z; n_data : seccomp_data }.
Record seccomp_notif_resp := Resp { r_id : Z; r_val : Z; r_error : Z; r_flags : Z }.
Record cmdLineOpts := Opts { delaySecs : Z; secondFilter : Z }.

Definition SECCOMP_USER_NOTIF_FLAG_CONTINUE : Z := 1.
Definition EOPNOTSUPP : Z := 95.
(** [sizeof(struct seccomp_notif_resp)]. *)
Definition RESP_SIZE : Z := 24.

Class NotifyOS (K : Type) := {
  uo_fork : K → res Z * K;
  uo_getpid : K → Z;
  uo_sigaction : K → res unit * K;
  uo_prctl : K → res unit * K;
  uo_seccomp_listen : list sock_filter → K → res Z * K;
  uo_seccomp : list sock_filter → K → res Z * K;
  uo_socketpair : K → res (Z * Z) * K;
  uo_sendfd : Z → Z → K → res unit * K;
  uo_recvfd : Z → K → res Z * K;
  uo_close : Z → K → res unit * K;
  uo_notif_sizes : K → res (Z * Z) * K;
  uo_malloc : Z → K → bool * K;
  uo_recv : Z → K → res seccomp_notif * K;
  uo_id_valid : Z → Z → K → bool * K;
  uo_send : Z → seccomp_notif_resp → K → res unit * K;
  uo_sleep : K → K;
  uo_open : cstring → K → res Z * K;
  uo_pread : Z → nat → Z → K → res (list ascii) * K;
  uo_mkdir : cstring → Z → K → res Z * K;
  uo_stack : K → list ascii;
  uo_strerror : Z → cstring;
}.

Section unotify.
Context {K : Type} `{!NotifyOS K}.
Abbreviation U := (M (proc K)).

#[local] Instance notify_strerror : Strerror K := uo_strerror.

(** ** Target *)

Definition installNotifyFilter : U Z :=
  checked "seccomp-install-notify-filter" (uo_seccomp_listen notify_filter).

Definition installFilter2 (opts : cmdLineOpts) : U unit :=
  checked "seccomp-install-filter-2" (uo_seccomp (filter2 (secondFilter opts))) ;; mret tt.

Definition closeSocketPair (sockPair : Z * Z) : U unit :=
  checked "closeSocketPair-close-0" (uo_close sockPair.1) ;;
  checked "closeSocketPair-close-1" (uo_close sockPair.2).

Definition targetMkdir (ap : cstring) : U unit :=
  printf ([NL] ++ cs "T: about to mkdir(" ++ [Ascii.ascii_of_nat 34] ++ ap ++
          [Ascii.ascii_of_nat 34] ++ cs ")" ++ [NL]) ;;
  s ← psys (uo_mkdir ap 448) ;
  match s with
  | inl e => perror (cs "T: ERROR: mkdir(2)") e
  | inr v => printf (cs "T: SUCCESS: mkdir(2) returned " ++ fmt_d v ++ [NL])
  end.

Definition targetProcess (sockPair : Z * Z) (argv : list cstring) (opts : cmdLineOpts) : U Z :=
  targetPid ← checked "fork" uo_fork ;
  if 0 <? targetPid then mret targetPid else
  pid ← gets (uo_getpid ∘ p_os) ;
  printf (cs "T: PID = " ++ fmt_d pid ++ [NL]) ;;
  checked "sigaction" uo_sigaction ;;
  checked "prctl" uo_prctl ;;
  notifyFd ← installNotifyFilter ;
  when (negb (secondFilter opts =? -1)) (installFilter2 opts) ;;
  checked "sendfd" (uo_sendfd sockPair.1 notifyFd) ;;
  checked "close-target-notify-fd" (uo_close notifyFd) ;;
  closeSocketPair sockPair ;;
  for_each argv targetMkdir ;;
  printf ([NL] ++ cs "T: terminating" ++ [NL]) ;;
  exit EXIT_SUCCESS.

(** ** Supervisor *)

Definition checkNotificationIdIsValid (notifyFd id : Z) (tag : string) : U unit :=
  ok ← psys (uo_id_valid notifyFd id) ;
  if negb ok then
    eprintf (cs "	S: notification ID check (" ++ cs tag ++ cs "): target has terminated!!!" ++ [NL]) ;;
    exit EXIT_FAILURE
  else mret tt.

Definition getTargetPathname (req : seccomp_notif) (notifyFd : Z) (path : list ascii) (len : nat) :
    U (bool * list ascii) :=
  let procMemPath := snprintf PATH_MAX (cs "/proc/" ++ fmt_d (n_pid req) ++ cs "/mem") in
  procMemFd ← checked "Supervisor: open" (uo_open procMemPath) ;
  checkNotificationIdIsValid notifyFd (n_id req) "post-open" ;;
  data ← checked "Supervisor: pread" (uo_pread procMemFd len (arg (n_data req) 0)) ;
  if bool_decide (data = []) then
    eprintf (cs "	S: pread() of /proc/PID/mem returned 0 (EOF)" ++ [NL]) ;;
    exit EXIT_FAILURE
  else
  let path' := store path 0 data in
  checked "Supervisor: close-/proc/PID/mem" (uo_close procMemFd) ;;
  mret (bool_decide (NUL ∈ take (length data) path'), path').

Fixpoint countdown (d : nat) : U unit :=
  match d with
  | O => mret tt
  | S d' => printf (cs " " ++ fmt_d (Z.of_nat d)) ;;
            modify (λ s, Proc (p_out s) (p_err s) (uo_sleep (p_os s))) ;;
            countdown d'
  end.

(** The delay requested on the command line. *)
Definition delay (notifyFd : Z) (req : seccomp_notif) (opts : cmdLineOpts) : U unit :=
  when (0 <? delaySecs opts) (
    printf (cs "	S: delaying for " ++ fmt_d (delaySecs opts) ++ cs " seconds:") ;;
    checkNotificationIdIsValid notifyFd (n_id req) "pre-delay" ;;
    countdown (Z.to_nat (delaySecs opts)) ;;
    printf [NL] ;;
    checkNotificationIdIsValid notifyFd (n_id req) "post-delay").

(** Choosing the response. *)
Definition respond (req : seccomp_notif) (pathOK : bool) (pathbuf : list ascii) :
    U seccomp_notif_resp :=
  let path := until_nul pathbuf in
  let mode := arg (n_data req) 1 in
  if negb pathOK then
    printf (cs "	S: spoofing error for invalid pathname (" ++ uo_strerror EINVAL ++ cs ")" ++ [NL]) ;;
    mret (Resp (n_id req) 0 (- EINVAL) 0)
  else if strncmp_eq path (cs "/tmp/") 5 then
    printf (cs "	S: executing: mkdir(" ++ [Ascii.ascii_of_nat 34] ++ path ++
            [Ascii.ascii_of_nat 34] ++ cs ", " ++ fmt_oct mode ++ cs ")" ++ [NL]) ;;
    r ← psys (uo_mkdir path (wrapU 32 mode)) ;
    match r with
    | inr _ =>
        printf (cs "	S: success! spoofed return = " ++ fmt_d (strlen path) ++ [NL]) ;;
        mret (Resp (n_id req) (strlen path) 0 0)
    | inl errno =>
        printf (cs "	S: failure! (errno = " ++ fmt_d errno ++ cs "; " ++
                uo_strerror errno ++ cs ")" ++ [NL]) ;;
        mret (Resp (n_id req) 0 (- errno) 0)
    end
  else if strncmp_eq path (cs "./") 2 then
    printf (cs "	S: target can execute system call" ++ [NL]) ;;
    mret (Resp (n_id req) 0 0 SECCOMP_USER_NOTIF_FLAG_CONTINUE)
  else
    printf (cs "	S: spoofing error response (" ++ uo_strerror EOPNOTSUPP ++ cs ")" ++ [NL]) ;;
    mret (Resp (n_id req) 0 (- EOPNOTSUPP) 0).

Definition sendResponse (notifyFd : Z) (resp : seccomp_notif_resp) : U unit :=
  printf (cs "	S: sending response (flags = " ++ fmt_hex (r_flags resp) ++ cs "; val = " ++
          fmt_d (r_val resp) ++ cs "; error = " ++ fmt_d (r_error resp) ++ cs ")" ++ [NL]) ;;
  r ← psys (uo_send notifyFd resp) ;
  match r with
  | inr _ => mret tt
  | inl errno =>
      if errno =? ENOENT then
        printf (cs "	S: response failed with ENOENT; perhaps target process's syscall was interrupted by a signal?" ++ [NL])
      else perror (cs "ioctl-SECCOMP_IOCTL_NOTIF_SEND") errno
  end.

(** One turn of the loop; yields the pathname buffer it leaves. *)
Definition handleOne (notifyFd : Z) (opts : cmdLineOpts) (path : list ascii) : U (list ascii) :=
  r ← psys (uo_recv notifyFd) ;
  match r with
  | inl e => if e =? EINTR then mret path
             else errExit (cs "Supervisor: ioctl-SECCOMP_IOCTL_NOTIF_RECV") e
  | inr req =>
      printf (cs "	S: got notification (ID " ++ fmt_hex (n_id req) ++ cs ") for PID " ++
              fmt_d (n_pid req) ++ [NL]) ;;
      if negb (sd_nr (n_data req) =? NR_mkdir) then
        printf (cs "	S: notification contained unexpected system call number; bye!!!" ++ [NL]) ;;
        exit EXIT_FAILURE
      else
      delay notifyFd req opts ;;
      '(pathOK, path') ← getTargetPathname req notifyFd path PATH_MAX ;
      resp ← respond req pathOK path' ;
      sendResponse notifyFd resp ;;
      if bool_decide (until_nul path' = cs "/bye") then
        printf (cs "	S: terminating **********" ++ [NL]) ;; exit EXIT_FAILURE
      else mret path'
  end.

Fixpoint handleLoop (fuel : nat) (notifyFd : Z) (opts : cmdLineOpts) (path : list ascii) : U unit :=
  match fuel with
  | O => stop NoFuel
  | S f => path' ← handleOne notifyFd opts path ; handleLoop f notifyFd opts path'
  end.

Definition handleNotifications (fuel : nat) (notifyFd : Z) (opts : cmdLineOpts) : U unit :=
  path ← gets (uo_stack ∘ p_os) ;
  '(notif_size, resp_size0) ← checked "Supervisor: seccomp-SECCOMP_GET_NOTIF_SIZES" uo_notif_sizes ;
  ok ← psys (uo_malloc notif_size) ;
  if negb ok then errExit (cs "Supervisor: malloc") ENOMEM else
  let resp_size := if resp_size0 <? RESP_SIZE then RESP_SIZE else resp_size0 in
  ok ← psys (uo_malloc resp_size) ;
  if negb ok then errExit (cs "Supervisor: malloc") ENOMEM else
  handleLoop fuel notifyFd opts path.

Definition supervisor (fuel : nat) (sockPair : Z * Z) (opts : cmdLineOpts) : U unit :=
  notifyFd ← checked "Supervisor: recvfd" (uo_recvfd sockPair.2) ;
  closeSocketPair sockPair ;;
  handleNotifications fuel notifyFd opts.

(** ** Command line *)

Definition usageError {A} (msg : option cstring) (pname : cstring) : U A :=
  match msg with Some m => eprintf (m ++ [NL]) | None => mret tt end ;;
  eprintf (cs "Usage: " ++ pname ++ cs " [options] <dir> <dir>..." ++ [NL]) ;;
  for_each ["Options";
            "-d <nsecs>    Supervisor delays 'nsecs' before inspecting target";
            "-f <val>      Install second filter whose return value is:";
            "              'e' - SECCOMP_RET_ERRNO";
            "              't' - SECCOMP_RET_TRACE"]%string
    (λ l, eprintf (cs "      " ++ cs l ++ [NL])) ;;
  exit EXIT_FAILURE.

(** What [getopt] yields. *)
Inductive opt_arg := OptF (optarg : cstring) | OptD (optarg : cstring) | OptBad.

Fixpoint parseOptions (pname : cstring) (l : list opt_arg) (opts : cmdLineOpts) : U cmdLineOpts :=
  match l with
  | [] => mret opts
  | OptF a :: r =>
      match a with
      | "e"%char :: _ => parseOptions pname r (Opts (delaySecs opts) SECCOMP_RET_ERRNO)
      | "t"%char :: _ => parseOptions pname r (Opts (delaySecs opts) SECCOMP_RET_TRACE)
      | _ => usageError (Some (cs "Bad value for -f")) pname
      end
  | OptD a :: r => parseOptions pname r (Opts (atoi a) (secondFilter opts))
  | OptBad :: _ => usageError (Some (cs "Bad option")) pname
  end.

Definition parseCommandLineOptions (pname : cstring) (l : list opt_arg) (args : list cstring) :
    U cmdLineOpts :=
  opts ← parseOptions pname l (Opts 0 (-1)) ;
  if bool_decide (args = []) then
    usageError (Some (cs "At least one pathname argument should be supplied")) pname
  else mret opts.

(** The child created by [targetProcess] never returns from it, so what
    follows is the supervisor. *)
Definition unotify_main (fuel : nat) (pname : cstring) (l : list opt_arg) (args : list cstring) :
    U unit :=
  opts ← parseCommandLineOptions pname l args ;
  sockPair ← checked "socketpair" uo_socketpair ;
  targetProcess sockPair args opts ;;
  checked "sigaction" uo_sigaction ;;
  supervisor fuel sockPair opts ;;
  exit EXIT_SUCCESS.

(** ** What the supervisor guarantees *)

(** The answer to a request for a directory, from the bytes read in the
    target's memory, and the kernel state after any [mkdir] it performed. *)
Definition mkdir_policy (id mode : Z) (data : list ascii) (k : K) : seccomp_notif_resp * K :=
  let p := until_nul data in
  if decide (NUL ∉ data) then (Resp id 0 (- EINVAL) 0, k)
  else if decide (cs "/tmp/" `prefix_of` p) then
    match uo_mkdir p (wrapU 32 mode) k with
    | (inr _, k') => (Resp id (Z.of_nat (length p)) 0 0, k')
    | (inl e, k') => (Resp id 0 (- e) 0, k')
    end
  else if decide (cs "./" `prefix_of` p) then
    (Resp id 0 0 SECCOMP_USER_NOTIF_FLAG_CONTINUE, k)
  else (Resp id 0 (- EOPNOTSUPP) 0, k).

Lemma until_nul_prefix (a b : list ascii) : NUL ∈ a → until_nul (a ++ b) = until_nul a.
Proof.
  elim: a => [|x a IH] /=; [by intros ?%elem_of_nil|]. case_decide; [done|].
  intros [?|?]%elem_of_cons; [congruence|]. by rw IH.
Qed.

(** Only the kernel part of a state matters below. *)
Definition to_os (k : K) (s : proc K) : Prop := p_os s = k.

Lemma respond_policy req path data k s :
  to_os k s →
  ∃ s', respond req (bool_decide (NUL ∈ data)) (data ++ path) s =
        (Ret (mkdir_policy (n_id req) (arg (n_data req) 1) data k).1, s') ∧
        to_os (mkdir_policy (n_id req) (arg (n_data req) 1) data k).2 s'.
Proof.
  intros Hk. rw /to_os in Hk. subst k. rw /respond /mkdir_policy.
  destruct (decide (NUL ∉ data)) as [Hn|Hn].
  { rw bool_decide_eq_false_2 //. eexists. by split. }
  apply dec_stable in Hn. rw bool_decide_eq_true_2 // until_nul_prefix //. cbn [negb].
  rw (strncmp_eq_prefix _ (cs "/tmp/")); [by apply nul_free_spec|].
  rw (strncmp_eq_prefix _ (cs "./")); [by apply nul_free_spec|].
  set p := until_nul data.
  destruct (decide (cs "/tmp/" `prefix_of` p)) as [Ht|Ht];
    [rw (bool_decide_eq_true_2 _ Ht)|rw (bool_decide_eq_false_2 _ Ht)].
  - rw /mbind /M_bind /printf /modify /psys. cbn [p_os].
    destruct (uo_mkdir p _ (p_os s)) as [[e|v] k']; eexists; by split.
  - destruct (decide (cs "./" `prefix_of` p)) as [Hp|Hp];
      [rw (bool_decide_eq_true_2 _ Hp)|rw (bool_decide_eq_false_2 _ Hp)]; eexists; by split.
Qed.

(** *** Reading the request

    The calls the supervisor makes up to its decision, on the kernel alone: the checks
    and the sleeps of a delay, and the reading of the target's memory.  [None] stands
    for a call that failed. *)

Definition valid_id (notifyFd id : Z) (k : K) : option unit * K :=
  let '(ok, k) := uo_id_valid notifyFd id k in (if ok then Some tt else None, k).

Definition and_then {A B} (r : option A * K) (f : A → K → option B * K) : option B * K :=
  match r with (Some a, k) => f a k | (None, k) => (None, k) end.

Definition attempt {A} (r : res A * K) : option A * K :=
  match r with (inr a, k) => (Some a, k) | (inl _, k) => (None, k) end.

Definition await (notifyFd : Z) (opts : cmdLineOpts) (id : Z) (k : K) : option unit * K :=
  if 0 <? delaySecs opts then
    and_then (valid_id notifyFd id k) (λ _ k,
      valid_id notifyFd id (Nat.iter (Z.to_nat (delaySecs opts)) uo_sleep k))
  else (Some tt, k).

Definition mem_file (req : seccomp_notif) : cstring := cs "/proc/" ++ fmt_d (n_pid req) ++ cs "/mem".

Definition inspect (notifyFd : Z) (req : seccomp_notif) (len : nat) (k : K) : option (list ascii) * K :=
  and_then (attempt (uo_open (snprintf PATH_MAX (mem_file req)) k)) (λ memFd k,
  and_then (valid_id notifyFd (n_id req) k) (λ _ k,
  and_then (attempt (uo_pread memFd len (arg (n_data req) 0) k)) (λ data k,
  if bool_decide (data = []) then (None, k) else
  and_then (attempt (uo_close memFd k)) (λ _ k, (Some data, k))))).

(** The computation makes these calls: it returns [f] of what they give, or exits. *)
Definition performs {A B} (m : U B) (r : K → option A * K) (f : A → B) : Prop :=
  ∀ s, ∃ s', to_os (r (p_os s)).2 s' ∧
    m s = (match (r (p_os s)).1 with Some a => Ret (f a) | None => Exit EXIT_FAILURE end, s').

Lemma check_performs notifyFd id tag :
  performs (checkNotificationIdIsValid notifyFd id tag) (valid_id notifyFd id) (λ _, tt).
Proof.
  intros s. rw /checkNotificationIdIsValid /valid_id /mbind /M_bind /psys.
  destruct (uo_id_valid notifyFd id (p_os s)) as [[] k]; (eexists; split; [|reflexivity]; done).
Qed.

Lemma checked_performs {A} msg (f : K → res A * K) : performs (checked msg f) (λ k, attempt (f k)) id.
Proof.
  intros s. rw /checked /mbind /M_bind /psys. destruct (f (p_os s)) as [[e|v] k]; (eexists; split; [|reflexivity]; done).
Qed.

Lemma performs_bind {A B C D} (m : U B) (g : B → U D) (r : K → option A * K) (q : A → K → option C * K)
    (f : A → B) (h : C → D) :
  performs m r f → (∀ a, performs (g (f a)) (q a) h) →
  performs (m ≫= g) (λ k, and_then (r k) q) h.
Proof.
  intros Hm Hg s. destruct (Hm s) as (s1 & Hs1 & E). rw /mbind /M_bind E.
  destruct (r (p_os s)) as [[a|] k]; cbn in *; [|by exists s1].
  destruct (Hg a s1) as (s2 & Hs2 & E2). rw /to_os in Hs1. subst k. by exists s2.
Qed.

(** What is printed on the way does not matter. *)
Lemma performs_printf {A B} t (m : U B) (r : K → option A * K) f :
  performs m r f → performs (printf t ;; m) r f.
Proof. intros Hm s. exact (Hm (Proc (p_out s ++ t) (p_err s) (p_os s))). Qed.

Lemma countdown_os d s : ∃ s', countdown d s = (Ret tt, s') ∧ to_os (Nat.iter d uo_sleep (p_os s)) s'.
Proof.
  elim: d s => [|d IH] s; [by exists s|]. rw Nat.iter_succ_r. cbn [countdown].
  rw (bind_Ret (printf _) _ _ tt _ eq_refl) (bind_Ret (modify _) _ _ tt _ eq_refl). apply IH.
Qed.

Lemma delay_performs notifyFd req opts :
  performs (delay notifyFd req opts) (await notifyFd opts (n_id req)) (λ _, tt).
Proof.
  rw /delay /await. destruct (0 <? delaySecs opts); [|by intros s; exists s].
  cbn [when]. apply performs_printf.
  apply (performs_bind _ _ _ (λ _ k, valid_id notifyFd (n_id req)
    (Nat.iter (Z.to_nat (delaySecs opts)) uo_sleep k)) _ _ (check_performs _ _ _)).
  intros _ s. destruct (countdown_os (Z.to_nat (delaySecs opts)) s) as (s1 & E & Hs1).
  rw (bind_Ret _ _ _ _ _ E) (bind_Ret (printf _) _ _ tt _ eq_refl).
  destruct (check_performs notifyFd (n_id req) "post-delay" (Proc (p_out s1 ++ [NL]) (p_err s1) (p_os s1)))
    as (s2 & Hs2 & E2). exists s2. rw /to_os in Hs1. by rw -Hs1.
Qed.

Lemma inspect_performs notifyFd req path len :
  performs (getTargetPathname req notifyFd path len) (inspect notifyFd req len)
    (λ data, (bool_decide (NUL ∈ data), store path 0 data)).
Proof.
  rw /getTargetPathname /inspect /mem_file.
  apply (performs_bind _ _ _ _ _ _ (checked_performs _ _)). intros memFd.
  apply (performs_bind _ _ _ _ _ _ (check_performs _ _ _)). intros _.
  apply (performs_bind _ _ _ _ _ _ (checked_performs _ _)). intros data. cbn [id].
  destruct (bool_decide_reflect (data = [])) as [Hd|Hd]; [intros s; eexists; split; [|reflexivity]; done|].
  apply (performs_bind _ _ _ _ _ _ (checked_performs _ _)). intros [] s. exists s. split; [done|].
  by rw {1}/store /= take_app_length.
Qed.

(** C11: One turn of the supervisor, on every path.  An interrupted wait is repeated; a failed
    one, or a notification of another call, ends the process.  For a notified mkdir
    the supervisor waits as long as it was told to and reads the pathname; if a
    call fails on the way, the target has gone or nothing can be read it exits without
    an answer.  Otherwise it sends exactly the response of the policy: an
    unterminated path is refused with EINVAL, a path that begins with /tmp/ is created by
    the supervisor and its result passed on, a path that begins with ./ is left to
    the target, any other is refused with EOPNOTSUPP; whatever is sent
    depends on the bytes of this request only.  It makes no other call.  It then goes on, unless the
    buffer holds the text /bye. *)
Theorem supervisor_answers notifyFd opts path s :
  let '(o, s') := handleOne notifyFd opts path s in
  match uo_recv notifyFd (p_os s) with
  | (inl e, k) => o = (if e =? EINTR then Ret path else Exit EXIT_FAILURE) ∧ p_os s' = k
  | (inr req, k) =>
      if negb (sd_nr (n_data req) =? NR_mkdir) then o = Exit EXIT_FAILURE ∧ p_os s' = k else
      match and_then (await notifyFd opts (n_id req) k) (λ _, inspect notifyFd req PATH_MAX) with
      | (None, k) => o = Exit EXIT_FAILURE ∧ p_os s' = k
      | (Some data, k) =>
          let '(resp, k) := mkdir_policy (n_id req) (arg (n_data req) 1) data k in
          let path' := store path 0 data in
          o = (if bool_decide (until_nul path' = cs "/bye") then Exit EXIT_FAILURE else Ret path') ∧
          p_os s' = (uo_send notifyFd resp k).2
      end
  end.
Proof.
  rw /handleOne {1}/mbind /M_bind /psys. destruct (uo_recv notifyFd (p_os s)) as [[e|req] k] eqn:Hrecv.
  { by destruct (e =? EINTR). }
  rw (bind_Ret (printf _) _ _ tt _ eq_refl). destruct (negb _); [done|].
  match goal with |- context [(delay _ _ _ ≫= _) ?s1] => set s0 := s1 end.
  change k with (p_os s0).
  destruct (delay_performs notifyFd req opts s0) as (s1 & Hs1 & E1). rw {1}/mbind /M_bind E1.
  destruct (await notifyFd opts (n_id req) (p_os s0)) as [[[]|] k1]; cbn in Hs1 |- *; [|done].
  rw /to_os in Hs1. subst k1.
  destruct (inspect_performs notifyFd req path PATH_MAX s1) as (s2 & Hs2 & E2). rw {1}/mbind /M_bind E2.
  destruct (inspect notifyFd req PATH_MAX (p_os s1)) as [[data|] k2]; cbn in Hs2 |- *; [|done].
  destruct (respond_policy req (drop (length data) path) data k2 s2 Hs2) as (s3 & Hresp & Hs3).
  rw /store take_0 /= in E2 |- *. rw (bind_Ret _ _ _ _ _ Hresp).
  destruct (mkdir_policy _ _ data k2) as [resp k3]. cbn [fst snd] in *.
  assert (∃ s4, sendResponse notifyFd resp s3 = (Ret tt, s4) ∧
    to_os (uo_send notifyFd resp k3).2 s4) as (s4 & Hsend & Hs4).
  { rw /to_os in Hs3. subst k3. rw /sendResponse /mbind /M_bind /printf /modify /psys. cbn [p_os].
    destruct (uo_send notifyFd resp (p_os s3)) as [[e|v] k6]; [|by eexists].
    destruct (e =? ENOENT); by eexists. }
  rw (bind_Ret _ _ _ _ _ Hsend). by case: (bool_decide _).
Qed.

(** A path that begins with a dot but not with ./ is refused, although the comment before the
    test says that the target may execute the call. *)
Lemma dot_path_refused req c rest stale s :
  c ≠ "/"%char → c ≠ NUL → NUL ∉ rest →
  ∃ s', respond req true ("."%char :: c :: rest ++ NUL :: stale) s =
    (Ret (Resp (n_id req) 0 (- EOPNOTSUPP) 0), s') ∧ p_os s' = p_os s.
Proof.
  intros Hc Hn Hr. set data := "."%char :: c :: rest ++ [NUL].
  assert (NUL ∈ data) as Hd by (rw /data; set_solver).
  assert (until_nul data = "."%char :: c :: rest) as Hu.
  { rw /data. change ("."%char :: c :: rest ++ [NUL]) with (("."%char :: c :: rest) ++ NUL :: []).
    apply until_nul_app. set_solver. }
  destruct (respond_policy req stale data (p_os s) s eq_refl) as (s' & Hresp & Hs').
  assert (mkdir_policy (n_id req) (arg (n_data req) 1) data (p_os s) =
    (Resp (n_id req) 0 (- EOPNOTSUPP) 0, p_os s)) as Hpol.
  { rw /mkdir_policy Hu (decide_False (P := NUL ∉ data)); [tauto|].
    rw decide_False; [intros [? [=]]; congruence|done]. }
  rw Hpol (bool_decide_eq_true_2 _ Hd) /data /= -app_assoc in Hresp. rw Hpol in Hs'. by exists s'.
Qed.

(** The test for /tmp looks at the text of the path only: a path that climbs
    out of /tmp again is still created by the supervisor. *)
Lemma tmp_test_is_textual req rest stale s :
  NUL ∉ rest →
  ∃ resp s', respond req true (cs "/tmp/../" ++ rest ++ NUL :: stale) s = (Ret resp, s') ∧
    to_os (uo_mkdir (cs "/tmp/../" ++ rest) (wrapU 32 (arg (n_data req) 1)) (p_os s)).2 s'.
Proof.
  intros Hr. set data := (cs "/tmp/../" ++ rest) ++ [NUL].
  assert (NUL ∈ data) as Hd
    by (rw /data elem_of_app; right; by apply list_elem_of_singleton).
  assert (NUL ∉ cs "/tmp/../" ++ rest) as Hn.
  { rw not_elem_of_app. split; [by apply nul_free_spec|done]. }
  destruct (respond_policy req stale data (p_os s) s eq_refl) as (s' & Hresp & Hs').
  rw (bool_decide_eq_true_2 _ Hd) /data -!app_assoc in Hresp. eexists _, s'.
  split; [exact Hresp|]. move: Hs'. rw /mkdir_policy.
  case_decide as Hno; [done|]. rw /data (until_nul_app _ [] Hn).
  case_decide as Hpre; [|exfalso; apply Hpre; by exists (cs "../" ++ rest)].
  by destruct (uo_mkdir _ _ (p_os s)) as [[?|?] ?].
Qed.
End unotify.

(** ** A concrete kernel

    The target's memory is a fixed byte string, [mkdir] always succeeds and is
    recorded, and so are the responses sent. *)

Record usim := USim {
  us_mem : list ascii; us_dirs : list cstring; us_sent : list seccomp_notif_resp }.

#[export] Instance usim_os : NotifyOS usim := {|
  uo_fork k := (inr 100, k);
  uo_getpid k := 100;
  uo_sigaction k := (inr tt, k);
  uo_prctl k := (inr tt, k);
  uo_seccomp_listen _ k := (inr 5, k);
  uo_seccomp _ k := (inr 0, k);
  uo_socketpair k := (inr (3, 4), k);
  uo_sendfd _ _ k := (inr tt, k);
  uo_recvfd _ k := (inr 6, k);
  uo_close _ k := (inr tt, k);
  uo_notif_sizes k := (inr (80, 24), k);
  uo_malloc _ k := (true, k);
  uo_recv _ k := (inr (Notif 7 100 (SData NR_mkdir AUDIT_ARCH_X86_64 0 [0; 448; 0; 0; 0; 0])), k);
  uo_id_valid _ _ k := (true, k);
  uo_send _ r k := (inr tt, USim (us_mem k) (us_dirs k) (us_sent k ++ [r]));
  uo_sleep k := k;
  uo_open _ k := (inr 9, k);
  uo_pread _ n off k := (inr (take n (drop (Z.to_nat off) (us_mem k))), k);
  uo_mkdir p _ k := (inr 0, USim (us_mem k) (us_dirs k ++ [p]) (us_sent k));
  uo_stack k := replicate PATH_MAX NUL;
  uo_strerror _ := cs "error";
|}.

Definition usim_mem : list ascii := cs "/tmp/d" ++ [NUL] ++ cs "junk".
Definition usim_before : usim := USim usim_mem [] [].
Definition usim_state : proc usim := Proc [] [] usim_before.
Definition usim_req : seccomp_notif :=
  Notif 7 100 (SData NR_mkdir AUDIT_ARCH_X86_64 0 [0; 448; 0; 0; 0; 0]).

Example supervisor_run :
  let '(o, s) := handleOne 6 (Opts 2 (-1)) [] usim_state in
  us_dirs (p_os s) = [cs "/tmp/d"] ∧ us_sent (p_os s) = [Resp 7 6 0 0].
Proof. vm_compute. split; reflexivity. Qed.

Lemma tmp_test_is_textual_witness :
  ∃ resp s', respond usim_req true (cs "/tmp/../" ++ cs "etc" ++ NUL :: []) usim_state =
      (Ret resp, s') ∧
    to_os (uo_mkdir (cs "/tmp/../" ++ cs "etc") 448 usim_before).2 s'.
Proof. apply (tmp_test_is_textual usim_req (cs "etc") [] usim_state). by apply nul_free_spec. Defined.
