(* ===== verification/AclUpdate.v ===== *)
(** * Editing access control lists: [acl/acl_update.c]

    The parser of ACL specifications is modelled as it is written; the ACL
    library is the class [AclLib], and [AclLibOk] states what POSIX.1e says of
    the calls the program uses, over the entries an ACL handle stands for: a map
    from entry descriptors, with no order but the one in which [acl_get_entry]
    happens to list them. *)

From S2P Require Import Prelude CStdlib ErrFns Ugid.

Inductive acl_tag :=
| ACL_UNDEFINED_TAG | ACL_USER_OBJ | ACL_USER | ACL_GROUP_OBJ | ACL_GROUP | ACL_MASK | ACL_OTHER.

#[export] Instance acl_tag_eq_dec : EqDecision acl_tag.
Proof. solve_decision. Defined.

Definition ACL_READ : Z := 4.
Definition ACL_WRITE : Z := 2.
Definition ACL_EXECUTE : Z := 1.
Definition MAX_ENTRIES : nat := Z.to_nat 10000.

(** [struct AccessControlEntry]; it is also the content of an entry of an ACL. *)
Record AccessControlEntry := ACE { tag : acl_tag; qual : Z; perms : Z }.

Class AclLib (K : Type) := {
  al_strerror : Z → cstring;
  al_dumpcore : option cstring;
  al_getpwnam : cstring → option Z;
  al_getgrnam : cstring → option Z;
  al_get_file : cstring → bool → K → res Z * K;
  al_get_entry : Z → bool → K → res (option Z) * K;
  al_get_tag_type : Z → K → res acl_tag * K;
  al_get_qualifier : Z → K → res Z * K;
  al_free : K → res unit * K;
  al_get_permset : Z → K → res Z * K;
  al_clear_perms : Z → K → res unit * K;
  al_add_perm : Z → Z → K → res unit * K;
  al_set_permset : Z → Z → K → res unit * K;
  al_create_entry : Z → K → res (Z * Z) * K;
  al_set_tag_type : Z → acl_tag → K → res unit * K;
  al_set_qualifier : Z → Z → K → res unit * K;
  al_delete_entry : Z → Z → K → res unit * K;
  al_calc_mask : Z → K → res Z * K;
  al_valid : Z → K → res unit * K;
  al_set_file : cstring → bool → Z → K → res unit * K;
  al_delete_def_file : cstring → K → res unit * K;
}.

Record astate (K : Type) := AState { a_io : estate; a_os : K }.
Arguments AState {K} _ _.
Arguments a_io {K} _.
Arguments a_os {K} _.

Section acl.
Context {K : Type} `{!AclLib K}.
Abbreviation A := (M (astate K)).

Definition io {T} (m : M estate T) : A T := λ s,
  let '(o, e) := m (a_io s) in (o, AState e (a_os s)).
Definition asys {T} (f : K → T * K) : A T := λ s,
  let '(r, k) := f (a_os s) in (Ret r, AState (a_io s) k).
Definition eprintf (t : cstring) : A unit := io (fputs_stderr t).

(** [if (call == -1) errExit(msg)], yielding the call's value. *)
Definition checked {T} (msg : cstring) (f : K → res T * K) : A T :=
  r ← asys f ;
  match r with
  | inl e => io (set_errno e) ;; io (errExit al_strerror al_dumpcore msg)
  | inr v => mret v
  end.

Definition usageError {T} (progName : cstring) (msg : option cstring) (shortUsage : bool) : A T :=
  match msg with Some m => eprintf (m ++ [NL]) | None => mret tt end ;;
  if shortUsage then
    eprintf (cs "Type '" ++ progName ++ cs " --help' for usage information" ++ [NL]) ;;
    exit EXIT_FAILURE
  else
  eprintf (cs "Usage: " ++ progName ++ cs " -m acl [-d] [-n] file..." ++ [NL]) ;;
  eprintf (cs "   or: " ++ progName ++ cs " -x acl [-d] [-n] file..." ++ [NL]) ;;
  eprintf (cs "   or: " ++ progName ++ cs " -k file..." ++ [NL; NL]) ;;
  eprintf (cs "   or: " ++ progName ++ cs " -V acl" ++ [NL; NL]) ;;
  for_each [("-m  Modify/create ACL entries", 1); ("-x  Remove ACL entries", 1);
            ("-k  Remove default ACL", 2); ("-V  Check validity of 'acl'", 2);
            ("'acl' consists of one or more comma-separated entries of the form:", 1)]%string
    (λ '(l, n), eprintf (cs "      " ++ cs l ++ replicate (Z.to_nat n) NL)) ;;
  eprintf (cs "      " ++ [NL] ++ cs "            tag:[qualifier][:[perms]]" ++ [NL; NL]) ;;
  for_each [("      'perms' are specified only for -m", 2);
            ("-d  Apply operation to default ACL", 1); ("-n  Don't recalculate mask entry", 1);
            ("      NOTE: if you specify this option and have specified", 1);
            ("      the -m option, then you may encounter errors if the", 1);
            ("      file does not already have a mask entry.", 1)]%string
    (λ '(l, n), eprintf (cs "      " ++ cs l ++ replicate (Z.to_nat n) NL)) ;;
  exit EXIT_FAILURE.

(** ** Parsing *)

(** The loop over the permission characters, from the mask so far. *)
Fixpoint parsePerms (p : cstring) (mask : Z) : A (option Z) :=
  match p with
  | [] => mret (Some mask)
  | c :: r =>
      if decide (c = "r"%char) then parsePerms r (Z.lor mask ACL_READ)
      else if decide (c = "w"%char) then parsePerms r (Z.lor mask ACL_WRITE)
      else if decide (c = "x"%char) then parsePerms r (Z.lor mask ACL_EXECUTE)
      else if decide (c = "-"%char) then parsePerms r mask
      else eprintf (cs "Bad character in permissions string: " ++ [c] ++ [NL]) ;; mret None
  end.

Definition tagType (t : cstring) (hasQual : bool) : option acl_tag :=
  if bool_decide (t = cs "u") || bool_decide (t = cs "user")
  then Some (if hasQual then ACL_USER else ACL_USER_OBJ)
  else if bool_decide (t = cs "g") || bool_decide (t = cs "group")
  then Some (if hasQual then ACL_GROUP else ACL_GROUP_OBJ)
  else if bool_decide (t = cs "o") || bool_decide (t = cs "other") then Some ACL_OTHER
  else if bool_decide (t = cs "m") || bool_decide (t = cs "mask") then Some ACL_MASK
  else None.

(** The qualifier of an entry; [None] after a diagnostic. *)
Definition entryQual (t : acl_tag) (q : cstring) : A (option Z) :=
  if decide (t = ACL_USER) then
    let id := userIdFromName al_getpwnam (Some q) in
    if id =? NO_ID then eprintf (cs "Bad user ID: " ++ q ++ [NL]) ;; mret None
    else mret (Some id)
  else if decide (t = ACL_GROUP) then
    let id := groupIdFromName al_getgrnam (Some q) in
    if id =? NO_ID then eprintf (cs "Bad group ID: " ++ q ++ [NL]) ;; mret None
    else mret (Some id)
  else mret (Some 0).

(** [oldPerms]: what the array slot held in its permissions field, which is
    left alone when the specification has none. *)
Definition parseEntrySpec (entryStr : cstring) (oldPerms : Z) (permsReqd : bool) :
    A (option AccessControlEntry) :=
  match strchr_split ":"%char entryStr with
  | None => eprintf (cs "Missing initial colon in ACL entry: " ++ entryStr ++ [NL]) ;; mret None
  | Some (tagStr, after1) =>
      let hasQual := match after1 with [] => false | c :: _ => negb (bool_decide (c = ":"%char)) end in
      let colon2 := strchr_split ":"%char after1 in
      let hasPerms := match colon2 with Some (_, _ :: _) => true | _ => false end in
      if hasPerms && negb permsReqd then
        eprintf (cs "Cannot specify permissions here" ++ [NL]) ;; mret None
      else if negb hasPerms && permsReqd then
        eprintf (cs "Must specify permissions" ++ [NL]) ;; mret None
      else
      match tagType tagStr hasQual with
      | None => eprintf (cs "Bad tag: " ++ tagStr ++ [NL]) ;; mret None
      | Some t =>
          let q := match colon2 with Some (q, _) => q | None => after1 end in
          id ← entryQual t q ;
          match id with
          | None => mret None
          | Some id =>
              match colon2 with
              | Some (_, (_ :: _) as p) =>
                  ps ← parsePerms p 0 ;
                  mret (ACE t id <$> ps)
              | _ => mret (Some (ACE t id oldPerms))
              end
          end
      end
  end.

(** [left] slots of the array remain; [old] gives what their permission
    fields hold. *)
Fixpoint parseEntries (left : nat) (nextEntry : cstring) (old : nat → Z) (permsReqd : bool) :
    A (option (list AccessControlEntry)) :=
  match left with
  | O => eprintf (cs "Too many entries in ACL" ++ [NL]) ;; mret None
  | S left' =>
      let '(entry, rest) :=
        match strchr_split ","%char nextEntry with
        | Some (e, r) => (e, Some r)
        | None => (nextEntry, None)
        end in
      e ← parseEntrySpec entry (old 0%nat) permsReqd ;
      match e, rest with
      | None, _ => mret None
      | Some e, None => mret (Some [e])
      | Some e, Some r =>
          l ← parseEntries left' r (old ∘ S) permsReqd ;
          mret (cons e <$> l)
      end
  end.

Definition parseACL (aclStr : cstring) (old : nat → Z) (permsReqd : bool) :
    A (option (list AccessControlEntry)) :=
  parseEntries MAX_ENTRIES aclStr old permsReqd.

(** ** Operations on an ACL *)

Fixpoint findEntry_loop (fuel : nat) (first : bool) (acl : Z) (t : acl_tag) (q : Z) : A (option Z) :=
  match fuel with
  | O => stop NoFuel
  | S f =>
      s ← checked (cs "acl_get_entry") (al_get_entry acl first) ;
      match s with
      | None => mret None
      | Some entry =>
          entryTag ← checked (cs "acl_get_tag_type") (al_get_tag_type entry) ;
          if decide (t = entryTag) then
            if decide (t = ACL_USER ∨ t = ACL_GROUP) then
              idp ← checked (cs "acl_get_qualifier") (al_get_qualifier entry) ;
              checked (cs "acl_free") al_free ;;
              if q =? idp then mret (Some entry) else findEntry_loop f false acl t q
            else mret (Some entry)
          else findEntry_loop f false acl t q
      end
  end.

Definition findEntry (fuel : nat) (acl : Z) (t : acl_tag) (q : Z) : A (option Z) :=
  findEntry_loop fuel true acl t q.

Definition setPerms (entry ps : Z) : A unit :=
  permset ← checked (cs "acl_get_permset") (al_get_permset entry) ;
  checked (cs "acl_clear_perms") (al_clear_perms permset) ;;
  when (flag ps ACL_READ) (checked (cs "acl_add_perm") (al_add_perm permset ACL_READ)) ;;
  when (flag ps ACL_WRITE) (checked (cs "acl_add_perm") (al_add_perm permset ACL_WRITE)) ;;
  when (flag ps ACL_EXECUTE) (checked (cs "acl_add_perm") (al_add_perm permset ACL_EXECUTE)) ;;
  checked (cs "acl_set_permset") (al_set_permset entry permset).

(** Applying one entry of the specification; yields the ACL handle, which
    creating an entry may change. *)
Definition applyEntry (fuel : nat) (removeACL : bool) (acl : Z) (e : AccessControlEntry) : A Z :=
  entry ← findEntry fuel acl (tag e) (qual e) ;
  if removeACL then
    match entry with
    | Some h => checked (cs "acl_delete_entry") (al_delete_entry acl h) ;; mret acl
    | None => mret acl
    end
  else
    '(acl', h) ← match entry with
                 | Some h => mret (acl, h)
                 | None =>
                     '(acl', h) ← checked (cs "acl_create_entry") (al_create_entry acl) ;
                     checked (cs "acl_set_tag_type") (al_set_tag_type h (tag e)) ;;
                     when (bool_decide (tag e = ACL_USER ∨ tag e = ACL_GROUP))
                       (checked (cs "acl_set_qualifier") (al_set_qualifier h (qual e))) ;;
                     mret (acl', h)
                 end ;
    setPerms h (perms e) ;;
    mret acl'.

(** The loop over the entries of the specification, for one file. *)
Fixpoint applyEntries (fuel : nat) (file : cstring) (useDefaultACL removeACL recalcMask : bool)
    (acl : Z) (l : list AccessControlEntry) : A Z :=
  match l with
  | [] => mret acl
  | e :: r =>
      acl1 ← applyEntry fuel removeACL acl e ;
      acl2 ← (if recalcMask then checked (cs "acl_calc_mask") (al_calc_mask acl1) else mret acl1) ;
      checked (cs "acl_valid") (al_valid acl2) ;;
      checked (cs "acl_set_file") (al_set_file file useDefaultACL acl2) ;;
      applyEntries fuel file useDefaultACL removeACL recalcMask acl2 r
  end.

Definition updateFile (fuel : nat) (useDefaultACL removeACL recalcMask : bool)
    (l : list AccessControlEntry) (file : cstring) : A unit :=
  acl ← checked (cs "acl_get_file") (al_get_file file useDefaultACL) ;
  applyEntries fuel file useDefaultACL removeACL recalcMask acl l ;;
  checked (cs "acl_free") al_free.

(** ** Command line *)

Inductive acl_option :=
| OptM (spec : cstring) | OptX (spec : cstring) | OptK | OptV (spec : cstring)
| OptD | OptN | OptBad.

Record acl_opts := AclOpts {
  recalcMask : bool; useDefaultACL : bool; modifyACL : bool; removeACL : bool;
  removeDefaultACL : bool; checkValidity : bool; aclSpec : cstring; optCnt : nat }.

Definition initial_opts : acl_opts := AclOpts true false false false false false [] 0.

Definition takeOption (progName : cstring) (o : acl_option) (c : acl_opts) : A acl_opts :=
  let '(AclOpts rm d m x k v spec n) := c in
  match o with
  | OptM a => mret (AclOpts rm d true x k v a (S n))
  | OptX a => mret (AclOpts rm d m true k v a (S n))
  | OptK => mret (AclOpts rm d m x true v spec (S n))
  | OptV a => mret (AclOpts rm d m x k true a (S n))
  | OptD => mret (AclOpts rm true m x k v spec n)
  | OptN => mret (AclOpts false d m x k v spec n)
  | OptBad => usageError progName (Some (cs "Bad option" ++ [NL])) true
  end.

Fixpoint takeOptions (progName : cstring) (l : list acl_option) (c : acl_opts) : A acl_opts :=
  match l with
  | [] => mret c
  | o :: r => c' ← takeOption progName o c ; takeOptions progName r c'
  end.

Definition fatal_ {T} (msg : string) : A T := io (fatal al_strerror al_dumpcore (cs msg)).

Definition acl_main (fuel : nat) (progName : cstring) (argv1 : option cstring)
    (l : list acl_option) (files : list cstring) (old : nat → Z) : A unit :=
  if bool_decide (argv1 = None) || bool_decide (argv1 = Some (cs "--help")) then
    usageError progName None false
  else
  c ← takeOptions progName l initial_opts ;
  if negb (optCnt c =? 1)%nat then
    usageError progName (Some (cs "Specify exactly one of -m, -x, -k, or -V" ++ [NL])) true
  else if checkValidity c && useDefaultACL c then
    usageError progName (Some (cs "Can't specify -d with -V" ++ [NL])) true
  else if checkValidity c then
    r ← parseACL (aclSpec c) old true ;
    match r with
    | None => fatal_ "Bad ACL entry specification"
    | Some _ =>
        io (modify (λ s, EState (e_buffered s ++ cs "ACL is valid" ++ [NL]) (e_stdout s)
                           (e_stderr s) (e_errno s))) ;;
        io fflush_stdout ;; exit EXIT_SUCCESS
    end
  else
  aclist ← (if modifyACL c || removeACL c then
              r ← parseACL (aclSpec c) old (modifyACL c) ;
              match r with
              | None => usageError progName (Some (cs "Bad ACL specification" ++ [NL])) true
              | Some l => mret l
              end
            else mret []) ;
  for_each files (λ file,
    if removeDefaultACL c then
      checked (cs "acl_delete_def_file: " ++ file) (al_delete_def_file file)
    else if modifyACL c || removeACL c then
      updateFile fuel (useDefaultACL c) (removeACL c) (recalcMask c) aclist file
    else fatal_ "Bad logic!") ;;
  exit EXIT_SUCCESS.
End acl.

(** ** Printing and parsing *)

Definition needs_qual (t : acl_tag) : bool := bool_decide (t = ACL_USER ∨ t = ACL_GROUP).

Definition tag_text (t : acl_tag) : cstring :=
  match t with
  | ACL_USER_OBJ | ACL_USER => cs "user"
  | ACL_GROUP_OBJ | ACL_GROUP => cs "group"
  | ACL_MASK => cs "mask"
  | ACL_OTHER => cs "other"
  | ACL_UNDEFINED_TAG => []
  end.

Definition perm_text (p : Z) : cstring :=
  [if flag p ACL_READ then "r" else "-"; if flag p ACL_WRITE then "w" else "-";
   if flag p ACL_EXECUTE then "x" else "-"]%char.

Definition entry_text (e : AccessControlEntry) : cstring :=
  tag_text (tag e) ++ ":"%char :: (if needs_qual (tag e) then fmt_d (qual e) else []) ++
  ":"%char :: perm_text (perms e).

Fixpoint acl_text (l : list AccessControlEntry) : cstring :=
  match l with
  | [] => []
  | [e] => entry_text e
  | e :: r => entry_text e ++ ","%char :: acl_text r
  end.

(** An entry the text form can express. *)
Definition ace_ok (e : AccessControlEntry) : Prop :=
  tag e ≠ ACL_UNDEFINED_TAG ∧ (0 ≤ perms e < 8) ∧
  if needs_qual (tag e) then 0 ≤ qual e < NO_ID else qual e = 0.

Lemma fmt_go_digit c fuel n acc :
  0 ≤ n → c ∈ fmt_go fuel n acc → c ∈ acc ∨ ∃ d, 0 ≤ d < 10 ∧ c = digit_char d.
Proof.
  elim: fuel n acc => [|f IH] n acc Hn /=; [by left|].
  assert (0 ≤ n mod 10 < 10) by (apply Z.mod_pos_bound; lia).
  assert (c ∈ digit_char (n mod 10) :: acc → c ∈ acc ∨ ∃ d, 0 ≤ d < 10 ∧ c = digit_char d) as Hc.
  { intros [->|?]%elem_of_cons; [right; eauto|by left]. }
  destruct (n <? 10); [done|]. intros Hin.
  destruct (IH (n / 10) _ (ltac:(apply Z.div_pos; lia)) Hin) as [?|?]; [by apply Hc|by right].
Qed.

Lemma fmt_d_digit c n : 0 ≤ n → c ∈ fmt_d n → ∃ d, 0 ≤ d < 10 ∧ c = digit_char d.
Proof.
  intros Hn. rw /fmt_d. destruct (Z.ltb_spec n 0); [lia|]. intros Hc.
  destruct (fmt_go_digit c _ _ _ Hn Hc) as [?%elem_of_nil|?]; done.
Qed.

Lemma digit_char_byte d : 0 ≤ d < 10 → byte_Z (digit_char d) = 48 + d.
Proof. intros. rw /digit_char byte_Z_byte Z.mod_small; lia. Qed.

Lemma not_in_fmt_d c n : 0 ≤ n → (byte_Z c < 48 ∨ 57 < byte_Z c) → c ∉ fmt_d n.
Proof.
  intros Hn Hc Hin. destruct (fmt_d_digit _ _ Hn Hin) as (d & Hd & ->).
  rw digit_char_byte // in Hc. lia.
Qed.

Section parse.
Context {K : Type} `{!AclLib K}.
Implicit Types s : astate K.

Lemma parsePerms_text p s : 0 ≤ p < 8 → parsePerms (perm_text p) 0 s = (Ret (Some p), s).
Proof.
  intros Hp. assert (p = 0 ∨ p = 1 ∨ p = 2 ∨ p = 3 ∨ p = 4 ∨ p = 5 ∨ p = 6 ∨ p = 7) as Hc by lia.
  by repeat destruct Hc as [->|Hc]; [..|subst].
Qed.

Lemma qual_text_split e rest :
  ace_ok e →
  strchr_split ":"%char
    ((if needs_qual (tag e) then fmt_d (qual e) else []) ++ ":"%char :: rest) =
  Some (if needs_qual (tag e) then fmt_d (qual e) else [], rest).
Proof.
  intros (_ & _ & Hq). apply strchr_split_app. destruct (needs_qual (tag e)); [|by apply not_elem_of_nil].
  apply not_in_fmt_d; [lia|]. right. done.
Qed.

Lemma entryQual_text e s :
  ace_ok e →
  entryQual (tag e) (if needs_qual (tag e) then fmt_d (qual e) else []) s =
  (Ret (Some (qual e)), s).
Proof.
  destruct e as [t q p]. rw /ace_ok /needs_qual. cbn [tag qual perms]. intros (_ & _ & Hq).
  destruct (bool_decide (t = ACL_USER ∨ t = ACL_GROUP)) eqn:Hb.
  - apply bool_decide_eq_true in Hb.
    destruct (id_of_number al_getpwnam al_getgrnam q) as [Hu _].
    { rw /in_long /LONG_MIN /LONG_MAX. rw /NO_ID in Hq. lia. }
    destruct (id_of_number al_getpwnam al_getgrnam q) as [_ Hg].
    { rw /in_long /LONG_MIN /LONG_MAX. rw /NO_ID in Hq. lia. }
    assert (to_uint q = q) as Hid by (apply to_uint_id; rw /NO_ID in Hq; lia).
    rw Hid in Hu, Hg. rw /entryQual.
    destruct Hb as [-> | ->]; cbn -[userIdFromName groupIdFromName Z.eqb NO_ID];
      rw ?Hu ?Hg; (destruct (Z.eqb_spec q NO_ID); [lia|done]).
  - apply bool_decide_eq_false in Hb. rw /entryQual.
    rw decide_False; [by intros ->; apply Hb; left|].
    rw decide_False; [by intros ->; apply Hb; right|]. by subst.
Qed.

Lemma hasQual_text e rest :
  ace_ok e →
  match (if needs_qual (tag e) then fmt_d (qual e) else []) ++ ":"%char :: rest with
  | [] => false
  | c :: _ => negb (bool_decide (c = ":"%char))
  end = needs_qual (tag e).
Proof.
  intros (_ & _ & Hq). destruct (needs_qual (tag e)); [|done].
  destruct (fmt_d (qual e)) as [|c r] eqn:E; [by destruct (fmt_d_not_nil (qual e))|].
  simpl. rw bool_decide_eq_false_2 //. intros ->.
  apply (not_in_fmt_d ":"%char (qual e)); [lia|right; done|]. rw E. left.
Qed.

Lemma parseEntrySpec_text e old s :
  ace_ok e → parseEntrySpec (entry_text e) old true s = (Ret (Some e), s).
Proof.
  intros Hok. rw /parseEntrySpec /entry_text.
  assert (strchr_split ":"%char (tag_text (tag e) ++ ":"%char ::
    (if needs_qual (tag e) then fmt_d (qual e) else []) ++ ":"%char :: perm_text (perms e)) =
    Some (tag_text (tag e), (if needs_qual (tag e) then fmt_d (qual e) else []) ++
      ":"%char :: perm_text (perms e))) as ->.
  { apply strchr_split_app. destruct (tag e); vm_compute; set_solver. }
  rw hasQual_text // qual_text_split //. change (perm_text (perms e)) with
    ((if flag (perms e) ACL_READ then "r"%char else "-"%char) :: tail (perm_text (perms e))).
  cbn [negb andb].
  assert (tagType (tag_text (tag e)) (needs_qual (tag e)) = Some (tag e)) as ->.
  { destruct Hok as [Ht _]. by destruct (tag e). }
  rw (bind_Ret _ _ _ _ _ (entryQual_text e s Hok)).
  change (_ :: tail _) with (perm_text (perms e)).
  destruct Hok as (_ & Hp & _). rw (bind_Ret _ _ _ _ _ (parsePerms_text (perms e) s Hp)).
  by destruct e.
Qed.

Lemma comma_not_in_entry e : ace_ok e → ","%char ∉ entry_text e.
Proof.
  intros Hok. rw /entry_text not_elem_of_app not_elem_of_cons not_elem_of_app not_elem_of_cons.
  split_and!; try done.
  - destruct (tag e); vm_compute; set_solver.
  - destruct Hok as (_ & _ & Hq). destruct (needs_qual (tag e)); [|by apply not_elem_of_nil].
    apply not_in_fmt_d; [lia|left; done].
  - rw /perm_text. destruct (flag _ _), (flag _ _), (flag _ _); vm_compute; set_solver.
Qed.

Lemma parseEntries_text left old l s :
  l ≠ [] → (length l ≤ left)%nat → Forall ace_ok l →
  parseEntries left (acl_text l) old true s = (Ret (Some l), s).
Proof.
  elim: left old l => [|left IH] old l Hl Hlen Hok; destruct l as [|e l]; try done;
    [simpl in Hlen; lia|].
  apply Forall_cons in Hok as [He Hok]. cbn [parseEntries].
  destruct l as [|e2 l].
  - cbn [acl_text].
    assert (strchr_split ","%char (entry_text e) = None) as ->
      by by apply strchr_split_None, comma_not_in_entry.
    by rw (bind_Ret _ _ _ _ _ (parseEntrySpec_text e _ s He)).
  - change (acl_text (e :: e2 :: l)) with (entry_text e ++ ","%char :: acl_text (e2 :: l)).
    rw strchr_split_app; [by apply comma_not_in_entry|].
    rw (bind_Ret _ _ _ _ _ (parseEntrySpec_text e _ s He)).
    assert (parseEntries left (acl_text (e2 :: l)) (old ∘ S) true s =
      (Ret (Some (e2 :: l)), s)) as Hgo by (apply IH; [done|simpl in *; lia|done]).
    by rw (bind_Ret _ _ _ _ _ Hgo).
Qed.

(** C39: Parsing the text form of a list of entries gives the entries back,
    without any diagnostic, up to the limit of 10000 entries. *)
Theorem parseACL_roundtrip l old s :
  l ≠ [] → (length l ≤ MAX_ENTRIES)%nat → Forall ace_ok l →
  parseACL (acl_text l) old true s = (Ret (Some l), s).
Proof. apply parseEntries_text. Qed.
End parse.

(** ** The ACL library *)

Abbreviation entries := (gmap Z AccessControlEntry).

Definition with_tag t (e : AccessControlEntry) := ACE t (qual e) (perms e).
Definition with_qual q (e : AccessControlEntry) := ACE (tag e) q (perms e).
Definition with_perms (f : Z → Z) (e : AccessControlEntry) := ACE (tag e) (qual e) (f (perms e)).

(** [al_map acl k] are the entries of an ACL by their descriptors, which stay valid
    until the entry is deleted; [al_seq] is the order in which [acl_get_entry]
    lists them, any order, which every change may rearrange, and [al_cursor] its
    position in that list; [al_owner] is the entry a permission-set descriptor refers
    to.  A new entry has the tag ACL_UNDEFINED_TAG. *)
Class AclLibOk (K : Type) `{!AclLib K} := {
  al_map : Z → K → entries;
  al_seq : Z → K → list Z;
  al_cursor : Z → K → nat;
  al_owner : Z → K → option Z;
  al_seq_once a k : NoDup (al_seq a k);
  al_seq_all a k h : h ∈ al_seq a k ↔ is_Some (al_map a k !! h);
  al_get_entry_ok a first k r k' :
    al_get_entry a first k = (inr r, k') →
    let c := if first : bool then 0%nat else al_cursor a k in
    r = al_seq a k !! c ∧ al_cursor a k' = S c ∧
    (∀ b, al_map b k' = al_map b k) ∧ al_seq a k' = al_seq a k;
  al_get_tag_ok h k t k' :
    al_get_tag_type h k = (inr t, k') →
    (∀ b, al_map b k' = al_map b k ∧ al_seq b k' = al_seq b k ∧ al_cursor b k' = al_cursor b k) ∧
    (∀ a e, al_map a k !! h = Some e → t = tag e);
  al_get_qual_ok h k q k' :
    al_get_qualifier h k = (inr q, k') →
    (∀ b, al_map b k' = al_map b k ∧ al_seq b k' = al_seq b k ∧ al_cursor b k' = al_cursor b k) ∧
    (∀ a e, al_map a k !! h = Some e → q = qual e);
  al_free_ok k k' :
    al_free k = (inr tt, k') →
    ∀ b, al_map b k' = al_map b k ∧ al_seq b k' = al_seq b k ∧ al_cursor b k' = al_cursor b k;
  al_get_permset_ok h k ps k' :
    al_get_permset h k = (inr ps, k') →
    (∀ b, al_map b k' = al_map b k) ∧ al_owner ps k' = Some h;
  al_clear_ok ps h k k' :
    al_clear_perms ps k = (inr tt, k') → al_owner ps k = Some h →
    al_owner ps k' = Some h ∧
    (∀ b, al_map b k' = alter (with_perms (λ _, 0)) h (al_map b k));
  al_add_ok ps p h k k' :
    al_add_perm ps p k = (inr tt, k') → al_owner ps k = Some h →
    al_owner ps k' = Some h ∧
    (∀ b, al_map b k' = alter (with_perms (λ m, Z.lor m p)) h (al_map b k));
  al_set_permset_ok h ps k k' :
    al_set_permset h ps k = (inr tt, k') → al_owner ps k = Some h →
    (∀ b, al_map b k' = al_map b k);
  al_create_ok a k a' h k' :
    al_create_entry a k = (inr (a', h), k') →
    al_map a k !! h = None ∧
    ∃ e, tag e = ACL_UNDEFINED_TAG ∧ al_map a' k' = <[h := e]> (al_map a k);
  al_set_tag_ok h t k k' :
    al_set_tag_type h t k = (inr tt, k') →
    ∃ f, (∀ e, tag (f e) = t) ∧ (∀ b, al_map b k' = alter f h (al_map b k));
  al_set_qual_ok h q k k' :
    al_set_qualifier h q k = (inr tt, k') →
    ∃ f, (∀ e, tag (f e) = tag e ∧ qual (f e) = q) ∧ (∀ b, al_map b k' = alter f h (al_map b k));
  al_delete_ok a h k k' :
    al_delete_entry a h k = (inr tt, k') → al_map a k' = delete h (al_map a k);
}.

(** Does entry [x] of an ACL have the tag and qualifier of [e]? *)
Definition matches (e x : AccessControlEntry) : Prop :=
  tag x = tag e ∧ (needs_qual (tag e) = true → qual x = qual e).
#[export] Instance matches_dec e x : Decision (matches e x).
Proof. rw /matches. apply _. Defined.

(** The edit an entry of the specification stands for, on the entries of an
    ACL: [-x] removes an entry that matches, if there is one; [-m] gives an entry that
    matches the new permissions, or adds one. *)
Definition acl_edit (remove : bool) (e : AccessControlEntry) (m m' : entries) : Prop :=
  (∃ h x, m !! h = Some x ∧ matches e x ∧
     m' = if remove then delete h m else <[h := ACE (tag x) (qual x) (perms e)]> m) ∨
  (∀ h x, m !! h = Some x → ¬ matches e x) ∧
  if remove then m' = m
  else ∃ h x, m !! h = None ∧ matches e x ∧ perms x = perms e ∧ m' = <[h := x]> m.

Section refine.
Context {K : Type} `{Lib : !AclLib K} `{Ok : !AclLibOk K}.
Implicit Types s : astate K.

(** A call of the library that fails. *)
Definition fails {T} (f : K → res T * K) : Prop := ∃ k e k', f k = (inl e, k').
Definition lib_fails : Prop :=
  (∃ a b, fails (al_get_entry a b)) ∨ (∃ h, fails (al_get_tag_type h)) ∨
  (∃ h, fails (al_get_qualifier h)) ∨ fails al_free ∨ (∃ h, fails (al_get_permset h)) ∨
  (∃ p, fails (al_clear_perms p)) ∨ (∃ p b, fails (al_add_perm p b)) ∨
  (∃ h p, fails (al_set_permset h p)) ∨ (∃ a, fails (al_create_entry a)) ∨
  (∃ h t, fails (al_set_tag_type h t)) ∨ (∃ h q, fails (al_set_qualifier h q)) ∨
  (∃ a h, fails (al_delete_entry a h)).

Lemma strict_acl_checked {T} msg (f : K → res T * K) (Q : T → astate K → Prop) s :
  (fails f → lib_fails) →
  (∀ v k, f (a_os s) = (inr v, k) → Q v (AState (a_io s) k)) → strict lib_fails (checked msg f) Q s.
Proof.
  intros HF H. rw /strict /checked /mbind /M_bind /asys.
  destruct (f (a_os s)) as [[e|v] k] eqn:E; [|by apply H].
  assert lib_fails by (apply HF; by exists (a_os s), e, k).
  rw /io /set_errno /modify errExit_eq. by case_bool_decide.
Qed.

(** Step over a call of the library. *)
Ltac lib_call :=
  apply strict_acl_checked; [rw /lib_fails; naive_solver|].

Lemma findEntry_loop_spec fuel (first : bool) acl e s (c : nat) :
  (if first then c = 0%nat else al_cursor acl (a_os s) = c) →
  (length (al_seq acl (a_os s)) - c < fuel)%nat →
  (∀ h x, h ∈ take c (al_seq acl (a_os s)) → al_map acl (a_os s) !! h = Some x → ¬ matches e x) →
  strict lib_fails (findEntry_loop fuel first acl (tag e) (qual e))
    (λ r s', (∀ b, al_map b (a_os s') = al_map b (a_os s)) ∧
       match r with
       | None => ∀ h x, al_map acl (a_os s) !! h = Some x → ¬ matches e x
       | Some h => ∃ x, al_map acl (a_os s) !! h = Some x ∧ matches e x
       end) s.
Proof.
  elim: fuel first s c => [|fuel IH] first s c Hc Hfuel Hpre; [lia|].
  cbn [findEntry_loop]. apply strict_bind. lib_call. intros r k1 Hk1.
  destruct (al_get_entry_ok _ _ _ _ _ Hk1) as (Hr & Hcur & Hm1 & Hs1). cbn zeta in Hr, Hcur.
  assert ((if first then 0%nat else al_cursor acl (a_os s)) = c) as Hcc by by destruct first.
  rw Hcc in Hr, Hcur. clear Hcc Hc.
  destruct (al_seq acl (a_os s) !! c) as [h|] eqn:Hh; simpl in Hr; subst r.
  2:{ apply strict_ret. split; [done|]. intros h x Hx. apply (Hpre h x); [|done].
      rw take_ge; [by apply lookup_ge_None|]. apply al_seq_all. by exists x. }
  assert (is_Some (al_map acl (a_os s) !! h)) as [x Hx]
    by (apply al_seq_all, list_elem_of_lookup; eauto).
  assert (c < length (al_seq acl (a_os s)))%nat as Hlt by by apply lookup_lt_Some in Hh.
  assert (∀ s', (∀ b, al_map b (a_os s') = al_map b (a_os s)) →
    al_seq acl (a_os s') = al_seq acl (a_os s) →
    al_cursor acl (a_os s') = S c → ¬ matches e x →
    strict lib_fails (findEntry_loop fuel false acl (tag e) (qual e))
    (λ r s', (∀ b, al_map b (a_os s') = al_map b (a_os s)) ∧
       match r with
       | None => ∀ h x, al_map acl (a_os s) !! h = Some x → ¬ matches e x
       | Some h => ∃ x, al_map acl (a_os s) !! h = Some x ∧ matches e x
       end) s') as Hnext.
  { intros s' Hm Hs Hc' Hno. eapply strict_conseq.
    - apply (IH false s' (S c)); [done|rw Hs; lia|]. rw Hs Hm. intros h' y Hy Hl.
      rw (take_S_r _ _ h) // in Hy. apply elem_of_app in Hy as [?|Hy]; [by apply (Hpre h')|].
      apply list_elem_of_singleton in Hy. by simplify_eq.
    - intros r s'' (Hm' & Hr'). rw Hm in Hr'. split; [|done]. intros b. by rw Hm'. }
  apply strict_bind. lib_call. intros t k2 Hk2.
  destruct (al_get_tag_ok _ _ _ _ Hk2) as (Hk & Ht). cbn [a_os] in *.
  assert (t = tag x) as -> by (apply (Ht acl); by rw Hm1). clear Ht.
  destruct (Hk acl) as (_ & Hs2 & Hc2).
  assert (∀ b, al_map b k2 = al_map b (a_os s)) as Hm2 by (intros b; destruct (Hk b) as [-> _]; by rw Hm1).
  destruct (decide (tag e = tag x)) as [Hte|Hte]; [destruct (decide (tag e = ACL_USER ∨ _)) as [Hq|Hq]|].
  - apply strict_bind. lib_call. intros q k3 Hk3.
    destruct (al_get_qual_ok _ _ _ _ Hk3) as (Hk3' & Hqv). cbn [a_os] in *.
    assert (q = qual x) as -> by (apply (Hqv acl); by rw Hm2).
    apply strict_bind. lib_call. intros [] k4 Hk4. pose proof (al_free_ok _ _ Hk4) as Hk4'. cbn [a_os] in *.
    assert (∀ b, al_map b k4 = al_map b (a_os s)) as Hm4.
    { intros b. destruct (Hk4' b) as [-> _]. destruct (Hk3' b) as [-> _]. apply Hm2. }
    destruct (Hk4' acl) as (_ & Hs4 & Hc4), (Hk3' acl) as (_ & Hs3 & Hc3).
    destruct (Z.eqb_spec (qual e) (qual x)) as [Hqe|Hqe].
    + apply strict_ret. split; [done|]. exists x. split; [done|]. by split.
    + apply Hnext; cbn; [done|congruence|congruence|]. intros [_ Hm].
      apply Hqe. symmetry. apply Hm. rw /needs_qual. by apply bool_decide_eq_true.
  - apply strict_ret. split; [done|]. exists x. split; [done|]. split; [done|].
    rw /needs_qual. by intros ?%bool_decide_eq_true.
  - apply Hnext; cbn; [done|congruence|congruence|]. intros [? _]. congruence.
Qed.

Lemma alter_alter (f g : AccessControlEntry → AccessControlEntry) h (m : entries) :
  alter f h (alter g h m) = alter (f ∘ g) h m.
Proof.
  rw (alter_alt g). destruct (m !! h) as [x|] eqn:E; [by rw alter_insert_eq alter_alt E|by rw !alter_alt E].
Qed.

Lemma setPerms_spec h ps s :
  0 ≤ ps < 8 →
  strict lib_fails (setPerms h ps)
    (λ _ s', ∀ b, al_map b (a_os s') = alter (with_perms (λ _, ps)) h (al_map b (a_os s))) s.
Proof.
  intros Hps. rw /setPerms. apply strict_bind. lib_call. intros pset k1 Hk1.
  destruct (al_get_permset_ok _ _ _ _ Hk1) as [Hl1 Ho1].
  apply strict_bind. lib_call. intros [] k2 Hk2. cbn [a_os] in *.
  destruct (al_clear_ok _ _ _ _ Hk2 Ho1) as [Ho2 Hl2].
  (* adding one permission keeps the owner and ors the bit in *)
  assert (∀ p s' m, al_owner pset (a_os s') = Some h →
    (∀ b, al_map b (a_os s') = alter (with_perms (λ _, m)) h (al_map b (a_os s))) →
    strict lib_fails (when (flag ps p) (checked (cs "acl_add_perm") (al_add_perm pset p)))
      (λ _ s'', al_owner pset (a_os s'') = Some h ∧
         ∀ b, al_map b (a_os s'') =
              alter (with_perms (λ _, if flag ps p then Z.lor m p else m)) h (al_map b (a_os s)))
      s') as Hadd.
  { intros p s' m Ho Hl. apply strict_when => ->; [|done].
    lib_call. intros [] k Hk. destruct (al_add_ok _ _ _ _ _ Hk Ho) as [Ho' Hl'].
    split; [done|]. intros b. cbn. by rw Hl' Hl alter_alter. }
  apply strict_bind. eapply strict_conseq; [apply (Hadd ACL_READ _ 0); [done|]|].
  { intros b. cbn. by rw Hl2 Hl1. }
  intros [] s3 [Ho3 Hl3]. apply strict_bind.
  eapply strict_conseq; [exact (Hadd ACL_WRITE _ _ Ho3 Hl3)|]. intros [] s4 [Ho4 Hl4].
  apply strict_bind. eapply strict_conseq; [exact (Hadd ACL_EXECUTE _ _ Ho4 Hl4)|].
  intros [] s5 [Ho5 Hl5]. lib_call. intros [] k6 Hk6.
  intros b. cbn. rw (al_set_permset_ok _ _ _ _ Hk6 Ho5) Hl5.
  assert (ps = 0 ∨ ps = 1 ∨ ps = 2 ∨ ps = 3 ∨ ps = 4 ∨ ps = 5 ∨ ps = 6 ∨ ps = 7) as Hc by lia.
  by repeat destruct Hc as [->|Hc]; [..|subst].
Qed.

(** C8: Applying one entry of a specification edits the ACL as it says, in whatever order the
    library keeps the entries: -x removes an entry with that tag and qualifier if
    there is one, -m gives such an entry the new permissions or adds one, and
    nothing else changes.  The search ends, and the program fails only where a
    call of the library fails. *)
Theorem applyEntry_refines fuel remove acl e s :
  (0 ≤ perms e < 8) → (length (al_seq acl (a_os s)) < fuel)%nat →
  strict lib_fails (applyEntry fuel remove acl e)
    (λ acl' s', acl_edit remove e (al_map acl (a_os s)) (al_map acl' (a_os s'))) s.
Proof.
  intros Hp Hfuel. rw /applyEntry. apply strict_bind. eapply strict_conseq.
  { apply (findEntry_loop_spec fuel true acl e s 0 eq_refl); [lia|].
    rw take_0. by intros h x ?%elem_of_nil. }
  intros r s1 [Hl1 Hr]. rw /acl_edit. destruct remove; [destruct r as [h|]|].
  - destruct Hr as (x & Hx & Hm). apply strict_bind. lib_call. intros [] k2 Hk2.
    apply strict_ret. left. exists h, x. cbn. by rw (al_delete_ok _ _ _ _ Hk2) Hl1.
  - apply strict_ret. right. by rw Hl1.
  - destruct r as [h|].
    + destruct Hr as (x & Hx & Hm). apply strict_bind, strict_ret. cbv beta iota.
      apply strict_bind. eapply strict_conseq; [by apply setPerms_spec|]. intros [] s2 Hl2.
      apply strict_ret. left. exists h, x. split_and!; [done|done|]. rw Hl2 Hl1.
      by rw alter_alt Hx.
    + apply strict_bind, strict_bind. lib_call. intros [acl' h] k2 Hk2.
      destruct (al_create_ok _ _ _ _ _ Hk2) as (Hfree & e0 & _ & Hl2). cbn [a_os] in *. cbv beta iota.
      apply strict_bind. lib_call. intros [] k3 Hk3. cbn [a_os] in *.
      destruct (al_set_tag_ok _ _ _ _ Hk3) as (f & Hf & Hl3).
      apply strict_bind. eapply (strict_conseq _ _ (λ _ s', ∃ x, matches e x ∧
        al_map acl' (a_os s') = <[h := x]> (al_map acl (a_os s1)))).
      { rw -/(needs_qual (tag e)). apply strict_when => Hq.
        - lib_call. intros [] k4 Hk4. destruct (al_set_qual_ok _ _ _ _ Hk4) as (g & Hg & Hl4).
          exists (g (f e0)). destruct (Hg (f e0)) as [Hg1 Hg2].
          split; [split; [by rw Hg1|by intros _]|]. cbn in *. by rw Hl4 Hl3 Hl2 !alter_insert_eq.
        - exists (f e0). cbn. split; [split; [done|congruence]|]. by rw Hl3 Hl2 alter_insert_eq. }
      intros [] s4 (x & Hx & Hl4). apply strict_ret, strict_bind.
      eapply strict_conseq; [by apply setPerms_spec|]. intros [] s5 Hl5. apply strict_ret.
      right. split; [done|]. exists h, (with_perms (λ _, perms e) x). rw Hl5 Hl4 Hl1 alter_insert_eq.
      rw Hl1 in Hfree. by destruct Hx.
Qed.
End refine.

(** ** A concrete library with one ACL

    It lists the entries in the order of the map.  A permission-set descriptor is the
    descriptor of its entry. *)

Record alib := ALib { lib_map : entries; lib_cursor : nat }.

Definition lib_seq (k : alib) : list Z := (map_to_list (lib_map k)).*1.
Definition lib_fresh (k : alib) : Z := foldr (λ h m, Z.max (h + 1) m) 0 (lib_seq k).
Definition lib_alter (h : Z) f (k : alib) : res unit * alib :=
  (inr tt, ALib (alter f h (lib_map k)) (lib_cursor k)).

#[export] Instance alib_lib : AclLib alib := {|
  al_strerror _ := cs "error";
  al_dumpcore := None;
  al_getpwnam n := if bool_decide (n = cs "alice") then Some 1000 else None;
  al_getgrnam n := None;
  al_get_file _ _ k := (inr 1, k);
  al_get_entry _ first k :=
    let c := if first : bool then 0%nat else lib_cursor k in
    (inr (lib_seq k !! c), ALib (lib_map k) (S c));
  al_get_tag_type h k := (inr (default ACL_UNDEFINED_TAG (tag <$> lib_map k !! h)), k);
  al_get_qualifier h k := (inr (default 0 (qual <$> lib_map k !! h)), k);
  al_free k := (inr tt, k);
  al_get_permset h k := (inr h, k);
  al_clear_perms ps k := lib_alter ps (with_perms (λ _, 0)) k;
  al_add_perm ps p k := lib_alter ps (with_perms (λ m, Z.lor m p)) k;
  al_set_permset _ _ k := (inr tt, k);
  al_create_entry a k :=
    (inr (a, lib_fresh k),
     ALib (<[lib_fresh k := ACE ACL_UNDEFINED_TAG 0 0]> (lib_map k)) (lib_cursor k));
  al_set_tag_type h t k := lib_alter h (with_tag t) k;
  al_set_qualifier h q k := lib_alter h (with_qual q) k;
  al_delete_entry _ h k := (inr tt, ALib (delete h (lib_map k)) (lib_cursor k));
  al_calc_mask a k := (inr a, k);
  al_valid _ k := (inr tt, k);
  al_set_file _ _ _ k := (inr tt, k);
  al_delete_def_file _ k := (inr tt, k);
|}.

Lemma lib_seq_all k h : h ∈ lib_seq k ↔ is_Some (lib_map k !! h).
Proof.
  rw /lib_seq list_elem_of_fmap. split.
  - intros ([h' x] & -> & Hx%elem_of_map_to_list). by exists x.
  - intros [x Hx%elem_of_map_to_list]. by exists (h, x).
Qed.

Lemma lib_fresh_spec k : lib_map k !! lib_fresh k = None.
Proof.
  apply eq_None_not_Some. rw -lib_seq_all /lib_fresh.
  assert (∀ l x, x ∈ l → x < foldr (λ h m, Z.max (h + 1) m) 0 l) as H; [|by intros ?%H; lia].
  elim=> [|h l IH] x /=; [by intros ?%elem_of_nil|].
  intros [->|Hx]%elem_of_cons; [lia|]. specialize (IH x Hx). lia.
Qed.

#[export, refine] Instance alib_ok : AclLibOk alib := {|
  al_map _ k := lib_map k; al_seq _ k := lib_seq k; al_cursor _ k := lib_cursor k;
  al_owner ps _ := Some ps;
|}.
Proof.
  - intros _ k. apply NoDup_fst_map_to_list.
  - intros _. apply lib_seq_all.
  - intros a first k r k' [= <- <-]. by destruct first.
  - intros h k t k' [= <- <-]. split; [done|]. by intros _ e ->.
  - intros h k q k' [= <- <-]. split; [done|]. by intros _ e ->.
  - by intros k k' [= <-].
  - by intros h k ps k' [= <- <-].
  - intros ps h k k' [= <-] [= ->]. done.
  - intros ps p h k k' [= <-] [= ->]. done.
  - by intros h ps k k' [= <-].
  - intros a k a' h k' [= <- <- <-]. split; [apply lib_fresh_spec|]. by exists (ACE ACL_UNDEFINED_TAG 0 0).
  - intros h t k k' [= <-]. by exists (with_tag t).
  - intros h q k k' [= <-]. by exists (with_qual q).
  - by intros a h k k' [= <-].
Defined.

Definition alib0 : astate alib := AState (EState [] [] [] 0)
  (ALib {[1 := ACE ACL_USER_OBJ 0 6; 2 := ACE ACL_GROUP_OBJ 0 4; 3 := ACE ACL_OTHER 0 4]} 0).

Lemma parseACL_roundtrip_witness :
  parseACL (cs "user:1000:rw-,other::r--") (λ _, 0) true alib0 =
  (Ret (Some [ACE ACL_USER 1000 6; ACE ACL_OTHER 0 4]), alib0).
Proof.
  apply (parseACL_roundtrip [ACE ACL_USER 1000 6; ACE ACL_OTHER 0 4] (λ _, 0) alib0).
  - discriminate.
  - apply Nat.leb_le. vm_compute. reflexivity.
  - repeat (apply Forall_cons; split; [rw /ace_ok; vm_compute; intuition congruence|]).
    by apply Forall_nil.
Defined.

Lemma applyEntry_refines_witness :
  strict (lib_fails (K := alib)) (applyEntry 10 false 1 (ACE ACL_USER 1000 6))
    (λ acl' s', acl_edit false (ACE ACL_USER 1000 6)
       (al_map 1 (a_os alib0)) (al_map acl' (a_os s'))) alib0.
Proof.
  apply (applyEntry_refines 10 false 1 (ACE ACL_USER 1000 6) alib0).
  - cbn. lia.
  - vm_compute. lia.
Defined.

(** This library has no call that fails, so that the entry is added. *)
Lemma applyEntry_example :
  ∃ acl' s', applyEntry 10 false 1 (ACE ACL_USER 1000 6) alib0 = (Ret acl', s') ∧
    lib_map (a_os s') !! 4 = Some (ACE ACL_USER 1000 6) ∧ lib_map (a_os s') !! 1 = Some (ACE ACL_USER_OBJ 0 6).
Proof. eexists _, _. split; [vm_compute; reflexivity|]. done. Qed.
