(* ===== verification/NsCapable.v ===== *)
(** * Who has capabilities in a namespace: [namespaces/ns_capable.c], and the
      mapping files of [namespaces/userns_functions.c]

    System calls are the operations of [NsOS].  [NsOSOk] says what they do to
    the table of open descriptors, over a forest of user namespaces: [parent_of]
    is the parent of a namespace, and [in_scope] tells which namespaces the kernel
    shows to the caller, those at or below its own. *)

From S2P Require Import Prelude CStdlib Process.

Definition CLONE_NEWUSER : Z := 0x10000000.

Class NsOS (K : Type) := {
  no_strerror : Z → cstring;
  no_open : cstring → K → res Z * K;
  no_close : Z → K → res unit * K;
  no_write : Z → list ascii → K → res Z * K;
  no_fstat : Z → K → res (Z * Z) * K;
  no_nstype : Z → K → res Z * K;
  no_userns : Z → K → res Z * K;
  no_parent : Z → K → res Z * K;
  no_owner_uid : Z → K → res Z * K;
  no_cap_get_pid : Z → K → res Z * K;
  no_cap_to_text : Z → K → res cstring * K;
  no_cap_free : K → K;
  no_fopen : cstring → K → res Z * K;
  no_fgets : Z → nat → K → option cstring * K;
  no_fclose : Z → K → K;
  no_stack : K → Z;
  no_errno : K → Z;
}.

#[export] Instance ns_strerror {K} `{!NsOS K} : Strerror K := no_strerror.

Section ns_capable.
Context {K : Type} `{!NsOS K}.
Abbreviation P := (M (proc K)).

Definition kernel (f : K → K) : P unit := modify (λ s, Proc (p_out s) (p_err s) (f (p_os s))).

Definition display_process_capabilities (pid : Z) : P unit :=
  caps ← checked "cap_get_proc" (no_cap_get_pid pid) ;
  cap_string ← checked "cap_to_text" (no_cap_to_text caps) ;
  printf (cs "Capabilities: " ++ cap_string ++ [NL]) ;;
  kernel no_cap_free ;; kernel no_cap_free.

(** [sscanf(line, "Uid: %*d %d %*d %*d", &uid)]: the second number, if the
    line has two. *)
Definition scan_euid (line : cstring) : option Z :=
  let '(_, r1, _) := strtol (drop 4 line) 10 in
  if bool_decide (r1 = drop 4 line) then None
  else
    let '(v, r2, _) := strtol r1 10 in
    if bool_decide (r2 = r1) then None else Some (to_int v).

Fixpoint euid_loop (fuel : nat) (path : cstring) (fp : Z) : P Z :=
  match fuel with
  | O => stop NoFuel
  | S f =>
      line ← psys (no_fgets fp 1024) ;
      match line with
      | None =>
          eprintf (cs "Failure scanning for 'Uid:' in " ++ path ++ [NL]) ;; exit EXIT_FAILURE
      | Some line =>
          if bool_decide (cs "Uid:" `prefix_of` line) then
            uninit ← gets (no_stack ∘ p_os) ;
            kernel (no_fclose fp) ;;
            mret (default uninit (scan_euid line))
          else euid_loop f path fp
      end
  end.

Definition euid_of_process (fuel : nat) (pid : Z) : P Z :=
  let path := snprintf PATH_MAX (cs "/proc/" ++ fmt_d pid ++ cs "/status") in
  fp ← checked "fopen-/proc/PID/status" (no_fopen path) ;
  euid_loop fuel path fp.

Definition ns_equal (nsfd1 nsfd2 : Z) : P bool :=
  sb1 ← checked "fstat-nsfd1" (no_fstat nsfd1) ;
  sb2 ← checked "fstat-nsfd2" (no_fstat nsfd2) ;
  mret (bool_decide (sb1.1 = sb2.1 ∧ sb1.2 = sb2.2)).

Definition ns_type (ns_fd : Z) : P Z := checked "ioctl-NS_GET_NSTYPE" (no_nstype ns_fd).

Definition owning_userns_of (ns_fd : Z) : P Z := checked "ioctl-NS_GET_USERNS" (no_userns ns_fd).

Definition uid_of_userns_owner (userns_fd : Z) : P Z :=
  checked "ioctl-NS_GET_OWNER_UID" (no_owner_uid userns_fd).

Fixpoint ancestor_loop (fuel : nat) (fd_x child : Z) : P Z :=
  match fuel with
  | O => stop NoFuel
  | S f =>
      r ← psys (no_parent child) ;
      match r with
      | inl e => if negb (e =? EPERM) then errExit (cs "ioctl-NS_GET_PARENT") e else mret (-1)
      | inr parent =>
          eq ← ns_equal parent fd_x ;
          if eq : bool then psys_ (no_close parent) ;; mret child
          else psys_ (no_close child) ;; ancestor_loop f fd_x parent
      end
  end.

Definition is_ancestor_userns (fuel : nat) (fd_x fd_y : Z) : P Z := ancestor_loop fuel fd_x fd_y.

(** The report on a process in an ancestor namespace. *)
Definition report_ancestor (fuel : nat) (pid : Z) (pid_str : cstring) (desc_userns target_userns : Z) :
    P unit :=
  euid ← euid_of_process fuel pid ;
  owner ← uid_of_userns_owner desc_userns ;
  let is_owner_of_userns := to_uint euid =? to_uint owner in
  printf (cs "PID " ++ pid_str ++ cs " is in an ancestor user namespace") ;;
  printf (if is_owner_of_userns then cs " and its effective UID matches" ++ [NL]
          else cs ", but its effective UID does not match" ++ [NL]) ;;
  printf (cs "the owner of the immediate child user namespace of that ancestor namespace." ++ [NL]) ;;
  (if is_owner_of_userns then
     printf (cs "Therefore, subject to LSM checks, it has all capabilities in the target" ++
             [NL] ++ cs "namespace!" ++ [NL])
   else
     printf (cs "Therefore, subject to LSM checks, it has only the capabilities that are in its" ++
             [NL] ++ cs "sets, which are:" ++ [NL]) ;;
     display_process_capabilities pid) ;;
  when (negb (desc_userns =? target_userns))
    (checked "close-desc_userns" (no_close desc_userns)).

Definition ns_capable_main (fuel : nat) (argv : list cstring) : P unit :=
  match argv with
  | [_; pid_str; ns_file] =>
      let pid := atoi pid_str in
      target_ns ← checked "open-ns-file" (no_open ns_file) ;
      t ← ns_type target_ns ;
      target_userns ← (if t =? CLONE_NEWUSER then mret target_ns
                       else u ← owning_userns_of target_ns ;
                            psys_ (no_close target_ns) ;; mret u) ;
      let path := snprintf PATH_MAX (cs "/proc/" ++ pid_str ++ cs "/ns/user") in
      pid_userns ← checked "open-PID" (no_open path) ;
      eq ← ns_equal pid_userns target_userns ;
      (if eq : bool then
         printf (cs "PID " ++ pid_str ++ cs " is in the target namespace." ++ [NL]) ;;
         printf (cs "Subject to LSM checks, it has the following capabilities:" ++ [NL]) ;;
         display_process_capabilities pid
       else
         desc_userns ← is_ancestor_userns fuel pid_userns target_userns ;
         if desc_userns =? -1 then
           printf (cs "PID " ++ pid_str ++ cs " is not in an ancestor user namespace." ++ [NL]) ;;
           printf (cs "Therefore, it has no capabilities in the target namespace." ++ [NL])
         else report_ancestor fuel pid pid_str desc_userns target_userns) ;;
      checked "close-target_userns" (no_close target_userns) ;;
      checked "close-pid_userns" (no_close pid_userns) ;;
      exit EXIT_SUCCESS
  | _ =>
      eprintf (cs "Usage: " ++ default [] (head argv) ++ cs " PID ns-file" ++ [NL]) ;;
      eprintf (cs "	'ns-file' is a /proc/PID/ns/xxxx file" ++ [NL]) ;;
      exit EXIT_FAILURE
  end.

(** ** [update_map] and [proc_setgroups_write] *)

Definition comma_to_newline (mapping : cstring) : cstring :=
  (λ c, if decide (c = ","%char) then NL else c) <$> mapping.

Definition report_errno (what path : cstring) (errno : Z) : P unit :=
  eprintf (what ++ path ++ cs ": " ++ strerror errno ++ [NL]).

(** Yields the status and the edited [mapping]. *)
Definition update_map (mapping map_file : cstring) : P (Z * cstring) :=
  let mapping' := comma_to_newline mapping in
  fd ← psys (no_open map_file) ;
  match fd with
  | inl e => report_errno (cs "ERROR: open ") map_file e ;; mret (-1, mapping')
  | inr fd =>
      w ← psys (no_write fd mapping') ;
      let status :=
        match w with
        | inr n => if n =? Z.of_nat (length mapping) then 0 else -1
        | inl _ => -1
        end in
      stale ← gets (no_errno ∘ p_os) ;
      when (status =? -1)
        (report_errno (cs "ERROR: writing to ") map_file
           (match w with inl e => e | inr _ => stale end)) ;;
      psys_ (no_close fd) ;;
      mret (status, mapping')
  end.

Definition proc_setgroups_write (child_pid : Z) (str : cstring) : P Z :=
  let setgroups_path := snprintf PATH_MAX (cs "/proc/" ++ fmt_d child_pid ++ cs "/setgroups") in
  fd ← psys (no_open setgroups_path) ;
  match fd with
  | inl e =>
      if e =? ENOENT then mret 0
      else report_errno (cs "ERROR: open ") setgroups_path e ;; mret (-1)
  | inr fd =>
      w ← psys (no_write fd str) ;
      status ← match w with
               | inl e => report_errno (cs "ERROR: writing to ") setgroups_path e ;; mret (-1)
               | inr _ => mret 0
               end ;
      psys_ (no_close fd) ;;
      mret status
  end.
End ns_capable.

(** ** What the kernel guarantees *)

Class NsOSOk (K : Type) `{!NsOS K} := {
  fds : K → gmap Z Z;
  parent_of : Z → option Z;
  depth : Z → nat;
  ns_id : Z → Z * Z;
  ns_id_inj : Inj (=) (=) ns_id;
  depth_parent n m : parent_of n = Some m → (depth m < depth n)%nat;
  in_scope : Z → Prop;
  in_scope_child n m : parent_of n = Some m → in_scope m → in_scope n;
  no_parent_ok fd k p k' :
    no_parent fd k = (inr p, k') →
    0 ≤ p ∧ fds k !! p = None ∧
    ∃ n m, fds k !! fd = Some n ∧ parent_of n = Some m ∧ in_scope m ∧ fds k' = <[p := m]> (fds k);
  no_parent_eperm fd k k' :
    no_parent fd k = (inl EPERM, k') →
    fds k' = fds k ∧ ∀ n m, fds k !! fd = Some n → parent_of n = Some m → ¬ in_scope m;
  no_fstat_ok fd k st k' :
    no_fstat fd k = (inr st, k') →
    fds k' = fds k ∧ ∀ n, fds k !! fd = Some n → st = ns_id n;
  no_close_ok fd k r k' : no_close fd k = (r, k') → fds k' = delete fd (fds k);
}.

Section ancestor.
Context {K : Type} `{OS : !NsOS K} `{Ok : !NsOSOk K}.

(** [c] is [y] or one of its ancestors. *)
Definition par (n m : Z) : Prop := parent_of n = Some m.
Definition up (y c : Z) : Prop := rtc par y c.

Lemma up_step c m c' : parent_of c = Some m → up c c' → c' = c ∨ up m c'.
Proof.
  intros Hp Hup. inversion Hup as [|? m' ? Hp' Hup']; subst; [by left|].
  rw /par Hp in Hp'. injection Hp' as <-. by right.
Qed.

(** No namespace on the way up from [y] has [x] as its parent, as far as the caller can see. *)
Definition not_ancestor (x y : Z) : Prop :=
  ∀ c, up y c → parent_of c = Some x → ¬ in_scope x.

(** Beyond a namespace out of scope everything is out of scope. *)
Lemma out_of_scope m c : ¬ in_scope m → up m c → ¬ in_scope c.
Proof.
  intros Hm Hup. induction Hup as [|m m' c Hp _ IH]; [done|]. apply IH.
  intros Hs. apply Hm. exact (in_scope_child _ _ Hp Hs).
Qed.

(** The calls that end the process: [ioctl] with an error other than [EPERM], and [fstat]. *)
Definition ancestor_fails : Prop :=
  (∃ fd (k : K) e k', no_parent fd k = (inl e, k') ∧ e ≠ EPERM) ∨
  (∃ fd (k : K) e k', no_fstat fd k = (inl e, k')).

Lemma ns_equal_spec fd1 fd2 n1 n2 (s : proc K) (Q : bool → proc K → Prop) :
  fds (p_os s) !! fd1 = Some n1 → fds (p_os s) !! fd2 = Some n2 →
  (∀ s', fds (p_os s') = fds (p_os s) → Q (bool_decide (n1 = n2)) s') →
  strict ancestor_fails (ns_equal fd1 fd2) Q s.
Proof.
  intros H1 H2 HQ. rw /ns_equal.
  apply strict_bind, strict_checked; [|intros e k He; right; eauto 6]. intros st1 k1 Hk1.
  destruct (no_fstat_ok _ _ _ _ Hk1) as [Hf1 Hs1]. rw (Hs1 _ H1).
  apply strict_bind, strict_checked; [|intros e k He; right; eauto 6]. intros st2 k2 Hk2. cbn [p_os] in *.
  destruct (no_fstat_ok _ _ _ _ Hk2) as [Hf2 Hs2]. rw (Hs2 n2); [by rw Hf1|].
  apply strict_ret.
  assert (bool_decide ((ns_id n1).1 = (ns_id n2).1 ∧ (ns_id n1).2 = (ns_id n2).2) =
          bool_decide (n1 = n2)) as ->.
  { apply bool_decide_ext. split; [|by intros ->]. intros [Ha Hb]. apply ns_id_inj.
    by rw (surjective_pairing (ns_id n1)) Ha Hb -surjective_pairing. }
  apply HQ. cbn. congruence.
Qed.

Lemma strict_close F fd (Q : unit → proc K → Prop) (s : proc K) :
  (∀ s', fds (p_os s') = delete fd (fds (p_os s)) → Q tt s') → strict F (psys_ (no_close fd)) Q s.
Proof.
  intros HQ. rw /psys_. apply strict_bind, strict_psys. intros r k Hk. apply strict_ret, HQ.
  exact (no_close_ok _ _ _ _ Hk).
Qed.

Lemma ancestor_loop_spec fuel fd_x child x y c (s : proc K) :
  fds (p_os s) !! fd_x = Some x → fds (p_os s) !! child = Some c → child ≠ fd_x →
  0 ≤ child → (depth c < fuel)%nat → up y c →
  (∀ c', up y c' → up c c' ∨ parent_of c' ≠ Some x) →
  strict ancestor_fails (ancestor_loop fuel fd_x child)
    (λ r s', fds (p_os s') !! fd_x = Some x ∧
       ((r = -1 ∧ not_ancestor x y) ∨
        (0 ≤ r ∧ ∃ d, fds (p_os s') !! r = Some d ∧ up y d ∧ parent_of d = Some x ∧ in_scope x))) s.
Proof.
  elim: fuel child c s => [|fuel IH] child c s Hx Hc Hne H0 Hfuel Hup Hseen; [lia|].
  cbn [ancestor_loop]. apply strict_bind, strict_psys. intros [e|p] k1 Hk1.
  - destruct (Z.eqb_spec e EPERM) as [->|He]; cbn [negb].
    2:{ split; [done|]. left. by exists child, (p_os s), e, k1. }
    apply strict_ret.
    destruct (no_parent_eperm _ _ _ Hk1) as [Hf Hnone]. cbn. rw Hf. split; [done|]. left.
    split; [done|]. intros c' Hc' Hp'. destruct (Hseen c' Hc') as [Hup'|?]; [|done].
    inversion Hup' as [|? m ? Hp Hup2]; subst; [exact (Hnone _ _ Hc Hp')|].
    apply (out_of_scope m); [exact (Hnone _ _ Hc Hp)|]. eapply rtc_r; [exact Hup2|exact Hp'].
  - destruct (no_parent_ok _ _ _ _ Hk1) as (Hp0 & Hfree & n & m & Hn & Hm & Hsc & Hf).
    rw Hc in Hn. injection Hn as <-.
    assert (p ≠ fd_x) as Hpx by congruence. assert (p ≠ child) as Hpc by congruence.
    apply strict_bind. eapply ns_equal_spec; cbn [p_os].
    { rw Hf. apply lookup_insert_eq. }
    { rw Hf lookup_insert_ne //. exact Hx. }
    intros s2 Hf2. case_bool_decide as Heq.
    + apply strict_bind, strict_close. intros s3 Hf3. apply strict_ret. rw Hf3 Hf2 Hf.
      split; [rw lookup_delete_ne // lookup_insert_ne //|]. right. split; [done|].
      exists c. rw lookup_delete_ne // lookup_insert_ne //. by subst.
    + apply strict_bind, strict_close. intros s3 Hf3.
      apply (IH p m); [..|done|done| | |].
      * rw Hf3 Hf2 Hf. rw lookup_delete_ne // lookup_insert_ne //.
      * rw Hf3 Hf2 Hf lookup_delete_ne; [congruence|]. apply lookup_insert_eq.
      * pose proof (depth_parent _ _ Hm). lia.
      * eapply rtc_r; [exact Hup|done].
      * intros c' Hc'. destruct (Hseen c' Hc') as [Hup'|?]; [|by right].
        destruct (up_step _ _ _ Hm Hup') as [->|?]; [right; congruence|by left].
Qed.

(** C10: is_ancestor_userns decides ancestry within the scope of the caller: walking up from
    fd_y it returns a descriptor for the namespace whose parent is fd_x's, which is
    then in scope, or -1 when fd_x's namespace is the parent of none on the way or
    is out of scope; fd_x stays open.  With fuel above the depth of fd_y's
    namespace it returns, unless an ioctl fails with an error other than EPERM or
    an fstat fails. *)
Theorem is_ancestor_userns_correct fuel fd_x fd_y x y (s : proc K) :
  fds (p_os s) !! fd_x = Some x → fds (p_os s) !! fd_y = Some y → fd_y ≠ fd_x → 0 ≤ fd_y →
  (depth y < fuel)%nat →
  strict ancestor_fails (is_ancestor_userns fuel fd_x fd_y)
    (λ r s', fds (p_os s') !! fd_x = Some x ∧
       ((r = -1 ∧ not_ancestor x y) ∨
        (0 ≤ r ∧ ∃ d, fds (p_os s') !! r = Some d ∧ up y d ∧ parent_of d = Some x ∧ in_scope x))) s.
Proof.
  intros. eapply (ancestor_loop_spec fuel fd_x fd_y x y y); try done; [apply rtc_refl|].
  intros c' Hc'. by left.
Qed.
End ancestor.

(** ** A concrete kernel

    User namespaces form a chain 0, 1, 2, ... below the initial one, in which the caller
    is; a new descriptor is the lowest free one from 3.  The process under test
    runs in namespace [ns_pid], and any other path opens namespace [ns_target]. *)

Record nsim := NSim { ns_fds : gmap Z Z; ns_pid : Z; ns_target : Z; ns_lines : list cstring }.

Definition chain_parent (n : Z) : option Z := if 0 <? n then Some (n - 1) else None.

Definition new_fd (n : Z) (k : nsim) : res Z * nsim :=
  match list_find (λ fd, ns_fds k !! fd = None) (Z.of_nat <$> seq 3 64) with
  | Some (_, fd) => (inr fd, NSim (<[fd := n]> (ns_fds k)) (ns_pid k) (ns_target k) (ns_lines k))
  | None => (inl 24, k)
  end.

#[export] Instance nsim_os : NsOS nsim := {|
  no_strerror e := if e =? EBADF then cs "Bad file descriptor" else cs "error";
  no_open p k := new_fd (if bool_decide (p = cs "/proc/7/ns/user") then ns_pid k else ns_target k) k;
  no_close fd k :=
    (if bool_decide (ns_fds k !! fd = None) then inl EBADF else inr tt,
     NSim (delete fd (ns_fds k)) (ns_pid k) (ns_target k) (ns_lines k));
  no_write _ d k := (inr (Z.of_nat (length d)), k);
  no_fstat fd k := (match ns_fds k !! fd with Some n => inr (4, n) | None => inl EBADF end, k);
  no_nstype fd k := (inr CLONE_NEWUSER, k);
  no_userns fd k := (inl EINVAL, k);
  no_parent fd k :=
    match ns_fds k !! fd with
    | None => (inl EBADF, k)
    | Some n => match chain_parent n with
                | Some m => new_fd m k
                | None => (inl EPERM, k)
                end
    end;
  no_owner_uid fd k := (inr 1000, k);
  no_cap_get_pid _ k := (inr 1, k);
  no_cap_to_text _ k := (inr (cs "= cap_chown+ep"), k);
  no_cap_free k := k;
  no_fopen _ k := (inr 1, k);
  no_fgets _ _ k := match ns_lines k with
                    | [] => (None, k)
                    | l :: r => (Some l, NSim (ns_fds k) (ns_pid k) (ns_target k) r)
                    end;
  no_fclose _ k := k;
  no_stack k := 0;
  no_errno k := 0;
|}.

Lemma new_fd_ok n k p k' :
  new_fd n k = (inr p, k') → 0 ≤ p ∧ ns_fds k !! p = None ∧ ns_fds k' = <[p := n]> (ns_fds k).
Proof.
  rw /new_fd. destruct (list_find _ _) as [[i fd]|] eqn:E; [|done]. intros [= <- <-].
  apply list_find_Some in E as (Hi & Hfree & _). split_and!; [|done|done].
  apply list_lookup_fmap_Some in Hi as (x & -> & _). lia.
Qed.

#[export, refine] Instance nsim_ok : NsOSOk nsim := {|
  fds := ns_fds; parent_of := chain_parent; depth n := Z.to_nat n; ns_id n := (4, n);
  in_scope _ := True;
|}.
Proof.
  - intros n m. rw /chain_parent. destruct (Z.ltb_spec 0 n); [|done]. intros [= <-]. lia.
  - done.
  - intros fd k p k'. cbn -[chain_parent new_fd]. destruct (ns_fds k !! fd) as [n|] eqn:Hn; [|done].
    destruct (chain_parent n) as [m|] eqn:Hm; [|done]. intros (H0 & Hf & Hk)%new_fd_ok.
    split_and!; [done|done|]. by exists n, m.
  - intros fd k k'. cbn -[chain_parent new_fd]. destruct (ns_fds k !! fd) as [n|] eqn:Hn; [|done].
    destruct (chain_parent n) as [m|] eqn:Hm.
    + rw /new_fd. by destruct (list_find _ _) as [[? ?]|].
    + intros [= <-]. split; [done|]. intros ? m [= <-]. congruence.
  - intros fd k st k'. cbn. destruct (ns_fds k !! fd) as [n|] eqn:Hn; [|done].
    intros [= <- <-]. split; [done|]. by intros ? [= <-].
  - by intros fd k r k' [= <- <-].
Defined.

Definition nsim0 (pid target : Z) : nsim :=
  NSim ∅ pid target [cs "Name: sh"; cs "Uid:	1000	1000	1000	1000"].

(** The process in the initial namespace, descriptors 3 and 4 open on
    namespaces 0 and 2. *)
Definition nsim_two : proc nsim := Proc [] [] (NSim {[3 := 0; 4 := 2]} 0 2 []).

Lemma is_ancestor_userns_correct_witness :
  strict (ancestor_fails (K := nsim)) (is_ancestor_userns 10 3 4)
    (λ r s', fds (p_os s') !! 3 = Some 0 ∧
       ((r = -1 ∧ not_ancestor 0 2) ∨
        (0 ≤ r ∧ ∃ d, fds (p_os s') !! r = Some d ∧ up 2 d ∧ parent_of d = Some 0 ∧ in_scope 0)))
    nsim_two.
Proof.
  apply (is_ancestor_userns_correct 10 3 4 0 2 nsim_two); first [reflexivity | lia | idtac].
  vm_compute. lia.
Defined.

(** The same kernel for a caller in namespace 1, to which it does not show namespace 0. *)
Definition nsim_inner : NsOS nsim := {|
  no_strerror := no_strerror; no_open := no_open; no_close := no_close; no_write := no_write;
  no_fstat := no_fstat; no_nstype := no_nstype; no_userns := no_userns;
  no_parent := λ fd k,
    match ns_fds k !! fd with
    | None => (inl EBADF, k)
    | Some n => match chain_parent n with
                | Some m => if 1 <=? m then new_fd m k else (inl EPERM, k)
                | None => (inl EPERM, k)
                end
    end;
  no_owner_uid := no_owner_uid; no_cap_get_pid := no_cap_get_pid; no_cap_to_text := no_cap_to_text;
  no_cap_free := no_cap_free; no_fopen := no_fopen; no_fgets := no_fgets; no_fclose := no_fclose;
  no_stack := no_stack; no_errno := no_errno |}.

(** The program takes every [EPERM] for the end of the hierarchy: run in namespace 1 it says
    that a process in namespace 0 is not in an ancestor of namespace 2. *)
Lemma ancestor_out_of_scope :
  let '(o, s) :=
    @ns_capable_main nsim nsim_inner 10 [cs "ns_capable"; cs "7"; cs "/proc/9/ns/user"]
      (Proc [] [] (nsim0 0 2)) in
  p_out s = cs "PID 7 is not in an ancestor user namespace." ++ [NL] ++
    cs "Therefore, it has no capabilities in the target namespace." ++ [NL].
Proof. vm_compute. reflexivity. Qed.

(** is_ancestor_userns closes the descriptor it is given when it walks past it, and main
    closes that descriptor again: with the process two namespaces above the
    target, main reports its verdict and then fails with EBADF, exiting with
    EXIT_FAILURE. *)
Lemma ancestor_walk_double_close :
  let '(o, s) :=
    ns_capable_main 10 [cs "ns_capable"; cs "7"; cs "/proc/9/ns/user"] (Proc [] [] (nsim0 0 2)) in
  o = Exit EXIT_FAILURE ∧ p_err s = cs "close-target_userns: Bad file descriptor" ++ [NL] ∧
  p_out s ≠ [].
Proof. vm_compute. split_and!; [reflexivity|reflexivity|discriminate]. Qed.
