(* ===== verification/ShmXfr.v ===== *)
(** * Binary semaphores and a transfer through shared memory

    [svsem/binary_sems.c] and [svsem/event_flags.c] as functions over the
    semaphore calls, and [svshm/svshm_xfr_writer.c] with
    [svshm/svshm_xfr_reader.c] as two concurrent processes: a state with the
    two semaphores, the shared segment and the control point of each process,
    and a step for every system call and every access to the segment. *)

From S2P Require Import Prelude.

(** ** Semaphore protocols *)

Class SemOS (K : Type) := {
  so_setval : Z → Z → Z → K → res Z * K;
  so_getval : Z → Z → K → res Z * K;
  so_semop : Z → Z → Z → Z → K → res Z * K;
}.

Definition SEM_UNDO : Z := 0x1000.

Section sems.
Context {K : Type} `{!SemOS K}.

Definition ksys {A} (f : K → A * K) : M K A := λ k, let '(a, k') := f k in (Ret a, k').

Definition initSemAvailable (semId semNum : Z) : M K (res Z) := ksys (so_setval semId semNum 1).
Definition initSemInUse (semId semNum : Z) : M K (res Z) := ksys (so_setval semId semNum 0).

Fixpoint reserveSem (fuel : nat) (bsUseSemUndo bsRetryOnEintr : bool) (semId semNum : Z) :
    M K (res Z) :=
  match fuel with
  | O => stop NoFuel
  | S f =>
      r ← ksys (so_semop semId semNum (-1) (if bsUseSemUndo then SEM_UNDO else 0)) ;
      match r with
      | inl e =>
          if negb (e =? EINTR) || negb bsRetryOnEintr then mret (inl e)
          else reserveSem f bsUseSemUndo bsRetryOnEintr semId semNum
      | inr _ => mret (inr 0)
      end
  end.

Definition releaseSem (bsUseSemUndo : bool) (semId semNum : Z) : M K (res Z) :=
  ksys (so_semop semId semNum 1 (if bsUseSemUndo then SEM_UNDO else 0)).

Fixpoint waitForEventFlag (fuel : nat) (semId semNum : Z) : M K (res Z) :=
  match fuel with
  | O => stop NoFuel
  | S f =>
      r ← ksys (so_semop semId semNum 0 0) ;
      match r with
      | inl e => if negb (e =? EINTR) then mret (inl e) else waitForEventFlag f semId semNum
      | inr _ => mret (inr 0)
      end
  end.

Definition clearEventFlag (semId semNum : Z) : M K (res Z) := ksys (so_setval semId semNum 1).
Definition setEventFlag (semId semNum : Z) : M K (res Z) := ksys (so_setval semId semNum 0).

Definition getFlagState (semId semNum : Z) : M K (res bool) :=
  v ← ksys (so_getval semId semNum) ;
  match v with
  | inl e => mret (inl e)
  | inr sem_val => mret (inr (sem_val =? 0))
  end.

(** The kernel interrupts a call [n] times and then answers [r]. *)
Inductive answers (call : K → res Z * K) : nat → K → res Z → K → Prop :=
| answer_now k r k' : call k = (r, k') → r ≠ inl EINTR → answers call 0 k r k'
| answer_later n k k1 r k' :
    call k = (inl EINTR, k1) → answers call n k1 r k' → answers call (S n) k r k'.

Definition ret0 (r : res Z) : res Z := match r with inl e => inl e | inr _ => inr 0 end.

(** Reserving a semaphore retries through any number of interruptions and returns what
    the kernel finally answers. *)
Lemma reserveSem_retries fuel undo semId semNum n k r k' :
  (n < fuel)%nat →
  answers (so_semop semId semNum (-1) (if undo : bool then SEM_UNDO else 0)) n k r k' →
  reserveSem fuel undo true semId semNum k = (Ret (ret0 r), k').
Proof.
  intros Hf Ha. elim: Ha fuel Hf => {n k r k'} [k r k' Hc Hr|n k k1 r k' Hc _ IH] [|fuel] Hf;
    try lia; cbn [reserveSem]; rw /mbind /M_bind /ksys Hc.
  - destruct r as [e|v]; [|done]. destruct (Z.eqb_spec e EINTR); [congruence|done].
  - cbn. apply IH. lia.
Qed.

Lemma waitForEventFlag_answer fuel semId semNum n k r k' :
  (n < fuel)%nat → answers (so_semop semId semNum 0 0) n k r k' →
  waitForEventFlag fuel semId semNum k = (Ret (ret0 r), k').
Proof.
  intros Hf Ha. elim: Ha fuel Hf => {n k r k'} [k r k' Hc Hr|n k k1 r k' Hc _ IH] [|fuel] Hf;
    try lia; cbn [waitForEventFlag]; rw /mbind /M_bind /ksys Hc.
  - destruct r as [e|v]; [|done]. destruct (Z.eqb_spec e EINTR); [congruence|done].
  - cbn. apply IH. lia.
Qed.
End sems.

(** A semaphore of value 1 whose first two operations are interrupted. *)
Definition sem_sim (k : nat * Z) (op : Z) : res Z * (nat * Z) :=
  match k with
  | (S n, v) => (inl EINTR, (n, v))
  | (O, v) => if v + op <? 0 then (inl EAGAIN, k) else (inr 0, (O, v + op))
  end.

#[export] Instance sem_sim_os : SemOS (nat * Z) := {|
  so_setval _ _ v k := (inr 0, (k.1, v));
  so_getval _ _ k := (inr k.2, k);
  so_semop _ _ op _ k := sem_sim k op;
|}.

Lemma reserveSem_retries_witness :
  reserveSem 5 false true 0 0 (2%nat, 1) = (Ret (ret0 (inr 0)), (0%nat, 0)).
Proof.
  apply (reserveSem_retries 5 false 0 0 2 (2%nat, 1) (inr 0) (0%nat, 0)); [lia|].
  apply (answer_later _ 1 _ (1%nat, 1)); [reflexivity|].
  apply (answer_later _ 0 _ (0%nat, 1)); [reflexivity|].
  apply answer_now; [reflexivity|discriminate].
Defined.

(** ** The transfer *)

Definition BUF_SIZE : nat := 1024.

Inductive wpc :=
| WReserve | WRead | WRelease | WTest | WAdd | WFinal | WRemove | WDone | WFailed.
Inductive rpc :=
| RReserve | RTest | RWrite | RRelease | RDetach | RFinal | RDone | RFailed.

#[export] Instance wpc_eq_dec : EqDecision wpc.
Proof. solve_decision. Defined.
#[export] Instance rpc_eq_dec : EqDecision rpc.
Proof. solve_decision. Defined.

(** [x_left] is standard input not yet read, [x_out] what reached standard
    output; the counters are [int]s. *)
Record xfr := Xfr {
  x_write_sem : Z; x_read_sem : Z;
  x_cnt : Z; x_buf : list ascii;
  x_w : wpc; x_w_bytes : Z; x_w_xfrs : Z; x_left : list ascii;
  x_r : rpc; x_r_bytes : Z; x_r_xfrs : Z; x_out : list ascii;
}.

(** A step of the writer.  Reading yields at most [BUF_SIZE] bytes and none
    only at end of file. *)
Inductive wstep : xfr → xfr → Prop :=
| w_reserve ws rs c b wb wx l rp rb rx o :
    0 < ws →
    wstep (Xfr ws rs c b WReserve wb wx l rp rb rx o)
          (Xfr (ws - 1) rs c b WRead wb wx l rp rb rx o)
| w_read ws rs c b wb wx d l rp rb rx o :
    (length d ≤ BUF_SIZE)%nat → (d = [] → l = []) →
    wstep (Xfr ws rs c b WRead wb wx (d ++ l) rp rb rx o)
          (Xfr ws rs (Z.of_nat (length d)) (store b 0 d) WRelease wb wx l rp rb rx o)
| w_read_error ws rs c b wb wx l rp rb rx o :
    wstep (Xfr ws rs c b WRead wb wx l rp rb rx o)
          (Xfr ws rs (-1) b WFailed wb wx l rp rb rx o)
| w_release ws rs c b wb wx l rp rb rx o :
    wstep (Xfr ws rs c b WRelease wb wx l rp rb rx o)
          (Xfr ws (rs + 1) c b WTest wb wx l rp rb rx o)
| w_test ws rs c b wb wx l rp rb rx o :
    wstep (Xfr ws rs c b WTest wb wx l rp rb rx o)
          (Xfr ws rs c b (if c =? 0 then WFinal else WAdd) wb wx l rp rb rx o)
| w_add ws rs c b wb wx l rp rb rx o :
    wstep (Xfr ws rs c b WAdd wb wx l rp rb rx o)
          (Xfr ws rs c b WReserve (to_int (wb + c)) (to_int (wx + 1)) l rp rb rx o)
| w_final ws rs c b wb wx l rp rb rx o :
    0 < ws →
    wstep (Xfr ws rs c b WFinal wb wx l rp rb rx o)
          (Xfr (ws - 1) rs c b WRemove wb wx l rp rb rx o)
| w_remove ws rs c b wb wx l rp rb rx o :
    wstep (Xfr ws rs c b WRemove wb wx l rp rb rx o)
          (Xfr ws rs c b WDone wb wx l rp rb rx o).

(** A step of the reader; a write that is not complete ends it. *)
Inductive rstep : xfr → xfr → Prop :=
| r_reserve ws rs c b wp wb wx l rb rx o :
    0 < rs →
    rstep (Xfr ws rs c b wp wb wx l RReserve rb rx o)
          (Xfr ws (rs - 1) c b wp wb wx l RTest rb rx o)
| r_test ws rs c b wp wb wx l rb rx o :
    rstep (Xfr ws rs c b wp wb wx l RTest rb rx o)
          (if c =? 0 then Xfr ws rs c b wp wb wx l RDetach rb rx o
           else Xfr ws rs c b wp wb wx l RWrite (to_int (rb + c)) rx o)
| r_write ws rs c b wp wb wx l rb rx o :
    rstep (Xfr ws rs c b wp wb wx l RWrite rb rx o)
          (Xfr ws rs c b wp wb wx l RRelease rb rx (o ++ take (Z.to_nat c) b))
| r_write_error ws rs c b wp wb wx l rb rx o (n : nat) :
    (n < Z.to_nat c)%nat →
    rstep (Xfr ws rs c b wp wb wx l RWrite rb rx o)
          (Xfr ws rs c b wp wb wx l RFailed rb rx (o ++ take n b))
| r_release ws rs c b wp wb wx l rb rx o :
    rstep (Xfr ws rs c b wp wb wx l RRelease rb rx o)
          (Xfr (ws + 1) rs c b wp wb wx l RReserve rb (to_int (rx + 1)) o)
| r_detach ws rs c b wp wb wx l rb rx o :
    rstep (Xfr ws rs c b wp wb wx l RDetach rb rx o)
          (Xfr ws rs c b wp wb wx l RFinal rb rx o)
| r_final ws rs c b wp wb wx l rb rx o :
    rstep (Xfr ws rs c b wp wb wx l RFinal rb rx o)
          (Xfr (ws + 1) rs c b wp wb wx l RDone rb rx o).

Definition step (s s' : xfr) : Prop := wstep s s' ∨ rstep s s'.

(** The state once the writer has initialised the semaphores and both
    processes are attached; the segment's old content is arbitrary. *)
Definition start (input : list ascii) (s : xfr) : Prop :=
  ∃ c b, length b = BUF_SIZE ∧ s = Xfr 1 0 c b WReserve 0 0 input RReserve 0 0 [].

Inductive reach (input : list ascii) : xfr → Prop :=
| reach_start s : start input s → reach input s
| reach_step s s' : reach input s → step s s' → reach input s'.

(** ** The invariant *)

(** Who holds the single token: a semaphore, the writer, or the reader. *)
Definition hw (p : wpc) : Z :=
  match p with WRead | WRelease | WRemove | WDone | WFailed => 1 | _ => 0 end.
Definition hr (p : rpc) : Z :=
  match p with RReserve | RDone => 0 | _ => 1 end.

Definition sending (p : wpc) : bool :=
  match p with WRelease | WTest | WAdd => true | _ => false end.
Definition finished (p : rpc) : bool :=
  match p with RDetach | RFinal | RDone => true | _ => false end.

(** The segment holds a block not yet written out. *)
Definition full (rs : Z) (wp : wpc) (rp : rpc) : bool :=
  match wp with WRelease => true | _ => false end || (rs =? 1) ||
  match rp with RTest | RWrite => true | _ => false end.

(** The writer has stored the end-of-file mark. *)
Definition eof (c : Z) (wp : wpc) : bool :=
  match wp with
  | WFinal | WRemove | WDone => true
  | WRelease | WTest => c =? 0
  | _ => false
  end.

Definition sent_one (c : Z) (wp : wpc) : Z := Z.b2z (sending wp && (0 <? c)).
Definition held_one (c rs : Z) (wp : wpc) (rp : rpc) : Z :=
  Z.b2z ((full rs wp rp && (0 <? c)) || match rp with RRelease => true | _ => false end).

Record inv (input : list ascii) (ws rs c : Z) (b : list ascii) (wp : wpc) (wb wx : Z)
    (l : list ascii) (rp : rpc) (rb rx : Z) (o : list ascii) : Prop := {
  i_token : 0 ≤ ws ∧ 0 ≤ rs ∧ ws + rs + hw wp + hr rp = 1;
  i_buf : length b = BUF_SIZE;
  i_cnt : full rs wp rp = true → 0 ≤ c ≤ Z.of_nat BUF_SIZE;
  i_sending : sending wp = true → 0 ≤ c;
  i_add : wp = WAdd → 0 < c;
  i_eof : eof c wp = true → c = 0 ∧ l = [];
  i_pos : full rs wp rp = true → eof c wp = false → 0 < c;
  i_mark : eof c wp = true → full rs wp rp = true ∨ finished rp = true;
  i_fin : finished rp = true → eof c wp = true;
  i_empty : finished rp = true → full rs wp rp = false;
  i_write : rp = RWrite ∨ rp = RRelease → 0 < c;
  i_done : wp = WRemove ∨ wp = WDone → rp = RDone;
  i_fail : rp = RFailed → o `prefix_of` input;
  i_data : rp ≠ RFailed →
    o ++ (if full rs wp rp then take (Z.to_nat c) b else []) ++ l = input;
  i_wb : wb = to_int (Z.of_nat (length input) - Z.of_nat (length l) -
                      (if sending wp then c else 0));
  i_rb : rp ≠ RFailed →
    rb = to_int (Z.of_nat (length o) + match rp with RWrite => c | _ => 0 end);
  i_x : rp ≠ RFailed → to_int (wx + sent_one c wp) = to_int (rx + held_one c rs wp rp);
  i_xs : in_int wx ∧ in_int rx;
}.

Definition inv_st (input : list ascii) (s : xfr) : Prop :=
  inv input (x_write_sem s) (x_read_sem s) (x_cnt s) (x_buf s) (x_w s) (x_w_bytes s)
    (x_w_xfrs s) (x_left s) (x_r s) (x_r_bytes s) (x_r_xfrs s) (x_out s).

Lemma to_int_add a b : to_int (to_int a + b) = to_int (a + b).
Proof.
  rw /to_int /wrapS. f_equal.
  replace ((a + 2 ^ (32 - 1)) mod 2 ^ 32 - 2 ^ (32 - 1) + b + 2 ^ (32 - 1))
    with ((a + 2 ^ (32 - 1)) mod 2 ^ 32 + b) by lia.
  rw Zplus_mod_idemp_l. f_equal. lia.
Qed.

Lemma to_int_cong a b z : to_int a = to_int b → to_int (a + z) = to_int (b + z).
Proof. intros H. by rw -(to_int_add a) -(to_int_add b) H. Qed.

(** The fields of the invariant that hold for simple reasons: propositional
    consequences of the facts at hand, and arithmetic. *)
Ltac inv_field :=
  try assumption; cbn in *;
  repeat match goal with
  | H : true = true → _ |- _ => specialize (H eq_refl)
  | H : ?x ≠ RFailed → _ |- _ => first [specialize (H ltac:(discriminate)) | clear H]
  end;
  intros; destruct_and?; destruct_or?;
  solve [done | lia | congruence | split_and!; (done || lia) | by left | by right | by auto
        | left; lia | right; lia].

Lemma wstep_inv input s s' : inv_st input s → wstep s s' → inv_st input s'.
Proof.
  intros Hi Hs. destruct Hs; rw /inv_st /= in Hi; destruct Hi; rw /inv_st /=.
  all: assert (BUF_SIZE = 1024%nat) as HB by done.
  - (* reserve *)
    assert (ws = 1 ∧ rs = 0 ∧ hr rp = 0) as (-> & -> & Hr)
      by (cbn in i_token0; destruct rp; cbn in *; lia).
    destruct rp; try done; split; try inv_field.
  - (* read *)
    assert (ws = 0 ∧ rs = 0 ∧ hr rp = 0) as (-> & -> & Hr)
      by (cbn in i_token0; destruct rp; cbn in *; lia).
    destruct rp; try done; [|by specialize (i_fin0 eq_refl)].
    cbn in *.
    assert (length (store b 0 d) = BUF_SIZE) as Hb by (rw length_store; lia).
    split; try inv_field.
    + cbn. rw Z.eqb_eq. intros. destruct d; [|simpl in *; lia]. split; [done|auto].
    + intros _. cbn. rw Nat2Z.id /store take_0 /= take_app_length. by apply i_data0.
    + cbn. rw i_wb0 length_app. f_equal. lia.
    + intros H1. rw /sent_one /held_one /= orb_false_r. apply to_int_cong. specialize (i_x0 H1).
      by rw !Z.add_0_r in i_x0.
  - (* read error *)
    assert (ws = 0 ∧ rs = 0 ∧ hr rp = 0) as (-> & -> & Hr)
      by (cbn in i_token0; destruct rp; cbn in *; lia).
    destruct rp; try done; split; try inv_field.
  - (* release *)
    assert (ws = 0 ∧ rs = 0 ∧ hr rp = 0) as (-> & -> & Hr)
      by (cbn in i_token0; destruct rp; cbn in *; lia).
    destruct rp; try done; split; try inv_field.
  - (* test *)
    specialize (i_sending0 eq_refl).
    destruct (Z.eqb_spec c 0) as [->|Hc].
    + split; try inv_field.
    + split; try inv_field. intros H. specialize (i_fin0 H). cbn in i_fin0. lia.
  - (* add *)
    specialize (i_add0 eq_refl).
    split; try inv_field.
    + cbn in *. rw i_wb0 to_int_add. f_equal. lia.
    + intros H1. specialize (i_x0 H1). rw /sent_one /= in i_x0 |- *.
      rw to_int_add Z.add_0_r. by destruct (Z.ltb_spec 0 c); [|lia].
    + split; [apply to_int_range|apply i_xs0].
  - (* final *)
    assert (ws = 1 ∧ rs = 0 ∧ hr rp = 0) as (-> & -> & Hr)
      by (cbn in i_token0; destruct rp; cbn in *; lia).
    destruct rp; try done; split; try inv_field.
  - (* remove *)
    split; try inv_field.
Qed.

Lemma rstep_inv input s s' : inv_st input s → rstep s s' → inv_st input s'.
Proof.
  intros Hi Hs. destruct Hs; rw /inv_st /= in Hi; destruct Hi; rw /inv_st /=.
  all: assert (BUF_SIZE = 1024%nat) as HB by done.
  - (* reserve *)
    assert (ws = 0 ∧ rs = 1 ∧ hw wp = 0) as (-> & -> & Hw)
      by (cbn in i_token0; destruct wp; cbn in *; lia).
    destruct wp; try done; split; try inv_field.
  - (* test *)
    assert (ws = 0 ∧ rs = 0 ∧ hw wp = 0) as (-> & -> & Hw)
      by (cbn in i_token0; destruct wp; cbn in *; lia).
    destruct (Z.eqb_spec c 0) as [->|Hc]; cbn.
    + destruct wp; try done; split; try inv_field.
    + destruct wp; try done; split; try inv_field;
        (intros _; specialize (i_rb0 ltac:(done)); rw Z.add_0_r in i_rb0;
         by rw i_rb0 to_int_add).
  - (* write *)
    assert (ws = 0 ∧ rs = 0 ∧ hw wp = 0) as (-> & -> & Hw)
      by (cbn in i_token0; destruct wp; cbn in *; lia).
    specialize (i_write0 (or_introl eq_refl)). specialize (i_data0 ltac:(done)).
    assert (full 0 wp RWrite = true) as Hf by (rw /full; apply orb_true_r).
    specialize (i_cnt0 Hf). rw Hf in i_data0. specialize (i_rb0 ltac:(done)).
    assert (eof c wp = false) as He
      by (destruct (eof c wp); [destruct (i_eof0 eq_refl); lia|done]).
    assert (Z.of_nat (length (o ++ take (Z.to_nat c) b)) = Z.of_nat (length o) + c) as Hl
      by (rw length_app length_take; lia).
    specialize (i_x0 ltac:(done)).
    rw /held_one Hf /= (proj2 (Z.ltb_lt 0 c) i_write0) in i_x0.
    destruct wp; try done; split; try inv_field; try (intros _; by rw Hl Z.add_0_r);
      try (intros _; cbn; by rw -app_assoc); by rw He.
  - (* write error *)
    assert (ws = 0 ∧ rs = 0 ∧ hw wp = 0) as (-> & -> & Hw)
      by (cbn in i_token0; destruct wp; cbn in *; lia).
    assert (o ++ take n b `prefix_of` input) as Hp.
    { specialize (i_data0 ltac:(done)).
      assert (full 0 wp RWrite = true) as Hf by (rw /full; apply orb_true_r). rw Hf in i_data0.
      exists (drop n (take (Z.to_nat c) b) ++ l). rw -i_data0 -!app_assoc. f_equal.
      rw app_assoc. f_equal. rw -{1}(take_drop n (take (Z.to_nat c) b)) take_take. f_equal. f_equal. lia. }
    destruct wp; try done; split; try inv_field.
  - (* release *)
    assert (ws = 0 ∧ rs = 0 ∧ hw wp = 0) as (-> & -> & Hw)
      by (cbn in i_token0; destruct wp; cbn in *; lia).
    specialize (i_x0 ltac:(done)). rw /held_one orb_true_r /= in i_x0.
    assert (in_int wx ∧ in_int (to_int (rx + 1))) as Hxs
      by (split; [apply i_xs0|apply to_int_range]).
    destruct wp; try done; split; try inv_field;
      (intros _; by rw i_x0 /held_one /= to_int_add Z.add_0_r).
  - (* detach *)
    split; try inv_field. intros H. by specialize (i_done0 H).
  - (* final *)
    assert (ws = 0 ∧ rs = 0 ∧ hw wp = 0) as (-> & -> & Hw)
      by (cbn in i_token0; destruct wp; cbn in *; lia).
    destruct wp; try done; split; try inv_field.
Qed.

Lemma start_inv input s : start input s → inv_st input s.
Proof.
  intros (c & b & Hb & ->). split; try inv_field. cbn. by rw Z.sub_diag.
Qed.

Lemma reach_inv input s : reach input s → inv_st input s.
Proof.
  intros H. induction H as [s Hs|s s' _ IH [Hs|Hs]];
    [by apply start_inv|exact (wstep_inv _ _ _ IH Hs)|exact (rstep_inv _ _ _ IH Hs)].
Qed.

(** ** What the two programs guarantee *)

(** The control points at which a process is inside the segment. *)
Definition writer_inside (p : wpc) : bool := match p with WRead | WRelease => true | _ => false end.
Definition reader_inside (p : rpc) : bool := match p with RTest | RWrite | RRelease => true | _ => false end.

(** C4: Through every interleaving and every way of splitting the input into blocks: the two
    processes are never in the segment together, what the reader wrote is a
    prefix of the input, once the reader has finished it is all of it, the
    objects are removed only after the reader has finished, and at the end
    both processes report the same numbers of bytes and of transfers. *)
Theorem transfer_correct input s :
  reach input s →
  (writer_inside (x_w s) && reader_inside (x_r s) = false) ∧
  x_out s `prefix_of` input ∧
  (finished (x_r s) = true → x_out s = input) ∧
  (x_w s = WRemove ∨ x_w s = WDone → x_r s = RDone) ∧
  (x_w s = WDone → x_out s = input ∧ x_w_bytes s = x_r_bytes s ∧
     x_w_bytes s = to_int (Z.of_nat (length input)) ∧ x_w_xfrs s = x_r_xfrs s).
Proof.
  intros Hr. apply reach_inv in Hr. destruct s as [ws rs c b wp wb wx l rp rb rx o].
  rw /inv_st /= in Hr |- *. destruct Hr.
  assert (finished rp = true → o = input) as Hfin.
  { intros Hf. destruct (i_eof0 (i_fin0 Hf)) as [-> ->].
    destruct rp; try done; specialize (i_data0 ltac:(done));
      rewrite app_nil_r in i_data0; destruct (full _ _ _); by rw /= app_nil_r in i_data0. }
  split_and!; [by destruct wp, rp; cbn in *; lia|..|done|done|].
  - destruct (decide (rp = RFailed)) as [->|Hn]; [by apply i_fail0|].
    rw -(i_data0 Hn). by apply prefix_app_r.
  - intros ->. assert (rp = RDone) as -> by (apply i_done0; by right).
    destruct (i_eof0 eq_refl) as [-> ->]. rw (Hfin eq_refl) in i_rb0 |- *.
    specialize (i_rb0 ltac:(done)). specialize (i_x0 ltac:(done)).
    rw /sent_one /held_one /= !andb_false_r /= !Z.add_0_r in i_x0, i_rb0.
    rw /= Z.sub_0_r Z.sub_0_r in i_wb0. destruct i_xs0. rw !to_int_id // in i_x0. by subst.
Qed.

(** Bounds on the steps each process can still take. *)
Definition wrank (s : xfr) : Z :=
  let n := 5 * Z.of_nat (length (x_left s)) in
  match x_w s with
  | WReserve => n + 6 | WRead => n + 5
  | WRelease => if x_cnt s =? 0 then 4 else n + 9
  | WTest => if x_cnt s =? 0 then 3 else n + 8
  | WAdd => n + 7 | WFinal => 2 | WRemove => 1 | WDone | WFailed => 0
  end.

Definition rrank (input : list ascii) (s : xfr) : Z :=
  let n := 4 * (Z.of_nat (length input) - Z.of_nat (length (x_out s))) in
  match x_r s with
  | RReserve => n + 5 | RTest => n + 4 | RWrite => n + 3 | RRelease => n + 6
  | RDetach => 2 | RFinal => 1 | RDone | RFailed => 0
  end.

Lemma out_length input s :
  inv_st input s → x_r s ≠ RFailed → 
  Z.of_nat (length (x_out s)) +
  (if full (x_read_sem s) (x_w s) (x_r s) then x_cnt s else 0) + Z.of_nat (length (x_left s)) =
  Z.of_nat (length input).
Proof.
  intros Hi Hn. destruct s as [ws rs c b wp wb wx l rp rb rx o]. rw /inv_st /= in Hi, Hn |- *.
  destruct Hi. rw -(i_data0 Hn) !length_app.
  destruct (full rs wp rp) eqn:Hf; simpl; [|lia].
  specialize (i_cnt0 eq_refl). rw length_take. lia.
Qed.

Lemma wstep_rank input s s' :
  inv_st input s → wstep s s' →
  wrank s' < wrank s ∧ rrank input s' = rrank input s.
Proof.
  intros Hi Hs. destruct Hs; rw /wrank /rrank /=; try lia.
  - rw length_app. destruct d as [|x d]; simpl; [lia|]. destruct (Z.eqb_spec (Z.of_nat (S (length d))) 0); lia.
  - destruct (c =? 0); lia.
  - destruct (c =? 0); lia.
Qed.

#[local] Arguments full : simpl never.

Lemma rstep_rank input s s' :
  inv_st input s → rstep s s' →
  rrank input s' < rrank input s ∧ wrank s' = wrank s.
Proof.
  intros Hi Hs. pose proof (out_length input s Hi) as Ho.
  destruct Hs; rw /wrank /rrank /= in Ho |- *; specialize (Ho ltac:(done));
    rw /inv_st /= in Hi; destruct Hi; try (split; [lia|done]).
  - assert (full rs wp RTest = true) as Hf by (rw /full; apply orb_true_r).
    rw Hf in Ho. specialize (i_cnt0 Hf). destruct (Z.eqb_spec c 0) as [->|Hc]; cbn;
      (split; [lia|try done; by destruct (Z.eqb_spec c 0)]).
  - assert (full rs wp RWrite = true) as Hf by (rw /full; apply orb_true_r).
    rw Hf in Ho. specialize (i_cnt0 Hf). specialize (i_write0 (or_introl eq_refl)).
    rw length_app length_take. split; [lia|done].
  - assert (full rs wp RWrite = true) as Hf by (rw /full; apply orb_true_r).
    rw Hf in Ho. specialize (i_cnt0 Hf). split; [lia|done].
Qed.

(** Some process can move, unless both have ended or one has failed. *)
Lemma can_step input s :
  inv_st input s →
  (∃ s', step s s') ∨ (x_w s = WDone ∧ x_r s = RDone) ∨ x_w s = WFailed ∨ x_r s = RFailed.
Proof.
  intros Hi. destruct s as [ws rs c b wp wb wx l rp rb rx o]. rw /inv_st /= in Hi |- *. destruct Hi.
  destruct (decide (wp = WFailed)); [by auto|]. destruct (decide (rp = RFailed)); [by auto|].
  destruct wp; try done; try (left; eexists; left; by constructor).
  - destruct (decide (0 < ws)); [left; eexists; left; by constructor|].
    destruct rp; try done; try (left; eexists; right; by constructor); cbn in i_token0.
    + left. eexists. right. constructor. lia.
    + by specialize (i_fin0 eq_refl).
  - destruct (decide (0 < ws)); [left; eexists; left; by constructor|].
    destruct rp; try done; try (left; eexists; right; by constructor); cbn in i_token0.
    + left. eexists. right. constructor. lia.
    + specialize (i_empty0 eq_refl). assert (rs = 1) as -> by lia. done.
  - right. left. split; [done|]. apply i_done0. by right.
Qed.

Lemma wrank_nonneg s : 0 ≤ wrank s.
Proof. rw /wrank. destruct (x_w s); try destruct (_ =? _); lia. Qed.

Lemma rrank_nonneg input s : inv_st input s → 0 ≤ rrank input s.
Proof.
  intros Hi. pose proof (out_length input s Hi) as Ho.
  destruct (decide (x_r s = RFailed)) as [E|Hn]; [by rw /rrank E|]. specialize (Ho Hn).
  assert (0 ≤ (if full (x_read_sem s) (x_w s) (x_r s) then x_cnt s else 0)).
  { destruct Hi. destruct (full _ _ _); [|done]. by apply i_cnt0. }
  rw /rrank. destruct (x_r s); lia.
Qed.

(** The transfer always ends: from any reachable state every step decreases a bound on
    the steps still possible, and some step is possible until both processes
    have finished or one of them has failed in its read or write. *)
Lemma transfer_ends input s :
  reach input s →
  ((∃ s', step s s') ∨ (x_w s = WDone ∧ x_r s = RDone) ∨ x_w s = WFailed ∨ x_r s = RFailed) ∧
  (∀ s', step s s' → 0 ≤ wrank s' + rrank input s' < wrank s + rrank input s).
Proof.
  intros Hr. apply reach_inv in Hr. split; [exact (can_step _ _ Hr)|].
  intros s' Hs. pose proof (wrank_nonneg s').
  destruct Hs as [Hs|Hs].
  - pose proof (rrank_nonneg _ _ (wstep_inv _ _ _ Hr Hs)).
    pose proof (wstep_rank _ _ _ Hr Hs). lia.
  - pose proof (rrank_nonneg _ _ (rstep_inv _ _ _ Hr Hs)).
    pose proof (rstep_rank _ _ _ Hr Hs). lia.
Qed.

(** ** A complete run *)

Definition seg0 : list ascii := replicate BUF_SIZE NUL.
Definition xfr_begin : xfr := Xfr 1 0 7 seg0 WReserve 0 0 (cs "hi") RReserve 0 0 [].
Definition xfr_end : xfr :=
  Xfr 0 0 0 (cs "hi" ++ replicate 1022 NUL) WDone 2 1 [] RDone 2 1 (cs "hi").

Lemma run_by_steps input s1 s2 s3 :
  reach input s1 → step s1 s2 → s2 = s3 → reach input s3.
Proof. intros H Hs <-. exact (reach_step _ _ _ H Hs). Qed.

Lemma xfr_end_reached : reach (cs "hi") xfr_end.
Proof.
  assert (reach (cs "hi") xfr_begin) as H by (apply reach_start; by exists 7, seg0).
  eapply run_by_steps in H; [|left; apply w_reserve; done|vm_compute; reflexivity].
  eapply run_by_steps in H; [|left; apply (w_read _ _ _ _ _ _ (cs "hi") []); [vm_compute; lia|done]
                            |vm_compute; reflexivity].
  eapply run_by_steps in H; [|left; apply w_release|vm_compute; reflexivity].
  eapply run_by_steps in H; [|left; apply w_test|vm_compute; reflexivity].
  eapply run_by_steps in H; [|left; apply w_add|vm_compute; reflexivity].
  eapply run_by_steps in H; [|right; apply r_reserve; done|vm_compute; reflexivity].
  eapply run_by_steps in H; [|right; apply r_test|vm_compute; reflexivity].
  eapply run_by_steps in H; [|right; apply r_write|vm_compute; reflexivity].
  eapply run_by_steps in H; [|right; apply r_release|vm_compute; reflexivity].
  eapply run_by_steps in H; [|left; apply w_reserve; done|vm_compute; reflexivity].
  eapply run_by_steps in H; [|left; apply (w_read _ _ _ _ _ _ [] []); [vm_compute; lia|done]
                            |vm_compute; reflexivity].
  eapply run_by_steps in H; [|left; apply w_release|vm_compute; reflexivity].
  eapply run_by_steps in H; [|left; apply w_test|vm_compute; reflexivity].
  eapply run_by_steps in H; [|right; apply r_reserve; done|vm_compute; reflexivity].
  eapply run_by_steps in H; [|right; apply r_test|vm_compute; reflexivity].
  eapply run_by_steps in H; [|right; apply r_detach|vm_compute; reflexivity].
  eapply run_by_steps in H; [|right; apply r_final|vm_compute; reflexivity].
  eapply run_by_steps in H; [|left; apply w_final; done|vm_compute; reflexivity].
  eapply run_by_steps in H; [|left; apply w_remove|vm_compute; reflexivity].
  exact H.
Qed.

Lemma transfer_correct_witness :
  (writer_inside WDone && reader_inside RDone = false) ∧
  cs "hi" `prefix_of` cs "hi" ∧
  (finished RDone = true → cs "hi" = cs "hi") ∧
  (WDone = WRemove ∨ WDone = WDone → RDone = RDone) ∧
  (WDone = WDone → cs "hi" = cs "hi" ∧ 2 = 2 ∧ 2 = to_int (Z.of_nat (length (cs "hi"))) ∧ 1 = 1).
Proof. apply (transfer_correct (cs "hi") xfr_end). exact xfr_end_reached. Defined.

Lemma transfer_ends_witness :
  ((∃ s', step xfr_begin s') ∨ (WReserve = WDone ∧ RReserve = RDone) ∨ WReserve = WFailed ∨
    RReserve = RFailed) ∧
  (∀ s', step xfr_begin s' →
    0 ≤ wrank s' + rrank (cs "hi") s' < wrank xfr_begin + rrank (cs "hi") xfr_begin).
Proof.
  apply (transfer_ends (cs "hi") xfr_begin). apply reach_start. by exists 7, seg0.
Defined.
