(* ===== verification/Environ.v ===== *)
(** * The environment: [proc/setenv.c]

    The environment list is what the C code has: an array of pointers ended
    by a null, into strings kept in separately allocated blocks.  [setenv] and
    [unsetenv] are the program's; [getenv], [putenv], [malloc], [strcpy] and
    [strcat] are the C library's, with a crash where a pointer is dangling or a
    copy leaves its block.  The theorems speak of the list of strings that the
    array represents. *)

From S2P Require Import Prelude.

(** [allocs] are the answers of the allocator to come; when none are left it
    succeeds. *)
Record envstate := EnvState {
  blocks : gmap nat (list ascii);
  environ : option (list (option nat));
  env_errno : Z;
  allocs : list bool;
}.

Definition with_environ (a : option (list (option nat))) (s : envstate) : envstate :=
  EnvState (blocks s) a (env_errno s) (allocs s).
Definition with_blocks (b : gmap nat (list ascii)) (s : envstate) : envstate :=
  EnvState b (environ s) (env_errno s) (allocs s).
Definition with_errno (e : Z) (s : envstate) : envstate :=
  EnvState (blocks s) (environ s) e (allocs s).
Definition with_allocs (l : list bool) (s : envstate) : envstate :=
  EnvState (blocks s) (environ s) (env_errno s) l.

Section environ.
(** What a fresh block holds. *)
Context (junk : nat → ascii).
Abbreviation E := (M envstate).
Implicit Types s : envstate.

(** ** Memory *)

Definition load (p : nat) : E (list ascii) := λ s,
  match blocks s !! p with Some b => (Ret b, s) | None => (Crash, s) end.

Definition read_cell (i : nat) : E (option nat) := λ s,
  match environ s ≫= (λ a, a !! i) with Some c => (Ret c, s) | None => (Crash, s) end.

Definition write_cell (i : nat) (c : option nat) : E unit := λ s,
  match environ s with
  | Some a => if (i <? length a)%nat then (Ret tt, with_environ (Some (<[i := c]> a)) s)
              else (Crash, s)
  | None => (Crash, s)
  end.

(** ** The C library *)

(** The answer of the allocator. *)
Definition alloc_ok : E bool := λ s,
  match allocs s with
  | [] => (Ret true, s)
  | b :: r => (Ret b, with_allocs r s)
  end.

Definition malloc (size : nat) : E (option nat) :=
  ok ← alloc_ok ;
  if ok : bool then
    s ← get ;
    let p := fresh (dom (blocks s)) in
    modify (with_blocks (<[p := junk <$> seq 0 size]> (blocks s))) ;;
    mret (Some p)
  else modify (with_errno ENOMEM) ;; mret None.

(** Store a string and its terminator at an offset of a block. *)
Definition copy_to (p off : nat) (t : cstring) : E unit :=
  b ← load p ;
  if (off + S (length t) <=? length b)%nat
  then modify (λ s, with_blocks (<[p := store b off (t ++ [NUL])]> (blocks s)) s)
  else stop Crash.

Definition strcpy (p : nat) (t : cstring) : E unit := copy_to p 0 t.

Definition strcat (p : nat) (t : cstring) : E unit :=
  b ← load p ;
  if bool_decide (NUL ∈ b) then copy_to p (length (until_nul b)) t else stop Crash.

(** [strncmp(t, name, len) == 0 && t[len] == '='] with [len = strlen(name)]. *)
Definition binds (name t : cstring) : bool :=
  strncmp_eq t name (length name) && bool_decide (t !! length name = Some "="%char).

(** The first entry for [name], with its index. *)
Fixpoint find_entry (name : cstring) (a : list (option nat)) (i : nat) :
    E (option (nat * cstring)) :=
  match a with
  | [] => stop Crash
  | None :: _ => mret None
  | Some p :: r =>
      b ← load p ;
      if binds name (until_nul b) then mret (Some (i, until_nul b))
      else find_entry name r (S i)
  end.

Definition getenv (name : cstring) : E (option cstring) :=
  s ← get ;
  match environ s with
  | None => mret None
  | Some a =>
      e ← find_entry name a 0 ;
      mret ((λ '(_, t), drop (S (length name)) t) <$> e)
  end.

(** The pointers before the null. *)
Fixpoint entries (a : list (option nat)) : list nat :=
  match a with
  | Some p :: r => p :: entries r
  | _ => []
  end.

(** ** The program *)

(** [for (sp = ep; *sp != NULL; sp++) *sp = *(sp + 1);] *)
Fixpoint shift_loop (fuel : nat) (sp : nat) : E unit :=
  match fuel with
  | O => stop NoFuel
  | S f =>
      c ← read_cell sp ;
      match c with
      | None => mret tt
      | Some _ => n ← read_cell (S sp) ; write_cell sp n ;; shift_loop f (S sp)
      end
  end.

Fixpoint unsetenv_loop (fuel : nat) (name : cstring) (ep : nat) : E unit :=
  match fuel with
  | O => stop NoFuel
  | S f =>
      c ← read_cell ep ;
      match c with
      | None => mret tt
      | Some p =>
          b ← load p ;
          if binds name (until_nul b) then shift_loop f ep ;; unsetenv_loop f name ep
          else unsetenv_loop f name (S ep)
      end
  end.

(** The C library's [putenv].  The pointer itself replaces the first entry for
    the name, or is added at the end of a new array; a string without '='
    removes the variable it names. *)
Definition putenv (fuel : nat) (p : nat) : E Z :=
  b ← load p ;
  s ← get ;
  match strchr_split "="%char (until_nul b) with
  | None =>
      match environ s with
      | None => mret 0
      | Some _ => unsetenv_loop fuel (until_nul b) 0 ;; mret 0
      end
  | Some (name, _) =>
      let a := default [None] (environ s) in
      e ← find_entry name a 0 ;
      match e with
      | Some (i, _) => write_cell i (Some p) ;; mret 0
      | None =>
          ok ← alloc_ok ;
          if ok : bool then
            modify (with_environ (Some ((Some <$> entries a) ++ [Some p; None]))) ;; mret 0
          else modify (with_errno ENOMEM) ;; mret (-1)
      end
  end.

(** [name[0] == '\0' || strchr(name, '=') != NULL]. *)
Definition bad_name (name : cstring) : bool :=
  bool_decide (name = []) || bool_decide (is_Some (strchr_split "="%char name)).

Definition unsetenv (fuel : nat) (name : option cstring) : E Z :=
  match name with
  | None => modify (with_errno EINVAL) ;; mret (-1)
  | Some n =>
      if bad_name n then modify (with_errno EINVAL) ;; mret (-1)
      else unsetenv_loop fuel n 0 ;; mret 0
  end.

Definition setenv (fuel : nat) (name value : option cstring) (overwrite : Z) : E Z :=
  match name, value with
  | Some n, Some v =>
      if bad_name n then modify (with_errno EINVAL) ;; mret (-1) else
      cur ← getenv n ;
      if bool_decide (is_Some cur) && (overwrite =? 0) then mret 0 else
      unsetenv fuel (Some n) ;;
      es ← malloc (length n + length v + 2) ;
      match es with
      | None => mret (-1)
      | Some es =>
          strcpy es n ;;
          strcat es (cs "=") ;;
          strcat es v ;;
          r ← putenv fuel es ;
          mret (if r =? 0 then 0 else -1)
      end
  | _, _ => modify (with_errno EINVAL) ;; mret (-1)
  end.

(** ** The list of strings *)

(** The block at [p] holds the string [t]. *)
Definition holds s (p : nat) (t : cstring) : Prop :=
  until_nul <$> blocks s !! p = Some t.

(** The array of pointers represents the list [l] of strings. *)
Definition represents s (l : list cstring) : Prop :=
  ∃ ps rest, environ s = Some ((Some <$> ps) ++ None :: rest) ∧ Forall2 (holds s) ps l.

(** What the list binds a name to: the first entry counts. *)
Fixpoint env_lookup (name : cstring) (l : list cstring) : option cstring :=
  match l with
  | [] => None
  | t :: r => if binds name t then Some (drop (S (length name)) t) else env_lookup name r
  end.

Definition unset (name : cstring) (l : list cstring) : list cstring :=
  filter (λ t, binds name t = false) l.

(** ** Names *)

(** A name the functions accept; it is a C string, without null characters. *)
Definition good_name (n : cstring) : Prop := n ≠ [] ∧ ("="%char ∉ n) ∧ (NUL ∉ n).

Lemma good_name_test n : good_name n → bad_name n = false.
Proof.
  intros (Hn & He & _). rw /bad_name bool_decide_eq_false_2 // /=.
  apply bool_decide_eq_false_2. apply strchr_split_None in He. rw He. by intros [? ?].
Qed.

Lemma binds_spec n t : NUL ∉ n → binds n t = true ↔ ∃ v, t = n ++ "="%char :: v.
Proof.
  intros Hn. rw /binds andb_true_iff strncmp_eq_prefix // !bool_decide_eq_true. split.
  - intros [[v ->] Hl]. rw lookup_app_r // Nat.sub_diag in Hl.
    destruct v as [|c v]; simplify_eq/=. eauto.
  - intros [v ->]. split; [by apply prefix_app_r|]. by rw lookup_app_r // Nat.sub_diag.
Qed.

Lemma binds_entry n v : NUL ∉ n → binds n (n ++ "="%char :: v) = true.
Proof. intros. apply binds_spec; eauto. Qed.

Lemma entry_value n v : drop (S (length n)) (n ++ "="%char :: v) = v.
Proof. rw cons_middle app_assoc drop_app_length' // length_app /=. lia. Qed.

Lemma binds_inj n n' t :
  good_name n → good_name n' → binds n t = true → binds n' t = true → n = n'.
Proof.
  intros (_ & He & Hn) (_ & He' & Hn') [v ->]%binds_spec [v' E]%binds_spec; [|done..].
  pose proof (strchr_split_app _ _ v He) as H1. pose proof (strchr_split_app _ _ v' He') as H2.
  congruence.
Qed.

Lemma env_lookup_unset n l : env_lookup n (unset n l) = None.
Proof.
  elim: l => [//|t l IH]. rw /unset filter_cons. case_decide as H; [|done]. by rw /= H.
Qed.

Lemma env_lookup_unset_ne n n' l :
  good_name n → good_name n' → n' ≠ n → env_lookup n' (unset n l) = env_lookup n' l.
Proof.
  intros Hn Hn' Hne. elim: l => [//|t l IH]. rw /unset filter_cons /=. case_decide as H.
  - simpl. destruct (binds n' t); [done|apply IH].
  - apply not_false_is_true in H. destruct (binds n' t) eqn:E; [|apply IH].
    destruct Hne. exact (binds_inj _ _ _ Hn' Hn E H).
Qed.

Lemma env_lookup_app n l t :
  env_lookup n (l ++ [t]) =
  match env_lookup n l with
  | Some v => Some v
  | None => if binds n t then Some (drop (S (length n)) t) else None
  end.
Proof. elim: l => [//|x l IH] /=. by destruct (binds n x). Qed.

(** ** Each function on the array *)

Lemma read_cell_app pre c r s :
  environ s = Some (pre ++ c :: r) → read_cell (length pre) s = (Ret c, s).
Proof. intros H. by rw /read_cell H /= list_lookup_middle. Qed.

Lemma write_cell_app pre c c' r s :
  environ s = Some (pre ++ c :: r) →
  write_cell (length pre) c' s = (Ret tt, with_environ (Some (pre ++ c' :: r)) s).
Proof.
  intros H. rw /write_cell H insert_app_r_alt // Nat.sub_diag /=.
  destruct (Nat.ltb_spec (length pre) (length (pre ++ c :: r))) as [|Hl]; [done|].
  rw length_app /= in Hl. lia.
Qed.

Lemma shift_loop_spec fuel pre p ps rest s :
  environ s = Some (pre ++ (Some <$> p :: ps) ++ None :: rest) → (S (length ps) < fuel)%nat →
  shift_loop fuel (length pre) s =
    (Ret tt, with_environ (Some (pre ++ (Some <$> ps) ++ None :: None :: rest)) s).
Proof.
  elim: ps fuel pre p s => [|q ps IH] [|fuel] pre p s Hs Hf; try (simpl in Hf; lia);
    cbn [shift_loop]; rw (bind_Ret _ _ _ _ _ (read_cell_app _ _ _ _ Hs)).
  - assert (environ s = Some ((pre ++ [Some p]) ++ None :: rest)) as Hn by by rw Hs -app_assoc.
    apply read_cell_app in Hn. rw length_app Nat.add_1_r in Hn.
    rw (bind_Ret _ _ _ _ _ Hn) (bind_Ret _ _ _ _ _ (write_cell_app _ _ _ _ _ Hs)).
    destruct fuel as [|fuel]; [simpl in Hf; lia|]. cbn [shift_loop].
    set s' := with_environ _ s.
    assert (environ s' = Some ((pre ++ [None]) ++ None :: rest)) as Hn' by by rw /= -app_assoc.
    apply read_cell_app in Hn'. rw length_app Nat.add_1_r in Hn'.
    by rw (bind_Ret _ _ _ _ _ Hn').
  - assert (environ s = Some ((pre ++ [Some p]) ++ Some q :: (Some <$> ps) ++ None :: rest)) as Hn
      by by rw Hs -app_assoc.
    apply read_cell_app in Hn. rw length_app Nat.add_1_r in Hn.
    rw (bind_Ret _ _ _ _ _ Hn) (bind_Ret _ _ _ _ _ (write_cell_app _ _ _ _ _ Hs)).
    set s' := with_environ _ s.
    assert (S (length pre) = length (pre ++ [Some q])) as -> by (rw length_app; simpl; lia).
    rw (IH fuel _ q s'); [by rw /= -app_assoc|simpl in *; lia|].
    by rw /with_environ /= -app_assoc.
Qed.

Lemma load_holds p t s : holds s p t → ∃ b, load p s = (Ret b, s) ∧ until_nul b = t.
Proof. rw /holds /load fmap_Some. intros (b & -> & ->). eauto. Qed.

Lemma unsetenv_loop_spec fuel n qs ps rest l s :
  environ s = Some ((Some <$> qs ++ ps) ++ None :: rest) → Forall2 (holds s) ps l →
  (length ps + 2 ≤ fuel)%nat →
  ∃ ps' rest', unsetenv_loop fuel n (length qs) s =
      (Ret tt, with_environ (Some ((Some <$> qs ++ ps') ++ None :: rest')) s) ∧
    Forall2 (holds s) ps' (unset n l).
Proof.
  elim: ps l fuel qs rest s => [|p ps IH] l [|fuel] qs rest s Hs Hl Hf; try (simpl in Hf; lia);
    cbn [unsetenv_loop]; rw fmap_app -app_assoc in Hs; pose proof Hs as Hc;
    apply read_cell_app in Hc; rw length_fmap in Hc; rw (bind_Ret _ _ _ _ _ Hc).
  - apply Forall2_nil_inv_l in Hl as ->. exists [], rest. split; [|done].
    rw app_nil_r. destruct s. simpl in *. by rw /with_environ /= -Hs.
  - destruct l as [|t l]; [by apply Forall2_cons_nil_inv in Hl|].
    apply Forall2_cons in Hl as [Ht Hl]. destruct (load_holds _ _ _ Ht) as (b & Hb & Hu).
    rw (bind_Ret _ _ _ _ _ Hb) Hu /unset filter_cons. case_decide as Hm; [rw Hm|apply not_false_is_true in Hm; rw Hm]; last first.
    + pose proof (shift_loop_spec fuel _ _ _ _ _ Hs ltac:(simpl in *; lia)) as Hsh.
      rw length_fmap in Hsh. rw (bind_Ret _ _ _ _ _ Hsh).
      destruct (IH l fuel qs (None :: rest) (with_environ
        (Some ((Some <$> qs) ++ (Some <$> ps) ++ None :: None :: rest)) s)) as (ps' & rest' & E & Hl').
      * by rw /= fmap_app -app_assoc.
      * done.
      * simpl in *. lia.
      * exists ps', rest'. by rw E.
    + destruct (IH l fuel (qs ++ [p]) rest s) as (ps' & rest' & E & Hl');
        [by rw Hs !fmap_app -!app_assoc|done|simpl in *; lia|].
      rw length_app Nat.add_1_r in E. exists (p :: ps'), rest'. rw E. split.
      * by rw -app_assoc.
      * by constructor.
Qed.

Lemma find_entry_spec n ps rest l i s :
  Forall2 (holds s) ps l →
  ∃ r, find_entry n ((Some <$> ps) ++ None :: rest) i s = (Ret r, s) ∧
    env_lookup n l = (λ '(_, t), drop (S (length n)) t) <$> r.
Proof.
  intros H. elim: H i => [|p t ps' l' Ht Hl IH] i /=; [by exists None|].
  destruct (load_holds _ _ _ Ht) as (b & Hb & Hu).
  rw (bind_Ret _ _ _ _ _ Hb) Hu. destruct (binds n t); [|apply IH].
  by exists (Some (i, t)).
Qed.

Lemma getenv_spec n l s : represents s l → getenv n s = (Ret (env_lookup n l), s).
Proof.
  intros (ps & rest & He & Hl). rw /getenv /mbind {1}/M_bind /get He /M_bind.
  by destruct (find_entry_spec n ps rest l 0 s Hl) as (r & -> & ->).
Qed.

Lemma unsetenv_spec fuel n l s :
  represents s l → good_name n → (length l + 2 ≤ fuel)%nat →
  ∃ a, unsetenv fuel (Some n) s = (Ret 0, with_environ (Some a) s) ∧
    represents (with_environ (Some a) s) (unset n l).
Proof.
  intros (ps & rest & He & Hl) Hn Hf. rw /unsetenv good_name_test //.
  destruct (unsetenv_loop_spec fuel n [] ps rest l s He Hl) as (ps' & rest' & E & Hl').
  { by rw (Forall2_length _ _ _ Hl). }
  eexists. rw (bind_Ret _ _ _ _ _ E). split; [done|]. by exists ps', rest'.
Qed.

(** ** Building the string *)

Lemma until_nul_take b : take (length (until_nul b)) b = until_nul b ∧ NUL ∉ until_nul b.
Proof.
  elim: b => [|c b [IH1 IH2]] /=; [by split; [|set_solver]|].
  case_decide; [by split; [|set_solver]|]. simpl. rw IH1. split; [done|set_solver].
Qed.

Lemma strcat_ok p b t s :
  blocks s !! p = Some b → NUL ∈ b → NUL ∉ t →
  (length (until_nul b) + S (length t) ≤ length b)%nat →
  ∃ b', strcat p t s = (Ret tt, with_blocks (<[p := b']> (blocks s)) s) ∧
    length b' = length b ∧ until_nul b' = until_nul b ++ t ∧ NUL ∈ b'.
Proof.
  intros Hb Hin Ht Hlen. rw /strcat. assert (load p s = (Ret b, s)) as Hl by by rw /load Hb.
  rw (bind_Ret _ _ _ _ _ Hl) bool_decide_eq_true_2 // /copy_to (bind_Ret _ _ _ _ _ Hl).
  destruct (Nat.leb_spec (length (until_nul b) + S (length t)) (length b)); [|lia].
  destruct (until_nul_take b) as [Hp Hno].
  exists (store b (length (until_nul b)) (t ++ [NUL])). split_and!; [done|..].
  - apply length_store. rw length_app /=. lia.
  - rw /store Hp -app_assoc /= app_assoc until_nul_app //. set_solver.
  - rw /store. set_solver.
Qed.

Lemma strcpy_ok p b t s :
  blocks s !! p = Some b → NUL ∉ t → (length t < length b)%nat →
  ∃ b', strcpy p t s = (Ret tt, with_blocks (<[p := b']> (blocks s)) s) ∧
    length b' = length b ∧ until_nul b' = t ∧ NUL ∈ b'.
Proof.
  intros Hb Ht Hlen. rw /strcpy /copy_to.
  assert (load p s = (Ret b, s)) as Hl by by rw /load Hb. rw (bind_Ret _ _ _ _ _ Hl).
  destruct (Nat.leb_spec (0 + S (length t)) (length b)); [|lia].
  exists (store b 0 (t ++ [NUL])). split_and!; [done|..].
  - apply length_store. rw length_app /=. lia.
  - by rw /store take_0 -app_assoc /= until_nul_app.
  - rw /store. set_solver.
Qed.

Lemma represents_fresh p b l s :
  blocks s !! p = None → represents s l → represents (with_blocks (<[p := b]> (blocks s)) s) l.
Proof.
  intros Hp (ps & rest & He & Hl). exists ps, rest. split; [done|].
  eapply Forall2_impl; [exact Hl|]. intros q u Hq. rw /holds /= lookup_insert_ne //.
  intros ->. by rw /holds Hp in Hq.
Qed.

Lemma entries_spec ps rest : entries ((Some <$> ps) ++ None :: rest) = ps.
Proof. elim: ps => [//|p ps IH] /=. by rw IH. Qed.

Lemma putenv_new fuel p n v l s :
  represents s l → allocs s = [] → good_name n → env_lookup n l = None →
  holds s p (n ++ "="%char :: v) →
  ∃ s', putenv fuel p s = (Ret 0, s') ∧ represents s' (l ++ [n ++ "="%char :: v]).
Proof.
  intros (ps & rest & He & Hl) Ha (_ & Hn & _) Hno Hp. rw /putenv.
  destruct (load_holds _ _ _ Hp) as (b & Hb & Hu).
  rw (bind_Ret _ _ _ _ _ Hb) Hu strchr_split_app // /mbind {1}/M_bind /get He.
  cbn [default]. rw /M_bind.
  destruct (find_entry_spec n ps rest l 0 s Hl) as ([[i t]|] & Hf & Hlk); [by rw Hno in Hlk|].
  rw Hf /alloc_ok Ha /=. eexists. split; [done|]. exists (ps ++ [p]), [].
  rw /= entries_spec fmap_app -app_assoc. split; [done|].
  apply Forall2_app; [done|]. by constructor.
Qed.

(** The new string is stored in a fresh block, which it fills exactly. *)
Lemma build_entry n v l s :
  represents s l → allocs s = [] → NUL ∉ n → NUL ∉ v →
  ∃ p s', (∀ failed (k : nat → E Z),
      (es ← malloc (length n + length v + 2) ;
       match es with
       | None => failed
       | Some es => strcpy es n ;; strcat es (cs "=") ;; strcat es v ;; k es
       end) s = k p s') ∧
    blocks s !! p = None ∧ represents s' l ∧ allocs s' = [] ∧ holds s' p (n ++ "="%char :: v).
Proof.
  intros Hr Ha Hn Hv. set (p := fresh (dom (blocks s))).
  assert (blocks s !! p = None) as Hp by apply not_elem_of_dom, is_fresh.
  set (b0 := junk <$> seq 0 (length n + length v + 2)).
  assert (length b0 = length n + length v + 2)%nat as Hb0 by by rw length_fmap length_seq.
  set (s0 := with_blocks (<[p := b0]> (blocks s)) s).
  assert (malloc (length n + length v + 2) s = (Ret (Some p), s0)) as Hm.
  { by rw /malloc /mbind /M_bind /alloc_ok Ha. }
  destruct (strcpy_ok p b0 n s0) as (b1 & E1 & L1 & U1 & N1); [apply lookup_insert_eq|done|lia|].
  set (s1 := with_blocks (<[p := b1]> (blocks s0)) s0) in E1.
  destruct (strcat_ok p b1 (cs "=") s1) as (b2 & E2 & L2 & U2 & N2);
    [apply lookup_insert_eq|done|by apply nul_free_spec|rw U1; simpl; lia|].
  set (s2 := with_blocks (<[p := b2]> (blocks s1)) s1) in E2.
  destruct (strcat_ok p b2 v s2) as (b3 & E3 & L3 & U3 & _);
    [apply lookup_insert_eq|done|done|rw U2 length_app U1; simpl; lia|].
  set (s3 := with_blocks (<[p := b3]> (blocks s2)) s2) in E3.
  assert (s3 = with_blocks (<[p := b3]> (blocks s)) s) as E.
  { by rw /s3 /s2 /s1 /s0 /with_blocks /= !insert_insert_eq. }
  exists p, s3. split_and!; [|done|rw E; by apply represents_fresh|done|].
  { intros failed k. by rw (bind_Ret _ _ _ _ _ Hm) (bind_Ret _ _ _ _ _ E1)
      (bind_Ret _ _ _ _ _ E2) (bind_Ret _ _ _ _ _ E3). }
  by rw /holds E /= lookup_insert_eq /= U3 U2 U1 -app_assoc.
Qed.

(** C40: With memory available, [setenv] on a valid name that is absent or may be
    overwritten returns 0; the environment is then the old one without any entry for the
    name, in the old order, followed by one new entry; [getenv] finds the new value, and
    every other variable is as before. *)
Theorem setenv_refines fuel n v overwrite l s :
  represents s l → good_name n → NUL ∉ v → allocs s = [] → (length l + 2 ≤ fuel)%nat →
  overwrite ≠ 0 ∨ env_lookup n l = None →
  ∃ s', setenv fuel (Some n) (Some v) overwrite s = (Ret 0, s') ∧
    represents s' (unset n l ++ [n ++ "="%char :: v]) ∧
    (getenv n s').1 = Ret (Some v) ∧
    ∀ n', good_name n' → n' ≠ n → (getenv n' s').1 = (getenv n' s).1.
Proof.
  intros Hr Hn Hv Ha Hf Ho.
  destruct (unsetenv_spec fuel n l s Hr Hn Hf) as (a & Hu & Hr1).
  destruct (build_entry n v _ _ Hr1 Ha ltac:(apply Hn) Hv) as (p & s2 & Hb & _ & Hr2 & Ha2 & Hp).
  destruct (putenv_new fuel p n v _ s2 Hr2 Ha2 Hn (env_lookup_unset n l) Hp) as (s' & Hput & Hr').
  exists s'. split_and!; [|done|..].
  - rw /setenv good_name_test // (bind_Ret _ _ _ _ _ (getenv_spec n l s Hr)).
    assert (bool_decide (is_Some (env_lookup n l)) && (overwrite =? 0) = false) as ->.
    { destruct Ho as [Ho| ->]; [|done]. apply Z.eqb_neq in Ho. by rw Ho andb_false_r. }
    by rw (bind_Ret _ _ _ _ _ Hu) Hb (bind_Ret _ _ _ _ _ Hput).
  - rw (getenv_spec n _ s' Hr') env_lookup_app env_lookup_unset binds_entry ?entry_value //.
    apply Hn.
  - intros n' Hn' Hne. rw (getenv_spec n' _ s' Hr') (getenv_spec n' l s Hr) env_lookup_app
      env_lookup_unset_ne //=. destruct (env_lookup n' l); [done|].
    destruct (binds n' _) eqn:E; [|done]. destruct Hne.
    apply (binds_inj _ _ _ Hn' Hn E), binds_entry, Hn.
Qed.

(** When the allocation of the new string fails, [setenv] returns -1 after it has
    already removed the variable: every entry for the name is gone, and the old value is
    lost. *)
Lemma setenv_failure_unsets fuel n v overwrite l r s :
  represents s l → good_name n → allocs s = false :: r → (length l + 2 ≤ fuel)%nat →
  overwrite ≠ 0 →
  ∃ s', setenv fuel (Some n) (Some v) overwrite s = (Ret (-1), s') ∧
    env_errno s' = ENOMEM ∧ represents s' (unset n l) ∧ (getenv n s').1 = Ret None.
Proof.
  intros Hr Hn Ha Hf Ho.
  destruct (unsetenv_spec fuel n l s Hr Hn Hf) as (a & Hu & Hr1).
  eexists. split_and!.
  - rw /setenv good_name_test // (bind_Ret _ _ _ _ _ (getenv_spec n l s Hr)).
    apply Z.eqb_neq in Ho. rw Ho andb_false_r (bind_Ret _ _ _ _ _ Hu).
    by rw /malloc /mbind /M_bind /alloc_ok /= Ha.
  - done.
  - by destruct Hr1 as (ps & rest & ? & ?); exists ps, rest.
  - rw (getenv_spec n (unset n l)); [|by rw env_lookup_unset].
    by destruct Hr1 as (ps & rest & ? & ?); exists ps, rest.
Qed.

(** [setenv] without permission to overwrite leaves a variable that exists alone, and a
    null or malformed name or a null value is refused with EINVAL; in each case the
    environment is untouched. *)
Lemma setenv_refuses fuel n v overwrite l s :
  represents s l →
  (good_name n → env_lookup n l ≠ None →
   setenv fuel (Some n) (Some v) 0 s = (Ret 0, s)) ∧
  (∀ name value, name = None ∨ value = None ∨ name = Some [] ∨
                 (∃ x, name = Some x ∧ "="%char ∈ x) →
   setenv fuel name value overwrite s = (Ret (-1), with_errno EINVAL s)).
Proof.
  intros Hr. split.
  - intros Hn Hl. rw /setenv good_name_test // (bind_Ret _ _ _ _ _ (getenv_spec n l s Hr)).
    by rw bool_decide_eq_true_2 // -not_eq_None_Some.
  - intros [x|] [y|] H; try done. rw /setenv.
    assert (bad_name x = true) as ->; [|done]. rw /bad_name.
    destruct H as [?|[?|[[= ->]|(x' & [= <-] & Hx)]]]; [done..|].
    apply orb_true_iff. right. apply bool_decide_eq_true.
    destruct (strchr_split "="%char x) eqn:E; [eauto|]. by apply strchr_split_None in E.
Qed.
End environ.

(** ** The theorems at a concrete environment *)

(** HOME is set twice; the array has room behind its null. *)
Definition env0 : envstate :=
  EnvState (list_to_map [(0%nat, cs "HOME=/root" ++ [NUL]); (1%nat, cs "TERM=vt" ++ [NUL]);
                         (2%nat, cs "HOME=/" ++ [NUL])])
           (Some [Some 0; Some 1; Some 2; None; None])%nat 0 [].
Definition env_oom : envstate := with_allocs [false] env0.
Definition strings0 : list cstring := [cs "HOME=/root"; cs "TERM=vt"; cs "HOME=/"].
Definition zeros (i : nat) : ascii := "0"%char.

Lemma env0_represents a : represents (with_allocs a env0) strings0.
Proof.
  exists [0; 1; 2]%nat, [None]. split; [done|].
  repeat constructor; vm_compute; reflexivity.
Qed.

Lemma HOME_good : good_name (cs "HOME").
Proof. split_and!; [done|set_solver|by apply nul_free_spec]. Qed.

Lemma setenv_refines_witness :
  ∃ s', setenv zeros 9 (Some (cs "HOME")) (Some (cs "/tmp")) 1 env0 = (Ret 0, s') ∧
    represents s' (unset (cs "HOME") strings0 ++ [cs "HOME" ++ "="%char :: cs "/tmp"]) ∧
    (getenv (cs "HOME") s').1 = Ret (Some (cs "/tmp")) ∧
    ∀ n', good_name n' → n' ≠ cs "HOME" → (getenv n' s').1 = (getenv n' env0).1.
Proof.
  apply (setenv_refines zeros 9 (cs "HOME") (cs "/tmp") 1 strings0 env0).
  - exact (env0_represents []).
  - exact HOME_good.
  - by apply nul_free_spec.
  - reflexivity.
  - simpl. lia.
  - by left.
Defined.

Lemma setenv_failure_unsets_witness :
  ∃ s', setenv zeros 9 (Some (cs "HOME")) (Some (cs "/tmp")) 1 env_oom = (Ret (-1), s') ∧
    env_errno s' = ENOMEM ∧ represents s' (unset (cs "HOME") strings0) ∧
    (getenv (cs "HOME") s').1 = Ret None.
Proof.
  apply (setenv_failure_unsets zeros 9 (cs "HOME") (cs "/tmp") 1 strings0 [] env_oom).
  - exact (env0_represents [false]).
  - exact HOME_good.
  - reflexivity.
  - simpl. lia.
  - discriminate.
Defined.
