(* ===== verification/Tlpi.v ===== *)
(** * Processes linked with the book's library

    The programs that include tlpi_hdr.h report errors with the functions of
    ErrFns.  Their state is the state of those functions, which has the output
    streams and [errno], beside the kernel. *)

From S2P Require Import Prelude CStdlib ErrFns GetNum.

(** The text of an error number and the variable EF_DUMPCORE. *)
Class TlpiEnv (K : Type) := {
  te_strerror : Z → cstring;
  te_dumpcore : option cstring;
}.

Record tproc (K : Type) := TProc { t_io : estate; t_os : K }.
Arguments TProc {K} _ _.
Arguments t_io {K} _.
Arguments t_os {K} _.

Section tlpi.
Context {K : Type} `{!TlpiEnv K}.
Abbreviation T := (M (tproc K)).
Implicit Types s : tproc K.

Definition io {A} (m : M estate A) : T A := λ s,
  let '(o, e) := m (t_io s) in (o, TProc e (t_os s)).

(** A call without an error result. *)
Definition tsys {A} (f : K → A * K) : T A := λ s,
  let '(a, k) := f (t_os s) in (Ret a, TProc (t_io s) k).
Definition tsys_ (f : K → K) : T unit := λ s, (Ret tt, TProc (t_io s) (f (t_os s))).

(** A system call: [None] stands for the result -1, with [errno] set. *)
Definition tcall {A} (f : K → res A * K) : T (option A) :=
  r ← tsys f ;
  match r with
  | inl e => io (set_errno e) ;; mret None
  | inr v => mret (Some v)
  end.

Definition errno : T Z := gets (e_errno ∘ t_io).
(** [printf] on the buffered standard output, and on standard error. *)
Definition tprintf (t : cstring) : T unit :=
  io (modify (λ e, EState (e_buffered e ++ t) (e_stdout e) (e_stderr e) (e_errno e))).
Definition teprintf (t : cstring) : T unit := io (fputs_stderr t).

Definition terrExit {A} (msg : cstring) : T A := io (errExit te_strerror te_dumpcore msg).
Definition terrMsg (msg : cstring) : T unit :=
  e ← errno ; io (errMsg te_strerror e msg).
Definition tfatal {A} (msg : cstring) : T A := io (fatal te_strerror te_dumpcore msg).
Definition tusageErr {A} (msg : cstring) : T A := io (usageErr msg).
Definition tcmdLineErr {A} (msg : cstring) : T A := io (cmdLineErr msg).
(** [exit] flushes standard output. *)
Definition texit {A} (status : Z) : T A := io (fflush_stdout) ;; exit status.

(** [if (call == -1) errExit(msg)]. *)
Definition tchecked {A} (msg : cstring) (f : K → res A * K) : T A :=
  r ← tcall f ;
  match r with
  | None => terrExit msg
  | Some v => mret v
  end.

(** The functions of lib/get_num.c write their diagnostics to standard error. *)
Definition with_stderr {A} (m : M cstring A) : T A :=
  io (λ e, let '(o, t) := m (e_stderr e) in
           (o, EState (e_buffered e) (e_stdout e) t (e_errno e))).

(** ** Rules *)

Lemma tcall_ok {A} (f : K → res A * K) s v k :
  f (t_os s) = (inr v, k) → tcall f s = (Ret (Some v), TProc (t_io s) k).
Proof. intros H. by rw /tcall /mbind /M_bind /tsys H. Qed.

Lemma with_stderr_ret {A} (m : M cstring A) s a :
  m (e_stderr (t_io s)) = (Ret a, e_stderr (t_io s)) → with_stderr m s = (Ret a, s).
Proof. intros H. rw /with_stderr /io H. by destruct s as [[] ?]. Qed.

Lemma safe_io {A} (m : M estate A) (Q : A → tproc K → Prop) s :
  safe m (λ a e, Q a (TProc e (t_os s))) (t_io s) → safe (io m) Q s.
Proof. rw /safe /io. by destruct (m (t_io s)) as [[] ?]. Qed.

Lemma safe_tsys {A} (f : K → A * K) (Q : A → tproc K → Prop) s :
  (∀ v k, f (t_os s) = (v, k) → Q v (TProc (t_io s) k)) → safe (tsys f) Q s.
Proof. intros H. rw /safe /tsys. destruct (f (t_os s)) as [v k] eqn:E. by apply H. Qed.

Lemma safe_tsys_ f (Q : unit → tproc K → Prop) s :
  Q tt (TProc (t_io s) (f (t_os s))) → safe (tsys_ f) Q s.
Proof. done. Qed.

Lemma safe_tcall {A} (f : K → res A * K) (Q : option A → tproc K → Prop) s :
  (∀ v k, f (t_os s) = (inr v, k) → Q (Some v) (TProc (t_io s) k)) →
  (∀ e k, f (t_os s) = (inl e, k) →
     Q None (TProc (EState (e_buffered (t_io s)) (e_stdout (t_io s)) (e_stderr (t_io s)) e) k)) →
  safe (tcall f) Q s.
Proof.
  intros H1 H2. rw /tcall. apply safe_bind, safe_tsys. intros [e|v] k E.
  - apply safe_bind, safe_io. cbn. by apply H2.
  - by apply H1.
Qed.

Lemma safe_terrExit {A} msg (Q : A → tproc K → Prop) s : safe (terrExit msg) Q s.
Proof. apply safe_io. rw /safe errExit_eq. by case_bool_decide. Qed.

Lemma safe_tfatal {A} msg (Q : A → tproc K → Prop) s : safe (tfatal msg) Q s.
Proof.
  apply safe_io. rw /safe /fatal.
  rw (bind_Ret _ _ _ _ _ (outputError_eq te_strerror false 0 true msg (t_io s))) /terminate.
  by destruct te_dumpcore as [[]|].
Qed.

Lemma safe_terrMsg msg (Q : unit → tproc K → Prop) s :
  Q tt (TProc (EState [] (e_stdout (t_io s) ++ e_buffered (t_io s))
    (e_stderr (t_io s) ++ snprintf BUF_SIZE (error_line te_strerror true (e_errno (t_io s)) msg))
    (e_errno (t_io s))) (t_os s)) →
  safe (terrMsg msg) Q s.
Proof.
  intros H. rw /terrMsg. apply safe_bind. cbn. apply safe_io. by rw /safe errMsg_keeps_errno.
Qed.

Lemma safe_tusageErr {A} msg (Q : A → tproc K → Prop) s : safe (tusageErr msg) Q s.
Proof. done. Qed.

Lemma safe_tcmdLineErr {A} msg (Q : A → tproc K → Prop) s : safe (tcmdLineErr msg) Q s.
Proof. done. Qed.

Lemma safe_tchecked {A} msg (f : K → res A * K) (Q : A → tproc K → Prop) s :
  (∀ v k, f (t_os s) = (inr v, k) → Q v (TProc (t_io s) k)) → safe (tchecked msg f) Q s.
Proof.
  intros H. rw /tchecked. apply safe_bind, safe_tcall; [|intros; apply safe_terrExit].
  intros v k E. by apply H.
Qed.

(** The same rules for [wp], where the computation may also run out of fuel. *)

Lemma wp_io {A} (m : M estate A) (Q : A → tproc K → Prop) E s :
  (∀ e, E (TProc e (t_os s))) →
  (∀ a e, m (t_io s) = (Ret a, e) → Q a (TProc e (t_os s))) → wp (io m) Q E s.
Proof. intros HE HQ. rw /wp /io. destruct (m (t_io s)) as [[] ?] eqn:Em; auto. Qed.

Lemma wp_tsys {A} (f : K → A * K) (Q : A → tproc K → Prop) E s :
  (∀ v k, f (t_os s) = (v, k) → Q v (TProc (t_io s) k)) → wp (tsys f) Q E s.
Proof. intros H. rw /wp /tsys. destruct (f (t_os s)) as [v k] eqn:Ef. by apply H. Qed.

Lemma wp_tcall {A} (f : K → res A * K) (Q : option A → tproc K → Prop) E s :
  (∀ v k, f (t_os s) = (inr v, k) → Q (Some v) (TProc (t_io s) k)) →
  (∀ e k io', f (t_os s) = (inl e, k) → Q None (TProc io' k)) →
  wp (tcall f) Q E s.
Proof.
  intros H1 H2. rw /tcall. apply wp_bind, wp_tsys. intros [e|v] k Ef.
  - apply wp_bind. exact (H2 _ _ _ Ef).
  - by apply H1.
Qed.

Lemma wp_terrMsg msg (Q : unit → tproc K → Prop) E s :
  (∀ e, Q tt (TProc e (t_os s))) → wp (terrMsg msg) Q E s.
Proof.
  intros H. rw /terrMsg. apply wp_bind. cbn. rw /wp /io errMsg_keeps_errno. apply H.
Qed.

Lemma wp_terrExit {A} msg (Q : A → tproc K → Prop) (E : tproc K → Prop) s :
  (∀ e, E (TProc e (t_os s))) → wp (terrExit msg) Q E s.
Proof. intros H. rw /wp /terrExit /io errExit_eq. by case_bool_decide. Qed.

Lemma wp_tfatal {A} msg (Q : A → tproc K → Prop) (E : tproc K → Prop) s :
  (∀ e, E (TProc e (t_os s))) → wp (tfatal msg) Q E s.
Proof.
  intros H. rw /wp /tfatal /io /fatal.
  rw (bind_Ret _ _ _ _ _ (outputError_eq te_strerror false 0 true msg (t_io s))) /terminate.
  by destruct te_dumpcore as [[]|].
Qed.

Lemma wp_tchecked {A} msg (f : K → res A * K) (Q : A → tproc K → Prop) (E : tproc K → Prop) s :
  (∀ v k, f (t_os s) = (inr v, k) → Q v (TProc (t_io s) k)) →
  (∀ e k io', f (t_os s) = (inl e, k) → E (TProc io' k)) → wp (tchecked msg f) Q E s.
Proof.
  intros H1 H2. rw /tchecked. apply wp_bind, wp_tcall; [by apply H1|].
  intros e k io' Ef. apply wp_terrExit. intros e'. exact (H2 _ _ _ Ef).
Qed.

Lemma wp_tprintf t (Q : unit → tproc K → Prop) E s :
  (∀ e, Q tt (TProc e (t_os s))) → wp (tprintf t) Q E s.
Proof. intros H. apply H. Qed.

Lemma wp_teprintf t (Q : unit → tproc K → Prop) E s :
  (∀ e, Q tt (TProc e (t_os s))) → wp (teprintf t) Q E s.
Proof. intros H. apply H. Qed.

(** A computation that is safe and does not return ends the process. *)
Lemma safe_never_returns {A} (m : M (tproc K) A) Q (E : tproc K → Prop) s :
  safe m Q s → wp m (λ _ _, False) E s →
  ∃ o s', m s = (o, s') ∧ ((∃ n, o = Exit n) ∨ o = Abort) ∧ E s'.
Proof. rw /safe /wp. destruct (m s) as [[] s']; try done; intros _ H; eauto 10. Qed.
End tlpi.

(** Step through a [safe] goal one primitive at a time. *)
Ltac safe_step :=
  lazymatch goal with
  | |- safe (mbind _ _) _ _ => apply safe_bind
  | |- safe (mret _) _ _ => apply safe_ret
  | |- safe (tsys _) _ _ => apply safe_tsys
  | |- safe (tsys_ _) _ _ => apply safe_tsys_
  | |- safe (tcall _) _ _ => apply safe_tcall
  | |- safe (tchecked _ _) _ _ => apply safe_tchecked
  | |- safe (terrExit _) _ _ => apply safe_terrExit
  | |- safe (tfatal _) _ _ => apply safe_tfatal
  | |- safe (terrMsg _) _ _ => apply safe_terrMsg
  | |- safe (tusageErr _) _ _ => apply safe_tusageErr
  | |- safe (tcmdLineErr _) _ _ => apply safe_tcmdLineErr
  | |- safe (when _ _) _ _ => apply safe_when
  | |- safe (io _) _ _ => apply safe_io
  end.

(** ** Success or failure *)

Section strict.
Context {K : Type} `{!TlpiEnv K} (F : Prop).
Implicit Types s : tproc K.

Lemma strict_tsys {A} (f : K → A * K) (Q : A → tproc K → Prop) s :
  (∀ v k, f (t_os s) = (v, k) → Q v (TProc (t_io s) k)) → strict F (tsys f) Q s.
Proof. intros H. rw /strict /tsys. destruct (f (t_os s)) as [v k] eqn:E. by apply H. Qed.

Lemma strict_tcall {A} (f : K → res A * K) (Q : option A → tproc K → Prop) s :
  (∀ v k, f (t_os s) = (inr v, k) → Q (Some v) (TProc (t_io s) k)) →
  (∀ e k, f (t_os s) = (inl e, k) →
     Q None (TProc (EState (e_buffered (t_io s)) (e_stdout (t_io s)) (e_stderr (t_io s)) e) k)) →
  strict F (tcall f) Q s.
Proof.
  intros H1 H2. rw /tcall. apply strict_bind, strict_tsys. intros [e|v] k E.
  - apply strict_bind. cbn. by apply H2.
  - by apply H1.
Qed.

Lemma strict_terrExit {A} msg (Q : A → tproc K → Prop) s : F → strict F (terrExit msg) Q s.
Proof. intros HF. rw /strict /terrExit /io errExit_eq. by case_bool_decide. Qed.

Lemma strict_tfatal {A} msg (Q : A → tproc K → Prop) s : F → strict F (tfatal msg) Q s.
Proof.
  intros HF. rw /strict /tfatal /io /fatal.
  rw (bind_Ret _ _ _ _ _ (outputError_eq te_strerror false 0 true msg (t_io s))) /terminate.
  by destruct te_dumpcore as [[]|].
Qed.

Lemma strict_tcmdLineErr {A} msg (Q : A → tproc K → Prop) s : F → strict F (tcmdLineErr msg) Q s.
Proof. done. Qed.

Lemma strict_tusageErr {A} msg (Q : A → tproc K → Prop) s : F → strict F (tusageErr msg) Q s.
Proof. done. Qed.

Lemma strict_tchecked {A} msg (f : K → res A * K) (Q : A → tproc K → Prop) s :
  (∀ v k, f (t_os s) = (inr v, k) → Q v (TProc (t_io s) k)) →
  ((∀ v k, f (t_os s) ≠ (inr v, k)) → F) →
  strict F (tchecked msg f) Q s.
Proof.
  intros H HF. rw /tchecked. apply strict_bind, strict_tcall; intros v k E; [by apply H|].
  apply strict_terrExit, HF. intros v' k'. by rw E.
Qed.

Lemma strict_tprintf t (Q : unit → tproc K → Prop) s :
  Q tt (TProc (EState (e_buffered (t_io s) ++ t) (e_stdout (t_io s)) (e_stderr (t_io s))
          (e_errno (t_io s))) (t_os s)) → strict F (tprintf t) Q s.
Proof. done. Qed.

Lemma strict_terrMsg msg (Q : unit → tproc K → Prop) s :
  (∀ e, Q tt (TProc e (t_os s))) → strict F (terrMsg msg) Q s.
Proof.
  intros H. rw /terrMsg. apply strict_bind. rw /strict /errno /gets /io errMsg_keeps_errno. apply H.
Qed.

Lemma strict_getLong arg flags name (Q : Z → tproc K → Prop) s :
  (∀ n, (∀ err, getLong arg flags name err = (Ret n, err)) → Q n s) →
  ((∀ n err err', getLong arg flags name err ≠ (Ret n, err')) → F) →
  strict F (with_stderr (getLong arg flags name)) Q s.
Proof.
  intros H HF. rw /strict /with_stderr /io.
  destruct (getNum_total (cs "getLong") flags name arg (e_stderr (t_io s))) as [[v Hv]|(e & He & _)];
    rw /getLong; [rw Hv|rw He].
  - assert (TProc (EState (e_buffered (t_io s)) (e_stdout (t_io s)) (e_stderr (t_io s)) (e_errno (t_io s)))
            (t_os s) = s) as -> by (by destruct s as [[] ?]).
    apply H. intros err. apply getNum_returns in Hv as (_ & H1 & H2). by apply getNum_returns.
  - split; [done|]. apply HF. intros n err err' (_ & H1 & H2)%getNum_returns.
    by rw (proj2 (getNum_returns _ _ _ _ _ _ (e_stderr (t_io s))) (conj eq_refl (conj H1 H2))) in He.
Qed.

Lemma strict_getInt a flags name v (Q : Z → tproc K → Prop) s :
  gnBase flags = 8 ∨ gnBase flags = 10 → a ≠ [] → int_argument flags a v → Q v s →
  strict F (with_stderr (getInt (Some a) flags name)) Q s.
Proof.
  intros Hb Ha Hv HQ. by rw /strict (with_stderr_ret _ _ v); [apply getInt_iff|].
Qed.

(** A body followed by [exit(EXIT_SUCCESS)]. *)
Lemma strict_exit {B} (m : M (tproc K) unit) Q s :
  strict F m Q s →
  ∃ o s', (m ;; @texit K B EXIT_SUCCESS) s = (o, s') ∧
    (o = Exit EXIT_SUCCESS ∧ (∃ s1, Q tt s1 ∧ t_os s' = t_os s1 ∧ e_buffered (t_io s') = [] ∧
       e_stdout (t_io s') = e_stdout (t_io s1) ++ e_buffered (t_io s1)) ∨ failure o ∧ F).
Proof.
  rw /strict /mbind /M_bind. destruct (m s) as [[[]|n| | |] s1]; try done; intros H.
  - eexists _, _. split; [reflexivity|]. left. split; [done|]. by exists s1.
  - destruct H as [-> HF]. eexists _, _. split; [reflexivity|]. right. split; [by right|done].
  - eexists _, _. split; [reflexivity|]. right. split; [by left|done].
Qed.
End strict.

(** Step through a [strict] goal one primitive at a time. *)
Ltac strict_step :=
  lazymatch goal with
  | |- strict _ (mbind _ _) _ _ => apply strict_bind
  | |- strict _ (mret _) _ _ => apply strict_ret
  | |- strict _ (tsys _) _ _ => apply strict_tsys
  | |- strict _ (tcall _) _ _ => apply strict_tcall
  | |- strict _ (tchecked _ _) _ _ => apply strict_tchecked
  | |- strict _ (tprintf _) _ _ => apply strict_tprintf
  | |- strict _ (terrExit _) _ _ => apply strict_terrExit
  | |- strict _ (terrMsg _) _ _ => apply strict_terrMsg
  | |- strict _ (tfatal _) _ _ => apply strict_tfatal
  | |- strict _ (tusageErr _) _ _ => apply strict_tusageErr
  | |- strict _ (tcmdLineErr _) _ _ => apply strict_tcmdLineErr
  end.
