(* ===== verification/InetSockets.v ===== *)
(** * Internet stream sockets: [sockets/inet_sockets.c]

    The resolver and the socket calls are the class [SockOS]; an address is the
    bytes of its structure.  [SockOSOk] says what the calls do to the table of
    open descriptors, which is what the lemmas are about: a call that fails
    should leave no descriptor behind. *)

From S2P Require Import Prelude ErrFns Tlpi.

Definition ENOSYS : Z := 38.
Definition AF_UNSPEC : Z := 0.
Definition SOCK_STREAM : Z := 1.
Definition AI_PASSIVE : Z := 1.
Definition AI_NUMERICSERV : Z := 1024.
Definition NI_NUMERICSERV : Z := 2.

(** [struct addrinfo], as hints and as a result; [ai_addrlen] is the length of
    the address. *)
Record hints := Hints { h_flags : Z; h_family : Z; h_socktype : Z }.
Record addrinfo := AddrInfo {
  ai_family : Z; ai_socktype : Z; ai_protocol : Z; ai_addr : list ascii }.

Class SockOS (K : Type) := {
  sk_env :: TlpiEnv K;
  sk_getaddrinfo : option cstring → cstring → hints → K → (Z + list addrinfo) * K;
  sk_freeaddrinfo : K → K;
  sk_socket : Z → Z → Z → K → res Z * K;
  sk_connect : Z → list ascii → K → res unit * K;
  sk_reuseaddr : Z → K → res unit * K;
  sk_bind : Z → list ascii → K → res unit * K;
  sk_listen : Z → Z → K → res unit * K;
  sk_accept : Z → nat → K → res (Z * list ascii) * K;
  sk_close : Z → K → res unit * K;
  sk_getnameinfo : list ascii → Z → K → option (cstring * cstring) * K;
}.

Section inet.
Context {K : Type} `{!SockOS K}.
Abbreviation T := (M (tproc K)).

(** The search for an address that can be connected to. *)
Fixpoint connect_loop (rp : list addrinfo) : T (option Z) :=
  match rp with
  | [] => mret None
  | a :: next =>
      sfd ← tcall (sk_socket (ai_family a) (ai_socktype a) (ai_protocol a)) ;
      match sfd with
      | None => connect_loop next
      | Some sfd =>
          c ← tcall (sk_connect sfd (ai_addr a)) ;
          match c with
          | Some _ => mret (Some sfd)
          | None => tcall (sk_close sfd) ;; connect_loop next
          end
      end
  end.

Definition inetConnect (host service : cstring) (type : Z) : T Z :=
  s ← tsys (sk_getaddrinfo (Some host) service (Hints 0 AF_UNSPEC type)) ;
  match s with
  | inl _ => io (set_errno ENOSYS) ;; mret (-1)
  | inr result =>
      sfd ← connect_loop result ;
      tsys_ sk_freeaddrinfo ;;
      mret (default (-1) sfd)
  end.

(** How the search for an address to bind ends. *)
Inductive bind_result := Bound (sfd : Z) (addrlen : nat) | NoAddress | OptFailed.

Fixpoint bind_loop (doListen : bool) (rp : list addrinfo) : T bind_result :=
  match rp with
  | [] => mret NoAddress
  | a :: next =>
      sfd ← tcall (sk_socket (ai_family a) (ai_socktype a) (ai_protocol a)) ;
      match sfd with
      | None => bind_loop doListen next
      | Some sfd =>
          o ← (if doListen then tcall (sk_reuseaddr sfd) else mret (Some tt)) ;
          match o with
          | None => tcall (sk_close sfd) ;; tsys_ sk_freeaddrinfo ;; mret OptFailed
          | Some _ =>
              b ← tcall (sk_bind sfd (ai_addr a)) ;
              match b with
              | Some _ => mret (Bound sfd (length (ai_addr a)))
              | None => tcall (sk_close sfd) ;; bind_loop doListen next
              end
          end
      end
  end.

(** Yields the descriptor or -1, and what is stored through [addrlen]. *)
Definition inetPassiveSocket (service : cstring) (type : Z) (doListen : bool) (backlog : Z) :
    T (Z * option nat) :=
  s ← tsys (sk_getaddrinfo None service (Hints AI_PASSIVE AF_UNSPEC type)) ;
  match s with
  | inl _ => mret (-1, None)
  | inr result =>
      b ← bind_loop doListen result ;
      match b with
      | OptFailed => mret (-1, None)
      | NoAddress => tsys_ sk_freeaddrinfo ;; mret (-1, None)
      | Bound sfd addrlen =>
          l ← (if doListen then tcall (sk_listen sfd backlog) else mret (Some tt)) ;
          match l with
          | None => tsys_ sk_freeaddrinfo ;; mret (-1, None)
          | Some _ => tsys_ sk_freeaddrinfo ;; mret (sfd, Some addrlen)
          end
      end
  end.

Definition inetListen (service : cstring) (backlog : Z) : T (Z * option nat) :=
  inetPassiveSocket service SOCK_STREAM true backlog.

Definition inetBind (service : cstring) (type : Z) : T (Z * option nat) :=
  inetPassiveSocket service type false 0.

Definition inetAddressStr (addr : list ascii) (addrStrLen : nat) : T cstring :=
  n ← tsys (sk_getnameinfo addr NI_NUMERICSERV) ;
  mret (snprintf addrStrLen
    match n with
    | Some (host, service) => cs "(" ++ host ++ cs ", " ++ service ++ cs ")"
    | None => cs "(?UNKNOWN?)"
    end).
End inet.

(** ** What the kernel does to the table of descriptors *)

Class SockOSOk (K : Type) `{!SockOS K} := {
  open_fds : K → gset Z;
  ok_socket f t p k r k' : sk_socket f t p k = (r, k') →
    match r with
    | inr fd => 0 ≤ fd ∧ (fd ∉ open_fds k) ∧ open_fds k' = {[fd]} ∪ open_fds k
    | inl _ => open_fds k' = open_fds k
    end;
  ok_close fd k r k' : sk_close fd k = (r, k') → open_fds k' = open_fds k ∖ {[fd]};
  ok_getaddrinfo h sv hi k r k' :
    sk_getaddrinfo h sv hi k = (r, k') → open_fds k' = open_fds k;
  ok_freeaddrinfo k : open_fds (sk_freeaddrinfo k) = open_fds k;
  ok_connect fd a k r k' : sk_connect fd a k = (r, k') → open_fds k' = open_fds k;
  ok_reuseaddr fd k r k' : sk_reuseaddr fd k = (r, k') → open_fds k' = open_fds k;
  ok_bind fd a k r k' : sk_bind fd a k = (r, k') → open_fds k' = open_fds k;
  ok_listen fd n k r k' : sk_listen fd n k = (r, k') → open_fds k' = open_fds k;
}.

Section descriptors.
Context {K : Type} `{!SockOS K, !SockOSOk K}.
Implicit Types (s : tproc K) (F : gset Z).

Abbreviation fds s := (open_fds (t_os s)).

(** A descriptor that was opened, on top of those open before. *)
Definition opened F (fd : Z) s : Prop := 0 ≤ fd ∧ (fd ∉ F) ∧ fds s = {[fd]} ∪ F.

Lemma opened_close F fd s r k :
  opened F fd s → sk_close fd (t_os s) = (r, k) → open_fds k = F.
Proof. intros (_ & Hn & Hf) Hc. rw (ok_close _ _ _ _ Hc) Hf. set_solver. Qed.

(** What one try leaves: nothing, or the descriptor it yields. *)
Definition kept F (r : option Z) s : Prop :=
  match r with Some fd => opened F fd s | None => fds s = F end.

Lemma connect_loop_descriptors rp s :
  safe (connect_loop rp) (kept (fds s)) s.
Proof.
  set (F := fds s). assert (fds s = F) as HF by done. clearbody F.
  elim: rp s HF => [|a rp IH] s HF; cbn [connect_loop]; [done|].
  safe_step. safe_step; intros v k Hs; pose proof (ok_socket _ _ _ _ _ _ Hs) as Ho;
    cbn in Ho; [|apply IH; cbn; congruence].
  destruct Ho as (Hp & Hn & Hk). rw HF in Hn Hk.
  safe_step. safe_step; intros w k1 Hc; pose proof (ok_connect _ _ _ _ _ Hc) as Hk1.
  - cbn in *. rw /opened /= Hk1. auto.
  - safe_step. safe_step; intros x k2 Hx; apply IH; cbn;
      refine (opened_close _ _ (TProc (t_io s) k1) _ _ _ Hx); rw /opened /= Hk1; auto.
Qed.

Lemma bind_loop_descriptors l rp s :
  safe (bind_loop l rp)
    (λ r, kept (fds s) match r with Bound fd _ => Some fd | _ => None end) s.
Proof.
  set (F := fds s). assert (fds s = F) as HF by done. clearbody F.
  elim: rp s HF => [|a rp IH] s HF; cbn [bind_loop]; [done|].
  safe_step. safe_step; intros v k Hs; pose proof (ok_socket _ _ _ _ _ _ Hs) as Ho;
    cbn in Ho; [|apply IH; cbn; congruence].
  destruct Ho as (Hp & Hn & Hk). rw HF in Hn Hk.
  assert (∀ s', fds s' = open_fds k → opened F v s') as Hop
    by (intros s' E; rw /opened E; auto).
  safe_step. apply (safe_conseq _ (λ _ s', opened F v s')).
  { destruct l; [|by apply safe_ret, Hop]. safe_step; intros w k1 Hc;
      apply Hop; cbn; by rw (ok_reuseaddr _ _ _ _ Hc). }
  clear s HF Hs k Hk Hop. intros [[]|] s Hop.
  - safe_step. safe_step; intros w k1 Hc; pose proof (ok_bind _ _ _ _ _ Hc) as Hk1.
    + destruct Hop as (? & ? & Hf). cbn. rw /opened /= Hk1 Hf. auto.
    + safe_step. safe_step; intros x k2 Hx; apply IH; cbn;
        refine (opened_close _ _ (TProc (t_io s) k1) _ _ _ Hx);
        destruct Hop as (? & ? & ?); rw /opened /= Hk1; auto.
  - safe_step. safe_step; intros x k2 Hx; safe_step; safe_step; apply safe_ret; cbn;
      rw ok_freeaddrinfo; exact (opened_close _ _ _ _ _ Hop Hx).
Qed.

Lemma passive_descriptors service type doListen backlog s :
  safe (inetPassiveSocket service type doListen backlog)
    (λ r s', r.1 = -1 ∧ (fds s' = fds s ∨ doListen = true ∧ ∃ fd, opened (fds s) fd s') ∨
             opened (fds s) r.1 s') s.
Proof.
  rw /inetPassiveSocket. safe_step. safe_step. intros [e|res] k Hg;
    pose proof (ok_getaddrinfo _ _ _ _ _ _ Hg) as Hk; [by left; auto|].
  safe_step. eapply safe_conseq; [apply bind_loop_descriptors|].
  intros r s' Hr. cbn in Hr. rw Hk in Hr. destruct r as [fd n| |]; cbn in Hr.
  - assert (∀ s'', fds s'' = fds s' → opened (fds s) fd s'') as Hop
      by (intros s'' E; destruct Hr as (? & ? & ?); rw /opened E; auto).
    safe_step. apply (safe_conseq _ (λ r s'', (r = None → doListen = true) ∧ fds s'' = fds s')).
    { destruct doListen; [|by apply safe_ret]. safe_step; intros w k1 Hl;
        pose proof (ok_listen _ _ _ _ _ Hl); by cbn. }
    intros [[]|] s'' [Hd E]; do 3 safe_step; cbn.
    + right. apply Hop. by rw /= ok_freeaddrinfo.
    + left. split; [done|]. right. split; [by apply Hd|].
      exists fd. apply Hop. by rw /= ok_freeaddrinfo.
  - do 3 safe_step. left. cbn. rw ok_freeaddrinfo. auto.
  - safe_step. left. auto.
Qed.

(** [inetConnect] and [inetBind] either yield a new descriptor, the only change to the
    table, or -1 and leave the table as it was: every socket that could not be used is
    closed.  [inetListen] does the same unless [listen] fails. *)
Lemma inet_descriptors host service type backlog s :
  safe (inetConnect host service type)
    (λ r s', r = -1 ∧ fds s' = fds s ∨ opened (fds s) r s') s ∧
  safe (inetBind service type)
    (λ r s', r.1 = -1 ∧ fds s' = fds s ∨ opened (fds s) r.1 s') s ∧
  safe (inetListen service backlog)
    (λ r s', r.1 = -1 ∧ (fds s' = fds s ∨ ∃ fd, opened (fds s) fd s') ∨
             opened (fds s) r.1 s') s.
Proof.
  split_and!.
  - rw /inetConnect. safe_step. safe_step. intros [e|res] k Hg;
      pose proof (ok_getaddrinfo _ _ _ _ _ _ Hg) as Hk.
    { do 2 safe_step. cbn. auto. }
    safe_step. eapply safe_conseq; [apply connect_loop_descriptors|].
    intros r s' Hr. cbn in Hr. rw Hk in Hr. do 3 safe_step.
    destruct r as [fd|]; cbn in *; [right|left];
      [|by rw ok_freeaddrinfo]. by rw /opened /= ok_freeaddrinfo.
  - eapply safe_conseq; [apply passive_descriptors|]. cbn. naive_solver.
  - eapply safe_conseq; [apply passive_descriptors|]. cbn. naive_solver.
Qed.

(** When [listen] fails, [inetListen] returns -1 with the socket it created still open:
    the descriptor is lost to the caller. *)
Lemma inetListen_leaks service backlog a rest s k0 k1 k2 k3 k4 fd e :
  sk_getaddrinfo None service (Hints AI_PASSIVE AF_UNSPEC SOCK_STREAM) (t_os s) =
    (inr (a :: rest), k0) →
  sk_socket (ai_family a) (ai_socktype a) (ai_protocol a) k0 = (inr fd, k1) →
  sk_reuseaddr fd k1 = (inr tt, k2) → sk_bind fd (ai_addr a) k2 = (inr tt, k3) →
  sk_listen fd backlog k3 = (inl e, k4) →
  ∃ s', inetListen service backlog s = (Ret (-1, None), s') ∧ opened (fds s) fd s'.
Proof.
  intros H0 H1 H2 H3 H4. eexists. split.
  - rw /inetListen /inetPassiveSocket /bind_loop /mbind /M_bind /tcall /tsys /mbind /M_bind.
    by rw H0 /= H1 /= H2 /= H3 /= H4 /=.
  - destruct (ok_socket _ _ _ _ _ _ H1) as (? & ? & ?).
    pose proof (ok_getaddrinfo _ _ _ _ _ _ H0) as E0. pose proof (ok_reuseaddr _ _ _ _ H2) as E2.
    pose proof (ok_bind _ _ _ _ _ H3) as E3. pose proof (ok_listen _ _ _ _ _ H4) as E4.
    rw /opened /= ok_freeaddrinfo E4 E3 E2 -E0. auto.
Qed.
End descriptors.

(** ** A concrete network

    Descriptors are handed out in order; [net_fail] scripts which of the calls
    to come fail. *)

Record net := Net { net_next : nat; net_fds : gset Z; net_fail : list bool }.

Definition net_try {A} (a : A) (k : net) : res A * net :=
  match net_fail k with
  | true :: r => (inl EINVAL, Net (net_next k) (net_fds k) r)
  | _ => (inr a, Net (net_next k) (net_fds k) (tail (net_fail k)))
  end.

Definition net_socket (k : net) : res Z * net :=
  match net_try tt k with
  | (inl e, k') => (inl e, k')
  | (inr _, k') =>
      let fd := Z.of_nat (fresh (set_map Z.to_nat (net_fds k') : gset nat)) in
      (inr fd, Net (net_next k') ({[fd]} ∪ net_fds k') (net_fail k'))
  end.

#[export] Instance net_env : TlpiEnv net := {| te_strerror _ := cs "error"; te_dumpcore := None |}.

#[export] Instance net_os : SockOS net := {|
  sk_getaddrinfo _ _ _ k := (inr [AddrInfo 2 1 6 (cs "addr4"); AddrInfo 10 1 6 (cs "addr6")], k);
  sk_freeaddrinfo k := k;
  sk_socket _ _ _ := net_socket;
  sk_connect _ _ := net_try tt;
  sk_reuseaddr _ := net_try tt;
  sk_bind _ _ := net_try tt;
  sk_listen _ _ := net_try tt;
  sk_accept _ _ k := (inl EAGAIN, k);
  sk_close fd k := (inr tt, Net (net_next k) (net_fds k ∖ {[fd]}) (net_fail k));
  sk_getnameinfo _ _ k := (None, k);
|}.

Lemma net_try_fds {A} (a : A) k r k' : net_try a k = (r, k') → net_fds k' = net_fds k.
Proof. rw /net_try. by destruct (net_fail k) as [|[] ?]; intros [= <- <-]. Qed.

#[export] Instance net_os_ok : SockOSOk net.
Proof.
  refine {| open_fds := net_fds |}; try (by intros; simplify_eq/=); 
    try (intros *; exact (net_try_fds _ _ _ _)).
  intros f t p k r k'. cbn. rw /net_socket. destruct (net_try tt k) as [[e|[]] k1] eqn:E;
    intros [= <- <-]; apply net_try_fds in E; [done|]. cbn. rw E. split; [lia|]. split; [|done].
  intros H. pose proof (is_fresh (set_map Z.to_nat (net_fds k) : gset nat)) as Hf.
  apply Hf. apply elem_of_map. eexists. split; [|exact H]. by rw Nat2Z.id.
Defined.

(** Standard input and output are open; the first connect fails. *)
Definition net0 (fail : list bool) : tproc net :=
  TProc (EState [] [] [] 0) (Net 0 (list_to_set [0; 1; 2]) fail).

Lemma inet_descriptors_witness :
  safe (inetConnect (cs "host") (cs "50000") SOCK_STREAM)
    (λ r s', r = -1 ∧ net_fds (t_os s') = net_fds (t_os (net0 [false; true])) ∨
             opened (net_fds (t_os (net0 [false; true]))) r s') (net0 [false; true]).
Proof.
  exact (proj1 (inet_descriptors (cs "host") (cs "50000") SOCK_STREAM 5 (net0 [false; true]))).
Defined.

Lemma inetListen_leaks_witness :
  ∃ s', inetListen (cs "50000") 5 (net0 [false; false; false; true]) = (Ret (-1, None), s') ∧
        opened (open_fds (t_os (net0 [false; false; false; true]))) 3 s'.
Proof.
  eapply (inetListen_leaks (cs "50000") 5 (AddrInfo 2 1 6 (cs "addr4")) _
            (net0 [false; false; false; true]) _ _ _ _ _ 3 EINVAL); vm_compute; reflexivity.
Defined.
