(* ===== verification/SeqNum.v ===== *)
(** * The sequence-number servers: [sockets/is_seqnum_sv.c], [is_seqnum_cl.c],
      [is_seqnum_v2_sv.c], [is_seqnum_v2_cl.c], [pipes/fifo_seqnum_server.c] and
      [fifo_seqnum_client.c]

    A server hands out consecutive ranges of numbers to clients that ask for
    a length.  The socket versions talk in lines of text through [readLine],
    over any kernel that offers sockets and streams; the FIFO version
    exchanges structures.  The servers' loops never end: each is modelled by
    its body, and a run is any number of turns. *)

From S2P Require Import Prelude CStdlib ErrFns GetNum Tlpi SockIO InetSockets.

Definition INT_LEN : nat := 30.
Definition PORT_NUM : string := "50000".
Definition BACKLOG : Z := 50.
Definition SOCKADDR_STORAGE : nat := 128.
Definition ADDRSTRLEN : nat := 1067.
Definition IS_ADDR_STR_LEN : nat := 4096.

(** The calls of the socket programs beside those of the two classes. *)
Class SeqOS (K : Type) := {
  sq_sock :: SockOS K;
  sq_stream :: Stream K;
  sq_ignore_sigpipe : K → res unit * K;
  sq_malloc : nat → K → bool * K;
}.

Section sockets.
Context {K : Type} `{!SeqOS K}.
Abbreviation T := (M (tproc K)).

Definition lift {A} (m : M K A) : T A := λ s,
  let '(o, k) := m (t_os s) in (o, TProc (t_io s) k).

(** [readLine] with its result as the C function returns it. *)
Definition treadLine (fuel : nat) (fd : Z) (buf : list ascii) (n : nat) : T (Z * list ascii) :=
  r ← lift (readLine fuel fd (Some buf) n) ;
  match r with
  | (inl e, buf') => io (set_errno e) ;; mret (-1, buf')
  | (inr c, buf') => mret (Z.of_nat c, buf')
  end.

(** [write(fd, d, len) != len]. *)
Definition write_fails (fd : Z) (d : list ascii) : T bool :=
  w ← tcall (st_write fd d) ;
  mret (negb (bool_decide (w = Some (length d)))).

(** ** The server *)

(** The reply to a valid request; yields the new counter. *)
Definition grant (cfd seqNum reqLen : Z) : T Z :=
  let seqNumStr := snprintf INT_LEN (fmt_d (to_int seqNum) ++ [NL]) in
  bad ← write_fails cfd seqNumStr ;
  when bad (teprintf (cs "Error on write")) ;;
  c ← tcall (sk_close cfd) ;
  match c with None => terrMsg (cs "close") | Some _ => mret tt end ;;
  mret (to_uint (seqNum + reqLen)).

(** The part of the loop after the connection is announced.  [reqLenStr] is
    the buffer, which keeps its content from turn to turn. *)
Definition answer (fuel : nat) (cfd seqNum : Z) (reqLenStr : list ascii) : T (Z * list ascii) :=
  r ← treadLine fuel cfd reqLenStr INT_LEN ;
  let '(numRead, reqLenStr) := (r : Z * list ascii) in
  if numRead <=? 0 then tcall (sk_close cfd) ;; mret (seqNum, reqLenStr) else
  let reqLen := atoi (until_nul reqLenStr) in
  if reqLen <=? 0 then tcall (sk_close cfd) ;; mret (seqNum, reqLenStr) else
  seqNum ← grant cfd seqNum reqLen ;
  mret (seqNum, reqLenStr).

(** One turn of is_seqnum_sv.c. *)
Definition serve (fuel : nat) (lfd seqNum : Z) (reqLenStr : list ascii) : T (Z * list ascii) :=
  a ← tcall (sk_accept lfd SOCKADDR_STORAGE) ;
  match a with
  | None => terrMsg (cs "accept") ;; mret (seqNum, reqLenStr)
  | Some (cfd, claddr) =>
      n ← tsys (sk_getnameinfo claddr 0) ;
      let addrStr := snprintf ADDRSTRLEN
        match n with
        | Some (host, service) => cs "(" ++ host ++ cs ", " ++ service ++ cs ")"
        | None => cs "(?UNKNOWN?)"
        end in
      tprintf (cs "Connection from " ++ addrStr ++ [NL]) ;;
      answer fuel cfd seqNum reqLenStr
  end.

(** One turn of is_seqnum_v2_sv.c. *)
Definition serve_v2 (fuel : nat) (lfd : Z) (addrlen : nat) (seqNum : Z) (reqLenStr : list ascii) :
    T (Z * list ascii) :=
  a ← tcall (sk_accept lfd addrlen) ;
  match a with
  | None => terrMsg (cs "accept") ;; mret (seqNum, reqLenStr)
  | Some (cfd, claddr) =>
      addrStr ← inetAddressStr claddr IS_ADDR_STR_LEN ;
      tprintf (cs "Connection from " ++ addrStr ++ [NL]) ;;
      answer fuel cfd seqNum reqLenStr
  end.

(** [for (;;) turn], cut off by its fuel. *)
Fixpoint forever {A} (fuel : nat) (turn : A → T A) (a : A) : T unit :=
  match fuel with
  | O => stop NoFuel
  | S f => a' ← turn a ; forever f turn a'
  end.

(** The first number, from the command line. *)
Definition init_seqnum (argv : list cstring) : T Z :=
  match argv with
  | prog :: a :: _ =>
      if bool_decide (a = cs "--help")
      then tusageErr (prog ++ cs " [init-seq-num]" ++ [NL])
      else n ← with_stderr (getInt (Some a) 0 (Some (cs "init-seq-num"))) ; mret (to_uint n)
  | _ => mret 0
  end.

Fixpoint sv_bind_loop (rp : list addrinfo) : T (option Z) :=
  match rp with
  | [] => mret None
  | a :: next =>
      lfd ← tcall (sk_socket (ai_family a) (ai_socktype a) (ai_protocol a)) ;
      match lfd with
      | None => sv_bind_loop next
      | Some lfd =>
          tchecked (cs "setsockopt") (sk_reuseaddr lfd) ;;
          b ← tcall (sk_bind lfd (ai_addr a)) ;
          match b with
          | Some _ => mret (Some lfd)
          | None => tcall (sk_close lfd) ;; sv_bind_loop next
          end
      end
  end.

Definition seqnum_sv_main (fuel : nat) (argv : list cstring) (reqLenStr : list ascii) : T unit :=
  seqNum ← init_seqnum argv ;
  tchecked (cs "signal") sq_ignore_sigpipe ;;
  r ← tsys (sk_getaddrinfo None (cs PORT_NUM)
              (Hints (Z.lor AI_PASSIVE AI_NUMERICSERV) AF_UNSPEC SOCK_STREAM)) ;
  match r with
  | inl _ => terrExit (cs "getaddrinfo")
  | inr result =>
      rp ← sv_bind_loop result ;
      match rp with
      | None => tfatal (cs "Could not bind socket to any address")
      | Some lfd =>
          tchecked (cs "listen") (sk_listen lfd BACKLOG) ;;
          tsys_ sk_freeaddrinfo ;;
          forever fuel (λ '(seqNum, buf), serve fuel lfd seqNum buf) (seqNum, reqLenStr)
      end
  end.

Definition seqnum_v2_sv_main (fuel : nat) (argv : list cstring) (reqLenStr : list ascii) : T unit :=
  seqNum ← init_seqnum argv ;
  tchecked (cs "signal") sq_ignore_sigpipe ;;
  l ← inetListen (cs PORT_NUM) 5 ;
  let '(lfd, addrlen) := (l : Z * option nat) in
  if lfd =? -1 then tfatal (cs "inetListen() failed") else
  let addrlen := default 0%nat addrlen in
  ok ← tsys (sq_malloc addrlen) ;
  if ok : bool then
    forever fuel (λ '(seqNum, buf), serve_v2 fuel lfd addrlen seqNum buf) (seqNum, reqLenStr)
  else terrExit (cs "malloc").

(** ** The client *)

(** The exchange over a connected socket. *)
Definition ask (fuel : nat) (cfd : Z) (reqLenStr : cstring) (seqNumStr : list ascii) : T unit :=
  bad ← write_fails cfd reqLenStr ;
  if bad : bool then tfatal (cs "Partial/failed write (reqLenStr)") else
  bad ← write_fails cfd [NL] ;
  if bad : bool then tfatal (cs "Partial/failed write (newline)") else
  r ← treadLine fuel cfd seqNumStr INT_LEN ;
  let '(numRead, seqNumStr) := (r : Z * list ascii) in
  if numRead =? -1 then terrExit (cs "readLine") else
  if numRead =? 0 then tfatal (cs "Unexpected EOF from server") else
  tprintf (cs "Sequence number: " ++ until_nul seqNumStr) ;;
  texit EXIT_SUCCESS.

Definition cl_usage {A} (prog : cstring) : T A :=
  tusageErr (prog ++ cs " server-host [sequence-len]" ++ [NL]).

Definition seqnum_cl_main (fuel : nat) (argv : list cstring) (seqNumStr : list ascii) : T unit :=
  match argv with
  | prog :: host :: args =>
      if bool_decide (host = cs "--help") then cl_usage prog else
      r ← tsys (sk_getaddrinfo (Some host) (cs PORT_NUM)
                  (Hints AI_NUMERICSERV AF_UNSPEC SOCK_STREAM)) ;
      match r with
      | inl _ => terrExit (cs "getaddrinfo")
      | inr result =>
          rp ← connect_loop result ;
          match rp with
          | None => tfatal (cs "Could not connect socket to any address")
          | Some cfd =>
              tsys_ sk_freeaddrinfo ;;
              ask fuel cfd (default (cs "1") (head args)) seqNumStr
          end
      end
  | _ => cl_usage (default [] (head argv))
  end.

Definition seqnum_v2_cl_main (fuel : nat) (argv : list cstring) (seqNumStr : list ascii) : T unit :=
  match argv with
  | prog :: host :: args =>
      if bool_decide (host = cs "--help") then cl_usage prog else
      cfd ← inetConnect host (cs PORT_NUM) SOCK_STREAM ;
      if cfd =? -1 then tfatal (cs "inetConnect() failed") else
      ask fuel cfd (default (cs "1") (head args)) seqNumStr
  | _ => cl_usage (default [] (head argv))
  end.
End sockets.

(** ** The FIFO version

    Requests and responses are structures of 32-bit integers. *)

Record request := Request { rq_pid : Z; rq_seqLen : Z }.

Definition encode_request (r : request) : list ascii :=
  put_le32 (wrapU 32 (rq_pid r)) ++ put_le32 (wrapU 32 (rq_seqLen r)).
Definition decode_request (b : list ascii) : request :=
  Request (to_int (le32 b)) (to_int (le32 (drop 4 b))).
Definition encode_response (seqNum : Z) : list ascii := put_le32 (wrapU 32 seqNum).
Definition decode_response (b : list ascii) : Z := to_int (le32 b).

Definition SERVER_FIFO : cstring := cs "/tmp/seqnum_sv".
Definition CLIENT_FIFO_NAME_LEN : nat := 39.
Definition clientFifo (pid : Z) : cstring :=
  snprintf CLIENT_FIFO_NAME_LEN (cs "/tmp/seqnum_cl." ++ fmt_d pid).

Class FifoOS (K : Type) := {
  ff_env :: TlpiEnv K;
  ff_umask : K → K;
  ff_mkfifo : cstring → K → res unit * K;
  ff_open_read : cstring → K → res Z * K;
  ff_open_write : cstring → K → res Z * K;
  ff_read : Z → nat → K → res (list ascii) * K;
  ff_write : Z → list ascii → K → res nat * K;
  ff_close : Z → K → res unit * K;
  ff_unlink : cstring → K → K;
  ff_ignore_sigpipe : K → res unit * K;
  ff_getpid : K → Z;
  ff_atexit : K → bool * K;
}.

Section fifo.
Context {K : Type} `{!FifoOS K}.
Abbreviation T := (M (tproc K)).

(** [if (mkfifo(path) == -1 && errno != EEXIST) errExit(...)]. *)
Definition make_fifo (path : cstring) : T unit :=
  r ← tcall (ff_mkfifo path) ;
  e ← errno ;
  match r with
  | None => if e =? EEXIST then mret tt else terrExit (cs "mkfifo " ++ path)
  | Some _ => mret tt
  end.

(** One turn of the server. *)
Definition fifo_serve (serverFd seqNum : Z) : T Z :=
  r ← tcall (ff_read serverFd 8) ;
  match r with
  | Some b =>
      if negb (length b =? 8)%nat then
        teprintf (cs "Error reading request; discarding" ++ [NL]) ;; mret seqNum
      else
      let req := decode_request b in
      let path := clientFifo (rq_pid req) in
      c ← tcall (ff_open_write path) ;
      match c with
      | None => terrMsg (cs "open " ++ path) ;; mret seqNum
      | Some clientFd =>
          w ← tcall (ff_write clientFd (encode_response seqNum)) ;
          when (negb (bool_decide (w = Some 4%nat)))
            (teprintf (cs "Error writing to FIFO " ++ path ++ [NL])) ;;
          cl ← tcall (ff_close clientFd) ;
          match cl with None => terrMsg (cs "close") | Some _ => mret tt end ;;
          mret (to_int (seqNum + rq_seqLen req))
      end
  | None => teprintf (cs "Error reading request; discarding" ++ [NL]) ;; mret seqNum
  end.

Definition fifo_server_main (fuel : nat) : T unit :=
  tsys_ ff_umask ;;
  make_fifo SERVER_FIFO ;;
  serverFd ← tchecked (cs "open " ++ SERVER_FIFO) (ff_open_read SERVER_FIFO) ;
  dummyFd ← tchecked (cs "open " ++ SERVER_FIFO) (ff_open_write SERVER_FIFO) ;
  tchecked (cs "signal") ff_ignore_sigpipe ;;
  forever fuel (fifo_serve serverFd) 0.

(** [atexit(removeFifo)]: what happens when the process calls [exit]. *)
Definition at_exit {A} (f : K → K) (m : T A) : T A := λ s,
  match m s with
  | (Exit n, s') => (Exit n, TProc (t_io s') (f (t_os s')))
  | r => r
  end.

Definition fifo_exchange (argv : list cstring) (fifo : cstring) : T unit :=
  pid ← gets (ff_getpid ∘ t_os) ;
  seqLen ← match argv with
           | _ :: a :: _ => with_stderr (getInt (Some a) GN_GT_0 (Some (cs "seq-len")))
           | _ => mret 1
           end ;
  serverFd ← tchecked (cs "open " ++ SERVER_FIFO) (ff_open_write SERVER_FIFO) ;
  w ← tcall (ff_write serverFd (encode_request (Request pid seqLen))) ;
  if negb (bool_decide (w = Some 8%nat)) then tfatal (cs "Can't write to server") else
  clientFd ← tchecked (cs "open " ++ fifo) (ff_open_read fifo) ;
  r ← tcall (ff_read clientFd 4) ;
  match r with
  | Some b =>
      if negb (length b =? 4)%nat then tfatal (cs "Can't read response from server")
      else tprintf (fmt_d (decode_response b) ++ [NL]) ;; texit EXIT_SUCCESS
  | None => tfatal (cs "Can't read response from server")
  end.

Definition fifo_client_main (argv : list cstring) : T unit :=
  let help := match argv with
              | _ :: a :: _ => bool_decide (a = cs "--help")
              | _ => false
              end in
  if help then tusageErr (default [] (head argv) ++ cs " [seq-len]" ++ [NL]) else
  tsys_ ff_umask ;;
  pid ← gets (ff_getpid ∘ t_os) ;
  let fifo := clientFifo pid in
  make_fifo fifo ;;
  ok ← tsys ff_atexit ;
  if ok : bool then at_exit (ff_unlink fifo) (fifo_exchange argv fifo)
  else terrExit (cs "atexit").
End fifo.

(** ** The service

    What a server promises: successive requests get the starts of adjacent
    ranges, modulo the width of its counter. *)

Inductive grants (wrap : Z → Z) : Z → list (Z * Z) → Z → Prop :=
| grants_nil a : grants wrap a [] a
| grants_cons a n l b : 0 < n → grants wrap (wrap (a + n)) l b → grants wrap a ((a, n) :: l) b.

(** The numbers of a range, and how many were granted. *)
Definition numbers (wrap : Z → Z) (g : Z * Z) : list Z := (λ i, wrap (g.1 + i)) <$> seqZ 0 g.2.
Definition total (l : list (Z * Z)) : Z := foldr (λ g acc, g.2 + acc) 0 l.

Lemma seqZ_shift n i : (λ j, i + j) <$> seqZ 0 n = seqZ i n.
Proof. by rw fmap_add_seqZ Z.add_0_r. Qed.

Lemma grants_total wrap a l b : grants wrap a l b → 0 ≤ total l.
Proof.
  intros H. induction H as [|a n l b Hn H IH]; [done|].
  change (total ((a, n) :: l)) with (n + total l). lia.
Qed.

Lemma grants_snoc wrap a l b n :
  0 < n → grants wrap a l b → grants wrap a (l ++ [(b, n)]) (wrap (b + n)).
Proof. intros Hn H. induction H; cbn; constructor; auto. constructor. Qed.

Section wrap.
Context (wrap : Z → Z).
Hypothesis wrap_add : ∀ a b, wrap (wrap a + b) = wrap (a + b).

(** Together the ranges are one run of consecutive numbers. *)
Lemma grants_numbers a l b :
  grants wrap a l b →
  concat (numbers wrap <$> l) = (λ i, wrap (a + i)) <$> seqZ 0 (total l).
Proof.
  intros H. induction H as [a|a n l b Hn H IH]; [done|].
  pose proof (grants_total _ _ _ _ H) as Ht.
  change (total ((a, n) :: l)) with (n + total l).
  rw seqZ_app; [lia|lia|]. rw fmap_app. cbn [fmap list_fmap concat]. rw IH. f_equal.
  rw Z.add_0_l -(seqZ_shift (total l) n) -list_fmap_compose.
  apply list_fmap_ext. intros i x Hx. cbn. rw wrap_add. f_equal. lia.
Qed.
End wrap.

Lemma to_uint_add a b : to_uint (to_uint a + b) = to_uint (a + b).
Proof. by rw /to_uint /wrapU Zplus_mod_idemp_l. Qed.

Lemma to_uint_inj a i j :
  to_uint (a + i) = to_uint (a + j) → 0 ≤ i < 2 ^ 32 → 0 ≤ j < 2 ^ 32 → i = j.
Proof.
  rw /to_uint /wrapU. intros H Hi Hj.
  assert ((i - j) mod 2 ^ 32 = 0) as Hm.
  { replace (i - j) with ((a + i) - (a + j)) by lia.
    by rw Zminus_mod H Z.sub_diag. }
  apply Z.mod_divide in Hm as [c Hc]; [|lia]. nia.
Qed.

Lemma grants_NoDup a l b :
  grants to_uint a l b → total l ≤ 2 ^ 32 → NoDup (concat (numbers to_uint <$> l)).
Proof.
  intros H Ht. rw (grants_numbers to_uint to_uint_add a l b H).
  apply NoDup_fmap_2_strong; [|apply NoDup_seqZ].
  intros i j Hi Hj Hij. apply elem_of_seqZ in Hi, Hj. eapply to_uint_inj; [exact Hij|lia|lia].
Qed.

(** ** The socket server provides the service

    [replies] is the log of the texts written to clients. *)

Class SeqOSOk (K : Type) `{!SeqOS K} := {
  replies : K → list cstring;
  sq_write_log fd d k r k' : st_write fd d k = (r, k') → replies k' = replies k ++ [d];
  sq_read_log fd n k r k' : st_read fd n k = (r, k') → replies k' = replies k;
  sq_accept_log fd n k r k' : sk_accept fd n k = (r, k') → replies k' = replies k;
  sq_close_log fd k r k' : sk_close fd k = (r, k') → replies k' = replies k;
  sq_name_log a f k r k' : sk_getnameinfo a f k = (r, k') → replies k' = replies k;
}.

(** The line a client gets for the number [a]. *)
Definition reply (a : Z) : cstring := fmt_d (to_int a) ++ [NL].

Lemma reply_fits a : snprintf INT_LEN (reply a) = reply a.
Proof.
  apply snprintf_fits. rw /reply length_app /=.
  pose proof (length_fmt_d (to_int a) (to_int_range a)). rw /INT_LEN. lia.
Qed.

Section service.
Context {K : Type} `{!SeqOS K, !SeqOSOk K}.
Implicit Types s : tproc K.
Abbreviation log s := (replies (t_os s)).
Abbreviation ended := (λ _ : tproc K, True).

Lemma wp_sysS {A} (f : K → A * K) (Q : A → K → Prop) E k :
  (∀ v k', f k = (v, k') → Q v k') → wp (sysS f) Q E k.
Proof. intros H. rw /wp /sysS. destruct (f k) eqn:Ef. by apply H. Qed.

Lemma readLine_loop_log fuel fd buf n tot (k : K) :
  wp (readLine_loop fuel fd buf n tot) (λ _ k', replies k' = replies k) (λ _, True) k.
Proof.
  elim: fuel buf tot k => [|fuel IH] buf tot k; cbn [readLine_loop]; [done|].
  apply wp_bind, wp_sysS. intros r k1 Hr. rw -(sq_read_log _ _ _ _ _ Hr).
  destruct r as [e|[|c d]].
  - destruct (e =? EINTR); [apply IH|done].
  - by destruct (tot =? 0)%nat.
  - destruct (tot <? n - 1)%nat; (case_decide; [done|apply IH]).
Qed.

Lemma close_log fd s E :
  wp (tcall (sk_close fd)) (λ _ s', log s' = log s) E s.
Proof. apply wp_tcall; intros; cbn; eapply sq_close_log; eassumption. Qed.

Lemma grant_reply cfd a n s E :
  wp (grant cfd a n) (λ a' s', a' = to_uint (a + n) ∧ log s' = log s ++ [reply a]) E s.
Proof.
  rw /grant. fold (reply a). rw reply_fits. apply wp_bind, wp_bind.
  apply (wp_conseq _ (λ _ s2, log s2 = log s ++ [reply a])).
  { apply wp_tcall; intros; cbn; eapply sq_write_log; eassumption. }
  intros w s2 H2. apply wp_ret, wp_bind.
  apply (wp_conseq _ (λ _ s3, log s3 = log s2)); [by destruct (negb _)|].
  intros ? s3 H3. apply wp_bind. eapply wp_conseq; [apply close_log|]. intros c s4 H4.
  apply wp_bind, (wp_conseq _ (λ _ s5, log s5 = log s4)).
  { destruct c; [done|]. by apply wp_terrMsg. }
  intros ? s5 H5. apply wp_ret. split; [done|]. cbn in *. congruence.
Qed.

(** What the client of a connection asks for: the number on the line it sends, if there is a
    line and the number is positive. *)
Definition asked (fuel : nat) (cfd : Z) (buf : list ascii) (k : K) : option Z :=
  match readLine fuel cfd (Some buf) INT_LEN k with
  | (Ret (inr c, b), _) =>
      let n := atoi (until_nul b) in if (0 <? c)%nat && (0 <? n) then Some n else None
  | _ => None
  end.

(** What is asked for in a turn: nothing if no connection comes about. *)
Definition turn_asked (fuel : nat) (lfd : Z) (addrlen : nat) (flags : Z) (buf : list ascii) (k : K) :
    option Z :=
  match sk_accept lfd addrlen k with
  | (inr (cfd, claddr), k1) => asked fuel cfd buf (sk_getnameinfo claddr flags k1).2
  | _ => None
  end.

(** What a turn does: nothing, or the grant of the length that is asked for, which is answered. *)
Definition turn_ok (asked : option Z) (a : Z) s (r : Z * list ascii) s' : Prop :=
  match asked with
  | None => r.1 = a ∧ log s' = log s
  | Some n => 0 < n ∧ r.1 = to_uint (a + n) ∧ log s' = log s ++ [reply a]
  end.

Lemma readLine_log fuel fd buf n (k : K) r k' :
  readLine fuel fd (Some buf) n k = (Ret r, k') → replies k' = replies k.
Proof.
  rw /readLine. destruct (n <=? 0)%nat; [by intros [= <- <-]|].
  intros H. exact (wp_Ret _ _ _ _ _ _ (readLine_loop_log fuel fd buf n 0 k) H).
Qed.

Lemma treadLine_eq fuel fd buf n s r b k :
  readLine fuel fd (Some buf) n (t_os s) = (Ret (r, b), k) →
  ∃ e, treadLine fuel fd buf n s = (Ret (match r with inl _ => -1 | inr c => Z.of_nat c end, b), TProc e k).
Proof.
  intros H. rw /treadLine /mbind /M_bind /lift H. destruct r; by eexists.
Qed.

Lemma answer_turn fuel cfd a buf s :
  wp (answer fuel cfd a buf) (turn_ok (asked fuel cfd buf (t_os s)) a s) ended s.
Proof.
  rw /answer /asked.
  destruct (readLine fuel cfd (Some buf) INT_LEN (t_os s)) as [[[r b]| | | |] k] eqn:Hr;
    [|by rw /wp /treadLine /mbind /M_bind /lift Hr..].
  destruct (treadLine_eq _ _ _ _ _ _ _ _ Hr) as (io1 & Ht).
  apply wp_bind. rw {1}/wp Ht. set s1 := TProc io1 k.
  assert (log s1 = log s) as H1 by exact (readLine_log _ _ _ _ _ _ _ Hr).
  assert (wp (tcall (sk_close cfd) ;; mret (a, b)) (λ r s', r.1 = a ∧ log s' = log s) ended s1) as Hno.
  { apply wp_bind. eapply wp_conseq; [apply close_log|]. intros ? s2 H2. cbn in *. split; [done|congruence]. }
  destruct r as [e|c]; [exact Hno|].
  destruct (Z.leb_spec (Z.of_nat c) 0), (Nat.ltb_spec 0 c); try lia; cbn [andb]; [exact Hno|].
  destruct (Z.leb_spec (atoi (until_nul b)) 0), (Z.ltb_spec 0 (atoi (until_nul b))); try lia; [exact Hno|].
  apply wp_bind. eapply wp_conseq; [apply grant_reply|]. intros a' s2 [-> Hg].
  apply wp_ret. cbn in *. split_and!; [done|done|congruence].
Qed.

Lemma serve_turn fuel lfd a buf s :
  wp (serve fuel lfd a buf) (turn_ok (turn_asked fuel lfd SOCKADDR_STORAGE 0 buf (t_os s)) a s) ended s.
Proof.
  rw /serve /turn_asked. apply wp_bind, wp_tcall.
  - intros [cfd claddr] k Ha. apply wp_bind, wp_tsys. intros v k1 Hn.
    apply wp_bind, wp_tprintf. intros e.
    eapply wp_conseq; [apply answer_turn|]. rw Ha Hn /turn_ok /=.
    by rw (sq_name_log _ _ _ _ _ Hn) (sq_accept_log _ _ _ _ _ Ha).
  - intros e k io' Ha. apply wp_bind, wp_terrMsg. intros e'. rw Ha. cbn.
    split; [done|]. eapply sq_accept_log; eassumption.
Qed.

Lemma serve_v2_turn fuel lfd al a buf s :
  wp (serve_v2 fuel lfd al a buf) (turn_ok (turn_asked fuel lfd al NI_NUMERICSERV buf (t_os s)) a s) ended s.
Proof.
  rw /serve_v2 /turn_asked. apply wp_bind, wp_tcall.
  - intros [cfd claddr] k Ha. rw /inetAddressStr. apply wp_bind, wp_bind, wp_tsys. intros v k1 Hn.
    apply wp_ret, wp_bind, wp_tprintf. intros e.
    eapply wp_conseq; [apply answer_turn|]. rw Ha Hn /turn_ok /=.
    by rw (sq_name_log _ _ _ _ _ Hn) (sq_accept_log _ _ _ _ _ Ha).
  - intros e k io' Ha. apply wp_bind, wp_terrMsg. intros e'. rw Ha. cbn.
    split; [done|]. eapply sq_accept_log; eassumption.
Qed.

(** Any number of turns of a server, with what is asked for in each. *)
Inductive turns (turn : Z * list ascii → M (tproc K) (Z * list ascii))
    (ask : list ascii → K → option Z) :
    Z * list ascii → tproc K → list (option Z) → Z * list ascii → tproc K → Prop :=
| turns_none c s : turns turn ask c s [] c s
| turns_more c s l c1 s1 c2 s2 :
    turns turn ask c s l c1 s1 → turn c1 s1 = (Ret c2, s2) →
    turns turn ask c s (l ++ [ask c1.2 (t_os s1)]) c2 s2.

Lemma turns_grants turn ask c s asks c' s' :
  (∀ c s, wp (turn c) (turn_ok (ask c.2 (t_os s)) c.1 s) ended s) →
  turns turn ask c s asks c' s' →
  ∃ l, grants to_uint c.1 l c'.1 ∧ l.*2 = omap id asks ∧ log s' = log s ++ (reply <$> l.*1).
Proof.
  intros Ht H. induction H as [c s|c s asks c1 s1 c2 s2 H (l & Hg & Ha & Hl) Hs].
  - exists []. split_and!; [constructor|done|by rw app_nil_r].
  - pose proof (wp_Ret _ _ _ _ _ _ (Ht c1 s1) Hs) as Hok. rw omap_app -Ha.
    destruct (ask c1.2 (t_os s1)) as [n|]; cbn in Hok.
    + destruct Hok as (Hn & -> & E). exists (l ++ [(c1.1, n)]).
      split_and!; [by apply grants_snoc|by rw fmap_app|]. by rw E Hl !fmap_app app_assoc.
    + destruct Hok as [-> E]. exists l. cbn. by rw E app_nil_r.
Qed.

(** C6: Whatever the clients send and the network does, in any sequence of turns of either
    socket server: the positive numbers that the clients ask for, in their order,
    are the lengths of adjacent ranges that begin at the initial number and end at the
    counter; the replies are the starts of these ranges and nothing else; and as long as no
    more than 2^32 numbers have been granted, no number is granted twice. *)
Theorem server_grants_disjoint fuel lfd addrlen c s asks c' s' :
  turns (λ '(a, buf), serve fuel lfd a buf) (turn_asked fuel lfd SOCKADDR_STORAGE 0)
    c s asks c' s' ∨
  turns (λ '(a, buf), serve_v2 fuel lfd addrlen a buf) (turn_asked fuel lfd addrlen NI_NUMERICSERV)
    c s asks c' s' →
  ∃ l, grants to_uint c.1 l c'.1 ∧ l.*2 = omap id asks ∧ log s' = log s ++ (reply <$> l.*1) ∧
       (total l ≤ 2 ^ 32 → NoDup (concat (numbers to_uint <$> l))).
Proof.
  intros H. assert (∃ l, grants to_uint c.1 l c'.1 ∧ l.*2 = omap id asks ∧
    log s' = log s ++ (reply <$> l.*1)) as (l & Hg & Ha & Hl).
  { destruct H as [H|H]; eapply turns_grants; try exact H; intros [a b] s0;
      [apply serve_turn|apply serve_v2_turn]. }
  exists l. split_and!; [done..|]. by apply (grants_NoDup c.1 l c'.1).
Qed.

Lemma line_buffer buf line :
  NL ∈ line → NUL ∉ line → (length line < length buf)%nat →
  until_nul (line_stored buf 0 (length buf - 1) line) = line.
Proof.
  intros Hl Hn Hb. rw /line_stored bool_decide_eq_false_2; [naive_solver|].
  rw take_ge; [lia|]. by rw /store take_0 -app_assoc /= until_nul_app.
Qed.

Lemma span_line_line l rest : NL ∉ l → span_line (l ++ NL :: rest) = (l ++ [NL], rest).
Proof.
  elim: l => [|c l IH] Hl; simpl; [done|].
  rw decide_False; [set_solver|]. rw IH //. set_solver.
Qed.

Lemma readLine_loop_errors fuel fd buf n tot (k : K) :
  (∀ (k : K) e k', st_read fd 1 k = (inl e, k') → e = EINTR) →
  wp (readLine_loop fuel fd buf n tot) (λ r _, ∃ c, r.1 = inr c) (λ _, True) k.
Proof.
  intros Herr. elim: fuel buf tot k => [|fuel IH] buf tot k; cbn [readLine_loop]; [done|].
  apply wp_bind, wp_sysS. intros r k1 Hr. destruct r as [e|[|c d]].
  - rw (Herr _ _ _ Hr). apply IH.
  - destruct (tot =? 0)%nat; apply wp_ret; eauto.
  - destruct (tot <? n - 1)%nat; (case_decide; [apply wp_ret; eauto|apply IH]).
Qed.

(** A client that sends a decimal number n between 1 and INT_MAX and a newline, through any
    number of interruptions and short reads, is granted n numbers: the counter moves on by
    n and the only text written is the decimal for the counter's old value. *)
Lemma request_granted fuel cfd `{!StreamOk K cfd} (a n : Z) text buf rest s :
  numeral 10 text n → 0 < n ≤ INT_MAX → NUL ∉ text → NL ∉ text → (length text < 29)%nat →
  pending (fd := cfd) (t_os s) = text ++ NL :: rest → length buf = INT_LEN →
  (length (text ++ NL :: rest) + interrupts (fd := cfd) (t_os s) < fuel)%nat →
  (∀ (k : K) e k', st_read cfd 1 k = (inl e, k') → e = EINTR) →
  ∃ b s', answer fuel cfd a buf s = (Ret (to_uint (a + n), b), s') ∧
    log s' = log s ++ [reply a].
Proof.
  intros Hnum Hn Hnul Hnl Hlen Hp Hbuf Hf Herr.
  pose proof (span_line_line text rest Hnl) as Hline.
  destruct (readLine_loop_spec cfd fuel buf INT_LEN 0 (t_os s)) as (o & b & k & Hrd & Ho);
    [rw Hbuf /INT_LEN; lia|lia|by rw Hp|].
  rw Hp Hline in Ho.
  destruct (wp_Ret _ _ _ _ _ _ (readLine_loop_errors fuel cfd buf INT_LEN 0 (t_os s) Herr) Hrd)
    as [c [= ->]].
  pose proof (wp_Ret _ _ _ _ _ _ (readLine_loop_log fuel cfd buf INT_LEN 0 (t_os s)) Hrd) as Hk.
  destruct Ho as (Hc & Hb & _).
  assert (until_nul b = text ++ [NL]) as Ht.
  { rw Hb Nat.sub_0_r -Hbuf. apply line_buffer; [set_solver|set_solver|].
    rw length_app /= Hbuf /INT_LEN. lia. }
  assert (atoi (until_nul b) = n) as Ha.
  { rw Ht. apply atoi_tail; [done| |done]. rw /in_int /INT_MIN. lia. }
  assert (treadLine fuel cfd buf INT_LEN s = (Ret (Z.of_nat c, b), TProc (t_io s) k)) as Htr.
  { assert (readLine fuel cfd (Some buf) INT_LEN (t_os s) = (Ret (inr c, b), k)) as Hr by exact Hrd.
    by rw /treadLine /lift /mbind /M_bind Hr. }
  rw /answer (bind_Ret _ _ _ _ _ Htr). rw length_app /INT_LEN in Hc. cbn [length] in Hc.
  destruct (Z.leb_spec (Z.of_nat c) 0); [lia|]. rw Ha.
  destruct (Z.leb_spec n 0); [lia|].
  destruct (wp_returns _ _ _ (grant_reply cfd a n (TProc (t_io s) k) _)) as (a' & s' & E & -> & Hl).
  exists b, s'. rw (bind_Ret _ _ _ _ _ E). split; [done|]. by rw Hl Hk.
Qed.
End service.

(** ** The FIFO server and its clients *)

Lemma decode_encode_request r :
  in_int (rq_pid r) → in_int (rq_seqLen r) → decode_request (encode_request r) = r.
Proof.
  intros Hp Hl. destruct r as [p n]. rw /decode_request /encode_request. cbn [rq_pid rq_seqLen] in *.
  rw le32_put; [apply wrapU32_range|].
  change (drop 4 (put_le32 (wrapU 32 p) ++ put_le32 (wrapU 32 n))) with (put_le32 (wrapU 32 n)).
  rw -(app_nil_r (put_le32 (wrapU 32 n))) le32_put; [apply wrapU32_range|].
  by rw !to_int_wrapU.
Qed.

Lemma decode_encode_response a : in_int a → decode_response (encode_response a) = a.
Proof.
  intros Ha. rw /decode_response /encode_response -(app_nil_r (put_le32 _)) le32_put.
  - apply wrapU32_range.
  - by rw to_int_wrapU.
Qed.

Section fifo_exchange.
Context {K : Type} `{!FifoOS K}.

(** A request as the client encodes it is answered on the FIFO named after the client's
    process, with the bytes that the client decodes to the server's counter, which then
    moves on by the length asked for. *)
Lemma fifo_request_served serverFd clientFd p n a e (k k1 k2 k3 k4 : K) :
  in_int p → in_int n → in_int a →
  ff_read serverFd 8 k = (inr (encode_request (Request p n)), k1) →
  ff_open_write (clientFifo p) k1 = (inr clientFd, k2) →
  ff_write clientFd (encode_response a) k2 = (inr 4%nat, k3) →
  ff_close clientFd k3 = (inr tt, k4) →
  fifo_serve serverFd a (TProc e k) = (Ret (to_int (a + n)), TProc e k4) ∧
  decode_response (encode_response a) = a.
Proof.
  intros Hp Hn Ha Hr Ho Hw Hc. split; [|by apply decode_encode_response].
  rw /fifo_serve (bind_Ret _ _ _ _ _ (tcall_ok _ (TProc e k) _ _ Hr)).
  change (length (encode_request (Request p n)) =? 8)%nat with true. cbn [negb t_io].
  rw decode_encode_request //. cbn [rq_pid rq_seqLen].
  rw (bind_Ret _ _ _ _ _ (tcall_ok _ (TProc e k1) _ _ Ho)).
  rw (bind_Ret _ _ _ _ _ (tcall_ok _ (TProc e k2) _ _ Hw)) bool_decide_eq_true_2 //.
  cbn [negb when]. rw (bind_Ret (mret tt) _ _ _ _ eq_refl).
  by rw (bind_Ret _ _ _ _ _ (tcall_ok _ (TProc e k3) _ _ Hc)).
Qed.
End fifo_exchange.

(** ** A concrete kernel

    One client is waiting; its request arrives in pieces, with interruptions. *)

Record svnet := SvNet { sv_wire : wire; sv_log : list cstring }.

Definition sv_lift {A} (f : wire → A * wire) (k : svnet) : A * svnet :=
  let '(r, w) := f (sv_wire k) in (r, SvNet w (sv_log k)).

#[export] Instance sv_env : TlpiEnv svnet := {| te_strerror _ := cs "error"; te_dumpcore := None |}.

#[export] Instance sv_sock : SockOS svnet := {|
  sk_getaddrinfo _ _ _ k := (inr [], k);
  sk_freeaddrinfo k := k;
  sk_socket _ _ _ k := (inr 3, k);
  sk_connect _ _ k := (inr tt, k);
  sk_reuseaddr _ k := (inr tt, k);
  sk_bind _ _ k := (inr tt, k);
  sk_listen _ _ k := (inr tt, k);
  sk_accept _ _ k := (inr (5, cs "client"), k);
  sk_close _ k := (inr tt, k);
  sk_getnameinfo _ _ k := (Some (cs "localhost", cs "4321"), k);
|}.

#[export] Instance sv_stream : Stream svnet := {|
  st_read fd n := sv_lift (st_read fd n);
  st_write fd d k := let '(r, w) := st_write fd d (sv_wire k) in (r, SvNet w (sv_log k ++ [d]));
|}.

#[export] Instance sv_os : SeqOS svnet := {|
  sq_ignore_sigpipe k := (inr tt, k);
  sq_malloc _ k := (true, k);
|}.

#[export] Instance sv_os_ok : SeqOSOk svnet.
Proof.
  refine {| replies := sv_log |}; try (by intros; simplify_eq/=).
  - intros fd d [w l] r k'. cbn. destruct (wire_intr w); by intros [= <- <-].
  - intros fd n [w l] r k'. cbn. rw /sv_lift /=. destruct (wire_intr w); by intros [= <- <-].
Defined.

Lemma sv_lift_inv {A} (f : wire → A * wire) k r k' :
  sv_lift f k = (r, k') → f (sv_wire k) = (r, sv_wire k').
Proof. rw /sv_lift. destruct (f (sv_wire k)). by intros [= <- <-]. Qed.

Lemma sv_write_inv fd d k r k' :
  st_write fd d k = (r, k') → st_write fd d (sv_wire k) = (r, sv_wire k').
Proof.
  change (st_write fd d k) with
    (let '(r, w) := st_write fd d (sv_wire k) in (r, SvNet w (sv_log k ++ [d]))).
  destruct (st_write fd d (sv_wire k)). by intros [= <- <-].
Qed.

#[export] Instance sv_stream_ok fd : StreamOk svnet fd.
Proof.
  refine {| pending k := wire_in (sv_wire k); written k := wire_out (sv_wire k);
            interrupts k := wire_intr (sv_wire k) |}; intros d k r k' H.
  - exact (st_read_ok (fd := fd) _ _ _ _ (sv_lift_inv _ _ _ _ H)).
  - exact (st_read_err (fd := fd) _ _ _ _ (sv_lift_inv _ _ _ _ H)).
  - exact (st_write_ok (fd := fd) _ _ _ _ (sv_write_inv _ _ _ _ _ H)).
  - exact (st_write_err (fd := fd) _ _ _ _ (sv_write_inv _ _ _ _ _ H)).
Defined.

Definition sv0 : tproc svnet :=
  TProc (EState [] [] [] 0) (SvNet (Wire (cs "25" ++ [NL]) [] 40 2) []).
Definition sv_buf : list ascii := replicate INT_LEN NUL.
Definition sv1 : tproc svnet := (serve 20 3 7 sv_buf sv0).2.

Lemma server_grants_disjoint_witness :
  ∃ l, grants to_uint 7 l 32 ∧ l.*2 = [25] ∧
       replies (t_os sv1) = replies (t_os sv0) ++ (reply <$> l.*1) ∧
       (total l ≤ 2 ^ 32 → NoDup (concat (numbers to_uint <$> l))).
Proof.
  apply (server_grants_disjoint 20 3 0 (7, sv_buf) sv0 [Some 25]
           (32, cs "25" ++ [NL] ++ replicate 27 NUL) sv1).
  assert (turn_asked 20 3 SOCKADDR_STORAGE 0 sv_buf (t_os sv0) = Some 25) as <- by (vm_compute; reflexivity).
  left. apply (turns_more _ _ _ _ [] (7, sv_buf) sv0); [apply turns_none|]. vm_compute. reflexivity.
Defined.

Lemma request_granted_witness :
  ∃ b s', answer 20 5 7 sv_buf sv0 = (Ret (to_uint (7 + 25), b), s') ∧
    replies (t_os s') = replies (t_os sv0) ++ [reply 7].
Proof.
  apply (request_granted 20 5 7 25 (cs "25") sv_buf [] sv0).
  - change (cs "25") with (fmt_d 25). apply fmt_d_numeral.
  - rw /INT_MAX. lia.
  - by apply nul_free_spec.
  - rw !not_elem_of_cons. split_and!; try done. set_solver.
  - cbn. lia.
  - reflexivity.
  - reflexivity.
  - cbn. lia.
  - intros [w l] e k'. cbn. rw /sv_lift /=. destruct (wire_intr w); [done|]. by intros [= <- <-].
Defined.

(** A FIFO with one request in it; the FIFOs of clients can always be opened. *)
#[export] Instance fifo_env : TlpiEnv (list ascii) :=
  {| te_strerror _ := cs "error"; te_dumpcore := None |}.

#[export] Instance fifo_sim : FifoOS (list ascii) := {|
  ff_umask k := k;
  ff_mkfifo _ k := (inr tt, k);
  ff_open_read _ k := (inr 3, k);
  ff_open_write _ k := (inr 5, k);
  ff_read _ n k := (inr (take n k), drop n k);
  ff_write _ d k := (inr (length d), k);
  ff_close _ k := (inr tt, k);
  ff_unlink _ k := k;
  ff_ignore_sigpipe k := (inr tt, k);
  ff_getpid _ := 1234;
  ff_atexit k := (true, k);
|}.

Lemma fifo_request_served_witness :
  fifo_serve 3 100 (TProc (EState [] [] [] 0) (encode_request (Request 1234 8))) =
    (Ret (to_int (100 + 8)), TProc (EState [] [] [] 0) []) ∧
  decode_response (encode_response 100) = 100.
Proof.
  apply (fifo_request_served 3 5 1234 8 100 _ _ [] [] [] []); try reflexivity;
    rw /in_int /INT_MIN /INT_MAX; lia.
Defined.
