(* ===== verification/Getopt.v ===== *)
(** * [getopt]

    The C library's option scanner, as the programs use it: the whole sequence
    of values one loop of [getopt] calls sees, with the diagnostic it prints
    for an option it rejects, and the operands that are left. *)

From S2P Require Import Prelude.

Inductive opt_event :=
| Opt (opt : ascii) (optarg : option cstring)
| BadOpt (diagnostic : cstring).

(** Whether [c] is an option of [optstring], and whether it takes an argument. *)
Fixpoint opt_lookup (c : ascii) (optstring : cstring) : option bool :=
  match optstring with
  | [] => None
  | x :: r =>
      if decide (x = c ∧ c ≠ ":"%char)
      then Some (match r with y :: _ => bool_decide (y = ":"%char) | [] => false end)
      else opt_lookup c r
  end.

(** The options of one argument, from [t] on; yields the arguments left. *)
Fixpoint opt_cluster (prog optstring t : cstring) (rest : list cstring) :
    list opt_event * list cstring :=
  match t with
  | [] => ([], rest)
  | c :: t' =>
      match opt_lookup c optstring with
      | None =>
          let '(l, r) := opt_cluster prog optstring t' rest in
          (BadOpt (prog ++ cs ": invalid option -- '" ++ [c] ++ cs "'" ++ [NL]) :: l, r)
      | Some false =>
          let '(l, r) := opt_cluster prog optstring t' rest in (Opt c None :: l, r)
      | Some true =>
          match t', rest with
          | _ :: _, _ => ([Opt c (Some t')], rest)
          | [], a :: r => ([Opt c (Some a)], r)
          | [], [] =>
              ([BadOpt (prog ++ cs ": option requires an argument -- '" ++ [c] ++ cs "'" ++ [NL])], [])
          end
      end
  end.

(** [permute]: operands before the last option are moved behind it, the
    default; otherwise the first operand ends the options. *)
Fixpoint getopt (fuel : nat) (permute : bool) (prog optstring : cstring) (args : list cstring) :
    list opt_event * list cstring :=
  match fuel, args with
  | S f, ((c :: d :: t) as a) :: rest =>
      if bool_decide (a = cs "--") then ([], rest)
      else if decide (c = "-"%char) then
        let '(l, r) := opt_cluster prog optstring (d :: t) rest in
        let '(l', r') := getopt f permute prog optstring r in (l ++ l', r')
      else if permute then
        let '(l, r) := getopt f permute prog optstring rest in (l, a :: r)
      else ([], args)
  | S f, a :: rest =>
      if permute then
        let '(l, r) := getopt f permute prog optstring rest in (l, a :: r)
      else ([], args)
  | _, _ => ([], args)
  end.

(** The option string after a leading '+', which turns permutation off. *)
Definition opt_letters (optstring : string) : cstring :=
  match cs optstring with "+"%char :: r => r | r => r end.

(** The arguments of a program after its name; as many steps as arguments. *)
Definition options (prog : cstring) (optstring : string) (args : list cstring) :
    list opt_event * list cstring :=
  getopt (length args) (negb (bool_decide (head (cs optstring) = Some "+"%char)))
    prog (opt_letters optstring) args.

(** Operands are kept whole, wherever the options stand. *)
Example options_permuted :
  options (cs "p") "vm:" [cs "file"; cs "-vm"; cs "3"; cs "other"; cs "--"; cs "-x"] =
  ([Opt "v" None; Opt "m" (Some (cs "3"))], [cs "file"; cs "other"; cs "-x"]).
Proof. by vm_compute. Qed.

(** ** Properties *)

(** The options [getopt] delivers are those of the option string, with an
    argument exactly where the string says so. *)
Definition opt_ok (optstring : cstring) (e : opt_event) : Prop :=
  match e with
  | Opt c a => opt_lookup c optstring = Some (bool_decide (is_Some a))
  | BadOpt _ => True
  end.

Lemma opt_cluster_ok prog optstring t rest :
  Forall (opt_ok optstring) (opt_cluster prog optstring t rest).1.
Proof.
  elim: t => [|c t IH] /=; [constructor|].
  destruct (opt_lookup c optstring) as [[]|] eqn:E.
  - destruct t; [destruct rest|]; constructor; try constructor; exact E || done.
  - destruct (opt_cluster prog optstring t rest). by constructor.
  - destruct (opt_cluster prog optstring t rest). by constructor.
Qed.

Lemma getopt_ok fuel permute prog optstring args :
  Forall (opt_ok optstring) (getopt fuel permute prog optstring args).1.
Proof.
  elim: fuel args => [|f IH] [|[|c [|d t]] rest]; cbn [getopt]; try (by constructor).
  - destruct permute; [|by constructor].
    specialize (IH rest). by destruct (getopt f true prog optstring rest).
  - destruct permute; [|by constructor].
    specialize (IH rest). by destruct (getopt f true prog optstring rest).
  - case_bool_decide; [by constructor|]. case_decide.
    + pose proof (opt_cluster_ok prog optstring (d :: t) rest) as H1.
      destruct (opt_cluster prog optstring (d :: t) rest) as [l r].
      specialize (IH r). destruct (getopt f permute prog optstring r). by apply Forall_app.
    + destruct permute; [|by constructor].
      specialize (IH rest). by destruct (getopt f true prog optstring rest).
Qed.

Lemma options_ok prog optstring args :
  Forall (opt_ok (opt_letters optstring)) (options prog optstring args).1.
Proof. apply getopt_ok. Qed.

Example getopt_example :
  options (cs "p") "+UM:" [cs "-UM"; cs "0 1 2"; cs "-z"; cs "ls"; cs "-l"] =
  ([Opt "U" None; Opt "M" (Some (cs "0 1 2")); BadOpt (cs "p: invalid option -- 'z'" ++ [NL])],
   [cs "ls"; cs "-l"]).
Proof. reflexivity. Qed.
