(* ===== verification/Caps.v ===== *)
(** * Process capabilities: [cap/cap_functions.c]

    libcap works on working copies of the capability state, named by handles.
    [CapOS] has its calls, [CapOSOk] what they do to the handles and to the
    process's own sets. *)

From S2P Require Import Prelude.

Definition CAP_EFFECTIVE : Z := 0.
Definition CAP_PERMITTED : Z := 1.
Definition CAP_INHERITABLE : Z := 2.
Definition CAP_CLEAR : Z := 0.
Definition CAP_SET : Z := 1.

Class CapOS (K : Type) := {
  co_get_proc : K → res Z * K;
  co_set_flag : Z → Z → Z → Z → K → res unit * K;
  co_set_proc : Z → K → res unit * K;
  co_free : Z → K → res unit * K;
}.

Section caps.
Context {K : Type} `{!CapOS K}.

Definition csys {A} (f : K → A * K) : M K A := λ k, let '(a, k') := f k in (Ret a, k').

Definition modifyCapSetting (flag capability setting : Z) : M K Z :=
  caps ← csys co_get_proc ;
  match caps with
  | inl _ => mret (-1)
  | inr caps =>
      r ← csys (co_set_flag caps flag capability setting) ;
      match r with
      | inl _ => csys (co_free caps) ;; mret (-1)
      | inr _ =>
          r ← csys (co_set_proc caps) ;
          match r with
          | inl _ => csys (co_free caps) ;; mret (-1)
          | inr _ =>
              r ← csys (co_free caps) ;
              match r with inl _ => mret (-1) | inr _ => mret 0 end
          end
      end
  end.

Lemma modifyCapSetting_returns fl cap v k :
  ∃ r k', modifyCapSetting fl cap v k = (Ret r, k').
Proof.
  rw /modifyCapSetting /mbind /M_bind /csys.
  repeat case_match; simplify_eq/=; eauto.
Qed.
End caps.

(** ** Securebits *)

Definition SECBIT_NOROOT : Z := 1.
Definition SECBIT_NOROOT_LOCKED : Z := 2.
Definition SECBIT_NO_SETUID_FIXUP : Z := 4.
Definition SECBIT_NO_SETUID_FIXUP_LOCKED : Z := 8.
Definition SECBIT_KEEP_CAPS : Z := 16.
Definition SECBIT_KEEP_CAPS_LOCKED : Z := 32.
Definition SECBIT_NO_CAP_AMBIENT_RAISE : Z := 64.
Definition SECBIT_NO_CAP_AMBIENT_RAISE_LOCKED : Z := 128.

Definition secbitInfoList : list (Z * string * ascii) := [
  (SECBIT_NO_CAP_AMBIENT_RAISE, "NO_CAP_AMBIENT_RAISE"%string, "a"%char);
  (SECBIT_NO_CAP_AMBIENT_RAISE_LOCKED, "NO_CAP_AMBIENT_RAISE_LOCKED"%string, "A"%char);
  (SECBIT_KEEP_CAPS, "KEEP_CAPS"%string, "k"%char);
  (SECBIT_KEEP_CAPS_LOCKED, "KEEP_CAPS_LOCKED"%string, "K"%char);
  (SECBIT_NOROOT, "NOROOT"%string, "r"%char);
  (SECBIT_NOROOT_LOCKED, "NOROOT_LOCKED"%string, "R"%char);
  (SECBIT_NO_SETUID_FIXUP, "NO_SETUID_FIXUP"%string, "s"%char);
  (SECBIT_NO_SETUID_FIXUP_LOCKED, "NO_SETUID_FIXUP_LOCKED"%string, "S"%char)].

(** The names of the loop in the long form, after [printed] of them. *)
Fixpoint secbit_names (l : list (Z * string * ascii)) (secbits : Z) (printed : nat) : cstring :=
  match l with
  | [] => []
  | (f, name, _) :: r =>
      if flag secbits f
      then (if (0 <? printed)%nat then cs ", " else []) ++ cs name ++ secbit_names r secbits (S printed)
      else secbit_names r secbits printed
  end.

(** The text written to [fp]. *)
Definition printSecbits (secbits : Z) (verbose : bool) : cstring :=
  if verbose then cs "[" ++ secbit_names secbitInfoList secbits 0 ++ cs "]"
  else (λ '(f, _, letter), if flag secbits f then letter else "-"%char) <$> secbitInfoList.

(** ** What libcap and the kernel promise *)

(** A capability state: whether a capability is in each of the three sets. *)
Abbreviation capstate := (Z → Z → bool).

Class CapOSOk (K : Type) `{!CapOS K} := {
  proc_caps : K → capstate;
  copy_caps : K → Z → capstate;
  co_get_ok k h k' : co_get_proc k = (inr h, k') →
    (∀ f c, copy_caps k' h f c = proc_caps k f c) ∧ (∀ f c, proc_caps k' f c = proc_caps k f c);
  co_get_err k e k' : co_get_proc k = (inl e, k') →
    (∀ f c, proc_caps k' f c = proc_caps k f c);
  co_flag_ok h fl cap v k r k' : co_set_flag h fl cap v k = (r, k') →
    (∀ f c, proc_caps k' f c = proc_caps k f c) ∧
    (∀ u, r = inr u → ∀ f c, copy_caps k' h f c =
       if bool_decide (f = fl ∧ c = cap) then negb (v =? CAP_CLEAR) else copy_caps k h f c);
  co_set_ok h k u k' : co_set_proc h k = (inr u, k') →
    ∀ f c, proc_caps k' f c = copy_caps k h f c;
  co_set_err h k e k' : co_set_proc h k = (inl e, k') →
    ∀ f c, proc_caps k' f c = proc_caps k f c;
  co_free_ok h k r k' : co_free h k = (r, k') → ∀ f c, proc_caps k' f c = proc_caps k f c;
}.

Section modify.
Context {K : Type} `{!CapOS K, !CapOSOk K}.

Lemma wp_csys {A} (f : K → A * K) (Q : A → K → Prop) E k :
  (∀ v k', f k = (v, k') → Q v k') → wp (csys f) Q E k.
Proof. intros H. rw /wp /csys. destruct (f k) eqn:Ef. by apply H. Qed.

(** The sets [new] are [old] with one capability of one set changed. *)
Definition cap_updated (fl cap v : Z) (old new : capstate) : Prop :=
  ∀ f c, new f c = if bool_decide (f = fl ∧ c = cap) then negb (v =? CAP_CLEAR) else old f c.

Definition modify_result (fl cap v : Z) (k : K) (r : Z) (k' : K) : Prop :=
  r = 0 ∧ cap_updated fl cap v (proc_caps k) (proc_caps k') ∨
  r = -1 ∧ (cap_updated fl cap v (proc_caps k) (proc_caps k') ∨
            ∀ f c, proc_caps k' f c = proc_caps k f c).

Lemma modifyCapSetting_wp fl cap v (k : K) E :
  wp (modifyCapSetting fl cap v) (modify_result fl cap v k) E k.
Proof.
  rw /modifyCapSetting. apply wp_bind, wp_csys. intros [e|h] k1 H1.
  { right. split; [done|]. right. apply (co_get_err _ _ _ H1). }
  destruct (co_get_ok _ _ _ H1) as [Hh Hp]. apply wp_bind, wp_csys. intros [e|u] k2 H2;
    destruct (co_flag_ok _ _ _ _ _ _ _ H2) as [Hp2 Hh2].
  { apply wp_bind, wp_csys. intros r k3 H3. right. split; [done|]. right. intros f c.
    by rw (co_free_ok _ _ _ _ H3) Hp2. }
  specialize (Hh2 u eq_refl). apply wp_bind, wp_csys. intros [e|[]] k3 H3.
  { apply wp_bind, wp_csys. intros r k4 H4. right. split; [done|]. right. intros f c.
    by rw (co_free_ok _ _ _ _ H4) (co_set_err _ _ _ _ H3) Hp2. }
  apply wp_bind, wp_csys. intros r k4 H4.
  assert (cap_updated fl cap v (proc_caps k) (proc_caps k4)) as Hu.
  { intros f c. by rw (co_free_ok _ _ _ _ H4) (co_set_ok _ _ _ _ H3) Hh2 Hh. }
  destruct r; [by right; auto|by left].
Qed.

(** [modifyCapSetting] always returns: with 0, and then exactly the one capability in the
    one set has the new setting, or with -1, and then either that or nothing has changed. *)
Lemma modifyCapSetting_spec fl cap v (k : K) :
  ∃ r k', modifyCapSetting fl cap v k = (Ret r, k') ∧ modify_result fl cap v k r k'.
Proof. apply wp_returns, modifyCapSetting_wp. Qed.
End modify.

(** ** A process with working copies *)

Module CapSim.
Record kern := Kern { k_proc : capstate; k_copies : Z → capstate; k_next : Z }.

#[export] Instance cap_sim_os : CapOS kern := {
  co_get_proc k :=
    (inr (k_next k), Kern (k_proc k)
       (λ h, if h =? k_next k then k_proc k else k_copies k h) (k_next k + 1));
  co_set_flag h fl cap v k :=
    (inr tt, Kern (k_proc k)
       (λ h', if h' =? h
              then λ f c, if bool_decide (f = fl ∧ c = cap) then negb (v =? CAP_CLEAR) else k_copies k h f c
              else k_copies k h') (k_next k));
  co_set_proc h k := (inr tt, Kern (k_copies k h) (k_copies k) (k_next k));
  co_free _ k := (inr tt, k);
}.

#[export, refine] Instance cap_sim_ok : CapOSOk kern := {
  proc_caps := k_proc;
  copy_caps := k_copies;
}.
Proof.
  - intros k h k' [= <- <-]. cbn. by rw Z.eqb_refl.
  - done.
  - intros h fl cap v k r k' [= <- <-]. split; [done|]. intros [] _ f c. cbn. by rw Z.eqb_refl.
  - by intros h k u k' [= <- <-].
  - done.
  - by intros h k r k' [= <- <-].
Defined.

(** A process with CAP_KILL (5) permitted, and nothing else. *)
Definition boot : kern :=
  Kern (λ f c, (f =? CAP_PERMITTED) && (c =? 5)) (λ _ _ _, false) 1.
End CapSim.
Import CapSim.

Lemma modifyCapSetting_spec_witness :
  ∃ r k', modifyCapSetting CAP_EFFECTIVE 5 CAP_SET CapSim.boot = (Ret r, k') ∧
    modify_result CAP_EFFECTIVE 5 CAP_SET CapSim.boot r k'.
Proof. apply (modifyCapSetting_spec CAP_EFFECTIVE 5 CAP_SET CapSim.boot). Defined.
