(* ===== verification/UsernsExec.v ===== *)
(** * Running a command in new namespaces: [namespaces/userns_child_exec.c]

    The options are parsed by the program's own switch over [getopt]; the
    parent writes the mapping files of the child it clones, with the functions
    of NsCapable, and the child performs the repeatable options, with the
    functions of Caps, before it executes the command.  The two processes
    meet at a pipe; their interleavings are the step relation at the end. *)

From S2P Require Import Prelude CStdlib ErrFns Process NsCapable Caps Getopt.

Definition CLONE_NEWNS : Z := 0x20000.
Definition CLONE_NEWCGROUP : Z := 0x2000000.
Definition CLONE_NEWUTS : Z := 0x4000000.
Definition CLONE_NEWIPC : Z := 0x8000000.
Definition CLONE_NEWPID : Z := 0x20000000.
Definition CLONE_NEWNET : Z := 0x40000000.
Definition SIGCHLD : Z := 17.
Definition CAP_LAST_CAP : Z := 40.
Definition MAX_OPT : nat := 100.
Definition MAP_BUF_SIZE : nat := 100.

Class UsernsOS (K : Type) := {
  ux_ns :: NsOS K;
  ux_caps :: CapOS K;
  ux_dumpcore : option cstring;
  ux_ambient : bool → Z → K → res unit * K;
  ux_capbset_drop : Z → K → res unit * K;
  ux_set_securebits : Z → K → res unit * K;
  ux_setresuid : Z → Z → Z → K → res unit * K;
  ux_cap_from_name : cstring → option Z;
  ux_cap_from_text : cstring → K → res Z * K;
  ux_sleep : Z → K → K;
  ux_geteuid : K → Z; ux_getegid : K → Z; ux_getuid : K → Z; ux_getgid : K → Z;
  ux_set_dumpable : K → res unit * K;
  ux_pipe : K → res (Z * Z) * K;
  ux_mmap : K → res unit * K;
  ux_clone : Z → K → res Z * K;
  ux_read : Z → nat → K → res (list ascii) * K;
  ux_execvp : list cstring → K → res unit * K;
  ux_waitpid : Z → K → res unit * K;
}.

Record cmd_options := CmdOptions {
  flags : Z;
  create_root_mappings : bool;
  deny_setgroups : bool;
  verbose : bool;
  uid_map : option cstring;
  gid_map : option cstring;
  opt_list : list (ascii * option cstring);
}.

Definition set_flags (f : Z) (o : cmd_options) : cmd_options :=
  CmdOptions (Z.lor (flags o) f) (create_root_mappings o) (deny_setgroups o) (verbose o)
    (uid_map o) (gid_map o) (opt_list o).
Definition push_opt (c : ascii) (v : option cstring) (o : cmd_options) : cmd_options :=
  CmdOptions (flags o) (create_root_mappings o) (deny_setgroups o) (verbose o)
    (uid_map o) (gid_map o) (opt_list o ++ [(c, v)]).

Section userns_exec.
Context {K : Type} `{!UsernsOS K}.
Abbreviation P := (M (proc K)).

(** A library function that works on the kernel alone. *)
Definition on_os {A} (m : M K A) : P A := λ s,
  let '(o, k) := m (p_os s) in (o, Proc (p_out s) (p_err s) k).
(** The library's [errExit], used by userns_functions.c. *)
Definition lib_errExit {A} (msg : cstring) (e : Z) : P A := λ s,
  let '(o, es) := ErrFns.errExit no_strerror ux_dumpcore msg
                    (EState [] (p_out s) (p_err s) e) in
  (o, Proc (e_stdout es) (e_stderr es) (p_os s)).

(** ** Options *)

Definition fpe (l : list string) : P unit := for_each l (λ t, eprintf (cs "    " ++ cs t ++ [NL])).

Definition usage {A} (pname : cstring) : P A :=
  eprintf (cs "Usage: " ++ pname ++ cs " [options] cmd [arg...]" ++ [NL; NL]) ;;
  eprintf (cs "Create a child process that executes a shell command in (typically) a new user" ++ [NL]
           ++ cs "namespace, and possibly also other new namespaces." ++ [NL; NL]) ;;
  eprintf (cs "Options can be:" ++ [NL; NL]) ;;
  fpe ["-C          New cgroup namespace"; "-i          New IPC namespace";
       "-m          New mount namespace"; "-n          New network namespace";
       "-p          New PID namespace"; "-u          New UTS namespace";
       "-U          New user namespace"; "-M uid_map  Specify UID map for user namespace";
       "-G gid_map  Specify GID map for user namespace"]%string ;;
  eprintf (cs "    -D          Do not write " ++ QUOTE ++ cs "deny" ++ QUOTE
           ++ cs " to /proc/PID/setgroups before" ++ [NL]) ;;
  fpe ["            updating GID map";
       "-r          Create 'root' mappings: map user's UID and GID to 0 in user";
       "            namespace (equivalent to: -M '0 <uid> 1' -G '0 <gid> 1')"]%string ;;
  eprintf (cs "    -v          Display verbose messages" ++ [NL; NL]) ;;
  eprintf (cs "    If -r, -M, or -G is specified, -U is required." ++ [NL; NL]) ;;
  fpe ["It is not permitted to specify both -r and either -M or -G."; "";
       "Map strings for -M and -G consist of records of the form:"; "";
       "    ID-inside-ns   ID-outside-ns   len"; "";
       "A map string can contain multiple records, separated by commas;";
       "the commas are replaced by newlines before writing to map files."]%string ;;
  eprintf ([NL] ++ cs "The following additional options (primarily useful when experimenting with"
           ++ [NL] ++ cs "user namespaces) are repeatable: they can appear multiple times and are"
           ++ [NL] ++ cs "performed in the child in the order that they are specified, just before"
           ++ [NL] ++ cs "'cmd' is execed:" ++ [NL; NL]) ;;
  fpe ["-I          Push all possible capabilities into inheritable set";
       "-A          Push all possible capabilities into inheritable and";
       "            ambient sets"; "-s <uid>    Set all process UIDs to <uid>";
       "-S r,e,s    Set real/effective/saved-set UIDs";
       "-b <bits>   Set securebits flags; 'bits' can be '0' to clear the flags";
       "            or one or more of:"; "                'a' - NO_CAP_AMBIENT_RAISE";
       "                'A' - NO_CAP_AMBIENT_RAISE_LOCKED"; "                'k' - KEEP_CAPS";
       "                'K' - KEEP_CAPS_LOCKED"; "                'r' - NOROOT";
       "                'R' - NOROOT_LOCKED"; "                's' - NO_SETUID_FIXUP";
       "                'S' - NO_SETUID_FIXUP_LOCKED";
       "-d          Display process credentials and capabilities";
       "-w <nsecs>  Wait (sleep) for <nsecs> seconds";
       "-x <caps>   Set process capabilities; <caps> as per cap_from_text(3)";
       "-X [peiba]{+|-}<cap-name>";
       "            Modify one or more process sets by adding or removing";
       "            a capability.";
       "            Each set is modified as an individual operation";
       "            in the order specified before +/-."]%string ;;
  exit EXIT_FAILURE.

Definition optstring : string := "+CimnuUM:G:rDvpAIs:b:S:dx:X:w:".

(** One turn of the loop over [getopt]. *)
Definition parse_option (pname : cstring) (o : cmd_options) (ev : opt_event) : P cmd_options :=
  match ev with
  | BadOpt d => eprintf d ;; usage pname
  | Opt c optarg =>
      let isc (x : ascii) := bool_decide (c = x) in
      if isc "C"%char then mret (set_flags CLONE_NEWCGROUP o)
      else if isc "i"%char then mret (set_flags CLONE_NEWIPC o)
      else if isc "m"%char then mret (set_flags CLONE_NEWNS o)
      else if isc "n"%char then mret (set_flags CLONE_NEWNET o)
      else if isc "p"%char then mret (set_flags CLONE_NEWPID o)
      else if isc "u"%char then mret (set_flags CLONE_NEWUTS o)
      else if isc "U"%char then mret (set_flags CLONE_NEWUSER o)
      else if isc "M"%char then
        mret (CmdOptions (flags o) (create_root_mappings o) (deny_setgroups o) (verbose o)
                optarg (gid_map o) (opt_list o))
      else if isc "G"%char then
        mret (CmdOptions (flags o) (create_root_mappings o) (deny_setgroups o) (verbose o)
                (uid_map o) optarg (opt_list o))
      else if isc "r"%char then
        mret (CmdOptions (flags o) true (deny_setgroups o) (verbose o)
                (uid_map o) (gid_map o) (opt_list o))
      else if isc "D"%char then
        mret (CmdOptions (flags o) (create_root_mappings o) false (verbose o)
                (uid_map o) (gid_map o) (opt_list o))
      else if isc "v"%char then
        mret (CmdOptions (flags o) (create_root_mappings o) (deny_setgroups o) true
                (uid_map o) (gid_map o) (opt_list o))
      else if bool_decide (c ∈ cs "IAbsdxXw") then
        if (MAX_OPT <=? length (opt_list o))%nat then
          eprintf (cs "Too many repeatable options (maximum: " ++ fmt_d (Z.of_nat MAX_OPT)
                   ++ cs ")" ++ [NL]) ;;
          exit EXIT_FAILURE
        else mret (push_opt c (if bool_decide (c ∈ cs "sSxXwb") then optarg else None) o)
      else usage pname
  end.

Fixpoint parse_loop (pname : cstring) (o : cmd_options) (evs : list opt_event) : P cmd_options :=
  match evs with
  | [] => mret o
  | ev :: r => o' ← parse_option pname o ev ; parse_loop pname o' r
  end.

Definition initial_options : cmd_options := CmdOptions 0 false true false None None [].

(** The tests after the loop: a mapping without a user namespace, or both
    ways of giving one. *)
Definition bad_combination (o : cmd_options) : bool :=
  let mapped := bool_decide (is_Some (uid_map o)) || bool_decide (is_Some (gid_map o)) in
  ((mapped || create_root_mappings o) && negb (flag (flags o) CLONE_NEWUSER)) ||
  (create_root_mappings o && mapped).

(** Yields the options and the command with its arguments. *)
Definition parse_command_options (pname : cstring) (args : list cstring) :
    P (cmd_options * list cstring) :=
  let '(evs, operands) := options pname optstring args in
  o ← parse_loop pname initial_options evs ;
  if bad_combination o then usage pname
  else if (length operands =? 0)%nat then usage pname
  else mret (o, operands).

(** ** The repeatable options *)

Fixpoint raise_loop (cap : list Z) (doAmbient : bool) : P unit :=
  match cap with
  | [] => mret tt
  | c :: r =>
      on_os (modifyCapSetting CAP_INHERITABLE c CAP_SET) ;;
      when doAmbient (psys_ (ux_ambient true c)) ;;
      raise_loop r doAmbient
  end.

Definition raiseInheritableAndAmbientCaps (doAmbient : bool) : P unit :=
  raise_loop (seqZ 0 (CAP_LAST_CAP + 1)) doAmbient.

(** The letters before the operator, whether they are all set names, and the
    text from the operator on. *)
Fixpoint split_op (t : cstring) : cstring * bool * cstring :=
  match t with
  | [] => ([], true, [])
  | c :: r =>
      if bool_decide (c = "+"%char ∨ c = "-"%char) then ([], true, t)
      else let '(sets, ok, op) := split_op r in
           (c :: sets, bool_decide (c ∈ cs "peiba") && ok, op)
  end.

Definition modify_set (op : ascii) (name : cstring) (cap : Z) (p : ascii) : P unit :=
  if bool_decide (p ∈ cs "pie") then
    let fl := if bool_decide (p = "p"%char) then CAP_PERMITTED
              else if bool_decide (p = "e"%char) then CAP_EFFECTIVE else CAP_INHERITABLE in
    let capval := if bool_decide (op = "+"%char) then CAP_SET else CAP_CLEAR in
    r ← on_os (modifyCapSetting fl cap capval) ;
    if r =? -1 then
      eprintf (cs "-X: modifyCapSetting() failed while "
        ++ (if capval =? CAP_SET then cs "raising" else cs "lowering")
        ++ cs " '" ++ name ++ cs "' in '" ++ [p] ++ cs "'" ++ [NL]) ;;
      exit EXIT_FAILURE
    else mret tt
  else if bool_decide (p = "b"%char) then
    if bool_decide (op = "+"%char) then
      eprintf (cs "Can't add capabilities to the bounding set" ++ [NL]) ;; exit EXIT_FAILURE
    else checked "-X: PR_CAPBSET_DROP" (ux_capbset_drop cap)
  else if bool_decide (p = "a"%char) then
    checked "-X: PR_CAP_AMBIENT" (ux_ambient (bool_decide (op = "+"%char)) cap)
  else eprintf (cs "Bad switch case ('-X'): " ++ [p] ++ [NL]) ;; exit EXIT_FAILURE.

Definition modify_individual_capability (optval : cstring) : P unit :=
  match split_op optval with
  | (sets, true, op :: (_ :: _) as name) =>
      match ux_cap_from_name name with
      | None => eprintf (cs "-X: bad capability name" ++ [NL]) ;; exit EXIT_FAILURE
      | Some cap => for_each sets (modify_set op name cap)
      end
  | _ => eprintf (cs "Badly formed -X option" ++ [NL]) ;; exit EXIT_FAILURE
  end.

(** The loop over the letters; [inl] is the first unknown one. *)
Fixpoint secbits_loop (p : cstring) (secbits : Z) : ascii + Z :=
  match p with
  | [] => inr secbits
  | c :: r =>
      let isc (x : ascii) := bool_decide (c = x) in
      if isc "a"%char then secbits_loop r (Z.lor secbits SECBIT_NO_CAP_AMBIENT_RAISE)
      else if isc "A"%char then secbits_loop r (Z.lor secbits SECBIT_NO_CAP_AMBIENT_RAISE_LOCKED)
      else if isc "k"%char then secbits_loop r (Z.lor secbits SECBIT_KEEP_CAPS)
      else if isc "K"%char then secbits_loop r (Z.lor secbits SECBIT_KEEP_CAPS_LOCKED)
      else if isc "r"%char then secbits_loop r (Z.lor secbits SECBIT_NOROOT)
      else if isc "R"%char then secbits_loop r (Z.lor secbits SECBIT_NOROOT_LOCKED)
      else if isc "s"%char then secbits_loop r (Z.lor secbits SECBIT_NO_SETUID_FIXUP)
      else if isc "S"%char then secbits_loop r (Z.lor secbits SECBIT_NO_SETUID_FIXUP_LOCKED)
      else if isc "0"%char then secbits_loop r 0
      else inl c
  end.

Definition set_securebits (optval : cstring) : P unit :=
  match secbits_loop optval 0 with
  | inl c =>
      eprintf (cs "Unexpected value for '-b' (securebits flag): " ++ [c] ++ [NL]) ;;
      exit EXIT_FAILURE
  | inr secbits => checked "prctl-PR_SET_SECUREBITS" (ux_set_securebits secbits)
  end.

Definition set_process_uids (optval : cstring) : P unit :=
  match strchr_split ","%char optval with
  | Some (r, rest) =>
      match strchr_split ","%char rest with
      | Some (e, sv) =>
          checked "-S failed (setresuid)" (ux_setresuid (to_uint (atoi r)) (to_uint (atoi e)) (to_uint (atoi sv)))
      | None => eprintf (cs "Expected three comma-separated UIDs: -S " ++ optval ++ [NL]) ;;
                exit EXIT_FAILURE
      end
  | None => eprintf (cs "Expected three comma-separated UIDs: -S " ++ optval ++ [NL]) ;;
            exit EXIT_FAILURE
  end.

(** [display_creds_and_caps] of userns_functions.c. *)
Definition display_creds_and_caps (str : cstring) : P unit :=
  s ← get ;
  printf (str ++ cs "eUID = " ++ fmt_d (ux_geteuid (p_os s)) ++ cs "; eGID="
          ++ fmt_d (ux_getegid (p_os s)) ++ cs ";  ") ;;
  caps ← psys co_get_proc ;
  match caps with
  | inl e => lib_errExit (cs "cap_get_proc") e
  | inr caps =>
      t ← psys (no_cap_to_text caps) ;
      match t with
      | inl e => lib_errExit (cs "cap_to_text") e
      | inr t =>
          printf (cs "capabilities: " ++ t ++ [NL]) ;;
          psys_ (co_free caps) ;; kernel no_cap_free
      end
  end.

(** An option's argument; a null pointer if there is none. *)
Definition with_val {A} (v : option cstring) (k : cstring → P A) : P A :=
  match v with Some t => k t | None => stop Crash end.

Definition perform_option (display_cnt : Z) (opt : ascii) (val : option cstring) : P unit :=
  let isc (x : ascii) := bool_decide (opt = x) in
  if isc "a"%char then raiseInheritableAndAmbientCaps true
  else if isc "b"%char then with_val val set_securebits
  else if isc "d"%char then
    display_creds_and_caps (snprintf 10 (cs "[-d " ++ fmt_d (display_cnt + 1) ++ cs "] "))
  else if isc "h"%char then raiseInheritableAndAmbientCaps false
  else if isc "s"%char then with_val val (λ v,
    let newuid := to_uint (atoi v) in
    checked "setresuid" (ux_setresuid newuid newuid newuid))
  else if isc "S"%char then with_val val set_process_uids
  else if isc "w"%char then with_val val (λ v, kernel (ux_sleep (to_uint (atoi v))))
  else if isc "x"%char then with_val val (λ v,
    caps ← checked "-x: cap_from_text" (ux_cap_from_text v) ;
    checked "-x: cap_set_proc()" (co_set_proc caps) ;;
    psys_ (co_free caps))
  else if isc "X"%char then with_val val modify_individual_capability
  else eprintf (cs "Unexpected option (-" ++ [opt] ++ cs ") in perform_repeatable_options()" ++ [NL]).

Fixpoint perform_repeatable_options (display_cnt : Z) (l : list (ascii * option cstring)) : P unit :=
  match l with
  | [] => mret tt
  | (c, v) :: r =>
      perform_option display_cnt c v ;;
      perform_repeatable_options (if bool_decide (c = "d"%char) then display_cnt + 1 else display_cnt) r
  end.

(** ** The two processes *)

Definition childFunc (o : cmd_options) (argv : list cstring) (pipe_fd : Z * Z) : P unit :=
  psys_ (no_close pipe_fd.2) ;;
  r ← psys (ux_read pipe_fd.1 1) ;
  match r with
  | inr [] =>
      psys_ (no_close pipe_fd.1) ;;
      perform_repeatable_options 0 (opt_list o) ;;
      when (verbose o) (printf (cs "About to exec: " ++ default [] (head argv) ++ [NL])) ;;
      checked "execvp" (ux_execvp argv)
  | _ => eprintf (cs "Failure in child: read from pipe returned != 0" ++ [NL]) ;; exit EXIT_FAILURE
  end.

Definition map_path (child_pid : Z) (name : string) : cstring :=
  snprintf PATH_MAX (cs "/proc/" ++ fmt_d child_pid ++ cs "/" ++ cs name).

(** One of the two mapping files, with [root] the mapping of [-r]. *)
Definition update_child_map (o : cmd_options) (child_pid : Z) (name : string) (msg : string)
    (map : option cstring) (id : K → Z) : P unit :=
  s ← get ;
  let m := if create_root_mappings o
           then Some (snprintf MAP_BUF_SIZE (cs "0 " ++ fmt_d (id (p_os s)) ++ cs " 1"))
           else map in
  match m with
  | None => stop Crash
  | Some m =>
      r ← update_map m (map_path child_pid name) ;
      if r.1 =? -1 then e ← gets (no_errno ∘ p_os) ; errExit (cs msg) e else mret tt
  end.

Definition update_child_maps (o : cmd_options) (child_pid : Z) : P unit :=
  when (bool_decide (is_Some (uid_map o)) || create_root_mappings o)
    (update_child_map o child_pid "uid_map" "update_map: uid_map" (uid_map o) ux_getuid) ;;
  when (bool_decide (is_Some (gid_map o)) || create_root_mappings o)
    (when (deny_setgroups o)
       (r ← proc_setgroups_write child_pid (cs "deny") ;
        if r =? -1 then e ← gets (no_errno ∘ p_os) ; errExit (cs "proc_setgroups_write") e
        else mret tt) ;;
     update_child_map o child_pid "gid_map" "update_map: gid_map" (gid_map o) ux_getgid).

(** The parent; the child runs [childFunc] with the same options. *)
Definition userns_exec_main (pname : cstring) (args : list cstring) : P unit :=
  oa ← parse_command_options pname args ;
  let '(o, argv) := (oa : cmd_options * list cstring) in
  checked "prctl-PR_SET_DUMPABLE" ux_set_dumpable ;;
  pipe_fd ← checked "pipe" ux_pipe ;
  checked "mmap" ux_mmap ;;
  child_pid ← checked "clone" (ux_clone (Z.lor (flags o) SIGCHLD)) ;
  when (verbose o) (printf (pname ++ cs ": PID of child created by clone() is "
                            ++ fmt_d child_pid ++ [NL])) ;;
  update_child_maps o child_pid ;;
  psys_ (no_close pipe_fd.2) ;;
  checked "waitpid" (ux_waitpid child_pid) ;;
  when (verbose o) (printf (pname ++ cs ": terminating" ++ [NL])) ;;
  exit EXIT_SUCCESS.

(** ** The options that reach the child *)

(** Repeatable options that the child would use with an argument have one. *)
Definition opt_wf (cv : ascii * option cstring) : Prop :=
  cv.1 ∈ cs "bsSwxX" → is_Some cv.2.

Record options_wf (o : cmd_options) : Prop := {
  ow_count : (length (opt_list o) ≤ MAX_OPT)%nat;
  ow_args : Forall opt_wf (opt_list o);
}.

Lemma usage_exits {A} pname s : (@usage A pname s).1 = Exit EXIT_FAILURE.
Proof. reflexivity. Qed.

Lemma safe_usage {A} pname (Q : A → proc K → Prop) s : safe (usage pname) Q s.
Proof.
  rw /safe. pose proof (usage_exits (A := A) pname s) as H.
  destruct (usage pname s) as [o s']. cbn in H. by subst.
Qed.

Lemma parse_option_wf pname o ev s :
  options_wf o → opt_ok (opt_letters optstring) ev →
  safe (parse_option pname o ev) (λ o' _, options_wf o') s.
Proof.
  intros Ho Hev. destruct ev as [c a|d]; cbn [parse_option opt_ok] in *.
  2:{ apply safe_bind, safe_eprintf, safe_usage. }
  repeat match goal with
    |- safe (if bool_decide (c = ?x) then _ else _) _ _ =>
      destruct (bool_decide (c = x)) eqn:?; [apply safe_ret; by destruct Ho; split|]
    end.
  destruct (bool_decide (c ∈ cs "IAbsdxXw")); [|apply safe_usage].
  destruct (Nat.leb_spec MAX_OPT (length (opt_list o))) as [|Hlen].
  { apply safe_bind, safe_eprintf. done. }
  apply safe_ret. destruct Ho as [Hl Ha]. split; cbn.
  - rw length_app /=. lia.
  - apply Forall_app. split; [done|]. constructor; [|constructor]. intros Hc'. cbn [fst snd] in *.
    assert (opt_lookup c (opt_letters optstring) = Some true) as Hlk.
    { clear -Hc'. vm_compute in Hc'. set_unfold in Hc'. destruct_or?; subst; try done. }
    rw Hlk in Hev. injection Hev as Hev. symmetry in Hev. apply bool_decide_eq_true in Hev.
    rw bool_decide_eq_true_2; [|done].
    clear -Hc'. set_solver.
Qed.

Lemma parse_loop_wf pname o evs s :
  options_wf o → Forall (opt_ok (opt_letters optstring)) evs →
  safe (parse_loop pname o evs) (λ o' _, options_wf o') s.
Proof.
  intros Ho Hev. elim: Hev o s Ho => [|ev evs' Hev Hevs IH] o s Ho; cbn [parse_loop]; [done|].
  apply safe_bind. eapply safe_conseq; [by apply parse_option_wf|].
  intros o' s' Ho'. by apply IH.
Qed.

Lemma total_on_os_modify fl cap v : total (on_os (modifyCapSetting fl cap v)).
Proof.
  intros s. rw /safe /on_os.
  by destruct (modifyCapSetting_returns fl cap v (p_os s)) as (r & k & ->).
Qed.
Hint Resolve total_on_os_modify : total.

Lemma total_kernel (f : K → K) : total (kernel f).
Proof. by intros s. Qed.
Hint Resolve total_kernel : total.

Lemma total_raise b : total (raiseInheritableAndAmbientCaps b).
Proof.
  rw /raiseInheritableAndAmbientCaps. elim: (seqZ _ _) => [|c l IH]; cbn [raise_loop]; total.
Qed.

Lemma total_modify_individual v : total (modify_individual_capability v).
Proof.
  rw /modify_individual_capability. destruct (split_op v) as [[sets []] [|op [|x r]]]; total.
  apply total_for_each. intros p _. rw /modify_set. total.
Qed.

Lemma total_lib_errExit {A} msg e : total (lib_errExit (A := A) msg e).
Proof. intros s. rw /safe /lib_errExit errExit_eq. by case_bool_decide. Qed.
Hint Resolve total_raise total_modify_individual total_lib_errExit : total.

Lemma total_perform_option n c v : opt_wf (c, v) → total (perform_option n c v).
Proof.
  intros Hwf. rw /opt_wf /= in Hwf. rw /perform_option.
  destruct v as [v|].
  - rw /with_val /set_securebits /set_process_uids /display_creds_and_caps. total.
  - repeat match goal with |- total (if bool_decide (c = ?x) then _ else _) =>
      destruct (bool_decide_reflect (c = x)) as [->|];
      [try (destruct Hwf as [? ?]; [set_solver|done])|] end; rw ?/display_creds_and_caps; total.
Qed.

Lemma total_perform_options n l :
  Forall opt_wf l → total (perform_repeatable_options n l).
Proof.
  intros H. elim: H n => [|[c v] l' Hc Hl IH] n; cbn [perform_repeatable_options]; total.
  by apply total_perform_option.
Qed.

(** C32: Whatever the command line, parsing ends with usage information or another diagnostic,
    or it yields options that name a command and are consistent: a mapping only together
    with a new user namespace, never both -r and an explicit mapping, and no more than
    MAX_OPT repeatable options.  With such options neither the parent's mapping of the
    child nor the child itself ever follows a null pointer. *)
Theorem parsed_options_safe pname args pid fds s :
  safe (parse_command_options pname args)
    (λ '(o, argv) _,
       argv ≠ [] ∧ (length (opt_list o) ≤ MAX_OPT)%nat ∧
       (create_root_mappings o = true ∨ uid_map o ≠ None ∨ gid_map o ≠ None →
        flag (flags o) CLONE_NEWUSER = true) ∧
       (create_root_mappings o = true → uid_map o = None ∧ gid_map o = None) ∧
       total (update_child_maps o pid) ∧ total (childFunc o argv fds)) s.
Proof.
  rw /parse_command_options.
  pose proof (options_ok pname optstring args) as Hev.
  destruct (options pname optstring args) as [evs operands]. apply safe_bind.
  eapply safe_conseq; [apply parse_loop_wf; [by repeat constructor|exact Hev]|].
  intros o s' [Hc Ha]. destruct (bad_combination o) eqn:Hb; [apply safe_usage|].
  destruct (Nat.eqb_spec (length operands) 0); [apply safe_usage|]. apply safe_ret.
  rw /bad_combination in Hb. apply orb_false_iff in Hb as [Hb1 Hb2]. split_and!.
  - by destruct operands.
  - done.
  - intros H. destruct (flag (flags o) CLONE_NEWUSER); [done|].
    rw andb_true_r in Hb1. apply orb_false_iff in Hb1 as [Hm Hr].
    apply orb_false_iff in Hm as [H1 H2].
    destruct (create_root_mappings o), (uid_map o), (gid_map o); naive_solver.
  - intros Hr. rw Hr in Hb2. by destruct (uid_map o), (gid_map o).
  - rw /update_child_maps /update_child_map /update_map /proc_setgroups_write /report_errno.
    assert (∀ x : option cstring, bool_decide (is_Some x) =
      match x with Some _ => true | None => false end) as E
      by by intros [].
    rw !E. destruct (create_root_mappings o), (uid_map o), (gid_map o); cbn [orb when]; total.
  - rw /childFunc. total. by apply total_perform_options.
Qed.

(** Three documented options do nothing of what they promise: -S is refused with usage
    information although [getopt] accepts it with its argument, and -I and -A pass the
    parser but reach the child under letters it does not know, so it prints a message and
    raises no capability. *)
Lemma dead_options pname o n v s :
  opt_lookup "S" (opt_letters optstring) = Some true ∧
  (parse_option pname o (Opt "S" v) s).1 = Exit EXIT_FAILURE ∧
  ((length (opt_list o) < MAX_OPT)%nat → ∀ c, c = "I"%char ∨ c = "A"%char →
   parse_option pname o (Opt c None) s = (Ret (push_opt c None o), s) ∧
   perform_option n c None s =
     (Ret tt, Proc (p_out s) (p_err s ++ cs "Unexpected option (-" ++ [c]
        ++ cs ") in perform_repeatable_options()" ++ [NL]) (p_os s))).
Proof.
  split; [done|]. split; [apply usage_exits|].
  intros Hl c Hc. assert ((MAX_OPT <=? length (opt_list o))%nat = false) as E
    by (apply Nat.leb_gt; lia).
  destruct Hc as [-> | ->]; (split; [cbn -[MAX_OPT]; by rw E|done]).
Qed.
End userns_exec.

(** ** Securebits: the letters the options use are the letters that are printed *)

Definition secbits_back (b : Z) : bool :=
  bool_decide (secbits_loop (filter (λ c, c ≠ "-"%char) (printSecbits b false)) 0 = inr b).

Lemma secbits_back_all : forallb secbits_back (seqZ 0 256) = true.
Proof. vm_compute. reflexivity. Qed.

Lemma printSecbits_mask b : printSecbits b false = printSecbits (Z.land b 255) false.
Proof.
  assert (∀ f, Z.land 255 f = f → flag (Z.land b 255) f = flag b f) as H.
  { intros f Hf. by rw /flag -Z.land_assoc Hf. }
  rw /printSecbits /secbitInfoList /=. by rw !H.
Qed.

(** Reading back the letters that [printSecbits] prints for a mask gives the mask's eight
    defined bits. *)
Lemma secbits_roundtrip b :
  secbits_loop (filter (λ c, c ≠ "-"%char) (printSecbits b false)) 0 = inr (Z.land b 255).
Proof.
  rw printSecbits_mask. pose proof secbits_back_all as H. rw forallb_forall in H.
  assert (0 ≤ Z.land b 255 < 256) as Hb.
  { change 255 with (Z.ones 8). rw Z.land_ones; [lia|]. apply Z.mod_pos_bound. lia. }
  specialize (H (Z.land b 255)). rw /secbits_back bool_decide_eq_true in H.
  apply H, list_elem_of_In, elem_of_seqZ. lia.
Qed.

(** ** The order of the mapping files

    [written_files] logs what was written, with the name the file was opened
    by. *)

Class MapFilesOk (K : Type) `{!UsernsOS K} := {
  written_files : K → list (cstring * cstring);
  opened_as : K → Z → option cstring;
  mf_open p k r k' : no_open p k = (r, k') →
    written_files k' = written_files k ∧ (∀ fd, r = inr fd → opened_as k' fd = Some p);
  mf_write fd p d k r k' : no_write fd d k = (r, k') → opened_as k fd = Some p →
    written_files k' = written_files k ++
      match r with inr n => [(p, take (Z.to_nat n) d)] | inl _ => [] end;
  mf_close fd k r k' : no_close fd k = (r, k') → written_files k' = written_files k;
}.

Section maps.
Context {K : Type} `{!UsernsOS K, !MapFilesOk K}.
Implicit Types s : proc K.
Abbreviation files s := (written_files (p_os s)).

(** Unless it returns -1, [update_map] has written the whole mapping, with its
    commas replaced, and [proc_setgroups_write] the string, or there is no
    such file. *)
Lemma update_map_files m path s :
  safe (update_map m path)
    (λ r s', r.1 ≠ -1 → files s' = files s ++ [(path, comma_to_newline m)]) s.
Proof.
  rw /update_map. apply safe_bind, safe_psys. intros [e|fd] k Ho;
    [by apply safe_bind, safe_eprintf, safe_ret|].
  destruct (mf_open _ _ _ _ Ho) as [Hf Hp]. specialize (Hp fd eq_refl).
  apply safe_bind, safe_psys. intros w k1 Hw. cbn [p_os] in *.
  pose proof (mf_write _ _ _ _ _ _ Hw Hp) as Hl.
  apply safe_bind. cbn [safe gets]. apply safe_bind.
  apply (safe_conseq _ (λ _ s', files s' = written_files k1));
    [by destruct (_ =? -1)|].
  intros ? s1 H1. cbn in H1. apply safe_bind, safe_psys_. intros v k2 Hc. apply safe_ret. cbn [p_os fst].
  intros H0. rw (mf_close _ _ _ _ Hc) H1 Hl Hf. destruct w as [e|n]; [done|].
  destruct (Z.eqb_spec n (Z.of_nat (length m))) as [->|]; [|done].
  rw take_ge //. rw /comma_to_newline length_fmap. lia.
Qed.

Lemma setgroups_files pid t s :
  safe (proc_setgroups_write pid t)
    (λ r s', r ≠ -1 → files s' = files s ∨
       ∃ n, files s' = files s ++ [(map_path pid "setgroups", take n t)]) s.
Proof.
  rw /proc_setgroups_write. apply safe_bind, safe_psys. intros [e|fd] k Ho;
    destruct (mf_open _ _ _ _ Ho) as [Hf Hp].
  { destruct (e =? ENOENT); [|by apply safe_bind, safe_eprintf, safe_ret].
    apply safe_ret. cbn. by left. }
  specialize (Hp fd eq_refl). apply safe_bind, safe_psys. intros w k1 Hw. cbn [p_os] in *.
  pose proof (mf_write _ _ _ _ _ _ Hw Hp) as Hl. apply safe_bind.
  apply (safe_conseq _ (λ r s', files s' = written_files k1 ∧ (r ≠ -1 → ∃ n, w = inr n))).
  { destruct w as [e|n]; [by apply safe_bind, safe_eprintf, safe_ret|]. apply safe_ret. eauto. }
  intros r s1 [H1 Hr]. apply safe_bind, safe_psys_. intros v k2 Hc. apply safe_ret. cbn [p_os].
  intros H0. destruct (Hr H0) as [n ->]. right. exists (Z.to_nat n).
  by rw (mf_close _ _ _ _ Hc) H1 Hl Hf.
Qed.

(** The mapping that is written for one of the two files. *)
Definition mapping (o : cmd_options) (map : option cstring) (id : Z) : option cstring :=
  if create_root_mappings o
  then Some (snprintf MAP_BUF_SIZE (cs "0 " ++ fmt_d id ++ cs " 1")) else map.

Definition map_entry (pid : Z) (name : string) (m : option cstring) : list (cstring * cstring) :=
  match m with Some m => [(map_path pid name, comma_to_newline m)] | None => [] end.

Lemma update_child_map_files o pid name msg map id m s :
  mapping o map (id (p_os s)) = Some m →
  safe (update_child_map o pid name msg map id)
    (λ _ s', files s' = files s ++ map_entry pid name (Some m)) s.
Proof.
  intros Hm. rw /update_child_map. apply safe_bind. cbn [safe get].
  rw /mapping in Hm. rw Hm. apply safe_bind. eapply safe_conseq; [apply update_map_files|].
  intros [r m'] s' Hr. cbn [fst] in *. destruct (Z.eqb_spec r (-1)); [by intros|].
  by apply safe_ret, Hr.
Qed.

(** When the parent gets past [update_child_maps], it has written the uid map, then (unless
    -D was given or the kernel has no such file) disabled [setgroups], and only then
    written the gid map, each map with its commas turned into newlines; and it has
    written nothing else. *)
Lemma update_child_maps_order o pid s :
  safe (update_child_maps o pid)
    (λ _ s', ∃ s1 deny,
       files s' = files s ++ map_entry pid "uid_map" (mapping o (uid_map o) (ux_getuid (p_os s)))
                  ++ deny ++ map_entry pid "gid_map" (mapping o (gid_map o) (ux_getgid (p_os s1))) ∧
       (deny = [] ∨ deny_setgroups o = true ∧
                    ∃ n, deny = [(map_path pid "setgroups", take n (cs "deny"))])) s.
Proof.
  rw /update_child_maps. apply safe_bind.
  apply (safe_conseq _ (λ _ s1, files s1 = files s ++
    map_entry pid "uid_map" (mapping o (uid_map o) (ux_getuid (p_os s))))).
  { apply safe_when; intros Hb.
    - destruct (mapping o (uid_map o) (ux_getuid (p_os s))) as [m|] eqn:Hm.
      + by apply update_child_map_files.
      + rw /mapping in Hm. destruct (create_root_mappings o); [done|]. by rw Hm in Hb.
    - apply orb_false_iff in Hb as [Hu Hc]. rw /mapping Hc.
      destruct (uid_map o); [done|]. by rw app_nil_r. }
  intros ? s1 H1. cbn in H1. apply safe_when; intros Hb; last first.
  { apply orb_false_iff in Hb as [Hu Hc]. exists s1, []. rw /mapping Hc.
    destruct (gid_map o); [done|]. cbn. rw app_nil_r. rw /mapping Hc in H1. auto. }
  apply safe_bind.
  apply (safe_conseq _ (λ _ s2, ∃ deny, files s2 = files s1 ++ deny ∧
    (deny = [] ∨ deny_setgroups o = true ∧
       ∃ n, deny = [(map_path pid "setgroups", take n (cs "deny"))]))).
  { apply safe_when; intros Hd; [|exists []; rw app_nil_r; auto].
    apply safe_bind. eapply safe_conseq; [apply setgroups_files|].
    intros r s2 Hr. destruct (Z.eqb_spec r (-1)) as [|Hne]; [by intros|]. apply safe_ret.
    destruct (Hr Hne) as [E|[n E]]; [exists []; rw app_nil_r; auto|]. eexists. split; [exact E|].
    right. eauto. }
  intros ? s2 (deny & H2 & Hd).
  destruct (mapping o (gid_map o) (ux_getgid (p_os s2))) as [m|] eqn:Hm; last first.
  { rw /mapping in Hm. destruct (create_root_mappings o); [done|]. by rw Hm in Hb. }
  eapply safe_conseq; [exact (update_child_map_files _ _ _ _ _ _ _ _ Hm)|].
  intros ? s3 H3. exists s2, deny. split; [|done]. cbn in H3. by rw H3 H2 H1 Hm -!app_assoc.
Qed.
End maps.

(** ** Parent and child at the pipe

    The parent updates the maps, closes its write end and waits; it exits if
    the update fails, which closes its descriptors too.  The child closes its
    own write end and reads: end of file comes when no write end is left. *)

Inductive parent_pc := PUpdate | PClose | PWait | PDone | PFailed.
Inductive child_pc := CClose | CRead | CRun | CExec.

#[export] Instance parent_pc_eq_dec : EqDecision parent_pc.
Proof. solve_decision. Defined.
#[export] Instance child_pc_eq_dec : EqDecision child_pc.
Proof. solve_decision. Defined.

Record sync := Sync {
  sy_parent : parent_pc; sy_child : child_pc;
  sy_parent_end : bool; sy_child_end : bool; sy_mapped : bool }.

Inductive sync_step : sync → sync → Prop :=
| p_update c w m : sync_step (Sync PUpdate c true w m) (Sync PClose c true w true)
| p_fail c w m : sync_step (Sync PUpdate c true w m) (Sync PFailed c false w m)
| p_close c w m : sync_step (Sync PClose c true w m) (Sync PWait c false w m)
| p_wait e w m : sync_step (Sync PWait CExec e w m) (Sync PDone CExec e w m)
| c_close p e m : sync_step (Sync p CClose e true m) (Sync p CRead e false m)
| c_read p m : sync_step (Sync p CRead false false m) (Sync p CRun false false m)
| c_exec p e w m : sync_step (Sync p CRun e w m) (Sync p CExec e w m).

Definition sync_start : sync := Sync PUpdate CClose true true false.

(** Who still has its write end of the pipe. *)
Definition parent_has (p : parent_pc) : bool :=
  match p with PUpdate | PClose => true | _ => false end.
Definition child_has (c : child_pc) : bool :=
  match c with CClose => true | _ => false end.

Definition sync_inv (s : sync) : Prop :=
  sy_parent_end s = parent_has (sy_parent s) ∧ sy_child_end s = child_has (sy_child s) ∧
  (sy_mapped s = false → sy_parent s = PUpdate ∨ sy_parent s = PFailed) ∧
  (sy_child s = CRun ∨ sy_child s = CExec → sy_parent_end s = false).

Lemma sync_reach_inv s : rtc sync_step sync_start s → sync_inv s.
Proof.
  apply (rtc_ind_r (λ s, sync_inv s)).
  - rw /sync_inv /=. naive_solver.
  - intros s1 s2 _ Hs Hi. destruct Hs; rw /sync_inv /= in Hi |- *; naive_solver.
Qed.

(** In every interleaving the child performs its options and executes the command only
    after the parent has written the maps, or after the parent has failed and exited; and
    the two never wait for each other: unless the child has executed the command and the
    parent is finished, a step is possible. *)
Lemma child_waits_for_maps s :
  rtc sync_step sync_start s →
  (sy_child s = CRun ∨ sy_child s = CExec → sy_mapped s = true ∨ sy_parent s = PFailed) ∧
  ((∃ s', sync_step s s') ∨ sy_child s = CExec ∧ (sy_parent s = PDone ∨ sy_parent s = PFailed)).
Proof.
  intros Hr. destruct (sync_reach_inv s Hr) as (Hp & Hc & Hm & Hx).
  destruct s as [p c e w m]. cbn in *. subst. split.
  - intros H. specialize (Hx H). destruct m; [by left|]. right.
    by destruct (Hm eq_refl) as [-> | ->].
  - destruct c, p; cbn in *; auto; left; eexists; by constructor.
Qed.

(** When the parent fails to write the maps it exits, and the child then takes the closed
    pipe for its signal: it executes the command without the mappings. *)
Lemma child_runs_unmapped :
  ∃ s, rtc sync_step sync_start s ∧ sy_parent s = PFailed ∧ sy_child s = CExec ∧
       sy_mapped s = false.
Proof.
  exists (Sync PFailed CExec false false false). split; [|done].
  eapply rtc_l; [apply p_fail|]. eapply rtc_l; [apply c_close|].
  eapply rtc_l; [apply c_read|]. eapply rtc_l; [apply c_exec|]. apply rtc_refl.
Qed.

Lemma child_waits_for_maps_witness :
  (sy_child (Sync PWait CExec false false true) = CRun ∨
   sy_child (Sync PWait CExec false false true) = CExec →
   sy_mapped (Sync PWait CExec false false true) = true ∨
   sy_parent (Sync PWait CExec false false true) = PFailed) ∧
  ((∃ s', sync_step (Sync PWait CExec false false true) s') ∨
   sy_child (Sync PWait CExec false false true) = CExec ∧
   (sy_parent (Sync PWait CExec false false true) = PDone ∨
    sy_parent (Sync PWait CExec false false true) = PFailed)).
Proof.
  apply (child_waits_for_maps (Sync PWait CExec false false true)).
  eapply rtc_l; [apply c_close|]. eapply rtc_l; [apply p_update|].
  eapply rtc_l; [apply p_close|]. eapply rtc_l; [apply c_read|].
  eapply rtc_l; [apply c_exec|]. apply rtc_refl.
Defined.

(** ** A concrete kernel *)

Record uksim := UkSim { uk_paths : gmap Z cstring; uk_next : Z; uk_files : list (cstring * cstring) }.

#[export] Instance uk_ns : NsOS uksim := {|
  no_strerror _ := cs "error";
  no_open p k := (inr (uk_next k), UkSim (<[uk_next k := p]> (uk_paths k)) (uk_next k + 1) (uk_files k));
  no_close fd k := (inr tt, k);
  no_write fd d k :=
    match uk_paths k !! fd with
    | Some p => (inr (Z.of_nat (length d)), UkSim (uk_paths k) (uk_next k) (uk_files k ++ [(p, d)]))
    | None => (inl EBADF, k)
    end;
  no_fstat _ k := (inl EBADF, k); no_nstype _ k := (inl EBADF, k); no_userns _ k := (inl EBADF, k);
  no_parent _ k := (inl EPERM, k); no_owner_uid _ k := (inl EBADF, k);
  no_cap_get_pid _ k := (inl EPERM, k); no_cap_to_text _ k := (inr (cs "="), k);
  no_cap_free k := k; no_fopen _ k := (inl ENOENT, k); no_fgets _ _ k := (None, k);
  no_fclose _ k := k; no_stack _ := 0; no_errno _ := 0;
|}.

#[export] Instance uk_caps : CapOS uksim := {|
  co_get_proc k := (inr 1, k); co_set_flag _ _ _ _ k := (inr tt, k);
  co_set_proc _ k := (inr tt, k); co_free _ k := (inr tt, k);
|}.

#[export] Instance uk_os : UsernsOS uksim := {|
  ux_dumpcore := None;
  ux_ambient _ _ k := (inr tt, k); ux_capbset_drop _ k := (inr tt, k);
  ux_set_securebits _ k := (inr tt, k); ux_setresuid _ _ _ k := (inr tt, k);
  ux_cap_from_name _ := Some 21; ux_cap_from_text _ k := (inr 1, k); ux_sleep _ k := k;
  ux_geteuid _ := 1000; ux_getegid _ := 1000; ux_getuid _ := 1000; ux_getgid _ := 1000;
  ux_set_dumpable k := (inr tt, k); ux_pipe k := (inr (3, 4), k); ux_mmap k := (inr tt, k);
  ux_clone _ k := (inr 77, k); ux_read _ _ k := (inr [], k);
  ux_execvp _ k := (inr tt, k); ux_waitpid _ k := (inr tt, k);
|}.

#[export] Instance uk_ok : MapFilesOk uksim.
Proof.
  refine {| written_files := uk_files; opened_as k fd := uk_paths k !! fd |}.
  - intros p k r k' [= <- <-]. split; [done|]. intros fd [= <-]. apply lookup_insert_eq.
  - intros fd p d k r k' H Hp. cbn in H. rw Hp in H. injection H as <- <-. cbn.
    by rw Nat2Z.id firstn_all.
  - by intros fd k r k' [= <- <-].
Defined.

Definition uk0 : proc uksim := Proc [] [] (UkSim ∅ 5 []).
Definition uk_opts : cmd_options := CmdOptions CLONE_NEWUSER true true false None None [].

Lemma update_child_maps_order_witness :
  safe (update_child_maps uk_opts 77)
    (λ _ s', ∃ s1 deny,
       written_files (p_os s') = written_files (p_os uk0)
         ++ map_entry 77 "uid_map" (mapping uk_opts (uid_map uk_opts) (ux_getuid (p_os uk0)))
         ++ deny ++ map_entry 77 "gid_map" (mapping uk_opts (gid_map uk_opts) (ux_getgid (p_os s1))) ∧
       (deny = [] ∨ deny_setgroups uk_opts = true ∧
                    ∃ n, deny = [(map_path 77 "setgroups", take n (cs "deny"))])) uk0.
Proof. apply (update_child_maps_order uk_opts 77 uk0). Defined.

Example maps_of_root :
  uk_files (p_os (update_child_maps uk_opts 77 uk0).2) =
  [(cs "/proc/77/uid_map", cs "0 1000 1"); (cs "/proc/77/setgroups", cs "deny");
   (cs "/proc/77/gid_map", cs "0 1000 1")].
Proof. vm_compute. reflexivity. Qed.

Lemma dead_options_witness :
  opt_lookup "S" (opt_letters optstring) = Some true ∧
  (parse_option (cs "p") uk_opts (Opt "S" (Some (cs "1,1,1"))) uk0).1 = Exit EXIT_FAILURE ∧
  ((length (opt_list uk_opts) < MAX_OPT)%nat → ∀ c, c = "I"%char ∨ c = "A"%char →
   parse_option (cs "p") uk_opts (Opt c None) uk0 = (Ret (push_opt c None uk_opts), uk0) ∧
   perform_option 0 c None uk0 =
     (Ret tt, Proc (p_out uk0) (p_err uk0 ++ cs "Unexpected option (-" ++ [c]
        ++ cs ") in perform_repeatable_options()" ++ [NL]) (p_os uk0))).
Proof. apply (dead_options (cs "p") uk_opts 0 (Some (cs "1,1,1")) uk0). Defined.
