(* ===== verification/WaitStatus.v ===== *)
(** * Waiting for children: [procexec/print_wait_status.c] and [procexec/system.c]

    A wait status is an [int] that the macros of <sys/wait.h> take apart;
    [status_of] is how the kernel builds it.  For [system] the state is the
    signal mask, the dispositions of the two signals the function changes, and
    [errno], beside the kernel. *)

From S2P Require Import Prelude.

(** ** The macros of <sys/wait.h> *)

Definition WTERMSIG (status : Z) : Z := Z.land status 127.
Definition WEXITSTATUS (status : Z) : Z := Z.shiftr (Z.land status 65280) 8.
Definition WSTOPSIG (status : Z) : Z := WEXITSTATUS status.
Definition WIFEXITED (status : Z) : bool := WTERMSIG status =? 0.
(** [((signed char) ((status & 0x7f) + 1) >> 1) > 0]. *)
Definition WIFSIGNALED (status : Z) : bool :=
  0 <? Z.shiftr (wrapS 8 (Z.land status 127 + 1)) 1.
Definition WIFSTOPPED (status : Z) : bool := Z.land status 255 =? 127.
Definition WIFCONTINUED (status : Z) : bool := status =? 65535.
Definition WCOREDUMP (status : Z) : bool := flag status 128.

(** ** [printWaitStatus]: the text printed *)

Section print.
Context (strsignal : Z → cstring).

Definition printWaitStatus (msg : option cstring) (status : Z) : cstring :=
  default [] msg ++
  if WIFEXITED status then
    cs "child exited, status=" ++ fmt_d (WEXITSTATUS status) ++ [NL]
  else if WIFSIGNALED status then
    cs "child killed by signal " ++ fmt_d (WTERMSIG status) ++ cs " ("
      ++ strsignal (WTERMSIG status) ++ cs ")"
      ++ (if WCOREDUMP status then cs " (core dumped)" else []) ++ [NL]
  else if WIFSTOPPED status then
    cs "child stopped by signal " ++ fmt_d (WSTOPSIG status) ++ cs " ("
      ++ strsignal (WSTOPSIG status) ++ cs ")" ++ [NL]
  else if WIFCONTINUED status then cs "child continued" ++ [NL]
  else cs "what happened to this child? (status=" ++ fmt_base 16 (to_uint status) ++ cs ")" ++ [NL].

(** What can happen to a child, and the status that reports it. *)
Inductive child_event :=
| Exited (code : Z)
| Killed (sig : Z) (core : bool)
| Stopped (sig : Z)
| Continued.

Definition status_of (e : child_event) : Z :=
  match e with
  | Exited code => Z.shiftl (Z.land code 255) 8
  | Killed sig core => Z.lor sig (if core then 128 else 0)
  | Stopped sig => Z.lor (Z.shiftl sig 8) 127
  | Continued => 65535
  end.

(** Signals are numbered from 1 to 64. *)
Definition event_wf (e : child_event) : Prop :=
  match e with
  | Exited code => True
  | Killed sig _ | Stopped sig => 1 ≤ sig ≤ 64
  | Continued => True
  end.

Definition event_text (e : child_event) : cstring :=
  match e with
  | Exited code => cs "child exited, status=" ++ fmt_d (code mod 256) ++ [NL]
  | Killed sig core =>
      cs "child killed by signal " ++ fmt_d sig ++ cs " (" ++ strsignal sig ++ cs ")"
        ++ (if core then cs " (core dumped)" else []) ++ [NL]
  | Stopped sig =>
      cs "child stopped by signal " ++ fmt_d sig ++ cs " (" ++ strsignal sig ++ cs ")" ++ [NL]
  | Continued => cs "child continued" ++ [NL]
  end.

(** What the macros see of a status. *)
Definition seen (status : Z) : bool * bool * bool * bool * bool * Z * Z :=
  (WIFEXITED status, WIFSIGNALED status, WIFSTOPPED status, WIFCONTINUED status,
   WCOREDUMP status, WTERMSIG status, WEXITSTATUS status).

(** A property of the numbers below [n] can be computed. *)
Lemma forall_below (f : Z → bool) n z :
  forallb f (seqZ 0 n) = true → 0 ≤ z < n → f z = true.
Proof.
  rw forallb_forall. intros H Hz. apply H, list_elem_of_In, elem_of_seqZ. lia.
Qed.

Lemma exited_seen code : 0 ≤ code < 256 →
  WIFEXITED (Z.shiftl code 8) = true ∧ WEXITSTATUS (Z.shiftl code 8) = code.
Proof.
  intros H. pose proof (forall_below (λ c, WIFEXITED (Z.shiftl c 8) &&
    (WEXITSTATUS (Z.shiftl c 8) =? c)) 256 code eq_refl H) as E. cbn beta in E.
  apply andb_true_iff in E as [-> E%Z.eqb_eq]. done.
Qed.

Lemma killed_seen sig core : 1 ≤ sig ≤ 64 →
  let st := status_of (Killed sig core) in
  WIFEXITED st = false ∧ WIFSIGNALED st = true ∧ WTERMSIG st = sig ∧ WCOREDUMP st = core.
Proof.
  intros H. pose proof (forall_below (λ c,
    let st := status_of (Killed (c + 1) core) in
    negb (WIFEXITED st) && WIFSIGNALED st && (WTERMSIG st =? c + 1) && Bool.eqb (WCOREDUMP st) core)
    64 (sig - 1)) as E. cbn beta zeta in E.
  replace (sig - 1 + 1) with sig in E by lia.
  specialize (E ltac:(destruct core; vm_compute; reflexivity) ltac:(lia)).
  rw !andb_true_iff negb_true_iff Z.eqb_eq Bool.eqb_true_iff in E. naive_solver.
Qed.

Lemma stopped_seen sig : 1 ≤ sig ≤ 64 →
  let st := status_of (Stopped sig) in
  WIFEXITED st = false ∧ WIFSIGNALED st = false ∧ WIFSTOPPED st = true ∧ WSTOPSIG st = sig.
Proof.
  intros H. pose proof (forall_below (λ c,
    let st := status_of (Stopped (c + 1)) in
    negb (WIFEXITED st) && negb (WIFSIGNALED st) && WIFSTOPPED st && (WSTOPSIG st =? c + 1))
    64 (sig - 1)) as E. cbn beta zeta in E.
  replace (sig - 1 + 1) with sig in E by lia.
  specialize (E ltac:(vm_compute; reflexivity) ltac:(lia)).
  rw !andb_true_iff !negb_true_iff Z.eqb_eq in E. naive_solver.
Qed.

(** [printWaitStatus] tells every child event apart and reports its number: from the status
    the kernel builds for an event it prints the text for that event. *)
Lemma printWaitStatus_correct msg e :
  event_wf e → printWaitStatus (Some msg) (status_of e) = msg ++ event_text e.
Proof.
  intros He. rw /printWaitStatus. cbn [default]. f_equal. destruct e as [code|sig core|sig|]; cbn in He.
  - cbn [status_of event_text]. change 255 with (Z.ones 8). rw Z.land_ones; [lia|].
    change (2 ^ 8) with 256. 
    destruct (exited_seen (code mod 256)) as [-> ->]; [apply Z.mod_pos_bound; lia|done].
  - destruct (killed_seen sig core He) as (-> & -> & -> & ->). done.
  - destruct (stopped_seen sig He) as (-> & -> & -> & ->). done.
  - done.
Qed.
End print.

Lemma printWaitStatus_correct_witness :
  printWaitStatus (λ _, cs "Terminated") (Some (cs "wait: ")) (status_of (Killed 15 true)) =
  cs "wait: " ++ event_text (λ _, cs "Terminated") (Killed 15 true).
Proof. apply printWaitStatus_correct. cbn. lia. Defined.

(** ** [system] *)

Inductive disposition := SIG_DFL | SIG_IGN | Handler (f : Z).

#[export] Instance disposition_eq_dec : EqDecision disposition.
Proof. solve_decision. Defined.

Definition SIGCHLD : Z := 17.

(** The attributes of the calling process that [system] touches. *)
Record sigattr := SigAttr { sg_mask : gset Z; sg_int : disposition; sg_quit : disposition }.

(** The kernel sees the attributes when the process waits. *)
Class SystemOS (K : Type) := {
  so_fork : K → res Z * K;
  so_waitpid : sigattr → Z → K → res Z * K;
  so_execl : cstring → K → K;
  so_exec_ok : cstring → K → bool;
}.

Record sysproc (K : Type) := SysProc { sp_sig : sigattr; sp_errno : Z; sp_os : K }.
Arguments SysProc {K} _ _ _.
Arguments sp_sig {K} _.
Arguments sp_errno {K} _.
Arguments sp_os {K} _.

(** How a call of [system] ends in the process that made it or in its child. *)
Inductive system_end := Returned (status : Z) | Execed (cmd : cstring).

Section system.
Context {K : Type} `{!SystemOS K}.
Abbreviation S := (M (sysproc K)).
Implicit Types s : sysproc K.

Definition ssys {A} (f : K → A * K) : S A := λ s,
  let '(a, k) := f (sp_os s) in (Ret a, SysProc (sp_sig s) (sp_errno s) k).
Definition set_sig (f : sigattr → sigattr) : S unit :=
  modify (λ s, SysProc (f (sp_sig s)) (sp_errno s) (sp_os s)).
Definition set_errno (e : Z) : S unit := modify (λ s, SysProc (sp_sig s) e (sp_os s)).

Definition block_SIGCHLD : S unit :=
  set_sig (λ a, SigAttr ({[SIGCHLD]} ∪ sg_mask a) (sg_int a) (sg_quit a)).
Definition set_mask (m : gset Z) : S unit := set_sig (λ a, SigAttr m (sg_int a) (sg_quit a)).
Definition set_int (d : disposition) : S unit := set_sig (λ a, SigAttr (sg_mask a) d (sg_quit a)).
Definition set_quit (d : disposition) : S unit := set_sig (λ a, SigAttr (sg_mask a) (sg_int a) d).

(** [while (waitpid(childPid, &status, 0) == -1) ...]. *)
Fixpoint wait_loop (fuel : nat) (childPid : Z) : S Z :=
  match fuel with
  | O => stop NoFuel
  | Datatypes.S f =>
      a ← gets sp_sig ;
      r ← ssys (so_waitpid a childPid) ;
      match r with
      | inr status => mret status
      | inl e => set_errno e ;; if e =? EINTR then wait_loop f childPid else mret (-1)
      end
  end.

(** The command is executed in the child, unless the shell cannot be. *)
Definition system_child (orig : sigattr) (command : cstring) : S system_end :=
  when (negb (bool_decide (sg_int orig = SIG_IGN))) (set_int SIG_DFL) ;;
  when (negb (bool_decide (sg_quit orig = SIG_IGN))) (set_quit SIG_DFL) ;;
  set_mask (sg_mask orig) ;;
  s ← get ;
  if so_exec_ok command (sp_os s) then
    ssys (λ k, (tt, so_execl command k)) ;; mret (Execed command)
  else exit 127.

Definition system_run (fuel : nat) (command : cstring) : S system_end :=
  orig ← gets sp_sig ;
  block_SIGCHLD ;;
  set_int SIG_IGN ;;
  set_quit SIG_IGN ;;
  childPid ← ssys so_fork ;
  match childPid with
  | inr 0 => system_child orig command
  | _ =>
      status ← match childPid with
               | inl e => set_errno e ;; mret (-1)
               | inr pid => wait_loop fuel pid
               end ;
      savedErrno ← gets sp_errno ;
      set_mask (sg_mask orig) ;;
      set_int (sg_int orig) ;;
      set_quit (sg_quit orig) ;;
      set_errno savedErrno ;;
      mret (Returned status)
  end.

(** A null command asks whether a shell is available. *)
Definition system (fuel : nat) (command : option cstring) : S system_end :=
  match command with
  | Some c => system_run fuel c
  | None =>
      r ← system_run fuel (cs ":") ;
      match r with
      | Returned st => mret (Returned (Z.b2z (st =? 0)))
      | Execed c => mret (Execed c)
      end
  end.
End system.

(** While a process waits with SIGCHLD blocked and the two terminal signals
    ignored, the kernel interrupts it only so many times. *)
Definition protected (a : sigattr) : Prop :=
  SIGCHLD ∈ sg_mask a ∧ sg_int a = SIG_IGN ∧ sg_quit a = SIG_IGN.

Class SystemOSOk (K : Type) `{!SystemOS K} := {
  wait_interrupts : K → nat;
  so_wait_eintr a pid k k' : protected a → so_waitpid a pid k = (inl EINTR, k') →
    (wait_interrupts k' < wait_interrupts k)%nat;
}.

Section restore.
Context {K : Type} `{!SystemOS K, !SystemOSOk K}.
Implicit Types s : sysproc K.

(** What [waitpid] gives in the end, when it is called again as long as it is interrupted. *)
Inductive waited (a : sigattr) (pid : Z) : K → res Z → K → Prop :=
  | waited_end k r k' : so_waitpid a pid k = (r, k') → r ≠ inl EINTR → waited a pid k r k'
  | waited_again k k1 r k' : so_waitpid a pid k = (inl EINTR, k1) → waited a pid k1 r k' → waited a pid k r k'.

Definition status_or_error (r : res Z) : Z := match r with inr status => status | inl _ => -1 end.

(** Waiting keeps the signal attributes, and ends with what [waitpid] gave last. *)
Lemma wait_loop_spec fuel pid s :
  protected (sp_sig s) → (wait_interrupts (sp_os s) < fuel)%nat →
  ∃ r s', wait_loop fuel pid s = (Ret (status_or_error r), s') ∧ sp_sig s' = sp_sig s ∧
    waited (sp_sig s) pid (sp_os s) r (sp_os s') ∧ (∀ e, r = inl e → sp_errno s' = e).
Proof.
  elim: fuel s => [|fuel IH] s Hp Hf; [lia|]. cbn [wait_loop].
  rw (bind_Ret (gets sp_sig) _ _ _ _ eq_refl) /mbind /M_bind /ssys.
  destruct (so_waitpid (sp_sig s) pid (sp_os s)) as [[e|st] k] eqn:E.
  2: { exists (inr st). eexists. split; [done|]. split; [done|]. split; [by apply waited_end|done]. }
  cbn. destruct (Z.eqb_spec e EINTR) as [->|He].
  - pose proof (so_wait_eintr _ _ _ _ Hp E).
    destruct (IH (SysProc (sp_sig s) EINTR k)) as (r & s' & Hw & Hs & Hr & He); [done|cbn; lia|].
    exists r, s'. split_and!; try done. exact (waited_again _ _ _ _ _ _ E Hr).
  - exists (inl e). eexists. split; [done|]. split; [done|]. split; [apply waited_end; [done|congruence]|].
    by intros ? [= <-].
Qed.

(** The attributes while [system] waits. *)
Definition waiting (a : sigattr) : sigattr := SigAttr ({[SIGCHLD]} ∪ sg_mask a) SIG_IGN SIG_IGN.

(** C31: In the calling process [system] always returns, whatever happens to the child and
    however often waiting is interrupted, and the signal mask and the dispositions of
    SIGINT and SIGQUIT are then what they were.  The result is -1 with the error of fork if that
    failed; else it is the status that waitpid gave in the end for the child, waiting with
    SIGCHLD blocked and the two signals ignored and once more after each interruption, or -1 with
    its error.  In the child the shell is executed with the command, with the caller's mask and the two
    signals at their default unless the caller ignored them; the child exits with 127 if
    that is not possible. *)
Theorem system_signals fuel command r k s :
  so_fork (sp_os s) = (r, k) → (wait_interrupts k < fuel)%nat →
  match r with
  | inl e => ∃ s', system_run fuel command s = (Ret (Returned (-1)), s') ∧
      sp_sig s' = sp_sig s ∧ sp_errno s' = e ∧ sp_os s' = k
  | inr pid =>
      if decide (pid = 0) then ∃ s',
        system_run fuel command s =
          (if so_exec_ok command k then Ret (Execed command) else Exit 127, s') ∧
        sp_os s' = (if so_exec_ok command k then so_execl command k else k) ∧
        sg_mask (sp_sig s') = sg_mask (sp_sig s) ∧
        sg_int (sp_sig s') = (if decide (sg_int (sp_sig s) = SIG_IGN) then SIG_IGN else SIG_DFL) ∧
        sg_quit (sp_sig s') = (if decide (sg_quit (sp_sig s) = SIG_IGN) then SIG_IGN else SIG_DFL)
      else ∃ w s', system_run fuel command s = (Ret (Returned (status_or_error w)), s') ∧
        waited (waiting (sp_sig s)) pid k w (sp_os s') ∧ (∀ e, w = inl e → sp_errno s' = e) ∧
        sp_sig s' = sp_sig s
  end.
Proof.
  intros Hk Hf. set (a := waiting (sp_sig s)).
  assert (∀ B (g : res Z → M (sysproc K) B),
    (block_SIGCHLD ;; set_int SIG_IGN ;; set_quit SIG_IGN ;; x ← ssys so_fork ; g x) s =
    g r (SysProc a (sp_errno s) k)) as Hset.
  { intros B g. rw /mbind /M_bind /block_SIGCHLD /set_int /set_quit /set_sig /modify /ssys.
    cbn. by rw Hk. }
  rw /system_run (bind_Ret (gets sp_sig) _ _ _ _ eq_refl) Hset. destruct r as [e|pid].
  - eexists. split; [done|]. cbn. by destruct (sp_sig s).
  - case_decide as Hp.
    + subst pid. destruct s as [[m i q] e k0]. cbn in a, Hset |- *.
      destruct i, q; destruct (so_exec_ok command k) eqn:X;
        (eexists; split; [rw /system_child /mbind /M_bind;
           rw ?(bool_decide_eq_true_2 (SIG_IGN = SIG_IGN)) // ?bool_decide_eq_false_2 //;
           cbn; rw X; reflexivity|]); cbn; auto.
    + destruct (wait_loop_spec fuel pid (SysProc a (sp_errno s) k)) as (w & s' & Hw & Hs & Hwait & He);
        [rw /protected /=; set_solver|done|].
      exists w, (SysProc (sp_sig s) (sp_errno s') (sp_os s')). split; [|done].
      destruct pid; [done|..]; rw (bind_Ret _ _ _ _ _ Hw);
        rw /mbind /M_bind /=; destruct s' as [a' e' k']; cbn in *; subst; by destruct (sp_sig s).
Qed.
End restore.

(** A kernel in which waiting is interrupted a given number of times. *)
#[export] Instance wait_sim : SystemOS (nat * Z) := {|
  so_fork k := (inr k.2, k);
  so_waitpid _ _ k := match k.1 with S n => (inl EINTR, (n, k.2)) | O => (inr 512, k) end;
  so_execl _ k := k;
  so_exec_ok _ _ := true;
|}.

#[export] Instance wait_sim_ok : SystemOSOk (nat * Z).
Proof.
  refine {| wait_interrupts k := k.1 |}. intros a pid [[|n] c] k' _ [= <-]. cbn. lia.
Defined.

Definition sys0 : sysproc (nat * Z) := SysProc (SigAttr {[2]} (Handler 7) SIG_IGN) 0 (3%nat, 55).

(** Interrupted three times, then the child's exit status is 2. *)
Lemma system_signals_witness :
  ∃ w s', system_run 9 (cs "date") sys0 = (Ret (Returned (status_or_error w)), s') ∧
    waited (waiting (sp_sig sys0)) 55 (3%nat, 55) w (sp_os s') ∧ (∀ e, w = inl e → sp_errno s' = e) ∧
    sp_sig s' = sp_sig sys0.
Proof. apply (system_signals 9 (cs "date") (inr 55) (3%nat, 55) sys0); [reflexivity|cbn; lia]. Defined.

Example system_returns_status :
  (system_run 9 (cs "date") sys0).1 = Ret (Returned (status_of (Exited 2))).
Proof. reflexivity. Qed.
