(* ===== verification/Threads.v ===== *)
(** * Threads that share a mutex

    What the models of the threaded programs have in common: the owner of a
    mutex, and sums over the threads' local states. *)

From S2P Require Import Prelude.

(** The main thread and the threads it has created, in order. *)
Inductive who := MainThread | Thread (i : nat).
#[export] Instance who_eq_dec : EqDecision who.
Proof. solve_decision. Defined.

(** ** Sums over a list *)

Fixpoint sumZ (l : list Z) : Z :=
  match l with [] => 0 | x :: r => x + sumZ r end.

Lemma sumZ_app l k : sumZ (l ++ k) = sumZ l + sumZ k.
Proof. elim: l => //= x l ->. lia. Qed.

Lemma sumZ_insert {A} (f : A → Z) l i x y :
  l !! i = Some x → sumZ (f <$> <[i := y]> l) = sumZ (f <$> l) - f x + f y.
Proof.
  elim: l i => [|z l IH] [|i] // H; csimpl in *; [simplify_eq; lia|]. rw (IH _ H). lia.
Qed.

Lemma prefix_sum l k : l `prefix_of` k → Forall (λ z, 0 ≤ z) k → 0 ≤ sumZ l ≤ sumZ k.
Proof.
  intros [r ->] H. apply Forall_app in H as [Hl Hr]. rw sumZ_app.
  assert (∀ l, Forall (λ z, 0 ≤ z) l → 0 ≤ sumZ l) as Hs
    by (induction 1; cbn; lia).
  pose proof (Hs l Hl). pose proof (Hs r Hr). lia.
Qed.

(** ** A mutex

    [holds] tells from a thread's local state whether it is between lock and
    unlock. *)

Section mutex.
Context {T : Type} (holds : T → bool).
Implicit Types ps : list T.

(** The mutex belongs to the threads at the points that hold it. *)
Definition mutex_ok (m : option who) (ps : list T) : Prop :=
  ∀ i, m = Some (Thread i) ↔ ∃ p, ps !! i = Some p ∧ holds p = true.

Lemma mutex_ok_same m ps i p q :
  mutex_ok m ps → ps !! i = Some p → holds q = holds p →
  mutex_ok m (<[i := q]> ps).
Proof.
  intros Hm Hi E k. rw Hm. destruct (decide (k = i)) as [->|Hk].
  - rw list_lookup_insert_eq; [exact (lookup_lt_Some _ _ _ Hi)|]. split; intros (? & ? & ?); simplify_eq; eexists; split; eauto; congruence.
  - rw list_lookup_insert_ne; [congruence|done].
Qed.

Lemma mutex_ok_take ps i p q :
  mutex_ok None ps → ps !! i = Some p → holds q = true →
  mutex_ok (Some (Thread i)) (<[i := q]> ps).
Proof.
  intros Hm Hi E k. destruct (decide (k = i)) as [->|Hk].
  - rw list_lookup_insert_eq; [exact (lookup_lt_Some _ _ _ Hi)|]. split; [by eauto|done].
  - rw list_lookup_insert_ne; [congruence|]. split; [congruence|]. intros H. apply Hm in H. done.
Qed.

Lemma mutex_ok_free ps i p q :
  mutex_ok (Some (Thread i)) ps → ps !! i = Some p → holds q = false →
  mutex_ok None (<[i := q]> ps).
Proof.
  intros Hm Hi E k. split; [done|]. destruct (decide (k = i)) as [->|Hk].
  - rw list_lookup_insert_eq; [exact (lookup_lt_Some _ _ _ Hi)|]. intros (? & ? & ?); simplify_eq. congruence.
  - rw list_lookup_insert_ne; [congruence|]. intros H. apply Hm in H. congruence.
Qed.

Lemma mutex_ok_main ps m :
  mutex_ok None ps → m = None ∨ m = Some MainThread → mutex_ok m ps.
Proof. intros Hm [->| ->]; [done|]. intros k. split; [done|]. intros H. by apply Hm in H. Qed.

Lemma mutex_ok_drop ps : mutex_ok (Some MainThread) ps → mutex_ok None ps.
Proof. intros Hm k. split; [done|]. intros H. by apply Hm in H. Qed.

Lemma mutex_ok_new m ps q : holds q = false → mutex_ok m ps → mutex_ok m (ps ++ [q]).
Proof.
  intros Hq Hm k. rw Hm. split; intros (p & H & E); exists p; (split; [|done]).
  - by apply lookup_app_l_Some.
  - apply lookup_app_Some in H as [?|[_ H]]; [done|].
    destruct (k - length ps)%nat; simplify_eq/=; congruence.
Qed.

(** Two threads that both hold the mutex are the same one. *)
Lemma mutex_ok_unique m ps i j p q :
  mutex_ok m ps → ps !! i = Some p → ps !! j = Some q → holds p = true → holds q = true → i = j.
Proof.
  intros Hm Hi Hj Hp Hq.
  assert (m = Some (Thread i)) as E1 by (apply Hm; eauto).
  assert (m = Some (Thread j)) as E2 by (apply Hm; eauto). congruence.
Qed.
End mutex.
