(* ===== verification/ProdCondvar.v ===== *)
(** * Producers and a consumer with a condition variable: [threads/prod_condvar.c]

    The main thread creates a producer for each argument and consumes what they
    make.  The threads share [avail], a mutex and a condition variable.  A state
    has every thread's control point; [prod_move] and [main_move] are the moves
    of one thread, and [step] chooses the thread.  A call of the threads library
    may fail, which ends the process through errExitEN, and a wait may end
    without a signal.  The consumer is the only thread that waits.  The counters are
    of type int: they wrap around where the C program overflows. *)

From S2P Require Import Prelude CStdlib Threads.

(** A producer is at the top of its loop, before its call of
    pthread_mutex_lock, at the increment of [avail], before its calls of
    pthread_mutex_unlock and pthread_cond_signal, or has returned. *)
Inductive ppc := PTop | PLock | PInc | PUnlock | PSignal | PDone.
#[export] Instance ppc_eq_dec : EqDecision ppc.
Proof. solve_decision. Defined.

Record producer := Prod { pr_pc : ppc; pr_cnt : Z; pr_j : Z }.

(** The main thread is creating the producers of [rest], before
    pthread_mutex_lock, at the test of the loop that waits, in
    pthread_cond_wait, woken and waiting for the mutex, at the test of the
    loop that consumes, before pthread_mutex_unlock, at the test of [done], or
    the process has ended. *)
Inductive mpc :=
  | MCreate (rest : list cstring) | MLock | MTest | MWait | MRelock
  | MConsume | MUnlock | MCheck | MExit (status : Z).

#[export] Instance mpc_eq_dec : EqDecision mpc.
Proof. solve_decision. Defined.

Record pcstate := PcState {
  avail : Z;
  mtx : option who;
  producers : list producer;
  main_pc : mpc;
  totRequired : Z;
  numConsumed : Z;
  done_ : bool;
  printed : cstring;
}.

Definition prod_move (i : nat) (s : pcstate) : option pcstate :=
  let '(PcState av m ps mp tot n d o) := s in
  p ← ps !! i;
  let '(Prod pc cnt j) := p in
  let at_ pc' := <[i := Prod pc' cnt j]> ps in
  match pc with
  | PTop => Some (PcState av m (at_ (if j <? cnt then PLock else PDone)) mp tot n d o)
  | PLock =>
      match m with
      | None => Some (PcState av (Some (Thread i)) (at_ PInc) mp tot n d o)
      | Some _ => None
      end
  | PInc => Some (PcState (to_int (av + 1)) m (at_ PUnlock) mp tot n d o)
  | PUnlock => Some (PcState av None (at_ PSignal) mp tot n d o)
  | PSignal =>
      Some (PcState av m (<[i := Prod PTop cnt (to_int (j + 1))]> ps)
              (match mp with MWait => MRelock | _ => mp end) tot n d o)
  | PDone => None
  end.

(** [printf("T=%ld: numConsumed=%d\n", ...)], [t] seconds after the start. *)
Definition consumed_line (t n : Z) : cstring :=
  cs "T=" ++ fmt_d t ++ cs ": numConsumed=" ++ fmt_d n ++ [NL].

Definition main_move (t : Z) (s : pcstate) : option pcstate :=
  let '(PcState av m ps mp tot n d o) := s in
  match mp with
  | MCreate (a :: rest) =>
      Some (PcState av m (ps ++ [Prod PTop (atoi a) 0]) (MCreate rest) (to_int (tot + atoi a)) n d o)
  | MCreate [] => Some (PcState av m ps MLock tot 0 false o)
  | MLock | MRelock =>
      match m with
      | None => Some (PcState av (Some MainThread) ps MTest tot n d o)
      | Some _ => None
      end
  | MTest =>
      if av =? 0 then Some (PcState av None ps MWait tot n d o)
      else Some (PcState av m ps MConsume tot n d o)
  | MWait => None
  | MConsume =>
      if 0 <? av
      then let n' := to_int (n + 1) in
           Some (PcState (to_int (av - 1)) m ps MConsume tot n' (tot <=? n') (o ++ consumed_line t n'))
      else Some (PcState av m ps MUnlock tot n d o)
  | MUnlock => Some (PcState av None ps MCheck tot n d o)
  | MCheck => Some (PcState av m ps (if d then MExit EXIT_SUCCESS else MLock) tot n d o)
  | MExit _ => None
  end.

Definition with_main (mp : mpc) (s : pcstate) : pcstate :=
  PcState (avail s) (mtx s) (producers s) mp (totRequired s) (numConsumed s) (done_ s) (printed s).

(** The points at which a thread calls the library and checks the result. *)
Definition prod_calls (pc : ppc) : bool :=
  match pc with PLock | PUnlock | PSignal => true | _ => false end.
Definition main_calls (mp : mpc) : bool :=
  match mp with MCreate (_ :: _) | MLock | MWait | MRelock | MUnlock => true | _ => false end.
Definition exited (s : pcstate) : bool :=
  match main_pc s with MExit _ => true | _ => false end.

(** A move of some thread. *)
Inductive moves : pcstate → pcstate → Prop :=
  | move_prod i s s' : exited s = false → prod_move i s = Some s' → moves s s'
  | move_main t s s' : main_move t s = Some s' → moves s s'.

(** What the environment may do besides: wake the waiting thread, or fail a call. *)
Inductive disturbs : pcstate → pcstate → Prop :=
  | spurious s : main_pc s = MWait → disturbs s (with_main MRelock s)
  | main_fails s : main_calls (main_pc s) = true → disturbs s (with_main (MExit EXIT_FAILURE) s)
  | prod_fails s i p : exited s = false → producers s !! i = Some p →
      prod_calls (pr_pc p) = true → disturbs s (with_main (MExit EXIT_FAILURE) s).

Definition pc_step (s s' : pcstate) : Prop := moves s s' ∨ disturbs s s'.

Definition pc_start (args : list cstring) : pcstate :=
  PcState 0 None [] (MCreate args) 0 0 false [].

(** ** The invariant *)

(** The units a producer has added to [avail]. *)
Definition made (p : producer) : Z :=
  pr_j p + match pr_pc p with PUnlock | PSignal => 1 | _ => 0 end.

Definition prod_ok (p : producer) : Prop :=
  0 ≤ pr_j p ≤ pr_cnt p ∧
  match pr_pc p with PTop => True | PDone => pr_j p = pr_cnt p | _ => pr_j p < pr_cnt p end.

Definition holds_mutex (pc : ppc) : bool := match pc with PInc | PUnlock => true | _ => false end.
Definition holds (p : producer) : bool := holds_mutex (pr_pc p).
Definition main_holds (mp : mpc) : bool :=
  match mp with MTest | MConsume | MUnlock => true | _ => false end.

Definition to_create (mp : mpc) : list cstring := match mp with MCreate l => l | _ => [] end.

(** A producer that has made a unit and not yet signalled. *)
Definition signals (p : producer) : Prop := pr_pc p = PUnlock ∨ pr_pc p = PSignal.

Record pc_inv (args : list cstring) (s : pcstate) : Prop := {
  v_prods : Forall prod_ok (producers s);
  v_units : sumZ (made <$> producers s) = avail s + numConsumed s;
  v_avail : 0 ≤ avail s;
  v_args : exited s = false →
    (pr_cnt <$> producers s) ++ (atoi <$> to_create (main_pc s)) = atoi <$> args;
  v_prefix : (pr_cnt <$> producers s) `prefix_of` (atoi <$> args);
  v_tot : totRequired s = sumZ (pr_cnt <$> producers s);
  v_mtx_prod i : mtx s = Some (Thread i) ↔
    ∃ p, producers s !! i = Some p ∧ holds_mutex (pr_pc p) = true;
  v_mtx_main : exited s = false → (mtx s = Some MainThread ↔ main_holds (main_pc s) = true);
  v_creating l : main_pc s = MCreate l → numConsumed s = 0 ∧ done_ s = false;
  v_consumed : 0 ≤ numConsumed s;
  v_done : done_ s = (0 <? numConsumed s) && (totRequired s <=? numConsumed s);
  v_more : main_pc s = MLock ∨ main_pc s = MTest ∨ main_pc s = MWait ∨ main_pc s = MRelock →
    numConsumed s < totRequired s;
  v_waiting : main_pc s = MWait → avail s = 0 ∨ ∃ i p, producers s !! i = Some p ∧ signals p;
  v_success : main_pc s = MExit EXIT_SUCCESS →
    numConsumed s = totRequired s ∧ (pr_cnt <$> producers s) = atoi <$> args;
  v_printed : ∃ ts, Z.of_nat (length ts) = numConsumed s ∧
    printed s = concat (imap (λ k t, consumed_line t (Z.of_nat k + 1)) ts);
}.

(** Changing one producer. *)

Lemma cnt_set (ps : list producer) i p q :
  ps !! i = Some p → pr_cnt q = pr_cnt p → pr_cnt <$> <[i := q]> ps = pr_cnt <$> ps.
Proof.
  intros H E. rw list_fmap_insert E. apply list_insert_id. by rw list_lookup_fmap H.
Qed.

#[local] Arguments consumed_line : simpl never.

Section preserve.
Context (args : list cstring) (Hargs : Forall (λ a, 0 ≤ atoi a) args)
  (Hpos : 0 < sumZ (atoi <$> args)) (Hmax : sumZ (atoi <$> args) ≤ INT_MAX).
Implicit Types (s : pcstate) (ps : list producer).

(** No more can be consumed than is required of all producers. *)
Lemma made_le ps : Forall prod_ok ps → sumZ (made <$> ps) ≤ sumZ (pr_cnt <$> ps).
Proof.
  induction 1 as [|p ps Hp _ IH]; csimpl; [done|].
  assert (made p ≤ pr_cnt p); [|lia]. destruct Hp as [Hj Hp]. rw /made. destruct (pr_pc p); lia.
Qed.

(** No counter leaves the range of its type. *)
Lemma required_le s : pc_inv args s → 0 ≤ sumZ (pr_cnt <$> producers s) ≤ INT_MAX.
Proof.
  intros []. pose proof (prefix_sum _ _ v_prefix0 (proj2 (Forall_fmap _ _ _) Hargs)). lia.
Qed.

Lemma small_id x : 0 ≤ x ≤ INT_MAX → to_int x = x.
Proof. intros H. apply to_int_id. rw /in_int /INT_MIN. rw /INT_MAX in H |- *. lia. Qed.

Lemma units_le s : pc_inv args s → avail s + numConsumed s ≤ INT_MAX.
Proof.
  intros Hi. pose proof (required_le _ Hi). destruct Hi. pose proof (made_le _ v_prods0). lia.
Qed.

Lemma count_le s i p : pc_inv args s → producers s !! i = Some p → pr_cnt p ≤ INT_MAX.
Proof.
  intros Hi Hp. pose proof (required_le _ Hi). destruct Hi. clear -v_prods0 Hp H.
  assert (pr_cnt p ≤ sumZ (pr_cnt <$> producers s)); [|lia]. clear H.
  elim: v_prods0 i Hp => [|q l [Hq _] Hl IH] [|i] //; cbn [lookup list_lookup]; csimpl.
  - intros [= ->]. assert (0 ≤ sumZ (pr_cnt <$> l)); [|lia].
    clear -Hl. induction Hl as [|r l [Hr _] _ IH]; csimpl; [done|lia].
  - intros Hi%IH. lia.
Qed.

Lemma inv_set av av' m m' ps mp tot n d o i p q :
  pc_inv args (PcState av m ps mp tot n d o) → ps !! i = Some p →
  prod_ok q → pr_cnt q = pr_cnt p → av' = av - made p + made q → 0 ≤ av' →
  mutex_ok holds m' (<[i := q]> ps) → (m' = Some MainThread ↔ m = Some MainThread) →
  (mp = MWait → av = av' → signals p → signals q) → (mp = MWait → av ≠ av' → signals q) →
  pc_inv args (PcState av' m' (<[i := q]> ps) mp tot n d o).
Proof.
  intros [] Hi Hq Hc Hav Hnn Hm Hmm Hs Hs'. cbn in *.
  assert (Hlt := lookup_lt_Some _ _ _ Hi). split; cbn; rw ?(cnt_set _ _ _ _ Hi Hc); try done.
  - by apply Forall_insert.
  - rw (sumZ_insert _ _ _ _ _ Hi). lia.
  - intros He. rw Hmm. by apply v_mtx_main0.
  - intros ->. destruct (decide (av = av')) as [->|Hne].
    + destruct (v_waiting0 eq_refl) as [?|(k & r & Hk & Hr)]; [by left|]. right.
      destruct (decide (k = i)) as [->|Hki]; simplify_eq.
      * exists i, q. rw list_lookup_insert_eq //. auto.
      * exists k, r. rw list_lookup_insert_ne; [congruence|done].
    + right. exists i, q. rw list_lookup_insert_eq //. auto.
Qed.

Lemma prod_move_inv i s s' :
  pc_inv args s → exited s = false → prod_move i s = Some s' → pc_inv args s'.
Proof.
  intros Hi He. destruct s as [av m ps mp tot n d o]. rw /prod_move /=.
  destruct (ps !! i) as [[pc cnt j]|] eqn:E; [|done]. cbn.
  assert (prod_ok (Prod pc cnt j)) as Hp by (destruct Hi; exact (Forall_lookup_1 _ _ _ _ v_prods0 E)).
  assert (mutex_ok holds m ps) as Hm by (destruct Hi; exact v_mtx_prod0).
  assert (0 ≤ av) as Hav by (by destruct Hi).
  assert (Hcnt := count_le _ _ _ Hi E). assert (Hreq := required_le _ Hi).
  cbn in Hcnt, Hreq. destruct pc; rw /prod_ok /= in Hp |- *; intros H.
  - injection H as <-. apply (inv_set _ _ _ _ _ _ _ _ _ _ _ _ _ Hi E); try done.
    + rw /prod_ok /=. destruct (Z.ltb_spec j cnt); cbn; lia.
    + rw /made /=. by destruct (j <? cnt); cbn; lia.
    + apply (mutex_ok_same holds _ _ _ _ _ Hm E). by destruct (j <? cnt).
    + by intros _ _ [].
  - destruct m; [done|]. injection H as <-. apply (inv_set _ _ _ _ _ _ _ _ _ _ _ _ _ Hi E); try done; [rw /made /=; lia|..].
    + by apply (mutex_ok_take holds _ _ _ _ Hm E).
    + by intros _ _ [].
  - assert (to_int (av + 1) = av + 1) as Hw.
    { apply small_id. assert (Forall prod_ok (<[i := Prod PUnlock cnt j]> ps)) as Hps.
      { destruct Hi. apply Forall_insert; [done|]. rw /prod_ok /=. lia. }
      apply made_le in Hps. rw (cnt_set _ _ _ _ E) // (sumZ_insert _ _ _ _ _ E) in Hps.
      change (made (Prod PUnlock cnt j)) with (j + 1) in Hps.
      change (made (Prod PInc cnt j)) with (j + 0) in Hps. destruct Hi; cbn in *. lia. }
    rw Hw in H. injection H as <-.
    apply (inv_set _ _ _ _ _ _ _ _ _ _ _ _ _ Hi E); try done; [rw /made /=; lia|lia|..].
    + by apply (mutex_ok_same holds _ _ _ _ _ Hm E).
    + by intros _ _ [].
    + intros _ _. by left.
  - injection H as <-. assert (m = Some (Thread i)) as -> by (apply Hm; eauto).
    apply (inv_set _ _ _ _ _ _ _ _ _ _ _ _ _ Hi E); try done; [rw /made /=; lia|..].
    + by apply (mutex_ok_free holds _ _ _ _ Hm E).
    + intros _ _ _. by right.
  - rw (small_id (j + 1)) in H; [lia|]. injection H as <-.
    assert (pc_inv args (PcState av m ps match mp with MWait => MRelock | _ => mp end tot n d o)) as Hi'.
    { destruct mp; try done. destruct Hi. split; cbn in *; try done. intros _. auto. }
    apply (inv_set _ _ _ _ _ _ _ _ _ _ _ _ _ Hi' E); try done.
    + rw /prod_ok /=. lia.
    + rw /made /=. lia.
    + by apply (mutex_ok_same holds _ _ _ _ _ Hm E).
    + by destruct mp.
  - done.
Qed.

Lemma inv_total s : pc_inv args s → to_create (main_pc s) = [] → exited s = false →
  totRequired s = sumZ (atoi <$> args).
Proof. intros [] H He. rw v_tot0 -v_args0 // H app_nil_r //. Qed.

Lemma main_move_inv t s s' : pc_inv args s → main_move t s = Some s' → pc_inv args s'.
Proof.
  intros Hi. assert (Hle := made_le _ (v_prods _ _ Hi)).
  assert (mutex_ok holds (mtx s) (producers s)) as Hm by (destruct Hi; exact v_mtx_prod0).
  assert (Ht := inv_total _ Hi). assert (Hreq := required_le _ Hi).
  destruct s as [av m ps mp tot n d o]. destruct Hi; cbn in *. rw v_units0 -v_tot0 in Hle.
  destruct mp as [[|a rest]| | | | | | | |]; rw /=; intros H.
  - (* created *) destruct (v_creating0 _ eq_refl) as [-> ->]. injection H as <-.
    split; cbn in *; try done. intros _. rw Ht //.
  - (* create *) destruct (v_creating0 _ eq_refl) as [-> ->]. injection H as <-.
    rw /exited /= in v_args0 v_mtx_main0 |- *. specialize (v_args0 eq_refl).
    assert (0 ≤ atoi a) as Ha.
    { apply (Forall_forall (λ z, 0 ≤ z) (atoi <$> args)); [by apply Forall_fmap|].
      rw -v_args0. set_solver. }
    assert (to_int (tot + atoi a) = tot + atoi a) as ->.
    { apply small_id. rw v_tot0. assert (sumZ ((pr_cnt <$> ps) ++ [atoi a]) ≤ sumZ (atoi <$> args)) as H.
      { apply prefix_sum; [|by apply Forall_fmap]. rw -v_args0. exists (atoi <$> rest).
        by rw -app_assoc. }
      rw sumZ_app /= in H. lia. }
    split; cbn in *; try done.
    + apply Forall_app_2; [done|]. apply Forall_singleton. rw /prod_ok /=. lia.
    + rw fmap_app sumZ_app v_units0 /= /made /=. lia.
    + intros _. rw fmap_app -v_args0 -app_assoc. done.
    + rw -v_args0 fmap_app. eexists. rw -app_assoc. done.
    + rw fmap_app sumZ_app /=. lia.
    + by apply mutex_ok_new.
    + by intros [?|[?|[?|?]]].
  - (* lock *) destruct m; [done|]. injection H as <-. split; cbn in *; try done.
    + apply mutex_ok_main; auto.
    + intros _. auto.
  - (* test *) destruct (Z.eqb_spec av 0) as [->|Ha]; injection H as <-; split; cbn in *; try done.
    + apply mutex_ok_drop. by rw (proj2 (v_mtx_main0 eq_refl) eq_refl) in Hm.
    + intros _. auto.
    + by left.
    + by intros [?|[?|[?|?]]].
  - done.
  - (* relock *) destruct m; [done|]. injection H as <-. split; cbn in *; try done.
    + apply mutex_ok_main; auto.
    + intros _. auto.
  - (* consume *) destruct (Z.ltb_spec 0 av);
      [rw (small_id (n + 1)) in H; [lia|]; rw (small_id (av - 1)) in H; [lia|]|];
      injection H as <-; split; cbn in *; try done.
    + lia.
    + lia.
    + lia.
    + by rw (proj2 (Z.ltb_lt 0 (n + 1))); [lia|].
    + by intros [?|[?|[?|?]]].
    + destruct v_printed0 as (ts & Hl & ->). exists (ts ++ [t]). rw length_app /=. split; [lia|].
      rw imap_app concat_app; cbn [imap concat]. rw app_nil_r Nat.add_0_r. by rw Hl.
    + by intros [?|[?|[?|?]]].
  - (* unlock *) injection H as <-. split; cbn in *; try done.
    + apply mutex_ok_drop. by rw (proj2 (v_mtx_main0 eq_refl) eq_refl) in Hm.
    + by intros [?|[?|[?|?]]].
  - (* check *) symmetry in v_done0. destruct d; injection H as <-.
    + apply andb_true_iff in v_done0 as [E1 E2]. specialize (v_args0 eq_refl).
      rw app_nil_r in v_args0. split; cbn in *; try done.
      * by rw E1 E2.
      * by intros [?|[?|[?|?]]].
      * intros _. split; [lia|done].
    + apply andb_false_iff in v_done0 as Hd. split; cbn in *; try done.
      intros _. rw Ht // in Hd |- *. lia.
  - done.
Qed.
End preserve.

Lemma made_all ps :
  Forall prod_ok ps → sumZ (made <$> ps) = sumZ (pr_cnt <$> ps) → Forall (λ p, made p = pr_cnt p) ps.
Proof.
  induction 1 as [|p ps Hp Hps IH]; csimpl; [done|]. intros E. assert (Hle := made_le _ Hps).
  assert (made p ≤ pr_cnt p) as Hp'
    by (destruct Hp as [Hj Hp]; rw /made; destruct (pr_pc p); lia).
  constructor; [lia|]. apply IH. lia.
Qed.

Lemma disturbs_inv args s s' : pc_inv args s → disturbs s s' → pc_inv args s'.
Proof.
  intros [] H. destruct s as [av m ps mp tot n d o].
  destruct H as [s E|s E|s k p E Hk Hp]; destruct s; cbn in *; subst; split; cbn; try done; auto.
  all: by intros [?|[?|[?|?]]].
Qed.

Lemma pc_start_inv args : pc_inv args (pc_start args).
Proof.
  split; cbn; try done.
  - apply prefix_nil.
  - intros i. split; [done|]. by intros (? & ? & ?).
  - by intros [?|[?|[?|?]]].
  - by exists [].
Qed.

Lemma pc_reach_inv args s :
  Forall (λ a, 0 ≤ atoi a) args → 0 < sumZ (atoi <$> args) ≤ INT_MAX →
  rtc pc_step (pc_start args) s → pc_inv args s.
Proof.
  intros Ha [Hp Hm]. apply (rtc_ind_r (pc_inv args)); [apply pc_start_inv|].
  intros s1 s2 _ [[i ? ? He Hs|t ? ? Hs]|Hs] IH;
    [eapply prod_move_inv|eapply main_move_inv|eapply disturbs_inv]; eassumption.
Qed.

(** ** What the program guarantees *)

(** C5: For non-negative counts with a positive sum that fits an int, in every interleaving of the threads,
    with spurious wakeups and failing library calls: the units made are those
    available and those consumed, never more than required; two threads are
    never between lock and unlock at once; the lines printed number the units
    from 1; and when the process ends successfully every unit of every
    producer has been made and consumed. *)
Theorem prod_condvar_correct args s :
  Forall (λ a, 0 ≤ atoi a) args → 0 < sumZ (atoi <$> args) ≤ INT_MAX →
  rtc pc_step (pc_start args) s →
  let total := sumZ (atoi <$> args) in
  sumZ (made <$> producers s) = avail s + numConsumed s ∧
  0 ≤ avail s ∧ 0 ≤ numConsumed s ∧ avail s + numConsumed s ≤ total ∧
  (∀ i j p q, producers s !! i = Some p → producers s !! j = Some q →
     holds_mutex (pr_pc p) = true → holds_mutex (pr_pc q) = true → i = j) ∧
  (∀ i p, producers s !! i = Some p → holds_mutex (pr_pc p) = true →
     main_holds (main_pc s) = false) ∧
  (∃ ts, Z.of_nat (length ts) = numConsumed s ∧
     printed s = concat (imap (λ k t, consumed_line t (Z.of_nat k + 1)) ts)) ∧
  (main_pc s = MExit EXIT_SUCCESS →
     numConsumed s = total ∧ avail s = 0 ∧ Forall (λ p, made p = pr_cnt p) (producers s)).
Proof.
  intros Ha Hp Hr. apply pc_reach_inv in Hr; [|done..]. destruct Hr.
  assert (Hle := made_le _ v_prods0).
  assert (Hpre := prefix_sum _ _ v_prefix0 (proj2 (Forall_fmap _ _ _) Ha)).
  cbn. split_and!; try done; [lia|..].
  - intros i j p q. by apply (mutex_ok_unique holds (mtx s)).
  - intros i p Hi Hpi. assert (mtx s = Some (Thread i)) as E1 by (apply v_mtx_prod0; eauto).
    destruct (main_holds (main_pc s)) eqn:E; [|done]. exfalso.
    assert (exited s = false) as He by (rw /exited; by destruct (main_pc s)).
    assert (mtx s = Some MainThread) by (by apply v_mtx_main0). congruence.
  - intros E. destruct (v_success0 E) as [Hn Hc]. rw Hn v_tot0 Hc in v_units0 Hle |- *.
    split_and!; [done|lia|]. apply made_all; [done|]. rw Hc. lia.
Qed.

(** A bound on the moves left to a producer, and to all threads together. *)
Definition prod_rank (p : producer) : Z :=
  10 * (pr_cnt p - pr_j p) +
  match pr_pc p with PTop => 1 | PLock => 0 | PInc => -1 | PUnlock => -2 | PSignal => -3 | PDone => 0 end.

Definition main_rank (s : pcstate) : Z :=
  match main_pc s with
  | MCreate l => 6 + sumZ ((λ a, 10 * atoi a + 2) <$> l)
  | MLock | MRelock => 5 | MTest => 4 | MWait => 0
  | MConsume => if 0 <? avail s then 3 else 9
  | MUnlock => 8 | MCheck => 7 | MExit _ => 0
  end.

Definition pc_rank (args : list cstring) (s : pcstate) : Z :=
  sumZ (prod_rank <$> producers s) + 10 * (sumZ (atoi <$> args) - numConsumed s) + main_rank s.

Section live.
Context (args : list cstring) (Hargs : Forall (λ a, 0 ≤ atoi a) args)
  (Hpos : 0 < sumZ (atoi <$> args)) (Hmax : sumZ (atoi <$> args) ≤ INT_MAX).
Implicit Types s : pcstate.

Lemma prod_move_rank i s s' :
  pc_inv args s → exited s = false → prod_move i s = Some s' → pc_rank args s' < pc_rank args s.
Proof.
  intros Hi He. destruct s as [av m ps mp tot n d o]. rw /prod_move /=.
  destruct (ps !! i) as [[pc cnt j]|] eqn:E; [|done]. cbn.
  assert (Hcnt := count_le args Hargs Hmax _ _ _ Hi E). destruct Hi; cbn in *.
  assert (Hok := Forall_lookup_1 _ _ _ _ v_prods0 E).
  assert (∀ av' m' mp' q, main_rank (PcState av' m' ps mp' tot n d o) =
            main_rank (PcState av' m ps mp' tot n d o) → 
    main_rank (PcState av' m ps mp' tot n d o) + prod_rank q <
      main_rank (PcState av m ps mp tot n d o) + prod_rank (Prod pc cnt j) →
    pc_rank args (PcState av' m' (<[i := q]> ps) mp' tot n d o) <
    pc_rank args (PcState av m ps mp tot n d o)) as Hrank.
  { intros av' m' mp' q E1 Hlt. rw /pc_rank /= (sumZ_insert _ _ _ _ _ E).
    rw /main_rank /= in E1 Hlt |- *. lia. }
  destruct pc; intros H; [|destruct m|..]; try done; injection H as <-; apply Hrank; try done;
    rw /prod_rank /main_rank /=.
  - destruct (j <? cnt); cbn; lia.
  - lia.
  - assert (mp ≠ MConsume) as Hne; [|destruct mp; try done; lia].
    intros ->. assert (m = Some (Thread i)) as -> by (apply v_mtx_prod0; eauto).
    by pose proof (proj2 (v_mtx_main0 eq_refl) eq_refl).
  - lia.
  - destruct Hok as [Hj Hlt]. cbn in Hj, Hlt. rw (small_id (j + 1)); [lia|]. destruct mp; lia.
Qed.

Lemma main_move_rank t s s' :
  pc_inv args s → main_move t s = Some s' → pc_rank args s' < pc_rank args s.
Proof.
  intros Hi. assert (Hu := units_le args Hargs Hmax _ Hi). assert (Hn := v_consumed _ _ Hi).
  destruct s as [av m ps mp tot n d o]. cbn in Hu, Hn. rw /pc_rank /main_rank /=.
  destruct mp as [[|a rest]| | | | | | | |]; intros H.
  - destruct (v_creating _ _ Hi _ eq_refl) as [E _]. cbn in E. injection H as <-. cbn. lia.
  - injection H as <-. rw fmap_app sumZ_app. csimpl.
    assert (prod_rank (Prod PTop (atoi a) 0) = 10 * atoi a + 1) as -> by (rw /prod_rank /=; lia). lia.
  - destruct m; [done|]. injection H as <-. cbn. lia.
  - destruct (Z.eqb_spec av 0) as [->|Ha]; injection H as <-; cbn; [lia|].
    destruct (Z.ltb_spec 0 av); [lia|]. pose proof (v_avail _ _ Hi). cbn in *. lia.
  - done.
  - destruct m; [done|]. injection H as <-. cbn. lia.
  - destruct (Z.ltb_spec 0 av);
      [rw (small_id (n + 1)) in H; [lia|]; rw (small_id (av - 1)) in H; [lia|]|];
      injection H as <-; cbn; [|lia].
    destruct (Z.ltb_spec 0 (av - 1)); lia.
  - injection H as <-. cbn. lia.
  - injection H as <-. destruct d; cbn; lia.
  - done.
Qed.

Lemma prod_rank_nonneg p : prod_ok p → 0 ≤ prod_rank p.
Proof. intros [Hj Hp]. rw /prod_rank. destruct (pr_pc p); lia. Qed.

Lemma pc_rank_nonneg s : pc_inv args s → 0 ≤ pc_rank args s.
Proof.
  intros []. assert (Hle := made_le _ v_prods0).
  assert (Hpre := prefix_sum _ _ v_prefix0 (proj2 (Forall_fmap _ _ _) Hargs)).
  assert (0 ≤ sumZ (prod_rank <$> producers s)) as H1.
  { clear -v_prods0. induction v_prods0 as [|p l Hp _ IH]; csimpl; [done|].
    pose proof (prod_rank_nonneg p Hp). lia. }
  assert (0 ≤ main_rank s) as H2; [|rw /pc_rank; lia].
  rw /main_rank. destruct (main_pc s) as [l| | | | | | | |] eqn:E; try lia; [|by destruct (0 <? avail s)].
  assert (exited s = false) as He by (by rw /exited E). cbn in v_args0.
  assert (Forall (λ a, 0 ≤ atoi a) l) as Hl.
  { apply (Forall_fmap atoi (λ z, 0 ≤ z)). 
    assert (Forall (λ z, 0 ≤ z) ((pr_cnt <$> producers s) ++ (atoi <$> l))) as H3.
    { rw (v_args0 He). by apply Forall_fmap. }
    by apply Forall_app in H3 as [_ H3]. }
  clear -Hl. induction Hl; csimpl; lia.
Qed.

(** A thread inside the mutex can move, so a thread waiting for it never waits forever. *)
Lemma holder_moves s i :
  pc_inv args s → exited s = false → mtx s = Some (Thread i) → ∃ s', moves s s'.
Proof.
  intros [] He Hm. destruct (proj1 (v_mtx_prod0 i) Hm) as ([pc cnt j] & Hi & Hh).
  destruct s as [av m ps mp tot n d o]. cbn in *.
  destruct pc; try done; eexists; (eapply (move_prod i); [done|]); by rw /= Hi.
Qed.

Lemma can_move s : pc_inv args s → exited s = false → ∃ s', moves s s'.
Proof.
  intros Hi He.
  destruct (mtx s) as [[|i]|] eqn:Hm; [|exact (holder_moves _ _ Hi He Hm)|].
  - apply (v_mtx_main _ _ Hi He) in Hm. destruct s as [av m ps mp tot n d o]. cbn in *.
    destruct mp; try done; [destruct (av =? 0) eqn:E|destruct (0 <? av) eqn:E|];
      eexists; eapply (move_main 0); by rw /= ?E.
  - destruct (decide (main_pc s = MWait)) as [Hw|Hw].
    2:{ destruct s as [av m ps mp tot n d o]. cbn in *. subst m.
        pose proof (v_mtx_main _ _ Hi He) as Hh.
        destruct mp as [[|a rest]| | | | | | | |]; try done; try solve [discriminate (proj2 Hh eq_refl)];
          eexists; by eapply (move_main 0). }
    assert (∃ i p, producers s !! i = Some p ∧ pr_pc p ≠ PDone) as (i & [pc cnt j] & Hp & Hd).
    { destruct (decide (Exists (λ p, pr_pc p ≠ PDone) (producers s))) as [H|H].
      { by apply Exists_exists in H as (p & [i Hi']%list_elem_of_lookup & Hp); eauto. }
      exfalso. apply not_Exists_Forall in H; [|intros ?; apply _].
      assert (totRequired s = avail s + numConsumed s) as Ht.
      { destruct Hi. rw v_tot0 -v_units0. f_equal. clear -v_prods0 H.
        induction H as [|p l Hp _ IH]; csimpl; [done|]. apply Forall_cons in v_prods0 as [[_ Hk] ?].
        f_equal; [|by apply IH]. apply dec_stable in Hp. rw Hp in Hk. rw /made Hp. lia. }
      pose proof (v_more _ _ Hi ltac:(auto)).
      destruct (v_waiting _ _ Hi Hw) as [?|(i & p & Hp & Hs)]; [lia|].
      apply (Forall_lookup_1 _ _ _ _ H) in Hp. apply Hp. by destruct Hs as [->| ->]. }
    destruct s as [av m ps mp tot n d o]. cbn in *. subst m.
    destruct pc; try done; eexists; (eapply (move_prod i); [done|]); by rw /= Hp.
Qed.
End live.

(** C34: The program ends.  For non-negative counts with a positive sum that fits an int, from every reachable
    state in which the process has not ended some thread can move, and every
    move of a thread decreases a bound: only infinitely many spurious wakeups
    could keep the program running. *)
Theorem prod_condvar_ends args s :
  Forall (λ a, 0 ≤ atoi a) args → 0 < sumZ (atoi <$> args) ≤ INT_MAX →
  rtc pc_step (pc_start args) s →
  (exited s = true ∨ ∃ s', moves s s') ∧
  (∀ s', moves s s' → 0 ≤ pc_rank args s' < pc_rank args s).
Proof.
  intros Ha Hp Hr. apply pc_reach_inv in Hr as Hi; [|done..]. pose proof Hp as [_ Hmax]. split.
  - destruct (exited s) eqn:E; [by left|right]. by apply (can_move args).
  - intros s' Hs. assert (pc_inv args s') as Hi'.
    { apply pc_reach_inv; [done..|]. eapply rtc_r; [exact Hr|]. by left. }
    split; [by apply pc_rank_nonneg|].
    destruct Hs as [i s s' He Hs|t s s' Hs]; 
      [eapply (prod_move_rank args)|eapply (main_move_rank args)]; eassumption.
Qed.

(** Without a unit to wait for the main thread waits forever: with no argument
    the program reaches a state in which nothing but a spurious wakeup or a
    failure can happen. *)
Definition run_move (m : option nat) (s : pcstate) : option pcstate :=
  match m with None => main_move 0 s | Some i => prod_move i s end.
Definition run_moves (l : list (option nat)) (s : pcstate) : option pcstate :=
  foldl (λ o m, s ← o; if exited s then None else run_move m s) (Some s) l.

Lemma run_moves_rtc l s s' : run_moves l s = Some s' → rtc pc_step s s'.
Proof.
  rw /run_moves. elim: l s => [|m l IH] s /=; [intros [= ->]; constructor|].
  destruct (exited s) eqn:E.
  { assert (∀ l, foldl (λ o m, s ← o; if exited s then None else run_move m s) None l = @None pcstate) as ->;
      [by elim|done]. }
  destruct (run_move m s) as [s1|] eqn:E1.
  - intros H. apply IH in H. eapply rtc_l; [|exact H]. left.
    destruct m; [eapply move_prod|eapply move_main]; eassumption.
  - assert (∀ l, foldl (λ o m, s ← o; if exited s then None else run_move m s) None l = @None pcstate) as ->;
      [by elim|done].
Qed.

(** With no argument the program never ends: it reaches a state in which the main thread
    waits for a unit that no thread will produce. *)
Lemma prod_condvar_hangs :
  ∃ s, rtc pc_step (pc_start []) s ∧ main_pc s = MWait ∧ ∀ s', ¬ moves s s'.
Proof.
  exists (PcState 0 None [] MWait 0 0 false []). split_and!; [|done|].
  - by apply (run_moves_rtc [None; None; None]).
  - intros s' Hs. inversion Hs as [i ? ? He Hm|t ? ? Hm]; by subst.
Qed.

(** Counts whose sum does not fit an int: [totRequired] wraps to a negative number, and
    the program ends successfully after the first unit. *)
Definition overflow_args : list cstring := [cs "2147483647"; cs "1"].
Definition overflow_schedule : list (option nat) :=
  replicate 3 None ++ replicate 5 (Some 0%nat) ++ replicate 6 None.

Lemma prod_condvar_overflows :
  ∃ s, rtc pc_step (pc_start overflow_args) s ∧ main_pc s = MExit EXIT_SUCCESS ∧
    totRequired s = INT_MIN ∧ numConsumed s = 1.
Proof.
  exists (default (pc_start []) (run_moves overflow_schedule (pc_start overflow_args))).
  split; [|by vm_compute]. apply (run_moves_rtc overflow_schedule). by vm_compute.
Qed.

(** Two producers, of two units and of one. *)
Definition pc_args : list cstring := [cs "2"; cs "1"].
Definition pc_schedule : list (option nat) :=
  replicate 5 None ++ replicate 5 (Some 0%nat) ++ replicate 4 (Some 1%nat) ++ replicate 7 None ++
  [Some 1%nat; None; None] ++ replicate 5 (Some 0%nat) ++ replicate 6 None.
Definition pc_end : pcstate := default (pc_start []) (run_moves pc_schedule (pc_start pc_args)).

Lemma pc_end_reached : rtc pc_step (pc_start pc_args) pc_end.
Proof. apply (run_moves_rtc pc_schedule). by vm_compute. Qed.

Lemma prod_condvar_correct_witness :
  main_pc pc_end = MExit EXIT_SUCCESS ∧ numConsumed pc_end = 3 ∧ avail pc_end = 0.
Proof.
  assert (main_pc pc_end = MExit EXIT_SUCCESS) as E by (by vm_compute).
  destruct (prod_condvar_correct pc_args pc_end) as (_ & _ & _ & _ & _ & _ & _ & H);
    [repeat constructor; by vm_compute|by vm_compute|exact pc_end_reached|].
  split; [done|]. destruct (H E) as (-> & -> & _). done.
Defined.

Lemma prod_condvar_ends_witness :
  (exited (pc_start pc_args) = true ∨ ∃ s', moves (pc_start pc_args) s') ∧
  (∀ s', moves (pc_start pc_args) s' → 0 ≤ pc_rank pc_args s' < pc_rank pc_args (pc_start pc_args)).
Proof.
  apply (prod_condvar_ends pc_args (pc_start pc_args));
    [repeat constructor; by vm_compute|by vm_compute|constructor].
Defined.
