(* ===== verification/OneTimeInit.v ===== *)
(** * One-time initialization: [threads/one_time_init.c]

    Any number of threads, each making a number of calls of one_time_init on
    the same control structure.  [once_move] is a move of one thread; a step
    may also be a call of pthread_mutex_lock that fails, after which the code
    goes on: it compares the result with -1, and the function returns a
    positive error number. *)

From S2P Require Import Prelude Threads.

(** A thread is between calls, before pthread_mutex_lock, at the test of
    [called], before and inside the call of [init], at the assignment to
    [called], or before pthread_mutex_unlock. *)
Inductive opc := OTop | OLock | OTest | OInit | OInside | OSet | OUnlock.

(** A thread with the calls it has still to make and those that have returned. *)
Record othread := OThread { ot_pc : opc; ot_left : nat; ot_returned : nat }.

(** The control structure, the threads, and how often [init] was entered and left. *)
Record ostate := OState {
  o_mtx : option who;
  o_called : bool;
  o_threads : list othread;
  o_entered : nat;
  o_left : nat;
}.

Definition once_move (i : nat) (s : ostate) : option ostate :=
  let '(OState m c ts a b) := s in
  t ← ts !! i;
  let '(OThread pc n r) := t in
  let at_ pc' := <[i := OThread pc' n r]> ts in
  match pc with
  | OTop =>
      match n with
      | O => None
      | S n' => Some (OState m c (<[i := OThread OLock n' r]> ts) a b)
      end
  | OLock =>
      match m with
      | None => Some (OState (Some (Thread i)) c (at_ OTest) a b)
      | Some _ => None
      end
  | OTest => Some (OState m c (at_ (if c then OUnlock else OInit)) a b)
  | OInit => Some (OState m c (at_ OInside) (S a) b)
  | OInside => Some (OState m c (at_ OSet) a (S b))
  | OSet => Some (OState m true (at_ OUnlock) a b)
  | OUnlock =>
      if bool_decide (m = Some (Thread i))
      then Some (OState None c (<[i := OThread OTop n (S r)]> ts) a b)
      else None
  end.

Definition once_step (s s' : ostate) : Prop := ∃ i, once_move i s = Some s'.

(** pthread_mutex_lock returns an error number and the thread goes on. *)
Definition lock_error (i : nat) (s : ostate) : option ostate :=
  t ← o_threads s !! i;
  match ot_pc t with
  | OLock => Some (OState (o_mtx s) (o_called s)
               (<[i := OThread OTest (ot_left t) (ot_returned t)]> (o_threads s))
               (o_entered s) (o_left s))
  | _ => None
  end.
Definition once_step_error (s s' : ostate) : Prop :=
  once_step s s' ∨ ∃ i, lock_error i s = Some s'.

(** ONCE_INITIALIZER, with a thread per element of [calls]. *)
Definition once_start (calls : list nat) : ostate :=
  OState None false ((λ n, OThread OTop n 0) <$> calls) 0 0.

(** The two threads of the test program: threadFunc calls the function twice. *)
Definition threadFunc_calls : nat := 2.
Definition once_main : ostate := once_start [threadFunc_calls; threadFunc_calls].

(** ** The invariant *)

Definition inside (t : othread) : bool :=
  match ot_pc t with OTop | OLock => false | _ => true end.

(** Before the first call of [init] and after it. *)
Definition at_rest (a b : nat) (c : bool) : Prop :=
  a = 0%nat ∧ b = 0%nat ∧ c = false ∨ a = 1%nat ∧ b = 1%nat ∧ c = true.

(** What a thread inside the mutex knows of the calls of [init] entered and
    left and of [called]. *)
Definition once_at (pc : opc) (a b : nat) (c : bool) : Prop :=
  match pc with
  | OInit => a = 0%nat ∧ b = 0%nat ∧ c = false
  | OInside => a = 1%nat ∧ b = 0%nat ∧ c = false
  | OSet => a = 1%nat ∧ b = 1%nat ∧ c = false
  | OUnlock => a = 1%nat ∧ b = 1%nat ∧ c = true
  | _ => at_rest a b c
  end.

Record once_inv (s : ostate) : Prop := {
  w_mtx : mutex_ok inside (o_mtx s) (o_threads s);
  w_main : o_mtx s ≠ Some MainThread;
  w_free : o_mtx s = None → at_rest (o_entered s) (o_left s) (o_called s);
  w_in i t : o_threads s !! i = Some t → inside t = true →
    once_at (ot_pc t) (o_entered s) (o_left s) (o_called s);
  w_returned i t : o_threads s !! i = Some t → (0 < ot_returned t)%nat → o_called s = true;
}.

(** A move of thread [i], from local state [t] to [u]. *)
Lemma once_set m m' c c' ts a a' b b' i t u :
  once_inv (OState m c ts a b) → ts !! i = Some t →
  mutex_ok inside m' (<[i := u]> ts) → m' ≠ Some MainThread →
  (m' = None → at_rest a' b' c') → (inside u = true → once_at (ot_pc u) a' b' c') →
  (inside t = false → inside u = false → a' = a ∧ b' = b ∧ c' = c) →
  (c = true → c' = true) → ((0 < ot_returned u)%nat → (0 < ot_returned t)%nat ∨ c' = true) →
  once_inv (OState m' c' (<[i := u]> ts) a' b').
Proof.
  intros [Hm Hmain Hfree Hin Hret] Hi Hm' Hmain' Hfree' Hu Hout Hc Hr. cbn in *.
  assert (Hlt := lookup_lt_Some _ _ _ Hi).
  split; cbn; try done; intros j v Hj Hv; destruct (decide (j = i)) as [->|Hji].
  - rw list_lookup_insert_eq // in Hj. simplify_eq. auto.
  - assert (ts !! j = Some v) as Hj0 by (rw list_lookup_insert_ne in Hj; [congruence|done]).
    destruct (inside t) eqn:Et.
    { by destruct Hji; apply (mutex_ok_unique _ _ _ _ _ _ _ Hm Hj0 Hi). }
    destruct (inside u) eqn:Eu.
    { destruct Hji. apply (mutex_ok_unique _ _ _ _ _ v u Hm'); [done| |done..].
      by rw list_lookup_insert_eq. }
    destruct (Hout eq_refl eq_refl) as (-> & -> & ->). by apply (Hin j).
  - rw list_lookup_insert_eq // in Hj. simplify_eq. destruct (Hr Hv); [|done].
    by apply Hc, (Hret i t).
  - rw list_lookup_insert_ne in Hj; [congruence|]. by apply Hc, (Hret j v).
Qed.

Lemma once_move_inv i s s' : once_inv s → once_move i s = Some s' → once_inv s'.
Proof.
  intros Hi. destruct s as [m c ts a b]. rw /once_move.
  destruct (ts !! i) as [[pc n r]|] eqn:E; [|done]. cbn.
  pose proof (w_mtx _ Hi) as Hm. pose proof (w_main _ Hi) as Hmain. cbn in *.
  pose proof (w_free _ Hi) as Hfree. pose proof (w_in _ Hi i _ E) as Hpc. cbn in Hpc, Hfree.
  assert (inside (OThread pc n r) = true → m = Some (Thread i)) as Hown by (intros; apply Hm; eauto).
  assert (∀ u, inside u = inside (OThread pc n r) → mutex_ok inside m (<[i := u]> ts)) as Hsame
    by (intros u; apply (mutex_ok_same inside _ _ _ _ _ Hm E)).
  destruct pc; cbn in *; try (rw (Hown eq_refl) in Hm Hi Hsame |- *; specialize (Hpc eq_refl));
    [destruct n as [|n]; [done|]|destruct m; [done|]|..|rw bool_decide_true //];
    intros [= <-]; apply (once_set _ _ _ _ _ _ _ _ _ _ _ _ Hi E); cbn; try done; auto.
  - by apply (mutex_ok_take inside _ _ _ _ Hm E).
  - apply Hsame. by destruct c.
  - intros _. destruct c; by destruct Hpc as [(? & ? & ?)|(? & ? & ?)].
  - by destruct Hpc as (-> & -> & ->).
  - by destruct Hpc as (-> & -> & ->).
  - by destruct Hpc as (-> & -> & ->).
  - by apply (mutex_ok_free inside _ _ _ _ Hm E).
  - right. apply Hpc.
  - right. apply Hpc.
Qed.

Lemma once_start_inv calls : once_inv (once_start calls).
Proof.
  assert (∀ i t, ((λ n, OThread OTop n 0) <$> calls) !! i = Some t →
    ot_pc t = OTop ∧ ot_returned t = 0%nat) as H.
  { intros i t Ht. apply list_lookup_fmap_Some in Ht as (n & -> & _). done. }
  split; cbn; try done.
  - intros i. split; [done|]. intros (t & [Ht _]%H & Hi). by rw /inside Ht in Hi.
  - by left.
  - intros i t [Ht _]%H Hi. by rw /inside Ht in Hi.
  - intros i t [_ Ht]%H. lia.
Qed.

Lemma once_reach_inv calls s : rtc once_step (once_start calls) s → once_inv s.
Proof.
  apply (rtc_ind_r once_inv); [apply once_start_inv|].
  intros s1 s2 _ [i Hs] IH. exact (once_move_inv _ _ _ IH Hs).
Qed.

(** The thread that holds the mutex, if it is held. *)
Lemma once_holder s : once_inv s →
  o_mtx s = None ∨ ∃ i t, o_mtx s = Some (Thread i) ∧ o_threads s !! i = Some t ∧ inside t = true.
Proof.
  intros Hi. destruct (o_mtx s) as [[|i]|] eqn:E; [by destruct (w_main _ Hi)| |by left].
  right. destruct (proj1 (w_mtx _ Hi i) E) as (t & Ht & Hin). eauto.
Qed.

Lemma once_states s : once_inv s →
  at_rest (o_entered s) (o_left s) (o_called s) ∨
  (o_left s ≤ o_entered s ≤ 1)%nat ∧ o_called s = false.
Proof.
  intros Hi. destruct (once_holder s Hi) as [E|(i & t & _ & Ht & Hin)].
  - left. by apply (w_free _ Hi).
  - pose proof (w_in _ Hi _ _ Ht Hin) as Hat. destruct (ot_pc t); cbn in Hat; try (by left);
      destruct Hat as (-> & -> & ->); try (right; split; [lia|done]). left. by right.
Qed.

(** The moves left to the threads. *)
Definition once_rank (t : othread) : Z :=
  10 * Z.of_nat (ot_left t) +
  match ot_pc t with
  | OTop => 0 | OLock => 7 | OTest => 6 | OInit => 5 | OInside => 4 | OSet => 3 | OUnlock => 2
  end.
Definition once_finished (t : othread) : bool :=
  match ot_pc t, ot_left t with OTop, O => true | _, _ => false end.

Lemma once_move_rank i s s' :
  once_move i s = Some s' →
  sumZ (once_rank <$> o_threads s') < sumZ (once_rank <$> o_threads s).
Proof.
  destruct s as [m c ts a b]. rw /once_move. destruct (ts !! i) as [[pc n r]|] eqn:E; [|done]. cbn.
  destruct pc; [destruct n as [|n]|destruct m|..|case_bool_decide]; intros [= <-]; cbn -[sumZ];
    rw (sumZ_insert _ _ _ _ _ E) /once_rank /=; try lia.
  destruct c; lia.
Qed.

Lemma once_rank_nonneg s : 0 ≤ sumZ (once_rank <$> o_threads s).
Proof.
  elim: (o_threads s) => [|t l IH]; csimpl; [done|]. rw {1}/once_rank. destruct (ot_pc t); lia.
Qed.

Lemma once_can_move s i t :
  once_inv s → o_threads s !! i = Some t → once_finished t = false → ∃ s', once_step s s'.
Proof.
  intros Hi Ht Hf. destruct (once_holder s Hi) as [E|(j & [pc n r] & E & Hj & Hin)].
  - pose proof (w_mtx _ Hi) as Hm. destruct s as [m c ts a b]. cbn in *. subst m.
    destruct t as [pc n r]. destruct pc; try discriminate (proj2 (Hm i) (ex_intro _ _ (conj Ht eq_refl))).
    + destruct n; [done|]. eexists. exists i. by rw /once_move Ht.
    + eexists. exists i. by rw /once_move Ht.
  - destruct s as [m c ts a b]. cbn in *. subst m.
    destruct pc; try done; eexists; exists j; by rw /once_move Hj /= ?bool_decide_true.
Qed.

(** C35: In every interleaving of threads that call one_time_init: [init] is entered at most
    once; every call that has returned did so after [init] was left; some
    thread can move until all have made their calls; and every move decreases
    a bound on those left. *)
Theorem once_exactly_once calls s :
  rtc once_step (once_start calls) s →
  (o_left s ≤ o_entered s ≤ 1)%nat ∧
  (∀ i t, o_threads s !! i = Some t → (0 < ot_returned t)%nat → o_left s = 1%nat) ∧
  (∀ i t, o_threads s !! i = Some t → once_finished t = false → ∃ s', once_step s s') ∧
  (∀ s', once_step s s' →
     0 ≤ sumZ (once_rank <$> o_threads s') < sumZ (once_rank <$> o_threads s)).
Proof.
  intros Hr. apply once_reach_inv in Hr as Hi. split_and!.
  - destruct (once_states s Hi) as [[(? & ? & _)|(? & ? & _)]|[? _]]; lia.
  - destruct (once_states s Hi) as [[(? & ? & _)|(? & ? & _)]|[? _]]; lia.
  - intros i t Ht Hret. pose proof (w_returned _ Hi _ _ Ht Hret).
    destruct (once_states s Hi) as [[(? & ? & ?)|(? & ? & ?)]|[? ?]]; congruence.
  - intros i t. by apply once_can_move.
  - intros s' [i Hs]. split; [apply once_rank_nonneg|exact (once_move_rank _ _ _ Hs)].
Qed.

(** ** Runs *)

Definition once_run (l : list nat) (s : ostate) : option ostate :=
  foldr (λ i k s, once_move i s ≫= k) Some l s.

Lemma once_run_rtc l s s' : once_run l s = Some s' → rtc once_step s s'.
Proof.
  rw /once_run. elim: l s => [|i l IH] s /=; [intros [= ->]; constructor|].
  destruct (once_move i s) as [s1|] eqn:E; [|done]. cbn. intros H%IH.
  eapply rtc_l; [|exact H]. by exists i.
Qed.

(** The test program, the second thread starting while [init] runs. *)
Definition once_schedule : list nat :=
  [0; 0; 0; 0; 1; 0; 0; 0]%nat ++ replicate 3 1%nat ++ replicate 4 0%nat ++ replicate 4 1%nat.
Definition once_end : ostate := default once_main (once_run once_schedule once_main).

Lemma once_exactly_once_witness :
  o_threads once_end = [OThread OTop 0 2; OThread OTop 0 2] ∧ o_left once_end = 1%nat.
Proof.
  assert (once_run once_schedule once_main = Some once_end) as Hr by (by vm_compute).
  destruct (once_exactly_once [2; 2]%nat once_end (once_run_rtc _ _ _ Hr)) as (_ & H & _).
  split; [by vm_compute|]. apply (H 0%nat (OThread OTop 0 2)); [by vm_compute|cbn; lia].
Defined.

(** When a call of pthread_mutex_lock fails, the code goes on without the mutex, and two
    threads can run [init]. *)
Lemma once_lock_error_ignored :
  ∃ s, rtc once_step_error once_main s ∧ o_entered s = 2%nat.
Proof.
  eexists. split.
  - do 4 (eapply rtc_l; [left; by exists 0%nat|]).
    eapply rtc_l; [left; by exists 1%nat|].
    eapply rtc_l; [right; by exists 1%nat|].
    do 2 (eapply rtc_l; [left; by exists 1%nat|]). constructor.
  - done.
Qed.

(** ** The test program *)

(** The main thread has created [k] threads, or joined [k], or the process has
    ended. *)
Inductive ompc := OCreate (k : nat) | OJoin (k : nat) | OExit (status : Z).
Record oprog := OProg { op_once : ostate; op_main : ompc; op_out : cstring }.

(** init_func prints while it runs. *)
Definition init_func (s s' : ostate) : cstring :=
  if (o_left s <? o_left s')%nat then cs "Called init_func()" ++ [NL] else [].

Definition add_thread (s : ostate) : ostate :=
  OState (o_mtx s) (o_called s) (o_threads s ++ [OThread OTop threadFunc_calls 0]) (o_entered s) (o_left s).

Definition joined_msg (k : nat) : cstring :=
  (if decide (k = 0%nat) then cs "First thread returned" else cs "Second thread returned") ++ [NL].

Definition once_main_move (s : oprog) : option oprog :=
  let '(OProg o mp out) := s in
  match mp with
  | OCreate k =>
      if (k <? 2)%nat then Some (OProg (add_thread o) (OCreate (S k)) out) else Some (OProg o (OJoin 0) out)
  | OJoin k =>
      if (k <? 2)%nat then
        t ← o_threads o !! k;
        if once_finished t then Some (OProg o (OJoin (S k)) (out ++ joined_msg k)) else None
      else Some (OProg o (OExit EXIT_SUCCESS) out)
  | OExit _ => None
  end.

Inductive once_prog_step : oprog → oprog → Prop :=
  | ops_thread o o' mp out : (∀ n, mp ≠ OExit n) → once_step o o' →
      once_prog_step (OProg o mp out) (OProg o' mp (out ++ init_func o o'))
  | ops_main s s' : once_main_move s = Some s' → once_prog_step s s'
  (** pthread_create or pthread_join fails. *)
  | ops_fail o mp out : (∀ n, mp ≠ OExit n) →
      once_prog_step (OProg o mp out) (OProg o (OExit EXIT_FAILURE) out).

Definition once_prog_start : oprog := OProg (once_start []) (OCreate 0) [].

(** The lines printed by [init_func] and by the main thread after [k] joins. *)
Definition once_output (left k : nat) : cstring :=
  (if decide (left = 0%nat) then [] else cs "Called init_func()" ++ [NL]) ++ mjoin (joined_msg <$> seq 0 k).

Definition once_main_at (o : ostate) (mp : ompc) (out : cstring) : Prop :=
  match mp with
  | OCreate k => (k ≤ 2)%nat ∧ length (o_threads o) = k ∧ out = once_output (o_left o) 0
  | OJoin k => (k ≤ 2)%nat ∧ length (o_threads o) = 2%nat ∧ out = once_output (o_left o) k ∧
      ∀ i t, (i < k)%nat → o_threads o !! i = Some t → once_finished t = true
  | OExit status => status = EXIT_SUCCESS →
      out = once_output 1 2 ∧ Forall (λ t, once_finished t = true ∧ ot_returned t = 2%nat) (o_threads o)
  end.

(** The calls of a thread: made, running and left. *)
Definition two_calls (t : othread) : Prop :=
  (ot_returned t + ot_left t + match ot_pc t with OTop => 0 | _ => 1 end = threadFunc_calls)%nat.

Record once_prog_inv (s : oprog) : Prop := {
  v_once : once_inv (op_once s);
  v_calls : Forall two_calls (o_threads (op_once s));
  v_main : once_main_at (op_once s) (op_main s) (op_out s);
}.

Lemma once_finished_returned t : two_calls t → once_finished t = true → ot_returned t = 2%nat.
Proof. rw /two_calls /once_finished /threadFunc_calls. destruct (ot_pc t), (ot_left t); intros; try done; lia. Qed.

Lemma once_left_le s : once_inv s → (o_left s ≤ 1)%nat.
Proof. intros Hi. destruct (once_states s Hi) as [[(? & ? & _)|(? & ? & _)]|[? _]]; lia. Qed.

Lemma once_returned_left s i t :
  once_inv s → o_threads s !! i = Some t → (0 < ot_returned t)%nat → o_left s = 1%nat.
Proof.
  intros Hi Ht Hr. pose proof (w_returned _ Hi _ _ Ht Hr).
  destruct (once_states s Hi) as [[(? & ? & ?)|(? & ? & ?)]|[? ?]]; congruence.
Qed.

(** What a move of a thread changes. *)
Lemma once_move_frame i s s' :
  once_move i s = Some s' →
  ∃ t u, o_threads s !! i = Some t ∧ once_finished t = false ∧ o_threads s' = <[i := u]> (o_threads s) ∧
    (two_calls t → two_calls u) ∧ (o_left s' = o_left s ∨ o_left s' = S (o_left s)).
Proof.
  destruct s as [m c ts a b]. rw /once_move. destruct (ts !! i) as [[pc n r]|] eqn:E; [|done]. cbn.
  destruct pc; [destruct n as [|n]|destruct m|..|case_bool_decide]; intros [= <-]; eexists _, _; cbn;
    (split; [exact E|]); (split; [done|]); (split; [done|]); (split; [|by auto]);
    rw /two_calls /threadFunc_calls /=; try lia. destruct c; cbn; lia.
Qed.

Lemma once_inv_add s : once_inv s → once_inv (add_thread s).
Proof.
  intros [Hm Hmain Hfree Hin Hret]. split; cbn; [by apply mutex_ok_new|done|done|..];
    intros i t [H|[_ H]]%lookup_app_Some; eauto; destruct (i - length (o_threads s))%nat; simplify_eq/=; try done; lia.
Qed.

Lemma once_output_S left k : once_output left (S k) = once_output left k ++ joined_msg k.
Proof. by rw /once_output seq_S fmap_app join_app /= app_nil_r app_assoc. Qed.

(** The line of [init_func] comes before those of the main thread. *)
Lemma once_output_init (o o' : ostate) k :
  (o_left o' ≤ 1)%nat → o_left o' = o_left o ∨ o_left o' = S (o_left o) → (0 < k → o_left o = 1)%nat →
  once_output (o_left o) k ++ init_func o o' = once_output (o_left o') k.
Proof.
  rw /init_func. intros Hle [E|E] Hk; rw E.
  - by rw Nat.ltb_irrefl app_nil_r.
  - destruct (Nat.ltb_spec (o_left o) (S (o_left o))); [|lia]. destruct k; [|lia].
    assert (o_left o = 0)%nat as -> by lia. done.
Qed.

Lemma once_prog_thread o o' mp out :
  once_prog_inv (OProg o mp out) → (∀ n, mp ≠ OExit n) → once_step o o' →
  once_prog_inv (OProg o' mp (out ++ init_func o o')).
Proof.
  intros [Hi Hc Hm] Hne [i Hs]. cbn in *. pose proof (once_move_inv _ _ _ Hi Hs) as Hi'.
  destruct (once_move_frame _ _ _ Hs) as (t & u & Ht & Hf & Hts & Htu & Hl).
  pose proof (once_left_le _ Hi') as Hle. split; cbn; [done| |].
  - rw Hts. apply Forall_insert; [done|]. apply Htu. exact (Forall_lookup_1 _ _ _ _ Hc Ht).
  - destruct mp as [k|k|n]; cbn in *; [| |by destruct (Hne n)]; rw Hts length_insert.
    + destruct Hm as (? & ? & ->). split_and!; [done..|]. apply once_output_init; [done..|lia].
    + destruct Hm as (? & ? & -> & Hd). split_and!; [done..| |].
      * apply once_output_init; [done..|]. intros Hk. destruct (lookup_lt_is_Some_2 (o_threads o) 0) as [v Hv]; [lia|].
        pose proof (Hd _ _ Hk Hv) as Hfv. apply (once_returned_left _ _ _ Hi Hv).
        rw (once_finished_returned _ (Forall_lookup_1 _ _ _ _ Hc Hv) Hfv). lia.
      * intros j v Hj Hv. destruct (decide (j = i)) as [->|Hji].
        { pose proof (Hd _ _ Hj Ht). congruence. }
        rw list_lookup_insert_ne in Hv; [congruence|]. by apply (Hd j).
Qed.

Lemma once_prog_main s s' : once_prog_inv s → once_main_move s = Some s' → once_prog_inv s'.
Proof.
  destruct s as [o mp out]. intros [Hi Hc Hm]. cbn [op_once op_main op_out] in *. rw /once_main_move.
  destruct mp as [k|k|n]; [| |done]; cbn [once_main_at] in Hm; destruct (Nat.ltb_spec k 2) as [Hk|Hk].
  - intros [= <-]. destruct Hm as (_ & Hl & ->). split; cbn; [by apply once_inv_add| |].
    + by apply Forall_app_2; [|apply Forall_singleton].
    + rw length_app /=. split_and!; [lia..|done].
  - intros [= <-]. destruct Hm as (Hk2 & Hl & ->). split; [done..|]. cbn; split_and!; [lia|lia|done|lia].
  - destruct Hm as (_ & Hl & -> & Hd). destruct (o_threads o !! k) as [t|] eqn:Et; [|done]. cbn.
    destruct (once_finished t) eqn:Ef; [|done]. intros [= <-]. split; [done..|].
    split_and!; [lia|done|by rw once_output_S|]. intros i v Hik Hv.
    destruct (decide (i = k)) as [->|]; [cbn in Hv; congruence|]. apply (Hd i); [lia|done].
  - intros [= <-]. destruct Hm as (Hk2 & Hl & -> & Hd). assert (k = 2)%nat as -> by lia. split; [done..|]. intros _.
    assert (Forall (λ t, once_finished t = true ∧ ot_returned t = 2%nat) (o_threads o)) as Hall.
    { apply Forall_lookup. intros i t Ht. pose proof (lookup_lt_Some _ _ _ Ht).
      assert (once_finished t = true) as Hf by (apply (Hd i); [lia|done]). split; [done|].
      apply once_finished_returned; [exact (Forall_lookup_1 _ _ _ _ Hc Ht)|done]. }
    split; [|done]. destruct (lookup_lt_is_Some_2 (o_threads o) 0) as [v Hv]; [lia|].
    rw (once_returned_left o 0 v) //. destruct (Forall_lookup_1 _ _ _ _ Hall Hv) as [_ ->]. lia.
Qed.

Lemma once_prog_reach s : rtc once_prog_step once_prog_start s → once_prog_inv s.
Proof.
  apply (rtc_ind_r once_prog_inv).
  - split; cbn; [apply (once_start_inv [])|done|]. split_and!; [lia|done..].
  - intros s1 s2 _ [o o' mp out Hne Hs|t t' Hs|o mp out Hne] IH.
    + by apply once_prog_thread.
    + by apply (once_prog_main t).
    + destruct IH. by split.
Qed.

(** Whatever the interleaving, a successful run prints the line of init_func
    once and first, and each of the four calls has returned. *)
Lemma once_main_prints s :
  rtc once_prog_step once_prog_start s → op_main s = OExit EXIT_SUCCESS →
  op_out s = cs "Called init_func()" ++ [NL] ++ cs "First thread returned" ++ [NL] ++
    cs "Second thread returned" ++ [NL] ∧
  Forall (λ t, ot_returned t = 2%nat) (o_threads (op_once s)).
Proof.
  intros [_ _ Hm]%once_prog_reach E. rw E in Hm. destruct (Hm eq_refl) as [-> Hall]. split; [done|].
  eapply Forall_impl; [exact Hall|]. naive_solver.
Qed.
