(* ===== verification/PidFile.v ===== *)
(** * Record locks and PID files

    [filelock/region_locking.c] wraps the locking commands of fcntl;
    [filelock/create_pid_file.c] uses it so that a single instance of a program
    runs.  Every call has the process that makes it as its first argument:
    the kernel [K] is shared by the processes. *)

From S2P Require Import Prelude CStdlib ErrFns GetNum Tlpi.

Definition F_RDLCK : Z := 0.
Definition F_WRLCK : Z := 1.
Definition F_UNLCK : Z := 2.
Definition F_GETLK : Z := 5.
Definition F_SETLK : Z := 6.
Definition F_SETLKW : Z := 7.
Definition SEEK_SET : Z := 0.
Definition FD_CLOEXEC : Z := 1.
Definition O_RDWR : Z := 2.
Definition O_CREAT : Z := 64.
Definition S_IRUSR : Z := 256.
Definition S_IWUSR : Z := 128.

Record flock := Flock { l_type : Z; l_whence : Z; l_start : Z; l_len : Z; l_pid : Z }.

Class LockOS (K : Type) := {
  lo_fcntl : Z → Z → Z → flock → K → res flock * K;
  lo_open : Z → cstring → Z → Z → K → res Z * K;
  lo_getfd : Z → Z → K → res Z * K;
  lo_setfd : Z → Z → Z → K → res unit * K;
  lo_ftruncate : Z → Z → Z → K → res unit * K;
  lo_write : Z → Z → list ascii → K → res Z * K;
}.

Section locking.
Context {K : Type} `{!TlpiEnv K, !LockOS K} (pid : Z).
Abbreviation T := (M (tproc K)).

(** The field [l_pid] is not assigned before the call; the kernel does not read it. *)
Definition lockReg (fd cmd type whence start len : Z) : T Z :=
  r ← tcall (lo_fcntl pid fd cmd (Flock type whence start len 0)) ;
  mret (match r with None => -1 | Some _ => 0 end).
Definition lockRegion (fd type whence start len : Z) : T Z :=
  lockReg fd F_SETLK type whence start len.
Definition lockRegionWait (fd type whence start len : Z) : T Z :=
  lockReg fd F_SETLKW type whence start len.
Definition regionIsLocked (fd type whence start len : Z) : T Z :=
  r ← tcall (lo_fcntl pid fd F_GETLK (Flock type whence start len 0)) ;
  mret (match r with
        | None => -1
        | Some fl => if l_type fl =? F_UNLCK then 0 else l_pid fl
        end).

Definition CPF_CLOEXEC : Z := 1.
Definition BUF_SIZE : nat := 100.

(** The close-on-exec part of [createPidFile]. *)
Definition set_cloexec (fd : Z) (pidFile : cstring) : T unit :=
  flags ← tchecked (cs "Could not get flags for PID file " ++ pidFile) (lo_getfd pid fd) ;
  tchecked (cs "Could not set flags for PID file " ++ pidFile)
    (lo_setfd pid fd (Z.lor flags FD_CLOEXEC)).

(** Locking the file, or ending the process. *)
Definition lock_pid_file (fd : Z) (progName pidFile : cstring) : T unit :=
  r ← lockRegion fd F_WRLCK SEEK_SET 0 0 ;
  if r =? -1 then
    e ← errno ;
    if (e =? EAGAIN) || (e =? EACCES)
    then tfatal (cs "PID file '" ++ pidFile ++ cs "' is locked; probably '" ++ progName ++
                 cs "' is already running")
    else terrExit (cs "Unable to lock PID file '" ++ pidFile ++ cs "'")
  else mret tt.

(** Replacing its contents by the process ID. *)
Definition write_pid_file (fd : Z) (pidFile : cstring) : T Z :=
  tchecked (cs "Could not truncate PID file '" ++ pidFile ++ cs "'") (lo_ftruncate pid fd 0) ;;
  let buf := snprintf BUF_SIZE (fmt_d pid ++ [NL]) in
  w ← tcall (lo_write pid fd buf) ;
  match w with
  | Some n => if n =? strlen buf then mret fd
              else tfatal (cs "Writing to PID file '" ++ pidFile ++ cs "'")
  | None => tfatal (cs "Writing to PID file '" ++ pidFile ++ cs "'")
  end.

Definition createPidFile (progName pidFile : cstring) (flags : Z) : T Z :=
  fd ← tchecked (cs "Could not open PID file " ++ pidFile)
         (lo_open pid pidFile (Z.lor O_RDWR O_CREAT) (Z.lor S_IRUSR S_IWUSR)) ;
  when (flag flags CPF_CLOEXEC) (set_cloexec fd pidFile) ;;
  lock_pid_file fd progName pidFile ;;
  write_pid_file fd pidFile.
End locking.

(** ** What the kernel promises *)

(** A lock on a file: its owner, its type and its first and last byte. *)
Record plock := HeldLock { lk_pid : Z; lk_type : Z; lk_from : Z; lk_to : option Z }.

(** The region of a lock request with [whence] SEEK_SET. *)
Definition region (start len : Z) : Z * option Z :=
  if len =? 0 then (start, None)
  else if 0 <? len then (start, Some (start + len - 1)) else (start + len, Some (start - 1)).

Definition below (x : Z) (to : option Z) : bool := match to with None => true | Some y => x <=? y end.
Definition conflicts (p type : Z) (r : Z * option Z) (l : plock) : bool :=
  negb (lk_pid l =? p) && ((type =? F_WRLCK) || (lk_type l =? F_WRLCK)) &&
  below r.1 (lk_to l) && below (lk_from l) r.2.

(** Writing [d] at offset [off] of a file. *)
Definition write_at (c : cstring) (off : nat) (d : cstring) : cstring :=
  take off c ++ replicate (off - length c) NUL ++ d ++ drop (off + length d) c.

(** Pathnames name files; a descriptor of a process refers to a file, at an
    offset, with flags; a file has contents and locks. *)
Class LockOSOk (K : Type) `{!LockOS K} := {
  named : K → cstring → option Z;
  opened : K → Z → Z → option Z;
  offset : K → Z → Z → nat;
  fdflags : K → Z → Z → Z;
  contents : K → Z → cstring;
  locks : K → Z → list plock;
  lo_open_ok p path fl mode fd k k' : lo_open p path fl mode k = (inr fd, k') →
    flag fl 512 = false (* O_TRUNC *) →
    (∃ ino, opened k' p fd = Some ino ∧ named k' path = Some ino ∧ offset k' p fd = O ∧
       (∀ ino', named k path = Some ino' → ino' = ino)) ∧
    (∀ ino path', named k path' = Some ino →
       named k' path' = Some ino ∧ contents k' ino = contents k ino ∧ locks k' ino = locks k ino);
  lo_open_err p path fl mode e k k' : lo_open p path fl mode k = (inl e, k') →
    ∀ ino, contents k' ino = contents k ino ∧ locks k' ino = locks k ino;
  lo_getfd_ok p fd r k k' : lo_getfd p fd k = (r, k') →
    (∀ v, r = inr v → v = fdflags k p fd) ∧ k' = k;
  lo_setfd_ok p fd v r k k' : lo_setfd p fd v k = (r, k') →
    (r = inr tt → fdflags k' p fd = v) ∧
    named k' = named k ∧ opened k' = opened k ∧ offset k' = offset k ∧
    contents k' = contents k ∧ locks k' = locks k;
  lo_getlk_ok p fd ty st ln x fl ino k k' :
    lo_fcntl p fd F_GETLK (Flock ty SEEK_SET st ln x) k = (inr fl, k') → opened k p fd = Some ino →
    k' = k ∧
    if l_type fl =? F_UNLCK then Forall (λ l, conflicts p ty (region st ln) l = false) (locks k ino)
    else ∃ l, l ∈ locks k ino ∧ conflicts p ty (region st ln) l = true ∧ lk_pid l = l_pid fl;
  lo_setlk_ok p fd ty st ln x fl ino k k' :
    lo_fcntl p fd F_SETLK (Flock ty SEEK_SET st ln x) k = (inr fl, k') → opened k p fd = Some ino →
    ty = F_RDLCK ∨ ty = F_WRLCK →
    Forall (λ l, conflicts p ty (region st ln) l = false) (locks k ino) ∧
    HeldLock p ty (region st ln).1 (region st ln).2 ∈ locks k' ino ∧
    (∀ l, lk_pid l ≠ p → l ∈ locks k' ino ↔ l ∈ locks k ino);
  lo_setlk_busy p fd ty st ln x ino k l :
    opened k p fd = Some ino → l ∈ locks k ino → conflicts p ty (region st ln) l = true →
    (lo_fcntl p fd F_SETLK (Flock ty SEEK_SET st ln x) k).1 = inl EAGAIN ∨
    (lo_fcntl p fd F_SETLK (Flock ty SEEK_SET st ln x) k).1 = inl EACCES;
  lo_setlk_frame p fd fl r k k' : lo_fcntl p fd F_SETLK fl k = (r, k') →
    named k' = named k ∧ opened k' = opened k ∧ offset k' = offset k ∧ fdflags k' = fdflags k ∧
    contents k' = contents k ∧ (∀ e, r = inl e → locks k' = locks k);
  lo_ftruncate_ok p fd k k' ino : lo_ftruncate p fd 0 k = (inr tt, k') → opened k p fd = Some ino →
    contents k' ino = [] ∧
    named k' = named k ∧ opened k' = opened k ∧ offset k' = offset k ∧ fdflags k' = fdflags k ∧
    locks k' = locks k;
  lo_write_ok p fd d n k k' ino : lo_write p fd d k = (inr n, k') → opened k p fd = Some ino →
    0 ≤ n ≤ strlen d ∧ contents k' ino = write_at (contents k ino) (offset k p fd) (take (Z.to_nat n) d) ∧
    named k' = named k ∧ opened k' = opened k ∧ fdflags k' = fdflags k ∧ locks k' = locks k;
}.

Section pid_file.
Context {K : Type} `{!TlpiEnv K, !LockOS K, !LockOSOk K}.
Implicit Types (s : tproc K) (k : K).

(** Process [p] has locked the whole file, and no lock of another process
    covers a byte of it. *)
Definition owns_file (k : K) (p ino : Z) : Prop :=
  HeldLock p F_WRLCK 0 None ∈ locks k ino ∧
  Forall (λ l, conflicts p F_WRLCK (0, None) l = false) (locks k ino).

(** A PID file is in place: the process has the file open and locked, it holds
    the process's number, and the flags are as asked. *)
Definition pid_file_of (p : Z) (path : cstring) (flags fd : Z) (k : K) : Prop :=
  ∃ ino, opened k p fd = Some ino ∧ named k path = Some ino ∧ owns_file k p ino ∧
    contents k ino = fmt_d p ++ [NL] ∧
    (flag flags CPF_CLOEXEC = true → flag (fdflags k p fd) FD_CLOEXEC = true).

Lemma conflicts_self p ty r l : lk_pid l = p → conflicts p ty r l = false.
Proof. intros <-. by rw /conflicts Z.eqb_refl. Qed.

Lemma flag_or x : flag (Z.lor x FD_CLOEXEC) FD_CLOEXEC = true.
Proof.
  rw /flag. apply negb_true_iff, Z.eqb_neq. intros H.
  assert (Z.testbit (Z.land (Z.lor x FD_CLOEXEC) FD_CLOEXEC) 0 = true) as Hb
    by (rw Z.land_spec Z.lor_spec; by destruct (Z.testbit x 0)).
  by rw H in Hb.
Qed.

(** Opening the file and setting its flags. *)
Lemma safe_set_cloexec p fd path (Q : unit → tproc K → Prop) s :
  (∀ k, named k = named (t_os s) → opened k = opened (t_os s) → offset k = offset (t_os s) →
     contents k = contents (t_os s) → locks k = locks (t_os s) →
     flag (fdflags k p fd) FD_CLOEXEC = true → Q tt (TProc (t_io s) k)) →
  safe (set_cloexec p fd path) Q s.
Proof.
  intros H. rw /set_cloexec. safe_step. safe_step. intros v k1 [_ ->]%lo_getfd_ok.
  safe_step. intros [] k2 [Hf (H1 & H2 & H3 & H4 & H5)]%lo_setfd_ok. apply H; try done.
  rw Hf //. apply flag_or.
Qed.

Lemma pid_line p : in_int p → snprintf BUF_SIZE (fmt_d p ++ [NL]) = fmt_d p ++ [NL].
Proof.
  intros H%length_fmt_d. apply snprintf_fits. rw length_app /= /BUF_SIZE. lia.
Qed.

Lemma safe_lockRegion p fd ty st ln (Q : Z → tproc K → Prop) s :
  (∀ fl k, lo_fcntl p fd F_SETLK (Flock ty SEEK_SET st ln 0) (t_os s) = (inr fl, k) →
     Q 0 (TProc (t_io s) k)) →
  (∀ e k io, lo_fcntl p fd F_SETLK (Flock ty SEEK_SET st ln 0) (t_os s) = (inl e, k) →
     e_errno io = e → Q (-1) (TProc io k)) →
  safe (lockRegion p fd ty SEEK_SET st ln) Q s.
Proof.
  intros H1 H2. rw /lockRegion /lockReg. safe_step. safe_step.
  - intros fl k E. safe_step. eauto.
  - intros e k E. safe_step. by apply (H2 e k).
Qed.

Lemma safe_lock_pid_file p fd prog path ino (Q : unit → tproc K → Prop) s :
  opened (t_os s) p fd = Some ino →
  (∀ k, named k = named (t_os s) → opened k = opened (t_os s) → offset k = offset (t_os s) →
     fdflags k = fdflags (t_os s) → owns_file k p ino → Q tt (TProc (t_io s) k)) →
  safe (lock_pid_file p fd prog path) Q s.
Proof.
  intros Ho H. rw /lock_pid_file. safe_step. apply safe_lockRegion.
  - intros fl k E. destruct (lo_setlk_frame _ _ _ _ _ _ E) as (H1 & H2 & H3 & H4 & _).
    destruct (lo_setlk_ok _ _ _ _ _ _ _ _ _ _ E Ho) as (Hc & Hin & Hoth); [by right|].
    apply H; try done. split; [done|]. apply Forall_forall. intros l Hl.
    destruct (decide (lk_pid l = p)); [by apply conflicts_self|].
    apply Hoth in Hl; [|done]. exact (proj1 (Forall_forall _ _) Hc l Hl).
  - intros e k io E _. cbn. safe_step. cbn. destruct (_ || _); safe_step.
Qed.

Lemma safe_write_pid_file p fd path ino (Q : Z → tproc K → Prop) s :
  in_int p → opened (t_os s) p fd = Some ino → offset (t_os s) p fd = O →
  (∀ k, named k = named (t_os s) → opened k = opened (t_os s) →
     fdflags k = fdflags (t_os s) → locks k = locks (t_os s) → contents k ino = fmt_d p ++ [NL] →
     Q fd (TProc (t_io s) k)) →
  safe (write_pid_file p fd path) Q s.
Proof.
  intros Hp Ho Hoff H. rw /write_pid_file pid_line //. do 2 safe_step.
  intros [] k1 E1. destruct (lo_ftruncate_ok _ _ _ _ _ E1 Ho) as (Hc & H1 & H2 & H3 & H4 & H5).
  do 2 safe_step; [|intros; safe_step]. cbn. intros n k2 E2. rw -H2 in Ho. rw -H3 in Hoff.
  destruct (lo_write_ok _ _ _ _ _ _ _ E2 Ho) as (Hn & Hw & G1 & G2 & G3 & G4).
  destruct (Z.eqb_spec n (strlen (fmt_d p ++ [NL]))) as [->|]; [|safe_step].
  safe_step. apply H; try congruence.
  rw Hw Hc Hoff /write_at /= /strlen Nat2Z.id firstn_all drop_nil app_nil_r //.
Qed.

Lemma open_flags : flag (Z.lor O_RDWR O_CREAT) 512 = false.
Proof. done. Qed.

Lemma createPidFile_safe p prog path flags s :
  in_int p → safe (createPidFile p prog path flags)
    (λ fd s', pid_file_of p path flags fd (t_os s')) s.
Proof.
  intros Hp. rw /createPidFile. do 2 safe_step. intros fd k1 E1.
  destruct (lo_open_ok _ _ _ _ _ _ _ E1 open_flags) as ((ino & Ho & Hn & Hoff & _) & _).
  assert (∀ k, named k = named k1 → opened k = opened k1 → offset k = offset k1 →
    (flag flags CPF_CLOEXEC = true → flag (fdflags k p fd) FD_CLOEXEC = true) →
    safe (lock_pid_file p fd prog path ;; write_pid_file p fd path)
      (λ fd s', pid_file_of p path flags fd (t_os s')) (TProc (t_io s) k)) as Hrest.
  { intros k G1 G2 G3 Hf. safe_step. apply (safe_lock_pid_file _ _ _ _ ino); cbn; [congruence|].
    intros k2 H1 H2 H3 H4 Hown. apply (safe_write_pid_file _ _ _ ino); cbn; [done|congruence..|].
    intros k3 I1 I2 I3 I4 Hc. exists ino. rw /owns_file I4 I3 H4 I2 H2 G2 I1 H1 G1. done. }
  safe_step. destruct (flag flags CPF_CLOEXEC) eqn:Ef; cbn [when].
  - apply safe_set_cloexec. cbn. intros k G1 G2 G3 G4 G5 Hf. by apply Hrest.
  - safe_step. by apply Hrest.
Qed.

(** A process that finds the file locked by another ends, and the file is as it was. *)
Lemma wp_busy q prog path flags ino l s :
  named (t_os s) path = Some ino → l ∈ locks (t_os s) ino →
  conflicts q F_WRLCK (0, None) l = true →
  wp (createPidFile q prog path flags) (λ _ _, False)
    (λ s', contents (t_os s') ino = contents (t_os s) ino ∧ locks (t_os s') ino = locks (t_os s) ino) s.
Proof.
  intros Hn Hl Hc. rw /createPidFile. apply wp_bind, wp_tchecked;
    [|intros e k io' E; exact (lo_open_err _ _ _ _ _ _ _ E ino)].
  intros fd k1 E1. destruct (lo_open_ok _ _ _ _ _ _ _ E1 open_flags) as ((i & Ho & _ & _ & Hi) & Hf).
  specialize (Hi _ Hn). subst i. destruct (Hf _ _ Hn) as (_ & H2 & H3).
  assert (∀ k io, opened k = opened k1 → contents k = contents k1 → locks k = locks k1 →
    wp (lock_pid_file q fd prog path ;; write_pid_file q fd path) (λ _ _, False)
      (λ s', contents (t_os s') ino = contents (t_os s) ino ∧ locks (t_os s') ino = locks (t_os s) ino)
      (TProc io k)) as Hlock.
  { intros k io G2 G4 G5. rw -H2 -H3 -G4 -G5. apply wp_bind. rw /lock_pid_file /lockRegion /lockReg.
    apply wp_bind, wp_bind, wp_tcall; cbn.
    - intros fl k2 E. exfalso.
      destruct (lo_setlk_busy q fd F_WRLCK 0 0 0 ino k l) as [B|B];
        [congruence|congruence|done|by rw E in B|by rw E in B].
    - intros e k2 io' E. destruct (lo_setlk_frame _ _ _ _ _ _ E) as (_ & _ & _ & _ & F4 & F5).
      apply wp_bind. cbn.
      destruct (_ || _); [apply wp_tfatal|apply wp_terrExit]; intros io2; cbn; by rw F4 (F5 e). }
  apply wp_bind. destruct (flag flags CPF_CLOEXEC); cbn [when]; [|by apply Hlock].
  rw /set_cloexec. apply wp_bind, wp_tchecked; cbn.
  - intros v k2 [_ ->]%lo_getfd_ok. apply wp_tchecked; cbn.
    + intros [] k3 [_ (? & ? & ? & ? & ?)]%lo_setfd_ok. by apply Hlock.
    + intros e k3 io' [_ (? & ? & ? & G4 & G5)]%lo_setfd_ok. cbn. by rw G4 G5.
  - by intros e k2 io' [_ ->]%lo_getfd_ok.
Qed.

(** [createPidFile] returns a descriptor only with the PID file in place: open, locked as
    a whole by this process and by no other, holding its process ID as a line,
    with the close-on-exec flag when that was asked for; in every other case
    the process ends. *)
Lemma createPidFile_spec p prog path flags s :
  in_int p →
  safe (createPidFile p prog path flags) (λ fd s', pid_file_of p path flags fd (t_os s')) s.
Proof. apply createPidFile_safe. Qed.

(** C12: A single instance: once a process has created the PID file, another process that
    calls [createPidFile] on it while the lock is held ends without having
    changed the file. *)
Theorem pid_file_single_instance p q prog path flags s fd s1 io :
  in_int p → in_int q → q ≠ p →
  createPidFile p prog path flags s = (Ret fd, s1) →
  ∃ o s2 ino, createPidFile q prog path flags (TProc io (t_os s1)) = (o, s2) ∧
    ((∃ n, o = Exit n) ∨ o = Abort) ∧ opened (t_os s1) p fd = Some ino ∧
    contents (t_os s2) ino = fmt_d p ++ [NL] ∧ owns_file (t_os s2) p ino.
Proof.
  intros Hp Hq Hne Hr. pose proof (createPidFile_safe p prog path flags s Hp) as Hs.
  rw /safe Hr in Hs. destruct Hs as (ino & Ho & Hn & [Hin Hall] & Hc & _).
  destruct (safe_never_returns _ _ _ _ (createPidFile_safe q prog path flags (TProc io (t_os s1)) Hq)
    (wp_busy q prog path flags ino _ (TProc io (t_os s1)) Hn Hin ltac:(rw /conflicts /=; lia)))
    as (o & s2 & E & Hend & G1 & G2).
  exists o, s2, ino. rw /owns_file G2 G1. done.
Qed.

(** [regionIsLocked] returns -1 after an error; 0 when no lock of another process stands in
    the way, and then the kernel has no reason to refuse the lock; and otherwise the
    process that holds such a lock, and then a request for the lock fails. *)
Lemma regionIsLocked_spec p fd ty st ln ino s r s' :
  opened (t_os s) p fd = Some ino →
  regionIsLocked p fd ty SEEK_SET st ln s = (Ret r, s') → r ≠ -1 →
  t_os s' = t_os s ∧
  (r = 0 ∧ Forall (λ l, conflicts p ty (region st ln) l = false) (locks (t_os s) ino) ∨
   (∃ l, l ∈ locks (t_os s) ino ∧ conflicts p ty (region st ln) l = true ∧ lk_pid l = r) ∧
   (lockRegion p fd ty SEEK_SET st ln s').1 = Ret (-1)).
Proof.
  intros Ho. rw /regionIsLocked /mbind /M_bind /tcall /mbind /M_bind /tsys.
  destruct (lo_fcntl p fd F_GETLK _ (t_os s)) as [[e|fl] k] eqn:E; cbn; intros [= <- <-] Hr; [done|].
  destruct (lo_getlk_ok _ _ _ _ _ _ _ _ _ _ E Ho) as [-> Hl]. split; [done|].
  destruct (l_type fl =? F_UNLCK); [by left|right]. split; [done|].
  destruct Hl as (l & Hl & Hc & _).
  rw /lockRegion /lockReg /mbind /M_bind /tcall /mbind /M_bind /tsys /=.
  destruct (lo_setlk_busy p fd ty st ln 0 ino _ l Ho Hl Hc) as [B|B];
    destruct (lo_fcntl p fd F_SETLK _ _) as [r k']; cbn in B; by subst r.
Qed.
End pid_file.

(** ** A kernel with files of their own for all pathnames *)

Module LockSim.

Record kern := Kern {
  k_next : Z;
  k_fds : gmap (Z * Z) Z;
  k_offs : gmap (Z * Z) nat;
  k_flags : gmap (Z * Z) Z;
  k_data : gmap Z cstring;
  k_locks : gmap Z (list plock);
}.

Definition ino_of (path : cstring) : Z := Z.pos (encode path).
Definition data_of (k : kern) (ino : Z) : cstring := default [] (k_data k !! ino).
Definition locks_of (k : kern) (ino : Z) : list plock := default [] (k_locks k !! ino).
Definition off_of (k : kern) (p fd : Z) : nat := default O (k_offs k !! (p, fd)).
Definition flags_of (k : kern) (p fd : Z) : Z := default 0 (k_flags k !! (p, fd)).

Definition sim_fcntl (p fd cmd : Z) (fl : flock) (k : kern) : res flock * kern :=
  match k_fds k !! (p, fd) with
  | None => (inl EBADF, k)
  | Some ino =>
      let r := region (l_start fl) (l_len fl) in
      let bad := list_find (λ l, conflicts p (l_type fl) r l = true) (locks_of k ino) in
      if cmd =? F_GETLK then
        match bad with
        | None => (inr (Flock F_UNLCK (l_whence fl) (l_start fl) (l_len fl) (l_pid fl)), k)
        | Some (_, l) =>
            (inr (Flock (if lk_type l =? F_UNLCK then F_RDLCK else lk_type l) SEEK_SET (lk_from l) 0 (lk_pid l)), k)
        end
      else
        match bad with
        | Some _ => (inl EAGAIN, k)
        | None => (inr fl, Kern (k_next k) (k_fds k) (k_offs k) (k_flags k) (k_data k)
                     (<[ino := HeldLock p (l_type fl) r.1 r.2 :: locks_of k ino]> (k_locks k)))
        end
  end.

Definition sim_open (p : Z) (path : cstring) (fl mode : Z) (k : kern) : res Z * kern :=
  (inr (k_next k), Kern (k_next k + 1) (<[(p, k_next k) := ino_of path]> (k_fds k))
                     (<[(p, k_next k) := O]> (k_offs k)) (k_flags k) (k_data k) (k_locks k)).

#[export] Instance lock_sim_os : LockOS kern := {
  lo_fcntl := sim_fcntl;
  lo_open := sim_open;
  lo_getfd p fd k := (inr (flags_of k p fd), k);
  lo_setfd p fd v k :=
    (inr tt, Kern (k_next k) (k_fds k) (k_offs k) (<[(p, fd) := v]> (k_flags k)) (k_data k) (k_locks k));
  lo_ftruncate p fd n k :=
    match k_fds k !! (p, fd) with
    | None => (inl EBADF, k)
    | Some ino =>
        (inr tt, Kern (k_next k) (k_fds k) (k_offs k) (k_flags k)
                   (<[ino := take (Z.to_nat n) (data_of k ino)]> (k_data k)) (k_locks k))
    end;
  lo_write p fd d k :=
    match k_fds k !! (p, fd) with
    | None => (inl EBADF, k)
    | Some ino =>
        (inr (strlen d), Kern (k_next k) (k_fds k)
           (<[(p, fd) := (off_of k p fd + length d)%nat]> (k_offs k)) (k_flags k)
           (<[ino := write_at (data_of k ino) (off_of k p fd) d]> (k_data k)) (k_locks k))
    end;
}.

Lemma no_conflict p ty r ls :
  list_find (λ l, conflicts p ty r l = true) ls = None → Forall (λ l, conflicts p ty r l = false) ls.
Proof.
  intros H%list_find_None. eapply Forall_impl; [exact H|]. intros l Hl. cbn in Hl.
  by destruct (conflicts p ty r l).
Qed.

#[export] Program Instance lock_sim_ok : LockOSOk kern := {
  named _ path := Some (ino_of path);
  opened k p fd := k_fds k !! (p, fd);
  offset := off_of;
  fdflags := flags_of;
  contents := data_of;
  locks := locks_of;
}.
Next Obligation.
  intros p path fl mode fd k k' [= <- <-] _. split; [|done].
  exists (ino_of path). rw /off_of /= lookup_insert_eq. split_and!; try done.
  - by rw lookup_insert_eq.
  - congruence.
Qed.
Next Obligation. done. Qed.
Next Obligation. intros p fd r k k' [= <- <-]. split; [congruence|done]. Qed.
Next Obligation.
  intros p fd v r k k' [= <- <-]. split; [|done]. by rw /flags_of /= lookup_insert_eq.
Qed.
Next Obligation.
  intros p fd ty st ln x fl ino k k' H Ho. move: H. rw /= /sim_fcntl Ho /=.
  destruct (list_find _ _) as [[i l]|] eqn:E; intros [= <- <-]; (split; [done|]); cbn.
  - apply list_find_Some in E as (Hl & Hc & _).
    destruct (lk_type l =? F_UNLCK) eqn:El; cbn; rw ?El; exists l;
      (split; [exact (list_elem_of_lookup_2 _ _ _ Hl)|done]).
  - by apply no_conflict.
Qed.
Next Obligation.
  intros p fd ty st ln x fl ino k k' H Ho _. move: H. rw /= /sim_fcntl Ho /=.
  destruct (list_find _ _) as [[i l]|] eqn:E; intros [= <- <-].
  rw /locks_of /= lookup_insert_eq /=. split_and!; [by apply no_conflict|by left|].
  intros l Hl. rw elem_of_cons. split; [|by right]. intros [->|?]; done.
Qed.
Next Obligation.
  intros p fd ty st ln x ino k l Ho Hl Hc. left. rw /= /sim_fcntl Ho /=.
  destruct (list_find _ _) as [[i l']|] eqn:E; [done|]. exfalso.
  apply no_conflict in E. rw Forall_forall in E. specialize (E l Hl). congruence.
Qed.
Next Obligation.
  intros p fd fl r k k'. rw /= /sim_fcntl. destruct (k_fds k !! (p, fd)); [|by intros [= <- <-]].
  cbn. destruct (list_find _ _); by intros [= <- <-].
Qed.
Next Obligation.
  intros p fd k k' ino H Ho. move: H. rw /= Ho. intros [= <-]. by rw /data_of /= lookup_insert_eq.
Qed.
Next Obligation.
  intros p fd d n k k' ino H Ho. move: H. rw /= Ho. intros [= <- <-].
  rw /data_of /= lookup_insert_eq /= /strlen Nat2Z.id firstn_all. split_and!; try done; lia.
Qed.

#[export] Instance lock_sim_env : TlpiEnv kern := { te_strerror _ := cs "error"; te_dumpcore := None }.

Definition boot : tproc kern := TProc (EState [] [] [] 0) (Kern 3 ∅ ∅ ∅ ∅ ∅).
Definition daemon : M (tproc kern) Z := createPidFile 17 (cs "d") (cs "/run/d.pid") CPF_CLOEXEC.
End LockSim.
Import LockSim.

Lemma createPidFile_spec_witness :
  ∃ fd s', LockSim.daemon LockSim.boot = (Ret fd, s') ∧
    pid_file_of 17 (cs "/run/d.pid") CPF_CLOEXEC fd (t_os s').
Proof.
  pose proof (createPidFile_spec 17 (cs "d") (cs "/run/d.pid") CPF_CLOEXEC LockSim.boot) as H.
  specialize (H ltac:(rw /in_int /INT_MIN /INT_MAX; lia)). rw /safe in H.
  destruct (createPidFile _ _ _ _ LockSim.boot) as [o s'] eqn:E in H.
  assert (o = Ret 3) as -> by (apply (f_equal fst) in E; vm_compute in E; by subst).
  exists 3, s'. split; [exact E|exact H].
Defined.

Lemma pid_file_single_instance_witness :
  ∃ o s2 ino, createPidFile 18 (cs "d") (cs "/run/d.pid") CPF_CLOEXEC
      (TProc (EState [] [] [] 0) (t_os (LockSim.daemon LockSim.boot).2)) = (o, s2) ∧
    ((∃ n, o = Exit n) ∨ o = Abort) ∧ opened (t_os (LockSim.daemon LockSim.boot).2) 17 3 = Some ino ∧
    contents (t_os s2) ino = fmt_d 17 ++ [NL] ∧ owns_file (t_os s2) 17 ino.
Proof.
  apply (pid_file_single_instance 17 18 (cs "d") (cs "/run/d.pid") CPF_CLOEXEC LockSim.boot 3
    (LockSim.daemon LockSim.boot).2 (EState [] [] [] 0));
    [rw /in_int /INT_MIN /INT_MAX; lia..|done|].
  vm_compute. reflexivity.
Defined.

Lemma regionIsLocked_spec_witness :
  ∃ ino, opened (t_os (LockSim.daemon LockSim.boot).2) 17 3 = Some ino ∧
  (regionIsLocked 17 3 F_WRLCK SEEK_SET 0 10 (LockSim.daemon LockSim.boot).2).1 = Ret 0 ∧
  Forall (λ l, conflicts 17 F_WRLCK (region 0 10) l = false) (locks (t_os (LockSim.daemon LockSim.boot).2) ino).
Proof.
  exists (LockSim.ino_of (cs "/run/d.pid")). split; [by vm_compute|].
  pose proof (regionIsLocked_spec 17 3 F_WRLCK 0 10 (LockSim.ino_of (cs "/run/d.pid"))
    (LockSim.daemon LockSim.boot).2 0) as H.
  destruct (regionIsLocked 17 3 F_WRLCK SEEK_SET 0 10 (LockSim.daemon LockSim.boot).2) as [o s'] eqn:E.
  assert (o = Ret 0) as -> by (apply (f_equal fst) in E; vm_compute in E; by subst).
  destruct (H s') as [_ [[_ Hf]|[(l & Hl & _ & Hz) _]]]; [by vm_compute|done|done|done|].
  vm_compute in Hl. apply list_elem_of_singleton in Hl. by subst l.
Defined.
