(* ===== verification/FilePerms.v ===== *)
(** * File permissions as text: [files/file_perms.c]

    [filePermStr] prints a permission mask the way ls(1) does.  The reference
    [ls_perms] computes the string a triad at a time from shifted bits, and
    [read_perms] reads such a string back. *)

From S2P Require Import Prelude.

Definition S_IRUSR : Z := 256.
Definition S_IWUSR : Z := 128.
Definition S_IXUSR : Z := 64.
Definition S_IRGRP : Z := 32.
Definition S_IWGRP : Z := 16.
Definition S_IXGRP : Z := 8.
Definition S_IROTH : Z := 4.
Definition S_IWOTH : Z := 2.
Definition S_IXOTH : Z := 1.
Definition S_ISUID : Z := 2048.
Definition S_ISGID : Z := 1024.
Definition S_ISVTX : Z := 512.
Definition FP_SPECIAL : Z := 1.
Definition STR_SIZE : nat := 10.

Open Scope char_scope.

(** The text left in the static buffer. *)
Definition filePermStr (perm flags : Z) : cstring :=
  snprintf STR_SIZE
    [if flag perm S_IRUSR then "r" else "-"; if flag perm S_IWUSR then "w" else "-";
     if flag perm S_IXUSR
     then if flag perm S_ISUID && flag flags FP_SPECIAL then "s" else "x"
     else if flag perm S_ISUID && flag flags FP_SPECIAL then "S" else "-";
     if flag perm S_IRGRP then "r" else "-"; if flag perm S_IWGRP then "w" else "-";
     if flag perm S_IXGRP
     then if flag perm S_ISGID && flag flags FP_SPECIAL then "s" else "x"
     else if flag perm S_ISGID && flag flags FP_SPECIAL then "S" else "-";
     if flag perm S_IROTH then "r" else "-"; if flag perm S_IWOTH then "w" else "-";
     if flag perm S_IXOTH
     then if flag perm S_ISVTX && flag flags FP_SPECIAL then "t" else "x"
     else if flag perm S_ISVTX && flag flags FP_SPECIAL then "T" else "-"].

(** ** The reference *)

(** A triad of three permission bits, with the letters for a set special bit. *)
Definition triad (bits : Z) (special : bool) (lower upper : ascii) : cstring :=
  [if Z.testbit bits 2 then "r" else "-"; if Z.testbit bits 1 then "w" else "-";
   match Z.testbit bits 0, special with
   | true, true => lower | true, false => "x" | false, true => upper | false, false => "-"
   end].

Definition ls_perms (perm : Z) (show_special : bool) : cstring :=
  triad (Z.shiftr perm 6) (show_special && Z.testbit perm 11) "s" "S" ++
  triad (Z.shiftr perm 3) (show_special && Z.testbit perm 10) "s" "S" ++
  triad perm (show_special && Z.testbit perm 9) "t" "T".

(** Reading a triad back: the three bits and the special bit. *)
Definition read_triad (s : cstring) : option (Z * bool * cstring) :=
  match s with
  | r :: w :: x :: rest =>
      rb ← (if Ascii.eqb r "r" then Some 4 else if Ascii.eqb r "-" then Some 0 else None) ;
      wb ← (if Ascii.eqb w "w" then Some 2 else if Ascii.eqb w "-" then Some 0 else None) ;
      '(xb, sp) ← (if Ascii.eqb x "x" then Some (1, false)
                   else if Ascii.eqb x "-" then Some (0, false)
                   else if Ascii.eqb x "s" || Ascii.eqb x "t" then Some (1, true)
                   else if Ascii.eqb x "S" || Ascii.eqb x "T" then Some (0, true) else None) ;
      Some (rb + wb + xb, sp, rest)
  | _ => None
  end.

Definition read_perms (s : cstring) : option Z :=
  '(u, us, s) ← read_triad s ;
  '(g, gs, s) ← read_triad s ;
  '(o, os, s) ← read_triad s ;
  match s with
  | [] => Some (Z.b2z us * 2048 + Z.b2z gs * 1024 + Z.b2z os * 512 + u * 64 + g * 8 + o)
  | _ => None
  end.

(** ** Correctness *)

Lemma flag_testbit perm n : 0 ≤ n → flag perm (2 ^ n) = Z.testbit perm n.
Proof.
  intros Hn. rw /flag. destruct (Z.testbit perm n) eqn:E.
  - apply negb_true_iff, Z.eqb_neq. intros H.
    assert (Z.testbit (Z.land perm (2 ^ n)) n = true) as Hb by (by rw Z.land_spec E Z.pow2_bits_true).
    by rw H Z.bits_0 in Hb.
  - apply negb_false_iff, Z.eqb_eq, Z.bits_inj'. intros m Hm.
    rw Z.land_spec Z.bits_0 Z.pow2_bits_eqb //. destruct (Z.eqb_spec n m) as [->|]; [by rw E|].
    apply andb_false_r.
Qed.

Lemma filePermStr_triads perm flags :
  filePermStr perm flags = ls_perms perm (Z.testbit flags 0).
Proof.
  rw /filePermStr /ls_perms /triad !Z.shiftr_spec //; cbn [Z.add Pos.add Pos.add_carry Pos.succ].
  rw (flag_testbit _ 8) // (flag_testbit _ 7) // (flag_testbit _ 6) // (flag_testbit _ 5) //
    (flag_testbit _ 4) // (flag_testbit _ 3) // (flag_testbit _ 2) // (flag_testbit _ 1) //
    !(flag_testbit _ 0) // (flag_testbit _ 11) // (flag_testbit _ 10) // (flag_testbit _ 9) //.
  rw !(andb_comm (Z.testbit flags 0)) snprintf_fits; [rw /STR_SIZE /=; lia|].
  cbn [app]. repeat f_equal; by destruct (Z.testbit perm _), (_ && _).
Qed.

Lemma ls_perms_low perm b : ls_perms perm b = ls_perms (Z.land perm 4095) b.
Proof.
  assert (∀ i, 0 ≤ i < 12 → Z.testbit (Z.land perm 4095) i = Z.testbit perm i) as H.
  { intros i Hi. by rw Z.land_spec (Z.ones_spec_low 12) ?andb_true_r. }
  rw /ls_perms /triad !Z.shiftr_spec //; cbn [Z.add Pos.add Pos.add_carry Pos.succ]. by rw !H.
Qed.

Lemma read_ls_perms q b :
  0 ≤ q < 4096 → read_perms (ls_perms q b) = Some (Z.land q (if b then 4095 else 511)).
Proof.
  intros Hq.
  assert (∀ b, forallb (λ q, bool_decide (read_perms (ls_perms q b) =
             Some (Z.land q (if b then 4095 else 511)))) (seqZ 0 4096) = true) as H
    by (intros []; by vm_compute).
  specialize (H b). rw forallb_forall in H.
  apply (bool_decide_eq_true_1 _), H, list_elem_of_In, elem_of_seqZ. lia.
Qed.

(** For every mask and flags, [filePermStr] prints what the reference computes by triads,
    the special bits showing exactly when FP_SPECIAL is asked for; and reading
    the text back gives the permission bits that it shows. *)
Lemma filePermStr_correct perm flags :
  filePermStr perm flags = ls_perms perm (Z.testbit flags 0) ∧
  read_perms (filePermStr perm flags) =
    Some (Z.land perm (if Z.testbit flags 0 then 4095 else 511)).
Proof.
  split; [apply filePermStr_triads|]. rw filePermStr_triads ls_perms_low read_ls_perms.
  - rw (Z.land_ones _ 12) //. apply Z.mod_pos_bound. done.
  - rw -Z.land_assoc. by destruct (Z.testbit flags 0).
Qed.
