(* ===== verification/SvMsg.v ===== *)
(** * The file server on message queues: [svmsg/svmsg_file_server.c] and
      [svmsg/svmsg_file_client.c]

    A message is its type and its bytes.  The server's child reads the file
    through the interface [Stream] and sends its blocks to the client's
    queue; the client counts what it receives.  MsgTransfer has the two beside each other. *)

From S2P Require Import Prelude CStdlib ErrFns GetNum Tlpi SockIO.

Abbreviation msg := (Z * list ascii)%type.

Definition SERVER_KEY : Z := 0x1aaaaaa1.
Definition IPC_PRIVATE : Z := 0.
(** IPC_CREAT | IPC_EXCL | S_IRUSR | S_IWUSR | S_IWGRP and the client's two masks. *)
Definition server_mode : Z := Z.lor (Z.lor 512 1024) (Z.lor (Z.lor 256 128) 16).
Definition client_mode : Z := Z.lor (Z.lor 256 128) 16.
Definition RESP_MSG_SIZE : nat := Z.to_nat 8192.
Definition REQ_MSG_SIZE : nat := 4 + PATH_MAX.
Definition RESP_MT_FAILURE : Z := 1.
Definition RESP_MT_DATA : Z := 2.
Definition RESP_MT_END : Z := 3.

(** msgrcv is called with type and flags 0: the first message, waiting for it. *)
Class MsgOS (K : Type) := {
  mq_stream :: Stream K;
  mq_msgget : Z → Z → K → res Z * K;
  mq_msgsnd : Z → msg → K → res unit * K;
  mq_msgrcv : Z → nat → K → res msg * K;
  mq_rmid : Z → K → res unit * K;
  mq_open : cstring → K → res Z * K;
  mq_fork : K → res Z * K;
  mq_reap_on_SIGCHLD : K → res unit * K;
  mq_waitpid : K → res Z * K;
  mq_atexit : K → bool * K;
}.

Section programs.
Context {K : Type} `{!TlpiEnv K, !MsgOS K}.
Abbreviation T := (M (tproc K)).

(** ** The request *)

(** [struct requestMsg] after the type: the client's queue and the pathname. *)
Definition encode_req (clientId : Z) (pathname : cstring) : list ascii :=
  put_le32 (wrapU 32 clientId) ++ pathname ++ replicate (PATH_MAX - length pathname) NUL.
Definition req_clientId (req : list ascii) : Z := to_int (le32 req).
Definition req_pathname (req : list ascii) : cstring := until_nul (drop 4 req).

(** ** The server *)

(** The handler keeps [errno]. *)
Fixpoint reap_loop (fuel : nat) : T unit :=
  match fuel with
  | O => stop NoFuel
  | S f =>
      r ← tcall mq_waitpid ;
      match r with Some pid => if 0 <? pid then reap_loop f else mret tt | None => mret tt end
  end.
Definition grimReaper (fuel : nat) : T unit :=
  savedErrno ← errno ; reap_loop fuel ;; io (set_errno savedErrno).

Fixpoint send_file (fuel : nat) (fd clientId : Z) : T unit :=
  match fuel with
  | O => stop NoFuel
  | S f =>
      r ← tcall (st_read fd RESP_MSG_SIZE) ;
      match r with
      | None | Some [] => mret tt
      | Some d =>
          w ← tcall (mq_msgsnd clientId (RESP_MT_DATA, d)) ;
          match w with None => mret tt | Some _ => send_file f fd clientId end
      end
  end.

Definition serveRequest (fuel : nat) (req : list ascii) : T unit :=
  let clientId := req_clientId req in
  fd ← tcall (mq_open (req_pathname req)) ;
  match fd with
  | None =>
      tcall (mq_msgsnd clientId
        (RESP_MT_FAILURE, snprintf RESP_MSG_SIZE (cs "Couldn't open") ++ [NUL])) ;;
      texit EXIT_FAILURE
  | Some fd =>
      send_file fuel fd clientId ;;
      tcall (mq_msgsnd clientId (RESP_MT_END, [])) ;;
      mret tt
  end.

(** The loop over requests; [req] is the buffer that receives them.  It ends
    when the loop of the source does, and in the child with [_exit]. *)
Fixpoint server_loop (fuel : nat) (serverId : Z) (req : list ascii) : T unit :=
  match fuel with
  | O => stop NoFuel
  | S f =>
      r ← tcall (mq_msgrcv serverId REQ_MSG_SIZE) ;
      match r with
      | None =>
          e ← errno ;
          if e =? EINTR then server_loop f serverId req else terrMsg (cs "msgrcv")
      | Some (_, d) =>
          let req := store req 0 d in
          pid ← tcall mq_fork ;
          match pid with
          | None => terrMsg (cs "fork")
          | Some 0 => serveRequest f req ;; exit EXIT_SUCCESS
          | Some _ => server_loop f serverId req
          end
      end
  end.

Definition msg_server_main (fuel : nat) (req : list ascii) : T unit :=
  serverId ← tchecked (cs "msgget") (mq_msgget SERVER_KEY server_mode) ;
  tchecked (cs "sigaction") mq_reap_on_SIGCHLD ;;
  server_loop fuel serverId req ;;
  tchecked (cs "msgctl") (mq_rmid serverId) ;;
  texit EXIT_SUCCESS.

(** ** The client *)

(** The loop over data messages, entered with the type of the last one. *)
Fixpoint recv_rest (fuel : nat) (clientId mtype totBytes numMsgs : Z) : T (Z * Z) :=
  match fuel with
  | O => stop NoFuel
  | S f =>
      if mtype =? RESP_MT_DATA then
        r ← tcall (mq_msgrcv clientId RESP_MSG_SIZE) ;
        match r with
        | None => terrExit (cs "msgrcv")
        | Some (t, d) => recv_rest f clientId t (totBytes + strlen d) (to_int (numMsgs + 1))
        end
      else mret (totBytes, numMsgs)
  end.

Definition received_line (totBytes numMsgs : Z) : cstring :=
  cs "Received " ++ fmt_d totBytes ++ cs " bytes (" ++ fmt_d numMsgs ++ cs " messages)" ++ [NL].

(** From the first response to the end.  Printing a failure message that is
    not terminated would read on past it. *)
Definition receive_file (fuel : nat) (clientId : Z) : T unit :=
  r ← tcall (mq_msgrcv clientId RESP_MSG_SIZE) ;
  match r with
  | None => terrExit (cs "msgrcv")
  | Some (t, d) =>
      if t =? RESP_MT_FAILURE then
        (if bool_decide (NUL ∈ d) then tprintf (until_nul d ++ [NL]) else stop Crash) ;;
        texit EXIT_FAILURE
      else
        n ← recv_rest fuel clientId t (strlen d) 1 ;
        tprintf (received_line n.1 n.2) ;;
        texit EXIT_SUCCESS
  end.

(** [atexit(removeQueue)]. *)
Definition with_removeQueue {A} (clientId : Z) (m : T A) : T A := λ s,
  match m s with
  | (Exit n, s') => (tchecked (cs "msgctl") (mq_rmid clientId) ;; exit n) s'
  | r => r
  end.

Definition msg_client_main (fuel : nat) (argv : list cstring) : T unit :=
  match argv with
  | [prog; path] =>
      if bool_decide (path = cs "--help") then tusageErr (prog ++ cs " pathname" ++ [NL]) else
      if Z.of_nat PATH_MAX - 1 <? strlen path
      then tcmdLineErr (cs "pathname too long (max: " ++ fmt_d (Z.of_nat PATH_MAX - 1) ++
                        cs " bytes)" ++ [NL])
      else
        serverId ← tchecked (cs "msgget - server message queue") (mq_msgget SERVER_KEY 128) ;
        clientId ← tchecked (cs "msgget - client message queue") (mq_msgget IPC_PRIVATE client_mode) ;
        ok ← tsys mq_atexit ;
        if negb ok then terrExit (cs "atexit")
        else with_removeQueue clientId (
          tchecked (cs "msgsnd") (mq_msgsnd serverId (1, encode_req clientId path)) ;;
          receive_file fuel clientId)
  | prog :: _ => tusageErr (prog ++ cs " pathname" ++ [NL])
  | [] => stop Crash
  end.
End programs.

(** ** What the kernel promises *)

(** While one process uses it, a queue is first in, first out; reading the file [fd] and
    sending do not interfere. *)
Class MsgOSOk (K : Type) `{!MsgOS K} (fd : Z) `{!StreamOk K fd} := {
  queue : K → Z → list msg;
  mq_snd_ok q m k u k' : mq_msgsnd q m k = (inr u, k') →
    queue k' q = queue k q ++ [m] ∧ pending (fd := fd) k' = pending (fd := fd) k;
  mq_snd_err q m k e k' : mq_msgsnd q m k = (inl e, k') → queue k' q = queue k q;
  mq_rcv_ok q n k m k' : mq_msgrcv q n k = (inr m, k') → queue k q = m :: queue k' q;
  mq_read_frame n k r k' q : st_read fd n k = (r, k') → queue k' q = queue k q;
}.

Lemma RESP_MSG_SIZE_pos : (0 < RESP_MSG_SIZE)%nat.
Proof. apply Nat.ltb_lt. by vm_compute. Qed.

Section transfer.
Context {K : Type} `{!TlpiEnv K, !MsgOS K} (fd q : Z) `{!StreamOk K fd, !MsgOSOk K fd}.
Implicit Types s : tproc K.
Abbreviation file k := (pending (fd := fd) k).

Definition data (d : list ascii) : msg := (RESP_MT_DATA, d).
Definition block (d : list ascii) : Prop := (0 < length d ≤ RESP_MSG_SIZE)%nat.

(** A call of [send_file] has failed. *)
Definition call_failed : Prop :=
  (∃ (k : K) e k', st_read fd RESP_MSG_SIZE k = (inl e, k')) ∨
  (∃ d (k : K) e k', mq_msgsnd q (data d) k = (inl e, k')).

(** What [send_file] sends: blocks of the file, in order, from its start; all
    of it unless a call fails. *)
Definition sent_blocks (k : K) (blocks : list (list ascii)) : Prop :=
  Forall block blocks ∧ concat blocks `prefix_of` file k ∧
  (concat blocks = file k ∨ call_failed).

Lemma send_file_wp fuel s :
  (length (file (t_os s)) < fuel)%nat →
  wp (send_file fuel fd q)
    (λ _ s', ∃ blocks, sent_blocks (t_os s) blocks ∧
       queue (t_os s') q = queue (t_os s) q ++ (data <$> blocks)) (λ _, False) s.
Proof.
  elim: fuel s => [|fuel IH] s Hf; [lia|]. cbn [send_file].
  assert (∀ s', queue (t_os s') q = queue (t_os s) q →
    file (t_os s) = [] ∨ call_failed →
    ∃ blocks, sent_blocks (t_os s) blocks ∧
       queue (t_os s') q = queue (t_os s) q ++ (data <$> blocks)) as Hstop.
  { intros s' Hq Hr. exists []. rw Hq app_nil_r. split; [|done].
    split_and!; [done|by eexists|]. destruct Hr as [Hr|Hr]; [left; by rw Hr|by right]. }
  apply wp_bind, wp_tcall.
  2:{ intros e k io' Hr. apply wp_ret, Hstop; cbn; [eapply mq_read_frame; eassumption|].
      right. left. eexists _, _, _. exact Hr. }
  intros d k Hr. pose proof (mq_read_frame _ _ _ _ q Hr) as Hq.
  destruct (st_read_ok _ _ _ _ Hr) as (Hp & Hl & Hn & _ & _); [exact RESP_MSG_SIZE_pos|].
  destruct d as [|c d]; [apply wp_ret, Hstop; [exact Hq|left; by apply Hn]|].
  apply wp_bind, wp_tcall.
  2:{ intros e k2 io' Hs. cbn [t_os] in Hs. apply wp_ret, Hstop; cbn; [by rw (mq_snd_err _ _ _ _ _ Hs) Hq|].
      right. right. eexists _, _, _, _. exact Hs. }
  intros u k2 Hs. cbn [t_os] in Hs. destruct (mq_snd_ok _ _ _ _ _ Hs) as [Hq2 Hp2].
  eapply wp_conseq; [apply IH; cbn; rw Hp2; rw Hp length_app /= in Hf; lia|].
  cbn. intros _ s' (blocks & (Hb & Hpre & Hall) & Hq3). exists ((c :: d) :: blocks).
  split.
  - split_and!.
    + constructor; [|done]. rw /block. cbn in *. lia.
    + rw Hp concat_cons. apply prefix_app. by rw -Hp2.
    + destruct Hall as [Hall|?]; [left; by rw concat_cons Hall Hp2 Hp|by right].
  - rw Hq3 Hq2 Hq fmap_cons -app_assoc. done.
Qed.

(** The client counts what stands in its queue up to the end message. *)
Definition receives : Prop :=
  ∀ (k : K) m r n, queue k q = m :: r → (length m.2 ≤ n)%nat → ∃ k', mq_msgrcv q n k = (inr m, k').

Lemma recv_rest_data f tot n :
  recv_rest (S f) q RESP_MT_DATA tot n =
    (r ← tcall (mq_msgrcv q RESP_MSG_SIZE) ;
     match r with
     | None => terrExit (cs "msgrcv")
     | Some (t, d) => recv_rest f q t (tot + strlen d) (to_int (n + 1))
     end).
Proof. done. Qed.

Lemma recv_rest_counts fuel blocks tot n s m r :
  receives → queue (t_os s) q = (data <$> blocks) ++ m :: r → Forall block blocks →
  m.1 ≠ RESP_MT_DATA → (length m.2 ≤ RESP_MSG_SIZE)%nat →
  (length blocks < fuel)%nat → 0 ≤ n → n + Z.of_nat (length blocks) < INT_MAX →
  ∃ k, recv_rest (S fuel) q RESP_MT_DATA tot n s =
    (Ret (tot + strlen (concat blocks) + strlen m.2, n + Z.of_nat (length blocks) + 1),
     TProc (t_io s) k).
Proof.
  intros Hrcv. elim: fuel blocks tot n s => [|fuel IH] blocks tot n s Hq Hb Hm Hlm Hf Hn Hi; [lia|].
  rw recv_rest_data. destruct blocks as [|d blocks]; cbn in Hq.
  - destruct (Hrcv _ _ _ RESP_MSG_SIZE Hq Hlm) as (k & E). rw (bind_Ret _ _ _ _ _ (tcall_ok _ _ _ _ E)).
    destruct m as [t d]. cbn in Hm |- *. apply Z.eqb_neq in Hm. rw Hm.
    exists k. rw to_int_id; [rw /in_int /INT_MIN; cbn in Hi; lia|]. 
    by rw !Z.add_0_r.
  - apply Forall_cons in Hb as [Hd Hb].
    destruct (Hrcv _ _ _ RESP_MSG_SIZE Hq (proj2 Hd)) as (k & E).
    rw (bind_Ret _ _ _ _ _ (tcall_ok _ _ _ _ E)). cbn [data fst snd].
    pose proof (mq_rcv_ok _ _ _ _ _ E) as Hq'. rw Hq in Hq'. injection Hq' as Hq'.
    cbn [length] in Hf, Hi.
    rw (to_int_id (n + 1)); [rw /in_int /INT_MIN; lia|].
    destruct (IH blocks (tot + strlen d) (n + 1) (TProc (t_io s) k)) as (k' & E'); try done; try lia.
    exists k'. rw E'. cbn [length].
    assert (tot + strlen (concat (d :: blocks)) = tot + strlen d + strlen (concat blocks)) as ->
      by (rw /strlen /= length_app; lia).
    by assert (n + 1 + Z.of_nat (length blocks) = n + Z.of_nat (S (length blocks))) as -> by lia.
Qed.

(** Between one byte and RESP_MSG_SIZE per block. *)
Lemma blocks_bounds blocks :
  Forall block blocks →
  strlen (concat blocks) ≤ Z.of_nat (length blocks) * Z.of_nat RESP_MSG_SIZE ∧
  Z.of_nat (length blocks) ≤ strlen (concat blocks).
Proof.
  induction 1 as [|d blocks [H1 H2] _ [IH1 IH2]]; [done|].
  rw concat_cons /strlen length_app in IH1 IH2 |- *. cbn [length]. nia.
Qed.

(** The request as the client builds it is what the server takes from it. *)
Lemma request_decodes path :
  in_int q → NUL ∉ path → (length path < PATH_MAX)%nat →
  req_clientId (encode_req q path) = q ∧ req_pathname (encode_req q path) = path.
Proof.
  intros Hq Hn Hl. rw /req_clientId /req_pathname /encode_req. split.
  - rw le32_put; [apply wrapU32_range|]. by apply to_int_wrapU.
  - change (drop 4 (put_le32 (wrapU 32 q) ++ path ++ replicate (PATH_MAX - length path) NUL))
      with (path ++ replicate (PATH_MAX - length path) NUL).
    destruct (PATH_MAX - length path)%nat eqn:E; [lia|].
    cbn [replicate]. by apply until_nul_app.
Qed.

(** A run of the client on the messages of a complete transfer. *)
Lemma receive_blocks fuel blocks s :
  receives → queue (t_os s) q = (data <$> blocks) ++ [(RESP_MT_END, [])] → Forall block blocks →
  (length blocks < fuel)%nat → Z.of_nat (length blocks) < INT_MAX →
  ∃ s', receive_file (S fuel) q s = (Exit EXIT_SUCCESS, s') ∧
    e_stdout (t_io s') = e_stdout (t_io s) ++ e_buffered (t_io s) ++
      received_line (strlen (concat blocks)) (Z.of_nat (length blocks) + 1).
Proof.
  intros Hrcv Hq Hb Hf Hi. rw /receive_file. destruct blocks as [|d blocks]; cbn in Hq.
  - destruct (Hrcv _ _ _ RESP_MSG_SIZE Hq) as (k & E); [cbn; lia|].
    rw (bind_Ret _ _ _ _ _ (tcall_ok _ _ _ _ E)). eexists. split; [reflexivity|].
    by rw /= app_assoc.
  - apply Forall_cons in Hb as [Hd Hb].
    destruct (Hrcv _ _ _ RESP_MSG_SIZE Hq (proj2 Hd)) as (k & E).
    rw (bind_Ret _ _ _ _ _ (tcall_ok _ _ _ _ E)).
    pose proof (mq_rcv_ok _ _ _ _ _ E) as Hq'. rw Hq in Hq'. injection Hq' as Hq'.
    cbn [length] in Hf, Hi.
    destruct (recv_rest_counts fuel blocks (strlen d) 1 (TProc (t_io s) k) (RESP_MT_END, []) [])
      as (k' & E'); try done; try (cbn; lia).
    cbn [data fst snd]. rw /= (bind_Ret _ _ _ _ _ E'). eexists. split; [reflexivity|].
    cbn -[received_line]. do 3 f_equal; rw /strlen ?length_app /=; lia.
Qed.

End transfer.

(** The handler of SIGCHLD leaves [errno] as it was. *)
Lemma grimReaper_errno {K : Type} `{!TlpiEnv K, !MsgOS K} fuel (s s' : tproc K) :
  grimReaper fuel s = (Ret tt, s') → e_errno (t_io s') = e_errno (t_io s).
Proof.
  rw /grimReaper /mbind /M_bind /=. destruct (reap_loop fuel s) as [[] s1]; try done.
  by intros [= <-].
Qed.

(** ** A kernel with one file and queues *)

Module MsgSim.
Record kern := Kern { k_file : list ascii; k_out : list ascii; k_queues : gmap Z (list msg) }.

Definition queue_of (k : kern) (q : Z) : list msg := default [] (k_queues k !! q).

#[export] Instance msg_sim_stream : Stream kern := {
  st_read _ n k := (inr (take n (k_file k)), Kern (drop n (k_file k)) (k_out k) (k_queues k));
  st_write _ d k := (inr (length d), Kern (k_file k) (k_out k ++ d) (k_queues k));
}.

#[export] Instance msg_sim_os : MsgOS kern := {
  mq_msgget _ _ k := (inr 7, k);
  mq_msgsnd q m k := (inr tt, Kern (k_file k) (k_out k) (<[q := queue_of k q ++ [m]]> (k_queues k)));
  mq_msgrcv q n k :=
    match queue_of k q with
    | m :: r => if (length m.2 <=? n)%nat then (inr m, Kern (k_file k) (k_out k) (<[q := r]> (k_queues k)))
                else (inl 7, k)
    | [] => (inl EINTR, k)
    end;
  mq_rmid _ k := (inr tt, k);
  mq_open path k := if bool_decide (path = cs "f") then (inr 3, k) else (inl ENOENT, k);
  mq_fork k := (inr 0, k);
  mq_reap_on_SIGCHLD k := (inr tt, k);
  mq_waitpid k := (inl 10, k);
  mq_atexit k := (true, k);
}.

#[export] Instance msg_sim_env : TlpiEnv kern := { te_strerror _ := cs "error"; te_dumpcore := None }.

#[export, refine] Instance msg_sim_stream_ok : StreamOk kern 3 := {
  pending := k_file; written := k_out; interrupts _ := O;
}.
Proof.
  - intros n k d k' [= <- <-] Hn. cbn. rw take_drop length_take. split_and!; try done; [lia|].
    destruct n; [lia|]. by destruct (k_file k).
  - done.
  - intros d k c k' [= <- <-] Hd. cbn. rw firstn_all. split_and!; try done. destruct d; [done|cbn; lia].
  - done.
Defined.

#[export, refine] Instance msg_sim_ok : MsgOSOk kern 3 := { queue := queue_of }.
Proof.
  - intros q m k u k' [= <- <-]. by rw /queue_of /= lookup_insert_eq.
  - done.
  - intros q n k m k'. cbn. destruct (queue_of k q) as [|m0 r] eqn:E; [done|].
    destruct (_ <=? n)%nat; [|done]. intros [= <- <-]. by rw /queue_of /= lookup_insert_eq.
  - by intros n k r k' q [= <- <-].
Defined.

Definition boot : tproc kern := TProc (EState [] [] [] 0) (Kern (cs "some text") [] ∅).
End MsgSim.
Import MsgSim.

(** A request served, and then received. *)
Example serve_and_receive :
  let '(o1, s1) := serveRequest 20 (encode_req 7 (cs "f")) MsgSim.boot in
  let '(o2, s2) := receive_file 21 7 (TProc (EState [] [] [] 0) (t_os s1)) in
  o1 = Ret tt ∧ o2 = Exit EXIT_SUCCESS ∧ e_stdout (t_io s2) = received_line 9 2.
Proof. by vm_compute. Qed.
