(* ===== verification/MsgTransfer.v ===== *)
(** * A file transfer over a message queue: the server's child of
      [svmsg/svmsg_file_server.c] beside the client [svmsg/svmsg_file_client.c]

    The two processes run at the same time and share the client's queue, which holds only so many bytes:
    a process that sends to a full queue waits.  A step is one system call
    of one of them, which may also fail. *)

From S2P Require Import Prelude CStdlib ErrFns GetNum Tlpi SockIO SvMsg.

(** ** The two processes *)

(** The child in [serveRequest]: before [open], before it sends the refusal, before [read], before it
    sends a block, before it sends the end message, and after it. *)
Inductive server_pc := VOpen | VRefuse | VRead | VSend (d : list ascii) | VEnd | VOver.

(** The client: before the first [msgrcv], at the test of the loop with the type of the last message and the two
    counts, before [msgrcv] in the loop; it has exited, has ended in [errExit], or has
    printed past the end of a message. *)
Inductive client_pc :=
  | CFirst | CTest (mtype totBytes numMsgs : Z) | CNext (totBytes numMsgs : Z)
  | COver (status : Z) | CDied | CCrashed.

(** [f_file] is what is left to read, [None] if the file cannot be opened; [f_queue] is [None] when the
    queue was removed; [f_got] are the messages the client has received; [f_lost] tells that
    a call of the child has failed. *)
Record transfer := Transfer {
  f_file : option (list ascii);
  f_server : server_pc;
  f_queue : option (list msg);
  f_client : client_pc;
  f_got : list msg;
  f_out : cstring;
  f_lost : bool }.

Section moves.
(** The longest message and the capacity of a queue: MSGMAX and msg_qbytes. *)
Context (msgmax qbytes : nat).

Definition msg_bytes (l : list msg) : nat := sum_list ((λ m : msg, length m.2) <$> l).

(** [msgsnd] puts the message into the queue when there is room. *)
Definition has_room (m : msg) (l : list msg) : bool :=
  (length m.2 <=? msgmax)%nat && (msg_bytes l + length m.2 <=? qbytes)%nat && (length l + 1 <=? qbytes)%nat.

Definition put_msg (m : msg) (pc : server_pc) (s : transfer) : option transfer :=
  l ← f_queue s ;
  if has_room m l
  then Some (Transfer (f_file s) pc (Some (l ++ [m])) (f_client s) (f_got s) (f_out s) (f_lost s))
  else None.

Definition refusal : msg := (RESP_MT_FAILURE, snprintf RESP_MSG_SIZE (cs "Couldn't open") ++ [NUL]).
Definition end_msg : msg := (RESP_MT_END, []).

Definition serve_to (pc : server_pc) (file : option (list ascii)) (lost : bool) (s : transfer) : transfer :=
  Transfer file pc (f_queue s) (f_client s) (f_got s) (f_out s) lost.

(** A call of the child that succeeds; a read gives at least one and at most RESP_MSG_SIZE bytes, else the
    end of the file was reached. *)
Definition serve_move (n : nat) (s : transfer) : option transfer :=
  match f_server s with
  | VOpen => Some (serve_to (match f_file s with None => VRefuse | Some _ => VRead end) (f_file s) (f_lost s) s)
  | VRefuse => put_msg refusal VOver s
  | VRead =>
      match f_file s with
      | None => None
      | Some [] => Some (serve_to VEnd (f_file s) (f_lost s) s)
      | Some c =>
          let n := Nat.max 1 (Nat.min n RESP_MSG_SIZE) in
          Some (serve_to (VSend (take n c)) (Some (drop n c)) (f_lost s) s)
      end
  | VSend d => put_msg (RESP_MT_DATA, d) VRead s
  | VEnd => put_msg end_msg VOver s
  | VOver => None
  end.

(** A call of the child that fails, which is not reported. *)
Definition serve_fail (s : transfer) : option transfer :=
  match f_server s with
  | VRead | VSend _ => Some (serve_to VEnd (f_file s) true s)
  | VRefuse | VEnd => Some (serve_to VOver (f_file s) true s)
  | VOpen | VOver => None
  end.

(** The client exits: its queue is removed. *)
Definition leave (pc : client_pc) (got : list msg) (out : cstring) (s : transfer) : transfer :=
  Transfer (f_file s) (f_server s) None pc got (f_out s ++ out) (f_lost s).

(** [msgrcv] takes the first message; one that is too long is an error. *)
Definition take_msg (s : transfer) : option (msg * transfer) :=
  match f_queue s with
  | Some (m :: l) =>
      if (length m.2 <=? RESP_MSG_SIZE)%nat
      then Some (m, Transfer (f_file s) (f_server s) (Some l) (f_client s) (f_got s ++ [m]) (f_out s) (f_lost s))
      else None
  | _ => None
  end.

Definition at_client (pc : client_pc) (s : transfer) : transfer :=
  Transfer (f_file s) (f_server s) (f_queue s) pc (f_got s) (f_out s) (f_lost s).

Definition client_move (s : transfer) : option transfer :=
  match f_client s with
  | CFirst =>
      r ← take_msg s ;
      let '((t, d), s) := r in
      if t =? RESP_MT_FAILURE then
        Some (if bool_decide (NUL ∈ d) then leave (COver EXIT_FAILURE) (f_got s) (until_nul d ++ [NL]) s
              else at_client CCrashed s)
      else Some (at_client (CTest t (strlen d) 1) s)
  | CTest t totBytes numMsgs =>
      Some (if t =? RESP_MT_DATA then at_client (CNext totBytes numMsgs) s
            else leave (COver EXIT_SUCCESS) (f_got s) (received_line totBytes numMsgs) s)
  | CNext totBytes numMsgs =>
      r ← take_msg s ;
      let '((t, d), s) := r in
      Some (at_client (CTest t (totBytes + strlen d) (to_int (numMsgs + 1))) s)
  | COver _ | CDied | CCrashed => None
  end.

(** [msgrcv] fails: [errExit]. *)
Definition client_fail (s : transfer) : option transfer :=
  match f_client s with
  | CFirst | CNext _ _ => Some (leave CDied (f_got s) [] s)
  | _ => None
  end.

Inductive transfer_move : transfer → transfer → Prop :=
  | move_server n s s' : serve_move n s = Some s' → transfer_move s s'
  | move_client s s' : client_move s = Some s' → transfer_move s s'.
Inductive transfer_step : transfer → transfer → Prop :=
  | step_move s s' : transfer_move s s' → transfer_step s s'
  | step_serve_fail s s' : serve_fail s = Some s' → transfer_step s s'
  | step_client_fail s s' : client_fail s = Some s' → transfer_step s s'.

(** The request has been made: the child is started, the client waits for its answer. *)
Definition transfer_start (file : option (list ascii)) : transfer :=
  Transfer file VOpen (Some []) CFirst [] [] false.

(** ** The invariant *)

Definition all_msgs (s : transfer) : list msg := f_got s ++ default [] (f_queue s).

(** What the child has sent when [blocks] are the blocks of it; it may have failed to send the last message. *)
Definition tail_of (pc : server_pc) (last : msg) (lost : bool) (l : list msg) : Prop :=
  match pc with VOver => l = [last] ∨ lost = true ∧ l = [] | _ => l = [] end.

Definition in_hand (pc : server_pc) : list ascii := match pc with VSend d => d | _ => [] end.

(** The messages sent so far.  Those in the queue are forgotten when it is removed. *)
Definition server_ok (file : option (list ascii)) (s : transfer) (sent : list msg) : Prop :=
  match file with
  | None => f_file s = None ∧ (f_server s = VOpen ∨ f_server s = VRefuse ∨ f_server s = VOver) ∧
      tail_of (f_server s) refusal (f_lost s) sent
  | Some c => ∃ blocks l rest, sent = (data <$> blocks) ++ l ∧ f_file s = Some rest ∧
      f_server s ≠ VRefuse ∧ Forall block blocks ∧ tail_of (f_server s) end_msg (f_lost s) l ∧
      (∀ d, f_server s = VSend d → block d) ∧ concat blocks `prefix_of` c ∧
      (f_lost s = true → f_server s = VEnd ∨ f_server s = VOver) ∧
      (f_lost s = false → concat blocks ++ in_hand (f_server s) ++ rest = c ∧
         (f_server s = VEnd ∨ f_server s = VOver → rest = []))
  end.

Definition total (l : list msg) : Z := Z.of_nat (msg_bytes l).

Definition client_ok (s : transfer) : Prop :=
  match f_client s with
  | CFirst => f_got s = [] ∧ f_out s = [] ∧ is_Some (f_queue s)
  | CTest t tot n => (∃ l m, f_got s = l ++ [m] ∧ t = m.1 ∧ Forall (λ m : msg, m.1 = RESP_MT_DATA) l ∧ m.1 ≠ RESP_MT_FAILURE) ∧
      tot = total (f_got s) ∧ n = to_int (Z.of_nat (length (f_got s))) ∧ f_out s = [] ∧ is_Some (f_queue s)
  | CNext tot n => f_got s ≠ [] ∧ Forall (λ m : msg, m.1 = RESP_MT_DATA) (f_got s) ∧
      tot = total (f_got s) ∧ n = to_int (Z.of_nat (length (f_got s))) ∧ f_out s = [] ∧ is_Some (f_queue s)
  | COver status =>
      status = EXIT_SUCCESS ∧ (∃ l m, f_got s = l ++ [m] ∧ m.1 ≠ RESP_MT_DATA ∧ m.1 ≠ RESP_MT_FAILURE) ∧
        f_out s = received_line (total (f_got s)) (to_int (Z.of_nat (length (f_got s)))) ∨
      status = EXIT_FAILURE ∧ (∃ d, f_got s = [(RESP_MT_FAILURE, d)] ∧ f_out s = until_nul d ++ [NL])
  | CDied => f_out s = []
  | CCrashed => False
  end.

(** [sent] are all messages sent, of which those received are the first ones. *)
Definition f_inv (file : option (list ascii)) (s : transfer) : Prop :=
  ∃ sent, server_ok file s sent ∧ client_ok s ∧
    match f_queue s with Some l => sent = f_got s ++ l | None => f_got s `prefix_of` sent end.

(** ** The child *)

Lemma put_msg_inv m pc s s' :
  put_msg m pc s = Some s' → ∃ l, f_queue s = Some l ∧
    s' = Transfer (f_file s) pc (Some (l ++ [m])) (f_client s) (f_got s) (f_out s) (f_lost s).
Proof.
  rw /put_msg. destruct (f_queue s) as [l|]; [|done]. cbn. destruct (has_room m l); [|done].
  intros [= <-]. by exists l.
Qed.

Lemma client_ok_same s s' :
  f_client s' = f_client s → f_got s' = f_got s → f_out s' = f_out s →
  (is_Some (f_queue s) → is_Some (f_queue s')) → client_ok s → client_ok s'.
Proof. rw /client_ok. intros -> -> -> Hq. destruct (f_client s); naive_solver. Qed.

Lemma block_take n (c : list ascii) :
  c ≠ [] → block (take (Nat.max 1 (Nat.min n RESP_MSG_SIZE)) c).
Proof.
  intros Hc. pose proof RESP_MSG_SIZE_pos. rw /block length_take. destruct c as [|x c]; [done|]. cbn [length]. lia.
Qed.

(** The child sends [m]: a block, the end, or the refusal. *)
Lemma server_ok_block file s d sent l :
  f_server s = VSend d → server_ok file s sent →
  server_ok file (Transfer (f_file s) VRead l (f_client s) (f_got s) (f_out s) (f_lost s)) (sent ++ [data d]).
Proof.
  intros Hpc. rw /server_ok. destruct file as [c|]; cbn.
  2: { intros (_ & H & _). rw Hpc in H. by destruct H as [?|[?|?]]. }
  intros (blocks & tl & rest & -> & Hf & _ & Hb & Ht & Hd & Hpre & Hl & Hn). rw Hpc /= in Ht Hd Hl Hn. subst tl.
  assert (f_lost s = false) as Hlost by (destruct (f_lost s); [by destruct (Hl eq_refl)|done]).
  destruct (Hn Hlost) as [Hc _]. exists (blocks ++ [d]), [], rest.
  rw fmap_app concat_app /= !app_nil_r. split_and!; try done.
  - apply Forall_app. split; [done|]. apply Forall_singleton. by apply Hd.
  - rw -Hc. exists rest. by rw app_assoc.
  - by rw Hlost.
  - intros _. rw -app_assoc. split; [done|]. by intros [?|?].
Qed.

Lemma server_ok_last file s pc m sent l :
  (pc = VRefuse ∧ m = refusal ∨ pc = VEnd ∧ m = end_msg) → f_server s = pc → server_ok file s sent →
  server_ok file (Transfer (f_file s) VOver l (f_client s) (f_got s) (f_out s) (f_lost s)) (sent ++ [m]).
Proof.
  intros Hm Hpc. rw /server_ok. destruct file as [c|]; cbn; rw Hpc.
  - intros (blocks & tl & rest & -> & Hf & Hr & Hb & Ht & Hd & Hpre & Hl & Hn).
    destruct Hm as [[-> _]|[-> ->]]; [done|]. cbn in *. subst tl.
    exists blocks, [end_msg], rest. rw app_nil_r. split_and!; try done; [by left|by right|].
    intros H. destruct (Hn H) as [? Hrest]. split; [done|]. intros _. apply Hrest. by left.
  - intros (Hf & Hs & Ht). destruct Hm as [[-> ->]|[-> ->]]; [|by destruct Hs as [?|[?|?]]].
    cbn in Ht. subst sent. split_and!; [done|by right; right|by left].
Qed.

Lemma serve_move_inv file n s s' : f_inv file s → serve_move n s = Some s' → f_inv file s'.
Proof.
  intros (sent & Hs & Hc & Hq). rw /serve_move.
  assert (∀ m pc, put_msg m pc s = Some s' →
    (∀ l, server_ok file (Transfer (f_file s) pc l (f_client s) (f_got s) (f_out s) (f_lost s)) (sent ++ [m])) →
    f_inv file s') as Hput.
  { intros m pc (l & Hl & ->)%put_msg_inv Hok. exists (sent ++ [m]). split; [apply Hok|]. split.
    - by eapply client_ok_same; [..|exact Hc].
    - rw Hl in Hq. cbn. by rw Hq app_assoc. }
  destruct (f_server s) as [| | |d| |] eqn:Hpc.
  - intros [= <-]. exists sent. split; [|split; [by eapply client_ok_same; [..|exact Hc]|done]].
    move: Hs. rw /server_ok Hpc. destruct file as [c|]; cbn.
    + intros (blocks & tl & rest & -> & Hf & _ & Hb & Ht & Hd & Hpre & Hl & Hn). rw Hf.
      exists blocks, tl, rest. split_and!; try done.
      { intros H. by destruct (Hl H). }
      intros H. destruct (Hn H) as [? _]. split; [done|]. by intros [?|?].
    + intros (-> & _ & ->). split_and!; [done|by right; left|done].
  - intros H. eapply Hput; [exact H|]. intros l. eapply server_ok_last; [by left|done|done].
  - destruct (f_file s) as [[|x c]|] eqn:Hf; [..|done]; intros [= <-]; exists sent;
      (split; [|split; [by eapply client_ok_same; [..|exact Hc]|done]]); move: Hs; rw /server_ok Hpc Hf;
      (destruct file as [c0|]; cbn; [|by intros (? & _)]);
      intros (blocks & tl & rest & -> & [= <-] & _ & Hb & Ht & Hd & Hpre & Hl & Hn).
    + exists blocks, tl, []. split_and!; try done; [by left|]. intros H. by destruct (Hn H).
    + eexists blocks, tl, _. split_and!; try done.
      * intros d [= <-]. by apply (block_take n (x :: c)).
      * intros H. by destruct (Hl H).
      * intros H. destruct (Hn H) as [E _]. split; [|by intros [?|?]]. rw -E. f_equal. apply (take_drop _ (x :: c)).
  - intros H. eapply Hput; [exact H|]. intros l. by apply server_ok_block.
  - intros H. eapply Hput; [exact H|]. intros l. eapply server_ok_last; [by right|done|done].
  - done.
Qed.

Lemma serve_fail_inv file s s' : f_inv file s → serve_fail s = Some s' → f_inv file s'.
Proof.
  intros (sent & Hs & Hc & Hq) H. exists sent.
  assert (∃ pc, s' = serve_to pc (f_file s) true s ∧ (pc = VOver ∧ (f_server s = VRefuse ∨ f_server s = VEnd) ∨
    pc = VEnd ∧ (f_server s = VRead ∨ ∃ d, f_server s = VSend d))) as (pc & -> & Hpc).
  { rw /serve_fail in H. destruct (f_server s); try done; injection H as <-; eexists; (split; [reflexivity|]);
      naive_solver. }
  split; [|split; [by eapply client_ok_same; [..|exact Hc]|done]].
  move: Hs. rw /server_ok. destruct file as [c|]; cbn.
  - intros (blocks & tl & rest & -> & Hf & Hr & Hb & Ht & Hd & Hpre & _). exists blocks, tl, rest.
    split_and!; try done; destruct Hpc as [[-> Hpc]|[-> Hpc]]; cbn; try done; try naive_solver.
    + right. split; [done|]. by destruct Hpc as [E|E]; rw E in Ht.
    + by destruct Hpc as [E|[d E]]; rw E in Ht.
  - intros (Hf & Hp & Ht). split_and!; [done| |].
    + destruct Hpc as [[-> _]|[-> Hpc]]; [by right; right|]. destruct Hpc as [E|[d E]]; rw E in Hp; naive_solver.
    + destruct Hpc as [[-> Hpc]|[-> Hpc]]; cbn.
      * right. split; [done|]. by destruct Hpc as [E|E]; rw E in Ht.
      * by destruct Hpc as [E|[d E]]; rw E in Ht.
Qed.

(** ** The client *)

(** The messages of a run: blocks and at most one end message, or a single refusal. *)
Lemma sent_shape file s sent :
  server_ok file s sent →
  Forall (λ m : msg, (length m.2 ≤ RESP_MSG_SIZE)%nat) sent ∧
  (∀ m, m ∈ sent → m.1 = RESP_MT_FAILURE → sent = [refusal] ∧ m = refusal) ∧
  (∀ l m r, sent = l ++ m :: r → m.1 ≠ RESP_MT_DATA → r = []).
Proof.
  assert (∀ l (x m : msg) r, [x] = l ++ m :: r → r = []) as Hone.
  { intros [|? l] x m r E; [by injection E|]. injection E as _ E. by destruct l. }
  rw /server_ok. destruct file as [c|].
  - intros (blocks & tl & rest & -> & _ & _ & Hb & Ht & _).
    assert (tl = [] ∨ tl = [end_msg]) as Htl by (rw /tail_of in Ht; destruct (f_server s); naive_solver).
    split_and!.
    + apply Forall_app. split; [|by destruct Htl as [->| ->]; [|apply Forall_singleton, Nat.le_0_l]].
      apply Forall_fmap. eapply Forall_impl; [exact Hb|]. by intros d [_ ?].
    + intros m [(d & -> & _)%list_elem_of_fmap|Hm]%elem_of_app; [done|].
      destruct Htl as [->| ->]; [by apply elem_of_nil in Hm|]. by apply list_elem_of_singleton in Hm as ->.
    + intros l m r E Hm. destruct (app_eq_inv _ _ _ _ E) as [(k & E1 & E2)|(k & E1 & E2)].
      * destruct k as [|m' k]; cbn in E2.
        { destruct Htl as [->| ->]; [done|]. by injection E2. }
        injection E2 as <- ->. exfalso. apply Hm.
        assert (m ∈ data <$> blocks) as (d & -> & _)%list_elem_of_fmap by (rw E1; set_solver). done.
      * destruct Htl as [->| ->]; [by destruct k|]. by apply (Hone k end_msg m r).
  - intros (_ & _ & Ht).
    assert (sent = [] ∨ sent = [refusal]) as [->| ->] by (rw /tail_of in Ht; destruct (f_server s); naive_solver).
    + split_and!; [done|by intros m ?%elem_of_nil|by intros [|? l] m r].
    + split_and!; [|by intros m ->%list_elem_of_singleton|by intros l m r E _; apply (Hone l refusal m r)].
      apply Forall_singleton. by apply Nat.leb_le; vm_compute.
Qed.

Lemma take_msg_inv s m s1 :
  take_msg s = Some (m, s1) → ∃ l, f_queue s = Some (m :: l) ∧
    s1 = Transfer (f_file s) (f_server s) (Some l) (f_client s) (f_got s ++ [m]) (f_out s) (f_lost s).
Proof.
  rw /take_msg. destruct (f_queue s) as [[|m0 l]|]; try done. destruct (_ <=? _)%nat; [|done].
  intros [= -> <-]. by exists l.
Qed.

Lemma total_snoc l (m : msg) : total (l ++ [m]) = total l + strlen m.2.
Proof. rw /total /msg_bytes fmap_app sum_list_with_app /strlen /=. lia. Qed.

Lemma to_int_succ n : to_int (to_int n + 1) = to_int (n + 1).
Proof.
  rw /to_int /wrapS. set (h := 2 ^ (32 - 1)).
  replace ((n + h) mod 2 ^ 32 - h + 1 + h) with ((n + h) mod 2 ^ 32 + 1) by lia.
  replace (n + 1 + h) with (n + h + 1) by lia. by rw Zplus_mod_idemp_l.
Qed.

Lemma client_move_inv file s s' : f_inv file s → client_move s = Some s' → f_inv file s'.
Proof.
  intros (sent & Hs & Hc & Hq). rw /client_move. pose proof (sent_shape _ _ _ Hs) as (_ & Hfail & _).
  destruct (f_client s) as [|t tot n|tot n| | |] eqn:Hpc; rw /client_ok Hpc in Hc; try done.
  - destruct (take_msg s) as [[[t d] s1]|] eqn:E; [|done]. apply take_msg_inv in E as (l & El & ->).
    destruct Hc as (Hg & Ho & _). rw El Hg /= in Hq. cbn. rw Hg Ho.
    destruct (Z.eqb_spec t RESP_MT_FAILURE) as [->|Ht].
    + destruct (Hfail (RESP_MT_FAILURE, d)) as [E1 E2]; [rw Hq; set_solver|done|].
      assert (NUL ∈ d) as Hn. { injection E2 as ->. set_solver. }
      rw bool_decide_eq_true_2 //. intros [= <-]. exists sent. split_and!; [exact Hs| |].
      * right. split; [done|]. by exists d.
      * exists l. exact Hq.
    + intros [= <-]. exists sent. split_and!; [exact Hs| |exact Hq]. cbn.
      split; [exists [], (t, d); by split_and!|]. split; [by rw /total /msg_bytes /strlen /= Nat.add_0_r|by split_and!].
  - destruct Hc as ((l & m & Hg & -> & Hl & Hm) & -> & -> & Ho & Hqs). intros [= <-]. exists sent.
    destruct (Z.eqb_spec m.1 RESP_MT_DATA) as [E|E].
    + split_and!; [exact Hs| |exact Hq]. cbn. split_and!; try done; rw Hg; [by destruct l|].
      apply Forall_app. split; [done|by apply Forall_singleton].
    + split_and!; [exact Hs| |].
      * left. cbn. rw Ho. split; [done|]. split; [|done]. exists l, m. by split_and!.
      * cbn. destruct Hqs as [q Hqs]. rw Hqs in Hq. by exists q.
  - destruct (take_msg s) as [[[t d] s1]|] eqn:E; [|done]. apply take_msg_inv in E as (l & El & ->).
    destruct Hc as (Hg & Hall & -> & -> & Ho & _). rw El in Hq. cbn. intros [= <-]. exists sent.
    assert (t ≠ RESP_MT_FAILURE) as Ht.
    { intros ->. destruct (Hfail (RESP_MT_FAILURE, d)) as [E1 _]; [rw Hq; set_solver|done|].
      rw E1 in Hq. by destruct (f_got s) as [|? [|? ?]]. }
    split_and!; [exact Hs| |cbn; by rw Hq -app_assoc]. cbn. split; [by exists (f_got s), (t, d)|].
    rw total_snoc length_app Nat2Z.inj_add to_int_succ. by split_and!.
Qed.

Lemma client_fail_inv file s s' : f_inv file s → client_fail s = Some s' → f_inv file s'.
Proof.
  intros (sent & Hs & Hc & Hq) H.
  assert (s' = leave CDied (f_got s) [] s ∧ f_out s = [] ∧ is_Some (f_queue s)) as (-> & Ho & [q Eq]).
  { rw /client_fail /client_ok in H Hc. destruct (f_client s); naive_solver. }
  exists sent. split_and!; [exact Hs|by rw /client_ok /= Ho|]. rw Eq in Hq. by exists q.
Qed.

Lemma transfer_reach file s : rtc transfer_step (transfer_start file) s → f_inv file s.
Proof.
  apply (rtc_ind_r (f_inv file)).
  - exists []. split_and!; [|by split_and!|done]. destruct file as [c|]; cbn; [|by auto].
    exists [], [], c. split_and!; try done; [by exists c|]. intros _. split; [done|]. by intros [?|?].
  - intros s1 s2 _ Hstep Hi. destruct Hstep as [s1 s2 [n s1' s2' H|s1' s2' H]|s1 s2 H|s1 s2 H].
    + exact (serve_move_inv _ _ _ _ Hi H).
    + exact (client_move_inv _ _ _ Hi H).
    + exact (serve_fail_inv _ _ _ Hi H).
    + exact (client_fail_inv _ _ _ Hi H).
Qed.

(** ** What the client reports *)

Lemma total_blocks (blocks : list (list ascii)) :
  total ((data <$> blocks) ++ [end_msg]) = strlen (concat blocks).
Proof.
  rw total_snoc /= Z.add_0_r /total /msg_bytes /strlen. f_equal.
  elim: blocks => [|d blocks IH]; [done|]. by rw fmap_cons concat_cons length_app -IH.
Qed.

(** The client has seen the end: it has received all that was sent. *)
Lemma client_saw_end file s sent l m :
  server_ok file s sent → f_got s `prefix_of` sent → f_got s = l ++ [m] →
  m.1 ≠ RESP_MT_DATA → m.1 ≠ RESP_MT_FAILURE →
  ∃ c blocks, file = Some c ∧ f_got s = (data <$> blocks) ++ [end_msg] ∧ concat blocks `prefix_of` c ∧
    (f_lost s = false → concat blocks = c) ∧ f_server s = VOver.
Proof.
  intros Hs [r Er] Hg Hd Hf. pose proof (sent_shape _ _ _ Hs) as (_ & _ & Hlast).
  rw Hg -app_assoc in Er. assert (r = []) as -> by (by apply (Hlast l m)). rw -/([m] ++ []) app_nil_r -Hg in Er.
  rw /server_ok in Hs. destruct file as [c|].
  - destruct Hs as (blocks & tl & rest & E & _ & _ & _ & Ht & _ & Hpre & _ & Hn). rw E in Er.
    assert (tl = [end_msg] ∧ f_server s = VOver) as [-> Ev].
    { assert (tl ≠ []) as Hne.
      { intros ->. rw app_nil_r Hg in Er. apply Hd.
        assert (m ∈ data <$> blocks) as (d & -> & _)%list_elem_of_fmap by (rw Er; set_solver). done. }
      rw /tail_of in Ht. destruct (f_server s); try done. by destruct Ht as [->|[_ ->]]. }
    exists c, blocks. split_and!; try done. intros Hl. destruct (Hn Hl) as [Ec Hrest].
    rw Ev (Hrest (or_intror Ev)) /= app_nil_r in Ec. done.
  - destruct Hs as (_ & _ & Ht). rw Er Hg /tail_of in Ht.
    destruct (f_server s); try (by destruct l). destruct Ht as [Ht|[_ Ht]]; [|by destruct l].
    destruct l as [|? [|? ?]]; try done. injection Ht as ->. done.
Qed.

(** ** Progress *)

Definition transfer_over (s : transfer) : Prop := f_server s = VOver ∧ ∃ n, f_client s = COver n.

(** The client waits only for a message, and takes it when there is one. *)
Lemma client_receives file s m l :
  f_inv file s → f_queue s = Some (m :: l) → (f_client s = CFirst ∨ ∃ tot n, f_client s = CNext tot n) →
  ∃ s', client_move s = Some s'.
Proof.
  intros (sent & Hs & _ & Hq) El Hpc. rw El in Hq.
  pose proof (sent_shape _ _ _ Hs) as (Hlen & _ & _). rw Hq in Hlen.
  apply Forall_app in Hlen as [_ [Hm _]%Forall_cons]. apply Nat.leb_le in Hm.
  rw /client_move /take_msg El. destruct m as [t d]. cbn in Hm. cbn [snd]. rw Hm.
  destruct Hpc as [->|(tot & n & ->)]; cbn; [by case_match; eexists|by eexists].
Qed.

(** With room for a block, the child goes on when the queue is empty. *)
Lemma child_goes_on file s :
  (RESP_MSG_SIZE ≤ msgmax)%nat → (RESP_MSG_SIZE ≤ qbytes)%nat → f_inv file s → f_queue s = Some [] →
  (∃ s', transfer_move s s') ∨ f_server s = VOver.
Proof.
  intros Hmax Hqb (sent & Hs & _) Hempty. pose proof RESP_MSG_SIZE_pos as Hpos.
  assert (∀ m pc, (length m.2 ≤ RESP_MSG_SIZE)%nat → ∃ s', put_msg m pc s = Some s') as Hput.
  { intros m pc Hm. rw /put_msg Hempty /=.
    assert (has_room m [] = true) as ->; [|by eexists]. rw /has_room. cbn [msg_bytes fmap list_fmap sum_list length].
    rw !(proj2 (Nat.leb_le _ _)) //; lia. }
  rw /server_ok in Hs. destruct (f_server s) as [| | |d| |] eqn:Hpc; [..|by right]; left.
  - eexists. apply (move_server 0). by rw /serve_move Hpc.
  - destruct (Hput refusal VOver) as [s' E]; [by apply Nat.leb_le; vm_compute|].
    exists s'. apply (move_server 0). by rw /serve_move Hpc.
  - assert (∃ rest, f_file s = Some rest) as [rest Hf].
    { destruct file; [destruct Hs as (_ & _ & rest & _ & Hf & _); by exists rest|].
      destruct Hs as (_ & H & _). by destruct H as [?|[?|?]]. }
    destruct rest as [|x rest]; eexists; apply (move_server 0); by rw /serve_move Hpc Hf.
  - assert (block d) as [_ Hd].
    { destruct file; [destruct Hs as (_ & _ & _ & _ & _ & _ & _ & _ & Hd & _); by apply Hd|].
      destruct Hs as (_ & H & _). by destruct H as [?|[?|?]]. }
    destruct (Hput (RESP_MT_DATA, d) VRead Hd) as [s' E]. exists s'. apply (move_server 0). by rw /serve_move Hpc.
  - destruct (Hput end_msg VOver) as [s' E]; [apply Nat.le_0_l|].
    exists s'. apply (move_server 0). by rw /serve_move Hpc.
Qed.

(** A client that has received all that a child without failures sent is not waiting for more. *)
Lemma all_received file s :
  f_inv file s → f_lost s = false → f_server s = VOver → f_queue s = Some [] →
  f_got s = [refusal] ∨ ∃ l, f_got s = l ++ [end_msg].
Proof.
  intros (sent & Hs & _ & Hq) Hlost Ev Hempty. rw Hempty app_nil_r in Hq. subst sent.
  rw /server_ok in Hs. destruct file as [c|].
  - destruct Hs as (blocks & tl & rest & E & _ & _ & _ & Ht & _). rw Ev Hlost /= in Ht.
    right. exists (data <$> blocks). rw E. by destruct Ht as [->|[? _]].
  - destruct Hs as (_ & _ & Ht). rw Ev Hlost /= in Ht. left. by destruct Ht as [->|[? _]].
Qed.

(** When the client has exited, so has the child. *)
Lemma over_together file s n : f_inv file s → f_client s = COver n → f_server s = VOver.
Proof.
  intros (sent & Hs & Hc & Hq) Hpc. rw /client_ok Hpc in Hc.
  assert (f_got s `prefix_of` sent) as Hpre by (destruct (f_queue s); [rw Hq; by eexists|done]).
  destruct Hc as [(_ & (l & m & Hg & H1 & H2) & _)|(_ & d & Hg & _)].
  - by destruct (client_saw_end file s sent l m Hs Hpre Hg H1 H2) as (? & ? & _ & _ & _ & _ & ?).
  - destruct Hpre as [r Er]. rw Hg in Er. pose proof (sent_shape _ _ _ Hs) as (_ & Hf & _).
    destruct (Hf (RESP_MT_FAILURE, d)) as [Es _]; [rw Er; set_solver|done|].
    rw /server_ok Es in Hs. destruct file as [c|].
    + destruct Hs as ([|b blocks] & tl & rest & E & _ & _ & _ & Ht & _); [|done]. cbn in E. subst tl.
      rw /tail_of in Ht. destruct (f_server s); try done.
    + destruct Hs as (_ & _ & Ht). rw /tail_of in Ht. by destruct (f_server s).
Qed.

(** With room for one block in an empty queue, somebody can go on. *)
Lemma transfer_progress file s :
  (RESP_MSG_SIZE ≤ msgmax)%nat → (RESP_MSG_SIZE ≤ qbytes)%nat →
  f_inv file s → f_lost s = false → f_client s ≠ CDied → transfer_over s ∨ ∃ s', transfer_move s s'.
Proof.
  intros Hmax Hqb Hinv Hlost Hdied. pose proof Hinv as (sent & _ & Hc & _).
  assert (∀ s', client_move s = Some s' → ∃ s', transfer_move s s') as Hcl
    by (intros s' H; exists s'; exact (move_client _ _ H)).
  rw /client_ok in Hc. destruct (f_client s) as [|t tot n|tot n|n| |] eqn:Hpc; try done.
  - right. destruct Hc as (Hg & _ & [[|m l] El]).
    + destruct (child_goes_on file s Hmax Hqb Hinv El) as [?|Ev]; [done|].
      destruct (all_received file s Hinv Hlost Ev El) as [E|[l E]]; rw Hg in E; [done|by destruct l].
    + destruct (client_receives file s m l Hinv El) as [s' E]; [by left|exact (Hcl _ E)].
  - right. eapply Hcl. by rw /client_move Hpc.
  - right. destruct Hc as (Hg & Hd & _ & _ & _ & [[|m l] El]).
    + destruct (child_goes_on file s Hmax Hqb Hinv El) as [?|Ev]; [done|]. exfalso.
      destruct (all_received file s Hinv Hlost Ev El) as [E|[l E]]; rw E in Hd.
      * by apply Forall_cons in Hd as [? _].
      * by apply Forall_app in Hd as [_ [? _]%Forall_cons].
    + destruct (client_receives file s m l Hinv El) as [s' E]; [right; by exists tot, n|exact (Hcl _ E)].
  - left. split; [exact (over_together file s n Hinv Hpc)|by exists n].
Qed.

(** ** Termination *)

(** The calls still to be made, at most. *)
Definition server_work (pc : server_pc) : nat :=
  match pc with VOpen => 5 | VRefuse => 3 | VRead => 4 | VSend _ => 7 | VEnd => 3 | VOver => 0 end.
Definition client_work (pc : client_pc) : nat :=
  match pc with CFirst => 2 | CTest _ _ _ => 2 | CNext _ _ => 1 | _ => 0 end.
Definition transfer_work (s : transfer) : nat :=
  5 * length (default [] (f_file s)) + server_work (f_server s) + 2 * length (default [] (f_queue s)) +
  client_work (f_client s).

Lemma put_msg_work m pc s s' :
  put_msg m pc s = Some s' → (server_work pc + 2 < server_work (f_server s))%nat →
  (transfer_work s' < transfer_work s)%nat.
Proof.
  intros (l & El & ->)%put_msg_inv H. rw /transfer_work /= El /= length_app /=. lia.
Qed.

Lemma transfer_step_work s s' : transfer_step s s' → (transfer_work s' < transfer_work s)%nat.
Proof.
  intros [s1 s2 [n s3 s4 H|s3 s4 H]|s1 s2 H|s1 s2 H]; move: H.
  - rw /serve_move. destruct (f_server s3) as [| | |d| |] eqn:Hpc; try (by intros H; eapply put_msg_work; [exact H|rw Hpc /=; lia]).
    + intros [= <-]. rw /transfer_work /= Hpc. destruct (f_file s3); cbn; lia.
    + destruct (f_file s3) as [[|x c]|] eqn:Hf; [..|done]; intros [= <-]; rw /transfer_work /= Hpc ?Hf /=; [lia|].
      rw -/(length (drop _ (x :: c))) length_drop. cbn [length]. lia.
    + done.
  - rw /client_move. destruct (f_client s3) as [|t tot n|tot n| | |] eqn:Hpc; try done.
    + destruct (take_msg s3) as [[[t d] s5]|] eqn:E; [|done]. apply take_msg_inv in E as (l & El & ->). cbn.
      case_match; [case_match|]; intros [= <-]; rw /transfer_work /= Hpc El /=; lia.
    + intros [= <-]. case_match; rw /transfer_work /= Hpc /=; lia.
    + destruct (take_msg s3) as [[[t d] s5]|] eqn:E; [|done]. apply take_msg_inv in E as (l & El & ->). cbn.
      intros [= <-]. rw /transfer_work /= Hpc El /=. lia.
  - rw /serve_fail. destruct (f_server s1) eqn:Hpc; try done; intros [= <-]; rw /transfer_work /= Hpc /=; lia.
  - rw /client_fail. destruct (f_client s1) eqn:Hpc; try done; intros [= <-]; rw /transfer_work /= Hpc /=; lia.
Qed.

(** C33: The child and the client beside each other, in every interleaving and whichever calls fail.
    A client that exits successfully has received blocks of the file, in order and from its start, and an end message, and prints
    how many bytes and messages they were; if no call of the child failed, that is the whole
    file.  A client that exits with a failure has printed the refusal, because the file
    could not be opened; it never reads outside a message.  Every step brings the end
    nearer, and with no failing call and queues that have room for one block, they go on
    until both have ended. *)
Theorem file_transfer file s :
  rtc transfer_step (transfer_start file) s →
  (f_client s = COver EXIT_SUCCESS → ∃ c blocks, file = Some c ∧
     f_got s = (data <$> blocks) ++ [end_msg] ∧ concat blocks `prefix_of` c ∧
     (f_lost s = false → concat blocks = c) ∧
     f_out s = received_line (strlen (concat blocks)) (to_int (Z.of_nat (length blocks) + 1))) ∧
  (f_client s = COver EXIT_FAILURE → file = None ∧ f_out s = cs "Couldn't open" ++ [NL]) ∧
  f_client s ≠ CCrashed ∧
  (∀ s', transfer_step s s' → (transfer_work s' < transfer_work s)%nat) ∧
  ((RESP_MSG_SIZE ≤ msgmax)%nat → (RESP_MSG_SIZE ≤ qbytes)%nat → f_lost s = false → f_client s ≠ CDied →
     transfer_over s ∨ ∃ s', transfer_move s s').
Proof.
  intros Hinv%transfer_reach. pose proof Hinv as (sent & Hs & Hc & Hq).
  assert (f_got s `prefix_of` sent) as Hpre by (destruct (f_queue s); [rw Hq; by eexists|done]).
  rw /client_ok in Hc. split_and!.
  - intros E. rw E in Hc. destruct Hc as [(_ & (l & m & Hg & H1 & H2) & Ho)|[? _]]; [|done].
    destruct (client_saw_end file s sent l m Hs Hpre Hg H1 H2) as (c & blocks & Hf & Eg & Hp & Hl & _).
    exists c, blocks. split_and!; try done. rw Ho Eg total_blocks length_app length_fmap Nat2Z.inj_add. done.
  - intros E. rw E in Hc. destruct Hc as [[? _]|(_ & d & Hg & Ho)]; [done|].
    destruct Hpre as [r Er]. rw Hg in Er. pose proof (sent_shape _ _ _ Hs) as (_ & Hf & _).
    destruct (Hf (RESP_MT_FAILURE, d)) as [Es Ed]; [rw Er; set_solver|done|]. injection Ed as ->.
    split; [|by rw Ho]. rw /server_ok Es in Hs. destruct file as [c|]; [|done].
    destruct Hs as ([|b blocks] & tl & rest & Et & _ & _ & _ & Ht & _); [|done]. cbn in Et. subst tl.
    rw /tail_of in Ht. by destruct (f_server s); try done; destruct Ht as [?|[_ ?]].
  - intros E. by rw E in Hc.
  - by intros s'; apply transfer_step_work.
  - intros H1 H2. exact (transfer_progress file s H1 H2 Hinv).
Qed.
End moves.

(** ** Runs *)

(** A schedule: the child, with the number of bytes a read gives, or the client. *)
Inductive actor := Child (n : nat) | Client | ChildFails.
Definition transfer_act (msgmax qbytes : nat) (a : actor) (s : transfer) : option transfer :=
  match a with Child n => serve_move msgmax qbytes n s | Client => client_move s | ChildFails => serve_fail s end.
Definition transfer_run (msgmax qbytes : nat) (l : list actor) (s : transfer) : option transfer :=
  foldl (λ o a, s ← o ; transfer_act msgmax qbytes a s) (Some s) l.

Lemma transfer_run_reach msgmax qbytes l s s' :
  transfer_run msgmax qbytes l s = Some s' → rtc (transfer_step msgmax qbytes) s s'.
Proof.
  rw /transfer_run. elim/rev_ind: l s' => [|a l IH] s'; [intros [= ->]; constructor|]. rw foldl_app /=.
  destruct (foldl _ _ l) as [s1|]; [|done]. cbn. intros H. eapply rtc_r; [by apply IH|].
  destruct a as [n| |]; cbn in H.
  - by apply step_move, (move_server _ _ n).
  - by apply step_move, move_client.
  - by apply step_serve_fail.
Qed.

Definition nine : list ascii := cs "some text".
(** Blocks of four bytes, which the client takes from time to time. *)
Definition four_at_a_time : list actor :=
  [Child 0; Child 4; Child 0; Child 4; Client; Child 0; Child 4; Client; Child 0; Client; Client; Child 0; Child 0;
   Client; Client; Client; Client].

Lemma file_transfer_witness :
  ∃ s, rtc (transfer_step RESP_MSG_SIZE 8) (transfer_start (Some nine)) s ∧ f_client s = COver EXIT_SUCCESS ∧
    (∃ c blocks, Some nine = Some c ∧ f_got s = (data <$> blocks) ++ [end_msg] ∧ concat blocks `prefix_of` c ∧
       (f_lost s = false → concat blocks = c) ∧
       f_out s = received_line (strlen (concat blocks)) (to_int (Z.of_nat (length blocks) + 1))) ∧
    f_out s = received_line 9 4.
Proof.
  destruct (transfer_run RESP_MSG_SIZE 8 four_at_a_time (transfer_start (Some nine))) as [s|] eqn:E; [|by vm_compute in E].
  exists s. pose proof (transfer_run_reach _ _ _ _ _ E) as Hr.
  destruct (file_transfer RESP_MSG_SIZE 8 (Some nine) s Hr) as (H & _).
  assert (f_client s = COver EXIT_SUCCESS ∧ f_out s = received_line 9 4) as [Hc Ho].
  { vm_compute in E. injection E as <-. by vm_compute. }
  split_and!; [done|done|by apply H|done].
Defined.

(** A read that fails: the client reports a part of the file, as a success. *)
Lemma short_transfer_succeeds :
  ∃ s, rtc (transfer_step RESP_MSG_SIZE 8) (transfer_start (Some nine)) s ∧ f_client s = COver EXIT_SUCCESS ∧
    f_out s = received_line 4 2.
Proof.
  destruct (transfer_run RESP_MSG_SIZE 8 [Child 0; Child 4; Child 0; ChildFails; Child 0; Client; Client; Client; Client]
    (transfer_start (Some nine))) as [s|] eqn:E; [|by vm_compute in E].
  exists s. split; [exact (transfer_run_reach _ _ _ _ _ E)|]. vm_compute in E. injection E as <-. by vm_compute.
Qed.
