(* ===== verification/SemOps.v ===== *)
(** * Semaphore operations from the command line: [svsem/svsem_op.c]

    Each argument holds the operations of one call of semop.  [parseOps] takes
    them apart; its loop ends because it counts its turns up to MAX_SEMOPS.
    The fields of [struct sembuf] have 16 bits, and what strtol yields is cut
    to them.  [time/curr_time.c] gives the time in the messages. *)

From S2P Require Import Prelude CStdlib ErrFns GetNum Tlpi.

Definition MAX_SEMOPS : nat := 1000.
Definition IPC_NOWAIT : Z := 2048.
Definition SEM_UNDO : Z := 4096.

Record sembuf := Sembuf { sem_num : Z; sem_op : Z; sem_flg : Z }.

(** [getpid], [time] with [localtime], [strftime] and [semop]. *)
Class SemopOS (K : Type) := {
  so_getpid : K → Z;
  so_tm : Type;
  so_localtime : K → option so_tm * K;
  so_strftime : nat → cstring → so_tm → cstring;
  so_semop : Z → list sembuf → K → res unit * K;
}.

Section program.
Context {K : Type} `{!TlpiEnv K, !SemopOS K}.
Abbreviation T := (M (tproc K)).

(** ** The parser *)

Definition usageError {A} (progName : cstring) : T A :=
  teprintf (cs "Usage: " ++ progName ++ cs " semid op[,op...] ..." ++ [NL; NL]) ;;
  teprintf (cs "'op' is either: <sem#>{+|-}<value>[n][u]" ++ [NL]) ;;
  teprintf (cs "            or: <sem#>=0[n]" ++ [NL]) ;;
  teprintf (cs "       " ++ QUOTE ++ cs "n" ++ QUOTE ++ cs " means include IPC_NOWAIT in 'op'" ++ [NL]) ;;
  teprintf (cs "       " ++ QUOTE ++ cs "u" ++ QUOTE ++ cs " means include SEM_UNDO in 'op'" ++ [NL; NL]) ;;
  teprintf (cs "The operations in each argument are performed in a single semop() call" ++ [NL; NL]) ;;
  teprintf (cs "e.g.: " ++ progName ++ cs " 12345 0+1,1-2un" ++ [NL]) ;;
  teprintf (cs "      " ++ progName ++ cs " 12345 0=0n 1+1,2-1u 1=0" ++ [NL]) ;;
  texit EXIT_FAILURE.

(** The loop over the flag letters. *)
Fixpoint scan_flags (flags : cstring) (flg : Z) : Z * cstring :=
  match flags with
  | "n"%char :: r => scan_flags r (Z.lor flg IPC_NOWAIT)
  | "u"%char :: r => scan_flags r (Z.lor flg SEM_UNDO)
  | _ => (flg, flags)
  end.

(** One operation, at the start of [remaining]. *)
Definition parseOp (arg remaining : cstring) : T sembuf :=
  match remaining with
  | [] => tfatal (cs "Trailing comma or empty argument: " ++ QUOTE ++ arg ++ QUOTE)
  | c :: _ =>
      if negb (isdigit c)
      then tcmdLineErr (cs "Expected initial digit: " ++ QUOTE ++ arg ++ QUOTE ++ [NL]) else
      let '(num, sign, _) := strtol remaining 10 in
      match sign with
      | sg :: value =>
          if negb (bool_decide (sg ∈ ["+"; "-"; "="]%char))
          then tcmdLineErr (cs "Expected '+', '-', or '=' in " ++ QUOTE ++ arg ++ QUOTE ++ [NL]) else
          if negb (match value with d :: _ => isdigit d | [] => false end)
          then tcmdLineErr (cs "Expected digit after '" ++ [sg] ++ cs "' in " ++ QUOTE ++ arg ++ QUOTE ++ [NL])
          else
            let '(v, flags, _) := strtol value 10 in
            let op := wrapS 16 v in
            if bool_decide (sg = "="%char) && negb (op =? 0)
            then tcmdLineErr (cs "Expected " ++ QUOTE ++ cs "=0" ++ QUOTE ++ cs " in " ++
                              QUOTE ++ arg ++ QUOTE ++ [NL])
            else
              let op := if bool_decide (sg = "-"%char) then wrapS 16 (- op) else op in
              let '(flg, rest) := scan_flags flags 0 in
              match rest with
              | [] | ","%char :: _ => mret (Sembuf (wrapU 16 num) op flg)
              | c :: _ => tcmdLineErr (cs "Bad trailing character (" ++ [c] ++ cs ") in " ++
                                       QUOTE ++ arg ++ QUOTE ++ [NL])
              end
      | [] => tcmdLineErr (cs "Expected '+', '-', or '=' in " ++ QUOTE ++ arg ++ QUOTE ++ [NL])
      end
  end.

(** The loop; [room] operations still fit. *)
Fixpoint parse_loop (room : nat) (arg remaining : cstring) : T (list sembuf) :=
  match room with
  | O => tcmdLineErr (cs "Too many operations (maximum=" ++ fmt_d (Z.of_nat MAX_SEMOPS) ++
                      cs "): " ++ QUOTE ++ arg ++ QUOTE ++ [NL])
  | S room =>
      op ← parseOp arg remaining ;
      match strchr_split ","%char remaining with
      | None => mret [op]
      | Some (_, remaining) => ops ← parse_loop room arg remaining ; mret (op :: ops)
      end
  end.

(** The operations stored in [sops]; the function returns their number. *)
Definition parseOps (arg : cstring) : T (list sembuf) := parse_loop MAX_SEMOPS arg arg.

(** ** The program *)

Definition BUF_SIZE : nat := 1000.
Definition currTime (format : option cstring) : T (option cstring) :=
  tm ← tsys so_localtime ;
  match tm with
  | None => mret None
  | Some tm =>
      match so_strftime BUF_SIZE (default (cs "%c") format) tm with
      | [] => mret None
      | buf => mret (Some buf)
      end
  end.

(** [%5ld], and [%s] of a pointer that may be null. *)
Definition fmt_5d (n : Z) : cstring :=
  let t := fmt_d n in replicate (5 - length t) " "%char ++ t.
Definition fmt_s (t : option cstring) : cstring := default (cs "(null)") t.

Definition report (text arg : cstring) : T unit :=
  pid ← gets (so_getpid ∘ t_os) ;
  t ← currTime (Some (cs "%T")) ;
  tprintf (fmt_5d pid ++ cs ", " ++ fmt_s t ++ cs ": " ++ text ++ cs " [" ++ arg ++ cs "]" ++ [NL]).

Fixpoint semop_loop (semid : option cstring) (args : list cstring) : T unit :=
  match args with
  | [] => mret tt
  | arg :: args =>
      sops ← parseOps arg ;
      report (cs "about to semop() ") arg ;;
      id ← with_stderr (getInt semid 0 (Some (cs "semid"))) ;
      r ← tcall (so_semop id sops) ;
      pid ← gets (so_getpid ∘ t_os) ;
      match r with
      | None => terrExit (cs "semop (PID=" ++ fmt_d pid ++ cs ")")
      | Some _ => report (cs "semop() completed") arg ;; semop_loop semid args
      end
  end.

Definition svsem_op_main (argv : list cstring) : T unit :=
  match argv with
  | [] => stop Crash
  | [prog] => usageError prog
  | prog :: semid :: args =>
      if bool_decide (semid = cs "--help") then usageError prog else
      semop_loop (Some semid) args ;; texit EXIT_SUCCESS
  end.
End program.

(** ** Correctness *)

(** The text of an operation, as the usage message describes it. *)
Definition print_op (o : sembuf) : cstring :=
  fmt_d (sem_num o) ++
  (if sem_op o =? 0 then cs "=0"
   else if 0 <? sem_op o then cs "+" ++ fmt_d (sem_op o) else cs "-" ++ fmt_d (- sem_op o)) ++
  (if flag (sem_flg o) IPC_NOWAIT then cs "n" else []) ++
  (if flag (sem_flg o) SEM_UNDO then cs "u" else []).

Fixpoint print_ops (ops : list sembuf) : cstring :=
  match ops with
  | [] => []
  | [o] => print_op o
  | o :: ops => print_op o ++ cs "," ++ print_ops ops
  end.

Definition op_wf (o : sembuf) : Prop :=
  0 ≤ sem_num o < 65536 ∧ -32768 ≤ sem_op o < 32768 ∧
  sem_flg o ∈ [0; IPC_NOWAIT; SEM_UNDO; Z.lor IPC_NOWAIT SEM_UNDO].

(** What may follow an operation. *)
Definition op_end (rest : cstring) : Prop := rest = [] ∨ ∃ r, rest = ","%char :: r.

Lemma wrapU16_id x : 0 ≤ x < 65536 → wrapU 16 x = x.
Proof. intros H. by rw /wrapU Z.mod_small. Qed.

Lemma wrapS16_id x : -32768 ≤ x < 32768 → wrapS 16 x = x.
Proof.
  intros H. rw /wrapS. change (2 ^ 16) with 65536. change (2 ^ (16 - 1)) with 32768.
  rw Z.mod_small; lia.
Qed.

Lemma wrapS16_neg x : -32768 ≤ x < 0 → wrapS 16 (- wrapS 16 (- x)) = x.
Proof.
  intros H. destruct (decide (x = -32768)) as [->|]; [done|].
  rw (wrapS16_id (- x)); [lia|]. rw Z.opp_involutive. apply wrapS16_id. lia.
Qed.

Lemma scan_flags_print f rest :
  f ∈ [0; IPC_NOWAIT; SEM_UNDO; Z.lor IPC_NOWAIT SEM_UNDO] → op_end rest →
  scan_flags ((if flag f IPC_NOWAIT then cs "n" else []) ++
              (if flag f SEM_UNDO then cs "u" else []) ++ rest) 0 = (f, rest).
Proof.
  intros Hf Hr. assert (∀ z, scan_flags rest z = (z, rest)) as He
    by (intros z; by destruct Hr as [->|[r ->]]).
  repeat (apply elem_of_cons in Hf as [->|Hf]; [by rw /= He|]). by apply not_elem_of_nil in Hf.
Qed.

Section parser.
Context {K : Type} `{!TlpiEnv K}.
Implicit Types s : tproc K.

(** The parser on well-formed text, with the truncation to 16 bits. *)
Lemma parseOp_text num sg v tail flg rest arg s :
  0 ≤ num ≤ LONG_MAX → 0 ≤ v ≤ LONG_MAX → sg ∈ ["+"; "-"; "="]%char →
  no_digit 10 tail → scan_flags tail 0 = (flg, rest) → op_end rest →
  (sg = "="%char → wrapS 16 v = 0) →
  parseOp arg (fmt_d num ++ sg :: fmt_d v ++ tail) s =
    (Ret (Sembuf (wrapU 16 num)
       (if bool_decide (sg = "-"%char) then wrapS 16 (- wrapS 16 v) else wrapS 16 v) flg), s).
Proof.
  intros Hn Hv Hsg Hnd Hscan Hr Heq.
  assert (isdigit sg = false) as Hsd 
    by (assert (sg = "+" ∨ sg = "-" ∨ sg = "=")%char as [-> | [-> | ->]] by set_solver; done).
  destruct (fmt_d_head num) as (c & r & Ec & Hc); [lia|].
  destruct (fmt_d_head v) as (d & r' & Ed & Hd); [lia|].
  assert (strtol (fmt_d num ++ sg :: fmt_d v ++ tail) 10 = (num, sg :: fmt_d v ++ tail, 0)) as E1.
  { apply strtol_tail; [by right|apply fmt_d_numeral|rw /in_long /LONG_MIN; lia|].
    by apply not_digit_10. }
  assert (strtol (fmt_d v ++ tail) 10 = (v, tail, 0)) as E2
    by (apply strtol_tail; [by right|apply fmt_d_numeral|rw /in_long /LONG_MIN; lia|done]).
  rw /parseOp E1. rw Ec /= Hc /=. rw bool_decide_true //= E2. rw Ed /= Hd /=.
  destruct (decide (sg = "="%char)) as [->|Hne].
  - rw (Heq eq_refl) /= Hscan. by destruct Hr as [->|[? ->]].
  - rw bool_decide_false //= Hscan. by destruct Hr as [->|[? ->]].
Qed.

Lemma parseOp_print o arg rest s :
  op_wf o → op_end rest → parseOp arg (print_op o ++ rest) s = (Ret o, s).
Proof.
  destruct o as [num op flg]. intros (Hn & Ho & Hf) Hr. cbn in Hn, Ho, Hf.
  set (tail := (if flag flg IPC_NOWAIT then cs "n" else []) ++
               (if flag flg SEM_UNDO then cs "u" else []) ++ rest).
  assert (scan_flags tail 0 = (flg, rest)) as Htail by by apply scan_flags_print.
  assert (no_digit 10 tail) as Hnd.
  { rw /tail. destruct (flag flg IPC_NOWAIT); [done|]. destruct (flag flg SEM_UNDO); [done|].
    by destruct Hr as [->|[r ->]]. }
  assert (∀ sg v, 0 ≤ v ≤ 32768 → sg ∈ ["+"; "-"; "="]%char → (sg = "="%char → wrapS 16 v = 0) →
    (if bool_decide (sg = "-"%char) then wrapS 16 (- wrapS 16 v) else wrapS 16 v) = op →
    parseOp arg (fmt_d num ++ sg :: fmt_d v ++ tail) s = (Ret (Sembuf num op flg), s)) as Hgo.
  { intros sg v Hv Hsg Heq <-. rw -{2}(wrapU16_id num Hn).
    apply (parseOp_text _ _ _ _ _ rest); rw /LONG_MAX; try done; lia. }
  rw /print_op; cbn [sem_num sem_op sem_flg]; rw -!app_assoc. fold tail.
  destruct (Z.eqb_spec op 0) as [->|H0]; [apply (Hgo "="%char 0); [lia|set_solver|done|done]|].
  destruct (Z.ltb_spec 0 op).
  - apply (Hgo "+"%char op); [lia|set_solver|done|]. apply wrapS16_id. lia.
  - apply (Hgo "-"%char (- op)); [lia|set_solver|done|]. apply wrapS16_neg. lia.
Qed.

(** Digits, signs and flag letters are no commas. *)
Lemma comma_free o : op_wf o → ","%char ∉ print_op o.
Proof.
  intros (Hn & Ho & Hf). rw /print_op !not_elem_of_app. split_and!.
  - apply fmt_d_free; [lia|done].
  - destruct (Z.eqb_spec (sem_op o) 0); [set_solver|]. destruct (Z.ltb_spec 0 (sem_op o));
      rw not_elem_of_app; (split; [set_solver|apply fmt_d_free; [lia|done]]).
  - case_match; set_solver.
  - case_match; set_solver.
Qed.

Lemma parse_loop_print ops room arg s :
  Forall op_wf ops → ops ≠ [] → (length ops ≤ room)%nat →
  parse_loop room arg (print_ops ops) s = (Ret ops, s).
Proof.
  elim: ops room s => [//|o ops IH] room s Hwf _ Hl. apply Forall_cons in Hwf as [Ho Hwf].
  destruct room as [|room]; [cbn in Hl; lia|]. destruct ops as [|o2 ops].
  - cbn [parse_loop print_ops]. pose proof (parseOp_print o arg [] s Ho (or_introl eq_refl)) as E.
    rw app_nil_r in E. rw (bind_Ret _ _ _ _ _ E).
    by rw (proj2 (strchr_split_None _ _) (comma_free o Ho)).
  - change (print_ops (o :: o2 :: ops)) with (print_op o ++ cs "," ++ print_ops (o2 :: ops)).
    cbn [parse_loop]. rw (bind_Ret _ _ _ _ _ (parseOp_print o arg (cs "," ++ print_ops (o2 :: ops)) s Ho
      (or_intror (ex_intro _ _ eq_refl)))).
    rw (strchr_split_app ","%char (print_op o) (print_ops (o2 :: ops)) (comma_free o Ho)).
    rw (bind_Ret _ _ _ _ _ (IH room s Hwf ltac:(done) ltac:(cbn in *; lia))). done.
Qed.

Lemma wrapU16_range x : 0 ≤ wrapU 16 x < 65536.
Proof. by apply Z.mod_pos_bound. Qed.

Lemma wrapS16_range x : -32768 ≤ wrapS 16 x < 32768.
Proof. rw /wrapS. pose proof (Z.mod_pos_bound (x + 2 ^ (16 - 1)) (2 ^ 16)). lia. Qed.

Lemma scan_flags_range t f :
  f ∈ [0; IPC_NOWAIT; SEM_UNDO; Z.lor IPC_NOWAIT SEM_UNDO] →
  (scan_flags t f).1 ∈ [0; IPC_NOWAIT; SEM_UNDO; Z.lor IPC_NOWAIT SEM_UNDO].
Proof.
  assert (∀ f, f ∈ [0; IPC_NOWAIT; SEM_UNDO; Z.lor IPC_NOWAIT SEM_UNDO] →
    Z.lor f IPC_NOWAIT ∈ [0; IPC_NOWAIT; SEM_UNDO; Z.lor IPC_NOWAIT SEM_UNDO] ∧
    Z.lor f SEM_UNDO ∈ [0; IPC_NOWAIT; SEM_UNDO; Z.lor IPC_NOWAIT SEM_UNDO]) as Hor.
  { intros g Hg. repeat (apply elem_of_cons in Hg as [->|Hg]; [cbn; set_solver|]).
    by apply not_elem_of_nil in Hg. }
  elim: t f => [|c t IH] f Hf; [done|]. destruct (Hor f Hf) as [H1 H2]. cbn [scan_flags].
  repeat case_match; auto.
Qed.

Lemma safe_parseOp arg remaining s :
  safe (parseOp arg remaining) (λ o s', op_wf o ∧ s' = s) s.
Proof.
  rw /parseOp. destruct remaining as [|c r]; [safe_step|].
  destruct (negb (isdigit c)); [safe_step|].
  destruct (strtol (c :: r) 10) as [[num sign] ?]. destruct sign as [|sg value]; [safe_step|].
  destruct (negb (bool_decide _)); [safe_step|]. destruct (negb _); [safe_step|].
  destruct (strtol value 10) as [[v flags] ?]. destruct (_ && _); [safe_step|].
  pose proof (scan_flags_range flags 0 ltac:(set_solver)) as Hf.
  destruct (scan_flags flags 0) as [flg rest]. cbn in Hf.
  assert (op_wf (Sembuf (wrapU 16 num)
    (if bool_decide (sg = "-"%char) then wrapS 16 (- wrapS 16 v) else wrapS 16 v) flg)) as Hwf.
  { split_and!; cbn; try apply wrapU16_range; try done; case_bool_decide; apply wrapS16_range. }
  repeat case_match; first [by safe_step|done].
Qed.

Lemma safe_parse_loop room arg remaining s :
  safe (parse_loop room arg remaining)
    (λ ops s', Forall op_wf ops ∧ (0 < length ops ≤ room)%nat ∧ s' = s) s.
Proof.
  elim: room remaining s => [|room IH] remaining s; cbn [parse_loop]; [safe_step|].
  safe_step. eapply safe_conseq; [apply safe_parseOp|]. intros o s1 [Ho ->].
  destruct (strchr_split _ remaining) as [[? rest]|].
  - safe_step. eapply safe_conseq; [apply IH|]. intros ops s2 (Hops & Hl & ->).
    safe_step. split_and!; [by constructor|cbn; lia..|done].
  - safe_step. split_and!; [by apply Forall_singleton|cbn; lia..|done].
Qed.

(** C30: [parseOps] reads back what it documents: the text of any 1 to MAX_SEMOPS operations
    within the 16-bit fields is parsed to these operations; and on every text
    whatever it ends with a diagnostic or yields 1 to MAX_SEMOPS operations
    whose fields fit. *)
Theorem parseOps_roundtrip ops arg s :
  Forall op_wf ops → (0 < length ops ≤ MAX_SEMOPS)%nat →
  parseOps (print_ops ops) s = (Ret ops, s) ∧
  safe (parseOps arg)
    (λ ops' s', Forall op_wf ops' ∧ (0 < length ops' ≤ MAX_SEMOPS)%nat ∧ s' = s) s.
Proof.
  intros Hwf Hl. split; [|apply safe_parse_loop].
  apply parse_loop_print; [done|by destruct ops; cbn in *; [lia|]|lia].
Qed.

(** Values beyond 16 bits are accepted and cut: adding 65537 adds 1. *)
Lemma parseOps_truncates s :
  parseOps (cs "65536+65537") s = (Ret [Sembuf 0 1 0], s) ∧
  parseOps (cs "0=65536") s = (Ret [Sembuf 0 0 0], s).
Proof. split; reflexivity. Qed.
End parser.

(** ** The calls made *)

(** [semop_log] lists the operations performed: a call adds its own when it
    succeeds, and nothing else touches it. *)
Class SemopOSOk (K : Type) `{!SemopOS K} := {
  semop_log : K → list (Z * list sembuf);
  so_semop_ok id ops k r k' : so_semop id ops k = (r, k') →
    semop_log k' = match r with inr _ => semop_log k ++ [(id, ops)] | inl _ => semop_log k end;
  so_localtime_log k r k' : so_localtime k = (r, k') → semop_log k' = semop_log k;
}.

Section calls.
Context {K : Type} `{!TlpiEnv K, !SemopOS K, !SemopOSOk K}.
Implicit Types s : tproc K.
Abbreviation log s := (semop_log (t_os s)).

Lemma wp_report text arg (Q : unit → tproc K → Prop) E s :
  (∀ s', log s' = log s → Q tt s') → wp (report text arg) Q E s.
Proof.
  intros H. rw /report. apply wp_bind. cbn. apply wp_bind. rw /currTime. apply wp_bind, wp_tsys.
  intros tm k Ht. apply so_localtime_log in Ht.
  assert (∀ t, wp (tprintf t) Q E (TProc (t_io s) k)) as Hp
    by (intros t; apply wp_tprintf; intros e; by apply H).
  destruct tm as [tm|]; [|apply Hp]. destruct (so_strftime _ _ tm); apply Hp.
Qed.

Definition performed (id : Z) (opss : list (list sembuf)) : list (Z * list sembuf) :=
  (id,.) <$> opss.

(** The calls of the first [n] arguments were made, and the next one, refused
    by the kernel, was the last. *)
Definition stopped (id : Z) (opss : list (list sembuf)) s s' : Prop :=
  ∃ n ops k e, opss !! n = Some ops ∧ so_semop id ops k = (inl e, t_os s') ∧
    log s' = log s ++ performed id (take n opss).

Lemma semop_loop_wp id opss s :
  in_int id → Forall (λ ops, Forall op_wf ops ∧ (0 < length ops ≤ MAX_SEMOPS)%nat) opss →
  wp (semop_loop (Some (fmt_d id)) (print_ops <$> opss))
    (λ _ s', log s' = log s ++ performed id opss) (stopped id opss s) s.
Proof.
  intros Hid. elim: opss s => [|ops opss IH] s Hw; [by rw /= app_nil_r|].
  apply Forall_cons in Hw as [[Hwf Hl] Hw]. cbn [semop_loop fmap list_fmap].
  rw /wp (bind_Ret _ _ _ _ _ (parse_loop_print ops MAX_SEMOPS _ s Hwf
    ltac:(by destruct ops; cbn in *; [lia|]) ltac:(lia))) -/(wp _ _ _ _).
  apply wp_bind, wp_report. intros s1 E1.
  rw /wp (bind_Ret _ _ _ _ _ (with_stderr_ret _ s1 id (getInt_roundtrip id _ _ Hid))) -/(wp _ _ _ _).
  apply wp_bind, wp_tcall.
  - intros [] k Hs. apply so_semop_ok in Hs. cbn in Hs. apply wp_bind. cbn [gets wp].
    apply wp_bind, wp_report. cbn. intros s2 E2. eapply wp_mono; [by apply IH| |].
    + intros a s3 E3. rw E3 E2 Hs E1 -app_assoc. done.
    + intros s3 (n & ops' & k' & e & Hn & He & E3). exists (S n), ops', k', e. split_and!; [done..|].
      rw E3 E2 Hs E1 -app_assoc. done.
  - intros e k io' Hs. apply wp_bind. cbn [gets wp]. apply wp_terrExit. intros e'.
    exists 0%nat, ops, (t_os s1), e. split_and!; [done..|]. apply so_semop_ok in Hs. cbn. by rw Hs E1 app_nil_r.
Qed.

Lemma strict_report text arg (Q : unit → tproc K → Prop) s :
  (∀ s', Q tt s') → strict True (report text arg) Q s.
Proof.
  intros H. rw /report. strict_step. cbn. rw /currTime. do 3 strict_step.
  intros [tm|] k _; [destruct (so_strftime _ _ tm)|]; apply H.
Qed.

Lemma semop_loop_strict id opss s :
  in_int id → Forall (λ ops, Forall op_wf ops ∧ (0 < length ops ≤ MAX_SEMOPS)%nat) opss →
  strict True (semop_loop (Some (fmt_d id)) (print_ops <$> opss)) (λ _ _, True) s.
Proof.
  intros Hid. elim: opss s => [|ops opss IH] s Hw; [done|].
  apply Forall_cons in Hw as [[Hwf Hl] Hw]. cbn [semop_loop fmap list_fmap].
  rw /strict (bind_Ret _ _ _ _ _ (parse_loop_print ops MAX_SEMOPS _ s Hwf
    ltac:(by destruct ops; cbn in *; [lia|]) ltac:(lia))) -/(strict True _ _ _).
  strict_step. apply strict_report. intros s1.
  eapply strict_bind_Ret; [exact (with_stderr_ret _ s1 id (getInt_roundtrip id _ _ Hid))|].
  strict_step. strict_step; intros ? k _; strict_step; cbn; [|by apply strict_terrExit].
  strict_step. apply strict_report. intros s2. by apply IH.
Qed.

(** The program performs exactly the operations its arguments describe, one call per
    argument and in order: it exits successfully after all of them, or fails
    after some first ones, when the kernel refuses the next. *)
Lemma svsem_op_performs prog id opss s :
  in_int id → Forall (λ ops, Forall op_wf ops ∧ (0 < length ops ≤ MAX_SEMOPS)%nat) opss →
  ∃ o s', svsem_op_main (prog :: fmt_d id :: (print_ops <$> opss)) s = (o, s') ∧
    (o = Exit EXIT_SUCCESS ∧ log s' = log s ++ performed id opss ∨
     failure o ∧ stopped id opss s s').
Proof.
  intros Hid Hw. rw /svsem_op_main. rw bool_decide_false.
  { intros E. assert (numeral 10 (cs "--help") id) as Hn by (rw -E; apply fmt_d_numeral).
    by pose proof (proj2 (strtol_numeral 10 (cs "--help") id (or_intror eq_refl) ltac:(done))
      (conj Hn (in_int_long _ Hid))). }
  pose proof (semop_loop_wp id opss s Hid Hw) as H.
  pose proof (semop_loop_strict id opss s Hid Hw) as Hs. rw /wp in H. rw /strict in Hs.
  rw /mbind /M_bind. destruct (semop_loop _ _ s) as [o s1]. destruct o as [[]| | | |]; try done.
  - eexists _, _; split; [reflexivity|by left].
  - destruct Hs as [-> _]. eexists _, _; split; [reflexivity|right; split; [by right|done]].
  - eexists _, _; split; [reflexivity|right; split; [by left|done]].
Qed.
End calls.

(** A kernel whose calls succeed while the argument names semaphore set 5. *)
Module SemSim.
Definition kern : Type := list (Z * list sembuf).

#[export] Instance sem_sim_env : TlpiEnv kern := { te_strerror _ := cs "error"; te_dumpcore := None }.
#[export] Instance sem_sim_os : SemopOS kern := {
  so_getpid _ := 100;
  so_tm := unit;
  so_localtime k := (Some tt, k);
  so_strftime _ _ _ := cs "12:00:00";
  so_semop id ops k := if id =? 5 then (inr tt, k ++ [(id, ops)]) else (inl 22, k);
}.
#[export, refine] Instance sem_sim_ok : SemopOSOk kern := { semop_log k := k }.
Proof.
  - intros id ops k r k'. cbn. by destruct (id =? 5); intros [= <- <-].
  - by intros k r k' [= <- <-].
Defined.
Definition boot : tproc kern := TProc (EState [] [] [] 0) [].
Definition sample : list sembuf := [Sembuf 0 1 IPC_NOWAIT; Sembuf 3 0 0; Sembuf 2 (-7) SEM_UNDO].
End SemSim.
Import SemSim.

Lemma sample_wf : Forall op_wf SemSim.sample.
Proof. repeat constructor; cbn; try lia; set_solver. Qed.

Lemma parseOps_roundtrip_witness :
  print_ops SemSim.sample = cs "0+1n,3=0,2-7u" ∧
  parseOps (cs "0+1n,3=0,2-7u") SemSim.boot = (Ret SemSim.sample, SemSim.boot).
Proof.
  split; [reflexivity|].
  apply (parseOps_roundtrip SemSim.sample [] SemSim.boot); [apply sample_wf|cbn; rw /MAX_SEMOPS; lia].
Defined.

Lemma svsem_op_performs_witness :
  ∃ o s', svsem_op_main [cs "svsem_op"; cs "5"; cs "0+1n,3=0,2-7u"] SemSim.boot = (o, s') ∧
    o = Exit EXIT_SUCCESS ∧ t_os s' = [(5, SemSim.sample)].
Proof.
  destruct (svsem_op_performs (cs "svsem_op") 5 [SemSim.sample] SemSim.boot)
    as (o & s' & H & Hcases).
  - done.
  - apply Forall_singleton. split; [apply sample_wf|cbn; rw /MAX_SEMOPS; lia].
  - exists o, s'. split; [exact H|]. destruct Hcases as [[Ho Hl]|[Ho _]]; [by split|].
    vm_compute in H. injection H as <- <-. by destruct Ho.
Defined.
