(* ===== verification/Execlp.v ===== *)
(** * Running a program found by PATH: [procexec/execlp.c]

    The argument vector is an array of cells, whose length is what the
    allocator was asked for; an access outside it, or outside the buffer of
    the pathname, is a crash.  The kernel's [execve] either replaces the
    process, which ends the function with an [image], or fails with an error
    number. *)

From S2P Require Import Prelude.

Definition ENOEXEC : Z := 8.
Definition EFAULT : Z := 14.
Definition SHELL_PATH : cstring := cs "/bin/sh".

(** What the process becomes. *)
Record image := Image { im_path : cstring; im_argv : list cstring; im_envp : list cstring }.

(** [x_environ] are the strings of [environ]; [x_allocs] the answers of the
    allocator to come; when none are left it succeeds. *)
Record xstate (K : Type) := XState {
  x_environ : list cstring; x_errno : Z; x_allocs : list bool; x_os : K }.
Arguments XState {K} _ _ _ _.
Arguments x_environ {K} _.
Arguments x_errno {K} _.
Arguments x_allocs {K} _.
Arguments x_os {K} _.

(** [execve]: [None] when the process is replaced, else the error. *)
Class ExecOS (K : Type) :=
  ex_execve : cstring → list cstring → list cstring → K → option Z * K.

(** The strings before the null cell. *)
Fixpoint cells_until_null (a : list (option cstring)) : list cstring :=
  match a with
  | Some t :: r => t :: cells_until_null r
  | _ => []
  end.

Section execlp.
Context {K : Type} `{!ExecOS K}.
Abbreviation X := (M (xstate K)).

(** ** Library calls *)

Definition set_xerrno (e : Z) : X unit :=
  modify (λ s, XState (x_environ s) e (x_allocs s) (x_os s)).

Definition xalloc : X bool := λ s,
  match x_allocs s with
  | [] => (Ret true, s)
  | true :: r => (Ret true, XState (x_environ s) (x_errno s) r (x_os s))
  | false :: r => (Ret false, XState (x_environ s) ENOMEM r (x_os s))
  end.

(** [strdup]; [None] is the null pointer. *)
Definition xstrdup (t : cstring) : X (option cstring) :=
  ok ← xalloc ; mret (if ok : bool then Some t else None).

Definition execve (pathname : option cstring) (argv envp : list (option cstring))
    : X (option image) := λ s,
  match pathname with
  | None => (set_xerrno EFAULT ;; mret None) s
  | Some p =>
      let a := cells_until_null argv in
      let e := cells_until_null envp in
      match ex_execve p a e (x_os s) with
      | (None, k) => (Ret (Some (Image p a e)), XState (x_environ s) (x_errno s) (x_allocs s) k)
      | (Some err, k) => (Ret None, XState (x_environ s) err (x_allocs s) k)
      end
  end.

Definition xgetenv (name : cstring) : X (option cstring) :=
  env ← gets x_environ ;
  mret (drop (S (length name)) <$> List.find (λ t, bool_decide ((name ++ cs "=") `prefix_of` t)) env).

(** [a[i] = v] and [a[i]]. *)
Definition set_cell (a : list (option cstring)) (i : nat) (v : option cstring)
    : X (list (option cstring)) :=
  if (i <? length a)%nat then mret (<[i := v]> a) else stop Crash.
Definition get_cell (a : list (option cstring)) (i : nat) : X (option cstring) :=
  match a !! i with Some v => mret v | None => stop Crash end.

(** [strcat] to a string in a buffer of [cap] characters. *)
Definition xstrcat (cap : nat) (text t : cstring) : X cstring :=
  if (length text + length t <? cap)%nat then mret (text ++ t) else stop Crash.

(** ** execShScript *)

Fixpoint copy_cells (n j : nat) (argv shArgv : list (option cstring)) : X (list (option cstring)) :=
  match n with
  | O => mret shArgv
  | S n =>
      v ← get_cell argv j ;
      shArgv ← set_cell shArgv (j + 1) v ;
      copy_cells n (j + 1) argv shArgv
  end.

Definition execShScript (argc : nat) (argv envp : list (option cstring)) : X (option image) :=
  shArgv ← set_cell (replicate (argc + 1) None) 0 (Some SHELL_PATH) ;
  shArgv ← copy_cells (argc + 1) 0 argv shArgv ;
  execve (Some SHELL_PATH) shArgv envp.

(** ** execlp *)

(** The loop over the variable arguments: [more] are the ones not yet
    fetched.  [None] is the return after a failed allocation. *)
Fixpoint collect (argv : list (option cstring)) (argc argvSize : nat) (more : list (option cstring))
    : X (option (list (option cstring) * nat)) :=
  last ← get_cell argv (argc - 1) ;
  match last with
  | None => mret (Some (argv, argc))
  | Some _ =>
      match more with
      | [] => stop Crash
      | v :: more =>
          if (argvSize <=? argc + 1)%nat then
            ok ← xalloc ;
            if ok : bool then
              argv ← set_cell (take 1 argv) argc v ;
              collect argv (argc + 1) (argvSize + 100) more
            else mret None
          else
            argv ← set_cell argv argc v ;
            collect argv (argc + 1) argvSize more
      end
  end.

(** [for (...) envp[j] = strdup(environ[j])]. *)
Fixpoint dup_all (env : list cstring) : X (list (option cstring)) :=
  match env with
  | [] => mret [None]
  | t :: r => v ← xstrdup t ; vs ← dup_all r ; mret (v :: vs)
  end.

(** The pathname for the prefix [pre]. *)
Definition build_pathname (pre filename : cstring) : X cstring :=
  let cap := (Nat.max 1 (length pre) + length filename + 2)%nat in
  ok ← xalloc ;
  if ok : bool then
    t ← xstrcat cap [] (if bool_decide (pre = []) then cs "." else pre) ;
    t ← xstrcat cap t (cs "/") ;
    xstrcat cap t filename
  else stop Crash.

(** The loop over the prefixes; the result without an image has
    [fndEACCES] and [savedErrno]. *)
Fixpoint search (fuel : nat) (prStart filename : cstring) (argc : nat)
    (argv envp : list (option cstring)) (fndEACCES : bool) : X (image + bool * Z) :=
  match fuel with
  | O => stop NoFuel
  | S fuel =>
      let '(pre, rest) :=
        match strchr_split ":"%char prStart with
        | Some (a, b) => (a, Some b)
        | None => (prStart, None)
        end in
      pathname ← build_pathname pre filename ;
      r ← execve (Some pathname) argv envp ;
      match r with
      | Some im => mret (inl im)
      | None =>
          savedErrno ← gets x_errno ;
          r ← (if savedErrno =? EACCES then mret None
               else if savedErrno =? ENOEXEC then execShScript argc argv envp else mret None) ;
          match r with
          | Some im => mret (inl im)
          | None =>
              let fndEACCES := fndEACCES || (savedErrno =? EACCES) in
              match rest with
              | None => mret (inr (fndEACCES, savedErrno))
              | Some prStart => search fuel prStart filename argc argv envp fndEACCES
              end
          end
      end
  end.

(** [None] is the result -1. *)
Definition execlp (filename : cstring) (args : list cstring) : X (option image) :=
  ok ← xalloc ;
  if negb ok then mret None else
  argv ← set_cell (replicate 100 None) 0 (head args) ;
  built ← collect argv 1 100 ((Some <$> tail args) ++ [None]) ;
  match built with
  | None => mret None
  | Some (argv, argc) =>
      ok ← xalloc ;
      if negb ok then mret None else
      env ← gets x_environ ;
      envp ← dup_all env ;
      r ← (if bool_decide ("/"%char ∈ filename) then
             pathname ← xstrdup filename ;
             r ← execve pathname argv envp ;
             match r with
             | Some im => mret (inl im)
             | None =>
                 savedErrno ← gets x_errno ;
                 r ← (if savedErrno =? ENOEXEC then execShScript argc argv envp else mret None) ;
                 mret (match r with Some im => inl im | None => inr (false, savedErrno) end)
             end
           else
             p ← xgetenv (cs "PATH") ;
             PATH ← xstrdup (match p with Some (c :: r) => c :: r | _ => cs "." end) ;
             match PATH with
             | None => stop Crash
             | Some PATH => search (S (length PATH)) PATH filename argc argv envp false
             end) ;
      match r with
      | inl im => mret (Some im)
      | inr (fndEACCES, savedErrno) =>
          set_xerrno (if fndEACCES : bool then EACCES else savedErrno) ;;
          mret None
      end
  end.
End execlp.

(** ** The search the function promises *)

Fixpoint split_on (c : ascii) (t : cstring) : list cstring :=
  match t with
  | [] => [[]]
  | x :: r =>
      if decide (x = c) then [] :: split_on c r
      else match split_on c r with
           | d :: ds => (x :: d) :: ds
           | [] => [[x]]
           end
  end.

Lemma split_on_split c t a b :
  strchr_split c t = Some (a, b) → split_on c t = a :: split_on c b.
Proof.
  elim: t a b => [//|x r IH] a b /=. case_decide; [by intros [= <- <-]|].
  destruct (strchr_split c r) as [[a1 b1]|]; [|done]. intros [= <- <-].
  by rw (IH a1 b1 eq_refl).
Qed.

Lemma split_on_last c t : strchr_split c t = None → split_on c t = [t].
Proof.
  elim: t => [//|x r IH] /=. case_decide; [done|].
  destruct (strchr_split c r) as [[]|]; [done|]. intros _. by rw IH.
Qed.

(** A name with a slash stands for itself; another is looked for in the
    directories of PATH, an empty one standing for the current directory. *)
Definition in_dir (filename dir : cstring) : cstring :=
  (if bool_decide (dir = []) then cs "." else dir) ++ cs "/" ++ filename.

Definition search_path (env : list cstring) : cstring :=
  match List.find (λ t, bool_decide (cs "PATH=" `prefix_of` t)) env with
  | Some t => match drop 5 t with [] => cs "." | d => d end
  | None => cs "."
  end.

Definition candidates (filename : cstring) (env : list cstring) : list cstring :=
  if bool_decide ("/"%char ∈ filename) then [filename]
  else in_dir filename <$> split_on ":"%char (search_path env).

Inductive exec_result :=
| Ran (im : image)
| Failed (e : Z)
| NotBinary (p : cstring).

(** The candidates in order, up to the first that runs or is no binary; when
    none is left, EACCES if any had it, else the last error. *)
Fixpoint try_each {K} `{!ExecOS K} (args env : list cstring) (cands : list cstring)
    (denied : bool) (last : Z) (k : K) : exec_result * K :=
  match cands with
  | [] => (Failed (if denied then EACCES else last), k)
  | p :: cands =>
      match ex_execve p args env k with
      | (None, k) => (Ran (Image p args env), k)
      | (Some e, k) =>
          if e =? ENOEXEC then (NotBinary p, k)
          else try_each args env cands (denied || (e =? EACCES)) e k
      end
  end.

(** ** Proofs *)

Lemma cells_until_null_app l r : cells_until_null ((Some <$> l) ++ None :: r) = l.
Proof. elim: l => [//|t l IH] /=. by rw IH. Qed.

Section search.
Context {K : Type} `{!ExecOS K}.
Implicit Types s : xstate K.

Definition with_os (e : Z) (k : K) s : xstate K := XState (x_environ s) e (x_allocs s) k.

Lemma xalloc_ok s : x_allocs s = [] → xalloc s = (Ret true, s).
Proof. by rw /xalloc => ->. Qed.

Lemma xstrdup_ok t s : x_allocs s = [] → xstrdup t s = (Ret (Some t), s).
Proof. intros H. by rw /xstrdup (bind_Ret _ _ _ _ _ (xalloc_ok _ H)). Qed.

Lemma dup_all_ok env s : x_allocs s = [] → dup_all env s = (Ret ((Some <$> env) ++ [None]), s).
Proof.
  intros H. elim: env => [//|t r IH]. cbn [dup_all].
  by rw (bind_Ret _ _ _ _ _ (xstrdup_ok _ _ H)) (bind_Ret _ _ _ _ _ IH).
Qed.

(** The vector of [l] in an array of 100 cells. *)
Definition vector (l : list cstring) : list (option cstring) :=
  (Some <$> l) ++ replicate (100 - length l) None.

Lemma length_vector l : (length l ≤ 100)%nat → length (vector l) = 100%nat.
Proof. intros H. rw /vector length_app length_fmap length_replicate. lia. Qed.

Lemma vector_cells l : (length l < 100)%nat → cells_until_null (vector l) = l.
Proof.
  intros H. rw /vector. destruct (100 - length l)%nat as [|n] eqn:E; [lia|].
  apply cells_until_null_app.
Qed.

Lemma vector_snoc l t : (length l < 100)%nat → <[length l := Some t]> (vector l) = vector (l ++ [t]).
Proof.
  intros H. rw /vector insert_app_r_alt; [by rw length_fmap|].
  rw length_fmap Nat.sub_diag fmap_app -app_assoc length_app.
  destruct (100 - length l)%nat as [|n] eqn:E; [lia|]. cbn.
  replace (100 - (length l + 1))%nat with n by lia. done.
Qed.

Lemma vector_null l : (length l < 100)%nat → <[length l := None]> (vector l) = vector l.
Proof.
  intros H. rw /vector insert_app_r_alt; [by rw length_fmap|]. rw length_fmap Nat.sub_diag.
  by destruct (100 - length l)%nat as [|n] eqn:E; [lia|].
Qed.

Lemma vector_lookup_null l : (length l < 100)%nat → vector l !! length l = Some None.
Proof.
  intros H. rw /vector lookup_app_r; [by rw length_fmap|]. rw length_fmap Nat.sub_diag.
  by destruct (100 - length l)%nat as [|n] eqn:E; [lia|].
Qed.

Lemma vector_lookup_last l t : vector (l ++ [t]) !! length l = Some (Some t).
Proof.
  rw /vector lookup_app_l; [rw length_fmap length_app /=; lia|].
  rw list_lookup_fmap lookup_app_r // Nat.sub_diag //.
Qed.

Lemma set_cell_in a i v s : (i < length a)%nat → set_cell a i v s = (Ret (<[i := v]> a), s).
Proof. intros H. rw /set_cell. by apply Nat.ltb_lt in H as ->. Qed.

Lemma get_cell_at a i v s : a !! i = Some v → get_cell a i s = (Ret v, s).
Proof. by rw /get_cell => ->. Qed.

Lemma collect_step l t v more s :
  (length l + 1 ≤ 98)%nat →
  collect (vector (l ++ [t])) (length (l ++ [t])) 100 (v :: more) s =
    collect (<[length (l ++ [t]) := v]> (vector (l ++ [t]))) (length (l ++ [t]) + 1) 100 more s.
Proof.
  intros H. cbn [collect].
  assert (length (l ++ [t]) = length l + 1)%nat as Hl by rw length_app //.
  replace (length (l ++ [t]) - 1)%nat with (length l) by lia.
  rw (bind_Ret _ _ _ _ _ (get_cell_at _ _ _ s (vector_lookup_last l t))).
  rw (proj2 (Nat.leb_gt _ _)); [lia|].
  rw (bind_Ret _ _ _ _ _ (set_cell_in _ _ _ _ _)) //. rw length_vector; lia.
Qed.

Lemma collect_null l more s :
  (length l < 100)%nat →
  collect (vector l) (length l + 1) 100 more s = (Ret (Some (vector l, length l + 1)%nat), s).
Proof.
  intros H. destruct more; cbn [collect]; rw Nat.add_sub
    (bind_Ret _ _ _ _ _ (get_cell_at _ _ _ s (vector_lookup_null l H))) //.
Qed.

Lemma collect_ok l t rest s :
  (length l + 1 + length rest ≤ 98)%nat →
  collect (vector (l ++ [t])) (length (l ++ [t])) 100 ((Some <$> rest) ++ [None]) s =
    (Ret (Some (vector (l ++ t :: rest), (length (l ++ t :: rest) + 1)%nat)), s).
Proof.
  elim: rest l t => [|u rest IH] l t H; cbn [app fmap list_fmap]; cbn in H; (rw collect_step; [lia|]).
  - rw vector_null; [rw length_app /=; lia|]. rw collect_null; [rw length_app /=; lia|]. done.
  - rw vector_snoc; [rw length_app /=; lia|].
    replace (length (l ++ [t]) + 1)%nat with (length ((l ++ [t]) ++ [u])) by (rw length_app //).
    rw IH; [rw length_app /=; lia|]. by rw -app_assoc.
Qed.

(** The whole vector, empty argument list included. *)
Lemma collect_args args s :
  (length args ≤ 98)%nat →
  collect (<[0%nat := head args]> (replicate 100 None)) 1 100 ((Some <$> tail args) ++ [None]) s =
    (Ret (Some (vector args, (length args + 1)%nat)), s).
Proof.
  intros H. destruct args as [|t rest].
  - exact (collect_null [] _ s ltac:(cbn; lia)).
  - exact (collect_ok [] t rest s H).
Qed.

(** ** The shell *)

(** The last cell copied lies outside [shArgv]. *)
Lemma copy_cells_crash n j argv shArgv s :
  length shArgv = (j + S n)%nat → (j + S n ≤ length argv)%nat →
  copy_cells (S n) j argv shArgv s = (Crash, s).
Proof.
  elim: n j shArgv => [|n IH] j sh Hs Ha; cbn [copy_cells];
    (destruct (lookup_lt_is_Some_2 argv j) as [v Hv]; [lia|]);
    rw (bind_Ret _ _ _ _ _ (get_cell_at _ _ _ s Hv)).
  - rw /mbind /M_bind /set_cell. by rw (proj2 (Nat.ltb_ge _ _)); [lia|].
  - rw (bind_Ret _ _ _ _ _ (set_cell_in _ _ _ _ _)); [lia|].
    apply IH; [rw length_insert; lia|lia].
Qed.

Lemma execShScript_crash argc argv envp s :
  (argc < length argv)%nat → execShScript argc argv envp s = (Crash, s).
Proof.
  intros H. rw /execShScript (bind_Ret _ _ _ _ _ (set_cell_in _ _ _ s _)); [rw length_replicate; lia|].
  rw Nat.add_1_r /mbind /M_bind copy_cells_crash //. rw length_insert length_replicate. lia.
Qed.

(** ** The search *)

Lemma xstrcat_fits cap text u s :
  (length text + length u < cap)%nat → xstrcat cap text u s = (Ret (text ++ u), s).
Proof. intros H. rw /xstrcat. by rw (proj2 (Nat.ltb_lt _ _)); [lia|]. Qed.

Lemma build_pathname_ok pre filename s :
  x_allocs s = [] → build_pathname pre filename s = (Ret (in_dir filename pre), s).
Proof.
  intros H. rw /build_pathname (bind_Ret _ _ _ _ _ (xalloc_ok _ H)) /in_dir.
  set (d := if bool_decide (pre = []) then cs "." else pre).
  assert (length d = Nat.max 1 (length pre)) as Hd.
  { rw /d. case_bool_decide; [by subst|]. destruct pre; [done|cbn; lia]. }
  rw (bind_Ret _ _ _ _ _ (xstrcat_fits _ [] d s _)); [cbn; lia|].
  rw (bind_Ret _ _ _ _ _ (xstrcat_fits _ _ _ s _)); [cbn; lia|].
  rw xstrcat_fits; [rw length_app /=; lia|]. by rw -app_assoc.
Qed.

(** How the outcome of the function agrees with the search. *)
Definition answers (r : exec_result * K) (o : outcome (image + bool * Z)) s s' : Prop :=
  x_allocs s' = x_allocs s ∧ x_os s' = r.2 ∧
  match r.1 with
  | Ran im => o = Ret (inl im)
  | Failed e => ∃ b n, o = Ret (inr (b, n)) ∧ e = if b : bool then EACCES else n
  | NotBinary _ => o = Crash
  end.

Lemma search_ok fuel PATH filename args env denied last s :
  (length PATH < fuel)%nat → x_allocs s = [] → (length args ≤ 98)%nat →
  ∃ o s', search fuel PATH filename (length args + 1) (vector args) ((Some <$> env) ++ [None]) denied s
            = (o, s') ∧
    answers (try_each args env (in_dir filename <$> split_on ":"%char PATH) denied last (x_os s)) o s s'.
Proof.
  elim: fuel PATH denied last s => [|fuel IH] PATH denied last s Hf Ha Hl; [lia|]. cbn [search].
  set (pr := match strchr_split ":"%char PATH with Some (a, b) => (a, Some b) | None => (PATH, None) end).
  assert (split_on ":"%char PATH = pr.1 :: match pr.2 with Some b => split_on ":"%char b | None => [] end ∧
          match pr.2 with Some b => (length b < fuel)%nat | None => True end) as [Hp Hpf].
  { rw /pr. destruct (strchr_split _ PATH) as [[a b]|] eqn:E; cbn.
    - rw (split_on_split _ _ _ _ E). apply strchr_split_Some in E as [-> _].
      rw length_app /= in Hf. split; [done|lia].
    - by rw (split_on_last _ _ E). }
  rw Hp. clearbody pr. destruct pr as [pre rest]. cbn [fst snd fmap list_fmap try_each] in *.
  rw (bind_Ret _ _ _ _ _ (build_pathname_ok pre filename s Ha)) /mbind {1}/M_bind /execve.
  rw vector_cells; [lia|]. rw (cells_until_null_app env []).
  destruct (ex_execve _ args env (x_os s)) as [[e|] k]; [|by eexists _, _].
  cbn [gets M_bind x_errno].
  destruct (Z.eqb_spec e EACCES) as [->|He]; [|destruct (Z.eqb_spec e ENOEXEC) as [->|Hx]].
  - cbn. rw orb_true_r. destruct rest as [b|]; [|eexists _, _; split; [done|]; split_and!; [done..|by eexists _, _]].
    by apply (IH b true EACCES (with_os EACCES k s)).
  - rw /M_bind execShScript_crash; [rw length_vector; lia|]. by eexists _, _.
  - cbn. rw orb_false_r. destruct rest as [b|]; [|eexists _, _; split; [done|]; split_and!; [done..|by eexists _, _]].
    by apply (IH b denied e (with_os e k s)).
Qed.

Lemma search_path_eq s :
  ∃ p, xgetenv (cs "PATH") s = (Ret p, s) ∧
    match p with Some (c :: r) => c :: r | _ => cs "." end = search_path (x_environ s).
Proof.
  eexists. split; [done|]. rw /search_path. cbn -[List.find].
  destruct (List.find _ (x_environ s)) as [u|]; [|done]. cbn. by destruct (drop 5 u).
Qed.

(** Up to the search: the vectors are built. *)
Lemma execlp_start filename args s :
  x_allocs s = [] → (length args ≤ 98)%nat →
  ∃ o s1, answers (try_each args (x_environ s) (candidates filename (x_environ s)) false 0 (x_os s)) o s s1 ∧
    execlp filename args s =
      match o with
      | Ret (inl im) => (Ret (Some im), s1)
      | Ret (inr (b, e)) => (Ret None, with_os (if b : bool then EACCES else e) (x_os s1) s1)
      | _ => (Crash, s1)
      end.
Proof.
  intros Ha Hl. rw /execlp /candidates (bind_Ret _ _ _ _ _ (xalloc_ok _ Ha)). cbn [negb].
  rw (bind_Ret _ _ _ _ _ (set_cell_in _ 0 _ s _)); [rw length_replicate; lia|].
  rw (bind_Ret _ _ _ _ _ (collect_args args s Hl)) (bind_Ret _ _ _ _ _ (xalloc_ok _ Ha)). cbn [negb].
  rw (bind_Ret (gets x_environ) _ s _ s eq_refl) (bind_Ret _ _ _ _ _ (dup_all_ok _ s Ha)).
  case_bool_decide.
  - rw bind_assoc (bind_Ret _ _ _ _ _ (xstrdup_ok _ s Ha)) bind_assoc /mbind {1}/M_bind /execve.
    rw vector_cells; [lia|]. rw (cells_until_null_app _ []). cbn [try_each].
    destruct (ex_execve filename args (x_environ s) (x_os s)) as [[e|] k];
      [|eexists (Ret (inl _)), _; split; [|reflexivity]; done].
    rw /M_bind /gets /=. destruct (Z.eqb_spec e ENOEXEC) as [->|Hx].
    + rw execShScript_crash; [rw length_vector; lia|].
      eexists Crash, _. split; [|reflexivity]. done.
    + eexists (Ret (inr (_, _))), _. split; [|reflexivity]. split_and!; [done..|].
      eexists _, _. split; [done|]. cbn. by destruct (Z.eqb_spec e EACCES) as [->|].
  - destruct (search_path_eq s) as (p & Hp & Hpe).
    rw bind_assoc (bind_Ret _ _ _ _ _ Hp) Hpe bind_assoc (bind_Ret _ _ _ _ _ (xstrdup_ok _ s Ha)).
    destruct (search_ok (S (length (search_path (x_environ s)))) (search_path (x_environ s)) filename
      args (x_environ s) false 0 s ltac:(lia) Ha Hl) as (o & s1 & Hs & Ho).
    rw /mbind /M_bind Hs. exists o, s1. split; [done|]. destruct Ho as (_ & _ & Ho).
    destruct (try_each _ _ _ _ _ _) as [[]]; cbn in Ho; [by subst|by destruct Ho as (? & ? & -> & _)|by subst].
Qed.

(** C21: Up to 98 arguments, and with memory left, [execlp] is the search it promises: it
    runs the first candidate the kernel accepts, with the arguments and the
    environment of the caller; when none is, it returns -1 with EACCES if any
    candidate had that error, else the error of the last one.  A candidate that
    is no binary makes it write outside [shArgv] instead of running the shell. *)
Theorem execlp_search filename args s :
  x_allocs s = [] → (length args ≤ 98)%nat →
  ∃ o s', execlp filename args s = (o, s') ∧
    match try_each args (x_environ s) (candidates filename (x_environ s)) false 0 (x_os s) with
    | (Ran im, k) => o = Ret (Some im) ∧ x_os s' = k
    | (Failed e, k) => o = Ret None ∧ x_errno s' = e ∧ x_os s' = k
    | (NotBinary _, k) => o = Crash ∧ x_os s' = k
    end.
Proof.
  intros Ha Hl. destruct (execlp_start filename args s Ha Hl) as (o & s1 & (_ & Hos & Ho) & ->).
  destruct (try_each _ _ _ _ _ _) as [[im|e|p] k]; cbn in *.
  - subst. by eexists _, _.
  - destruct Ho as (b & n & -> & ->). by eexists _, _.
  - subst. by eexists _, _.
Qed.

(** ** Long argument lists *)

Lemma collect_shrunk argv t more s :
  x_allocs s = [] → argv !! 98%nat = Some (Some t) →
  collect argv 99 100 ((Some <$> more) ++ [None]) s = (Crash, s).
Proof.
  intros Ha Ht. destruct more as [|v more]; cbn [app fmap list_fmap collect];
    rw (bind_Ret _ _ _ _ _ (get_cell_at argv 98 _ s Ht)); cbn [Nat.leb Nat.add];
    rw (bind_Ret _ _ _ _ _ (xalloc_ok _ Ha)) /mbind /M_bind /set_cell (proj2 (Nat.ltb_ge _ _)) //;
    rw length_take; lia.
Qed.

Lemma collect_long l t rest s :
  x_allocs s = [] → (99 ≤ length l + 1 + length rest)%nat → (length l + 1 ≤ 99)%nat →
  collect (vector (l ++ [t])) (length (l ++ [t])) 100 ((Some <$> rest) ++ [None]) s = (Crash, s).
Proof.
  intros Ha. elim: rest l t => [|u rest IH] l t Hr Hl;
    (destruct (decide (length l = 98)%nat) as [E|E];
     [pose proof (vector_lookup_last l t) as Ht; rw E in Ht; rw length_app E;
      by apply (collect_shrunk _ t)|]); cbn in Hr; [lia|].
  cbn [app fmap list_fmap]. rw collect_step; [lia|]. rw vector_snoc; [rw length_app /=; lia|].
  replace (length (l ++ [t]) + 1)%nat with (length ((l ++ [t]) ++ [u])) by (rw length_app //).
  apply IH; rw length_app /=; lia.
Qed.

(** Growing the vector shrinks it: the 99th argument crashes the caller. *)
Lemma execlp_many_args filename args s :
  x_allocs s = [] → (99 ≤ length args)%nat → execlp filename args s = (Crash, s).
Proof.
  intros Ha Hl. rw /execlp (bind_Ret _ _ _ _ _ (xalloc_ok _ Ha)). cbn [negb].
  rw (bind_Ret _ _ _ _ _ (set_cell_in _ 0 _ s _)); [rw length_replicate; lia|].
  destruct args as [|t rest]; [cbn in Hl; lia|].
  apply bind_Crash, (collect_long [] t rest); [done|cbn in *; lia..].
Qed.
End search.

(** A kernel that knows one program, and a text file. *)
Module ExecSim.
Definition kern : Type := list cstring.
#[export] Instance exec_sim_os : ExecOS kern := λ p _ _ k,
  let k := k ++ [p] in
  if bool_decide (p = cs "/bin/ls") then (None, k)
  else if bool_decide (p = cs "./script") then (Some ENOEXEC, k)
  else if bool_decide (p = cs "/secret/ls2") then (Some EACCES, k)
  else (Some ENOENT, k).
Definition boot : xstate kern := XState [cs "HOME=/"; cs "PATH=/secret::/bin"] 0 [] [].
End ExecSim.
Import ExecSim.

Lemma execlp_search_witness :
  execlp (cs "ls") [cs "ls"; cs "-l"] ExecSim.boot =
    (Ret (Some (Image (cs "/bin/ls") [cs "ls"; cs "-l"] (x_environ ExecSim.boot))),
     XState (x_environ ExecSim.boot) ENOENT [] [cs "/secret/ls"; cs "./ls"; cs "/bin/ls"]) ∧
  (∃ s', execlp (cs "ls2") [cs "ls2"] ExecSim.boot = (Ret None, s') ∧ x_errno s' = EACCES).
Proof.
  split; [vm_compute; reflexivity|].
  destruct (execlp_search (cs "ls2") [cs "ls2"] ExecSim.boot) as (o & s' & H & Ho);
    [reflexivity|cbn; lia|].
  vm_compute in Ho. destruct Ho as (Ho & He & _). rw Ho in H. exists s'. by split.
Defined.

(** The script of the current directory is never given to the shell. *)
Lemma execlp_script_crashes :
  ∃ s', execlp (cs "script") [cs "script"] ExecSim.boot = (Crash, s').
Proof. eexists. vm_compute. reflexivity. Qed.
