(* ===== verification/FileIO.v ===== *)
(** * Files read, written and copied: [fileio/copy.c], [fileio/seek_io.c] and
      [four-two/cp-holes.c] of chapter 4

    A descriptor stands for a file and an offset.  [FileOS] has the system
    calls; [FileOSOk] states what POSIX says of them over the view [fview] of
    names, contents and open descriptors: a read may be short and a write may
    be partial.  [FileFullOk] is the condition that none is, and [FileWorks] that no call is refused which could be granted: with it, a program that
    fails does so for a reason of its own. *)

From S2P Require Import Prelude CStdlib ErrFns GetNum Tlpi.

Definition O_RDONLY : Z := 0.
Definition O_WRONLY : Z := 1.
Definition O_RDWR : Z := 2.
Definition O_CREAT : Z := 64.
Definition O_TRUNC : Z := 512.
Definition SEEK_SET : Z := 0.
Definition SEEK_CUR : Z := 1.
Definition SEEK_END : Z := 2.
Definition S_IWUSR : Z := 128.
(** rw-rw-rw- *)
Definition RW_ALL : Z := 438.
Definition BUF_SIZE : nat := 1024.

Class FileOS (K : Type) := {
  fo_open : cstring → Z → Z → K → res Z * K;
  fo_read : Z → nat → K → res (list ascii) * K;
  fo_write : Z → list ascii → K → res nat * K;
  fo_lseek : Z → Z → Z → K → res Z * K;
  fo_close : Z → K → res unit * K;
  fo_malloc : Z → K → bool * K;
}.

Section programs.
Context {K : Type} `{!TlpiEnv K, !FileOS K}.
Abbreviation T := (M (tproc K)).

(** ** copy *)

Fixpoint copy_loop (fuel : nat) (inputFd outputFd : Z) : T unit :=
  match fuel with
  | O => stop NoFuel
  | S fuel =>
      numRead ← tcall (fo_read inputFd BUF_SIZE) ;
      match numRead with
      | None => terrExit (cs "read")
      | Some [] => mret tt
      | Some buf =>
          n ← tcall (fo_write outputFd buf) ;
          if bool_decide (n = Some (length buf)) then copy_loop fuel inputFd outputFd
          else tfatal (cs "write() returned error or partial write occurred")
      end
  end.

Definition copy_files (fuel : nat) (old new : cstring) : T unit :=
  inputFd ← tchecked (cs "opening file " ++ old) (fo_open old O_RDONLY 0) ;
  outputFd ← tchecked (cs "opening file " ++ new)
    (fo_open new (Z.lor O_CREAT (Z.lor O_WRONLY O_TRUNC)) RW_ALL) ;
  copy_loop fuel inputFd outputFd ;;
  tchecked (cs "close input") (fo_close inputFd) ;;
  tchecked (cs "close output") (fo_close outputFd).

Definition copy_main (fuel : nat) (argv : list cstring) : T unit :=
  match argv with
  | [prog; old; new] =>
      if bool_decide (old = cs "--help") then tusageErr (prog ++ cs " old-file new-file" ++ [NL])
      else copy_files fuel old new ;; texit EXIT_SUCCESS
  | prog :: _ => tusageErr (prog ++ cs " old-file new-file" ++ [NL])
  | [] => stop Crash
  end.

(** ** seek_io *)

Definition isprint (c : ascii) : bool := bool_decide (32 ≤ byte_Z c ≤ 126).
(** [%02x ]. *)
Definition fmt_02x (c : ascii) : cstring :=
  let t := fmt_base 16 (byte_Z c) in replicate (2 - length t) "0"%char ++ t ++ cs " ".

Definition show_byte (hex : bool) (c : ascii) : cstring :=
  if hex then fmt_02x c else if isprint c then [c] else cs "?".

Fixpoint print_bytes (hex : bool) (buf : list ascii) : T unit :=
  match buf with
  | [] => mret tt
  | c :: r => tprintf (show_byte hex c) ;; print_bytes hex r
  end.

Definition seek_read (fd : Z) (hex : bool) (arg rest : cstring) : T unit :=
  n ← with_stderr (getLong (Some rest) GN_ANY_BASE (Some arg)) ;
  let len := wrapU 64 n in
  ok ← tsys (fo_malloc len) ;
  if negb ok then terrExit (cs "malloc") else
  buf ← tchecked (cs "read") (fo_read fd (Z.to_nat len)) ;
  match buf with
  | [] => tprintf (arg ++ cs ": end-of-file" ++ [NL])
  | _ => tprintf (arg ++ cs ": ") ;; print_bytes hex buf ;; tprintf [NL]
  end.

(** One turn of the loop over the arguments. *)
Definition seek_arg (fd : Z) (arg : cstring) : T unit :=
  match arg with
  | "r"%char :: rest => seek_read fd false arg rest
  | "R"%char :: rest => seek_read fd true arg rest
  | "w"%char :: rest =>
      n ← tchecked (cs "write") (fo_write fd rest) ;
      tprintf (arg ++ cs ": wrote " ++ fmt_d (Z.of_nat n) ++ cs " bytes" ++ [NL])
  | "s"%char :: rest =>
      offset ← with_stderr (getLong (Some rest) GN_ANY_BASE (Some arg)) ;
      tchecked (cs "lseek") (fo_lseek fd offset SEEK_SET) ;;
      tprintf (arg ++ cs ": seek succeeded" ++ [NL])
  | _ => tcmdLineErr (cs "Argument must start with [rRws]: " ++ arg ++ [NL])
  end.

Definition seek_all (file : cstring) (args : list cstring) : T unit :=
  fd ← tchecked (cs "open") (fo_open file (Z.lor O_RDWR O_CREAT) RW_ALL) ;
  for_each args (seek_arg fd) ;;
  tchecked (cs "close") (fo_close fd).

Definition seek_io_main (argv : list cstring) : T unit :=
  let usage prog := tusageErr (prog ++ cs " file {r<length>|R<length>|w<string>|s<offset>}..." ++ [NL]) in
  match argv with
  | prog :: file :: arg :: args =>
      if bool_decide (file = cs "--help") then usage prog
      else seek_all file (arg :: args) ;; texit EXIT_SUCCESS
  | prog :: _ => usage prog
  | [] => stop Crash
  end.

(** ** cp-holes *)

(** The buffer is as long as the file; what a read does not fill stays in it,
    and each write takes the whole buffer. *)
Fixpoint cp_loop (fuel : nat) (srcFd tgtFd : Z) (buffer : list ascii) : T unit :=
  match fuel with
  | O => stop NoFuel
  | S fuel =>
      numRead ← tcall (fo_read srcFd (length buffer)) ;
      match numRead with
      | None => terrExit (cs "read")
      | Some [] => mret tt
      | Some d =>
          let buffer := store buffer 0 d in
          numWrite ← tcall (fo_write tgtFd buffer) ;
          match numWrite with
          | None => tfatal (cs "couldn't write whole buffer")
          | Some _ => cp_loop fuel srcFd tgtFd buffer
          end
      end
  end.

(** [junk] is what the stack holds before the buffer is filled. *)
Definition cp_files (fuel : nat) (junk : nat → ascii) (source target : cstring) : T unit :=
  srcFd ← tchecked (cs "open source") (fo_open source O_RDONLY 0) ;
  tgtFd ← tchecked (cs "open target") (fo_open target (Z.lor O_CREAT O_WRONLY) S_IWUSR) ;
  tgtCurOffset ← tchecked (cs "seek curr") (fo_lseek srcFd 0 SEEK_CUR) ;
  tprintf (cs "tgtCurOffset: " ++ fmt_d tgtCurOffset ++ [NL]) ;;
  tgtEnd ← tchecked (cs "seek end") (fo_lseek srcFd 0 SEEK_END) ;
  tprintf (cs "tgtEnd: " ++ fmt_d tgtEnd ++ [NL]) ;;
  tgtCurOffset ← tchecked (cs "seek restore curr")
    (fo_lseek srcFd (tgtCurOffset - tgtEnd) SEEK_END) ;
  tprintf (cs "tgtCurOffset(resotred): " ++ fmt_d tgtCurOffset ++ [NL]) ;;
  cp_loop fuel srcFd tgtFd (junk <$> seq 0 (Z.to_nat tgtEnd)) ;;
  tchecked (cs "close srcFd") (fo_close srcFd) ;;
  tchecked (cs "close tgtFd") (fo_close tgtFd).

Definition cp_holes_main (fuel : nat) (junk : nat → ascii) (argv : list cstring) : T unit :=
  match argv with
  | [prog; source; target] =>
      if bool_decide (source = cs "--help") then tusageErr (prog ++ cs " old-file new-file" ++ [NL])
      else cp_files fuel junk source target ;; texit EXIT_SUCCESS
  | prog :: _ => tusageErr (prog ++ cs " old-file new-file" ++ [NL])
  | [] => stop Crash
  end.
End programs.

(** ** What the calls do *)

Record fview := FView {
  v_names : gmap cstring nat;
  v_files : gmap nat (list ascii);
  v_fds : gmap Z (nat * nat);
}.

(** The content after writing [d] at offset [off]; a gap is filled with
    nulls. *)
Definition write_at (c : list ascii) (off : nat) (d : list ascii) : list ascii :=
  match d with
  | [] => c
  | _ => take off c ++ replicate (off - length c) NUL ++ d ++ drop (off + length d) c
  end.

(** The view after [open] gave descriptor [fd] for file [i]. *)
Definition opened (path : cstring) (flags fd : Z) (i : nat) (v v' : fview) : Prop :=
  v_fds v !! fd = None ∧ v_fds v' = <[fd := (i, O)]> (v_fds v) ∧
  match v_names v !! path with
  | Some i' =>
      i = i' ∧ v_names v' = v_names v ∧
      v_files v' = if flag flags O_TRUNC then <[i := []]> (v_files v) else v_files v
  | None =>
      flag flags O_CREAT = true ∧ v_files v !! i = None ∧
      v_names v' = <[path := i]> (v_names v) ∧ v_files v' = <[i := []]> (v_files v)
  end.

(** Every name is that of a file. *)
Definition wf_view (v : fview) : Prop :=
  ∀ p i, v_names v !! p = Some i → is_Some (v_files v !! i).

Definition seek_base (whence : Z) (off : nat) (c : list ascii) : Z :=
  if whence =? SEEK_SET then 0 else if whence =? SEEK_CUR then Z.of_nat off else Z.of_nat (length c).

Class FileOSOk (K : Type) `{!FileOS K} := {
  fo_view : K → fview;
  fo_open_ok p fl m k fd k' :
    fo_open p fl m k = (inr fd, k') → ∃ i, opened p fl fd i (fo_view k) (fo_view k');
  fo_read_ok fd n k d k' i off c :
    fo_read fd n k = (inr d, k') →
    v_fds (fo_view k) !! fd = Some (i, off) → v_files (fo_view k) !! i = Some c →
    d = take (length d) (drop off c) ∧ (length d ≤ n)%nat ∧
    (d = [] → n = O ∨ drop off c = []) ∧
    fo_view k' = FView (v_names (fo_view k)) (v_files (fo_view k))
                   (<[fd := (i, off + length d)%nat]> (v_fds (fo_view k)));
  fo_write_ok fd d k n k' i off c :
    fo_write fd d k = (inr n, k') →
    v_fds (fo_view k) !! fd = Some (i, off) → v_files (fo_view k) !! i = Some c →
    (n ≤ length d)%nat ∧
    fo_view k' = FView (v_names (fo_view k)) (<[i := write_at c off (take n d)]> (v_files (fo_view k)))
                   (<[fd := (i, off + n)%nat]> (v_fds (fo_view k)));
  fo_lseek_ok fd z whence k new k' i off c :
    fo_lseek fd z whence k = (inr new, k') →
    v_fds (fo_view k) !! fd = Some (i, off) → v_files (fo_view k) !! i = Some c →
    new = seek_base whence off c + z ∧ 0 ≤ new ∧
    fo_view k' = FView (v_names (fo_view k)) (v_files (fo_view k))
                   (<[fd := (i, Z.to_nat new)]> (v_fds (fo_view k)));
  fo_close_ok fd k k' :
    fo_close fd k = (inr tt, k') →
    fo_view k' = FView (v_names (fo_view k)) (v_files (fo_view k)) (delete fd (v_fds (fo_view k)));
  fo_malloc_ok n k b k' : fo_malloc n k = (b, k') → fo_view k' = fo_view k;
}.

(** A condition that need not hold: no transfer is short, so a read stops only at the end of the
    file and a write takes it all. *)
Class FileFullOk (K : Type) `{!FileOS K, !FileOSOk K} : Prop := {
  fo_read_full fd n k d k' i off c :
    fo_read fd n k = (inr d, k') →
    v_fds (fo_view k) !! fd = Some (i, off) → v_files (fo_view k) !! i = Some c →
    d = take n (drop off c);
  fo_write_full fd d k n k' : fo_write fd d k = (inr n, k') → n = length d;
}.

(** Nothing that can be granted is refused, and memory suffices. *)
Class FileWorks (K : Type) `{!FileOS K, !FileOSOk K} : Prop := {
  fw_open p fl m k :
    wf_view (fo_view k) → is_Some (v_names (fo_view k) !! p) ∨ flag fl O_CREAT = true →
    ∃ fd k', fo_open p fl m k = (inr fd, k');
  fw_read fd n k i off c :
    v_fds (fo_view k) !! fd = Some (i, off) → v_files (fo_view k) !! i = Some c →
    ∃ d k', fo_read fd n k = (inr d, k');
  fw_write fd d k i off c :
    v_fds (fo_view k) !! fd = Some (i, off) → v_files (fo_view k) !! i = Some c →
    ∃ k', fo_write fd d k = (inr (length d), k');
  fw_lseek fd z whence k i off c :
    v_fds (fo_view k) !! fd = Some (i, off) → v_files (fo_view k) !! i = Some c →
    0 ≤ seek_base whence off c + z → ∃ new k', fo_lseek fd z whence k = (inr new, k');
  fw_close fd k : is_Some (v_fds (fo_view k) !! fd) → ∃ k', fo_close fd k = (inr tt, k');
  fw_malloc n k : ∃ k', fo_malloc n k = (true, k');
}.

#[global] Arguments write_at : simpl never.

Lemma write_at_end c d : write_at c (length c) d = c ++ d.
Proof.
  destruct d as [|x d]; [by rw app_nil_r|]. rw /write_at Nat.sub_diag firstn_all.
  rw drop_ge; [lia|]. by rw app_nil_r.
Qed.

Lemma take_drop_more (n : nat) (c d : list ascii) :
  d = take (length d) (drop n c) → take n c ++ d = take (n + length d) c.
Proof. intros E. by rw -take_take_drop -E. Qed.

Section copy.
Context {K : Type} `{!TlpiEnv K, !FileOS K, !FileOSOk K}.
Implicit Types (s : tproc K) (G : Prop).
Abbreviation view s := (fo_view (t_os s)).

(** A call that a working system grants does not fail: the reason [G] needs no
    proof. *)
Lemma not_refused {A} (f : K → res A * K) (k : K) (G : Prop) :
  (FileWorks K → ∃ v k', f k = (inr v, k')) → (∀ v k', f k ≠ (inr v, k')) → FileWorks K → G.
Proof. intros H Hn W. destruct (H W) as (v & k' & E). by destruct (Hn v k'). Qed.

Lemma open_refused p fl m k G :
  wf_view (fo_view k) → is_Some (v_names (fo_view k) !! p) ∨ flag fl O_CREAT = true →
  (∀ fd k', fo_open p fl m k ≠ (inr fd, k')) → FileWorks K → G.
Proof. intros ??. apply not_refused. intros W. by apply fw_open. Qed.

Lemma read_refused fd n k i off c G :
  v_fds (fo_view k) !! fd = Some (i, off) → v_files (fo_view k) !! i = Some c →
  (∀ d k', fo_read fd n k ≠ (inr d, k')) → FileWorks K → G.
Proof. intros Hi Hc. apply not_refused. intros W. exact (fw_read fd n k i off c Hi Hc). Qed.

Lemma write_refused fd d k i off c G :
  v_fds (fo_view k) !! fd = Some (i, off) → v_files (fo_view k) !! i = Some c →
  (∀ k', fo_write fd d k ≠ (inr (length d), k')) → FileWorks K → G.
Proof. intros Hi Hc Hn W. destruct (fw_write fd d k i off c Hi Hc) as [k' E]. by destruct (Hn k'). Qed.

Lemma close_refused fd k G :
  is_Some (v_fds (fo_view k) !! fd) → (∀ v k', fo_close fd k ≠ (inr v, k')) → FileWorks K → G.
Proof. intros H. apply not_refused. intros W. destruct (fw_close fd k H) as [k' E]. eauto. Qed.

Lemma seek_refused fd z w k i off c G :
  v_fds (fo_view k) !! fd = Some (i, off) → v_files (fo_view k) !! i = Some c →
  0 ≤ seek_base w off c + z → (∀ new k', fo_lseek fd z w k ≠ (inr new, k')) → FileWorks K → G.
Proof. intros Hi Hc Hz. apply not_refused. intros W. exact (fw_lseek fd z w k i off c Hi Hc Hz). Qed.

Lemma malloc_refused n k k' G : fo_malloc n k = (false, k') → FileWorks K → G.
Proof. intros E W. destruct (fw_malloc n k) as [k1 E1]. by rw E1 in E. Qed.

(** [n] characters of [src] have been copied to file [j]. *)
Definition copying (i j : nat) (src : list ascii) (inFd outFd : Z) (v0 : fview) (n : nat) (k : K) : Prop :=
  ∃ fds, fo_view k = FView (v_names v0) (<[j := take n src]> (v_files v0)) fds ∧
    fds !! inFd = Some (i, n) ∧ fds !! outFd = Some (j, n).

Lemma copy_loop_strict G i j src inFd outFd v0 fuel n s :
  i ≠ j → inFd ≠ outFd → v_files v0 !! i = Some src → (n ≤ length src < fuel + n)%nat →
  copying i j src inFd outFd v0 n (t_os s) →
  strict (FileWorks K → G) (copy_loop fuel inFd outFd)
    (λ _ s', copying i j src inFd outFd v0 (length src) (t_os s')) s.
Proof.
  intros Hij Hfd%not_eq_sym Hsrc. elim: fuel n s => [|fuel IH] n s Hn Hc; [lia|]. cbn [copy_loop].
  destruct Hc as (fds & Hv & Hi & Ho).
  assert (v_fds (view s) !! inFd = Some (i, n)) as Hin by (by rw Hv).
  assert (v_files (view s) !! i = Some src) as His by (by rw Hv /= lookup_insert_ne; [by apply not_eq_sym|]).
  strict_step. strict_step; [|intros e k E; apply strict_terrExit, (read_refused _ BUF_SIZE _ _ _ _ G Hin His);
    by rw E]. intros d k Hr.
  destruct (fo_read_ok _ _ _ _ _ i n src Hr Hin His) as (Hd & Hdl & He & Hv1). rw Hv /= in Hv1.
  destruct d as [|x d].
  - strict_step. destruct (He eq_refl) as [?|He']; [done|].
    assert (n = length src) as -> by (apply (f_equal length) in He'; rw length_drop /= in He'; lia).
    exists fds. rw Nat.add_0_r in Hv1. by rw /= Hv1 (insert_id fds).
  - assert (v_fds (fo_view k) !! outFd = Some (j, n)) as Hon
      by (rw Hv1 lookup_insert_ne //; by apply not_eq_sym).
    assert (v_files (fo_view k) !! j = Some (take n src)) as Hjn by (by rw Hv1 lookup_insert_eq).
    strict_step. strict_step; intros w k' Hw.
    2: { rw bool_decide_false //. apply strict_tfatal, (write_refused _ (x :: d) _ _ _ _ G Hon Hjn).
         intros ?. by rw Hw. }
    case_bool_decide as Hl.
    2: { apply strict_tfatal, (write_refused _ (x :: d) _ _ _ _ G Hon Hjn). intros ?. rw Hw. by intros [= -> _]. }
    injection Hl as ->. destruct (fo_write_ok _ _ _ _ _ j n (take n src) Hw Hon Hjn) as (_ & Hv2).
    rw /= Hv1 /= firstn_all in Hv2. apply (IH (n + S (length d))%nat).
    + apply (f_equal length) in Hd. rw length_take length_drop in Hd. cbn [length] in Hd. lia.
    + rw /copying. cbn [t_os]. rw Hv2. exists (<[outFd := (j, n + S (length d))%nat]> (<[inFd := (i, n + S (length d))%nat]> fds)).
      split_and!; [|by rw lookup_insert_ne // lookup_insert_eq|by rw lookup_insert_eq].
      f_equal. replace n with (length (take n src)) at 2 by (rw length_take; lia).
      by rw insert_insert_eq write_at_end (take_drop_more _ _ _ Hd).
Qed.

(** A file copied onto itself was truncated by the second [open]. *)
Lemma copy_loop_self G i inFd outFd fuel s :
  (0 < fuel)%nat → v_fds (view s) !! inFd = Some (i, 0%nat) → v_files (view s) !! i = Some [] →
  strict (FileWorks K → G) (copy_loop fuel inFd outFd)
    (λ _ s', v_names (view s') = v_names (view s) ∧ v_files (view s') = v_files (view s) ∧
       v_fds (view s') = v_fds (view s)) s.
Proof.
  intros Hf Hi Hc. destruct fuel as [|fuel]; [lia|]. cbn [copy_loop].
  strict_step. strict_step; [|intros e k E; apply strict_terrExit, (read_refused _ BUF_SIZE _ _ _ _ G Hi Hc);
    by rw E]. intros d k Hr.
  destruct (fo_read_ok _ _ _ _ _ _ _ _ Hr Hi Hc) as (Hd & _ & _ & Hv). rw take_nil in Hd. subst.
  strict_step. rw /= Hv /= insert_id //.
Qed.

Definition content (v : fview) (path : cstring) : list ascii :=
  default [] (v_names v !! path ≫= (v_files v !!.)).

(** What [copy old new] leaves: [new] has the content of [old], unless both
    name the same file, which is then empty; no other file has changed. *)
Definition copied (old new : cstring) (v v' : fview) : Prop :=
  ∃ i j, v_names v !! old = Some i ∧ v_names v' !! new = Some j ∧
    v_files v' = <[j := if decide (i = j) then [] else content v old]> (v_files v) ∧
    (∀ p, p ≠ new → v_names v' !! p = v_names v !! p).

(** The reason for which [copy] fails: something was refused, or there is no
    old file. *)
Lemma copy_files_strict fuel old new s :
  wf_view (view s) →
  (length (content (view s) old) < fuel)%nat →
  strict (FileWorks K → v_names (view s) !! old = None) (copy_files fuel old new)
    (λ _ s', copied old new (view s) (view s')) s.
Proof.
  intros Hwf Hf. rw /copy_files. do 2 strict_step.
  2: { intros Hn W. destruct (v_names (view s) !! old) as [i0|] eqn:Hold; [|done].
       refine (open_refused _ _ _ _ _ Hwf _ Hn W). left. by rw Hold. }
  intros inFd k1 H1. apply fo_open_ok in H1 as (i & Hn1 & Hf1 & H1).
  destruct (v_names (view s) !! old) as [i0|] eqn:Hold; [|by destruct H1].
  destruct H1 as (-> & Hnm1 & Hfl1). cbn in Hfl1.
  destruct (Hwf old i0 Hold) as [src Hsrc].
  assert (content (view s) old = src) as Hcont by (by rw /content Hold /= Hsrc). rw Hcont in Hf.
  do 2 strict_step.
  2: { apply open_refused; [|by right]. cbn. intros p. rw Hnm1 Hfl1. exact (Hwf p). }
  intros outFd k2 H2. cbn [t_os] in H2.
  apply fo_open_ok in H2 as (j & Hn2 & Hf2 & H2). rw Hf1 Hnm1 Hfl1 in Hn2 Hf2 H2.
  assert (outFd ≠ inFd) as Hne by (intros ->; by rw lookup_insert_eq in Hn2).
  assert (v_names (fo_view k2) !! new = Some j ∧ v_files (fo_view k2) = <[j := []]> (v_files (view s)) ∧
          (∀ p, p ≠ new → v_names (fo_view k2) !! p = v_names (view s) !! p)) as (Hj & Hfl2 & Hoth).
  { destruct (v_names (view s) !! new) as [j0|] eqn:Hnew.
    - destruct H2 as (-> & -> & ->). by rw Hnew.
    - destruct H2 as (_ & _ & -> & ->). split_and!; [by rw lookup_insert_eq|done|].
      intros p Hp. by rw lookup_insert_ne; [by apply not_eq_sym|]. }
  assert (v_fds (fo_view k2) !! inFd = Some (i0, O)) as Hin by (by rw Hf2 lookup_insert_ne // lookup_insert_eq).
  strict_step. eapply (strict_conseq _ _ (λ _ s', v_names (view s') = v_names (fo_view k2) ∧
    v_files (view s') = <[j := if decide (i0 = j) then [] else src]> (v_files (view s)) ∧
    is_Some (v_fds (view s') !! inFd) ∧ is_Some (v_fds (view s') !! outFd))).
  - destruct (decide (i0 = j)) as [->|Hij].
    + eapply strict_conseq; [apply (copy_loop_self _ j); [lia|done|by cbn; rw Hfl2 lookup_insert_eq]|].
      cbn. intros _ s3 (-> & -> & ->). rw Hin Hf2 lookup_insert_eq. eauto.
    + eapply strict_conseq; [apply (copy_loop_strict _ i0 j src inFd outFd
        (FView (v_names (fo_view k2)) (v_files (view s)) ∅) fuel 0 _ Hij (not_eq_sym Hne) Hsrc); [lia|]|].
      * exists (v_fds (fo_view k2)). cbn. rw take_0 -Hfl2. split; [by destruct (fo_view k2)|].
        by rw Hin Hf2 lookup_insert_eq.
      * cbn. intros _ s3 (fds & -> & Hi3 & Ho3). cbn. rw firstn_all Hi3 Ho3. eauto.
  - cbn. intros _ s3 (E1 & E2 & E3 & E4). do 2 strict_step; [|exact (close_refused _ _ _ E3)].
    intros [] k4 H4. apply fo_close_ok in H4. strict_step.
    2: { apply close_refused. cbn. by rw H4 /= lookup_delete_ne; [by apply not_eq_sym|]. }
    intros [] k5 H5. apply fo_close_ok in H5. cbn in *.
    exists i0, j. rw H5 H4 /= E1 E2 Hcont. done.
Qed.

(** C23: [copy old new] exits successfully only when the new file has exactly the
    content of the old one, or is empty when both names are the same file, and
    every other file and name is as before.  Otherwise it fails, and in a file
    system that grants what it can it fails only when there is no old file.  It
    ends: reads may be short, and one turn per character is enough. *)
Theorem copy_correct fuel prog old new s :
  wf_view (view s) → old ≠ cs "--help" → (length (content (view s) old) < fuel)%nat →
  ∃ o s', copy_main fuel [prog; old; new] s = (o, s') ∧
    (o = Exit EXIT_SUCCESS ∧ copied old new (view s) (view s') ∨
     failure o ∧ (FileWorks K → v_names (view s) !! old = None)).
Proof.
  intros Hwf Hh Hf. rw /copy_main bool_decide_false //.
  destruct (strict_exit (B := unit) _ _ _ _ (copy_files_strict fuel old new s Hwf Hf))
    as (o & s' & H & [(-> & s1 & Hc & Hos & _)|Ho]); eexists _, s'; (split; [exact H|]); [left|by right].
  split; [done|]. by rw Hos.
Qed.
End copy.

(** ** The commands of seek_io *)

Inductive fileop :=
| OpRead (hex : bool) (n : nat)
| OpWrite (d : list ascii)
| OpSeek (off : nat).

(** A number in an argument. *)
Definition number_of (rest arg : cstring) : option Z :=
  match getLong (Some rest) GN_ANY_BASE (Some arg) [] with
  | (Ret n, _) => Some n
  | _ => None
  end.

Definition op_of (arg : cstring) : option fileop :=
  match arg with
  | "r"%char :: rest => n ← number_of rest arg ; Some (OpRead false (Z.to_nat (wrapU 64 n)))
  | "R"%char :: rest => n ← number_of rest arg ; Some (OpRead true (Z.to_nat (wrapU 64 n)))
  | "w"%char :: rest => Some (OpWrite rest)
  | "s"%char :: rest => n ← number_of rest arg ; if 0 <=? n then Some (OpSeek (Z.to_nat n)) else None
  | _ => None
  end.

(** The number of bytes that an operation transfers if it is not cut short. *)
Definition full_amount (op : fileop) (c : list ascii) (off : nat) : nat :=
  match op with
  | OpRead _ n => length (take n (drop off c))
  | OpWrite d => length d
  | OpSeek _ => O
  end.

(** The system may transfer [m] bytes: a read gives none only if there is nothing to read. *)
Definition may_transfer (op : fileop) (c : list ascii) (off m : nat) : bool :=
  (m <=? full_amount op c off)%nat &&
  match op with OpRead _ _ => (full_amount op c off =? 0)%nat || negb (m =? 0)%nat | _ => true end.

(** An operation on a content and an offset that transfers [m] bytes, with the text it shows. *)
Definition apply_op (arg : cstring) (op : fileop) (m : nat) (c : list ascii) (off : nat)
    : list ascii * nat * cstring :=
  match op with
  | OpRead hex _ =>
      match take m (drop off c) with
      | [] => (c, off, arg ++ cs ": end-of-file" ++ [NL])
      | d => (c, (off + length d)%nat, arg ++ cs ": " ++ (d ≫= show_byte hex) ++ [NL])
      end
  | OpWrite d =>
      (write_at c off (take m d), (off + m)%nat,
       arg ++ cs ": wrote " ++ fmt_d (Z.of_nat m) ++ cs " bytes" ++ [NL])
  | OpSeek z => (c, z, arg ++ cs ": seek succeeded" ++ [NL])
  end.

(** The arguments in order, with the amounts [ms] that are transferred; [None] when one of the
    arguments is not an operation, or one of the amounts is impossible. *)
Fixpoint apply_args (args : list cstring) (ms : list nat) (c : list ascii) (off : nat)
    : option (list ascii * cstring) :=
  match args, ms with
  | [], [] => Some (c, [])
  | arg :: args, m :: ms =>
      op ← op_of arg ;
      if may_transfer op c off m then
        let '(c, off, t) := apply_op arg op m c off in
        r ← apply_args args ms c off ;
        Some (r.1, t ++ r.2)
      else None
  | _, _ => None
  end.

(** The amounts when no transfer is cut short. *)
Fixpoint full_amounts (args : list cstring) (c : list ascii) (off : nat) : list nat :=
  match args with
  | [] => []
  | arg :: args =>
      match op_of arg with
      | None => []
      | Some op =>
          let m := full_amount op c off in
          let '(c, off, _) := apply_op arg op m c off in m :: full_amounts args c off
      end
  end.

Section seek_io.
Context {K : Type} `{!TlpiEnv K, !FileOS K, !FileOSOk K}.
Implicit Types s : tproc K.
Abbreviation view s := (fo_view (t_os s)).
(** Everything printed so far. *)
Abbreviation output s := (e_stdout (t_io s) ++ e_buffered (t_io s)).

(** The file open at [fd] has content [c], the offset is [off]; the other files
    are those of [v0]. *)
Definition file_at (fd : Z) (i : nat) (v0 : fview) (c : list ascii) (off : nat) (k : K) : Prop :=
  v_names (fo_view k) = v_names v0 ∧ v_files (fo_view k) = <[i := c]> (v_files v0) ∧
  v_fds (fo_view k) !! fd = Some (i, off).

Lemma file_at_content fd i v0 c off k :
  file_at fd i v0 c off k → v_files (fo_view k) !! i = Some c.
Proof. intros (_ & -> & _). by rw lookup_insert_eq. Qed.

Lemma number_of_Some rest arg n :
  (∀ err, getLong (Some rest) GN_ANY_BASE (Some arg) err = (Ret n, err)) → number_of rest arg = Some n.
Proof. intros H. by rw /number_of H. Qed.

Lemma number_of_None rest arg :
  (∀ n err err', getLong (Some rest) GN_ANY_BASE (Some arg) err ≠ (Ret n, err')) → number_of rest arg = None.
Proof.
  intros H. rw /number_of. destruct (getLong _ _ _ []) as [[n| | | |] err] eqn:E; try done. by destruct (H n [] err).
Qed.

Lemma print_bytes_eq hex buf s :
  print_bytes hex buf s =
    (Ret tt, TProc (EState (e_buffered (t_io s) ++ (buf ≫= show_byte hex)) (e_stdout (t_io s))
                      (e_stderr (t_io s)) (e_errno (t_io s))) (t_os s)).
Proof.
  elim: buf s => [|c r IH] s; [by rw /= app_nil_r; destruct s as [[] ?]|].
  cbn [print_bytes]. rw /mbind /M_bind {1}/tprintf /io /=. by rw IH /= -app_assoc.
Qed.

(** After an argument, the file and the output are as [apply_op] says. *)
Definition did (fd : Z) (i : nat) (v0 : fview) (c : list ascii) (off : nat) (arg : cstring) s s' : Prop :=
  ∃ op m, op_of arg = Some op ∧ may_transfer op c off m = true ∧
    (FileFullOk K → m = full_amount op c off) ∧
    let '(c', off', t) := apply_op arg op m c off in
    file_at fd i v0 c' off' (t_os s') ∧ output s' = output s ++ t.

Lemma read_may_transfer hex n c off d :
  d = take (length d) (drop off c) → (length d ≤ n)%nat → (d = [] → n = O ∨ drop off c = []) →
  may_transfer (OpRead hex n) c off (length d) = true.
Proof.
  intros Hd Hn Hz. rw /may_transfer /full_amount length_take. apply andb_true_intro. split.
  - apply Nat.leb_le. rw Hd length_take. lia.
  - destruct d as [|x d]; [|by rw orb_true_r]. destruct (Hz eq_refl) as [->| ->]; [done|].
    by rw Nat.min_0_r.
Qed.

Lemma seek_read_strict fd i v0 c off hex arg rest s :
  (op_of arg = n ← number_of rest arg ; Some (OpRead hex (Z.to_nat (wrapU 64 n)))) →
  file_at fd i v0 c off (t_os s) →
  strict (FileWorks K → op_of arg = None) (seek_read fd hex arg rest) (λ _, did fd i v0 c off arg s) s.
Proof.
  intros Hop Hfile. rw /seek_read. strict_step. apply strict_getLong.
  2: { intros Hn%number_of_None _. by rw Hop Hn. }
  intros n Hn%number_of_Some. rw Hn /= in Hop. do 2 strict_step. intros ok k Hma.
  pose proof (fo_malloc_ok _ _ _ _ Hma) as Hm.
  destruct ok; cbn [negb]; [|exact (strict_terrExit _ _ _ _ (malloc_refused _ _ _ _ Hma))].
  pose proof (file_at_content _ _ _ _ _ _ Hfile) as Hc.
  destruct Hfile as (Hnm & Hfl & Hfd). rw -Hm in Hnm Hfl Hfd Hc.
  do 2 strict_step; [|exact (read_refused _ _ _ _ _ _ _ Hfd Hc)]. intros d k1 Hr.
  rw -/(t_os s) /= in Hr.
  destruct (fo_read_ok _ _ _ _ _ _ _ _ Hr Hfd Hc) as (Hd & Hlen & Hz & Hv).
  set (op := OpRead hex (Z.to_nat (wrapU 64 n))).
  assert (may_transfer op c off (length d) = true) as Hmay by (by apply read_may_transfer).
  assert (FileFullOk K → length d = full_amount op c off) as Hfull.
  { intros HF. rw /op /full_amount. by rw -(fo_read_full _ _ _ _ _ _ _ _ Hr Hfd Hc). }
  assert (file_at fd i v0 c (off + length d) k1) as Hf1 by (by rw /file_at Hv /= lookup_insert_eq).
  destruct d as [|x d].
  - exists op, O. rw Nat.add_0_r in Hf1. rw Hop /apply_op /= -app_assoc. done.
  - do 2 strict_step. eapply strict_bind_Ret; [apply print_bytes_eq|]. strict_step.
    exists op, (length (x :: d)). rw Hop /apply_op /op -Hd. split_and!; [done..|].
    cbn -[show_byte mbind]. by rw -!app_assoc.
Qed.

Lemma seek_arg_strict fd i v0 c off arg s :
  file_at fd i v0 c off (t_os s) →
  strict (FileWorks K → op_of arg = None) (seek_arg fd arg) (λ _, did fd i v0 c off arg s) s.
Proof.
  intros Hfile. pose proof (file_at_content _ _ _ _ _ _ Hfile) as Hc.
  rw /seek_arg. repeat (case_match; try by apply strict_tcmdLineErr); simplify_eq.
  3-4: by apply seek_read_strict.
  - destruct Hfile as (Hnm & Hfl & Hfd). do 2 strict_step.
    2: { intros Hn. refine (write_refused _ _ _ _ _ _ _ Hfd Hc _). intros k'. apply Hn. }
    intros n k Hw. strict_step.
    destruct (fo_write_ok _ _ _ _ _ _ _ _ Hw Hfd Hc) as (Hn & Hv).
    eexists _, n. split; [reflexivity|]. cbn [apply_op]. split; [|split; [|split]]; [| | |by rw /= !app_assoc].
    { rw /may_transfer andb_true_r. by apply Nat.leb_le. }
    { intros HF. exact (fo_write_full _ _ _ _ _ Hw). }
    by rw /file_at /= Hv /= Hnm Hfl insert_insert_eq lookup_insert_eq.
  - destruct Hfile as (Hnm & Hfl & Hfd). strict_step. apply strict_getLong.
    2: { intros Hn%number_of_None _. by rw /= Hn. }
    intros n Hn%number_of_Some. do 2 strict_step.
    2: { intros Hno W. rw /= Hn /=. destruct (Z.leb_spec 0 n); [|done].
         refine (seek_refused _ _ SEEK_SET _ _ _ _ _ Hfd Hc _ Hno W). cbn. lia. }
    intros z k Hs. strict_step.
    destruct (fo_lseek_ok _ _ _ _ _ _ _ _ _ Hs Hfd Hc) as (-> & Hz & Hv). cbn in Hz.
    exists (OpSeek (Z.to_nat n)), O. rw /= Hn /= (proj2 (Z.leb_le _ _) Hz). split_and!; [done..| |by rw !app_assoc]. by rw /file_at Hv /= Hnm Hfl lookup_insert_eq.
Qed.

Lemma seek_args_strict fd i v0 args c off s :
  file_at fd i v0 c off (t_os s) →
  strict (FileWorks K → Exists (λ arg, op_of arg = None) args) (for_each args (seek_arg fd))
    (λ _ s', ∃ ms c' t off', apply_args args ms c off = Some (c', t) ∧
       (FileFullOk K → ms = full_amounts args c off) ∧
       file_at fd i v0 c' off' (t_os s') ∧ output s' = output s ++ t) s.
Proof.
  elim: args c off s => [|arg args IH] c off s Hf; cbn [for_each].
  - strict_step. exists [], c, [], off. by rw app_nil_r.
  - strict_step. eapply strict_conseq; [refine (strict_reason _ _ _ _ _ (seek_arg_strict _ _ _ _ _ _ _ Hf) _)|].
    { intros Hn W. by left; apply Hn. }
    intros _ s1 (op & m & Hop & Hmay & Hfull & H). destruct (apply_op arg op m c off) as [[c1 off1] t1] eqn:Eop.
    destruct H as [Hf1 Ho1].
    eapply strict_conseq; [refine (strict_reason _ _ _ _ _ (IH c1 off1 _ Hf1) _)|].
    { intros Hn W. right. by apply Hn. }
    intros _ s2 (ms & c2 & t2 & off2 & E & Hms & Hf2 & Ho2). exists (m :: ms), c2, (t1 ++ t2), off2.
    cbn [apply_args full_amounts]. rw Hop /= Hmay Eop E /= Ho2 Ho1 -app_assoc. split_and!; try done.
    intros HF. rw -(Hfull HF) Eop. by rw (Hms HF).
Qed.

(** The file has the content the arguments describe, starting from its own at
    offset 0; nothing else has changed, and [t] was printed.  The amounts transferred are full
    ones in a system without short transfers. *)
Definition edited (file : cstring) (args : list cstring) (v v' : fview) (t : cstring) : Prop :=
  ∃ i ms c, v_names v' !! file = Some i ∧ apply_args args ms (content v file) 0 = Some (c, t) ∧
    (FileFullOk K → ms = full_amounts args (content v file) 0) ∧
    v_files v' = <[i := c]> (v_files v) ∧
    (∀ p, p ≠ file → v_names v' !! p = v_names v !! p).

Lemma seek_all_strict file args s :
  wf_view (view s) →
  strict (FileWorks K → Exists (λ arg, op_of arg = None) args) (seek_all file args)
    (λ _ s', ∃ t, edited file args (view s) (view s') t ∧ output s' = output s ++ t) s.
Proof.
  intros Hwf. rw /seek_all. do 2 strict_step; [|by apply open_refused; [|right]]. intros fd k Ho.
  apply fo_open_ok in Ho as (i & _ & Hfds & Ho).
  assert (v_names (fo_view k) !! file = Some i ∧
          file_at fd i (FView (v_names (fo_view k)) (v_files (view s)) ∅) (content (view s) file) 0 k ∧
          (∀ p, p ≠ file → v_names (fo_view k) !! p = v_names (view s) !! p)) as (Hi & Hf & Hoth).
  { rw /file_at /content Hfds lookup_insert_eq /=.
    destruct (v_names (view s) !! file) as [i0|] eqn:Hn; cbn in Ho |- *.
    - destruct Ho as (-> & -> & ->). destruct (Hwf file i0 Hn) as [c Hc].
      rw Hn Hc /= insert_id //.
    - destruct Ho as (_ & _ & -> & ->). rw lookup_insert_eq. split_and!; try done.
      intros p Hp. by rw lookup_insert_ne; [by apply not_eq_sym|]. }
  strict_step. eapply strict_conseq; [exact (seek_args_strict fd i _ args _ 0 (TProc _ k) Hf)|].
  intros _ s1 (ms & c & t & off & Ha & Hms & (Hnm & Hfl & Hfd) & Hout).
  strict_step; [|apply close_refused; by rw Hfd]. intros [] k1 Hcl.
  apply fo_close_ok in Hcl. exists t. split; [|done]. exists i, ms, c. cbn.
  rw Hcl /= Hnm Hfl. done.
Qed.

(** C24: seek_io performs its arguments, in order, on the content and the offset of the
    file, where the system may cut each read and write short: when it exits successfully every argument was an operation, the file
    has the content they lead to (a gap left by a seek reads as nulls) with what was
    transferred, the text they call for was printed, with the bytes that were read and the
    numbers of bytes that were written, and no other file has changed.  Where transfers are not
    cut short the amounts are the full ones.  Else it fails,
    and in a file system that grants what it can it fails only when some
    argument is not an operation. *)
Theorem seek_io_refines prog file arg args s :
  wf_view (view s) → file ≠ cs "--help" →
  ∃ o s', seek_io_main (prog :: file :: arg :: args) s = (o, s') ∧
    (o = Exit EXIT_SUCCESS ∧
       (∃ t, edited file (arg :: args) (view s) (view s') t ∧
             e_stdout (t_io s') = output s ++ t) ∨
     failure o ∧ (FileWorks K → Exists (λ a, op_of a = None) (arg :: args))).
Proof.
  intros Hwf Hh. rw /seek_io_main bool_decide_false //.
  destruct (strict_exit (B := unit) _ _ _ _ (seek_all_strict file (arg :: args) s Hwf))
    as (o & s' & H & [(-> & s1 & (t & Hc & Ht) & Hos & _ & Hout)|Ho]);
    eexists _, s'; (split; [exact H|]); [left|by right].
  split; [done|]. exists t. by rw Hos Hout.
Qed.
End seek_io.

(** ** cp-holes *)

Section cp_holes.
Context {K : Type} `{!TlpiEnv K, !FileOS K, !FileOSOk K, !FileFullOk K}.
Implicit Types (s : tproc K) (G : Prop).
Abbreviation view s := (fo_view (t_os s)).

(** Over the start of the target, whatever the target had beyond it. *)
Definition overlaid (src tgt : list ascii) : list ascii := src ++ drop (length src) tgt.

Lemma write_at_start c d : write_at c 0 d = overlaid d c.
Proof. by destruct d. Qed.

Lemma overlaid_self c : overlaid c c = c.
Proof. rw /overlaid drop_ge // app_nil_r //. Qed.

Lemma cp_loop_strict G i j src tgt srcFd tgtFd fuel buffer s :
  srcFd ≠ tgtFd → length buffer = length src →
  v_fds (view s) !! srcFd = Some (i, O) → v_fds (view s) !! tgtFd = Some (j, O) →
  v_files (view s) !! i = Some src → v_files (view s) !! j = Some tgt →
  strict (FileWorks K → G) (cp_loop (S (S fuel)) srcFd tgtFd buffer)
    (λ _ s', v_names (view s') = v_names (view s) ∧
       v_files (view s') = <[j := overlaid src tgt]> (v_files (view s)) ∧
       is_Some (v_fds (view s') !! srcFd) ∧ is_Some (v_fds (view s') !! tgtFd)) s.
Proof.
  intros Hne Hl Hi Hj Hsrc Htgt. cbn [cp_loop].
  strict_step. strict_step; [|intros e k E; apply strict_terrExit, (read_refused _ (length buffer) _ _ _ _ G Hi Hsrc);
    by rw E]. intros d k Hr.
  pose proof (fo_read_full _ _ _ _ _ _ _ _ Hr Hi Hsrc) as Hd.
  destruct (fo_read_ok _ _ _ _ _ _ _ _ Hr Hi Hsrc) as (_ & _ & _ & Hv).
  rw Hl firstn_all in Hd. cbn in Hd. subst d. destruct src as [|x src].
  { strict_step. rw /= Hv /= lookup_insert_eq lookup_insert_ne // Hj /overlaid /= drop_0 insert_id //. }
  assert (store buffer 0 (x :: src) = x :: src) as ->.
  { rw /store /= drop_ge; [by rw Hl|]. by rw app_nil_r. }
  assert (v_fds (fo_view k) !! tgtFd = Some (j, O)) as Hj1 by (by rw Hv /= lookup_insert_ne).
  assert (v_files (fo_view k) !! j = Some tgt) as Ht1 by (by rw Hv).
  strict_step. strict_step; [|intros e k' E; apply strict_tfatal, (write_refused _ (x :: src) _ _ _ _ G Hj1 Ht1);
    intros ?; by rw E]. intros n k1 Hw.
  pose proof (fo_write_full _ _ _ _ _ Hw) as ->.
  destruct (fo_write_ok _ _ _ _ _ j 0 tgt Hw Hj1 Ht1) as (_ & Hv1).
  rw firstn_all write_at_start /= Hv /= in Hv1.
  assert (v_files (fo_view k1) !! i = Some (x :: src)) as Hsrc1.
  { rw Hv1 /=. destruct (decide (j = i)) as [->|Hji]; [|by rw lookup_insert_ne].
    rw Hsrc in Htgt. injection Htgt as <-. by rw lookup_insert_eq overlaid_self. }
  assert (v_fds (fo_view k1) !! srcFd = Some (i, length (x :: src))) as Hi1.
  { rw Hv1 /= lookup_insert_ne; [by apply not_eq_sym|]. by rw lookup_insert_eq. }
  strict_step. strict_step; [|intros e k' E; apply strict_terrExit, (read_refused _ (length (x :: src)) _ _ _ _ G Hi1 Hsrc1);
    by rw E]. intros d k2 Hr2.
  pose proof (fo_read_full _ _ _ _ _ _ _ _ Hr2 Hi1 Hsrc1) as Hd2.
  destruct (fo_read_ok _ _ _ _ _ _ _ _ Hr2 Hi1 Hsrc1) as (_ & _ & _ & Hv2).
  rw drop_all take_nil in Hd2. subst d. strict_step. rw /= Hv2 /= lookup_insert_eq lookup_insert_ne //.
  rw Hv1 /= lookup_insert_eq. eauto.
Qed.

(** The target starts with the source and keeps its own tail. *)
Definition laid_over (source target : cstring) (v v' : fview) : Prop :=
  ∃ j, is_Some (v_names v !! source) ∧ v_names v' !! target = Some j ∧
    v_files v' = <[j := overlaid (content v source) (content v target)]> (v_files v).

(** Moving to the end and back gives the size of the file. *)
Lemma cp_sizes_strict {A} G i src fd (f : Z → M (tproc K) A) (Q : A → tproc K → Prop) s :
  v_fds (view s) !! fd = Some (i, O) → v_files (view s) !! i = Some src →
  (∀ s', view s' = view s → strict (FileWorks K → G) (f (Z.of_nat (length src))) Q s') →
  strict (FileWorks K → G) (cur ← tchecked (cs "seek curr") (fo_lseek fd 0 SEEK_CUR) ;
          tprintf (cs "tgtCurOffset: " ++ fmt_d cur ++ [NL]) ;;
          tgtEnd ← tchecked (cs "seek end") (fo_lseek fd 0 SEEK_END) ;
          tprintf (cs "tgtEnd: " ++ fmt_d tgtEnd ++ [NL]) ;;
          cur ← tchecked (cs "seek restore curr") (fo_lseek fd (cur - tgtEnd) SEEK_END) ;
          tprintf (cs "tgtCurOffset(resotred): " ++ fmt_d cur ++ [NL]) ;; f tgtEnd) Q s.
Proof.
  intros Hi Hsrc Hf. do 2 strict_step; [|by apply (seek_refused _ _ _ _ _ _ _ _ Hi Hsrc)]. intros z k H.
  destruct (fo_lseek_ok _ _ _ _ _ _ _ _ _ H Hi Hsrc) as (-> & _ & Hv). cbn in Hv.
  assert (v_fds (fo_view k) !! fd = Some (i, O)) as Hi1 by (by rw Hv /= lookup_insert_eq).
  assert (v_files (fo_view k) !! i = Some src) as Hs1 by (by rw Hv).
  do 4 strict_step; [|by apply (seek_refused _ _ _ _ _ _ _ _ Hi1 Hs1); cbn; lia]. intros z k1 H1. cbn in H1.
  destruct (fo_lseek_ok _ _ _ _ _ _ _ _ _ H1 Hi1 Hs1) as (-> & _ & Hv1). cbn in Hv1.
  assert (v_fds (fo_view k1) !! fd = Some (i, Z.to_nat (Z.of_nat (length src) + 0))) as Hi2
    by (by rw Hv1 /= lookup_insert_eq).
  assert (v_files (fo_view k1) !! i = Some src) as Hs2 by (by rw Hv1 /= Hv).
  do 4 strict_step; [|by apply (seek_refused _ _ _ _ _ _ _ _ Hi2 Hs2); cbn; lia]. intros z k2 H2. cbn in H2.
  destruct (fo_lseek_ok _ _ _ _ _ _ _ _ _ H2 Hi2 Hs2) as (-> & _ & Hv2).
  do 2 strict_step. cbn. rw Z.add_0_r. apply Hf. cbn.
  rw Hv2 Hv1 Hv /= !insert_insert_eq. destruct (view s) as [nm fl fds]. cbn in *. f_equal.
  apply insert_id. rw Hi. do 2 f_equal. lia.
Qed.

Lemma cp_files_strict fuel junk source target s :
  wf_view (view s) →
  strict (FileWorks K → v_names (view s) !! source = None) (cp_files (S (S fuel)) junk source target)
    (λ _ s', laid_over source target (view s) (view s')) s.
Proof.
  intros Hwf. rw /cp_files. do 2 strict_step.
  2: { intros Hn W. destruct (v_names (view s) !! source) as [i0|] eqn:Hs; [|done].
       refine (open_refused _ _ _ _ _ Hwf _ Hn W). left. by rw Hs. }
  intros srcFd k1 H1.
  apply fo_open_ok in H1 as (i & _ & Hf1 & H1).
  destruct (v_names (view s) !! source) as [i0|] eqn:Hs; [|by destruct H1].
  destruct H1 as (-> & Hnm1 & Hfl1). cbn in Hfl1.
  destruct (Hwf source i0 Hs) as [src Hsrc].
  assert (content (view s) source = src) as Hcs by (by rw /content Hs /= Hsrc).
  do 2 strict_step.
  2: { apply open_refused; [|by right]. cbn. intros p. rw Hnm1 Hfl1. exact (Hwf p). }
  intros tgtFd k2 H2. cbn [t_os] in H2.
  apply fo_open_ok in H2 as (j & Hn2 & Hf2 & H2). rw Hf1 Hnm1 Hfl1 in Hn2 Hf2 H2.
  assert (tgtFd ≠ srcFd) as Hne by (intros ->; by rw lookup_insert_eq in Hn2).
  assert (v_names (fo_view k2) !! target = Some j ∧
          v_files (fo_view k2) = <[j := content (view s) target]> (v_files (view s)) ∧
          v_files (fo_view k2) !! i0 = Some src) as (Hj & Hfl2 & Hsrc2).
  { rw /content. destruct (v_names (view s) !! target) as [j0|] eqn:Ht; cbn in H2 |- *.
    - destruct H2 as (-> & -> & ->). destruct (Hwf target j0 Ht) as [c Hc].
      by rw Ht Hc /= insert_id.
    - destruct H2 as (_ & Hfree & -> & ->). rw lookup_insert_eq lookup_insert_ne //.
      intros ->. by rw Hfree in Hsrc. }
  apply (cp_sizes_strict _ i0 src); cbn;
    [by rw Hf2 lookup_insert_ne // lookup_insert_eq|done|]. intros s3 Hv3.
  strict_step. eapply strict_conseq; [apply (cp_loop_strict _ i0 j src (content (view s) target))|].
  - by apply not_eq_sym.
  - by rw length_fmap length_seq Nat2Z.id.
  - by rw Hv3 Hf2 lookup_insert_ne // lookup_insert_eq.
  - by rw Hv3 Hf2 lookup_insert_eq.
  - by rw Hv3.
  - by rw Hv3 Hfl2 lookup_insert_eq.
  - intros _ s4 (Hnm4 & Hfl4 & Hs4 & Ht4). do 2 strict_step; [|exact (close_refused _ _ _ Hs4)].
    intros [] k5 H5. apply fo_close_ok in H5. strict_step.
    2: { apply close_refused. cbn. by rw H5 /= lookup_delete_ne; [by apply not_eq_sym|]. }
    intros [] k6 H6. apply fo_close_ok in H6. cbn in *.
    exists j. rw H6 H5 /= Hnm4 Hfl4 Hv3 Hfl2 insert_insert_eq Hcs. by rw Hs.
Qed.

Lemma overlaid_exact src tgt : overlaid src tgt = src ↔ (length tgt ≤ length src)%nat.
Proof.
  rw /overlaid. split; [|intros H; by rw drop_ge // app_nil_r].
  intros H. apply (f_equal length) in H. rw length_app length_drop in H. lia.
Qed.

(** On regular files the exercise copies the source over the start of the target; it
    does not truncate, so a longer target keeps its old tail: the copy is exact
    just when the target was not longer than the source.  In a file system that
    grants what it can, it fails only when there is no source. *)
Lemma cp_holes_overlays fuel junk prog source target s :
  wf_view (view s) → source ≠ cs "--help" →
  ∃ o s', cp_holes_main (S (S fuel)) junk [prog; source; target] s = (o, s') ∧
    (o = Exit EXIT_SUCCESS ∧ laid_over source target (view s) (view s') ∧
       (content (view s') target = content (view s) source ↔
        (length (content (view s) target) ≤ length (content (view s) source))%nat) ∨
     failure o ∧ (FileWorks K → v_names (view s) !! source = None)).
Proof.
  intros Hwf Hh. rw /cp_holes_main bool_decide_false //.
  destruct (strict_exit (B := unit) _ _ _ _ (cp_files_strict fuel junk source target s Hwf))
    as (o & s' & H & [(-> & s1 & Hc & Hos & _)|Ho]); eexists _, s'; (split; [exact H|]); [left|by right].
  rw Hos. split_and!; [done..|]. destruct Hc as (j & _ & Hj & Hfl).
  rw -overlaid_exact {1}/content Hj /= Hfl lookup_insert_eq //.
Qed.
End cp_holes.

(** A file system whose reads return at most [S limit] characters, when there
    is a limit. *)
Module FileSim.
Definition kern (limit : option nat) : Type := fview.

Definition next_fd (v : fview) : Z := fresh (dom (v_fds v)).
Definition next_file (v : fview) : nat := fresh (dom (v_files v)).

Definition sim_open (p : cstring) (fl : Z) (v : fview) : res Z * fview :=
  let fd := next_fd v in
  match v_names v !! p with
  | Some i =>
      match v_files v !! i with
      | Some _ =>
          (inr fd, FView (v_names v) (if flag fl O_TRUNC then <[i := []]> (v_files v) else v_files v)
                     (<[fd := (i, O)]> (v_fds v)))
      | None => (inl 5, v)
      end
  | None =>
      if flag fl O_CREAT then
        let i := next_file v in
        (inr fd, FView (<[p := i]> (v_names v)) (<[i := []]> (v_files v)) (<[fd := (i, O)]> (v_fds v)))
      else (inl ENOENT, v)
  end.

(** A call on an open descriptor. *)
Definition with_fd {A} (fd : Z) (v : fview) (f : nat → nat → list ascii → res A * fview) : res A * fview :=
  match v_fds v !! fd with
  | Some (i, off) => match v_files v !! i with Some c => f i off c | None => (inl 9, v) end
  | None => (inl 9, v)
  end.

#[export] Instance file_sim_env limit : TlpiEnv (kern limit) :=
  { te_strerror _ := cs "error"; te_dumpcore := None }.

#[export] Instance file_sim_os limit : FileOS (kern limit) := {
  fo_open p fl _ v := sim_open p fl v;
  fo_read fd n v := with_fd fd v (λ i off c,
    let d := take (match limit with Some l => Nat.min n (S l) | None => n end) (drop off c) in
    (inr d, FView (v_names v) (v_files v) (<[fd := (i, off + length d)%nat]> (v_fds v))));
  fo_write fd d v := with_fd fd v (λ i off c,
    (inr (length d), FView (v_names v) (<[i := write_at c off d]> (v_files v))
                       (<[fd := (i, off + length d)%nat]> (v_fds v))));
  fo_lseek fd z whence v := with_fd fd v (λ i off c,
    let new := seek_base whence off c + z in
    if 0 <=? new
    then (inr new, FView (v_names v) (v_files v) (<[fd := (i, Z.to_nat new)]> (v_fds v)))
    else (inl EINVAL, v));
  fo_close fd v := (inr tt, FView (v_names v) (v_files v) (delete fd (v_fds v)));
  fo_malloc _ v := (true, v);
}.

Lemma with_fd_ok {A} fd v (f : nat → nat → list ascii → res A * fview) i off c :
  v_fds v !! fd = Some (i, off) → v_files v !! i = Some c → with_fd fd v f = f i off c.
Proof. rw /with_fd. by intros -> ->. Qed.

#[export, refine] Instance file_sim_ok limit : FileOSOk (kern limit) := { fo_view v := v }.
Proof.
  - intros p fl m v fd v'. cbn. rw /sim_open. destruct (v_names v !! p) as [i|] eqn:E.
    + destruct (v_files v !! i); [|done]. intros [= <- <-]. exists i. rw /opened E /=. split_and!; try done.
      apply not_elem_of_dom. rw /next_fd. apply is_fresh.
    + destruct (flag fl O_CREAT) eqn:Ec; [|done]. intros [= <- <-]. exists (next_file v).
      rw /opened E /=. split_and!; try done; apply not_elem_of_dom; rw /next_fd /next_file; apply is_fresh.
  - intros fd n v d v' i off c Hr Hi Hc. cbn in Hr. rw (with_fd_ok _ _ _ _ _ _ Hi Hc) in Hr.
    set (m := match limit with Some l => _ | None => _ end) in Hr. injection Hr as <- <-.
    assert (m ≤ n ∧ (m = 0 → n = 0))%nat as [Hm Hz] by (rw /m; destruct limit; lia).
    split_and!; [by rw length_take -take_take firstn_all|rw length_take; lia| |done].
    intros He. destruct (drop off c); [by right|]. left. by destruct m; [apply Hz|].
  - intros fd d v n v' i off c Hw Hi Hc. cbn in Hw. rw (with_fd_ok _ _ _ _ _ _ Hi Hc) in Hw.
    injection Hw as <- <-. by rw firstn_all.
  - intros fd z w v new v' i off c Hs Hi Hc. cbn in Hs. rw (with_fd_ok _ _ _ _ _ _ Hi Hc) in Hs.
    destruct (Z.leb_spec 0 (seek_base w off c + z)); [|done]. by injection Hs as <- <-.
  - by intros fd v v' [= <-].
  - by intros n v b v' [= <- <-].
Defined.

(** Two files, "a" longer than "b". *)
Definition boot limit : tproc (kern limit) :=
  TProc (EState [] [] [] 0)
    (FView {[cs "a" := 1%nat; cs "b" := 2%nat]} {[1%nat := cs "abcdef"; 2%nat := cs "xyz"]} ∅).

#[export, refine] Instance file_sim_full : FileFullOk (kern None) := {}.
Proof.
  - intros fd n v d v' i off c Hr Hi Hc. cbn in Hr. rw (with_fd_ok _ _ _ _ _ _ Hi Hc) in Hr.
    by injection Hr as <- <-.
  - intros fd d v n v'. cbn. rw /with_fd. destruct (v_fds v !! fd) as [[i off]|]; [|done].
    destruct (v_files v !! i); [|done]. by intros [= <- <-].
Defined.

#[export] Instance file_sim_works limit : FileWorks (kern limit).
Proof.
  split.
  - intros p fl m v Hwf Hp. cbn. rw /sim_open. destruct (v_names v !! p) as [i|] eqn:E.
    + destruct (Hwf p i E) as [c Hc]. cbn in Hc. rw Hc. eauto.
    + destruct Hp as [[? Hp]|Hp]; cbn in Hp; [by rw E in Hp|]. rw Hp. eauto.
  - intros fd n v i off c Hi Hc. cbn. rw (with_fd_ok _ _ _ _ _ _ Hi Hc). eauto.
  - intros fd d v i off c Hi Hc. cbn. rw (with_fd_ok _ _ _ _ _ _ Hi Hc). eauto.
  - intros fd z w v i off c Hi Hc Hz. cbn. rw (with_fd_ok _ _ _ _ _ _ Hi Hc) (proj2 (Z.leb_le _ _) Hz). eauto.
  - intros fd v _. cbn. eauto.
  - intros n v. cbn. eauto.
Qed.

Lemma boot_wf limit : wf_view (t_os (boot limit)).
Proof.
  intros p i. cbn. rw lookup_insert_Some lookup_singleton_Some.
  intros [[_ <-]|(_ & _ & <-)]; by eexists.
Qed.
End FileSim.
Import FileSim.

(** Reads of four characters at a time. *)
Lemma copy_correct_witness :
  ∃ o s', copy_main 7 [cs "copy"; cs "a"; cs "b"] (FileSim.boot (Some 3%nat)) = (o, s') ∧
    o = Exit EXIT_SUCCESS ∧ content (fo_view (t_os s')) (cs "b") = cs "abcdef".
Proof.
  destruct (copy_correct 7 (cs "copy") (cs "a") (cs "b") (FileSim.boot (Some 3%nat)))
    as (o & s' & H & Ho); [apply FileSim.boot_wf|done|vm_compute; lia|].
  exists o, s'. split; [exact H|].
  destruct Ho as [(-> & i & j & Hi & Hj & Hf & _)|[_ Hno]]; [|by specialize (Hno _)].
  split; [done|]. rw /content Hj /= Hf lookup_insert_eq /=. vm_compute in Hi. injection Hi as <-.
  vm_compute in H. injection H as <-. vm_compute in Hj. injection Hj as <-. reflexivity.
Defined.

(** At most three characters are read at a time. *)
Lemma seek_io_refines_witness :
  ∃ o s', seek_io_main [cs "seek_io"; cs "b"; cs "s5"; cs "wQ"; cs "s0x1"; cs "r4"; cs "R9"]
            (FileSim.boot (Some 2%nat)) = (o, s') ∧ o = Exit EXIT_SUCCESS ∧
    (∃ t, edited (K := FileSim.kern (Some 2%nat)) (cs "b") [cs "s5"; cs "wQ"; cs "s0x1"; cs "r4"; cs "R9"]
       (fo_view (t_os (FileSim.boot (Some 2%nat)))) (fo_view (t_os s')) t ∧ e_stdout (t_io s') = t) ∧
    content (fo_view (t_os s')) (cs "b") = cs "xyz" ++ [NUL; NUL] ++ cs "Q" ∧
    e_stdout (t_io s') = cs "s5: seek succeeded" ++ [NL] ++ cs "wQ: wrote 1 bytes" ++ [NL] ++
      cs "s0x1: seek succeeded" ++ [NL] ++ cs "r4: yz?" ++ [NL] ++ cs "R9: 00 51 " ++ [NL].
Proof.
  destruct (seek_io_refines (cs "seek_io") (cs "b") (cs "s5")
    [cs "wQ"; cs "s0x1"; cs "r4"; cs "R9"] (FileSim.boot (Some 2%nat)))
    as (o & s' & H & Ho); [apply FileSim.boot_wf|done|].
  exists o, s'. split; [exact H|]. destruct Ho as [(-> & t & He & Ht)|[_ Hno]].
  - split; [done|]. split; [exists t; split; [exact He|exact Ht]|]. vm_compute in H. injection H as <-. by vm_compute.
  - specialize (Hno _). exfalso. repeat (apply Exists_cons in Hno as [Hno|Hno]; [by vm_compute in Hno|]). by apply Exists_nil in Hno.
Defined.

Lemma cp_holes_overlays_witness :
  ∃ o s', cp_holes_main 2 (λ _, "?"%char) [cs "cp"; cs "b"; cs "a"] (FileSim.boot None) = (o, s') ∧
    o = Exit EXIT_SUCCESS ∧ content (fo_view (t_os s')) (cs "a") = cs "xyzdef".
Proof.
  destruct (cp_holes_overlays 0 (λ _, "?"%char) (cs "cp") (cs "b") (cs "a") (FileSim.boot None))
    as (o & s' & H & Ho); [apply FileSim.boot_wf|done|].
  exists o, s'. split; [exact H|]. destruct Ho as [(-> & _ & _)|[_ Hno]]; [|by specialize (Hno _)].
  split; [done|]. vm_compute in H. injection H as <-. by vm_compute.
Defined.

(** Where reads are short, the exercise writes the whole buffer each time,
    with what is left in it. *)
Lemma cp_holes_short_read :
  ∃ s', cp_holes_main 7 (λ _, "?"%char) [cs "cp"; cs "a"; cs "b"] (FileSim.boot (Some 3%nat)) =
      (Exit EXIT_SUCCESS, s') ∧
    content (fo_view (t_os s')) (cs "b") = cs "abcd??efcd??".
Proof. eexists. split; vm_compute; reflexivity. Qed.
