(* ===== verification/MultiJoin.v ===== *)
(** * Joining threads as they end: [threads/thread_multijoin.c]

    The main thread creates a thread for each argument and joins each one after
    it has marked itself as terminated.  They share the counters, the table of
    thread states, a mutex and a condition variable.  As in ProdCondvar a state
    has every thread's control point, one move is one access to what is shared
    or one call of the threads library, a call may fail and a wait may end
    without a signal. *)

From S2P Require Import Prelude CStdlib GetNum Threads.

Inductive tstate := TS_ALIVE | TS_TERMINATED | TS_JOINED.
#[export] Instance tstate_eq_dec : EqDecision tstate.
Proof. solve_decision. Defined.

(** A thread sleeps, prints that it terminates, calls pthread_mutex_lock,
    increments [numUnjoined], marks itself, calls pthread_mutex_unlock and
    pthread_cond_signal, or has returned. *)
Inductive tpc := TSleep | TPrint | TLock | TInc | TMark | TUnlock | TSignal | TDone.
#[export] Instance tpc_eq_dec : EqDecision tpc.
Proof. solve_decision. Defined.

(** A thread with its entry of the table. *)
Record thr := Thr { th_pc : tpc; th_state : tstate; th_sleep : Z }.

(** The main thread is creating the threads of [rest], at the test of the
    outer loop, before pthread_mutex_lock, at the test of the loop that waits,
    in pthread_cond_wait, woken and waiting for the mutex, at turn [idx] of the
    loop over the table, in pthread_join, before pthread_mutex_unlock, or the
    process has ended. *)
Inductive jpc :=
  | JCreate (rest : list cstring) | JWhile | JLock | JTest | JWait | JRelock
  | JScan (idx : nat) | JJoin (idx : nat) | JUnlock | JExit (status : Z).
#[export] Instance jpc_eq_dec : EqDecision jpc.
Proof. solve_decision. Defined.

(** What is printed. *)
Inductive line := Terminating (idx : nat) | Reaped (idx : nat) (live : Z).
Definition line_text (l : line) : cstring :=
  match l with
  | Terminating idx => cs "Thread " ++ fmt_d (Z.of_nat idx) ++ cs " terminating" ++ [NL]
  | Reaped idx live =>
      cs "Reaped thread " ++ fmt_d (Z.of_nat idx) ++ cs " (numLive=" ++ fmt_d live ++ cs ")" ++ [NL]
  end.

Record jstate := JState {
  j_mutex : option who;
  thread : list thr;
  j_main : jpc;
  totThreads : Z;
  numLive : Z;
  numUnjoined : Z;
  j_out : list line;
}.

Definition thread_move (i : nat) (s : jstate) : option jstate :=
  let '(JState m ts mp tot live unj o) := s in
  t ← ts !! i;
  let '(Thr pc st sl) := t in
  let at_ pc' := <[i := Thr pc' st sl]> ts in
  match pc with
  | TSleep => Some (JState m (at_ TPrint) mp tot live unj o)
  | TPrint => Some (JState m (at_ TLock) mp tot live unj (o ++ [Terminating i]))
  | TLock =>
      match m with
      | None => Some (JState (Some (Thread i)) (at_ TInc) mp tot live unj o)
      | Some _ => None
      end
  | TInc => Some (JState m (at_ TMark) mp tot live (unj + 1) o)
  | TMark => Some (JState m (<[i := Thr TUnlock TS_TERMINATED sl]> ts) mp tot live unj o)
  | TUnlock => Some (JState None (at_ TSignal) mp tot live unj o)
  | TSignal => Some (JState m (at_ TDone) (match mp with JWait => JRelock | _ => mp end) tot live unj o)
  | TDone => None
  end.

Definition join_move (s : jstate) : option jstate :=
  let '(JState m ts mp tot live unj o) := s in
  match mp with
  | JCreate (a :: rest) =>
      match getInt (Some a) GN_NONNEG None [] with
      | (Ret n, _) => Some (JState m (ts ++ [Thr TSleep TS_ALIVE n]) (JCreate rest) tot live unj o)
      | _ => Some (JState m ts (JExit EXIT_FAILURE) tot live unj o)
      end
  | JCreate [] =>
      let tot := Z.of_nat (length ts) in Some (JState m ts JWhile tot tot unj o)
  | JWhile => Some (JState m ts (if 0 <? live then JLock else JExit EXIT_SUCCESS) tot live unj o)
  | JLock | JRelock =>
      match m with
      | None => Some (JState (Some MainThread) ts JTest tot live unj o)
      | Some _ => None
      end
  | JTest =>
      if unj =? 0 then Some (JState None ts JWait tot live unj o)
      else Some (JState m ts (JScan 0) tot live unj o)
  | JWait => None
  | JScan idx =>
      if Z.of_nat idx <? tot then
        t ← ts !! idx;
        Some (JState m ts (if decide (th_state t = TS_TERMINATED) then JJoin idx else JScan (idx + 1))
                tot live unj o)
      else Some (JState m ts JUnlock tot live unj o)
  | JJoin idx =>
      t ← ts !! idx;
      if decide (th_pc t = TDone) then
        Some (JState m (<[idx := Thr TDone TS_JOINED (th_sleep t)]> ts) (JScan (idx + 1)) tot
                (live - 1) (unj - 1) (o ++ [Reaped idx (live - 1)]))
      else None
  | JUnlock => Some (JState None ts JWhile tot live unj o)
  | JExit _ => None
  end.

Definition j_with_main (mp : jpc) (s : jstate) : jstate :=
  JState (j_mutex s) (thread s) mp (totThreads s) (numLive s) (numUnjoined s) (j_out s).

(** The points at which a thread calls the library and checks the result. *)
Definition thread_calls (pc : tpc) : bool :=
  match pc with TLock | TUnlock | TSignal => true | _ => false end.
Definition join_calls (mp : jpc) : bool :=
  match mp with JCreate (_ :: _) | JLock | JWait | JRelock | JJoin _ | JUnlock => true | _ => false end.
Definition j_exited (s : jstate) : bool := match j_main s with JExit _ => true | _ => false end.

Inductive jmoves : jstate → jstate → Prop :=
  | jmove_thread i s s' : j_exited s = false → thread_move i s = Some s' → jmoves s s'
  | jmove_main s s' : join_move s = Some s' → jmoves s s'.

Inductive jdisturbs : jstate → jstate → Prop :=
  | j_spurious s : j_main s = JWait → jdisturbs s (j_with_main JRelock s)
  | join_fails s : join_calls (j_main s) = true → jdisturbs s (j_with_main (JExit EXIT_FAILURE) s)
  | thread_fails s i t : j_exited s = false → thread s !! i = Some t →
      thread_calls (th_pc t) = true → jdisturbs s (j_with_main (JExit EXIT_FAILURE) s).

Definition jstep (s s' : jstate) : Prop := jmoves s s' ∨ jdisturbs s s'.

(** After the test of the arguments and [calloc]. *)
Definition j_start (args : list cstring) : jstate := JState None [] (JCreate args) 0 0 0 [].

(** ** The invariant *)

Definition joined (t : thr) : Z := if decide (th_state t = TS_JOINED) then 1 else 0.
(** Counted in [numUnjoined]. *)
Definition counted (t : thr) : Z :=
  match th_pc t with
  | TMark => 1
  | TUnlock | TSignal | TDone => if decide (th_state t = TS_JOINED) then 0 else 1
  | _ => 0
  end.

(** A thread's mark agrees with its control point. *)
Definition thr_ok (t : thr) : Prop :=
  match th_pc t with
  | TUnlock | TSignal => th_state t = TS_TERMINATED
  | TDone => th_state t = TS_TERMINATED ∨ th_state t = TS_JOINED
  | _ => th_state t = TS_ALIVE
  end.

Definition t_holds (t : thr) : bool :=
  match th_pc t with TInc | TMark | TUnlock => true | _ => false end.
Definition j_holds (mp : jpc) : bool :=
  match mp with JTest | JScan _ | JJoin _ | JUnlock => true | _ => false end.

(** A thread that is counted and has not yet signalled. *)
Definition t_signals (t : thr) : Prop := th_pc t = TMark ∨ th_pc t = TUnlock ∨ th_pc t = TSignal.

Definition j_rest (mp : jpc) : list cstring := match mp with JCreate l => l | _ => [] end.
Definition creating (mp : jpc) : bool := match mp with JCreate _ => true | _ => false end.

(** The first entry of the table that this pass has still to look at. *)
Definition scan_from (mp : jpc) : option nat :=
  match mp with JScan i | JJoin i => Some i | _ => None end.

(** The threads reaped, in order. *)
Definition reaped (o : list line) : list (nat * Z) :=
  omap (λ l, match l with Reaped i n => Some (i, n) | _ => None end) o.

#[global] Arguments reaped : simpl never.

Record j_inv (args : list cstring) (s : jstate) : Prop := {
  i_thr : Forall thr_ok (thread s);
  i_unjoined : numUnjoined s = sumZ (counted <$> thread s);
  i_args : j_exited s = false →
    (length (thread s) + length (j_rest (j_main s)) = length args)%nat;
  i_tot : j_exited s = false → creating (j_main s) = false →
    totThreads s = Z.of_nat (length (thread s)) ∧
    numLive s = Z.of_nat (length (thread s)) - sumZ (joined <$> thread s);
  i_create : creating (j_main s) = true → reaped (j_out s) = [];
  i_mtx_thr : mutex_ok t_holds (j_mutex s) (thread s);
  i_mtx_main : j_exited s = false → (j_mutex s = Some MainThread ↔ j_holds (j_main s) = true);
  i_more : j_main s = JLock ∨ j_main s = JTest ∨ j_main s = JWait ∨ j_main s = JRelock →
    0 < numLive s;
  i_waiting : j_main s = JWait → numUnjoined s = 0 ∨ ∃ i t, thread s !! i = Some t ∧ t_signals t;
  i_scan idx i t : scan_from (j_main s) = Some idx → (i < idx)%nat → thread s !! i = Some t →
    th_state t ≠ TS_TERMINATED;
  i_bound idx : scan_from (j_main s) = Some idx → (idx ≤ length (thread s))%nat;
  i_len : (length (thread s) ≤ length args)%nat;
  i_join idx : j_main s = JJoin idx → ∃ t, thread s !! idx = Some t ∧ th_state t = TS_TERMINATED;
  i_reaped : NoDup (reaped (j_out s)).*1 ∧
    (∀ i, i ∈ (reaped (j_out s)).*1 ↔ ∃ t, thread s !! i = Some t ∧ th_state t = TS_JOINED);
  i_count : Z.of_nat (length (reaped (j_out s))) = sumZ (joined <$> thread s);
  i_numbers : (reaped (j_out s)).*2 =
    (λ k, Z.of_nat (length args) - 1 - Z.of_nat k) <$> seq 0 (length (reaped (j_out s)));
  i_success : j_main s = JExit EXIT_SUCCESS →
    length (thread s) = length args ∧ Forall (λ t, th_state t = TS_JOINED) (thread s);
}.

Section preserve.
Context (args : list cstring).
Implicit Types (s : jstate) (ts : list thr).

Lemma joined_set ts i p q :
  ts !! i = Some p → (th_state q = TS_JOINED ↔ th_state p = TS_JOINED) →
  sumZ (joined <$> <[i := q]> ts) = sumZ (joined <$> ts).
Proof. intros Hi E. rw (sumZ_insert _ _ _ _ _ Hi) /joined. repeat case_decide; naive_solver lia. Qed.

(** The moves of a thread: its entry changes from [p] to [q]. *)
Lemma j_set m m' ts mp tot live unj unj' o o' i p q :
  j_inv args (JState m ts mp tot live unj o) → ts !! i = Some p → thr_ok q →
  (th_state q = TS_JOINED ↔ th_state p = TS_JOINED) → unj' = unj - counted p + counted q →
  mutex_ok t_holds m' (<[i := q]> ts) → (m' = Some MainThread ↔ m = Some MainThread) →
  (mp = JWait → unj = unj' → t_signals p → t_signals q) → (mp = JWait → unj ≠ unj' → t_signals q) →
  (th_state q = TS_TERMINATED → th_state p = TS_TERMINATED ∨ scan_from mp = None) →
  (th_state p = TS_TERMINATED → th_state q = TS_TERMINATED) →
  reaped o' = reaped o →
  j_inv args (JState m' (<[i := q]> ts) mp tot live unj' o').
Proof.
  intros [] Hi Hq Hj Hu Hm Hmm Hs Hs' Ht Ht' Ho. cbn in *.
  assert (Hlt := lookup_lt_Some _ _ _ Hi). assert (Hjs := joined_set _ _ _ _ Hi Hj).
  assert (∀ (P : thr → Prop) k, (∃ t, ts !! k = Some t ∧ P t) → (P p → P q) →
            ∃ t, <[i := q]> ts !! k = Some t ∧ P t) as Hex.
  { intros P k (t & Hk & HP) Hpq. destruct (decide (k = i)) as [->|Hne].
    - exists q. rw list_lookup_insert_eq //. simplify_eq. auto.
    - exists t. rw list_lookup_insert_ne; [congruence|done]. }
  split; cbn; rw ?length_insert ?Hjs ?Ho; try done.
  - by apply Forall_insert.
  - rw (sumZ_insert _ _ _ _ _ Hi). lia.
  - intros He. rw Hmm. by apply i_mtx_main0.
  - intros ->. destruct (decide (unj = unj')) as [->|Hne].
    + destruct (i_waiting0 eq_refl) as [?|(k & r & Hk & Hr)]; [by left|]. right. exists k. eauto.
    + right. exists i, q. rw list_lookup_insert_eq //. auto.
  - intros idx k t Hidx Hk. destruct (decide (k = i)) as [->|Hne].
    + rw list_lookup_insert_eq //. intros [= <-] E. destruct (Ht E) as [E'|E']; [|congruence].
      by eapply (i_scan0 idx i p).
    + rw list_lookup_insert_ne; [congruence|]. by apply (i_scan0 idx).
  - intros idx E. eauto.
  - destruct i_reaped0 as [Hnd Hr]. split; [done|]. intros k. rw Hr.
    destruct (decide (k = i)) as [->|Hne].
    + rw list_lookup_insert_eq //. split; intros (? & ? & ?); simplify_eq; eexists; naive_solver.
    + rw list_lookup_insert_ne; [congruence|done].
  - intros E. destruct (i_success0 E) as [? Hall]. split; [done|]. apply Forall_insert; [done|].
    apply Hj. by apply (Forall_lookup_1 _ _ _ _ Hall Hi).
Qed.

Lemma thread_move_inv i s s' :
  j_inv args s → j_exited s = false → thread_move i s = Some s' → j_inv args s'.
Proof.
  intros Hi He. destruct s as [m ts mp tot live unj o]. rw /thread_move /=.
  destruct (ts !! i) as [[pc st sl]|] eqn:E; [|done]. cbn.
  assert (thr_ok (Thr pc st sl)) as Hp by (destruct Hi; exact (Forall_lookup_1 _ _ _ _ i_thr0 E)).
  assert (mutex_ok t_holds m ts) as Hm by (by destruct Hi).
  assert (m = Some (Thread i) → scan_from mp = None) as Hscan.
  { intros ->. destruct (i_mtx_main _ _ Hi He) as [_ H]. cbn in H. by destruct mp; cbn in *; try done; specialize (H eq_refl). }
  destruct pc; rw /thr_ok /= in Hp; intros H.
  - injection H as <-. apply (j_set _ _ _ _ _ _ _ _ _ _ _ _ _ Hi E); try done; [rw /counted /=; lia|..].
    + by apply (mutex_ok_same t_holds _ _ _ _ _ Hm E).
    + by intros _ _ [|[]].
    + by left.
  - injection H as <-. apply (j_set _ _ _ _ _ _ _ _ _ _ _ _ _ Hi E); try done; [rw /counted /=; lia|..].
    + by apply (mutex_ok_same t_holds _ _ _ _ _ Hm E).
    + by intros _ _ [|[]].
    + by left.
    + by rw /reaped omap_app app_nil_r.
  - destruct m; [done|]. injection H as <-.
    apply (j_set _ _ _ _ _ _ _ _ _ _ _ _ _ Hi E); try done; [rw /counted /=; lia|..].
    + by apply (mutex_ok_take t_holds _ _ _ _ Hm E).
    + by intros _ _ [|[]].
    + by left.
  - injection H as <-. apply (j_set _ _ _ _ _ _ _ _ _ _ _ _ _ Hi E); try done; [rw /counted /=; lia|..].
    + by apply (mutex_ok_same t_holds _ _ _ _ _ Hm E).
    + by intros _ _ [|[]].
    + intros _ _. by left.
    + by left.
  - injection H as <-. assert (m = Some (Thread i)) as -> by (apply Hm; eauto).
    subst st. apply (j_set _ _ _ _ _ _ _ _ _ _ _ _ _ Hi E); try done; [rw /counted /=; lia|..].
    + by apply (mutex_ok_same t_holds _ _ _ _ _ Hm E).
    + intros _ _ _. by right; left.
    + intros _. right. by apply Hscan.
  - injection H as <-. assert (m = Some (Thread i)) as -> by (apply Hm; eauto). subst st.
    apply (j_set _ _ _ _ _ _ _ _ _ _ _ _ _ Hi E); try done; [rw /counted /=; lia|..].
    + by apply (mutex_ok_free t_holds _ _ _ _ Hm E).
    + intros _ _ _. by right; right.
    + by left.
  - injection H as <-. subst st.
    assert (j_inv args (JState m ts match mp with JWait => JRelock | _ => mp end tot live unj o)) as Hi'.
    { destruct mp; try done. destruct Hi. split; cbn in *; try done. intros _. auto. }
    apply (j_set _ _ _ _ _ _ _ _ _ _ _ _ _ Hi' E); try done.
    + by left.
    + rw /counted /=. lia.
    + by apply (mutex_ok_same t_holds _ _ _ _ _ Hm E).
    + by destruct mp.
    + by left.
  - done.
Qed.

Lemma joined_le ts : 0 ≤ sumZ (joined <$> ts) ≤ Z.of_nat (length ts).
Proof. elim: ts => [//|t ts IH]. csimpl. assert (0 ≤ joined t ≤ 1) by (rw /joined; case_decide; lia). lia. Qed.

Lemma joined_all ts :
  sumZ (joined <$> ts) = Z.of_nat (length ts) → Forall (λ t, th_state t = TS_JOINED) ts.
Proof.
  elim: ts => [//|t ts IH]. csimpl. pose proof (joined_le ts). intros E.
  assert (0 ≤ joined t ≤ 1) by (rw /joined; case_decide; lia). assert (joined t = 1) as Ht by lia.
  constructor; [rw /joined in Ht; by case_decide|]. apply IH. lia.
Qed.

(** The main thread joins the thread of entry [idx]. *)
Lemma reap_inv m ts idx tot live unj o t :
  j_inv args (JState m ts (JJoin idx) tot live unj o) → ts !! idx = Some t → th_pc t = TDone →
  j_inv args (JState m (<[idx := Thr TDone TS_JOINED (th_sleep t)]> ts) (JScan (idx + 1)) tot
                (live - 1) (unj - 1) (o ++ [Reaped idx (live - 1)])).
Proof.
  intros [] Hi Hpc. cbn in *. destruct (i_join0 idx eq_refl) as (t' & Hi' & Ht). simplify_eq.
  assert (Hlt := lookup_lt_Some _ _ _ Hi). destruct (i_tot0 eq_refl eq_refl) as [-> ->].
  set (q := Thr TDone TS_JOINED (th_sleep t)).
  assert (sumZ (joined <$> <[idx := q]> ts) = sumZ (joined <$> ts) + 1) as Hj.
  { rw (sumZ_insert _ _ _ _ _ Hi) /joined Ht /=. lia. }
  assert (reaped (o ++ [Reaped idx (Z.of_nat (length ts) - sumZ (joined <$> ts) - 1)]) =
          reaped o ++ [(idx, Z.of_nat (length ts) - sumZ (joined <$> ts) - 1)]) as Ho
    by by rw /reaped omap_app.
  destruct i_reaped0 as [Hnd Hr]. specialize (i_args0 eq_refl).
  split; cbn; rw ?length_insert ?Hj ?Ho; try done.
  - apply Forall_insert; [done|]. by right.
  - rw (sumZ_insert _ _ _ _ _ Hi) /counted Hpc Ht /=. lia.
  - intros _ _. lia.
  - apply (mutex_ok_same t_holds _ _ _ _ _ i_mtx_thr0 Hi). by rw /t_holds Hpc.
  - by intros [|[|[]]].
  - intros ? k u [= <-] Hk. destruct (decide (k = idx)) as [->|Hne].
    + rw list_lookup_insert_eq //. by intros [= <-].
    + rw list_lookup_insert_ne; [congruence|]. apply (i_scan0 idx); [done|lia].
  - intros ? [= <-]. lia.
  - rw fmap_app. split.
    + apply NoDup_app. split_and!; [done| |apply NoDup_singleton].
      intros k Hk. apply Hr in Hk as (u & Hu & Hs). intros Hk%list_elem_of_singleton. cbn in Hk. subst k. congruence.
    + intros k. rw elem_of_app list_elem_of_singleton Hr /=. destruct (decide (k = idx)) as [->|Hne].
      * rw list_lookup_insert_eq //. split; [intros _; by eexists|by right].
      * rw list_lookup_insert_ne; [congruence|]. naive_solver.
  - rw length_app /=. lia.
  - rw fmap_app i_numbers0 length_app /= seq_app fmap_app /=. do 2 f_equal. cbn in *. lia.
Qed.

Lemma join_move_inv s s' : j_inv args s → join_move s = Some s' → j_inv args s'.
Proof.
  intros Hi. destruct s as [m ts mp tot live unj o].
  destruct mp as [[|a rest]| | | | | |idx|idx| |]; rw /=; intros H.
  - (* created *) injection H as <-. destruct Hi; cbn in *.
    assert (sumZ (joined <$> ts) = 0) by (by rw -i_count0 i_create0).
    split; cbn; try done; [|by intros [|[|[]]]]. intros _ _. lia.
  - (* create *) destruct (getInt _ _ _ _) as [[n| | | |] ?]; injection H as <-.
    2-5: (destruct Hi; split; cbn in *; try done; by intros [|[|[]]]).
    destruct Hi; cbn in *. specialize (i_args0 eq_refl). split; cbn; try done.
    + apply Forall_app_2; [done|]. by apply Forall_singleton.
    + rw fmap_app sumZ_app i_unjoined0. csimpl. assert (counted (Thr TSleep TS_ALIVE n) = 0) as -> by done. lia.
    + intros _. rw length_app /=. lia.
    + by apply mutex_ok_new.
    + by intros [|[|[]]].
    + rw length_app /=. lia.
    + rw i_create0 // /= in i_reaped0 |- *. destruct i_reaped0 as [Hnd Hr]. split; [done|].
      intros k. rw Hr. split; [|intros (u & [Hu|[_ Hu]]%lookup_app_Some & Hs)]; [|by eauto|].
      * intros (u & Hu & Hs). exists u. split; [by apply lookup_app_l_Some|done].
      * by destruct (k - length ts)%nat; simplify_eq/=.
    + rw fmap_app sumZ_app i_count0. csimpl. assert (joined (Thr TSleep TS_ALIVE n) = 0) as -> by done. lia.
  - (* while *) destruct Hi; cbn in *. destruct (i_tot0 eq_refl eq_refl) as [_ El].
    destruct (Z.ltb_spec 0 live); injection H as <-; split; cbn; try done.
    + by intros [|[|[]]].
    + intros _. specialize (i_args0 eq_refl). split; [cbn in *; lia|]. apply joined_all.
      pose proof (joined_le ts). lia.
  - (* lock *) destruct m; [done|]. injection H as <-. destruct Hi; split; cbn in *; try done; auto.
    apply mutex_ok_main; auto.
  - (* test *) destruct Hi; cbn in *. destruct (Z.eqb_spec unj 0) as [->|]; injection H as <-; split; cbn; try done; auto.
    + apply mutex_ok_drop. by rw (proj2 (i_mtx_main0 eq_refl) eq_refl) in i_mtx_thr0.
    + intros ? k u [= <-]. lia.
    + intros ? [= <-]. lia.
  - done.
  - (* relock *) destruct m; [done|]. injection H as <-. destruct Hi; split; cbn in *; try done; auto.
    apply mutex_ok_main; auto.
  - (* scan *) destruct Hi; cbn in *. destruct (Z.ltb_spec (Z.of_nat idx) tot).
    + destruct (ts !! idx) as [u|] eqn:Hu; [|done]. cbn in H. case_decide as Hd; injection H as <-;
        split; cbn; try done; [by intros [|[|[]]]| |by intros [|[|[]]]| |].
      * intros ? [= <-]. eauto.
      * intros ? k v [= <-] Hk Hv. destruct (decide (k = idx)) as [->|]; [congruence|].
        apply (i_scan0 idx k v); [done|lia|done].
      * intros ? [= <-]. apply lookup_lt_Some in Hu. lia.
    + injection H as <-. split; cbn; try done. by intros [|[|[]]].
  - (* join *) destruct (ts !! idx) as [u|] eqn:Hu; [|done]. cbn in H.
    case_decide; [|done]. injection H as <-. by apply reap_inv.
  - (* unlock *) injection H as <-. destruct Hi; cbn in *. split; cbn; try done; [|by intros [|[|[]]]].
    apply mutex_ok_drop. by rw (proj2 (i_mtx_main0 eq_refl) eq_refl) in i_mtx_thr0.
  - done.
Qed.

Lemma jdisturbs_inv s s' : j_inv args s → jdisturbs s s' → j_inv args s'.
Proof.
  intros Hi H. destruct H as [[m ts mp tot live unj o] E|[m ts mp tot live unj o] E
                             |[m ts mp tot live unj o] k p E Hk Hp]; cbn in *.
  - subst mp. destruct Hi; split; cbn in *; try done; auto.
  - destruct Hi; split; cbn in *; try done. by intros [|[|[]]].
  - destruct Hi; split; cbn in *; try done. by intros [|[|[]]].
Qed.

Lemma j_start_inv : j_inv args (j_start args).
Proof.
  split; cbn; try done.
  - intros i. split; [done|]. by intros (? & ? & ?).
  - by intros [|[|[]]].
  - lia.
  - rw /reaped /=. split; [constructor|]. intros i. rw elem_of_nil. split; [done|]. by intros (? & ? & ?).
Qed.

Lemma j_reach_inv s : rtc jstep (j_start args) s → j_inv args s.
Proof.
  apply (rtc_ind_r (j_inv args)); [apply j_start_inv|].
  intros s1 s2 _ [[i ? ? He Hs|? ? Hs]|Hs] IH;
    [eapply thread_move_inv|eapply join_move_inv|eapply jdisturbs_inv]; eassumption.
Qed.
End preserve.

(** ** What the program guarantees *)

(** C19: In every interleaving of the threads, with spurious wakeups and failing library calls:
    two threads are never between lock and unlock at once; no thread is reaped
    twice, or before it has returned; the lines count the live threads down
    from one less than the arguments; and when the process ends successfully
    every argument's thread has been reaped. *)
Theorem multijoin_correct args s :
  rtc jstep (j_start args) s →
  (∀ i j t u, thread s !! i = Some t → thread s !! j = Some u →
     t_holds t = true → t_holds u = true → i = j) ∧
  (∀ i t, thread s !! i = Some t → t_holds t = true → j_holds (j_main s) = false) ∧
  NoDup (reaped (j_out s)).*1 ∧
  (∀ i, i ∈ (reaped (j_out s)).*1 → ∃ t, thread s !! i = Some t ∧ th_pc t = TDone) ∧
  (reaped (j_out s)).*2 =
    (λ k, Z.of_nat (length args) - 1 - Z.of_nat k) <$> seq 0 (length (reaped (j_out s))) ∧
  (j_main s = JExit EXIT_SUCCESS → (reaped (j_out s)).*1 ≡ₚ seq 0 (length args)).
Proof.
  intros Hr. apply j_reach_inv in Hr. destruct Hr. destruct i_reaped0 as [Hnd Hr].
  split_and!; try done.
  - intros i j t u. by apply (mutex_ok_unique t_holds (j_mutex s)).
  - intros i t Hi Ht. assert (j_mutex s = Some (Thread i)) as E1 by (apply i_mtx_thr0; eauto).
    destruct (j_holds (j_main s)) eqn:E; [|done]. exfalso.
    assert (j_exited s = false) as He by (rw /j_exited; by destruct (j_main s)).
    assert (j_mutex s = Some MainThread) by (by apply i_mtx_main0). congruence.
  - intros i (t & Hi & Ht)%Hr. exists t. split; [done|].
    apply (Forall_lookup_1 _ _ _ _ i_thr0) in Hi. rw /thr_ok Ht in Hi. by destruct (th_pc t).
  - intros E. destruct (i_success0 E) as [Hl Hall]. apply NoDup_Permutation; [done|apply NoDup_seq|].
    intros i. rw Hr elem_of_seq -Hl. split.
    + intros (t & Hi & _). apply lookup_lt_Some in Hi. lia.
    + intros [_ Hi]. destruct (lookup_lt_is_Some_2 (thread s) i Hi) as [t Ht]. exists t.
      split; [done|]. exact (Forall_lookup_1 _ _ _ _ Hall Ht).
Qed.

(** A bound on the moves left, for [n] arguments. *)
Definition thr_rank (n : Z) (t : thr) : Z :=
  match th_pc t with
  | TSleep => 2 * n + 10 | TPrint => 2 * n + 9 | TLock => 2 * n + 8 | TInc => 2 * n + 7
  | TMark => 2 * n + 6 | TUnlock => 2 * n + 5 | TSignal => 2 * n + 4 | TDone => 0
  end.

Definition join_rank (n : Z) (s : jstate) : Z :=
  match j_main s with
  | JCreate l => 2 * n + 4 + (2 * n + 11) * Z.of_nat (length l)
  | JWhile => 2 * n + 3 | JLock | JRelock => 2 * n + 2 | JTest => 2 * n + 1 | JWait => 0
  | JScan idx => 2 * (n - Z.of_nat idx) + (if numUnjoined s =? 0 then 2 * n + 5 else 0)
  | JJoin idx => 2 * (n - Z.of_nat idx) - 1
  | JUnlock => 2 * n + 4 | JExit _ => 0
  end.

Definition j_rank (args : list cstring) (s : jstate) : Z :=
  let n := Z.of_nat (length args) in
  sumZ (thr_rank n <$> thread s) + (2 * n + 7) * (n - sumZ (joined <$> thread s)) + join_rank n s.

Section live.
Context (args : list cstring).
Implicit Types s : jstate.
Abbreviation n := (Z.of_nat (length args)).

Lemma thread_move_rank i s s' :
  j_inv args s → j_exited s = false → thread_move i s = Some s' → j_rank args s' < j_rank args s.
Proof.
  intros Hi He. destruct s as [m ts mp tot live unj o]. rw /thread_move /=.
  destruct (ts !! i) as [[pc st sl]|] eqn:E; [|done]. cbn.
  assert (thr_ok (Thr pc st sl)) as Hp by (destruct Hi; exact (Forall_lookup_1 _ _ _ _ i_thr0 E)).
  assert (m = Some (Thread i) → scan_from mp = None) as Hscan.
  { intros ->. destruct (i_mtx_main _ _ Hi He) as [_ H]. cbn in H. by destruct mp; cbn in *; try done; specialize (H eq_refl). }
  assert (∀ m' mp' unj' o' q,
    (th_state q = TS_JOINED ↔ st = TS_JOINED) →
    join_rank n (JState m ts mp' tot live unj' o) + thr_rank n q <
      join_rank n (JState m ts mp tot live unj o) + thr_rank n (Thr pc st sl) →
    j_rank args (JState m' (<[i := q]> ts) mp' tot live unj' o') <
    j_rank args (JState m ts mp tot live unj o)) as Hrank.
  { intros m' mp' unj' o' q Hq Hlt. rw /j_rank /= (sumZ_insert _ _ _ _ _ E) (joined_set _ _ _ _ E Hq).
    rw /join_rank /= in Hlt |- *. lia. }
  destruct pc; intros H; [| |destruct m|..]; try done; injection H as <-; apply Hrank; try done;
    rw /thr_rank /=; try lia.
  - assert (m = Some (Thread i)) as Hm by (apply (i_mtx_thr _ _ Hi); eauto).
    specialize (Hscan Hm). rw /join_rank. destruct mp; try done; cbn [j_main]; lia.
  - cbn in Hp. by subst st.
  - rw /join_rank. destruct mp; cbn [j_main numUnjoined]; lia.
Qed.

(** When the main thread has the mutex, the threads counted are those marked. *)
Lemma counted_none ts :
  Forall thr_ok ts → Forall (λ t, t_holds t = false) ts →
  Forall (λ t, th_state t ≠ TS_TERMINATED) ts → sumZ (counted <$> ts) = 0.
Proof.
  induction 1 as [|t ts Ht _ IH]; [done|]. intros [Hh Hhs]%Forall_cons [Hs Hss]%Forall_cons. csimpl.
  rw IH //. rw /counted /thr_ok /t_holds in Ht Hh |- *. destruct (th_pc t); try done.
  case_decide; naive_solver.
Qed.

Lemma main_excludes s :
  j_inv args s → j_holds (j_main s) = true → Forall (λ t, t_holds t = false) (thread s).
Proof.
  intros [] Hh. assert (j_exited s = false) as He by (rw /j_exited; by destruct (j_main s)).
  apply Forall_lookup_2. intros i t Hi. destruct (t_holds t) eqn:E; [|done].
  assert (j_mutex s = Some (Thread i)) by (apply i_mtx_thr0; eauto).
  assert (j_mutex s = Some MainThread) by (by apply i_mtx_main0). congruence.
Qed.

Lemma scan_done s idx :
  j_inv args s → j_main s = JScan idx → totThreads s ≤ Z.of_nat idx →
  numUnjoined s = 0 ∧ idx = length (thread s).
Proof.
  intros Hi E Hl. pose proof (main_excludes s Hi ltac:(by rw E)) as Hh. destruct Hi.
  assert (j_exited s = false) as He by (by rw /j_exited E).
  destruct (i_tot0 He ltac:(by rw E)) as [Ht _]. pose proof (i_bound0 idx ltac:(by rw E)).
  split; [|lia]. rw i_unjoined0. apply counted_none; [done..|].
  apply Forall_lookup_2. intros i t Hti. apply (i_scan0 idx i t); [by rw E| |done].
  apply lookup_lt_Some in Hti. lia.
Qed.

Lemma join_move_rank s s' :
  j_inv args s → join_move s = Some s' → j_rank args s' < j_rank args s.
Proof.
  intros Hi. pose proof (scan_done s) as Hdone. destruct s as [m ts mp tot live unj o].
  rw /j_rank /join_rank.
  destruct mp as [[|a rest]| | | | | |idx|idx| |]; rw /join_move; intros H.
  - injection H as <-. cbn [j_main thread length]. lia.
  - destruct (getInt _ _ _ _) as [[k| | | |] ?]; injection H as <-; cbn [j_main thread length]; try lia.
    rw !fmap_app !sumZ_app. csimpl.
    assert (thr_rank n (Thr TSleep TS_ALIVE k) = 2 * n + 10) as -> by done.
    assert (joined (Thr TSleep TS_ALIVE k) = 0) as -> by done. lia.
  - injection H as <-. cbn [j_main thread]. destruct (0 <? live); cbn [j_main]; lia.
  - destruct m; [done|]. injection H as <-. cbn [j_main thread]. lia.
  - destruct (Z.eqb_spec unj 0) as [->|]; injection H as <-; cbn [j_main thread numUnjoined]; [lia|].
    rw (proj2 (Z.eqb_neq unj 0)) //. lia.
  - done.
  - destruct m; [done|]. injection H as <-. cbn [j_main thread]. lia.
  - destruct (Z.ltb_spec (Z.of_nat idx) tot) as [Hl|Hl].
    + destruct (ts !! idx) as [u|]; [|done]. cbn in H.
      case_decide; injection H as <-; cbn [j_main thread numUnjoined]; [destruct (unj =? 0)|]; lia.
    + destruct (Hdone idx Hi eq_refl Hl) as [E1 E2]. cbn in E1, E2. subst.
      pose proof (i_len _ _ Hi) as Hlen. cbn in Hlen. injection H as <-. cbn [j_main thread numUnjoined].
      rw Z.eqb_refl. lia.
  - destruct (ts !! idx) as [u|] eqn:Hu; [|done]. cbn in H. case_decide as Hd; [|done].
    destruct (i_join _ _ Hi idx eq_refl) as (t & Ht & Hs). cbn in Ht. simplify_eq.
    cbn [j_main thread numUnjoined]. rw !(sumZ_insert _ _ _ _ _ Hu).
    assert (thr_rank n u = 0) as -> by (by rw /thr_rank Hd). assert (joined u = 0) as -> by (by rw /joined Hs).
    assert (thr_rank n (Thr TDone TS_JOINED (th_sleep u)) = 0) as -> by done.
    assert (joined (Thr TDone TS_JOINED (th_sleep u)) = 1) as -> by done.
    destruct (unj - 1 =? 0); lia.
  - injection H as <-. cbn [j_main thread]. lia.
  - done.
Qed.

Lemma j_rank_nonneg s : j_inv args s → 0 ≤ j_rank args s.
Proof.
  intros []. pose proof (joined_le (thread s)).
  assert (0 ≤ sumZ (thr_rank n <$> thread s)) as H1.
  { elim: (thread s) => [//|t ts IH]. csimpl. assert (0 ≤ thr_rank n t); [|lia].
    rw /thr_rank. destruct (th_pc t); lia. }
  assert (0 ≤ join_rank n s) as H2; [|rw /j_rank; nia].
  rw /join_rank. destruct (j_main s) as [l| | | | | |idx|idx| |] eqn:E; try lia.
  - specialize (i_bound0 idx eq_refl). destruct (numUnjoined s =? 0); lia.
  - destruct (i_join0 idx eq_refl) as (t & Ht & _). apply lookup_lt_Some in Ht. lia.
Qed.

(** A thread that has not returned and does not wait for the mutex can move. *)
Lemma thread_can_move s i t :
  j_exited s = false → thread s !! i = Some t → th_pc t ≠ TDone →
  (th_pc t = TLock → j_mutex s = None) → ∃ s', jmoves s s'.
Proof.
  intros He Hi Hd Hl. destruct s as [m ts mp tot live unj o]. destruct t as [pc st sl]. cbn in *.
  destruct pc; try done; try (rw (Hl eq_refl) in He |- *); eexists;
    (eapply (jmove_thread i); [done|]); by rw /= Hi.
Qed.

Lemma counted_zero ts i t : sumZ (counted <$> ts) = 0 → ts !! i = Some t → counted t = 0.
Proof.
  assert (∀ ts, 0 ≤ sumZ (counted <$> ts)) as Hnn.
  { elim => [//|u us IH]. csimpl. assert (0 ≤ counted u); [|lia].
    rw /counted. destruct (th_pc u); try done; by case_decide. }
  elim: ts i => [//|u us IH] [|i] H Hi; csimpl in *; pose proof (Hnn us); pose proof (Hnn [u]) as Hu; csimpl in Hu.
  - injection Hi as ->. lia.
  - apply (IH i); [lia|done].
Qed.

(** While the main thread waits, some thread can still wake it. *)
Lemma waits_for s :
  j_inv args s → j_main s = JWait → ∃ i t, thread s !! i = Some t ∧ th_pc t ≠ TDone.
Proof.
  intros [] Hw. destruct (i_waiting0 Hw) as [Hu|(i & t & Hi & Hs)].
  2:{ exists i, t. split; [done|]. by destruct Hs as [->|[->| ->]]. }
  assert (j_exited s = false) as He by (by rw /j_exited Hw).
  pose proof (i_more0 ltac:(auto)) as Hlive. destruct (i_tot0 He ltac:(by rw Hw)) as [_ Hl].
  destruct (decide (Exists (λ t, th_pc t ≠ TDone) (thread s))) as [H|H].
  { by apply Exists_exists in H as (t & [i Hi]%list_elem_of_lookup & Ht); eauto. }
  exfalso. apply not_Exists_Forall in H; [|intros ?; apply _].
  assert (sumZ (joined <$> thread s) = Z.of_nat (length (thread s))); [|lia].
  rw i_unjoined0 in Hu. clear -H Hu. assert (∀ i t, thread s !! i = Some t → joined t = 1) as Hj.
  { intros i t Hi. apply (counted_zero _ _ _ Hu) in Hi as Hc.
    apply (Forall_lookup_1 _ _ _ _ H), dec_stable in Hi. rw /counted Hi in Hc. rw /joined.
    by case_decide. }
  clear -Hj. elim: (thread s) Hj => [//|t ts IH] Hj. csimpl.
  rw (Hj 0%nat t eq_refl) IH; [|lia]. intros i u Hu. exact (Hj (S i) u Hu).
Qed.

Lemma j_can_move s : j_inv args s → j_exited s = false → ∃ s', jmoves s s'.
Proof.
  intros Hi He. destruct (j_mutex s) as [[|i]|] eqn:Hm.
  - apply (i_mtx_main _ _ Hi He) in Hm as Hh.
    pose proof (main_excludes s Hi Hh) as Hex.
    destruct (j_main s) as [| | | | | |idx|idx| |] eqn:E; try done.
    + destruct s as [m ts mp tot live unj o]. cbn in *. subst.
      destruct (unj =? 0) eqn:Eu; eexists; eapply jmove_main; by rw /join_move Eu.
    + destruct (i_tot _ _ Hi He ltac:(by rw E)) as [Ht _].
      destruct s as [m ts mp tot live unj o]. cbn in *. subst.
      destruct (Z.ltb_spec (Z.of_nat idx) (Z.of_nat (length ts))) as [Hl|Hl].
      * destruct (lookup_lt_is_Some_2 ts idx) as [t Ht]; [lia|]. eexists. eapply jmove_main.
        by rw /join_move (proj2 (Z.ltb_lt _ _) Hl) Ht.
      * eexists. eapply jmove_main. by rw /join_move (proj2 (Z.ltb_ge _ _) Hl).
    + destruct (i_join _ _ Hi idx E) as (t & Ht & Hs).
      destruct (decide (th_pc t = TDone)) as [Hd|Hd].
      * destruct s as [m ts mp tot live unj o]. cbn in *. subst. eexists. eapply jmove_main.
        by rw /join_move Ht /= decide_True.
      * apply (thread_can_move s idx t); try done. intros El.
        apply (Forall_lookup_1 _ _ _ _ (i_thr _ _ Hi)) in Ht. by rw /thr_ok El Hs in Ht.
    + destruct s as [m ts mp tot live unj o]. cbn in *. subst. eexists. by eapply jmove_main.
  - destruct (proj1 (i_mtx_thr _ _ Hi i) Hm) as (t & Ht & Hh).
    apply (thread_can_move s i t); [done..| |]; intros E; by rw /t_holds E in Hh.
  - destruct (decide (j_main s = JWait)) as [Hw|Hw].
    { destruct (waits_for s Hi Hw) as (i & t & Ht & Hd). by apply (thread_can_move s i t). }
    pose proof (i_mtx_main _ _ Hi He) as Hh. destruct s as [m ts mp tot live unj o]. cbn in *. subst m.
    destruct mp as [[|a rest]| | | | | |idx|idx| |]; try done; try solve [discriminate (proj2 Hh eq_refl)];
      try (eexists; by eapply jmove_main).
    destruct (getInt (Some a) GN_NONNEG None []) as [[k| | | |] ?] eqn:Eg; eexists; eapply jmove_main;
      by rw /join_move Eg.
Qed.
End live.

(** The program ends: from every reachable state in which the process has not ended some
    thread can move (no deadlock, and pthread_join never waits for a thread that
    waits for the main thread), and every move decreases a bound. *)
Lemma multijoin_ends args s :
  rtc jstep (j_start args) s →
  (j_exited s = true ∨ ∃ s', jmoves s s') ∧
  (∀ s', jmoves s s' → 0 ≤ j_rank args s' < j_rank args s).
Proof.
  intros Hr. apply j_reach_inv in Hr as Hi. split.
  - destruct (j_exited s) eqn:E; [by left|right]. by apply (j_can_move args).
  - intros s' Hs. assert (j_inv args s') as Hi'.
    { apply j_reach_inv. eapply rtc_r; [exact Hr|]. by left. }
    split; [by apply j_rank_nonneg|].
    destruct Hs as [i s s' He Hs|s s' Hs]; [eapply thread_move_rank|eapply join_move_rank]; eassumption.
Qed.

(** ** A run *)

Definition j_run_move (m : option nat) (s : jstate) : option jstate :=
  match m with None => join_move s | Some i => thread_move i s end.

Fixpoint j_run (l : list (option nat)) (s : jstate) : option jstate :=
  match l with
  | [] => Some s
  | m :: l => if j_exited s then None else s' ← j_run_move m s ; j_run l s'
  end.

Lemma j_run_rtc l s s' : j_run l s = Some s' → rtc jstep s s'.
Proof.
  elim: l s => [|m l IH] s /=; [intros [= ->]; constructor|].
  destruct (j_exited s) eqn:E; [done|]. destruct (j_run_move m s) as [s1|] eqn:E1; [|done].
  intros H. apply IH in H. eapply rtc_l; [|exact H]. left.
  destruct m; [eapply jmove_thread|eapply jmove_main]; eassumption.
Qed.

(** Two threads; the second ends first. *)
Definition j_args : list cstring := [cs "2"; cs "1"].
Definition j_schedule : list (option nat) :=
  replicate 6 None ++ replicate 7 (Some 1%nat) ++ replicate 10 None ++
  replicate 7 (Some 0%nat) ++ replicate 8 None.
Definition j_end : jstate := default (j_start []) (j_run j_schedule (j_start j_args)).

Lemma j_end_reached : rtc jstep (j_start j_args) j_end.
Proof. apply (j_run_rtc j_schedule). by vm_compute. Qed.

Lemma multijoin_correct_witness :
  j_main j_end = JExit EXIT_SUCCESS ∧ (reaped (j_out j_end)).*1 ≡ₚ [0; 1]%nat ∧
  j_out j_end = [Terminating 1; Reaped 1 1; Terminating 0; Reaped 0 0].
Proof.
  assert (j_main j_end = JExit EXIT_SUCCESS) as E by (by vm_compute).
  destruct (multijoin_correct j_args j_end j_end_reached) as (_ & _ & _ & _ & _ & H).
  split_and!; [done|exact (H E)|by vm_compute].
Defined.

Lemma multijoin_ends_witness :
  (j_exited (j_start j_args) = true ∨ ∃ s', jmoves (j_start j_args) s') ∧
  (∀ s', jmoves (j_start j_args) s' → 0 ≤ j_rank j_args s' < j_rank j_args (j_start j_args)).
Proof. apply (multijoin_ends j_args (j_start j_args)). constructor. Defined.
