(* ===== verification/ThreadIncr.v ===== *)
(** * Two threads increment a variable: [threads/thread_incr.c], its versions
      with a mutex, a read-write lock and a spin lock, and [psem/thread_incr_psem.c]
      with a semaphore

    The programs differ in what guards the increment.  [Lock] is the interface
    of a lock, with an instance for each kind the programs use; [LockOk] is
    what a lock promises, and the theorems are proved from it.  One move of a
    thread is one access to [glob] or one call. *)

From S2P Require Import Prelude CStdlib GetNum Threads.

(** ** Locks *)

(** The calls of thread [i]; [None]: the call blocks. *)
Class Lock (L : Type) := {
  lk_init : L;
  lk_acquire : nat → L → option L;
  lk_release : nat → L → option L;
}.

(** [lk_holds i l]: thread [i] may release. *)
Class LockOk (L : Type) `{!Lock L} := {
  lk_ok : L → Prop;
  lk_free : L → bool;
  lk_holds : nat → L → Prop;
  lk_init_ok : lk_ok lk_init ∧ lk_free lk_init = true;
  lk_acquire_ok i l l' : lk_ok l → lk_acquire i l = Some l' →
    lk_free l = true ∧ lk_ok l' ∧ lk_free l' = false ∧ lk_holds i l';
  lk_acquire_free i l : lk_ok l → lk_free l = true → is_Some (lk_acquire i l);
  lk_release_ok i l : lk_ok l → lk_free l = false → lk_holds i l →
    ∃ l', lk_release i l = Some l' ∧ lk_ok l' ∧ lk_free l' = true;
}.

(** pthread_mutex_lock and pthread_mutex_unlock: the owner. *)
Definition mutex : Type := option nat.
#[export] Instance mutex_lock : Lock mutex := {
  lk_init := None;
  lk_acquire i l := match l with None => Some (Some i) | Some _ => None end;
  lk_release i l := match l with Some j => if decide (i = j) then Some None else None | None => None end;
}.
#[export, refine] Instance mutex_lock_ok : LockOk mutex := {
  lk_ok _ := True; lk_free l := match l with None => true | Some _ => false end; lk_holds i l := l = Some i;
}.
Proof.
  - done.
  - by intros i [] l' _ [= <-].
  - intros i [] _ H; [done|by eexists].
  - intros i l _ _ ->. exists None. by rw /= decide_True.
Defined.

(** pthread_rwlock_wrlock, pthread_rwlock_rdlock is not called: the readers
    and the writer. *)
Record rwlock := RwLock { rw_readers : nat; rw_writer : option nat }.
#[export] Instance rwlock_lock : Lock rwlock := {
  lk_init := RwLock 0 None;
  lk_acquire i l := match l with RwLock O None => Some (RwLock O (Some i)) | _ => None end;
  lk_release i l :=
    match l with
    | RwLock n (Some j) => if decide (i = j) then Some (RwLock n None) else None
    | RwLock (S n) None => Some (RwLock n None)
    | RwLock O None => None
    end;
}.
#[export, refine] Instance rwlock_lock_ok : LockOk rwlock := {
  lk_ok l := rw_readers l = O;
  lk_free l := match rw_writer l with None => true | Some _ => false end;
  lk_holds i l := rw_writer l = Some i;
}.
Proof.
  - done.
  - by intros i [[] []] l' _ [= <-].
  - intros i [[] []] H1 H2; try done.
  - intros i [n w] H1 _ H2. cbn in *. subst. eexists. by rw decide_True.
Defined.

(** pthread_spin_lock and pthread_spin_unlock: whether it is taken. *)
Definition spinlock : Type := bool.
#[export] Instance spinlock_lock : Lock spinlock := {
  lk_init := false;
  lk_acquire _ l := if l : bool then None else Some true;
  lk_release _ _ := Some false;
}.
#[export, refine] Instance spinlock_lock_ok : LockOk spinlock := {
  lk_ok _ := True; lk_free := negb; lk_holds _ l := l = true;
}.
Proof.
  - done.
  - by intros i [] l' _ [= <-].
  - intros i [] _ H; [done|by eexists].
  - intros i l _ _ _. by exists false.
Defined.

(** sem_wait and sem_post: the value, initially 1. *)
Definition semaphore : Type := nat.
#[export] Instance semaphore_lock : Lock semaphore := {
  lk_init := 1%nat;
  lk_acquire _ l := match l with O => None | S n => Some n end;
  lk_release _ l := Some (S l);
}.
#[export, refine] Instance semaphore_lock_ok : LockOk semaphore := {
  lk_ok l := (l ≤ 1)%nat; lk_free l := (0 <? l)%nat; lk_holds _ l := l = O;
}.
Proof.
  - split; [cbn; lia|done].
  - intros i [|[|l]] l' H; [done| |lia]. intros [= <-]. split_and!; try done. lia.
  - intros i [|l] _ H; [done|by eexists].
  - intros i l _ _ ->. exists 1%nat. split_and!; [done|lia|done].
Defined.

(** ** The programs *)

(** A thread is at the test of its loop, before the call that takes the lock,
    before [loc = glob], [loc++] and [glob = loc], before the call that gives
    the lock back, or has returned. *)
Inductive ipc := ITop | ILock | ILoad | IAdd | IStore | IUnlock | IDone.
#[export] Instance ipc_eq_dec : EqDecision ipc.
Proof. solve_decision. Defined.

Record ithr := IThr { it_pc : ipc; it_j : Z; it_loc : Z }.

(** The main thread has created [k] threads, or joined [k], or is at the
    printf, or the process has ended. *)
Inductive impc := ICreate (k : nat) | IJoin (k : nat) | IPrint | IExit (status : Z).
#[export] Instance impc_eq_dec : EqDecision impc.
Proof. solve_decision. Defined.

Record istate (L : Type) := IState {
  glob : Z; i_lock : L; i_loops : Z; i_thr : list ithr; i_main : impc; i_out : cstring }.
Arguments IState {L} _ _ _ _ _ _.
Arguments glob {L} _.
Arguments i_lock {L} _.
Arguments i_loops {L} _.
Arguments i_thr {L} _.
Arguments i_main {L} _.
Arguments i_out {L} _.

Section program.
Context {L : Type} `{!Lock L} (locked : bool).
Abbreviation S := (istate L).

Definition threadFunc_move (i : nat) (s : S) : option S :=
  let '(IState g l n ts mp o) := s in
  t ← ts !! i;
  let '(IThr pc j loc) := t in
  let at_ pc' := <[i := IThr pc' j loc]> ts in
  match pc with
  | ITop => Some (IState g l n (at_ (if j <? n then if locked then ILock else ILoad else IDone)) mp o)
  | ILock => l ← lk_acquire i l ; Some (IState g l n (at_ ILoad) mp o)
  | ILoad => Some (IState g l n (<[i := IThr IAdd j g]> ts) mp o)
  | IAdd => Some (IState g l n (<[i := IThr IStore j (wrapS 32 (loc + 1))]> ts) mp o)
  | IStore =>
      Some (IState loc l n (<[i := if locked then IThr IUnlock j loc else IThr ITop (j + 1) loc]> ts) mp o)
  | IUnlock => l ← lk_release i l ; Some (IState g l n (<[i := IThr ITop (j + 1) loc]> ts) mp o)
  | IDone => None
  end.

Definition incr_main_move (s : S) : option S :=
  let '(IState g l n ts mp o) := s in
  match mp with
  | ICreate k =>
      if (k <? 2)%nat then Some (IState g l n (ts ++ [IThr ITop 0 0]) (ICreate (k + 1)) o)
      else Some (IState g l n ts (IJoin 0) o)
  | IJoin k =>
      if (k <? 2)%nat then
        t ← ts !! k; if decide (it_pc t = IDone) then Some (IState g l n ts (IJoin (k + 1)) o) else None
      else Some (IState g l n ts IPrint o)
  | IPrint => Some (IState g l n ts (IExit EXIT_SUCCESS) (o ++ cs "glob = " ++ fmt_d g ++ [NL]))
  | IExit _ => None
  end.

Definition i_exited (s : S) : bool := match i_main s with IExit _ => true | _ => false end.

(** The points at which a thread calls the library and checks the result. *)
Definition incr_calls (pc : ipc) : bool := match pc with ILock | IUnlock => true | _ => false end.
Definition incr_main_calls (mp : impc) : bool := match mp with ICreate _ | IJoin _ => true | _ => false end.

(** A move of some thread, and a call that fails. *)
Inductive iworks : S → S → Prop :=
  | iwork_thread i s s' : i_exited s = false → threadFunc_move i s = Some s' → iworks s s'
  | iwork_main s s' : incr_main_move s = Some s' → iworks s s'.

Inductive ifails : S → S → Prop :=
  | ifail s : i_exited s = false →
      incr_main_calls (i_main s) = true ∨ (∃ i t, i_thr s !! i = Some t ∧ incr_calls (it_pc t) = true) →
      ifails s (IState (glob s) (i_lock s) (i_loops s) (i_thr s) (IExit EXIT_FAILURE) (i_out s)).

Definition imoves (s s' : S) : Prop := iworks s s' ∨ ifails s s'.

(** [loops = (argc > 1) ? getInt(argv[1], GN_GT_0, "num-loops") : 10000000]. *)
Definition loops_of (argv : list cstring) : option Z :=
  match argv with
  | _ :: a :: _ =>
      match getInt (Some a) GN_GT_0 (Some (cs "num-loops")) [] with
      | (Ret n, _) => Some n
      | _ => None
      end
  | _ => Some 10000000
  end.

Definition incr_start (argv : list cstring) : S :=
  match loops_of argv with
  | Some n => IState 0 lk_init n [] (ICreate 0) []
  | None => IState 0 lk_init 0 [] (IExit EXIT_FAILURE) []
  end.

Definition incr_runs (argv : list cstring) (s : S) : Prop := rtc imoves (incr_start argv) s.
End program.

(** The five programs. *)
Definition thread_incr : list cstring → istate mutex → Prop := incr_runs false.
Definition thread_incr_mutex : list cstring → istate mutex → Prop := incr_runs true.
Definition thread_incr_rwlock : list cstring → istate rwlock → Prop := incr_runs true.
Definition thread_incr_spinlock : list cstring → istate spinlock → Prop := incr_runs true.
Definition thread_incr_psem : list cstring → istate semaphore → Prop := incr_runs true.

(** ** Invariants *)

(** The stores a thread has made. *)
Definition stores (t : ithr) : Z := it_j t + match it_pc t with IUnlock => 1 | _ => 0 end.
Definition total (ts : list ithr) : Z := sumZ (stores <$> ts).

#[global] Arguments total : simpl never.

Definition ithr_ok (n : Z) (t : ithr) : Prop :=
  0 ≤ it_j t ≤ n ∧ match it_pc t with ITop => True | IDone => it_j t = n | _ => it_j t < n end.

Definition created (mp : impc) (ts : list ithr) (o : cstring) (g : Z) : Prop :=
  match mp with
  | ICreate k => length ts = k ∧ (k ≤ 2)%nat
  | IJoin k => length ts = 2%nat ∧ (k ≤ 2)%nat ∧ ∀ i t, (i < k)%nat → ts !! i = Some t → it_pc t = IDone
  | IPrint => length ts = 2%nat ∧ Forall (λ t, it_pc t = IDone) ts
  | IExit status => (length ts ≤ 2)%nat ∧ (status = EXIT_SUCCESS →
      length ts = 2%nat ∧ Forall (λ t, it_pc t = IDone) ts ∧ o = cs "glob = " ++ fmt_d g ++ [NL])
  end.

(** What a thread has read is at least 1 after a store of its own, and at most
    what has been stored. *)
Definition loc_ok (g tot : Z) (t : ithr) : Prop :=
  (1 ≤ stores t → 1 ≤ g) ∧
  match it_pc t with
  | IAdd => Z.min (it_j t) 1 ≤ it_loc t ≤ tot
  | IStore => Z.min (it_j t) 1 + 1 ≤ it_loc t ≤ tot + 1
  | _ => True
  end.

Record i_inv {L} (n : Z) (s : istate L) : Prop := {
  a_loops : i_loops s = n;
  a_thr : Forall (ithr_ok n) (i_thr s);
  a_main : created (i_main s) (i_thr s) (i_out s) (glob s) ∧ (i_exited s = false → i_out s = []);
  a_glob : 0 ≤ glob s ≤ total (i_thr s);
  a_loc : Forall (loc_ok (glob s) (total (i_thr s))) (i_thr s);
  a_all : length (i_thr s) = 2%nat → Forall (λ t, stores t = n) (i_thr s) → Z.min n 2 ≤ glob s;
}.

Definition critical (t : ithr) : bool :=
  match it_pc t with ILoad | IAdd | IStore | IUnlock => true | _ => false end.

(** With a lock no store is lost. *)
Record l_inv {L} `{!Lock L, !LockOk L} (s : istate L) : Prop := {
  b_lock : lk_ok (i_lock s);
  b_crit i t : i_thr s !! i = Some t → critical t = true → lk_holds i (i_lock s) ∧ lk_free (i_lock s) = false;
  b_one i j t u : i_thr s !! i = Some t → i_thr s !! j = Some u →
    critical t = true → critical u = true → i = j;
  b_taken : lk_free (i_lock s) = false → ∃ i t, i_thr s !! i = Some t ∧ critical t = true;
  b_glob : glob s = total (i_thr s);
  b_loc i t : i_thr s !! i = Some t →
    match it_pc t with IAdd => it_loc t = glob s | IStore => it_loc t = glob s + 1 | _ => True end;
}.

Lemma total_insert ts i t u :
  ts !! i = Some t → total (<[i := u]> ts) = total ts - stores t + stores u.
Proof. apply sumZ_insert. Qed.

Lemma total_new ts : total (ts ++ [IThr ITop 0 0]) = total ts.
Proof. rw /total fmap_app sumZ_app. apply Z.add_0_r. Qed.

Lemma stores_le n ts : Forall (ithr_ok n) ts → 0 ≤ total ts ≤ n * Z.of_nat (length ts).
Proof.
  induction 1 as [|t ts [Hj Ht] _ IH]; [rw /total /=; lia|]. rw /total in IH |- *. csimpl.
  assert (0 ≤ stores t ≤ n); [rw /stores; destruct (it_pc t); lia|lia].
Qed.

(** A thread about to store has room for it in the total. *)
Lemma room n ts i t :
  0 < n → Forall (ithr_ok n) ts → (length ts ≤ 2)%nat → ts !! i = Some t → stores t < n →
  total ts + 1 ≤ 2 * n.
Proof.
  intros Hn Hts Hl Hi Ht. pose proof (total_insert ts i t (IThr IDone n 0) Hi) as E.
  assert (Forall (ithr_ok n) (<[i := IThr IDone n 0]> ts)) as Hok.
  { apply Forall_insert; [done|]. split; cbn; [lia|done]. }
  apply stores_le in Hok. rw length_insert E /= in Hok.
  assert (stores (IThr IDone n 0) = n) as E2 by (rw /stores /=; lia). nia.
Qed.

Lemma created_len mp ts o g : created mp ts o g → (length ts ≤ 2)%nat.
Proof. destruct mp; cbn; [lia|lia|lia|]. by intros [? _]. Qed.

Lemma created_set mp ts o g g' i t u :
  created mp ts o g → (∀ status, mp ≠ IExit status) → ts !! i = Some t → it_pc t ≠ IDone →
  created mp (<[i := u]> ts) o g'.
Proof.
  intros H Hm Hi Hd. destruct mp as [k|k| |st]; cbn in *; rw length_insert; [done| | |by destruct (Hm st)].
  - destruct H as (? & ? & H). split_and!; [done..|]. intros k' v Hk Hv.
    destruct (decide (k' = i)) as [->|]; [by destruct (Hd (H i t Hk Hi))|].
    rw list_lookup_insert_ne in Hv; [congruence|]. exact (H _ _ Hk Hv).
  - destruct H as [_ H]. by apply (Forall_lookup_1 _ _ _ _ H) in Hi.
Qed.

Section preserve.
Context {L : Type} `{!Lock L} (locked : bool) (n : Z) (Hn : 0 < n) (Hmax : 2 * n ≤ INT_MAX).
Implicit Types (s : istate L) (ts : list ithr).

Lemma exited_main (s : istate L) : i_exited s = false → ∀ status, i_main s ≠ IExit status.
Proof. intros H st E. by rw /i_exited E in H. Qed.

(** A move that stores nothing. *)
Lemma i_quiet g (l l' : L) ts mp o i t u :
  i_inv n (IState g l n ts mp o) → i_exited (IState g l n ts mp o) = false →
  ts !! i = Some t → it_pc t ≠ IDone → ithr_ok n u → stores u = stores t →
  match it_pc u with
  | IAdd => Z.min (it_j u) 1 ≤ it_loc u ≤ total ts
  | IStore => Z.min (it_j u) 1 + 1 ≤ it_loc u ≤ total ts + 1
  | _ => True
  end →
  i_inv n (IState g l' n (<[i := u]> ts) mp o).
Proof.
  intros Hi He Ht Hd Hu Hs Hloc. pose proof (exited_main _ He) as Hm. destruct Hi; cbn in *.
  assert (total (<[i := u]> ts) = total ts) as Htot by (rw (total_insert _ _ _ _ Ht); lia).
  split; cbn; rw ?Htot ?length_insert; try done.
  - by apply Forall_insert.
  - destruct a_main0 as [H1 H2]. split; [|done]. exact (created_set _ _ _ _ _ _ _ _ H1 Hm Ht Hd).
  - apply Forall_insert; [done|]. split; [|done]. rw Hs.
    by apply (Forall_lookup_1 _ _ _ _ a_loc0 Ht).
  - intros Hl Hall. apply a_all0; [done|]. rw -(list_insert_id _ _ _ Ht) -(list_insert_insert_eq ts i t u).
    apply Forall_insert; [done|]. rw -Hs. exact (Forall_lookup_1 _ _ i _ Hall
      (list_lookup_insert_eq _ _ _ (lookup_lt_Some _ _ _ Ht))).
Qed.

(** The store [glob = loc]. *)
Lemma i_store g (l : L) ts mp o i j loc u :
  i_inv n (IState g l n ts mp o) → i_exited (IState g l n ts mp o) = false →
  ts !! i = Some (IThr IStore j loc) → u = IThr IUnlock j loc ∨ u = IThr ITop (j + 1) loc →
  i_inv n (IState loc l n (<[i := u]> ts) mp o).
Proof.
  intros Hi He Ht Hu. pose proof (exited_main _ He) as Hm. destruct Hi; cbn in *.
  destruct (Forall_lookup_1 _ _ _ _ a_thr0 Ht) as [Hj Hjn]. cbn in Hj, Hjn.
  destruct (Forall_lookup_1 _ _ _ _ a_loc0 Ht) as [_ Hloc]. cbn in Hloc.
  assert (stores u = j + 1) as Hs by (destruct Hu as [->| ->]; rw /stores /=; lia).
  assert (total (<[i := u]> ts) = total ts + 1) as Htot.
  { rw (total_insert _ _ _ _ Ht) Hs /stores /=. lia. }
  split; cbn; rw ?Htot ?length_insert; try done.
  - apply Forall_insert; [done|]. destruct Hu as [->| ->]; split; cbn; lia.
  - destruct a_main0 as [H1 H2]. split; [|done]. exact (created_set _ _ _ _ _ _ _ _ H1 Hm Ht ltac:(done)).
  - lia.
  - apply Forall_insert.
    + eapply Forall_impl; [exact a_loc0|]. intros v [H1 H2]. split; [lia|].
      destruct (it_pc v); try done; lia.
    + split; [lia|]. by destruct Hu as [->| ->].
  - intros _ Hall. pose proof (Forall_lookup_1 _ _ i _ Hall
      (list_lookup_insert_eq _ _ _ (lookup_lt_Some _ _ _ Ht))) as E. cbn in E. lia.
Qed.

Lemma thread_inv i s s' :
  i_inv n s → i_exited s = false → threadFunc_move locked i s = Some s' → i_inv n s'.
Proof.
  intros Hi He H. pose proof (a_loops _ _ Hi) as El. destruct s as [g l n' ts mp o]. cbn in El. subst n'.
  rw /threadFunc_move /= in H. destruct (ts !! i) as [[pc j loc]|] eqn:E; [|done]. cbn in H.
  destruct (Forall_lookup_1 _ _ _ _ (a_thr _ _ Hi) E) as [Hj Hjn]. cbn in Hj, Hjn.
  destruct (Forall_lookup_1 _ _ _ _ (a_loc _ _ Hi) E) as [Hl1 Hl2]. cbn in Hl1, Hl2.
  pose proof (a_glob _ _ Hi) as Hg. cbn in Hg.
  destruct pc.
  - injection H as <-. apply (i_quiet _ _ _ _ _ _ _ _ _ Hi He E); try done.
    + destruct (Z.ltb_spec j n); destruct locked; split; cbn; lia.
    + by destruct (j <? n), locked.
    + by destruct (j <? n), locked.
  - destruct (lk_acquire i l) as [l'|]; [|done]. injection H as <-.
    by apply (i_quiet _ _ _ _ _ _ _ _ _ Hi He E).
  - injection H as <-. apply (i_quiet _ _ _ _ _ _ _ _ _ Hi He E); try done.
    cbn. split; [|lia]. destruct (decide (1 ≤ j)); [|lia]. rw /stores /= in Hl1. lia.
  - injection H as <-. apply (i_quiet _ _ _ _ _ _ _ _ _ Hi He E); try done. cbn.
    pose proof (room n ts i _ Hn (a_thr _ _ Hi) (created_len _ _ _ _ (proj1 (a_main _ _ Hi))) E
      ltac:(rw /stores /=; lia)) as Hroom.
    rw -/(to_int (loc + 1)) to_int_id; [|lia]. rw /in_int /INT_MIN. lia.
  - injection H as <-. apply (i_store _ _ _ _ _ _ _ _ _ Hi He E). destruct locked; auto.
  - destruct (lk_release i l) as [l'|]; [|done]. injection H as <-.
    apply (i_quiet _ _ _ _ _ _ _ _ _ Hi He E); try done.
    + split; cbn; lia.
    + rw /stores /=. lia.
  - done.
Qed.

Lemma main_inv s s' : i_inv n s → incr_main_move s = Some s' → i_inv n s'.
Proof.
  intros Hi H. destruct s as [g l n' ts mp o]. destruct Hi; cbn -[Nat.ltb] in *. destruct a_main0 as [Hc Ho].
  destruct mp as [k|k| |st]; cbn -[Nat.ltb] in *.
  - destruct Hc as [Hk1 Hk2]. destruct (Nat.ltb_spec k 2); injection H as <-; split; cbn; try done.
    + apply Forall_app_2; [done|]. apply Forall_singleton. split; cbn; lia.
    + split; [rw length_app /=; lia|auto].
    + by rw total_new.
    + rw total_new. apply Forall_app_2; [done|]. apply Forall_singleton. by split.
    + intros _ [_ [E _]%Forall_cons]%Forall_app. rw /stores /= in E. lia.
    + split; [|auto]. split_and!; [lia|lia|]. intros i t Hi. lia.
  - destruct Hc as (Hk1 & Hk2 & Hk3). destruct (Nat.ltb_spec k 2).
    + destruct (ts !! k) as [t|] eqn:Et; [|done]. cbn in H. case_decide as Hd; [|done].
      injection H as <-. split; cbn; try done. split; [|auto]. split_and!; [done|lia|].
      intros i u Hi Hu. destruct (decide (i = k)) as [->|]; [congruence|]. apply (Hk3 i u); [lia|done].
    + injection H as <-. split; cbn; try done. split; [|auto]. split; [done|].
      apply Forall_lookup_2. intros i t Hi. apply (Hk3 i t); [|done]. apply lookup_lt_Some in Hi. lia.
  - injection H as <-. destruct Hc as [Hc1 Hc2]. split; cbn; try done. split; [|done].
    split; [lia|]. intros _. by rw Ho.
  - done.
Qed.

Lemma fails_inv s :
  i_inv n s → i_exited s = false →
  i_inv n (IState (glob s) (i_lock s) (i_loops s) (i_thr s) (IExit EXIT_FAILURE) (i_out s)).
Proof.
  intros [] He. split; cbn; try done. split; [|done]. split; [|done].
  exact (created_len _ _ _ _ (proj1 a_main0)).
Qed.

Lemma incr_reach_inv argv s :
  loops_of argv = Some n →
  incr_runs locked argv s → i_inv n s.
Proof.
  intros El. apply (rtc_ind_r (i_inv n)).
  - rw /incr_start El. split; cbn; try done. split; [|done]. split; [done|lia].
  - intros s1 s2 _ [[i ? ? He Hs|? ? Hs]|[? He _]] IH;
      [eapply thread_inv|eapply main_inv|apply fails_inv]; eassumption.
Qed.
End preserve.

Section lock.
Context {L : Type} `{!Lock L, !LockOk L} (n : Z) (Hn : 0 < n) (Hmax : 2 * n ≤ INT_MAX).
Implicit Types (s : istate L) (ts : list ithr).

(** A move that stores nothing and leaves the lock alone. *)
Lemma l_quiet g (l : L) m ts mp o i t u :
  l_inv (IState g l m ts mp o) → ts !! i = Some t → critical u = critical t → stores u = stores t →
  match it_pc u with IAdd => it_loc u = g | IStore => it_loc u = g + 1 | _ => True end →
  l_inv (IState g l m (<[i := u]> ts) mp o).
Proof.
  intros [] Ht Hc Hs Hloc. cbn in *. pose proof (lookup_lt_Some _ _ _ Ht) as Hlt.
  assert (∀ k v, <[i := u]> ts !! k = Some v → ∃ w, ts !! k = Some w ∧ critical w = critical v) as Hback.
  { intros k v [(<- & -> & _)|[_ Hk]]%list_lookup_insert_Some; eauto. }
  split; cbn; try done.
  - intros k v (w & Hw & E)%Hback Hv. rw -E in Hv. eauto.
  - intros k1 k2 v1 v2 (w1 & Hw1 & E1)%Hback (w2 & Hw2 & E2)%Hback. rw -E1 -E2. eauto.
  - intros (k & w & Hk & Hw)%b_taken0. destruct (decide (k = i)) as [->|].
    + exists i, u. rw list_lookup_insert_eq //. simplify_eq. split; [done|congruence].
    + exists k, w. rw list_lookup_insert_ne; [congruence|done].
  - rw (total_insert _ _ _ _ Ht). lia.
  - intros k v [(<- & -> & _)|[_ Hk]]%list_lookup_insert_Some; [done|]. exact (b_loc0 _ _ Hk).
Qed.

Lemma l_store g (l : L) m ts mp o i j loc :
  l_inv (IState g l m ts mp o) → ts !! i = Some (IThr IStore j loc) →
  l_inv (IState loc l m (<[i := IThr IUnlock j loc]> ts) mp o).
Proof.
  intros [] Ht. cbn in *. pose proof (lookup_lt_Some _ _ _ Ht) as Hlt.
  pose proof (b_loc0 _ _ Ht) as Hloc. cbn in Hloc.
  assert (∀ k v, <[i := IThr IUnlock j loc]> ts !! k = Some v → critical v = true →
            ∃ w, ts !! k = Some w ∧ critical w = true) as Hback.
  { intros k v [(<- & <- & _)|[_ Hk]]%list_lookup_insert_Some ?; eauto. }
  split; cbn; try done.
  - intros k v Hv1 Hv2. destruct (Hback k v Hv1 Hv2) as (w & Hw & E). eauto.
  - intros k1 k2 v1 v2 H1 H2 C1 C2. destruct (Hback _ _ H1 C1) as (w1 & Hw1 & E1).
    destruct (Hback _ _ H2 C2) as (w2 & Hw2 & E2). eauto.
  - intros _. exists i, (IThr IUnlock j loc). by rw list_lookup_insert_eq.
  - rw (total_insert _ _ _ _ Ht) /stores /=. lia.
  - intros k v [(<- & <- & _)|[Hne Hk]]%list_lookup_insert_Some; [done|].
    destruct (it_pc v) eqn:E; try done; exfalso; apply Hne;
      eapply (b_one0 i k _ v); [exact Ht|exact Hk|done|by rw /critical E|exact Ht|exact Hk|done|by rw /critical E].
Qed.

Lemma l_acquire g (l l' : L) m ts mp o i j loc :
  l_inv (IState g l m ts mp o) → ts !! i = Some (IThr ILock j loc) → lk_acquire i l = Some l' →
  l_inv (IState g l' m (<[i := IThr ILoad j loc]> ts) mp o).
Proof.
  intros [] Ht Ha. cbn in *. pose proof (lookup_lt_Some _ _ _ Ht) as Hlt.
  destruct (lk_acquire_ok _ _ _ b_lock0 Ha) as (Hf & Hok & Hf' & Hh).
  assert (∀ k v, <[i := IThr ILoad j loc]> ts !! k = Some v → critical v = true → k = i) as Honly.
  { intros k v [(<- & _)|[_ Hk]]%list_lookup_insert_Some Hv; [done|].
    destruct (b_crit0 _ _ Hk Hv). congruence. }
  split; cbn; try done.
  - intros k v H1 H2. by rw (Honly _ _ H1 H2).
  - intros k1 k2 v1 v2 H1 H2 C1 C2. by rw (Honly _ _ H1 C1) (Honly _ _ H2 C2).
  - intros _. exists i, (IThr ILoad j loc). by rw list_lookup_insert_eq.
  - rw (total_insert _ _ _ _ Ht) /stores /=. lia.
  - intros k v [(<- & <- & _)|[_ Hk]]%list_lookup_insert_Some; [done|]. exact (b_loc0 _ _ Hk).
Qed.

Lemma l_release g (l l' : L) m ts mp o i j loc :
  l_inv (IState g l m ts mp o) → ts !! i = Some (IThr IUnlock j loc) → lk_release i l = Some l' →
  l_inv (IState g l' m (<[i := IThr ITop (j + 1) loc]> ts) mp o).
Proof.
  intros [] Ht Hr. cbn in *. pose proof (lookup_lt_Some _ _ _ Ht) as Hlt.
  destruct (b_crit0 _ _ Ht eq_refl) as [Hh Hf].
  destruct (lk_release_ok i l b_lock0 Hf Hh) as (l1 & Hr1 & Hok & Hf1). simplify_eq.
  assert (∀ k v, <[i := IThr ITop (j + 1) loc]> ts !! k = Some v → critical v = false) as Hnone.
  { intros k v [(<- & <- & _)|[Hne Hk]]%list_lookup_insert_Some; [done|].
    destruct (critical v) eqn:E; [|done]. by destruct (Hne (b_one0 _ _ _ _ Ht Hk eq_refl E)). }
  split; cbn; try done.
  - intros k v H1 H2. by rw (Hnone _ _ H1) in H2.
  - intros k1 k2 v1 v2 H1 H2 C1. by rw (Hnone _ _ H1) in C1.
  - by rw Hf1.
  - rw (total_insert _ _ _ _ Ht) /stores /=. lia.
  - intros k v [(<- & <- & _)|[_ Hk]]%list_lookup_insert_Some; [done|]. exact (b_loc0 _ _ Hk).
Qed.

Lemma thread_linv i s s' :
  i_inv n s → l_inv s → threadFunc_move true i s = Some s' → l_inv s'.
Proof.
  intros Hi Hl H. destruct s as [g l m ts mp o].
  rw /threadFunc_move /= in H. destruct (ts !! i) as [[pc j loc]|] eqn:E; [|done]. cbn in H.
  destruct (Forall_lookup_1 _ _ _ _ (a_thr _ _ Hi) E) as [Hj Hjn]. cbn in Hj, Hjn.
  destruct (Forall_lookup_1 _ _ _ _ (a_loc _ _ Hi) E) as [_ Hl2]. cbn in Hl2.
  destruct pc.
  - injection H as <-. apply (l_quiet _ _ _ _ _ _ _ _ _ Hl E); by destruct (j <? m).
  - destruct (lk_acquire i l) as [l'|] eqn:Ea; [|done]. injection H as <-.
    exact (l_acquire _ _ _ _ _ _ _ _ _ _ Hl E Ea).
  - injection H as <-. by apply (l_quiet _ _ _ _ _ _ _ _ _ Hl E).
  - injection H as <-. apply (l_quiet _ _ _ _ _ _ _ _ _ Hl E); try done. cbn.
    pose proof (room n ts i _ Hn (a_thr _ _ Hi) (created_len _ _ _ _ (proj1 (a_main _ _ Hi))) E
      ltac:(rw /stores /=; lia)) as Hroom.
    rw -/(to_int (loc + 1)) to_int_id; [rw /in_int /INT_MIN; lia|].
    pose proof (b_loc _ Hl _ _ E) as Eloc. cbn in Eloc. by rw Eloc.
  - injection H as <-. by apply (l_store g).
  - destruct (lk_release i l) as [l'|] eqn:Ea; [|done]. injection H as <-.
    exact (l_release _ _ _ _ _ _ _ _ _ _ Hl E Ea).
  - done.
Qed.

Lemma main_linv s s' : l_inv s → incr_main_move s = Some s' → l_inv s'.
Proof.
  intros Hl H. destruct s as [g l m ts mp o]. destruct mp as [k|k| |st]; cbn -[Nat.ltb] in H.
  - destruct (k <? 2)%nat; injection H as <-; destruct Hl; split; cbn in *; try done.
    + intros i t [Ht|[_ Ht]]%lookup_app_Some Hc; [eauto|].
      by destruct (i - length ts)%nat; simplify_eq/=.
    + intros i j t u [Ht|[_ Ht]]%lookup_app_Some [Hu|[_ Hu]]%lookup_app_Some Hc1 Hc2;
        [eauto|by destruct (j - length ts)%nat; simplify_eq/=|by destruct (i - length ts)%nat; simplify_eq/=..].
    + intros (i & t & Ht & Hc)%b_taken0. exists i, t. split; [by apply lookup_app_l_Some|done].
    + by rw total_new.
    + intros i t [Ht|[_ Ht]]%lookup_app_Some; [by apply (b_loc0 i)|].
      by destruct (i - length ts)%nat; simplify_eq/=.
  - destruct (k <? 2)%nat; [|by injection H as <-; destruct Hl; split].
    destruct (ts !! k) as [t|]; [|done]. cbn in H. case_decide; [|done].
    by injection H as <-; destruct Hl; split.
  - by injection H as <-; destruct Hl; split.
  - done.
Qed.

Lemma incr_reach_linv argv s :
  loops_of argv = Some n →
  incr_runs true argv s → i_inv n s ∧ l_inv s.
Proof.
  intros El. apply (rtc_ind_r (λ s, i_inv n s ∧ l_inv s)).
  - split; [apply (incr_reach_inv true n Hn Hmax argv _ El); constructor|]. rw /incr_start El.
    destruct lk_init_ok as [H1 H2]. split; cbn; try done. by rw H2.
  - intros s1 s2 _ [[i ? ? He Hs|? ? Hs]|[? He _]] [Hi Hl].
    + split; [eapply thread_inv; eassumption|eapply thread_linv; eassumption].
    + split; [eapply main_inv; eassumption|eapply main_linv; eassumption].
    + split; [by apply fails_inv|]. destruct Hl; by split.
Qed.
End lock.

Lemma loops_positive argv n : loops_of argv = Some n → 0 < n.
Proof.
  rw /loops_of. destruct argv as [|p [|a ?]]; try by intros [= <-].
  destruct (getInt _ _ _ _) as [[k| | | |] ?] eqn:E; try done. intros [= <-].
  rw /getInt in E. destruct (getNum_total (cs "getInt") GN_GT_0 (Some (cs "num-loops")) (Some a) [])
    as [[v Hv]|(e & He & _)]; [|by rw /mbind /M_bind He in E].
  apply getNum_returns in Hv as Hv'. destruct Hv' as (_ & [_ Hpos] & _).
  rw (bind_Ret _ _ _ _ _ Hv) in E. case_match eqn:Er; [|injection E as <- _].
  - destruct (@gnFail_exits Z (cs "getInt") (cs "integer out of range") (Some a) (Some (cs "num-loops")) [])
      as (? & Hf & _). by rw Hf in E.
  - rw to_int_id; [|by apply Hpos]. apply orb_false_iff in Er. rw /in_int. lia.
Qed.

(** ** What the programs print *)

Definition glob_line (g : Z) : cstring := cs "glob = " ++ fmt_d g ++ [NL].

Lemma all_stored n ts :
  Forall (ithr_ok n) ts → Forall (λ t, it_pc t = IDone) ts →
  Forall (λ t, stores t = n) ts ∧ total ts = n * Z.of_nat (length ts).
Proof.
  induction 1 as [|t ts [_ Ht] _ IH]; [split; [done|rw /total /=; lia]|]. intros [Hd Hds]%Forall_cons.
  destruct (IH Hds) as [H1 H2]. rw Hd in Ht. assert (stores t = n) as E by (rw /stores Hd; lia).
  split; [by constructor|]. rw /total in H2 |- *. csimpl. lia.
Qed.

Lemma lock_prints {L} `{!Lock L, !LockOk L} argv n (s : istate L) :
  loops_of argv = Some n → 2 * n ≤ INT_MAX → incr_runs true argv s →
  i_main s = IExit EXIT_SUCCESS → i_out s = glob_line (2 * n).
Proof.
  intros El Hmax Hr E. pose proof (loops_positive _ _ El) as Hn.
  destruct (incr_reach_linv n Hn Hmax argv s El Hr) as [[] []]. rw E /= in a_main0.
  destruct a_main0 as [[_ H] _]. destruct (H eq_refl) as (Hl & Hd & ->).
  destruct (all_stored n _ a_thr0 Hd) as [_ Ht]. rw b_glob0 Ht Hl. by replace (n * Z.of_nat 2) with (2 * n) by lia.
Qed.

(** C20: With a mutex, a read-write lock, a spin lock or a semaphore no increment is lost:
    in every interleaving, a program that ends successfully prints exactly twice
    the number of loops. *)
Theorem incr_lock_exact argv n :
  loops_of argv = Some n → 2 * n ≤ INT_MAX →
  (∀ s, thread_incr_mutex argv s → i_main s = IExit EXIT_SUCCESS → i_out s = glob_line (2 * n)) ∧
  (∀ s, thread_incr_rwlock argv s → i_main s = IExit EXIT_SUCCESS → i_out s = glob_line (2 * n)) ∧
  (∀ s, thread_incr_spinlock argv s → i_main s = IExit EXIT_SUCCESS → i_out s = glob_line (2 * n)) ∧
  (∀ s, thread_incr_psem argv s → i_main s = IExit EXIT_SUCCESS → i_out s = glob_line (2 * n)).
Proof. intros El Hm. split_and!; intros s; by apply lock_prints. Qed.

(** Without a lock increments are lost, but not all: in every interleaving the program
    that ends successfully prints at least 2 (or 1, for a single loop) and at
    most twice the number of loops. *)
Lemma incr_race_bounds argv n s :
  loops_of argv = Some n → 2 * n ≤ INT_MAX → thread_incr argv s → i_main s = IExit EXIT_SUCCESS →
  ∃ g, i_out s = glob_line g ∧ Z.min n 2 ≤ g ≤ 2 * n.
Proof.
  intros El Hmax Hr E. pose proof (loops_positive _ _ El) as Hn.
  destruct (incr_reach_inv false n Hn Hmax argv s El Hr). rw E /= in a_main0.
  destruct a_main0 as [[_ H] _]. destruct (H eq_refl) as (Hl & Hd & ->).
  destruct (all_stored n _ a_thr0 Hd) as [Hs Ht]. exists (glob s). split; [done|].
  split; [by apply a_all0|]. rw Ht Hl in a_glob0. lia.
Qed.

(** ** The programs end *)

Definition ithr_rank (n : Z) (t : ithr) : Z :=
  7 * (n - it_j t) +
  match it_pc t with
  | ITop => 1 | ILock => 0 | ILoad => -1 | IAdd => -2 | IStore => -3 | IUnlock => -4 | IDone => 0
  end.

Definition imain_rank (n : Z) (mp : impc) : Z :=
  match mp with
  | ICreate k => 5 + (2 - Z.of_nat k) * (7 * n + 2)
  | IJoin k => 4 - Z.of_nat k
  | IPrint => 1
  | IExit _ => 0
  end.

Definition i_rank {L} (s : istate L) : Z :=
  sumZ (ithr_rank (i_loops s) <$> i_thr s) + imain_rank (i_loops s) (i_main s).

Section live.
Context {L : Type} `{!Lock L, !LockOk L} (n : Z) (Hn : 0 < n) (Hmax : 2 * n ≤ INT_MAX).
Implicit Types s : istate L.

Lemma i_rank_nonneg s : i_inv n s → 0 ≤ i_rank s.
Proof.
  intros []. rw /i_rank a_loops0.
  assert (0 ≤ sumZ (ithr_rank n <$> i_thr s)).
  { clear -a_thr0. induction a_thr0 as [|t ts [Hj Ht] _ IH]; csimpl; [done|].
    assert (0 ≤ ithr_rank n t); [|lia]. rw /ithr_rank. destruct (it_pc t); lia. }
  destruct a_main0 as [Hc _]. destruct (i_main s); cbn in Hc |- *; try lia. nia.
Qed.

Lemma thread_rank locked i s s' :
  i_inv n s → threadFunc_move locked i s = Some s' → i_rank s' < i_rank s.
Proof.
  intros Hi H. destruct s as [g l m ts mp o]. rw /threadFunc_move /= in H.
  destruct (ts !! i) as [[pc j loc]|] eqn:E; [|done]. cbn in H.
  destruct (Forall_lookup_1 _ _ _ _ (a_thr _ _ Hi) E) as [Hj Hjn]. cbn in Hj, Hjn.
  pose proof (a_loops _ _ Hi) as El. cbn in El. subst m.
  assert (∀ g' (l' : L) u, ithr_rank n u < ithr_rank n (IThr pc j loc) →
    i_rank (IState g' l' n (<[i := u]> ts) mp o) < i_rank (IState g l n ts mp o)) as Hr.
  { intros g' l' u Hu. rw /i_rank /= (sumZ_insert _ _ _ _ _ E). lia. }
  destruct pc; [|destruct (lk_acquire i l); [|done]| | | |destruct (lk_release i l); [|done]|done];
    injection H as <-; apply Hr; rw /ithr_rank /=; try lia.
  - destruct (Z.ltb_spec j n), locked; cbn; lia.
  - destruct locked; cbn; lia.
Qed.

Lemma main_rank s s' : i_inv n s → incr_main_move s = Some s' → i_rank s' < i_rank s.
Proof.
  intros Hi H. destruct s as [g l m ts mp o]. pose proof (a_loops _ _ Hi) as El. cbn in El. subst m.
  destruct (a_main _ _ Hi) as [Hc _]. rw /i_rank.
  destruct mp as [k|k| |st]; cbn -[Nat.ltb] in H, Hc; try done.
  - destruct (Nat.ltb_spec k 2); injection H as <-; cbn [i_loops i_thr i_main imain_rank].
    + rw fmap_app sumZ_app. csimpl. assert (ithr_rank n (IThr ITop 0 0) = 7 * n + 1) as ->
        by (rw /ithr_rank /=; lia). nia.
    + nia.
  - destruct (Nat.ltb_spec k 2).
    + destruct (ts !! k) as [t|]; [|done]. cbn in H. case_decide; [|done].
      injection H as <-. cbn [i_loops i_thr i_main imain_rank]. lia.
    + injection H as <-. cbn [i_loops i_thr i_main imain_rank]. lia.
  - injection H as <-. cbn [i_loops i_thr i_main imain_rank]. lia.
Qed.

(** A thread inside the lock can move, and so can one that finds it free. *)
Lemma thread_works s i t :
  i_inv n s → l_inv s → i_exited s = false → i_thr s !! i = Some t → it_pc t ≠ IDone →
  (it_pc t = ILock → lk_free (i_lock s) = true) → ∃ s', iworks true s s'.
Proof.
  intros Hi Hl He Ht Hd Hf. destruct s as [g l m ts mp o]. destruct t as [pc j loc]. cbn in *.
  destruct pc; try done; try solve [eexists; (eapply (iwork_thread true i); [done|]); by rw /= Ht].
  - destruct (lk_acquire_free i l (b_lock _ Hl) (Hf eq_refl)) as [l' Hl'].
    eexists; (eapply (iwork_thread true i); [done|]); by rw /= Ht /= Hl'.
  - destruct (b_crit _ Hl _ _ Ht eq_refl) as [Hh Hfr]. cbn in Hh, Hfr.
    destruct (lk_release_ok i l (b_lock _ Hl) Hfr Hh) as (l' & Hl' & _).
    eexists; (eapply (iwork_thread true i); [done|]); by rw /= Ht /= Hl'.
Qed.

Lemma i_can_move s : i_inv n s → l_inv s → i_exited s = false → ∃ s', iworks true s s'.
Proof.
  intros Hi Hl He.
  destruct (decide (Exists (λ t, it_pc t ≠ IDone) (i_thr s))) as [H|H].
  - apply Exists_exists in H as (t & [i Ht]%list_elem_of_lookup & Hd).
    destruct (lk_free (i_lock s)) eqn:Ef; [by apply (thread_works s i t)|].
    destruct (b_taken _ Hl Ef) as (k & u & Hu & Hc).
    apply (thread_works s k u); try done; intros E; by rw /critical E in Hc.
  - apply not_Exists_Forall in H; [|intros ?; apply _].
    assert (∀ k t, i_thr s !! k = Some t → it_pc t = IDone) as Hd.
    { intros k t Ht. by apply (Forall_lookup_1 _ _ _ _ H), dec_stable in Ht. }
    destruct (a_main _ _ Hi) as [Hc _]. destruct s as [g l m ts mp o].
    destruct mp as [k|k| |st]; cbn -[Nat.ltb] in *; try done.
    + destruct (k <? 2)%nat eqn:Ek; eexists; eapply iwork_main; by rw /incr_main_move Ek.
    + destruct (k <? 2)%nat eqn:Ek; [|eexists; eapply iwork_main; by rw /incr_main_move Ek].
      apply Nat.ltb_lt in Ek as Hk. destruct (lookup_lt_is_Some_2 ts k) as [t Ht]; [lia|].
      eexists. eapply iwork_main. by rw /incr_main_move Ek Ht /= decide_True; [apply (Hd k)|].
    + eexists. by eapply iwork_main.
Qed.
End live.

(** Over any lock that keeps its promise the program ends: until the process has ended
    some thread can move, and every move decreases a bound. *)
Lemma incr_lock_ends {L} `{!Lock L, !LockOk L} argv n (s : istate L) :
  loops_of argv = Some n → 2 * n ≤ INT_MAX → incr_runs true argv s →
  (i_exited s = true ∨ ∃ s', iworks true s s') ∧
  (∀ s', iworks true s s' → 0 ≤ i_rank s' < i_rank s).
Proof.
  intros El Hmax Hr. pose proof (loops_positive _ _ El) as Hn.
  destruct (incr_reach_linv n Hn Hmax argv s El Hr) as [Hi Hl]. split.
  - destruct (i_exited s) eqn:E; [by left|right]. by apply (i_can_move n).
  - intros s' Hs. assert (incr_runs true argv s') as Hr'.
    { eapply rtc_r; [exact Hr|]. by left. }
    split; [by apply (i_rank_nonneg n), (incr_reach_linv n Hn Hmax argv)|].
    destruct Hs as [i s s' He Hs|s s' Hs]; [eapply thread_rank|eapply main_rank]; eassumption.
Qed.

(** ** Runs *)

Definition i_run_move {L} `{!Lock L} (locked : bool) (m : option nat) (s : istate L) : option (istate L) :=
  match m with None => incr_main_move s | Some i => threadFunc_move locked i s end.

Fixpoint i_run {L} `{!Lock L} (locked : bool) (l : list (option nat)) (s : istate L) : option (istate L) :=
  match l with
  | [] => Some s
  | m :: l => if i_exited s then None else s' ← i_run_move locked m s ; i_run locked l s'
  end.

Lemma i_run_rtc {L} `{!Lock L} locked l (s s' : istate L) :
  i_run locked l s = Some s' → rtc (imoves locked) s s'.
Proof.
  elim: l s => [|m l IH] s /=; [intros [= ->]; constructor|].
  destruct (i_exited s) eqn:E; [done|]. destruct (i_run_move locked m s) as [s1|] eqn:E1; [|done].
  intros H. apply IH in H. eapply rtc_l; [|exact H]. left.
  destruct m; [eapply iwork_thread|eapply iwork_main]; eassumption.
Qed.

Definition incr_argv : list cstring := [cs "thread_incr"; cs "3"].

(** Both threads load 0; the first stores all its increments but one, the
    second stores its first, the first loads it, the second ends, and the first
    stores last. *)
Definition race_schedule : list (option nat) :=
  replicate 3 None ++ replicate 2 (Some 1%nat) ++ replicate 8 (Some 0%nat) ++ replicate 2 (Some 1%nat) ++
  replicate 2 (Some 0%nat) ++ replicate 9 (Some 1%nat) ++ replicate 3 (Some 0%nat) ++ replicate 4 None.
Definition race_end : istate mutex :=
  default (incr_start []) (i_run false race_schedule (incr_start incr_argv)).

Definition mutex_schedule : list (option nat) :=
  replicate 3 None ++ replicate 19 (Some 1%nat) ++ replicate 19 (Some 0%nat) ++ replicate 4 None.
Definition mutex_end : istate mutex :=
  default (incr_start []) (i_run true mutex_schedule (incr_start incr_argv)).

Lemma race_end_reached : thread_incr incr_argv race_end.
Proof. apply (i_run_rtc false race_schedule). by vm_compute. Qed.
Lemma mutex_end_reached : thread_incr_mutex incr_argv mutex_end.
Proof. apply (i_run_rtc true mutex_schedule). by vm_compute. Qed.

(** The lower bound is reached: three loops each, and 2 is printed. *)
Lemma incr_race_bounds_witness :
  i_out race_end = glob_line 2 ∧ ∃ g, i_out race_end = glob_line g ∧ 2 ≤ g ≤ 6.
Proof.
  split; [by vm_compute|].
  apply (incr_race_bounds incr_argv 3 race_end); [by vm_compute|done|exact race_end_reached|by vm_compute].
Defined.

Lemma incr_lock_exact_witness : i_out mutex_end = glob_line 6.
Proof.
  destruct (incr_lock_exact incr_argv 3) as [H _]; [by vm_compute|done|].
  apply (H mutex_end); [exact mutex_end_reached|by vm_compute].
Defined.

Lemma incr_lock_ends_witness :
  i_exited (incr_start (L := semaphore) incr_argv) = true ∨
  ∃ s', iworks true (incr_start (L := semaphore) incr_argv) s'.
Proof.
  apply (incr_lock_ends (L := semaphore) incr_argv 3 (incr_start incr_argv));
    [by vm_compute|done|constructor].
Defined.
