(* ===== verification/Append.v ===== *)
(** * Processes that append to one file: [fileio/atomic_append.c]

    Several processes run the program on the same file at once.  Each has its
    own descriptor with its own offset; one step is one system call of one
    process, which may also fail and end that process.  With O_APPEND a write
    goes to the end of the file in one step; with the extra argument the
    program seeks to the end and writes in two. *)

From S2P Require Import Prelude CStdlib ErrFns GetNum Tlpi Threads FileIO.

(** A process is before its [open], at the test of its loop, before [lseek],
    before [write], or has ended. *)
Inductive apc := AOpen | ATop | ASeek | AWrite | AExit (status : Z).
#[export] Instance apc_eq_dec : EqDecision apc.
Proof. solve_decision. Defined.

Record aproc := AProc {
  ap_pc : apc; useLseek : bool; numBytes : Z; ap_j : Z; ap_off : nat }.

Record afile := AFile { af_content : option (list ascii); af_procs : list aproc }.

(** The content of a file that may not exist yet. *)
Definition text (f : afile) : list ascii := default [] (af_content f).

(** [argc > 3] asks for lseek; the number is read by getInt. *)
Definition append_proc (argv : list cstring) : aproc :=
  match argv with
  | _ :: file :: num :: extra =>
      if bool_decide (file = cs "--help") then AProc (AExit EXIT_FAILURE) false 0 0 0 else
      match getInt (Some num) 0 (Some (cs "num-bytes")) [] with
      | (Ret n, _) => AProc AOpen (negb (bool_decide (extra = []))) n 0 0
      | _ => AProc (AExit EXIT_FAILURE) false 0 0 0
      end
  | _ => AProc (AExit EXIT_FAILURE) false 0 0 0
  end.

Definition append_move (i : nat) (f : afile) : option afile :=
  let '(AFile c ps) := f in
  p ← ps !! i;
  let '(AProc pc useL n j off) := p in
  let put c pc j off := Some (AFile c (<[i := AProc pc useL n j off]> ps)) in
  match pc with
  | AOpen => put (Some (default [] c)) ATop 0 0%nat
  | ATop =>
      if j <? n then put c (if useL then ASeek else AWrite) j off
      else put c (AExit EXIT_SUCCESS) j off
  | ASeek => d ← c ; put c AWrite j (length d)
  | AWrite =>
      d ← c ;
      let at_ := if useL then off else length d in
      put (Some (write_at d at_ (cs "x"))) ATop (j + 1) (at_ + 1)%nat
  | AExit _ => None
  end.

(** A call that fails: errExit, or fatal where [write] did not write. *)
Definition append_fail (i : nat) (f : afile) : option afile :=
  let '(AFile c ps) := f in
  p ← ps !! i;
  let '(AProc pc useL n j off) := p in
  match pc with
  | AOpen | ASeek | AWrite => Some (AFile c (<[i := AProc (AExit EXIT_FAILURE) useL n j off]> ps))
  | _ => None
  end.

Inductive astep : afile → afile → Prop :=
  | astep_move i f f' : append_move i f = Some f' → astep f f'
  | astep_fail i f f' : append_fail i f = Some f' → astep f f'.

(** ** The invariant *)

Definition xs (m : nat) : list ascii := replicate m "x"%char.

(** [base] is the file at the start; [m] characters have been added. *)
Definition aproc_ok (base m : nat) (p : aproc) : Prop :=
  0 ≤ ap_j p ≤ Z.max 0 (numBytes p) ∧ ap_j p ≤ Z.of_nat m ∧
  match ap_pc p with
  | AOpen => ap_j p = 0
  | ATop => True
  | ASeek => ap_j p < numBytes p
  | AWrite => ap_j p < numBytes p ∧
      (useLseek p = true → Z.of_nat base + ap_j p ≤ Z.of_nat (ap_off p) ≤ Z.of_nat base + Z.of_nat m)
  | AExit status => status = EXIT_SUCCESS → ap_j p = Z.max 0 (numBytes p)
  end.

Definition opened_by (p : aproc) : bool :=
  match ap_pc p with AOpen | AExit _ => false | _ => true end.

Record a_inv (base : list ascii) (m : nat) (f : afile) : Prop := {
  c_text : text f = base ++ xs m;
  c_open i p : af_procs f !! i = Some p → opened_by p = true → is_Some (af_content f);
  c_procs : Forall (aproc_ok (length base) m) (af_procs f);
  c_upper : Z.of_nat m ≤ sumZ (ap_j <$> af_procs f);
  c_append : Forall (λ p, useLseek p = false) (af_procs f) → Z.of_nat m = sumZ (ap_j <$> af_procs f);
}.

Lemma aproc_ok_mono base m m' p : (m ≤ m')%nat → aproc_ok base m p → aproc_ok base m' p.
Proof.
  intros Hm (H1 & H2 & H3). split_and!; [lia..|]. destruct (ap_pc p); try done.
  destruct H3 as [H3 H4]. split; [done|]. intros E. specialize (H4 E). lia.
Qed.

(** A write inside or at the end of what has been added. *)
Lemma write_xs base m k :
  (k ≤ m)%nat → write_at (base ++ xs m) (length base + k) (cs "x") = base ++ xs (Nat.max m (k + 1)).
Proof.
  intros Hk. rw /write_at /=. rw length_app /xs length_replicate.
  replace (length base + k - (length base + m))%nat with O by lia. cbn.
  rw take_app drop_app take_ge; [lia|]. rw (drop_ge base); [lia|]. cbn.
  replace (length base + k - length base)%nat with k by lia.
  replace (length base + k + 1 - length base)%nat with (k + 1)%nat by lia.
  rw take_replicate drop_replicate -app_assoc. f_equal.
  replace (Nat.min k m) with k by lia. 
  change ("x"%char :: replicate (m - (k + 1)) "x"%char) with (replicate (S (m - (k + 1))) "x"%char).
  rw -replicate_add. f_equal. lia.
Qed.

Section preserve.
Context (base : list ascii).
Implicit Types (f : afile) (ps : list aproc).

(** One process changes and [m'] characters have been added in all. *)
Lemma a_set c c' ps m m' i p q :
  a_inv base m (AFile c ps) → ps !! i = Some p → default [] c' = base ++ xs m' →
  (is_Some c → is_Some c') → (opened_by q = true → is_Some c') → (m ≤ m')%nat →
  aproc_ok (length base) m' q → useLseek q = useLseek p →
  Z.of_nat m' - Z.of_nat m ≤ ap_j q - ap_j p →
  (useLseek p = false → Z.of_nat m' - Z.of_nat m = ap_j q - ap_j p) →
  a_inv base m' (AFile c' (<[i := q]> ps)).
Proof.
  intros [] Hi Hc Hs Hs' Hm Hq Hu Hj Hja. cbn in *. split; cbn.
  - done.
  - intros k r [(<- & <- & _)|[_ Hk]]%list_lookup_insert_Some Ho; [by apply Hs'|]. eauto.
  - apply Forall_insert; [|done]. eapply Forall_impl; [exact c_procs0|].
    intros r. by apply aproc_ok_mono.
  - rw (sumZ_insert _ _ _ _ _ Hi). lia.
  - intros Hall. rw (sumZ_insert _ _ _ _ _ Hi).
    assert (useLseek q = false) as Eq.
    { apply (Forall_lookup_1 _ _ i q Hall). apply list_lookup_insert_eq. exact (lookup_lt_Some _ _ _ Hi). }
    rw Hu in Eq. rw -c_append0; [|specialize (Hja Eq); lia].
    rw -(list_insert_id _ _ _ Hi) -(list_insert_insert_eq ps i p q). by apply Forall_insert.
Qed.

Lemma append_move_inv i m f f' :
  a_inv base m f → append_move i f = Some f' → ∃ m', a_inv base m' f'.
Proof.
  intros Ha H. destruct f as [c ps]. rw /append_move in H.
  destruct (ps !! i) as [[pc useL n j off]|] eqn:E; [|done]. cbn in H.
  destruct (Forall_lookup_1 _ _ _ _ (c_procs _ _ _ Ha) E) as (Hj & Hjm & Hp). cbn in Hj, Hjm, Hp.
  pose proof (c_text _ _ _ Ha) as Ht. rw /text /= in Ht.
  pose proof (c_open _ _ _ Ha _ _ E) as Ho. cbn in Ho.
  destruct pc as [| | | |st].
  - injection H as <-. exists m. apply (a_set c _ ps m m i _ _ Ha E); cbn; try done; try lia; eauto.
    split_and!; cbn; lia.
  - exists m. destruct (Z.ltb_spec j n); injection H as <-;
      apply (a_set c _ ps m m i _ _ Ha E); cbn; try done; try lia; eauto;
      [destruct useL; split_and!; cbn; lia || by split|split_and!; cbn; lia].
  - destruct c as [d|]; [|done]. cbn in H. injection H as <-. exists m. cbn in Ht. subst d.
    apply (a_set _ _ ps m m i _ _ Ha E); cbn; try done; try lia; eauto.
    assert (length (base ++ xs m) = length base + m)%nat as Hlen by rw length_app /xs length_replicate //.
    split_and!; cbn; lia.
  - destruct c as [d|]; [|done]. cbn in H. injection H as <-. cbn in Ht. subst d.
    destruct Hp as [Hlt Hoff].
    set (k := if useL then (off - length base)%nat else m).
    assert (k ≤ m ∧ (if useL then off else length (base ++ xs m)) = length base + k)%nat as [Hk Eat].
    { rw /k. destruct useL; [specialize (Hoff eq_refl); lia|]. rw length_app /xs length_replicate. lia. }
    rw Eat write_xs //. exists (Nat.max m (k + 1)).
    assert (j ≤ Z.of_nat k) as Hjk by (rw /k; destruct useL; [specialize (Hoff eq_refl)|]; lia).
    apply (a_set _ _ ps m _ i _ _ Ha E); cbn; try done; try lia; eauto.
    + split_and!; cbn; lia.
    + intros ->. rw /k. lia.
  - done.
Qed.

Lemma append_fail_inv i m f f' :
  a_inv base m f → append_fail i f = Some f' → a_inv base m f'.
Proof.
  intros Ha H. destruct f as [c ps]. rw /append_fail in H.
  destruct (ps !! i) as [[pc useL n j off]|] eqn:E; [|done]. cbn in H.
  destruct (Forall_lookup_1 _ _ _ _ (c_procs _ _ _ Ha) E) as (Hj & Hjm & _). cbn in Hj, Hjm.
  pose proof (c_text _ _ _ Ha) as Ht.
  destruct pc; try done; injection H as <-;
    apply (a_set c _ ps m m i _ _ Ha E); cbn; try done; try lia; (split_and!; cbn; [lia..|done]).
Qed.
End preserve.

(** The processes of the command lines [argvs], on a file with content [c]. *)
Definition append_start (c : option (list ascii)) (argvs : list (list cstring)) : afile :=
  AFile c (append_proc <$> argvs).

Lemma append_reach_inv c argvs f :
  rtc astep (append_start c argvs) f → ∃ m, a_inv (default [] c) m f.
Proof.
  apply (rtc_ind_r (λ f, ∃ m, a_inv (default [] c) m f)).
  - exists O.
    assert (∀ argv, (ap_pc (append_proc argv) = AOpen ∨ ap_pc (append_proc argv) = AExit EXIT_FAILURE) ∧
              ap_j (append_proc argv) = 0) as Hnew.
    { intros argv. rw /append_proc. repeat case_match; cbn; auto. }
    assert (sumZ (ap_j <$> (append_proc <$> argvs)) = 0) as Hsum.
    { elim: argvs => [//|a l IH]. csimpl. rw IH. by rw (proj2 (Hnew a)). }
    split; cbn; rw ?Hsum; try done.
    + by rw app_nil_r.
    + intros i p. rw list_lookup_fmap. destruct (argvs !! i) as [a|]; [|done]. intros [= <-].
      rw /opened_by. by destruct (Hnew a) as [[->| ->] _].
    + apply Forall_fmap, Forall_true. intros a. destruct (Hnew a) as [[E|E] Ej]; rw /= /aproc_ok E Ej;
        split_and!; try done; lia.
  - intros f1 f2 _ [i ? ? Hs|i ? ? Hs] [m Ha]; [exact (append_move_inv _ _ _ _ _ Ha Hs)|].
    exists m. exact (append_fail_inv _ _ _ _ _ Ha Hs).
Qed.

(** C22: In every interleaving of any number of processes, some using O_APPEND and some lseek,
    with calls that may fail: what was in the file stays, followed by [m] copies
    of the character, where [m] is at least what each single process has written
    and at most what they have written together; when all use O_APPEND nothing
    is lost; and a process that ends successfully has written all its bytes. *)
Theorem append_outcome c argvs f :
  rtc astep (append_start c argvs) f →
  ∃ m, text f = default [] c ++ xs m ∧
    (∀ i p, af_procs f !! i = Some p → ap_j p ≤ Z.of_nat m) ∧
    Z.of_nat m ≤ sumZ (ap_j <$> af_procs f) ∧
    (Forall (λ p, useLseek p = false) (af_procs f) → Z.of_nat m = sumZ (ap_j <$> af_procs f)) ∧
    (∀ i p, af_procs f !! i = Some p → ap_pc p = AExit EXIT_SUCCESS → ap_j p = Z.max 0 (numBytes p)).
Proof.
  intros [m []]%append_reach_inv. exists m. split_and!; try done.
  - intros i p Hi. by apply (Forall_lookup_1 _ _ _ _ c_procs0 Hi).
  - intros i p Hi E. destruct (Forall_lookup_1 _ _ _ _ c_procs0 Hi) as (_ & _ & H). rw E in H. by apply H.
Qed.

(** ** Runs *)

Fixpoint a_run (l : list nat) (f : afile) : option afile :=
  match l with
  | [] => Some f
  | i :: l => f' ← append_move i f ; a_run l f'
  end.

Lemma a_run_rtc l f f' : a_run l f = Some f' → rtc astep f f'.
Proof.
  elim: l f => [|i l IH] f /=; [intros [= ->]; constructor|].
  destruct (append_move i f) as [f1|] eqn:E; [|done]. intros H.
  eapply rtc_l; [exact (astep_move _ _ _ E)|]. by apply IH.
Qed.

(** Two processes that each write two bytes, step by step in turn. *)
Definition append_argv (extra : list cstring) : list cstring := [cs "atomic_append"; cs "f"; cs "2"] ++ extra.
Definition turns (n : nat) : list nat := concat (replicate n [0; 1]%nat).
Definition append_end : afile :=
  default (append_start None []) (a_run (turns 6) (append_start None [append_argv []; append_argv []])).
Definition lseek_end : afile :=
  default (append_start None [])
    (a_run (turns 8) (append_start None [append_argv [cs "x"]; append_argv [cs "x"]])).

Lemma append_end_reached : rtc astep (append_start None [append_argv []; append_argv []]) append_end.
Proof. apply (a_run_rtc (turns 6)). by vm_compute. Qed.

(** O_APPEND keeps all four bytes. *)
Lemma append_outcome_witness :
  (ap_pc <$> af_procs append_end) = replicate 2 (AExit EXIT_SUCCESS) ∧ text append_end = xs 4.
Proof.
  split; [by vm_compute|].
  destruct (append_outcome None [append_argv []; append_argv []] append_end append_end_reached)
    as (m & -> & _ & _ & H & _).
  assert (Z.of_nat m = 4) as E; [|by replace m with 4%nat by lia].
  rw H; [by vm_compute; repeat constructor|by vm_compute].
Defined.

(** The same turns with lseek lose two. *)
Lemma lseek_loses :
  rtc astep (append_start None [append_argv [cs "x"]; append_argv [cs "x"]]) lseek_end ∧
  (ap_pc <$> af_procs lseek_end) = replicate 2 (AExit EXIT_SUCCESS) ∧ text lseek_end = xs 2.
Proof. split; [apply (a_run_rtc (turns 8)); by vm_compute|]. by vm_compute. Qed.
