(* ===== verification/Cmsg.v ===== *)
(** * Ancillary data of sockets

    The control buffer of [struct msghdr] as bytes, with the macros of
    <sys/socket.h> that the programs walk it with, on a 64-bit machine: a
    header of a size_t and two ints, and blocks aligned to 8 bytes. *)

From S2P Require Import Prelude.

Definition SOL_SOCKET : Z := 1.
Definition SCM_RIGHTS : Z := 1.
Definition SCM_CREDENTIALS : Z := 2.

Definition CMSG_ALIGN (n : nat) : nat := (n + 7) / 8 * 8.
Definition CMSG_HDR : nat := 16.
Definition CMSG_SPACE (n : nat) : nat := CMSG_ALIGN n + CMSG_HDR.
Definition CMSG_LEN (n : nat) : nat := CMSG_HDR + n.

(** A size_t in memory. *)
Definition le64 (b : list ascii) : Z := le32 b + 2 ^ 32 * le32 (drop 4 b).
Definition put_le64 (z : Z) : list ascii := put_le32 (z mod 2 ^ 32) ++ put_le32 (z / 2 ^ 32).

(** The fields of the header at offset [p]. *)
Definition cmsg_len (buf : list ascii) (p : nat) : Z := le64 (drop p buf).
Definition cmsg_level (buf : list ascii) (p : nat) : Z := to_int (le32 (drop (p + 8) buf)).
Definition cmsg_type (buf : list ascii) (p : nat) : Z := to_int (le32 (drop (p + 12) buf)).
Definition CMSG_DATA (p : nat) : nat := p + CMSG_HDR.

(** [None] is the null pointer.  [msg_controllen] is the length of [buf]. *)
Definition CMSG_FIRSTHDR (buf : list ascii) : option nat :=
  if (CMSG_HDR <=? length buf)%nat then Some O else None.

(** The next header must lie in the buffer, with the length it states. *)
Definition CMSG_NXTHDR (buf : list ascii) (p : nat) : option nat :=
  let len := cmsg_len buf p in
  if len <? Z.of_nat CMSG_HDR then None else
  let q := Z.of_nat p + (len + 7) / 8 * 8 in
  if (Z.of_nat (length buf) <? q + Z.of_nat CMSG_HDR) ||
     (Z.of_nat (length buf) <? q + (cmsg_len buf (Z.to_nat q) + 7) / 8 * 8)
  then None else Some (Z.to_nat q).

(** ** What a buffer says *)

Record cmsg := Cmsg { c_level : Z; c_type : Z; c_data : list ascii }.

#[export] Instance cmsg_eq_dec : EqDecision cmsg.
Proof. solve_decision. Defined.

(** One message as it stands in a buffer, padded. *)
Definition encode_cmsg (m : cmsg) : list ascii :=
  put_le64 (Z.of_nat (CMSG_LEN (length (c_data m)))) ++
  put_le32 (wrapU 32 (c_level m)) ++ put_le32 (wrapU 32 (c_type m)) ++ c_data m ++
  replicate (CMSG_ALIGN (length (c_data m)) - length (c_data m)) NUL.

Definition encode_cmsgs (ms : list cmsg) : list ascii := ms ≫= encode_cmsg.

(** The message at offset [p]. *)
Definition cmsg_at (buf : list ascii) (p : nat) : cmsg :=
  Cmsg (cmsg_level buf p) (cmsg_type buf p)
    (take (Z.to_nat (cmsg_len buf p) - CMSG_HDR) (drop (CMSG_DATA p) buf)).

(** The messages from offset [p] on, as CMSG_NXTHDR visits them. *)
Fixpoint cmsgs_from (fuel : nat) (buf : list ascii) (p : option nat) : list cmsg :=
  match fuel, p with
  | S fuel, Some p => cmsg_at buf p :: cmsgs_from fuel buf (CMSG_NXTHDR buf p)
  | _, _ => []
  end.
Definition cmsgs (buf : list ascii) : list cmsg := cmsgs_from (length buf) buf (CMSG_FIRSTHDR buf).

Definition cmsg_wf (m : cmsg) : Prop :=
  in_int (c_level m) ∧ in_int (c_type m) ∧ Z.of_nat (CMSG_LEN (length (c_data m))) < 2 ^ 32.

(** ** Lemmas *)

Lemma CMSG_ALIGN_bounds n : (n ≤ CMSG_ALIGN n < n + 8)%nat ∧ (CMSG_ALIGN n `mod` 8 = 0)%nat.
Proof.
  rw /CMSG_ALIGN. pose proof (Nat.div_mod_eq (n + 7) 8). pose proof (Nat.mod_upper_bound (n + 7) 8).
  split; [lia|]. apply Nat.Div0.mod_mul.
Qed.

Lemma CMSG_ALIGN_HDR n : CMSG_ALIGN (CMSG_LEN n) = (CMSG_HDR + CMSG_ALIGN n)%nat.
Proof.
  rw /CMSG_ALIGN /CMSG_LEN /CMSG_HDR. replace (16 + n + 7)%nat with (n + 7 + 2 * 8)%nat by lia.
  rw Nat.div_add //. lia.
Qed.

(** The alignment of a length read from memory. *)
Lemma align_Z n : (Z.of_nat n + 7) / 8 * 8 = Z.of_nat (CMSG_ALIGN n).
Proof. rw /CMSG_ALIGN. rw Nat2Z.inj_mul Nat2Z.inj_div Nat2Z.inj_add. done. Qed.

Lemma length_put_le64 z : length (put_le64 z) = 8%nat.
Proof. done. Qed.

Lemma le64_put z r : 0 ≤ z < 2 ^ 64 → le64 (put_le64 z ++ r) = z.
Proof.
  intros Hz. rw /le64 /put_le64 -app_assoc le32_put; [apply Z.mod_pos_bound; lia|].
  rw (drop_app_length' (put_le32 _)) // le32_put.
  - split; [apply Z.div_pos; lia|]. apply Z.div_lt_upper_bound; lia.
  - pose proof (Z.div_mod z (2 ^ 32)). lia.
Qed.

Lemma encode_cmsgs_cons m ms : encode_cmsgs (m :: ms) = encode_cmsg m ++ encode_cmsgs ms.
Proof. done. Qed.

Lemma length_encode m : length (encode_cmsg m) = CMSG_SPACE (length (c_data m)).
Proof.
  rw /encode_cmsg !length_app length_replicate /CMSG_SPACE /CMSG_HDR.
  pose proof (CMSG_ALIGN_bounds (length (c_data m))). cbn [length put_le32 put_le64 app]. lia.
Qed.

(** The header at the start of what follows [pre]. *)
Section at_offset.
Context (pre : list ascii) (m : cmsg) (post : list ascii) (Hwf : cmsg_wf m).
Abbreviation buf := (pre ++ encode_cmsg m ++ post).
Abbreviation p := (length pre).

Lemma at_len : cmsg_len buf p = Z.of_nat (CMSG_LEN (length (c_data m))).
Proof.
  destruct Hwf as (_ & _ & H). rw /cmsg_len drop_app_length /encode_cmsg -app_assoc le64_put //. lia.
Qed.

Lemma at_level : cmsg_level buf p = c_level m.
Proof.
  destruct Hwf as (H & _ & _). rw /cmsg_level -drop_drop drop_app_length /encode_cmsg -app_assoc.
  rw (drop_app_length' (put_le64 _)) // -app_assoc le32_put; [apply wrapU32_range|]. by apply to_int_wrapU.
Qed.

Lemma at_type : cmsg_type buf p = c_type m.
Proof.
  destruct Hwf as (_ & H & _). rw /cmsg_type -drop_drop drop_app_length /encode_cmsg -!app_assoc.
  match goal with |- context [put_le32 (wrapU 32 (c_type m)) ++ ?r] =>
    change (to_int (le32 (put_le32 (wrapU 32 (c_type m)) ++ r)) = c_type m) end.
  rw le32_put; [apply wrapU32_range|]. by apply to_int_wrapU.
Qed.

Lemma at_data rest : drop (CMSG_DATA p) (buf ++ rest) = c_data m ++
  replicate (CMSG_ALIGN (length (c_data m)) - length (c_data m)) NUL ++ post ++ rest.
Proof.
  rw /CMSG_DATA -drop_drop -!app_assoc drop_app_length /encode_cmsg -?app_assoc. done.
Qed.

Lemma cmsg_at_encode : cmsg_at buf p = m.
Proof.
  rw /cmsg_at at_level at_type at_len. pose proof (at_data []) as Hd. rw app_nil_r in Hd. rw Hd Nat2Z.id.
  rw /CMSG_LEN Nat.add_comm Nat.add_sub take_app_length. by destruct m.
Qed.
End at_offset.

(** The header after [m]: there must be room for one, and for its length. *)
Lemma CMSG_NXTHDR_after pre m post :
  cmsg_wf m →
  CMSG_NXTHDR (pre ++ encode_cmsg m ++ post) (length pre) =
    if (Z.of_nat (length post) <? Z.of_nat CMSG_HDR) ||
       (Z.of_nat (length post) <? (le64 post + 7) / 8 * 8)
    then None else Some (length (pre ++ encode_cmsg m)).
Proof.
  intros Hwf. rw /CMSG_NXTHDR at_len // (proj2 (Z.ltb_ge _ _)); [rw /CMSG_LEN; lia|].
  rw align_Z CMSG_ALIGN_HDR -Nat2Z.inj_add.
  assert (length pre + (CMSG_HDR + CMSG_ALIGN (length (c_data m))) = length (pre ++ encode_cmsg m))%nat as ->.
  { rw length_app length_encode /CMSG_SPACE. lia. }
  rw Nat2Z.id /cmsg_len app_assoc drop_app_length (length_app _ post).
  rw Nat2Z.inj_add.
  replace (Z.of_nat (length (pre ++ encode_cmsg m)) + Z.of_nat (length post) <?
    Z.of_nat (length (pre ++ encode_cmsg m)) + Z.of_nat CMSG_HDR)
    with (Z.of_nat (length post) <? Z.of_nat CMSG_HDR) by lia.
  set (q := length (pre ++ encode_cmsg m)). set (l := (le64 post + 7) / 8 * 8).
  replace (Z.of_nat q + Z.of_nat (length post) <? Z.of_nat q + l) with (Z.of_nat (length post) <? l) by lia.
  done.
Qed.

(** At the end, before another message, and before zeroed space for one. *)
Lemma CMSG_NXTHDR_end pre m : cmsg_wf m → CMSG_NXTHDR (pre ++ encode_cmsg m) (length pre) = None.
Proof. intros H. pose proof (CMSG_NXTHDR_after pre m [] H) as E. by rw app_nil_r in E. Qed.

Lemma CMSG_NXTHDR_next pre m m' post :
  cmsg_wf m → cmsg_wf m' →
  CMSG_NXTHDR (pre ++ encode_cmsg m ++ encode_cmsg m' ++ post) (length pre) =
    Some (length (pre ++ encode_cmsg m)).
Proof.
  intros H H'. rw CMSG_NXTHDR_after //.
  pose proof (at_len [] m' post H') as El. rw /cmsg_len /= in El. rw El align_Z CMSG_ALIGN_HDR.
  rw length_app length_encode /CMSG_SPACE !(proj2 (Z.ltb_ge _ _)) //; lia.
Qed.

Lemma CMSG_NXTHDR_zero pre m n :
  cmsg_wf m → (CMSG_HDR ≤ n)%nat →
  CMSG_NXTHDR (pre ++ encode_cmsg m ++ replicate n NUL) (length pre) =
    Some (length (pre ++ encode_cmsg m)).
Proof.
  intros H Hn. rw CMSG_NXTHDR_after // length_replicate.
  do 16 (destruct n as [|n]; [rw /CMSG_HDR in Hn; lia|]). cbn -[Z.of_nat Z.ltb].
  rw !(proj2 (Z.ltb_ge _ _)) //; lia.
Qed.

(** Walking a buffer yields the messages encoded in it. *)
Lemma cmsgs_from_encode fuel pre m ms :
  Forall cmsg_wf (m :: ms) → (length ms < fuel)%nat →
  cmsgs_from fuel (pre ++ encode_cmsgs (m :: ms)) (Some (length pre)) = m :: ms.
Proof.
  elim: ms fuel pre m => [|m' ms IH] [|fuel] pre m Hwf Hf; try (cbn in Hf; lia);
    apply Forall_cons in Hwf as [Hm Hms]; rw /encode_cmsgs; cbn [mbind list_bind cmsgs_from].
  - rw cmsg_at_encode // app_nil_r CMSG_NXTHDR_end //. by destruct fuel.
  - rw cmsg_at_encode // CMSG_NXTHDR_next //; [by apply Forall_cons in Hms as [? _]|].
    rw app_assoc. f_equal. apply IH; [done|cbn in Hf; lia].
Qed.

Lemma cmsgs_encode ms : Forall cmsg_wf ms → cmsgs (encode_cmsgs ms) = ms.
Proof.
  intros Hwf. destruct ms as [|m ms]; [done|]. rw /cmsgs /CMSG_FIRSTHDR.
  assert (∀ l, length l * CMSG_HDR ≤ length (encode_cmsgs l))%nat as Hl.
  { elim => [//|x l IH]. rw encode_cmsgs_cons length_app length_encode /CMSG_SPACE.
    cbn [length]. rw /CMSG_HDR in IH |- *. lia. }
  specialize (Hl (m :: ms)). rw /CMSG_HDR in Hl. cbn [length] in Hl. rw (proj2 (Nat.leb_le _ _)); [rw /CMSG_HDR; lia|].
  apply (cmsgs_from_encode _ []); [done|lia].
Qed.
