(* ===== verification/Scm.v ===== *)
(** * Passing descriptors and credentials: [sockets/scm_functions.c],
      [sockets/unix_sockets.c], [sockets/scm_multi_send.c] and
      [sockets/scm_multi_recv.c]

    The control buffers are bytes, filled and walked with the macros of Cmsg; a
    store outside one is a crash.  The kernel [K] is shared by the processes;
    the calls on sockets have the process that makes them as first argument. *)

From S2P Require Import Prelude CStdlib ErrFns GetNum Tlpi Getopt FileIO Cmsg.

Definition AF_UNIX : Z := 1.
Definition SOCK_STREAM : Z := 1.
Definition SOCK_DGRAM : Z := 2.
Definition MSG_CTRUNC : Z := 8.
Definition ENAMETOOLONG : Z := 36.
Definition SUN_PATH : nat := 108.
Definition MAX_FDS : nat := 1024.
Definition BUF_SIZE : nat := 100.
Definition SOCK_PATH : cstring := cs "scm_multi".

(** [sm_recvmsg p sd n c]: at most [n] bytes of data and [c] of control data
    arrive, with the flags of the message. *)
Class ScmOS (K : Type) := {
  sm_socket : Z → Z → Z → K → res Z * K;
  sm_connect : Z → Z → list ascii → K → res unit * K;
  sm_bind : Z → Z → list ascii → K → res unit * K;
  sm_close : Z → Z → K → res unit * K;
  sm_listen : Z → Z → Z → K → res unit * K;
  sm_accept : Z → Z → K → res Z * K;
  sm_passcred : Z → Z → K → res unit * K;
  sm_remove : cstring → K → res unit * K;
  sm_sendmsg : Z → Z → list ascii → list ascii → K → res Z * K;
  sm_recvmsg : Z → Z → nat → nat → K → res (list ascii * list ascii * Z) * K;
  sm_ids : Z → K → Z * Z * Z;
  sm_system : cstring → K → K;
  sm_stdout : list ascii → K → res nat * K;
}.

Section functions.
Context {K : Type} `{!TlpiEnv K, !ScmOS K} (p : Z).
Abbreviation T := (M (tproc K)).

Definition set_terrno (e : Z) : T unit := io (set_errno e).

(** ** unix_sockets.c *)

(** The bytes of [sun_path], or [None] for the result -1. *)
Definition unixBuildAddress (path : option cstring) : T (option (list ascii)) :=
  match path with
  | None => set_terrno EINVAL ;; mret None
  | Some path =>
      if (length path <? SUN_PATH)%nat
      then mret (Some (take (SUN_PATH - 1) path ++ replicate (SUN_PATH - length path) NUL))
      else set_terrno ENAMETOOLONG ;; mret None
  end.

(** [call] is [connect] or [bind]. *)
Definition unix_open (call : Z → list ascii → K → res unit * K) (path : option cstring) (type : Z)
    : T (option Z) :=
  addr ← unixBuildAddress path ;
  match addr with
  | None => mret None
  | Some addr =>
      sd ← tcall (sm_socket p AF_UNIX type) ;
      match sd with
      | None => mret None
      | Some sd =>
          r ← tcall (call sd addr) ;
          match r with
          | None =>
              savedErrno ← errno ;
              tcall (sm_close p sd) ;;
              set_terrno savedErrno ;;
              mret None
          | Some _ => mret (Some sd)
          end
      end
  end.
Definition unixConnect : option cstring → Z → T (option Z) := unix_open (sm_connect p).
Definition unixBind : option cstring → Z → T (option Z) := unix_open (sm_bind p).

(** ** scm_functions.c *)

(** Store [d] at offset [off] of an object. *)
Definition poke (buf : list ascii) (off : nat) (d : list ascii) : T (list ascii) :=
  if (off + length d <=? length buf)%nat then mret (store buf off d) else stop Crash.

(** The assignments to the fields of the header at [c], for [n] bytes of data. *)
Definition fill_header (buf : list ascii) (c : nat) (type : Z) (n : nat) : T (list ascii) :=
  buf ← poke buf (c + 8) (put_le32 SOL_SOCKET) ;
  buf ← poke buf (c + 12) (put_le32 type) ;
  poke buf c (put_le64 (Z.of_nat (CMSG_LEN n))).

(** [junk] is what the control buffer, which is not cleared, holds. *)
Definition sendfd (junk : nat → ascii) (sockfd fd : Z) : T Z :=
  let controlMsg := junk <$> seq 0 (CMSG_SPACE 4) in
  match CMSG_FIRSTHDR controlMsg with
  | None => stop Crash
  | Some c =>
      controlMsg ← fill_header controlMsg c SCM_RIGHTS 4 ;
      controlMsg ← poke controlMsg (CMSG_DATA c) (put_le32 (wrapU 32 fd)) ;
      r ← tcall (sm_sendmsg p sockfd (put_le32 12345) controlMsg) ;
      mret (match r with None => -1 | Some _ => 0 end)
  end.

Definition recvfd (sockfd : Z) : T Z :=
  nr ← tcall (sm_recvmsg p sockfd 4 (CMSG_SPACE 4)) ;
  match nr with
  | None => mret (-1)
  | Some (_, controlMsg, _) =>
      match CMSG_FIRSTHDR controlMsg with
      | Some c =>
          if negb (cmsg_len controlMsg c =? Z.of_nat (CMSG_LEN 4)) ||
             negb (cmsg_level controlMsg c =? SOL_SOCKET) ||
             negb (cmsg_type controlMsg c =? SCM_RIGHTS)
          then set_terrno EINVAL ;; mret (-1)
          else mret (to_int (le32 (drop (CMSG_DATA c) controlMsg)))
      | None => set_terrno EINVAL ;; mret (-1)
      end
  end.
End functions.

Section programs.
Context {K : Type} `{!TlpiEnv K, !FileOS K, !ScmOS K} (p : Z).
Abbreviation T := (M (tproc K)).

(** ** scm_multi_send *)

Definition send_usage {A} (pname : cstring) : T A :=
  teprintf (cs "Usage: " ++ pname ++ cs " [options] file..." ++ [NL]) ;;
  teprintf (cs "    Options:" ++ [NL]) ;;
  teprintf (cs "	-d        Use datagram (instead of stream) socket" ++ [NL]) ;;
  teprintf (cs "	-n        Don't send any real data with the ancillary data" ++ [NL]) ;;
  teprintf (cs "	-p <pid>  Use this PID when sending credentials" ++ [NL]) ;;
  teprintf (cs "	-u <uid>  Use this UID when sending credentials" ++ [NL]) ;;
  teprintf (cs "	-g <gid>  Use this GID when sending credentials" ++ [NL]) ;;
  teprintf (cs "    If any of any of -p/-u/-g is absent, the corresponding real" ++ [NL] ++
            cs "    credential is used." ++ [NL]) ;;
  texit EXIT_FAILURE.

Record ucred := Ucred { cr_pid : Z; cr_uid : Z; cr_gid : Z }.
Definition UCRED_SIZE : nat := 12.
Definition put_ucred (c : ucred) : list ascii :=
  put_le32 (wrapU 32 (cr_pid c)) ++ put_le32 (wrapU 32 (cr_uid c)) ++ put_le32 (wrapU 32 (cr_gid c)).
Definition get_ucred (b : list ascii) : ucred :=
  Ucred (to_int (le32 b)) (le32 (drop 4 b)) (le32 (drop 8 b)).

Record sendopts := SendOpts { so_datagram : bool; so_data : bool; so_creds : ucred }.

Fixpoint send_options (pname : cstring) (l : list opt_event) (o : sendopts) : T sendopts :=
  let '(SendOpts dg data (Ucred pid uid gid)) := o in
  match l with
  | [] => mret o
  | Opt "d"%char _ :: l => send_options pname l (SendOpts true data (Ucred pid uid gid))
  | Opt "n"%char _ :: l => send_options pname l (SendOpts dg false (Ucred pid uid gid))
  | Opt "p"%char (Some a) :: l => send_options pname l (SendOpts dg data (Ucred (atoi a) uid gid))
  | Opt "u"%char (Some a) :: l =>
      send_options pname l (SendOpts dg data (Ucred pid (wrapU 32 (atoi a)) gid))
  | Opt "g"%char (Some a) :: l =>
      send_options pname l (SendOpts dg data (Ucred pid uid (wrapU 32 (atoi a))))
  | BadOpt t :: _ => teprintf t ;; send_usage pname
  | _ => send_usage pname
  end.

Definition checked_malloc (n : nat) (msg : cstring) : T unit :=
  ok ← tsys (fo_malloc (Z.of_nat n)) ;
  if ok : bool then mret tt else terrExit msg.

Fixpoint open_all (files : list cstring) : T (list Z) :=
  match files with
  | [] => mret []
  | f :: files =>
      fd ← tchecked (cs "open") (fo_open f O_RDONLY 0) ;
      fds ← open_all files ;
      mret (fd :: fds)
  end.

(** The control buffer: the descriptors of the files, then the credentials. *)
Definition build_control (files : list cstring) (creds : ucred) : T (list ascii) :=
  let fdAllocSize := (4 * length files)%nat in
  let controlMsgSize := (CMSG_SPACE fdAllocSize + CMSG_SPACE UCRED_SIZE)%nat in
  checked_malloc controlMsgSize (cs "malloc") ;;
  let controlMsg := replicate controlMsgSize NUL in
  match CMSG_FIRSTHDR controlMsg with
  | None => stop Crash
  | Some c =>
      controlMsg ← fill_header controlMsg c SCM_RIGHTS fdAllocSize ;
      tprintf (cs "cmsg_len 1: " ++ fmt_d (cmsg_len controlMsg c) ++ [NL]) ;;
      checked_malloc fdAllocSize (cs "calloc") ;;
      fdList ← open_all files ;
      controlMsg ← poke controlMsg (CMSG_DATA c) (fdList ≫= λ fd, put_le32 (wrapU 32 fd)) ;
      match CMSG_NXTHDR controlMsg c with
      | None => stop Crash
      | Some c =>
          controlMsg ← fill_header controlMsg c SCM_CREDENTIALS UCRED_SIZE ;
          tprintf (cs "cmsg_len 2: " ++ fmt_d (cmsg_len controlMsg c) ++ [NL]) ;;
          poke controlMsg (CMSG_DATA c) (put_ucred creds)
      end
  end.

Definition scm_multi_send (argv : list cstring) : T unit :=
  match argv with
  | [] => stop Crash
  | pname :: args =>
      ids ← gets (sm_ids p ∘ t_os) ;
      let '(pid, uid, gid) := ids in
      let '(opts, files) := options pname "dnp:u:g:" args in
      o ← send_options pname opts (SendOpts false true (Ucred pid uid gid)) ;
      if bool_decide (files = []) then send_usage pname else
      controlMsg ← build_control files (so_creds o) ;
      sfd ← unixConnect p (Some SOCK_PATH) (if so_datagram o then SOCK_DGRAM else SOCK_STREAM) ;
      match sfd with
      | None => terrExit (cs "unixConnect")
      | Some sfd =>
          ns ← tchecked (cs "sendmsg")
            (sm_sendmsg p sfd (if so_data o then put_le32 12345 else []) controlMsg) ;
          tprintf (cs "sendmsg() returned " ++ fmt_d ns ++ [NL]) ;;
          texit EXIT_SUCCESS
      end
  end.

(** ** scm_multi_recv *)

Definition recv_usage {A} (pname : cstring) : T A :=
  tusageErr (pname ++ cs " [-d]" ++ [NL] ++ cs "        -d           use datagram socket" ++ [NL] ++
             cs "        -n nbytes    limit on size of received ancillary data" ++ [NL]).

Fixpoint recv_options (pname : cstring) (l : list opt_event) (dg : bool) (n : Z) : T (bool * Z) :=
  match l with
  | [] => mret (dg, n)
  | Opt "d"%char _ :: l => recv_options pname l true n
  | Opt "n"%char (Some a) :: l => recv_options pname l dg (atoi a)
  | BadOpt t :: _ => teprintf t ;; recv_usage pname
  | _ => recv_usage pname
  end.

(** Show what is left of an open file; the result of [write] is not used. *)
Fixpoint show_file (fuel : nat) (fd : Z) : T unit :=
  match fuel with
  | O => stop NoFuel
  | S fuel =>
      buf ← tchecked (cs "read") (fo_read fd BUF_SIZE) ;
      match buf with
      | [] => mret tt
      | _ => tcall (sm_stdout buf) ;; show_file fuel fd
      end
  end.

Fixpoint show_files (fuel : nat) (j : nat) (fdList : list Z) : T unit :=
  match fdList with
  | [] => mret tt
  | fd :: fdList =>
      tprintf (cs "--- [" ++ fmt_d (Z.of_nat j) ++ cs "] Received FD " ++ fmt_d fd ++ [NL]) ;;
      show_file fuel fd ;;
      tchecked (cs "close") (fo_close fd) ;;
      show_files fuel (j + 1) fdList
  end.

(** [n] ints at offset [off]. *)
Fixpoint get_ints (buf : list ascii) (off n : nat) : list Z :=
  match n with
  | O => []
  | S n => to_int (le32 (drop off buf)) :: get_ints buf (off + 4) n
  end.

Definition BAR : cstring := cs "=================================" ++ [NL].

(** One turn of the loop over the headers. *)
Definition show_cmsg (fuel : nat) (buf : list ascii) (c : nat) : T unit :=
  tprintf BAR ;;
  tprintf (cs "cmsg_len: " ++ fmt_d (cmsg_len buf c) ++ [NL]) ;;
  if negb (cmsg_level buf c =? SOL_SOCKET) then tfatal (cs "cmsg_level != SOL_SOCKET") else
  if cmsg_type buf c =? SCM_RIGHTS then
    tprintf (cs "SCM_RIGHTS: ") ;;
    let fdCnt := wrapU 64 (cmsg_len buf c - Z.of_nat (CMSG_LEN 0)) / 4 in
    tprintf (cs "received " ++ fmt_d (to_int fdCnt) ++ cs " file descriptors" ++ [NL]) ;;
    let n := Z.to_nat (to_int fdCnt) in
    checked_malloc (4 * n) (cs "calloc") ;;
    if (CMSG_DATA c + 4 * n <=? length buf)%nat then show_files fuel 0 (get_ints buf (CMSG_DATA c) n)
    else stop Crash
  else if cmsg_type buf c =? SCM_CREDENTIALS then
    if negb (cmsg_len buf c =? Z.of_nat (CMSG_LEN UCRED_SIZE)) then tfatal (cs "cmsg data has incorrect size")
    else
      let creds := get_ucred (drop (CMSG_DATA c) buf) in
      tprintf (cs "SCM_CREDENTIALS: pid=" ++ fmt_d (cr_pid creds) ++ cs ", uid=" ++ fmt_d (cr_uid creds) ++
               cs ", gid=" ++ fmt_d (cr_gid creds) ++ [NL])
  else tfatal (cs "Bad cmsg_type (" ++ fmt_d (cmsg_type buf c) ++ cs ")").

Fixpoint show_cmsgs (fuel ffuel : nat) (buf : list ascii) (c : option nat) : T unit :=
  match c with
  | None => mret tt
  | Some c =>
      match fuel with
      | O => stop NoFuel
      | S fuel => show_cmsg ffuel buf c ;; show_cmsgs fuel ffuel buf (CMSG_NXTHDR buf c)
      end
  end.

(** The socket on which the message arrives. *)
Definition recv_socket (datagram : bool) : T Z :=
  r ← tcall (sm_remove SOCK_PATH) ;
  e ← errno ;
  if bool_decide (r = None) && negb (e =? ENOENT) then terrExit (cs "remove-" ++ SOCK_PATH) else
  sd ← unixBind p (Some SOCK_PATH) (if datagram then SOCK_DGRAM else SOCK_STREAM) ;
  match sd with
  | None => terrExit (cs "unixBind")
  | Some sd =>
      if datagram then mret sd else
      tchecked (cs "listen") (sm_listen p sd 5) ;;
      tchecked (cs "accept") (sm_accept p sd)
  end.

(** [junk] is what [data] holds before; more control data than the buffer has
    room for would be stored outside it. *)
Definition scm_multi_recv (ffuel : nat) (junk : nat → ascii) (argv : list cstring) : T unit :=
  match argv with
  | [] => stop Crash
  | pname :: args =>
      let controlMsgSize := (CMSG_SPACE (4 * MAX_FDS) + CMSG_SPACE UCRED_SIZE)%nat in
      checked_malloc controlMsgSize (cs "malloc") ;;
      o ← recv_options pname (options pname "dn:" args).1 false (-1) ;
      let '(datagram, optControlMsgSize) := o in
      sfd ← recv_socket datagram ;
      tchecked (cs "setsockopt") (sm_passcred p sfd) ;;
      let controllen := if optControlMsgSize =? -1 then controlMsgSize
                        else Z.to_nat (wrapU 64 optControlMsgSize) in
      r ← tchecked (cs "recvmsg") (sm_recvmsg p sfd 4 controllen) ;
      let '(data, controlMsg, flags) := r in
      if (controlMsgSize <? length controlMsg)%nat then stop Crash else
      tprintf (cs "recvmsg() returned " ++ fmt_d (Z.of_nat (length data)) ++ [NL]) ;;
      when (0 <? Z.of_nat (length data))
        (tprintf (cs "Received data = " ++ fmt_d (to_int (le32 (data ++ (junk <$> seq 0 4)))) ++ [NL])) ;;
      when (negb (optControlMsgSize =? -1))
        (tprintf BAR ;;
         pid ← gets (λ s, (sm_ids p (t_os s)).1.1) ;
         tsys_ (sm_system (snprintf 1000 (cs "ls -l /proc/" ++ fmt_d pid ++ cs "/fd"))) ;;
         tprintf BAR) ;;
      when (flag flags MSG_CTRUNC)
        (tprintf (cs "********** Ancillary data was truncated!!! **********" ++ [NL])) ;;
      show_cmsgs (S (length controlMsg)) ffuel controlMsg (CMSG_FIRSTHDR controlMsg) ;;
      texit EXIT_SUCCESS
  end.
End programs.

(** ** Filling the control buffer *)

Definition header (type : Z) (n : nat) : list ascii :=
  put_le64 (Z.of_nat (CMSG_LEN n)) ++ put_le32 SOL_SOCKET ++ put_le32 type.

Lemma encode_header type d :
  0 ≤ type < 2 ^ 32 →
  encode_cmsg (Cmsg SOL_SOCKET type d) =
    header type (length d) ++ d ++ replicate (CMSG_ALIGN (length d) - length d) NUL.
Proof.
  intros H. rw /encode_cmsg /header. cbn [c_level c_type c_data]. rw /wrapU !Z.mod_small //.
Qed.

Section fill.
Context {K : Type}.
Implicit Types s : tproc K.

Lemma poke_at pre old post d s :
  length old = length d → poke (pre ++ old ++ post) (length pre) d s = (Ret (pre ++ d ++ post), s).
Proof.
  intros Hl. rw /poke (proj2 (Nat.leb_le _ _)); [rw !length_app; lia|].
  rw /store take_app_length -drop_drop drop_app_length -Hl drop_app_length //.
Qed.

Lemma poke_after pre hd old post d s :
  length old = length d →
  poke (pre ++ hd ++ old ++ post) (length pre + length hd) d s = (Ret (pre ++ hd ++ d ++ post), s).
Proof.
  intros Hl. pose proof (poke_at (pre ++ hd) old post d s Hl) as H. by rw length_app -!app_assoc in H.
Qed.

Lemma fill_header_at pre old post type n s :
  length old = CMSG_HDR →
  fill_header (pre ++ old ++ post) (length pre) type n s = (Ret (pre ++ header type n ++ post), s).
Proof.
  intros Hl. rw /fill_header.
  assert (∃ a b c, old = a ++ b ++ c ∧ length a = 8%nat ∧ length b = 4%nat ∧ length c = 4%nat)
    as (a & b & c & -> & Ha & Hb & Hc).
  { exists (take 8 old), (take 4 (drop 8 old)), (drop 12 old).
    rw !length_take !length_drop Hl /CMSG_HDR. split_and!; [|lia..].
    rw -{1}(take_drop 8 old) -{1}(take_drop 4 (drop 8 old)) drop_drop //. }
  pose proof (poke_at (pre ++ a) b (c ++ post) (put_le32 SOL_SOCKET) s Hb) as H1.
  rw length_app Ha -!app_assoc in H1. rw -!app_assoc (bind_Ret _ _ _ _ _ H1).
  pose proof (poke_at (pre ++ a ++ put_le32 SOL_SOCKET) c post (put_le32 type) s Hc) as H2.
  rw !length_app Ha -!app_assoc in H2. replace (length pre + (8 + length (put_le32 SOL_SOCKET)))%nat
    with (length pre + 12)%nat in H2 by (cbn; lia).
  rw (bind_Ret _ _ _ _ _ H2).
  pose proof (poke_at pre a (put_le32 SOL_SOCKET ++ put_le32 type ++ post)
    (put_le64 (Z.of_nat (CMSG_LEN n))) s Ha) as H3.
  rw H3 /header -!app_assoc //.
Qed.
End fill.

(** ** Descriptors in messages *)

Definition ints_bytes (l : list Z) : list ascii := l ≫= λ fd, put_le32 (wrapU 32 fd).

Lemma length_ints_bytes l : length (ints_bytes l) = (4 * length l)%nat.
Proof.
  elim: l => [//|x l IH].
  change (ints_bytes (x :: l)) with (put_le32 (wrapU 32 x) ++ ints_bytes l).
  rw length_app IH. cbn [length put_le32]. lia.
Qed.

Lemma get_ints_bytes pre l post :
  Forall in_int l → get_ints (pre ++ ints_bytes l ++ post) (length pre) (length l) = l.
Proof.
  intros H. induction H as [|x l Hx _ IH] in pre |- *; [done|]. cbn [get_ints length].
  change (ints_bytes (x :: l)) with (put_le32 (wrapU 32 x) ++ ints_bytes l).
  rw drop_app_length -app_assoc le32_put; [apply wrapU32_range|].
  rw to_int_wrapU //. f_equal. specialize (IH (pre ++ put_le32 (wrapU 32 x))).
  rw length_app -app_assoc in IH. exact IH.
Qed.

Lemma ints_bytes_inj l l' :
  Forall in_int l → Forall in_int l' → ints_bytes l = ints_bytes l' → l = l'.
Proof.
  intros Hl Hl' E. rw -(get_ints_bytes [] l [] Hl) -(get_ints_bytes [] l' [] Hl') E. f_equal.
  apply (f_equal length) in E. rw !length_ints_bytes in E. lia.
Qed.

Definition rights_msg (fds : list Z) : cmsg := Cmsg SOL_SOCKET SCM_RIGHTS (ints_bytes fds).

Definition is_rights (m : cmsg) : Prop := c_level m = SOL_SOCKET ∧ c_type m = SCM_RIGHTS.

(** The open files that the message [m] of process [p] passes on. *)
Definition carries (fds : gmap (Z * Z) nat) (p : Z) (m : cmsg) (files : list nat) : Prop :=
  (∃ l, m = rights_msg l ∧ Forall in_int l ∧ Forall2 (λ fd f, fds !! (p, fd) = Some f) l files) ∨
  ¬ is_rights m ∧ files = [].

(** A control buffer with these messages; what the padding holds is not specified, and it may be
    missing at the end. *)
Inductive laid_out : list cmsg → list ascii → Prop :=
  | laid_nil : laid_out [] []
  | laid_cons m pad ms b :
      (length pad ≤ CMSG_ALIGN (length (c_data m)) - length (c_data m))%nat → laid_out ms b →
      laid_out (m :: ms) (put_le64 (Z.of_nat (CMSG_LEN (length (c_data m)))) ++
        put_le32 (wrapU 32 (c_level m)) ++ put_le32 (wrapU 32 (c_type m)) ++ c_data m ++ pad ++ b).

(** A message of another type, such as the credentials the socket was told to pass. *)
Definition other_msg (m : cmsg) : Prop := in_int (c_level m) ∧ in_int (c_type m) ∧ ¬ is_rights m.

(** [sm_fds]: the open file of a process's descriptor; [sm_peer]: the other end
    of a connected socket; [sm_queue]: the messages that wait at an end, each with its data and
    the open files that go with it.

    All descriptors of a message are received as one list.  The receiver may get only the first ones, or none,
    when it has reached its limit of open files or the buffer is too small; the
    message is then marked with MSG_CTRUNC.  Messages of other types may be
    received before and after, and be cut short. *)
Class ScmOSOk (K : Type) `{!ScmOS K} := {
  sm_fds : K → gmap (Z * Z) nat;
  sm_peer : K → Z * Z → option (Z * Z);
  sm_queue : K → Z * Z → list (list ascii * list nat);
  sm_sendmsg_ok p sd d ctl k n k' e :
    sm_sendmsg p sd d ctl k = (inr n, k') → sm_peer k (p, sd) = Some e →
    ∃ fss, Forall2 (carries (sm_fds k) p) (cmsgs ctl) fss ∧
      sm_queue k' e = sm_queue k e ++ [(take (Z.to_nat n) d, mjoin fss)];
  sm_recvmsg_ok p sd n c k d ctl fl k' d0 files rest :
    sm_recvmsg p sd n c k = (inr (d, ctl, fl), k') → sm_queue k (p, sd) = (d0, files) :: rest →
    (length d0 ≤ n)%nat →
    sm_queue k' (p, sd) = rest ∧ d = d0 ∧ (length ctl ≤ c)%nat ∧
    ∃ before l after got,
      laid_out (before ++ (if l is [] then [] else [rights_msg l]) ++ after) ctl ∧
      Forall other_msg before ∧ Forall other_msg after ∧
      Forall in_int l ∧ Forall2 (λ fd f, sm_fds k' !! (p, fd) = Some f) l got ∧ got `prefix_of` files ∧
      (flag fl MSG_CTRUNC = false → got = files);
}.

Section passing.
Context {K : Type} `{!TlpiEnv K, !ScmOS K, !ScmOSOk K}.
Implicit Types s : tproc K.

(** The buffer of [sendfd], whatever its padding holds. *)
Definition fd_buffer (fd : Z) (pad : list ascii) : list ascii :=
  header SCM_RIGHTS 4 ++ put_le32 (wrapU 32 fd) ++ pad.

Lemma fd_buffer_cmsgs fd pad :
  length pad = 4%nat → cmsgs (fd_buffer fd pad) = [Cmsg SOL_SOCKET SCM_RIGHTS (ints_bytes [fd])].
Proof.
  intros Hp. by destruct pad as [|a [|b [|c [|d [|? ?]]]]].
Qed.

Lemma sendfd_calls p junk sockfd fd s :
  ∃ pad, length pad = 4%nat ∧
    sendfd p junk sockfd fd s =
      (r ← tcall (sm_sendmsg p sockfd (put_le32 12345) (fd_buffer fd pad)) ;
       mret (match r with None => -1 | Some _ => 0 end)) s.
Proof.
  set (old := junk <$> seq 0 (CMSG_SPACE 4)).
  assert (length old = 24%nat) as Hl by (by rw /old length_fmap length_seq).
  assert (∃ h d pad, old = h ++ d ++ pad ∧ length h = 16%nat ∧ length d = 4%nat ∧ length pad = 4%nat)
    as (h & d & pad & Eo & Hh & Hd & Hp).
  { exists (take 16 old), (take 4 (drop 16 old)), (drop 20 old).
    rw !length_take !length_drop Hl. split_and!; [|done..].
    rw -{1}(take_drop 16 old) -{1}(take_drop 4 (drop 16 old)) drop_drop //. }
  exists pad. split; [done|]. rw /sendfd -/old.
  assert (CMSG_FIRSTHDR old = Some 0%nat) as -> by (by rw /CMSG_FIRSTHDR Hl). rw Eo.
  rw (bind_Ret _ _ _ _ _ (fill_header_at [] h (d ++ pad) SCM_RIGHTS 4 s Hh)).
  by rw (bind_Ret _ _ _ _ _ (poke_at (header SCM_RIGHTS 4) d pad (put_le32 (wrapU 32 fd)) s Hd)).
Qed.

Lemma carries_fd fds p fd files :
  in_int fd → carries fds p (rights_msg [fd]) files → ∃ f, files = [f] ∧ fds !! (p, fd) = Some f.
Proof.
  intros Hfd [(l & E & Hl & Hf)|[H _]]; [|by destruct H]. apply (f_equal c_data) in E.
  apply (ints_bytes_inj [fd]) in E as <-; [|by apply Forall_singleton|done].
  inversion Hf as [|? f ? ? Hf1 Hf2]; subst. inversion Hf2; subst. eauto.
Qed.

Lemma laid_out_length ms b :
  laid_out ms b → (sum_list ((λ m, CMSG_LEN (length (c_data m))) <$> ms) ≤ length b)%nat.
Proof.
  induction 1 as [|m pad ms b Hp Hb IH]; [done|]. rw fmap_cons.
  change (CMSG_LEN (length (c_data m)) + sum_list ((λ m, CMSG_LEN (length (c_data m))) <$> ms) ≤
    8 + (4 + (4 + length (c_data m ++ pad ++ b))))%nat.
  rw !length_app {1}/CMSG_LEN /CMSG_HDR. lia.
Qed.

(** What [recvfd] does with the control data of a successful [recvmsg]: the first message
    decides. *)
Lemma recvfd_rejects q b s d ctl fl k :
  sm_recvmsg q b 4 (CMSG_SPACE 4) (t_os s) = (inr (d, ctl, fl), k) →
  (laid_out [] ctl ∨ ∃ m ms, laid_out (m :: ms) ctl ∧ other_msg m) →
  ∃ s', recvfd q b s = (Ret (-1), s') ∧ t_os s' = k ∧ e_errno (t_io s') = EINVAL.
Proof.
  intros H Hl. rw /recvfd (bind_Ret _ _ _ _ _ (tcall_ok _ _ _ _ H)).
  destruct Hl as [Hl|(m & ms & Hl & Hv & Ht & Hm)]; inversion Hl as [|? pad ? c Hpad Hc]; subst.
  - eexists. by split.
  - set (buf := put_le64 _ ++ _).
    assert (cmsg_level buf 0 = c_level m ∧ cmsg_type buf 0 = c_type m) as [E1 E2].
    { rw /cmsg_level /cmsg_type /buf. split; rw le32_put; try apply wrapU32_range; by apply to_int_wrapU. }
    assert (CMSG_FIRSTHDR buf = Some 0%nat) as -> by done. rw E1 E2.
    assert (negb (c_level m =? SOL_SOCKET) || negb (c_type m =? SCM_RIGHTS) = true) as Hb.
    { destruct (Z.eqb_spec (c_level m) SOL_SOCKET), (Z.eqb_spec (c_type m) SCM_RIGHTS); try done. by destruct Hm. }
    rw -orb_assoc Hb orb_true_r. eexists. by split.
Qed.

Lemma recvfd_returns q b s d ctl fl k fd ms :
  in_int fd → laid_out (rights_msg [fd] :: ms) ctl →
  sm_recvmsg q b 4 (CMSG_SPACE 4) (t_os s) = (inr (d, ctl, fl), k) →
  recvfd q b s = (Ret fd, TProc (t_io s) k).
Proof.
  intros Hfd Hl H. rw /recvfd (bind_Ret _ _ _ _ _ (tcall_ok _ _ _ _ H)).
  inversion Hl as [|? pad ? c Hpad Hc]; subst. set (buf := put_le64 _ ++ _).
  assert (CMSG_FIRSTHDR buf = Some 0%nat ∧ cmsg_len buf 0 = Z.of_nat (CMSG_LEN 4) ∧
    cmsg_level buf 0 = SOL_SOCKET ∧ cmsg_type buf 0 = SCM_RIGHTS) as (-> & -> & -> & ->) by done.
  assert (to_int (le32 (drop (CMSG_DATA 0) buf)) = fd) as ->; [|done].
  change (drop _ buf) with (put_le32 (wrapU 32 fd) ++ pad ++ c).
  rw le32_put; [apply wrapU32_range|]. by apply to_int_wrapU.
Qed.

(** A message with one descriptor is received with it, or it was dropped and [recvfd] says so. *)
Lemma recvfd_one q b s d ctl fl k d0 f :
  sm_recvmsg q b 4 (CMSG_SPACE 4) (t_os s) = (inr (d, ctl, fl), k) →
  sm_queue (t_os s) (q, b) = [(d0, [f])] → (length d0 ≤ 4)%nat →
  ∃ r s', recvfd q b s = (Ret r, s') ∧ t_os s' = k ∧ sm_queue k (q, b) = [] ∧
    (sm_fds k !! (q, r) = Some f ∨ r = -1 ∧ e_errno (t_io s') = EINVAL ∧ flag fl MSG_CTRUNC = true).
Proof.
  intros H Hq Hd. destruct (sm_recvmsg_ok _ _ _ _ _ _ _ _ _ _ _ _ H Hq Hd)
    as (Hq' & -> & Hc & bef & l & aft & got & Hl & Hb & Ha & Hin & Hf & Hpre & Hct).
  destruct l as [|fd l].
  - (* no descriptor *)
    inversion Hf; subst got. destruct (recvfd_rejects q b s d0 ctl fl k H) as (s' & E & Ek & Ee).
    { cbn in Hl. destruct (bef ++ aft) as [|m ms] eqn:Eb; [by left|right]. exists m, ms. split; [done|].
      assert (Forall other_msg (m :: ms)) as Hall by (rw -Eb; by apply Forall_app).
      by apply Forall_cons in Hall as [? _]. }
    exists (-1), s'. split_and!; [done..|]. right. split_and!; [done..|].
    destruct (flag fl MSG_CTRUNC); [done|by specialize (Hct eq_refl)].
  - inversion Hf as [|? f' ? got' Hf1 Hf2]; subst. apply prefix_cons_inv_1 in Hpre as Ef. subst f'.
    apply prefix_cons_inv_2, prefix_nil_inv in Hpre as ->. inversion Hf2; subst.
    destruct bef as [|m bef].
    + exists fd, (TProc (t_io s) k). split_and!; [|done..|by left].
      by eapply recvfd_returns; [apply Forall_cons in Hin as [? _]|exact Hl|exact H].
    + (* no room for another message before it *)
      exfalso. apply laid_out_length in Hl. rw fmap_app fmap_app sum_list_with_app in Hl. change (CMSG_SPACE 4) with 24%nat in Hc.
      change (CMSG_HDR + length (c_data m) + sum_list ((λ m, CMSG_LEN (length (c_data m))) <$> bef) +
        (20 + sum_list ((λ m, CMSG_LEN (length (c_data m))) <$> aft)) ≤ length ctl)%nat in Hl.
      rw /CMSG_HDR in Hl. lia.
Qed.

(** C18: A descriptor sent with [sendfd] on a socket connected to an end of another process where no
    message waits.  [sendfd] returns -1 with the error of sendmsg, or 0.  After
    that [recvfd] at the other end returns -1 with the error of recvmsg if that fails; if not, it takes the message and
    returns a descriptor of its process for the same open file, or -1 with EINVAL, and
    this only if the kernel has marked the ancillary data as truncated, as when the process
    may not have another descriptor. *)
Theorem fd_passing p q a b junk fd f s :
  in_int fd → sm_fds (t_os s) !! (p, fd) = Some f →
  sm_peer (t_os s) (p, a) = Some (q, b) → sm_queue (t_os s) (q, b) = [] →
  ∃ r s1, sendfd p junk a fd s = (Ret r, s1) ∧
    (r = 0 ∨ r = -1 ∧ ∃ pad,
       sm_sendmsg p a (put_le32 12345) (fd_buffer fd pad) (t_os s) = (inl (e_errno (t_io s1)), t_os s1)) ∧
    (r = 0 → ∀ e, ∃ r' s2, recvfd q b (TProc e (t_os s1)) = (Ret r', s2) ∧
       match sm_recvmsg q b 4 (CMSG_SPACE 4) (t_os s1) with
       | (inl err, k) => r' = -1 ∧ e_errno (t_io s2) = err ∧ t_os s2 = k
       | (inr (_, _, fl), k) => t_os s2 = k ∧ sm_queue k (q, b) = [] ∧
           (sm_fds k !! (q, r') = Some f ∨ r' = -1 ∧ e_errno (t_io s2) = EINVAL ∧ flag fl MSG_CTRUNC = true)
       end).
Proof.
  intros Hfd Hf Hpeer Hq. destruct (sendfd_calls p junk a fd s) as (pad & Hpad & ->).
  rw /tcall /tsys /mbind /M_bind.
  destruct (sm_sendmsg p a _ (fd_buffer fd pad) (t_os s)) as [[err|n] k1] eqn:Es.
  { eexists _, _. split; [reflexivity|]. split; [right; split; [done|]; exists pad; exact Es|done]. }
  eexists _, _. split; [reflexivity|]. split; [by left|]. intros _ e. cbn [t_os].
  destruct (sm_sendmsg_ok _ _ _ _ _ _ _ _ Es Hpeer) as (fss & Hts & Hq1).
  rw fd_buffer_cmsgs // in Hts. apply Forall2_cons_inv_l in Hts as (fs & fss' & Ht & Hnil & ->).
  apply Forall2_nil_inv_l in Hnil as ->. apply carries_fd in Ht as (f' & -> & Hf'); [|done].
  rw Hf in Hf'. injection Hf' as <-. rw Hq /= in Hq1.
  destruct (sm_recvmsg q b 4 (CMSG_SPACE 4) k1) as [[err|[[d ctl] fl]] k2] eqn:Er.
  { eexists _, _. rw /recvfd /tcall /tsys /mbind /M_bind /= Er. split; [reflexivity|]. by split_and!. }
  apply (recvfd_one q b (TProc e k1) d ctl fl k2 _ f Er Hq1). rw length_take /=. lia.
Qed.
End passing.

(** ** The buffer of scm_multi_send *)

Definition creds_msg (c : ucred) : cmsg := Cmsg SOL_SOCKET SCM_CREDENTIALS (put_ucred c).

Lemma rights_wf fds :
  Z.of_nat (CMSG_LEN (4 * length fds)) < 2 ^ 32 → cmsg_wf (rights_msg fds).
Proof. intros H. split_and!; [done..|]. cbn [c_data rights_msg]. by rw length_ints_bytes. Qed.

Lemma creds_wf c : cmsg_wf (creds_msg c).
Proof. by split_and!. Qed.

Section build.
Context {K : Type} `{!TlpiEnv K, !FileOS K, !FileOSOk K}.
Implicit Types s : tproc K.
Abbreviation view s := (fo_view (t_os s)).

(** The descriptors are open on the files, at their start. *)
Definition open_on (v : fview) (f : cstring) (fd : Z) : Prop :=
  ∃ i, v_names v !! f = Some i ∧ v_fds v !! fd = Some (i, O).

(** A file is missing. *)
Definition missing (v : fview) (files : list cstring) : Prop :=
  wf_view v → Exists (λ f, v_names v !! f = None) files.

Lemma open_all_strict files s :
  strict (FileWorks K → missing (view s) files) (open_all files) (λ fds s',
    Forall2 (open_on (view s')) files fds ∧ v_names (view s') = v_names (view s) ∧
    v_files (view s') = v_files (view s) ∧ v_fds (view s) ⊆ v_fds (view s')) s.
Proof.
  elim: files s => [|f files IH] s; cbn [open_all]; [by strict_step|].
  do 2 strict_step.
  2: { intros Hn W Hwf. destruct (v_names (view s) !! f) as [i0|] eqn:Ef; [|by apply Exists_cons_hd].
       refine (open_refused _ _ _ _ _ Hwf _ Hn W). left. by rw Ef. }
  intros fd k Ho. apply fo_open_ok in Ho as (i & Hn & Hf & Ho).
  destruct (v_names (view s) !! f) as [i0|] eqn:Ef; [|by destruct Ho].
  destruct Ho as (-> & Hnm & Hfl). cbn in Hfl.
  strict_step. eapply strict_conseq; [refine (strict_reason _ _ _ _ _ (IH _) _)|].
  { cbn. rw /missing Hnm. intros Hm W Hwf. apply Exists_cons_tl, (Hm W). intros p. rw Hnm Hfl. apply Hwf. }
  cbn [t_os].
  intros fds s' (Hall & Hnm' & Hfl' & Hsub). strict_step. split_and!.
  - constructor; [|done]. exists i0. split; [by rw Hnm' Hnm|].
    apply (lookup_weaken _ _ _ _ (lookup_insert_eq (v_fds (view s)) fd (i0, O))). by rw -Hf.
  - by rw Hnm'.
  - by rw Hfl'.
  - etrans; [|exact Hsub]. rw Hf. by apply insert_subseteq.
Qed.

Lemma checked_malloc_strict (G : Prop) n msg (Q : unit → tproc K → Prop) s :
  (∀ s', view s' = view s → Q tt s') → strict (FileWorks K → G) (checked_malloc n msg) Q s.
Proof.
  intros H. rw /checked_malloc. do 2 strict_step. intros ok k Hm.
  destruct ok; [|exact (strict_terrExit _ _ _ _ (malloc_refused _ _ _ _ Hm))].
  apply fo_malloc_ok in Hm. strict_step. by apply H.
Qed.

(** The steps on the bytes: header, descriptors, next header, credentials. *)
Lemma control_bytes fds a :
  length fds = a → Z.of_nat (CMSG_LEN (4 * a)) < 2 ^ 32 →
  header SCM_RIGHTS (4 * a) ++ ints_bytes fds ++ replicate (CMSG_ALIGN (4 * a) - 4 * a) NUL =
    encode_cmsg (rights_msg fds).
Proof. intros <- H. rw /rights_msg encode_header // length_ints_bytes //. Qed.

Lemma build_control_strict files creds s :
  Z.of_nat (CMSG_LEN (4 * length files)) < 2 ^ 32 →
  strict (FileWorks K → missing (view s) files) (build_control files creds) (λ buf s', ∃ fds,
    buf = encode_cmsgs [rights_msg fds; creds_msg creds] ∧
    Forall2 (open_on (view s')) files fds ∧ v_files (view s') = v_files (view s)) s.
Proof.
  intros Hlen. rw /build_control. set (a := length files).
  pose proof (CMSG_ALIGN_bounds (4 * a)) as [Hal _].
  assert (replicate (CMSG_SPACE (4 * a) + CMSG_SPACE UCRED_SIZE) NUL =
    replicate 16 NUL ++ replicate (4 * a) NUL ++ replicate (CMSG_ALIGN (4 * a) - 4 * a) NUL ++
    replicate 32 NUL) as ->.
  { rw -!replicate_add. f_equal. rw /CMSG_SPACE /CMSG_HDR.
    change (CMSG_ALIGN UCRED_SIZE) with 16%nat. lia. }
  set (pad := replicate (CMSG_ALIGN (4 * a) - 4 * a) NUL).
  strict_step. apply checked_malloc_strict. intros s1 Hv1.
  rw /CMSG_FIRSTHDR (proj2 (Nat.leb_le _ _)); [rw !length_app !length_replicate /CMSG_HDR; lia|].
  eapply strict_bind_Ret.
  { apply (fill_header_at [] (replicate 16 NUL) _ SCM_RIGHTS (4 * a)). by rw length_replicate. }
  do 2 strict_step. strict_step. apply checked_malloc_strict. intros s2 Hv2. cbn [t_os] in Hv2.
  strict_step. eapply strict_conseq; [refine (strict_reason _ _ _ _ _ (open_all_strict _ _) _); by rw Hv2 Hv1|].
  intros fds s3 (Hall & _ & Hfl & _). pose proof (Forall2_length _ _ _ Hall) as Hl.
  eapply strict_bind_Ret.
  { apply (poke_at (header SCM_RIGHTS (4 * a)) (replicate (4 * a) NUL) _ (ints_bytes fds)).
    by rw length_replicate length_ints_bytes -Hl. }
  assert (header SCM_RIGHTS (4 * a) ++ ints_bytes fds ++ pad ++ replicate 32 NUL =
          encode_cmsg (rights_msg fds) ++ replicate 32 NUL) as ->.
  { rw -(control_bytes fds a) // -!app_assoc //. }
  rw (CMSG_NXTHDR_zero [] _ 32); [by apply rights_wf; rw -Hl|rw /CMSG_HDR; lia|]. cbn [app].
  set (m := rights_msg fds).
  eapply strict_bind_Ret.
  { apply (fill_header_at (encode_cmsg m) (replicate 16 NUL) (replicate 16 NUL)). by rw length_replicate. }
  do 2 strict_step.
  assert (∀ s4, poke (encode_cmsg m ++ header SCM_CREDENTIALS UCRED_SIZE ++ replicate 16 NUL)
      (CMSG_DATA (length (encode_cmsg m))) (put_ucred creds) s4 =
    (Ret (encode_cmsg m ++ header SCM_CREDENTIALS UCRED_SIZE ++ put_ucred creds ++ replicate 4 NUL), s4)) as Hp
    by (intros s4; exact (poke_after (K := K) (encode_cmsg m) (header SCM_CREDENTIALS UCRED_SIZE)
      (replicate 12 NUL) (replicate 4 NUL) (put_ucred creds) s4 eq_refl)).
  rw /strict Hp.
  exists fds. split_and!; [|done|by rw Hfl Hv2 Hv1].
  rw encode_cmsgs_cons encode_cmsgs_cons /creds_msg encode_header // app_nil_r //.
Qed.

(** scm_multi_send never stores outside its control buffer, and the buffer it sends is
    the descriptors of the named files, in order, followed by the credentials:
    walking it with the macros gives exactly these two messages.  In a file system
    that grants what it can, it fails only when a file is missing. *)
Lemma build_control_correct files creds s :
  Z.of_nat (CMSG_LEN (4 * length files)) < 2 ^ 32 →
  strict (FileWorks K → missing (view s) files) (build_control files creds) (λ buf s', ∃ fds,
    buf = encode_cmsgs [rights_msg fds; creds_msg creds] ∧
    cmsgs buf = [rights_msg fds; creds_msg creds] ∧
    Forall2 (open_on (view s')) files fds ∧ v_files (view s') = v_files (view s)) s.
Proof.
  intros H. eapply strict_conseq; [by apply build_control_strict|].
  intros buf s' (fds & -> & Hall & Hfl). exists fds. split_and!; try done.
  apply cmsgs_encode. apply Forall_cons. split; [|by apply Forall_singleton, creds_wf].
  apply rights_wf. by rw -(Forall2_length _ _ _ Hall).
Qed.
End build.

(** ** What scm_multi_recv shows *)

(** Standard output takes all it is given; [sm_tty] is what it has got by
    [write]. *)
Class ScmShowOk (K : Type) `{!FileOS K, !FileOSOk K, !ScmOS K} := {
  sm_tty : K → list ascii;
  sm_stdout_ok d k r k' : sm_stdout d k = (r, k') →
    sm_tty k' = sm_tty k ++ d ∧ fo_view k' = fo_view k;
  sm_tty_read fd n k r k' : fo_read fd n k = (r, k') → sm_tty k' = sm_tty k;
  sm_tty_close fd k r k' : fo_close fd k = (r, k') → sm_tty k' = sm_tty k;
  sm_tty_malloc n k b k' : fo_malloc n k = (b, k') → sm_tty k' = sm_tty k;
}.

Definition ucred_ok (c : ucred) : Prop :=
  in_int (cr_pid c) ∧ 0 ≤ cr_uid c < 2 ^ 32 ∧ 0 ≤ cr_gid c < 2 ^ 32.

Lemma get_put_ucred c r : ucred_ok c → get_ucred (put_ucred c ++ r) = c.
Proof.
  intros (H1 & H2 & H3). destruct c as [pid uid gid]. rw /get_ucred /put_ucred. cbn [cr_pid cr_uid cr_gid] in *.
  change (drop 8 _) with (put_le32 (wrapU 32 gid) ++ r).
  change (drop 4 _) with (put_le32 (wrapU 32 uid) ++ put_le32 (wrapU 32 gid) ++ r).
  rw -!app_assoc !le32_put; [apply wrapU32_range..|]. rw to_int_wrapU //.
  by rw /wrapU !Z.mod_small.
Qed.

Section show.
Context {K : Type} `{!TlpiEnv K, !FileOS K, !FileOSOk K, !ScmOS K, !ScmShowOk K}.
Implicit Types s : tproc K.
Abbreviation view s := (fo_view (t_os s)).
Abbreviation tty s := (sm_tty (t_os s)).
Abbreviation output s := (e_stdout (t_io s) ++ e_buffered (t_io s)).

(** [t] is what is left to read at descriptor [fd]. *)
Definition left_at (v : fview) (fd : Z) (t : list ascii) : Prop :=
  ∃ i off c, v_fds v !! fd = Some (i, off) ∧ v_files v !! i = Some c ∧ t = drop off c.

(** The view is that of [v] but for the entry of [fd]. *)
Definition but_fd (fd : Z) (v v' : fview) : Prop :=
  v_names v' = v_names v ∧ v_files v' = v_files v ∧ delete fd (v_fds v') = delete fd (v_fds v).

(** A call whose result is not used. *)
Lemma strict_ignored {A B} (F : Prop) (f : K → res A * K) (m : M (tproc K) B) Q s :
  (∀ r k s', f (t_os s) = (r, k) → t_os s' = k → output s' = output s → strict F m Q s') →
  strict F (tcall f ;; m) Q s.
Proof.
  intros H. apply strict_bind, strict_tcall; intros v k E; by apply (H _ k _ E).
Qed.

Lemma show_file_strict fuel fd t s :
  left_at (view s) fd t → (length t < fuel)%nat →
  strict (FileWorks K → False) (show_file fuel fd)
    (λ _ s', but_fd fd (view s) (view s') ∧ is_Some (v_fds (view s') !! fd) ∧ tty s' = tty s ++ t ∧ output s' = output s) s.
Proof.
  elim: fuel t s => [|fuel IH] t s; intros (i & off & c & Hfd & Hc & ->) Hf; [lia|]. cbn [show_file].
  do 2 strict_step; [|exact (read_refused _ _ _ _ _ _ _ Hfd Hc)].
  intros d k Hr. pose proof (sm_tty_read _ _ _ _ _ Hr) as Ht.
  destruct (fo_read_ok _ _ _ _ _ _ _ _ Hr Hfd Hc) as (Hd & _ & He & Hv).
  destruct d as [|x d].
  - destruct (He eq_refl) as [?|He']; [done|]. strict_step. rw He' app_nil_r. split_and!; [| |done..];
      cbn; rw Hv /=; [by rw /but_fd /= delete_insert_eq|by rw lookup_insert_eq].
  - apply strict_ignored. intros r k1 s1 Ho <- Hout. apply sm_stdout_ok in Ho as [Ho1 Ho2]. cbn in Ho1, Ho2.
    eapply strict_conseq; [apply (IH (drop (S (length d)) (drop off c)))|].
    + exists i, (off + S (length d))%nat, c. rw Ho2 Hv /= lookup_insert_eq drop_drop //.
    + rw length_drop. apply (f_equal length) in Hd. rw length_take in Hd. cbn [length] in Hd. lia.
    + cbn. intros _ s' ((E1 & E2 & E3) & Eo & E4 & E5). rw E4 Ho1 Ht -app_assoc.
      split_and!; [|done|by rw {1}Hd take_drop|by rw E5 Hout]. rw Ho2 Hv /= in E1 E2 E3.
      split_and!; [done..|]. by rw E3 delete_insert_eq.
Qed.

(** All descriptors of [fds] closed. *)
Definition closed (fds : list Z) (v v' : fview) : Prop :=
  v_names v' = v_names v ∧ v_files v' = v_files v ∧ v_fds v' = foldr delete (v_fds v) fds.

Lemma show_files_strict fuel j fds ts s :
  NoDup fds → Forall2 (left_at (view s)) fds ts → Forall (λ t, (length t < fuel)%nat) ts →
  strict (FileWorks K → False) (show_files fuel j fds)
    (λ _ s', closed fds (view s) (view s') ∧ tty s' = tty s ++ concat ts ∧
       ∃ t, output s' = output s ++ t) s.
Proof.
  elim: fds j ts s => [|fd fds IH] j ts s Hnd Hall Hf; cbn [show_files].
  - apply Forall2_nil_inv_l in Hall as ->. strict_step. split_and!; try done; [by rw app_nil_r|].
    exists []. by rw app_nil_r.
  - apply Forall2_cons_inv_l in Hall as (t & ts' & Ht & Hall & ->).
    apply NoDup_cons in Hnd as [Hni Hnd]. apply Forall_cons in Hf as [Hft Hf].
    do 2 strict_step. strict_step. eapply strict_conseq; [by apply (show_file_strict fuel fd t)|].
    cbn [t_os t_io e_stdout e_buffered]. intros _ s1 ((E1 & E2 & E3) & Eo & E4 & E5).
    do 2 strict_step; [|exact (close_refused _ _ _ Eo)]. intros [] k Hcl. pose proof (sm_tty_close _ _ _ _ Hcl) as Htty.
    apply fo_close_ok in Hcl. rw E1 E2 E3 in Hcl.
    eapply strict_conseq; [apply (IH (j + 1)%nat ts' (TProc _ k) Hnd)|]; cbn [t_os t_io]; try done.
    + apply Forall2_same_length_lookup_2; [exact (Forall2_length _ _ _ Hall)|]. intros n fd' t' Hx Hy.
      destruct (Forall2_lookup_lr _ _ _ _ _ _ Hall Hx Hy) as (i & off & c & Hfd & Hc & ->).
      exists i, off, c. rw Hcl /= lookup_delete_ne //. intros ->. apply Hni. exact (list_elem_of_lookup_2 _ _ _ Hx).
    + intros _ s2 ((F1 & F2 & F3) & F4 & (t2 & F5)). rw Hcl /= in F1 F2 F3.
      split_and!; [split_and!; [done..|]| |].
      * rw F3. cbn. clear. elim: fds => [//|a l IH]. cbn. rw IH delete_delete //.
      * by rw F4 Htty E4 /= -app_assoc.
      * eexists. rw F5 E5 -!app_assoc. reflexivity.
Qed.

Definition creds_line (c : ucred) : cstring :=
  cs "SCM_CREDENTIALS: pid=" ++ fmt_d (cr_pid c) ++ cs ", uid=" ++ fmt_d (cr_uid c) ++
  cs ", gid=" ++ fmt_d (cr_gid c) ++ [NL].

Lemma show_rights_strict fuel fds ts post s :
  let buf := encode_cmsg (rights_msg fds) ++ post in
  NoDup fds → Forall in_int fds → Z.of_nat (4 * length fds) < 2 ^ 31 →
  Forall2 (left_at (view s)) fds ts → Forall (λ t, (length t < fuel)%nat) ts →
  strict (FileWorks K → False) (show_cmsg fuel buf 0)
    (λ _ s', closed fds (view s) (view s') ∧ tty s' = tty s ++ concat ts ∧
       ∃ t, output s' = output s ++ t) s.
Proof.
  intros buf Hnd Hint Hlen Hall Hf.
  assert (cmsg_wf (rights_msg fds)) as Hwf by (apply rights_wf; rw /CMSG_LEN /CMSG_HDR; lia).
  pose proof (at_len [] _ post Hwf) as El. pose proof (at_level [] _ post Hwf) as Ev.
  pose proof (at_type [] _ post Hwf) as Et. cbn [app length] in El, Ev, Et.
  rw /show_cmsg. do 4 strict_step. rw -/buf in El Ev Et. rw Ev Et. cbn [c_level c_type rights_msg]. rw !Z.eqb_refl. cbn [negb].
  do 4 strict_step.
  assert (wrapU 64 (cmsg_len buf 0 - Z.of_nat (CMSG_LEN 0)) / 4 = Z.of_nat (length fds)) as ->.
  { rw El. cbn [c_data rights_msg]. rw length_ints_bytes /CMSG_LEN /CMSG_HDR /wrapU Z.mod_small; [lia|].
    symmetry. apply Z.div_unique with 0; lia. }
  rw to_int_id; [rw /in_int /INT_MIN /INT_MAX; lia|]. rw Nat2Z.id.
  strict_step. rw /checked_malloc. do 2 strict_step. intros ok k Hm.
  pose proof (sm_tty_malloc _ _ _ _ Hm) as Htty.
  destruct ok; [|exact (strict_terrExit _ _ _ _ (malloc_refused _ _ _ _ Hm))].
  apply fo_malloc_ok in Hm. cbn in Htty, Hm. strict_step.
  rw (proj2 (Nat.leb_le _ _)).
  { rw /buf length_app length_encode /CMSG_SPACE /CMSG_DATA. cbn [c_data rights_msg].
    rw length_ints_bytes. pose proof (CMSG_ALIGN_bounds (4 * length fds)). lia. }
  assert (get_ints buf (CMSG_DATA 0) (length fds) = fds) as ->.
  { rw /buf /rights_msg encode_header // -!app_assoc.
    match goal with |- context [ints_bytes fds ++ ?r] =>
      exact (get_ints_bytes (header SCM_RIGHTS (length (ints_bytes fds))) fds r Hint) end. }
  eapply strict_conseq; [apply (show_files_strict fuel 0 fds ts); [done| |done]|]; cbn [t_os].
  - by rw Hm.
  - cbn [t_io e_stdout e_buffered]. intros _ s' (Hc & Ht & (t & Ho)). rw Hm in Hc. rw Htty in Ht.
    split_and!; [done..|]. eexists. rw Ho -!app_assoc. reflexivity.
Qed.

(** Receiving the buffer that scm_multi_send sends, the receiver writes to standard output
    what is left to read of each passed file, in order, closes every descriptor it
    received, prints the credentials last and touches nothing else; it ends when
    the loop has a turn per character, and fails only in a file system that
    refuses a call it could grant. *)
Lemma recv_shows fuel fds ts creds s :
  NoDup fds → Forall in_int fds → Z.of_nat (4 * length fds) < 2 ^ 31 → ucred_ok creds →
  Forall2 (left_at (view s)) fds ts → Forall (λ t, (length t < fuel)%nat) ts →
  let buf := encode_cmsgs [rights_msg fds; creds_msg creds] in
  strict (FileWorks K → False) (show_cmsgs (S (length buf)) fuel buf (CMSG_FIRSTHDR buf))
    (λ _ s', closed fds (view s) (view s') ∧ tty s' = tty s ++ concat ts ∧
       ∃ t, output s' = output s ++ t ++ creds_line creds) s.
Proof.
  intros Hnd Hint Hlen Hcr Hall Hf buf.
  assert (cmsg_wf (rights_msg fds)) as Hwf by (apply rights_wf; rw /CMSG_LEN /CMSG_HDR; lia).
  pose proof (creds_wf creds) as Hwc.
  assert (buf = encode_cmsg (rights_msg fds) ++ encode_cmsg (creds_msg creds)) as Eb
    by (by rw /buf encode_cmsgs_cons encode_cmsgs_cons app_nil_r).
  assert (∃ n, length buf = S (S n)) as [n Hn].
  { exists (length buf - 2)%nat. rw Eb length_app !length_encode /CMSG_SPACE /CMSG_HDR. lia. }
  assert (CMSG_FIRSTHDR buf = Some 0%nat) as ->.
  { rw /CMSG_FIRSTHDR (proj2 (Nat.leb_le _ _)) // Eb length_app length_encode /CMSG_SPACE. lia. }
  rw Hn. cbn [show_cmsgs]. strict_step. rw Eb.
  eapply strict_conseq; [by apply (show_rights_strict fuel fds ts)|].
  intros _ s1 (Hc & Ht & (t & Ho)).
  pose proof (CMSG_NXTHDR_next [] _ _ [] Hwf Hwc) as Enx. rw app_nil_r in Enx. cbn [app length] in Enx. rw Enx.
  set (c := length (encode_cmsg (rights_msg fds))).
  strict_step.
  pose proof (at_len (encode_cmsg (rights_msg fds)) _ [] Hwc) as El.
  pose proof (at_level (encode_cmsg (rights_msg fds)) _ [] Hwc) as Ev.
  pose proof (at_type (encode_cmsg (rights_msg fds)) _ [] Hwc) as Et.
  pose proof (at_data (encode_cmsg (rights_msg fds)) (creds_msg creds) [] []) as Ed.
  pose proof (CMSG_NXTHDR_end (encode_cmsg (rights_msg fds)) _ Hwc) as Ee.
  rw !app_nil_r in El Ev Et Ed. rw -/c in El Ev Et Ed Ee.
  rw /show_cmsg. do 4 strict_step. rw Ev Et El. cbn [c_level c_type creds_msg].
  rw Z.eqb_refl. cbn [negb]. change (SCM_CREDENTIALS =? SCM_RIGHTS) with false. rw Z.eqb_refl.
  change (length (c_data (creds_msg creds))) with UCRED_SIZE. rw Z.eqb_refl. cbn [negb].
  strict_step. rw Ee. strict_step. rw Ed get_put_ucred //. split_and!; [done..|].
  cbn [t_io e_stdout e_buffered].
  exists (t ++ BAR ++ cs "cmsg_len: " ++ fmt_d (Z.of_nat (CMSG_LEN UCRED_SIZE)) ++ [NL]).
  rw /creds_line -!app_assoc (app_assoc (e_stdout _)) Ho -!app_assoc. reflexivity.
Qed.
End show.

(** ** Addresses *)

Lemma unixBuildAddress_ok {K} (path : cstring) (s : tproc K) :
  NUL ∉ path → (length path < SUN_PATH)%nat →
  ∃ addr, unixBuildAddress (Some path) s = (Ret (Some addr), s) ∧ length addr = SUN_PATH ∧
    until_nul addr = path.
Proof.
  intros Hn Hl. rw /unixBuildAddress (proj2 (Nat.ltb_lt _ _) Hl). eexists. split; [reflexivity|].
  rw take_ge; [lia|]. rw length_app length_replicate. split; [lia|].
  destruct (SUN_PATH - length path)%nat eqn:E; [lia|]. by apply until_nul_app.
Qed.

(** When [connect] or [bind] fails, its error is what the caller sees,
    whatever [close] does. *)
Lemma unix_open_errno {K} `{!ScmOS K} p call (path : cstring) type (s : tproc K) sd k1 e k2 :
  NUL ∉ path → (length path < SUN_PATH)%nat → sm_socket p AF_UNIX type (t_os s) = (inr sd, k1) →
  (∀ addr, call sd addr k1 = (inl e, k2)) →
  ∃ s', unix_open p call (Some path) type s = (Ret None, s') ∧ e_errno (t_io s') = e ∧
    t_os s' = (sm_close p sd k2).2.
Proof.
  intros Hn Hl Hs Hc. destruct (unixBuildAddress_ok path s Hn Hl) as (addr & Ha & _).
  rw /unix_open (bind_Ret _ _ _ _ _ Ha) (bind_Ret _ _ _ _ _ (tcall_ok _ _ _ _ Hs)).
  rw /tcall /tsys /mbind /M_bind /= Hc /=. destruct (sm_close p sd k2) as [[e'|[]] k3] eqn:Ec; by eexists.
Qed.

(** ** A kernel *)

Module ScmSim.
Import FileSim.

Record kern := Kern {
  k_view : fview; k_fds : gmap (Z * Z) nat; k_queue : gmap (Z * Z) (list (list ascii * list nat));
  k_tty : list ascii }.

Definition on_view {A} (f : fview → A * fview) (k : kern) : A * kern :=
  let '(a, v) := f (k_view k) in (a, Kern v (k_fds k) (k_queue k) (k_tty k)).

#[export] Instance scm_sim_env : TlpiEnv kern := { te_strerror _ := cs "error"; te_dumpcore := None }.

#[export] Instance scm_sim_file : FileOS kern := {
  fo_open p fl m := on_view (fo_open (K := FileSim.kern None) p fl m);
  fo_read fd n := on_view (fo_read (K := FileSim.kern None) fd n);
  fo_write fd d := on_view (fo_write (K := FileSim.kern None) fd d);
  fo_lseek fd z w := on_view (fo_lseek (K := FileSim.kern None) fd z w);
  fo_close fd := on_view (fo_close (K := FileSim.kern None) fd);
  fo_malloc n := on_view (fo_malloc (K := FileSim.kern None) n);
}.

Lemma on_view_inv {A} (f : fview → A * fview) k a k' :
  on_view f k = (a, k') → f (k_view k) = (a, k_view k') ∧ k_tty k' = k_tty k.
Proof. rw /on_view. destruct (f (k_view k)) as [b v]. by intros [= <- <-]. Qed.

#[export, refine] Instance scm_sim_file_ok : FileOSOk kern := { fo_view := k_view }.
Proof.
  - intros p fl m k fd k' [H _]%on_view_inv. exact (fo_open_ok (K := FileSim.kern None) p fl m (k_view k) fd (k_view k') H).
  - intros fd n k d k' i off c [H _]%on_view_inv. exact (fo_read_ok (K := FileSim.kern None) fd n (k_view k) d (k_view k') i off c H).
  - intros fd n k d k' i off c [H _]%on_view_inv. exact (fo_write_ok (K := FileSim.kern None) fd n (k_view k) d (k_view k') i off c H).
  - intros fd z w k new k' i off c [H _]%on_view_inv. exact (fo_lseek_ok (K := FileSim.kern None) fd z w (k_view k) new (k_view k') i off c H).
  - intros fd k k' [H _]%on_view_inv. exact (fo_close_ok (K := FileSim.kern None) fd (k_view k) (k_view k') H).
  - intros n k b k' [H _]%on_view_inv. exact (fo_malloc_ok (K := FileSim.kern None) n (k_view k) b (k_view k') H).
Defined.

(** Descriptor 3 of process 1 is connected to descriptor 4 of process 2, and its descriptor 5 to
    descriptor 4 of process 9, which may open no more files; a message has one descriptor. *)
Definition peer (e : Z * Z) : option (Z * Z) :=
  if decide (e = (1, 3)) then Some (2, 4) else if decide (e = (1, 5)) then Some (9, 4) else None.

(** A descriptor can be received into a buffer of [c] bytes. *)
Definition room (p : Z) (c : nat) : bool := negb (p =? 9) && (CMSG_SPACE 4 <=? c)%nat.

Definition one_fd (k : kern) (p : Z) (ms : list cmsg) : option nat :=
  match ms with
  | [m] =>
      let fd := to_int (le32 (c_data m)) in
      if decide (m = Cmsg SOL_SOCKET SCM_RIGHTS (ints_bytes [fd])) then k_fds k !! (p, fd) else None
  | _ => None
  end.

#[export] Instance scm_sim_os : ScmOS kern := {
  sm_socket _ _ _ k := (inr 3, k); sm_connect _ _ _ k := (inr tt, k); sm_bind _ _ _ k := (inr tt, k);
  sm_close _ _ k := (inr tt, k); sm_listen _ _ _ k := (inr tt, k); sm_accept _ _ k := (inr 4, k);
  sm_passcred _ _ k := (inr tt, k); sm_remove _ k := (inl ENOENT, k);
  sm_sendmsg p sd d ctl k :=
    match peer (p, sd), one_fd k p (cmsgs ctl) with
    | Some e, Some f =>
        (inr (Z.of_nat (length d)),
         Kern (k_view k) (k_fds k)
           (<[e := default [] (k_queue k !! e) ++ [(d, [f])]]> (k_queue k)) (k_tty k))
    | _, _ => (inl 9, k)
    end;
  sm_recvmsg p sd n c k :=
    match k_queue k !! (p, sd) with
    | Some ((d, [f]) :: rest) =>
        (inr (take n d, if room p c then encode_cmsgs [rights_msg [50]] else [], if room p c then 0 else MSG_CTRUNC),
         Kern (k_view k) (if room p c then <[(p, 50) := f]> (k_fds k) else k_fds k)
           (<[(p, sd) := rest]> (k_queue k)) (k_tty k))
    | _ => (inl 11, k)
    end;
  sm_ids _ _ := (100, 1000, 1000);
  sm_system _ k := k;
  sm_stdout d k := (inr (length d), Kern (k_view k) (k_fds k) (k_queue k) (k_tty k ++ d));
}.

#[export, refine] Instance scm_sim_ok : ScmOSOk kern := {
  sm_fds := k_fds; sm_peer _ := peer; sm_queue k e := default [] (k_queue k !! e) }.
Proof.
  - intros p sd d ctl k n k' e H Hp. cbn in H. rw Hp in H. rw /one_fd in H.
    destruct (cmsgs ctl) as [|m [|? ?]]; try done. case_decide as Hm; [|done].
    destruct (k_fds k !! (p, _)) as [f|] eqn:Ef; [|done]. injection H as <- <-.
    exists [[f]]. cbn. split; [|by rw lookup_insert_eq Nat2Z.id firstn_all].
    constructor; [|constructor]. left. eexists. split; [exact Hm|].
    split; [apply Forall_singleton, to_int_range|by repeat constructor].
  - intros p sd n c k d ctl fl k' d0 files rest H Hq Hn. cbn in H.
    destruct (k_queue k !! (p, sd)) as [q|]; [|done]. cbn in Hq. subst q.
    destruct files as [|f [|? ?]]; try done.
    destruct (room p c) eqn:Hfit; injection H as <- <- <- <-; cbn;
      (split; [by rw lookup_insert_eq|]); (split; [by apply take_ge|]).
    2: { split; [lia|]. exists [], [], [], []. split_and!; try done; [constructor|by exists [f]]. }
    apply andb_prop in Hfit as [_ Hc%Nat.leb_le].
    split; [done|]. exists [], [50], [], [f]. split_and!; try done.
    + apply (laid_cons (rights_msg [50]) (replicate 4 NUL) [] []); [done|constructor].
    + by apply Forall_singleton.
    + constructor; [by rw lookup_insert_eq|constructor].
Defined.

#[export] Instance scm_sim_works : FileWorks kern.
Proof.
  split.
  - intros p fl m k Hwf Hp. cbn. rw /on_view.
    destruct (fw_open (FileWorks := file_sim_works None) p fl m (k_view k) Hwf Hp) as (fd & v & E). cbn in E. rw E. eauto.
  - intros fd n k i off c Hi Hc. cbn. rw /on_view.
    destruct (fw_read (FileWorks := file_sim_works None) fd n (k_view k) i off c Hi Hc) as (d & v & E). cbn in E. rw E. eauto.
  - intros fd d k i off c Hi Hc. cbn. rw /on_view.
    destruct (fw_write (FileWorks := file_sim_works None) fd d (k_view k) i off c Hi Hc) as (v & E). cbn in E. rw E. eauto.
  - intros fd z w k i off c Hi Hc Hz. cbn. rw /on_view.
    destruct (fw_lseek (FileWorks := file_sim_works None) fd z w (k_view k) i off c Hi Hc Hz) as (new & v & E).
    cbn in E. rw E. eauto.
  - intros fd k _. cbn. eauto.
  - intros n k. cbn. eauto.
Qed.

#[export, refine] Instance scm_sim_show : ScmShowOk kern := { sm_tty := k_tty }.
Proof.
  - by intros d k r k' [= <- <-].
  - by intros fd n k r k' [_ H]%on_view_inv.
  - by intros fd k r k' [_ H]%on_view_inv.
  - by intros n k b k' [_ H]%on_view_inv.
Defined.

(** Files "a" and "b"; process 1 has file 7 open as 5. *)
Definition boot : tproc kern :=
  TProc (EState [] [] [] 0)
    (Kern (FView {[cs "a" := 1%nat; cs "b" := 2%nat]} {[1%nat := cs "abcdef"; 2%nat := cs "xyz"]}
             {[5 := (1%nat, 4%nat); 6 := (2%nat, 0%nat)]})
       {[(1, 5) := 7%nat]} ∅ []).
End ScmSim.
Import ScmSim.

Lemma fd_passing_witness :
  ∃ s1 s2, sendfd 1 (λ _, "?"%char) 3 5 ScmSim.boot = (Ret 0, s1) ∧
    recvfd 2 4 (TProc (EState [] [] [] 0) (t_os s1)) = (Ret 50, s2) ∧
    sm_fds (t_os s2) !! (2, 50) = Some 7%nat.
Proof.
  destruct (fd_passing 1 2 3 4 (λ _, "?"%char) 5 7 ScmSim.boot) as (r & s1 & H1 & Hr & H); try reflexivity;
    [done|].
  assert (r = 0) as Hr0 by (vm_compute in H1; by injection H1 as <- _).
  destruct (H Hr0 (EState [] [] [] 0)) as (r' & s2 & H2 & Hc). rw Hr0 in H1.
  exists s1, s2. vm_compute in H1. injection H1 as <-.
  vm_compute in H2. injection H2 as <- <-. split_and!; [by vm_compute..|].
  destruct Hc as (_ & _ & [Hc|[Hc _]]); [exact Hc|done].
Defined.

(** A process that may not have another descriptor. *)
Example fd_dropped :
  let '(r1, s1) := sendfd 1 (λ _, "?"%char) 5 5 ScmSim.boot in
  let '(r2, s2) := recvfd 9 4 (TProc (EState [] [] [] 0) (t_os s1)) in
  r1 = Ret 0 ∧ r2 = Ret (-1) ∧ e_errno (t_io s2) = EINVAL.
Proof. by vm_compute. Qed.

Definition sample_creds : ucred := Ucred 77 1000 100.

Lemma build_control_correct_witness :
  ∃ fds s', build_control [cs "b"; cs "a"] sample_creds ScmSim.boot =
      (Ret (encode_cmsgs [rights_msg fds; creds_msg sample_creds]), s') ∧
    Forall2 (open_on (fo_view (t_os s'))) [cs "b"; cs "a"] fds.
Proof.
  pose proof (build_control_correct [cs "b"; cs "a"] sample_creds ScmSim.boot ltac:(by vm_compute)) as H.
  rw /strict in H. destruct (build_control _ _ ScmSim.boot) as [[buf| | | |] s'] eqn:E.
  2-5: exfalso; vm_compute in E; done.
  destruct H as (fds & -> & _ & Hall & _). eauto.
Defined.

Lemma recv_shows_witness :
  let buf := encode_cmsgs [rights_msg [5; 6]; creds_msg sample_creds] in
  ∃ s', show_cmsgs (S (length buf)) 10 buf (CMSG_FIRSTHDR buf) ScmSim.boot = (Ret tt, s') ∧
    sm_tty (t_os s') = cs "efxyz" ∧ v_fds (fo_view (t_os s')) = ∅.
Proof.
  assert (NoDup [5; 6]) as H1 by (by apply (bool_decide_unpack _)).
  assert (Forall in_int [5; 6]) as H2 by (apply Forall_cons; split; [done|]; by apply Forall_singleton).
  assert (Forall2 (left_at (fo_view (t_os ScmSim.boot))) [5; 6] [cs "ef"; cs "xyz"]) as H3.
  { apply Forall2_cons. split; [exists 1%nat, 4%nat, (cs "abcdef"); by split_and!|].
    apply Forall2_cons. split; [exists 2%nat, 0%nat, (cs "xyz"); by split_and!|constructor]. }
  assert (Forall (λ t : list ascii, (length t < 10)%nat) [cs "ef"; cs "xyz"]) as H4.
  { apply Forall_cons. split; [cbn; lia|]. apply Forall_singleton. cbn. lia. }
  assert (ucred_ok sample_creds) as H5 by done.
  pose proof (recv_shows 10 [5; 6] [cs "ef"; cs "xyz"] sample_creds ScmSim.boot H1 H2 ltac:(done) H5 H3 H4) as H.
  cbv zeta in H |- *. rw /strict in H.
  destruct (show_cmsgs _ _ _ _ ScmSim.boot) as [[[]| | | |] s'] eqn:E.
  2-5: exfalso; vm_compute in E; done.
  exists s'. destruct H as ((_ & _ & Hf) & Ht & _). split_and!; [done|exact Ht|]. rw Hf. by vm_compute.
Defined.
