(* ===== verification/PsUser.v ===== *)
(** * Processes of a user: [twelve-one/p_id_cmdn_si.c] and
      [twelve-two/pstree_implementation.c] of chapter 12

    Both programs read the lines of /proc/PID/status into one buffer and cut
    them up in place, so pointers into the buffer outlive the line they were
    taken from.  The buffer is a list of characters, a pointer into it an
    offset, and every access outside it a crash. *)

From S2P Require Import Prelude CStdlib ErrFns GetNum Ugid Tlpi.

Definition TAB : ascii := "009"%char.
(** The size of [line], and what [fgets] stores at most before the null. *)
Definition LINE_SIZE : nat := 128.
Definition PATHNAME_SIZE : nat := 100.
Definition DIRNAME_SIZE : nat := 256.
Definition S_IFMT : Z := 61440.
Definition S_IFREG : Z := 32768.
Definition S_IFDIR : Z := 16384.

(** The file system under /proc, and the user database.  A directory is the
    names [readdir] gives and the error that ends it, 0 at its end; a file is
    the text its stream gives. *)
Class PsOS (K : Type) := {
  po_getpwnam : cstring → option Z;
  po_opendir : cstring → K → res (list cstring * Z) * K;
  po_closedir : K → res unit * K;
  po_stat : cstring → K → res Z * K;
  po_fopen : cstring → K → res (list ascii) * K;
  po_fclose : K → res unit * K;
  po_getpid : K → Z;
}.

(** ** Strings inside a buffer *)

(** The C string at an offset: [None] when it runs out of the buffer. *)
Definition str_at (buf : list ascii) (off : nat) : option cstring :=
  if bool_decide (NUL ∈ drop off buf) then Some (until_nul (drop off buf)) else None.

(** The length of the longest prefix of characters satisfying [p]. *)
Fixpoint strspn (p : ascii → bool) (s : cstring) : nat :=
  match s with
  | [] => O
  | c :: r => if p c then S (strspn p r) else O
  end.

Definition in_set (delim : cstring) (c : ascii) : bool := bool_decide (c ∈ delim).

(** [strtok_r]: the buffer, the token or a null pointer, and [saveptr]. *)
Definition strtok_r (buf : list ascii) (str : option nat) (delim : cstring) (saveptr : nat)
    : option (list ascii * option nat * nat) :=
  let s := default saveptr str in
  t ← str_at buf s ;
  let n := strspn (in_set delim) t in
  let t' := drop n t in
  match t' with
  | [] => Some (buf, None, (s + n)%nat)
  | _ :: _ =>
      let m := strspn (negb ∘ in_set delim) t' in
      if (m =? length t')%nat then Some (buf, Some (s + n)%nat, (s + n + m)%nat)
      else Some (<[(s + n + m)%nat := NUL]> buf, Some (s + n)%nat, (s + n + m + 1)%nat)
  end.

(** The first loop of [trim]; [e] is the offset [p + l]. *)
Fixpoint trim_back (buf : list ascii) (e : nat) : option (list ascii * nat) :=
  match e with
  | O => None
  | S e' =>
      match buf !! e' with
      | None => None
      | Some c => if isspace c then trim_back (<[e' := NUL]> buf) e' else Some (buf, e)
      end
  end.

Definition trim (buf : list ascii) (s : nat) : option (list ascii) :=
  t ← str_at buf s ;
  '(buf, e) ← trim_back buf (s + length t) ;
  t ← str_at buf s ;
  let p := (s + strspn isspace t)%nat in
  (* memmove(s, p, l + 1) where p + l is e *)
  if (e + 1 <? p)%nat then None
  else let n := (e + 1 - p)%nat in
       Some (take s buf ++ take n (drop p buf) ++ drop (s + n) buf).

(** What successive calls of [fgets] with [n + 1] bytes return. *)
Fixpoint fgets_all (n room : nat) (t : list ascii) : list (list ascii) :=
  match t with
  | [] => []
  | c :: t =>
      if bool_decide (c = NL) || (room <=? 1)%nat then [c] :: fgets_all n n t
      else match fgets_all n (room - 1) t with
           | [] => [[c]]
           | l :: ls => (c :: l) :: ls
           end
  end.

(** ** Listing the processes of a user *)

(** The variables of [readfdata]; a null [name] is [None]. *)
Record reading := Reading {
  rd_line : list ascii; rd_token : nat; rd_saveptr : nat;
  rd_pid : Z; rd_name : option nat; rd_realuid : Z }.

(** How a test in the loop ends: with the next one, [continue] or [break]. *)
Inductive flow := Next | Continue | Break.

Section programs.
Context {K : Type} `{!TlpiEnv K, !PsOS K}.
Abbreviation T := (M (tproc K)).

Definition in_buf {A} (o : option A) : T A :=
  match o with None => stop Crash | Some a => mret a end.

(** [(token = strtok_r(str, delim, &saveptr)) == NULL]. *)
Definition next_token (str : option nat) (delim : cstring) (r : reading) : T (flow * reading) :=
  '(line, token, save) ← in_buf (strtok_r (rd_line r) str delim (rd_saveptr r)) ;
  match token with
  | None =>
      tprintf (cs "No token" ++ [NL]) ;;
      mret (Continue, Reading line (rd_token r) save (rd_pid r) (rd_name r) (rd_realuid r))
  | Some t => mret (Next, Reading line t save (rd_pid r) (rd_name r) (rd_realuid r))
  end.

Definition trim_token (r : reading) : T reading :=
  line ← in_buf (trim (rd_line r) (rd_token r)) ;
  mret (Reading line (rd_token r) (rd_saveptr r) (rd_pid r) (rd_name r) (rd_realuid r)).

Definition token_text (r : reading) : T cstring := in_buf (str_at (rd_line r) (rd_token r)).

(** [getInt] clears [errno] before it converts. *)
Definition get_int (t : cstring) (flags : Z) (name : cstring) : T Z :=
  io (set_errno 0) ;; with_stderr (getInt (Some t) flags (Some name)).

Definition and_then (m : T (flow * reading)) (k : reading → T (flow * reading)) : T (flow * reading) :=
  '(f, r) ← m ;
  match f with Next => k r | _ => mret (f, r) end.

Definition ps_pid (r : reading) : T (flow * reading) :=
  t ← token_text r ;
  if negb (bool_decide (t = cs "Pid")) then mret (Next, r) else
  and_then (next_token None (cs ":") r) (λ r,
    r ← trim_token r ;
    t ← token_text r ;
    pid ← get_int t GN_GT_0 (cs "pid") ;
    mret (Next, Reading (rd_line r) (rd_token r) (rd_saveptr r) pid (rd_name r) (rd_realuid r))).

Definition ps_name (r : reading) : T (flow * reading) :=
  t ← token_text r ;
  if negb (bool_decide (t = cs "Name")) then mret (Next, r) else
  and_then (next_token None (cs ":") r) (λ r,
    r ← trim_token r ;
    mret (Next, Reading (rd_line r) (rd_token r) (rd_saveptr r) (rd_pid r) (Some (rd_token r)) (rd_realuid r))).

Definition ps_uid (uid : Z) (r : reading) : T (flow * reading) :=
  t ← token_text r ;
  if negb (bool_decide (t = cs "Uid")) then mret (Next, r) else
  and_then (next_token None (cs ":") r) (λ r,
  and_then (next_token (Some (rd_token r)) [TAB] r) (λ r,
    r ← trim_token r ;
    t ← token_text r ;
    realuid ← get_int t GN_ANY_BASE (cs "realuid") ;
    let r := Reading (rd_line r) (rd_token r) (rd_saveptr r) (rd_pid r) (rd_name r) realuid in
    match rd_name r with
    | Some name =>
        if (uid =? realuid) && negb (rd_pid r =? -1) then
          n ← in_buf (str_at (rd_line r) name) ;
          tprintf (cs "Pid: " ++ fmt_d (rd_pid r) ++ [NL] ++ cs "Name: " ++ n ++ [NL]) ;;
          tprintf [NL; NL] ;;
          mret (Break, r)
        else mret (Next, r)
    | None => mret (Next, r)
    end)).

(** The body of the loop, on a line just read. *)
Definition ps_line (uid : Z) (r : reading) : T (flow * reading) :=
  and_then (next_token (Some 0%nat) (cs ":") r) (λ r,
  and_then (ps_pid r) (λ r, and_then (ps_name r) (ps_uid uid))).

(** [fgets] into [line]. *)
Definition read_line (l : list ascii) (r : reading) : reading :=
  Reading (store (rd_line r) 0 (l ++ [NUL])) (rd_token r) (rd_saveptr r) (rd_pid r) (rd_name r) (rd_realuid r).

Definition all_known (r : reading) : bool :=
  negb (rd_pid r =? -1) && bool_decide (is_Some (rd_name r)) && negb (rd_realuid r =? -1).

Fixpoint ps_lines (uid : Z) (ls : list (list ascii)) (r : reading) : T unit :=
  match ls with
  | [] => mret tt
  | l :: ls =>
      if all_known r then mret tt else
      '(f, r) ← ps_line uid (read_line l r) ;
      match f with Break => mret tt | _ => ps_lines uid ls r end
  end.

(** [junk] is what [line] holds before it is first filled. *)
Definition readfdata (junk : list ascii) (pathname : cstring) (uid : Z) : T unit :=
  fst ← tcall (po_fopen pathname) ;
  match fst with
  | None => e ← errno ; tprintf (te_strerror e ++ cs " " ++ [NL])
  | Some content =>
      ps_lines uid (fgets_all (LINE_SIZE - 1) (LINE_SIZE - 1) content) (Reading junk 0 0 (-1) None (-1)) ;;
      tchecked (cs "close") po_fclose
  end.

Definition ps_entry (junk : list ascii) (uid : Z) (d_name : cstring) : T unit :=
  if bool_decide (d_name = cs "." ∨ d_name = cs "..") then mret tt else
  let pathname := snprintf DIRNAME_SIZE (cs "/proc/" ++ d_name ++ cs "/status") in
  if (PATHNAME_SIZE <=? length pathname)%nat then stop Crash else
  sb ← tcall (po_stat pathname) ;
  match sb with
  | None => e ← errno ; tprintf (te_strerror e ++ cs " @ stat" ++ [NL])
  | Some st_mode =>
      if negb (Z.land st_mode S_IFMT =? S_IFREG) then mret tt else readfdata junk pathname uid
  end.

Definition END_OF_DIR : cstring := [NL; NL] ++ cs "End of dir strean" ++ [NL; NL].

Definition ps_main (junk : list ascii) (argv : list cstring) : T unit :=
  match argv with
  | [prog; user] =>
      if bool_decide (user = cs "--help") then tusageErr (prog ++ cs " username" ++ [NL]) else
      let uid := userIdFromName po_getpwnam (Some user) in
      d ← tcall (po_opendir (cs "/proc/")) ;
      match d with
      | None => texit EXIT_FAILURE
      | Some (names, err) =>
          for_each names (ps_entry junk uid) ;;
          if negb (err =? 0) then io (set_errno err) ;; terrExit (cs "readdir") else
          tprintf END_OF_DIR ;;
          c ← tcall po_closedir ;
          match c with
          | None => texit EXIT_FAILURE
          | Some _ => texit EXIT_SUCCESS
          end
      end
  | prog :: _ => tusageErr (prog ++ cs " username" ++ [NL])
  | [] => stop Crash
  end.

(** ** Scanning for the process tree *)

(** A field with a number: printed as text and as an integer. *)
Definition tree_number (key : string) (name : cstring) (r : reading) : T (flow * reading) :=
  t ← token_text r ;
  if negb (bool_decide (t = cs key)) then mret (Next, r) else
  and_then (next_token None (cs ":") r) (λ r,
    r ← trim_token r ;
    t ← token_text r ;
    n ← get_int t GN_ANY_BASE name ;
    tprintf (cs key ++ cs ": string " ++ t ++ cs " or integer " ++ fmt_d n ++ [NL]) ;;
    mret (Next, r)).

Definition tree_name (r : reading) : T (flow * reading) :=
  t ← token_text r ;
  if negb (bool_decide (t = cs "Name")) then mret (Next, r) else
  and_then (next_token None (cs ":") r) (λ r,
    r ← trim_token r ;
    t ← token_text r ;
    tprintf (cs "Name: " ++ t ++ [NL]) ;;
    mret (Next, r)).

Definition tree_line (r : reading) : T (flow * reading) :=
  and_then (next_token (Some 0%nat) (cs ":") r) (λ r,
  and_then (tree_number "Pid" (cs "pid") r) (λ r,
  and_then (tree_number "PPid" (cs "ppid") r) tree_name)).

Fixpoint tree_lines (ls : list (list ascii)) (r : reading) : T unit :=
  match ls with
  | [] => mret tt
  | l :: ls => '(_, r) ← tree_line (read_line l r) ; tree_lines ls r
  end.

Definition tree_readfdata (junk : list ascii) (pathname : cstring) : T unit :=
  fst ← tcall (po_fopen pathname) ;
  match fst with
  | None => e ← errno ; tprintf (te_strerror e ++ cs " " ++ [NL])
  | Some content =>
      tree_lines (fgets_all (LINE_SIZE - 1) (LINE_SIZE - 1) content) (Reading junk 0 0 (-1) None (-1)) ;;
      tchecked (cs "close") po_fclose ;;
      pid ← gets (po_getpid ∘ t_os) ;
      tprintf (cs "Child Pid: " ++ fmt_d pid ++ [NL])
  end.

Definition PATHNAME_BUF_SIZE : nat := 256.

Fixpoint tree_scan (junk : list ascii) (childPid : Z) (names : list cstring) (dircount : Z) : T unit :=
  match names with
  | [] => mret tt
  | d_name :: names =>
      if bool_decide (d_name = cs "." ∨ d_name = cs "..") then tree_scan junk childPid names dircount else
      let proc_dirname := snprintf PATHNAME_BUF_SIZE (cs "/proc/" ++ d_name) in
      sb ← tcall (po_stat proc_dirname) ;
      match sb with
      | None =>
          e ← errno ;
          tprintf (cs "stat proc_dirname: " ++ proc_dirname ++ cs " " ++ [TAB] ++ cs "Error: " ++ te_strerror e ++ [NL]) ;;
          tree_scan junk childPid names dircount
      | Some st_mode =>
          if negb (Z.land st_mode S_IFMT =? S_IFDIR) then tree_scan junk childPid names dircount else
          let pathname := snprintf PATHNAME_BUF_SIZE (proc_dirname ++ cs "/status") in
          sb ← tcall (po_stat pathname) ;
          match sb with
          | None =>
              e ← errno ;
              tprintf (cs "stat pathname: " ++ pathname ++ cs " " ++ [TAB] ++ cs "Error: " ++ te_strerror e ++ [NL]) ;;
              tree_scan junk childPid names dircount
          | Some st_mode =>
              if negb (Z.land st_mode S_IFMT =? S_IFREG) then tree_scan junk childPid names dircount else
              tprintf (pathname ++ [NL]) ;;
              when (dircount =? 20) (tprintf (cs "Child Pid: " ++ fmt_d childPid ++ [NL])) ;;
              tree_readfdata junk pathname ;;
              tprintf [NL] ;;
              tree_scan junk childPid names (dircount + 1)
          end
      end
  end.

(** From the loop over the directory on: [errno] is what any call of the loop
    left, when [readdir] itself did not fail. *)
Definition tree_rest (junk : list ascii) (childPid : Z) (names : list cstring) (err : Z) : T unit :=
  io (set_errno 0) ;;
  tree_scan junk childPid names 0 ;;
  when (negb (err =? 0)) (io (set_errno err)) ;;
  e ← errno ;
  if e =? 0 then
    tprintf END_OF_DIR ;;
    tchecked (cs "closedir") po_closedir ;;
    texit EXIT_SUCCESS
  else terrExit (cs "readdir").
End programs.

(** ** Cutting up a line *)

Lemma str_at_app a t z : NUL ∉ t → str_at (a ++ t ++ NUL :: z) (length a) = Some t.
Proof.
  intros Ht. rw /str_at drop_app_length bool_decide_true; [set_solver|]. by rw until_nul_app.
Qed.

Lemma strspn_all p t r :
  Forall (λ c, p c = true) t → (∀ c r', r = c :: r' → p c = false) → strspn p (t ++ r) = length t.
Proof.
  elim: t => [|c t IH] Ht Hr; cbn [app strspn].
  - destruct r as [|c r]; [done|]. cbn [strspn]. by rw (Hr c r).
  - apply Forall_cons in Ht as [-> Ht]. by rw IH.
Qed.

(** A token, after delimiters [ds], ended by the delimiter [c]. *)
Lemma strtok_cut a ds t c r z delim sv :
  Forall (λ c, c ∈ delim) ds → t ≠ [] → Forall (λ c, c ∉ delim) t → c ∈ delim → NUL ∉ delim →
  NUL ∉ t → NUL ∉ r →
  strtok_r (a ++ ds ++ t ++ c :: r ++ NUL :: z) (Some (length a)) delim sv =
    Some (a ++ ds ++ t ++ NUL :: r ++ NUL :: z, Some (length a + length ds)%nat,
          (length a + length ds + length t + 1)%nat).
Proof.
  intros Hds Hne Ht Hc Hn Hnt Hnr. rw /strtok_r. change (default sv (Some (length a))) with (length a).
  assert (NUL ∉ ds ++ t ++ c :: r) as Hnul.
  { rw !not_elem_of_app not_elem_of_cons. split_and!; try done; [|by intros <-].
    intros Hin. apply Hn. by apply (proj1 (Forall_forall _ _) Hds). }
  assert (str_at (a ++ ds ++ t ++ c :: r ++ NUL :: z) (length a) = Some (ds ++ t ++ c :: r)) as ->.
  { rw -(str_at_app a _ z Hnul) -!app_assoc //. }
  cbn [mbind option_bind]. rw (strspn_all _ ds).
  { eapply Forall_impl; [exact Hds|]. intros x Hx. by apply bool_decide_true. }
  { intros x r' Ex. destruct t as [|y t]; [done|]. injection Ex as <- _.
    apply Forall_cons in Ht as [Hy _]. by apply bool_decide_false. }
  cbv zeta. rw drop_app_length (strspn_all _ t).
  { eapply Forall_impl; [exact Ht|]. intros x Hx. cbn. by rw /in_set bool_decide_false. }
  { intros x r' [= <- _]. cbn. by rw /in_set bool_decide_true. }
  rw (proj2 (Nat.eqb_neq _ _)); [rw length_app /=; lia|].
  destruct (t ++ c :: r) as [|y t'] eqn:Et; [by destruct t|]. do 3 f_equal.
  rw (app_assoc a) (app_assoc (a ++ ds)) insert_app_r_alt; [rw !length_app; lia|].
  rw -!app_assoc !length_app.
  replace (length a + length ds + length t - (length a + (length ds + length t)))%nat with 0%nat by lia.
  done.
Qed.

(** The last token of a string. *)
Lemma strtok_last a ds t z delim sv :
  Forall (λ c, c ∈ delim) ds → t ≠ [] → Forall (λ c, c ∉ delim) t → NUL ∉ delim → NUL ∉ t →
  strtok_r (a ++ ds ++ t ++ NUL :: z) (Some (length a)) delim sv =
    Some (a ++ ds ++ t ++ NUL :: z, Some (length a + length ds)%nat, (length a + length ds + length t)%nat).
Proof.
  intros Hds Hne Ht Hn Hnt. rw /strtok_r. change (default sv (Some (length a))) with (length a).
  assert (NUL ∉ ds ++ t) as Hnul.
  { rw not_elem_of_app. split; [|done]. intros Hin. apply Hn. by apply (proj1 (Forall_forall _ _) Hds). }
  assert (str_at (a ++ ds ++ t ++ NUL :: z) (length a) = Some (ds ++ t)) as ->.
  { rw -(str_at_app a _ z Hnul) -!app_assoc //. }
  cbn [mbind option_bind]. rw (strspn_all _ ds).
  { eapply Forall_impl; [exact Hds|]. intros x Hx. by apply bool_decide_true. }
  { intros x r' Ex. destruct t as [|y t]; [done|]. injection Ex as <- _.
    apply Forall_cons in Ht as [Hy _]. by apply bool_decide_false. }
  cbv zeta. rw drop_app_length.
  assert (strspn (negb ∘ in_set delim) t = length t) as ->.
  { rw -{1}(app_nil_r t). apply strspn_all; [|done]. eapply Forall_impl; [exact Ht|].
    intros x Hx. cbn. by rw /in_set bool_decide_false. }
  rw Nat.eqb_refl. by destruct t.
Qed.

Lemma trim_back_spaces x sp y :
  Forall (λ c, isspace c = true) sp →
  trim_back (x ++ sp ++ y) (length x + length sp) = trim_back (x ++ replicate (length sp) NUL ++ y) (length x).
Proof.
  revert y. induction sp as [|c sp IH] using rev_ind; intros y Hsp; [by rw Nat.add_0_r|].
  apply Forall_app in Hsp as [Hsp Hc]. apply Forall_cons in Hc as [Hc _].
  rw length_app /= Nat.add_1_r Nat.add_succ_r. cbn [trim_back].
  rw -!app_assoc (app_assoc x) lookup_app_r; [rw length_app; lia|].
  rw length_app Nat.sub_diag /= Hc insert_app_r_alt; [rw length_app; lia|].
  rw length_app Nat.sub_diag /= -app_assoc IH //. do 3 f_equal.
  change (NUL :: replicate (length sp) NUL ++ y) with (replicate (S (length sp)) NUL ++ y).
  rw replicate_S_end -app_assoc //.
Qed.

(** [trim] strips the white space around a text, in place. *)
Lemma trim_text a sp1 t sp2 z :
  Forall (λ c, isspace c = true) sp1 → Forall (λ c, isspace c = true) sp2 → NUL ∉ t →
  (∀ c r, t = c :: r → isspace c = false) → (∃ r c, t = r ++ [c] ∧ isspace c = false) →
  ∃ z', trim (a ++ sp1 ++ t ++ sp2 ++ NUL :: z) (length a) = Some (a ++ t ++ NUL :: z') ∧
    length (a ++ t ++ NUL :: z') = length (a ++ sp1 ++ t ++ sp2 ++ NUL :: z).
Proof.
  intros H1 H2 Hn Hfst (r & c & Et & Hc).
  assert (∀ sp, Forall (λ c, isspace c = true) sp → NUL ∉ sp) as Hsp.
  { intros sp Hs Hin. by apply (proj1 (Forall_forall _ _) Hs) in Hin. }
  rw /trim.
  assert (str_at (a ++ sp1 ++ t ++ sp2 ++ NUL :: z) (length a) = Some (sp1 ++ t ++ sp2)) as ->.
  { rw -(str_at_app a (sp1 ++ t ++ sp2) z) -?app_assoc //. rw !not_elem_of_app. auto. }
  cbn [mbind option_bind].
  assert (trim_back (a ++ sp1 ++ t ++ sp2 ++ NUL :: z) (length a + length (sp1 ++ t ++ sp2)) =
    Some (a ++ sp1 ++ t ++ replicate (length sp2) NUL ++ NUL :: z, length a + length sp1 + length t)%nat) as ->.
  { rw (app_assoc a) (app_assoc (a ++ sp1)).
    replace (length a + length (sp1 ++ t ++ sp2))%nat with (length ((a ++ sp1) ++ t) + length sp2)%nat
      by (rw !length_app; lia).
    rw trim_back_spaces // !length_app Et length_app /= Nat.add_1_r Nat.add_succ_r. cbn [trim_back].
    rw -!app_assoc (app_assoc a) (app_assoc (a ++ sp1)) lookup_app_r; [rw !length_app; lia|].
    rw !length_app Nat.sub_diag /= Hc -!app_assoc //. }
  cbn [mbind option_bind].
  assert (∃ z1, replicate (length sp2) NUL ++ NUL :: z = NUL :: z1 ∧ length z1 = (length sp2 + length z)%nat)
    as (z1 & -> & Hz1).
  { destruct (length sp2) as [|k]; [by exists z|]. exists (replicate k NUL ++ NUL :: z). cbn.
    by rw length_app length_replicate /= Nat.add_succ_r. }
  assert (str_at (a ++ sp1 ++ t ++ NUL :: z1) (length a) = Some (sp1 ++ t)) as ->.
  { rw -(str_at_app a (sp1 ++ t) z1) -?app_assoc //. rw !not_elem_of_app. auto. }
  cbn [mbind option_bind]. rw strspn_all //.
  rw (proj2 (Nat.ltb_ge _ _)); [lia|].
  replace (length a + length sp1 + length t + 1 - (length a + length sp1))%nat with (length (t ++ [NUL]))
    by (rw length_app /=; lia).
  rw take_app_length.
  assert (drop (length a + length sp1) (a ++ sp1 ++ t ++ NUL :: z1) = (t ++ [NUL]) ++ z1) as ->.
  { rw app_assoc -length_app drop_app_length -app_assoc //. }
  rw take_app_length. eexists. split; [rw -app_assoc; reflexivity|].
  rw !length_app /= length_drop !length_app /= Hz1. lia.
Qed.

(** ** Status files *)

Definition field (kv : cstring * cstring) : list ascii := kv.1 ++ ":"%char :: kv.2 ++ [NL].

Definition field_wf (kv : cstring * cstring) : Prop :=
  kv.1 ≠ [] ∧ (":"%char ∉ kv.1) ∧ (NUL ∉ kv.1) ∧ (NL ∉ kv.1) ∧ (NUL ∉ kv.2) ∧ (NL ∉ kv.2) ∧
  (length (field kv) < LINE_SIZE)%nat.

Lemma fgets_line n l rest room :
  NL ∉ l → (length l < room)%nat → fgets_all n room (l ++ NL :: rest) = (l ++ [NL]) :: fgets_all n n rest.
Proof.
  elim: l room => [|c l IH] room Hn Hl; [done|]. cbn -[Nat.leb Nat.sub].
  apply not_elem_of_cons in Hn as [Hc Hn]. cbn [length] in Hl.
  rw bool_decide_false; [by apply not_eq_sym|]. rw (proj2 (Nat.leb_gt _ _)) /=; [lia|].
  rw IH //. lia.
Qed.

Lemma fgets_fields kvs rest :
  Forall field_wf kvs →
  fgets_all (LINE_SIZE - 1) (LINE_SIZE - 1) (concat (field <$> kvs) ++ rest) =
    (field <$> kvs) ++ fgets_all (LINE_SIZE - 1) (LINE_SIZE - 1) rest.
Proof.
  elim: kvs => [|kv kvs IH] Hw; [done|]. apply Forall_cons in Hw as [(_ & _ & _ & H1 & _ & H2 & Hl) Hw].
  cbn [fmap list_fmap concat]. rw /field -!app_assoc /= -!app_assoc.
  assert (∀ x, kv.1 ++ ":"%char :: kv.2 ++ NL :: x = (kv.1 ++ ":"%char :: kv.2) ++ NL :: x) as E
    by (intros x; by rw -app_assoc).
  rw (E []) E fgets_line.
  - rw not_elem_of_app not_elem_of_cons. by split_and!.
  - rw /field !length_app /= !length_app /= in Hl. rw length_app /= /LINE_SIZE. rw /LINE_SIZE in Hl. lia.
  - rw -IH // -!app_assoc //.
Qed.

Section reading.
Context {K : Type} `{!TlpiEnv K, !PsOS K}.
Implicit Types (s : tproc K) (r : reading).
Abbreviation output s := (e_stdout (t_io s) ++ e_buffered (t_io s)).

(** Up to [errno], [s'] is [s] with [t] printed. *)
Definition printed (t : cstring) s s' : Prop :=
  t_os s' = t_os s ∧ e_stdout (t_io s') = e_stdout (t_io s) ∧
  e_buffered (t_io s') = e_buffered (t_io s) ++ t ∧ e_stderr (t_io s') = e_stderr (t_io s).

Lemma printed_nil s : printed [] s s.
Proof. rw /printed app_nil_r //. Qed.

Lemma printed_app t1 t2 s s1 s2 : printed t1 s s1 → printed t2 s1 s2 → printed (t1 ++ t2) s s2.
Proof.
  intros (A1 & A2 & A3 & A4) (B1 & B2 & B3 & B4). rw /printed B1 B2 B3 B4 A1 A2 A3 A4 -app_assoc //.
Qed.

(** The first token of a line is its key. *)
Lemma first_token kv r s :
  field_wf kv → length (rd_line r) = LINE_SIZE →
  ∃ z, next_token (Some 0%nat) (cs ":") (read_line (field kv) r) s =
      (Ret (Next, Reading (kv.1 ++ NUL :: kv.2 ++ NL :: NUL :: z) 0 (length kv.1 + 1)
                    (rd_pid r) (rd_name r) (rd_realuid r)), s) ∧
    length (kv.1 ++ NUL :: kv.2 ++ NL :: NUL :: z) = LINE_SIZE.
Proof.
  intros (Hne & Hc & H1 & _ & H2 & _ & Hl) Hr. exists (drop (length (field kv) + 1) (rd_line r)).
  rw /next_token /read_line /=.
  assert (store (rd_line r) 0 (field kv ++ [NUL]) =
    [] ++ [] ++ kv.1 ++ ":"%char :: (kv.2 ++ [NL]) ++ NUL :: drop (length (field kv) + 1) (rd_line r)) as ->.
  { rw /store /field !length_app /= -!app_assoc /= -!app_assoc //. }
  change 0%nat with (length (@nil ascii)) at 1. rw (strtok_cut [] []) //.
  - eapply Forall_impl; [apply Forall_forall; exact (λ x Hx, Hx)|]. intros x Hx.
    cbn. rw list_elem_of_singleton. by intros ->.
  - by apply list_elem_of_singleton.
  - cbn. by rw list_elem_of_singleton.
  - rw not_elem_of_app list_elem_of_singleton. by split.
  - split; [by rw -!app_assoc|].
    rw length_app /= !length_app /= length_drop Hr. rw /field !length_app /= !length_app /= in Hl |- *. lia.
Qed.

(** Text without white space around it, as values are after [trim]. *)
Definition trimmed (t : cstring) : Prop :=
  (NUL ∉ t) ∧ (∀ c t', t = c :: t' → isspace c = false) ∧ (∃ t' c, t = t' ++ [c] ∧ isspace c = false).

(** The rest of the line as the next token, stripped. *)
Lemma value_token key sp t z tk pid nm ru (k : reading → M (tproc K) (flow * reading)) s :
  Forall (λ c, isspace c = true) sp → trimmed t → ":"%char ∉ t → ":"%char ∉ sp →
  ∃ z' sv, and_then (next_token None (cs ":") (Reading (key ++ NUL :: (sp ++ t) ++ NL :: NUL :: z) tk
             (length key + 1) pid nm ru)) (λ r, r ← trim_token r ; k r) s =
    k (Reading (key ++ NUL :: t ++ NUL :: z') (length key + 1) sv pid nm ru) s ∧
    length (key ++ NUL :: t ++ NUL :: z') = length (key ++ NUL :: (sp ++ t) ++ NL :: NUL :: z).
Proof.
  intros Hsp (Hn & Hf & Hl) Hc Hcs.
  assert (NUL ∉ sp) as Hnsp by (intros Hin; by apply (proj1 (Forall_forall _ _) Hsp) in Hin).
  assert (∀ x, length (x ++ [NUL]) = length x + 1)%nat as Ha by (intros x; by rw length_app).
  destruct (trim_text (key ++ [NUL]) sp t [NL] z) as (z' & Ht & Hlen); try done;
    [by repeat constructor|].
  exists z'. eexists. split; [|by rw -!app_assoc /= in Hlen; rw Hlen -!app_assoc //].
  rw /and_then /next_token /mbind /M_bind. cbn [rd_line rd_saveptr rd_pid rd_name rd_realuid rd_token].
  assert (strtok_r (key ++ NUL :: (sp ++ t) ++ NL :: NUL :: z) None (cs ":") (length key + 1) =
    Some ((key ++ [NUL]) ++ [] ++ (sp ++ t ++ [NL]) ++ NUL :: z, Some (length (key ++ [NUL]) + 0)%nat,
      (length (key ++ [NUL]) + 0 + length (sp ++ t ++ [NL]))%nat)) as ->.
  { rw -(strtok_last (key ++ [NUL]) [] _ z (cs ":") 0).
    - constructor.
    - by destruct sp; destruct t.
    - apply Forall_forall. intros x Hx Hin. cbn in Hin. rw list_elem_of_singleton in Hin. subst x.
      rw !elem_of_app list_elem_of_singleton in Hx. naive_solver.
    - cbn. by rw list_elem_of_singleton.
    - rw !not_elem_of_app list_elem_of_singleton. by split_and!.
    - rw /strtok_r Ha /=. by rw -!app_assoc. }
  cbn [in_buf mret M_ret]. rw /trim_token /mbind /M_bind. cbn [rd_line rd_saveptr rd_pid rd_name rd_realuid rd_token].
  rw Nat.add_0_r app_nil_l -!(app_assoc sp) -!app_assoc in Ht |- *. cbn [app] in Ht |- *.
  rw Ht. cbn [in_buf mret M_ret]. rw Ha. done.
Qed.

Lemma token_at a t z tk sv pid nm ru s :
  NUL ∉ t → tk = length a →
  token_text (Reading (a ++ t ++ NUL :: z) tk sv pid nm ru) s = (Ret t, s).
Proof. intros Hn ->. by rw /token_text /= str_at_app. Qed.

(** A text that [getInt] accepts as [v]. *)
Definition int_text (flags : Z) (t : cstring) (v : Z) : Prop :=
  ∀ name err, getInt (Some t) flags (Some name) err = (Ret v, err).

Lemma get_int_text flags t v name s :
  int_text flags t v → ∃ s', get_int t flags name s = (Ret v, s') ∧ printed [] s s'.
Proof.
  intros H. rw /get_int /with_stderr /io /mbind /M_bind /=. rw H. eexists. split; [reflexivity|].
  rw /printed app_nil_r //.
Qed.

Definition known_keys : list cstring := [cs "Pid"; cs "Name"; cs "Uid"].

Lemma and_then_next (m : M (tproc K) (flow * reading)) k s r s' :
  m s = (Ret (Next, r), s') → and_then m k s = k r s'.
Proof. intros H. by rw /and_then (bind_Ret _ _ _ _ _ H). Qed.

(** A test for another key falls through. *)
Lemma key_skip r s t key (m : M (tproc K) (flow * reading)) :
  token_text r s = (Ret t, s) → t ≠ key →
  (t ← token_text r ; if negb (bool_decide (t = key)) then mret (Next, r) else m) s = (Ret (Next, r), s).
Proof. intros H Hk. rw (bind_Ret _ _ _ _ _ H) bool_decide_false //. Qed.

Lemma key_found r s key (m : M (tproc K) (flow * reading)) :
  token_text r s = (Ret key, s) →
  (t ← token_text r ; if negb (bool_decide (t = key)) then mret (Next, r) else m) s = m s.
Proof. intros H. rw (bind_Ret _ _ _ _ _ H) bool_decide_true //. Qed.

(** The buffer and the variables after a line. *)
Definition kept (pid : Z) (nm : option nat) (ru : Z) r : Prop :=
  length (rd_line r) = LINE_SIZE ∧ rd_pid r = pid ∧ rd_name r = nm ∧ rd_realuid r = ru.

(** The line of another field changes nothing but the buffer. *)
Lemma ps_other uid kv pid nm ru r s :
  field_wf kv → kv.1 ∉ known_keys → kept pid nm ru r →
  ∃ r', ps_line uid (read_line (field kv) r) s = (Ret (Next, r'), s) ∧ kept pid nm ru r'.
Proof.
  intros Hw Hk (Hr & <- & <- & <-). destruct (first_token kv r s Hw Hr) as (z & Hf & Hl).
  destruct Hw as (_ & _ & H1 & _). rw /known_keys !not_elem_of_cons in Hk. destruct Hk as (K1 & K2 & K3 & _).
  eexists (Reading _ _ _ _ _ _). split; [|split_and!; [exact Hl|reflexivity..]].
  rw /ps_line (and_then_next _ _ _ _ _ Hf).
  pose proof (token_at [] kv.1 (kv.2 ++ NL :: NUL :: z) 0 (length kv.1 + 1) (rd_pid r) (rd_name r)
    (rd_realuid r) s H1 eq_refl) as Ht. cbn [app] in Ht.
  rw (and_then_next _ _ _ _ _ (key_skip _ _ _ _ _ Ht K1)) (and_then_next _ _ _ _ _ (key_skip _ _ _ _ _ Ht K2)).
  exact (key_skip _ _ _ _ _ Ht K3).
Qed.

(** A test for the key of the line goes on with its value. *)
Lemma key_value key sp t z pid nm ru (k : reading → M (tproc K) (flow * reading)) s :
  NUL ∉ key → Forall (λ c, isspace c = true) sp → trimmed t → ":"%char ∉ t → ":"%char ∉ sp →
  let r0 := Reading (key ++ NUL :: (sp ++ t) ++ NL :: NUL :: z) 0 (length key + 1) pid nm ru in
  ∃ r, (t ← token_text r0 ; if negb (bool_decide (t = key)) then mret (Next, r0) else
          and_then (next_token None (cs ":") r0) (λ r, r ← trim_token r ; k r)) s = k r s ∧
    (∀ s, token_text r s = (Ret t, s)) ∧ rd_token r = (length key + 1)%nat ∧
    length (rd_line r) = length (rd_line r0) ∧ rd_pid r = pid ∧ rd_name r = nm ∧ rd_realuid r = ru.
Proof.
  intros Hn Hsp Ht Hc Hcs r0. 
  destruct (value_token key sp t z 0 pid nm ru k s Hsp Ht Hc Hcs) as (z' & sv & Hval & Hlen).
  exists (Reading (key ++ NUL :: t ++ NUL :: z') (length key + 1) sv pid nm ru).
  split; [|split_and!; [|reflexivity|exact Hlen|reflexivity..]].
  - rw key_found; [exact (token_at [] key _ 0 _ pid nm ru s Hn eq_refl)|]. exact Hval.
  - intros s'. rw -(token_at (key ++ [NUL]) t z' (length key + 1) sv pid nm ru s' (proj1 Ht)) ?length_app //.
    by rw -app_assoc.
Qed.

(** The line of the process ID sets it. *)
Lemma ps_pid_line uid t v nm ru r s :
  field_wf (cs "Pid", TAB :: t) → trimmed t → ":"%char ∉ t → int_text GN_GT_0 t v → kept (-1) nm ru r →
  ∃ r' s', ps_line uid (read_line (field (cs "Pid", TAB :: t)) r) s = (Ret (Next, r'), s') ∧
    kept v nm ru r' ∧ printed [] s s'.
Proof.
  intros Hw Ht Hc Hv (Hr & _ & <- & <-). destruct (first_token _ r s Hw Hr) as (z & Hf & Hl).
  cbn [fst snd] in Hf, Hl.
  destruct (key_value (cs "Pid") [TAB] t z (rd_pid r) (rd_name r) (rd_realuid r)
    (λ r, t ← token_text r ; pid ← get_int t GN_GT_0 (cs "pid") ;
          mret (Next, Reading (rd_line r) (rd_token r) (rd_saveptr r) pid (rd_name r) (rd_realuid r))) s)
    as (r1 & H1 & Htk & Etk & Hlen & _ & Enm & Eru);
    [by apply nul_free_spec|by repeat constructor|done..|by rw list_elem_of_singleton|].
  destruct (get_int_text GN_GT_0 t v (cs "pid") s Hv) as (s' & Hg & Hp).
  rw (bind_Ret _ _ _ _ _ (Htk s)) (bind_Ret _ _ _ _ _ Hg) in H1.
  assert (t ≠ cs "Name") as N1 by (intros ->; specialize (Hv [] []); by vm_compute in Hv).
  assert (t ≠ cs "Uid") as N2 by (intros ->; specialize (Hv [] []); by vm_compute in Hv).
  rw /ps_line (and_then_next _ _ _ _ _ Hf) (and_then_next _ _ _ _ _ H1).
  assert (token_text (Reading (rd_line r1) (rd_token r1) (rd_saveptr r1) v (rd_name r1) (rd_realuid r1)) s' =
    (Ret t, s')) as Ht' by (exact (Htk s')).
  rw (and_then_next _ _ _ _ _ (key_skip _ _ _ _ _ Ht' N1)).
  eexists _, s'. split; [exact (key_skip _ _ _ _ _ Ht' N2)|].
  split; [|done]. split_and!; [by rw /= Hlen|done..].
Qed.

(** The line of the name sets the pointer, to offset 5 of the buffer. *)
Lemma ps_name_line uid t pid ru r s :
  field_wf (cs "Name", TAB :: t) → trimmed t → ":"%char ∉ t → t ≠ cs "Uid" → kept pid None ru r →
  ∃ r', ps_line uid (read_line (field (cs "Name", TAB :: t)) r) s = (Ret (Next, r'), s) ∧
    kept pid (Some 5%nat) ru r'.
Proof.
  intros Hw Ht Hc Hu (Hr & <- & _ & <-). destruct (first_token _ r s Hw Hr) as (z & Hf & Hl).
  cbn [fst snd] in Hf, Hl.
  destruct (key_value (cs "Name") [TAB] t z (rd_pid r) (rd_name r) (rd_realuid r)
    (λ r, mret (Next, Reading (rd_line r) (rd_token r) (rd_saveptr r) (rd_pid r) (Some (rd_token r))
                        (rd_realuid r))) s)
    as (r1 & H1 & Htk & Etk & Hlen & Epid & _ & Eru);
    [by apply nul_free_spec|by repeat constructor|done..|by rw list_elem_of_singleton|].
  rw /ps_line (and_then_next _ _ _ _ _ Hf).
  pose proof (token_at [] (cs "Name") ((TAB :: t) ++ NL :: NUL :: z) 0 (length (cs "Name") + 1) (rd_pid r)
    (rd_name r) (rd_realuid r) s ltac:(by apply nul_free_spec) eq_refl) as Hk. cbn [app] in Hk.
  assert (cs "Name" ≠ cs "Pid") as N by done.
  rw (and_then_next _ _ _ _ _ (key_skip _ _ _ _ _ Hk N)) (and_then_next _ _ _ _ _ H1).
  assert (token_text (Reading (rd_line r1) (rd_token r1) (rd_saveptr r1) (rd_pid r1) (Some (rd_token r1))
    (rd_realuid r1)) s = (Ret t, s)) as Ht' by (exact (Htk s)).
  eexists. split; [exact (key_skip _ _ _ _ _ Ht' Hu)|].
  split_and!; [by rw /= Hlen|done|by rw /= Etk|done].
Qed.

(** The tokens of the line of the user ID: the first number, stripped, at
    offset 5. *)
Lemma uid_tokens u rest z :
  let b := cs "Uid" ++ NUL :: (TAB :: u ++ TAB :: rest) ++ NL :: NUL :: z in
  trimmed u → ":"%char ∉ u → ":"%char ∉ rest → NUL ∉ rest → TAB ∉ u →
  ∃ b2 sv1 sv2 z', strtok_r b None (cs ":") 4 = Some (b, Some 4%nat, sv1) ∧
    strtok_r b (Some 4%nat) [TAB] sv1 = Some (b2, Some 5%nat, sv2) ∧
    trim b2 5 = Some (cs "Uid" ++ NUL :: TAB :: u ++ NUL :: z') ∧
    length (cs "Uid" ++ NUL :: TAB :: u ++ NUL :: z') = length b.
Proof.
  intros b (Hnu & Hfst & Hlst) Hc Hcr Hnr Htab. set (z1 := rest ++ NL :: NUL :: z).
  exists (cs "Uid" ++ NUL :: TAB :: u ++ NUL :: z1).
  exists (4 + length (TAB :: u ++ TAB :: rest ++ [NL]))%nat, (5 + length u + 1)%nat.
  destruct (trim_text (cs "Uid" ++ NUL :: [TAB]) [] u [] z1) as (z' & Htr & Hlen); try done.
  exists z'. split_and!.
  - pose proof (strtok_last (cs "Uid" ++ [NUL]) [] (TAB :: u ++ TAB :: rest ++ [NL]) z (cs ":") 0) as H.
    do 3 rw -?app_assoc /= in H. rw /b -?app_assoc /= -?app_assoc /=. apply H; try done.
    + apply Forall_forall. intros x Hx Hin. rw list_elem_of_singleton in Hin. subst x.
      rw elem_of_cons elem_of_app elem_of_cons elem_of_app list_elem_of_singleton in Hx. naive_solver.
    + rw list_elem_of_singleton //.
    + rw not_elem_of_cons not_elem_of_app not_elem_of_cons not_elem_of_app list_elem_of_singleton. by split_and!.
  - pose proof (λ sv, strtok_cut (cs "Uid" ++ [NUL]) [TAB] u TAB (rest ++ [NL]) z [TAB] sv) as H.
    do 3 rw -?app_assoc /= in H. rw /b /z1 -?app_assoc /= -?app_assoc /=. apply H; try done.
    + by apply Forall_singleton, list_elem_of_singleton.
    + intros ->. by destruct Hlst as ([] & ? & ? & _).
    + apply Forall_forall. intros x Hx. rw list_elem_of_singleton. by intros ->.
    + by apply list_elem_of_singleton.
    + by rw list_elem_of_singleton.
    + rw not_elem_of_app list_elem_of_singleton. by split.
  - exact Htr.
  - rw -?app_assoc /= in Hlen. cbn. rw Hlen /b /z1 /= !length_app /= !length_app /=. lia.
Qed.

Lemma next_token_found str delim r s b t sv :
  strtok_r (rd_line r) str delim (rd_saveptr r) = Some (b, Some t, sv) →
  next_token str delim r s = (Ret (Next, Reading b t sv (rd_pid r) (rd_name r) (rd_realuid r)), s).
Proof. intros E. by rw /next_token E. Qed.

Lemma trim_token_ok r s b :
  trim (rd_line r) (rd_token r) = Some b →
  trim_token r s = (Ret (Reading b (rd_token r) (rd_saveptr r) (rd_pid r) (rd_name r) (rd_realuid r)), s).
Proof. intros E. by rw /trim_token E. Qed.

(** What the line of the user ID prints. *)
Definition shown (pid : Z) (name : cstring) : cstring :=
  cs "Pid: " ++ fmt_d pid ++ [NL] ++ cs "Name: " ++ name ++ [NL] ++ [NL; NL].

(** The line of the user ID: where the name is to be printed, the buffer now
    holds the text of the user ID. *)
Lemma ps_uid_line uid u v rest pid r s :
  let kv := (cs "Uid", TAB :: u ++ TAB :: rest) in
  field_wf kv → trimmed u → ":"%char ∉ u → ":"%char ∉ rest → TAB ∉ u → int_text GN_ANY_BASE u v →
  pid ≠ -1 → kept pid (Some 5%nat) (-1) r →
  ∃ f r' s', ps_line uid (read_line (field kv) r) s = (Ret (f, r'), s') ∧
    printed (if uid =? v then shown pid u else []) s s' ∧ kept pid (Some 5%nat) v r' ∧
    f = if uid =? v then Break else Next.
Proof.
  intros kv Hw Ht Hc Hcr Htab Hv Hpid (Hr & <- & Hnm & Hru).
  destruct (first_token _ r s Hw Hr) as (z & Hf & Hl). cbn [fst snd kv] in Hf, Hl.
  assert (NUL ∉ rest) as Hnr.
  { destruct Hw as (_ & _ & _ & _ & Hn2 & _ & _). cbn in Hn2. rw not_elem_of_cons not_elem_of_app in Hn2.
    destruct Hn2 as (_ & _ & Hn2). by apply not_elem_of_cons in Hn2 as [_ Hn2]. }
  destruct (uid_tokens u rest z Ht Hc Hcr Hnr Htab) as (b2 & sv1 & sv2 & z' & E1 & E2 & E3 & Hlen).
  pose proof (token_at [] (cs "Uid") ((TAB :: u ++ TAB :: rest) ++ NL :: NUL :: z) 0 (length (cs "Uid") + 1)
    (rd_pid r) (rd_name r) (rd_realuid r) s ltac:(by apply nul_free_spec) eq_refl) as Hk. cbn [app] in Hk.
  assert (cs "Uid" ≠ cs "Pid") as N1 by done. assert (cs "Uid" ≠ cs "Name") as N2 by done.
  rw /ps_line (and_then_next _ _ _ _ _ Hf).
  rw (and_then_next _ _ _ _ _ (key_skip _ _ _ _ _ Hk N1)) (and_then_next _ _ _ _ _ (key_skip _ _ _ _ _ Hk N2)).
  rw /ps_uid key_found //.
  rw (and_then_next _ _ _ _ _ (next_token_found _ _ (Reading _ _ _ _ _ _) _ _ _ _ E1)).
  rw (and_then_next _ _ _ _ _ (next_token_found _ _ (Reading _ _ _ _ _ _) _ _ _ _ E2)).
  rw (bind_Ret _ _ _ _ _ (trim_token_ok (Reading _ _ _ _ _ _) _ _ E3)). cbn [rd_token rd_saveptr rd_pid rd_name rd_realuid].
  pose proof (token_at (cs "Uid" ++ NUL :: [TAB]) u z' 5 sv2 (rd_pid r) (rd_name r) (rd_realuid r) s (proj1 Ht) eq_refl)
    as Hk1. rw -app_assoc /= in Hk1. rw (bind_Ret _ _ _ _ _ Hk1).
  destruct (get_int_text GN_ANY_BASE u v (cs "realuid") s Hv) as (s1 & Hg & Hp).
  rw (bind_Ret _ _ _ _ _ Hg). cbn [rd_line rd_token rd_saveptr rd_pid rd_name rd_realuid]. rw Hnm.
  rw (proj2 (Z.eqb_neq _ _) Hpid) andb_true_r.
  assert (kept (rd_pid r) (Some 5%nat) v (Reading (cs "Uid" ++ NUL :: TAB :: u ++ NUL :: z') 5 sv2 (rd_pid r)
    (Some 5%nat) v)) as Hkept by (split_and!; [by rw -Hl -Hlen|done..]).
  destruct (uid =? v); [|by eexists _, _, s1].
  assert (str_at (cs "Uid" ++ NUL :: TAB :: u ++ NUL :: z') 5 = Some u) as ->.
  { rw -(str_at_app (cs "Uid" ++ NUL :: [TAB]) u z' (proj1 Ht)) -app_assoc //. }
  eexists _, _, _. split; [reflexivity|]. split; [|done]. rw /shown.
  destruct Hp as (P1 & P2 & P3 & P4). rw app_nil_r in P3. split_and!; [done..| |done].
  cbn [t_io e_buffered]. rw P3 -!app_assoc //.
Qed.

(** ** Whole files *)

Record status := Status {
  st_name : cstring; st_before : list (cstring * cstring);
  st_pid : cstring; st_between : list (cstring * cstring);
  st_uid : cstring; st_uids : cstring }.

(** A status file up to the line of the user IDs; [tail] is the rest. *)
Definition st_fields (st : status) : list (cstring * cstring) :=
  (cs "Name", TAB :: st_name st) :: st_before st ++
  (cs "Pid", TAB :: st_pid st) :: st_between st ++ [(cs "Uid", TAB :: st_uid st ++ TAB :: st_uids st)].
Definition status_text (st : status) (tail : list ascii) : list ascii :=
  concat (field <$> st_fields st) ++ tail.

Definition value_wf (t : cstring) : Prop := trimmed t ∧ (":"%char ∉ t).

Definition status_wf (st : status) (pid ruid : Z) : Prop :=
  Forall field_wf (st_fields st) ∧
  Forall (λ kv, kv.1 ∉ known_keys) (st_before st ++ st_between st) ∧
  value_wf (st_name st) ∧ st_name st ≠ cs "Uid" ∧
  value_wf (st_pid st) ∧ int_text GN_GT_0 (st_pid st) pid ∧
  value_wf (st_uid st) ∧ (TAB ∉ st_uid st) ∧ (":"%char ∉ st_uids st) ∧
  int_text GN_ANY_BASE (st_uid st) ruid ∧ 0 ≤ ruid.

Lemma int_text_positive t v : int_text GN_GT_0 t v → 0 < v.
Proof.
  intros H. specialize (H [] []).
  destruct (getInt_total (Some t) GN_GT_0 (Some []) []) as [(w & Hw & _ & Hok)|(msg & Hm & _)].
  - rw H in Hw. injection Hw as ->. destruct Hok as [_ Hok]. by apply Hok.
  - by rw H in Hm.
Qed.

Lemma ps_lines_others uid kvs ls pid nm r s :
  Forall field_wf kvs → Forall (λ kv, kv.1 ∉ known_keys) kvs → kept pid nm (-1) r →
  ∃ r', ps_lines uid ((field <$> kvs) ++ ls) r s = ps_lines uid ls r' s ∧ kept pid nm (-1) r'.
Proof.
  elim: kvs r => [|kv kvs IH] r Hw Hk Hr; [by exists r|].
  apply Forall_cons in Hw as [Hw1 Hw]. apply Forall_cons in Hk as [Hk1 Hk].
  destruct (ps_other uid kv pid nm (-1) r s Hw1 Hk1 Hr) as (r1 & H1 & Hr1).
  destruct (IH r1 Hw Hk Hr1) as (r2 & H2 & Hr2). exists r2. split; [|done].
  cbn [fmap list_fmap app ps_lines].
  replace (all_known r) with false
    by (symmetry; rw /all_known; destruct Hr as (_ & _ & _ & ->); by rw andb_false_r).
  by rw (bind_Ret _ _ _ _ _ H1).
Qed.

(** One line in the loop. *)
Lemma ps_lines_step uid l ls r s f r' s' :
  rd_realuid r = -1 → ps_line uid (read_line l r) s = (Ret (f, r'), s') →
  ps_lines uid (l :: ls) r s = match f with Break => (Ret tt, s') | _ => ps_lines uid ls r' s' end.
Proof.
  intros Hru H. cbn [ps_lines]. rw /all_known Hru andb_false_r (bind_Ret _ _ _ _ _ H). by destruct f.
Qed.

Lemma ps_lines_status uid st pid ruid ls r s :
  status_wf st pid ruid → kept (-1) None (-1) r →
  ∃ s', ps_lines uid ((field <$> st_fields st) ++ ls) r s = (Ret tt, s') ∧
    printed (if uid =? ruid then shown pid (st_uid st) else []) s s'.
Proof.
  intros (Hw & Hk & [Hn Hnc] & Hnu & [Hp Hpc] & Hpid & [Hu Huc] & Htab & Hus & Huid & H0) Hr.
  rw /st_fields in Hw. apply Forall_cons in Hw as [Wn Hw]. apply Forall_app in Hw as [Wb Hw].
  apply Forall_cons in Hw as [Wp Hw]. apply Forall_app in Hw as [Wm Wu]. apply Forall_cons in Wu as [Wu _].
  apply Forall_app in Hk as [Kb Km]. pose proof (int_text_positive _ _ Hpid) as Hpos.
  rw /st_fields. cbn [fmap list_fmap app]. rw fmap_app -app_assoc. cbn [fmap list_fmap app].
  destruct (ps_name_line uid _ _ _ r s Wn Hn Hnc Hnu Hr) as (r1 & H1 & Hr1).
  rw (ps_lines_step _ _ _ _ _ _ _ _ (proj2 (proj2 (proj2 Hr))) H1).
  destruct (ps_lines_others uid _ (field (cs "Pid", TAB :: st_pid st) ::
    (field <$> st_between st ++ [(cs "Uid", TAB :: st_uid st ++ TAB :: st_uids st)]) ++ ls) _ _ r1 s Wb Kb Hr1)
    as (r2 & -> & Hr2).
  destruct (ps_pid_line uid _ pid _ _ r2 s Wp Hp Hpc Hpid Hr2) as (r3 & s3 & H3 & Hr3 & P3).
  rw (ps_lines_step _ _ _ _ _ _ _ _ (proj2 (proj2 (proj2 Hr2))) H3) fmap_app -app_assoc.
  destruct (ps_lines_others uid _ ((field <$> [(cs "Uid", TAB :: st_uid st ++ TAB :: st_uids st)]) ++ ls)
    _ _ r3 s3 Wm Km Hr3) as (r4 & -> & Hr4).
  destruct (ps_uid_line uid _ ruid _ pid r4 s3 Wu Hu Huc Hus Htab Huid ltac:(lia) Hr4)
    as (f & r5 & s5 & H5 & P5 & Hr5 & Hf).
  cbn [fmap list_fmap app]. rw (ps_lines_step _ _ _ _ _ _ _ _ (proj2 (proj2 (proj2 Hr4))) H5) Hf.
  exists s5. split; [|exact (printed_app _ _ _ _ _ P3 P5)].
  destruct (uid =? ruid); [done|]. destruct ls as [|l ls]; [done|]. cbn [ps_lines].
  destruct Hr5 as (_ & E1 & E2 & E3). rw /all_known E1 E2 E3.
  rw (proj2 (Z.eqb_neq pid _)) ?(proj2 (Z.eqb_neq ruid _)) //; lia.
Qed.
End reading.

(** ** The listing *)

(** A /proc that does not change while it is read. *)
Class PsOSOk (K : Type) `{!PsOS K} := {
  po_opendir_same p k : (po_opendir p k).2 = k;
  po_stat_same p k : (po_stat p k).2 = k;
  po_fopen_same p k : (po_fopen p k).2 = k;
  po_fclose_ok k : po_fclose k = (inr tt, k);
  po_closedir_ok k : po_closedir k = (inr tt, k);
}.

Section listing.
Context {K : Type} `{!TlpiEnv K, !PsOS K, !PsOSOk K} (k : K).
Implicit Types s : tproc K.
Abbreviation output s := (e_stdout (t_io s) ++ e_buffered (t_io s)).

Definition status_path (d_name : cstring) : cstring := cs "/proc/" ++ d_name ++ cs "/status".

(** What the program prints for an entry of the directory: a message where the
    entry has gone, and for a process of the user its ID. *)
Inductive entry_shows (uid : Z) (d : cstring) : cstring → Prop :=
| es_dot : d = cs "." ∨ d = cs ".." → entry_shows uid d []
| es_no_stat e :
    (length d ≤ 86)%nat → d ≠ cs "." → d ≠ cs ".." → (po_stat (status_path d) k).1 = inl e →
    entry_shows uid d (te_strerror e ++ cs " @ stat" ++ [NL])
| es_other m :
    (length d ≤ 86)%nat → d ≠ cs "." → d ≠ cs ".." → (po_stat (status_path d) k).1 = inr m →
    Z.land m S_IFMT ≠ S_IFREG → entry_shows uid d []
| es_gone m e :
    (length d ≤ 86)%nat → d ≠ cs "." → d ≠ cs ".." → (po_stat (status_path d) k).1 = inr m →
    Z.land m S_IFMT = S_IFREG → (po_fopen (status_path d) k).1 = inl e →
    entry_shows uid d (te_strerror e ++ cs " " ++ [NL])
| es_process m st tail pid ruid :
    (length d ≤ 86)%nat → d ≠ cs "." → d ≠ cs ".." → (po_stat (status_path d) k).1 = inr m →
    Z.land m S_IFMT = S_IFREG → (po_fopen (status_path d) k).1 = inr (status_text st tail) →
    status_wf st pid ruid →
    entry_shows uid d (if uid =? ruid then shown pid (st_uid st) else []).

(** A call that leaves the system as it is. *)
Lemma tcall_same {A} (f : K → res A * K) s :
  (f (t_os s)).2 = t_os s →
  tcall f s = match (f (t_os s)).1 with
    | inl e => (Ret None, TProc (EState (e_buffered (t_io s)) (e_stdout (t_io s)) (e_stderr (t_io s)) e) (t_os s))
    | inr v => (Ret (Some v), s)
    end.
Proof.
  rw /tcall /tsys /mbind /M_bind. destruct (f (t_os s)) as [[e|v] k']; cbn; intros ->; [done|].
  by destruct s.
Qed.

Lemma readfdata_shows junk uid path st tail pid ruid s :
  length junk = LINE_SIZE → t_os s = k → (po_fopen path k).1 = inr (status_text st tail) →
  status_wf st pid ruid →
  ∃ s', readfdata junk path uid s = (Ret tt, s') ∧
    printed (if uid =? ruid then shown pid (st_uid st) else []) s s'.
Proof.
  intros Hj Hk Hf Hw. rw /readfdata {1}/mbind {1}/M_bind tcall_same ?Hk; [apply po_fopen_same|].
  rw Hf /status_text fgets_fields; [apply Hw|].
  destruct (ps_lines_status uid st pid ruid
    (fgets_all (LINE_SIZE - 1) (LINE_SIZE - 1) tail) (Reading junk 0 0 (-1) None (-1)) s Hw) as (s1 & H1 & Hp).
  { by split_and!. }
  rw (bind_Ret _ _ _ _ _ H1) /tchecked.
  rw (bind_Ret _ _ _ _ _ (tcall_ok _ s1 tt (t_os s1) (po_fclose_ok _))).
  eexists. split; [reflexivity|]. by destruct s1.
Qed.

Lemma ps_entry_shows junk uid d t s :
  length junk = LINE_SIZE → t_os s = k → entry_shows uid d t →
  ∃ s', ps_entry junk uid d s = (Ret tt, s') ∧ printed t s s'.
Proof.
  intros Hj Hk Hd. rw /ps_entry. destruct Hd as [Hdot|e Hl N1 N2 Hst|m Hl N1 N2 Hst Hm|m e Hl N1 N2 Hst Hm Hf|
    m st tail pid ruid Hl N1 N2 Hst Hm Hf Hw].
  { rw bool_decide_true //. eexists. split; [reflexivity|apply printed_nil]. }
  all: rw bool_decide_false; [naive_solver|].
  all: rw snprintf_fits; [rw !length_app /= /DIRNAME_SIZE; lia|].
  all: rw (proj2 (Nat.leb_gt _ _)); [rw !length_app /= /PATHNAME_SIZE; lia|].
  all: rw -/(status_path d) {1}/mbind {1}/M_bind tcall_same ?Hk; [apply po_stat_same|]; rw Hst.
  - eexists. split; [reflexivity|]. by rw /printed /=.
  - rw (proj2 (Z.eqb_neq _ _) Hm). eexists. split; [reflexivity|apply printed_nil].
  - rw Hm Z.eqb_refl. cbn [negb]. rw /readfdata {1}/mbind {1}/M_bind tcall_same ?Hk; [apply po_fopen_same|]. rw Hf.
    eexists. split; [reflexivity|]. by rw /printed /=.
  - rw Hm Z.eqb_refl. exact (readfdata_shows junk uid _ st tail pid ruid s Hj Hk Hf Hw).
Qed.

Lemma ps_entries_show junk uid ds ts s :
  length junk = LINE_SIZE → t_os s = k → Forall2 (entry_shows uid) ds ts →
  ∃ s', for_each ds (ps_entry junk uid) s = (Ret tt, s') ∧ printed (concat ts) s s'.
Proof.
  intros Hj Hk H. elim: H s Hk => [|d t ds' ts' Hd _ IH] s Hk; cbn [for_each concat].
  - eexists. split; [reflexivity|apply printed_nil].
  - destruct (ps_entry_shows junk uid d t s Hj Hk Hd) as (s1 & H1 & P1).
    destruct (IH s1) as (s2 & H2 & P2); [by destruct P1 as (-> & _)|].
    exists s2. rw (bind_Ret _ _ _ _ _ H1). split; [done|exact (printed_app _ _ _ _ _ P1 P2)].
Qed.

(** The listing goes through every entry of /proc, in order, and passes over those
    that are no process or have gone; for each process of the user it prints the
    process ID but, where the name should be, the text of the user ID, because
    the name was a pointer into the buffer that has since been overwritten. *)
Lemma ps_main_lists junk prog user ds ts s :
  let uid := userIdFromName po_getpwnam (Some user) in
  length junk = LINE_SIZE → user ≠ cs "--help" → t_os s = k →
  (po_opendir (cs "/proc/") k).1 = inr (ds, 0) → Forall2 (entry_shows uid) ds ts →
  ∃ s', ps_main junk [prog; user] s = (Exit EXIT_SUCCESS, s') ∧
    e_stdout (t_io s') = output s ++ concat ts ++ END_OF_DIR.
Proof.
  intros uid Hj Hu Hk Hd Hall. rw /ps_main bool_decide_false //.
  rw {1}/mbind {1}/M_bind tcall_same ?Hk; [apply po_opendir_same|]. rw Hd.
  destruct (ps_entries_show junk uid ds ts s Hj Hk Hall) as (s1 & H1 & (_ & P2 & P3 & _)).
  rw (bind_Ret _ _ _ _ _ H1). cbn [Z.eqb negb].
  rw {1}/mbind {1}/M_bind /tprintf /io /modify /=.
  rw (bind_Ret _ _ _ _ _ (tcall_ok _ (TProc _ (t_os s1)) tt (t_os s1) (po_closedir_ok _))).
  eexists. split; [reflexivity|]. by rw /= P2 P3 -!app_assoc.
Qed.
End listing.

(** ** The scan for the process tree *)

Definition number_line (key : string) (t : cstring) (v : Z) : cstring :=
  cs key ++ cs ": string " ++ t ++ cs " or integer " ++ fmt_d v ++ [NL].

(** What the scan prints for a field. *)
Inductive tree_shows : cstring * cstring → cstring → Prop :=
| ts_other kv : kv.1 ∉ [cs "Pid"; cs "PPid"; cs "Name"] → tree_shows kv []
| ts_pid t v :
    value_wf t → int_text GN_ANY_BASE t v → tree_shows (cs "Pid", TAB :: t) (number_line "Pid" t v)
| ts_ppid t v :
    value_wf t → int_text GN_ANY_BASE t v → tree_shows (cs "PPid", TAB :: t) (number_line "PPid" t v)
| ts_name t : value_wf t → tree_shows (cs "Name", TAB :: t) (cs "Name: " ++ t ++ [NL]).

Section tree.
Context {K : Type} `{!TlpiEnv K, !PsOS K, !PsOSOk K}.
Implicit Types (s : tproc K) (r : reading).

(** The test for a number, on its line. *)
Lemma tree_number_line key name t v z pid nm ru s :
  let r0 := Reading (cs key ++ NUL :: (TAB :: t) ++ NL :: NUL :: z) 0 (length (cs key) + 1) pid nm ru in
  NUL ∉ cs key → value_wf t → int_text GN_ANY_BASE t v →
  ∃ r s', tree_number key name r0 s = (Ret (Next, r), s') ∧ printed (number_line key t v) s s' ∧
    (∀ s, token_text r s = (Ret t, s)) ∧ length (rd_line r) = length (rd_line r0).
Proof.
  intros r0 Hn [Ht Hc] Hv.
  destruct (key_value (cs key) [TAB] t z pid nm ru (λ r, t ← token_text r ; n ← get_int t GN_ANY_BASE name ;
    tprintf (cs key ++ cs ": string " ++ t ++ cs " or integer " ++ fmt_d n ++ [NL]) ;; mret (Next, r)) s)
    as (r1 & H1 & Htk & _ & Hlen & _); [done|by repeat constructor|done..|by rw list_elem_of_singleton|].
  destruct (get_int_text GN_ANY_BASE t v name s Hv) as (s1 & Hg & P1 & P2 & P3 & P4). rw app_nil_r in P3.
  rw (bind_Ret _ _ _ _ _ (Htk s)) (bind_Ret _ _ _ _ _ Hg) in H1.
  exists r1. eexists. split; [exact H1|]. split; [|done].
  rw /printed /= P1 P2 P3 P4 /number_line //.
Qed.

Lemma tree_line_shows kv t r s :
  field_wf kv → tree_shows kv t → length (rd_line r) = LINE_SIZE →
  ∃ r' s', tree_line (read_line (field kv) r) s = (Ret (Next, r'), s') ∧ printed t s s' ∧
    length (rd_line r') = LINE_SIZE.
Proof.
  intros Hw Hts Hr. destruct (first_token kv r s Hw Hr) as (z & Hf & Hl).
  pose proof (token_at [] kv.1 (kv.2 ++ NL :: NUL :: z) 0 (length kv.1 + 1) (rd_pid r) (rd_name r)
    (rd_realuid r) s (proj1 (proj2 (proj2 Hw))) eq_refl) as Hk. cbn [app] in Hk.
  rw /tree_line (and_then_next _ _ _ _ _ Hf).
  destruct Hts as [kv Hkeys|u v Hu Hv|u v Hu Hv|u [Ht Hc]].
  - rw !not_elem_of_cons in Hkeys. destruct Hkeys as (N1 & N2 & N3 & _).
    rw (and_then_next _ _ _ _ _ (key_skip _ _ _ _ _ Hk N1)) (and_then_next _ _ _ _ _ (key_skip _ _ _ _ _ Hk N2)).
    eexists _, s. split; [exact (key_skip _ _ _ _ _ Hk N3)|]. split; [apply printed_nil|done].
  - cbn [fst snd] in *. destruct (tree_number_line "Pid" (cs "pid") u v z (rd_pid r) (rd_name r) (rd_realuid r) s
      ltac:(by apply nul_free_spec) Hu Hv) as (r1 & s1 & H1 & Hp & Htk & Hlen).
    assert (u ≠ cs "PPid") as N1 by (intros ->; specialize (Hv [] []); by vm_compute in Hv).
    assert (u ≠ cs "Name") as N2 by (intros ->; specialize (Hv [] []); by vm_compute in Hv).
    rw (and_then_next _ _ _ _ _ H1) (and_then_next _ _ _ _ _ (key_skip _ _ _ _ _ (Htk s1) N1)).
    eexists _, s1. split; [exact (key_skip _ _ _ _ _ (Htk s1) N2)|]. split; [done|by rw Hlen].
  - cbn [fst snd] in *. destruct (tree_number_line "PPid" (cs "ppid") u v z (rd_pid r) (rd_name r) (rd_realuid r) s
      ltac:(by apply nul_free_spec) Hu Hv) as (r1 & s1 & H1 & Hp & Htk & Hlen).
    assert (cs "PPid" ≠ cs "Pid") as N1 by done.
    assert (u ≠ cs "Name") as N2 by (intros ->; specialize (Hv [] []); by vm_compute in Hv).
    rw (and_then_next _ _ _ _ _ (key_skip _ _ _ _ _ Hk N1)) (and_then_next _ _ _ _ _ H1).
    eexists _, s1. split; [exact (key_skip _ _ _ _ _ (Htk s1) N2)|]. split; [done|by rw Hlen].
  - cbn [fst snd] in *. assert (cs "Name" ≠ cs "Pid") as N1 by done. assert (cs "Name" ≠ cs "PPid") as N2 by done.
    destruct (key_value (cs "Name") [TAB] u z (rd_pid r) (rd_name r) (rd_realuid r)
      (λ r, t ← token_text r ; tprintf (cs "Name: " ++ t ++ [NL]) ;; mret (Next, r)) s)
      as (r1 & H1 & Htk & _ & Hlen & _); [by apply nul_free_spec|by repeat constructor|done..|
      by rw list_elem_of_singleton|].
    rw (bind_Ret _ _ _ _ _ (Htk s)) in H1.
    rw (and_then_next _ _ _ _ _ (key_skip _ _ _ _ _ Hk N1)) (and_then_next _ _ _ _ _ (key_skip _ _ _ _ _ Hk N2)).
    eexists _, _. split; [exact H1|]. split; [by rw /printed /=|by rw Hlen].
Qed.

Lemma tree_lines_show kvs ts r s :
  Forall field_wf kvs → Forall2 tree_shows kvs ts → length (rd_line r) = LINE_SIZE →
  ∃ s', tree_lines (field <$> kvs) r s = (Ret tt, s') ∧ printed (concat ts) s s'.
Proof.
  intros Hw H. elim: H Hw r s => [|kv t kvs' ts' Hkv _ IH] Hw r s Hr.
  - eexists. split; [reflexivity|apply printed_nil].
  - apply Forall_cons in Hw as [Hw1 Hw].
    destruct (tree_line_shows kv t r s Hw1 Hkv Hr) as (r1 & s1 & H1 & P1 & Hr1).
    destruct (IH Hw r1 s1 Hr1) as (s2 & H2 & P2). exists s2.
    cbn [fmap list_fmap tree_lines concat]. rw (bind_Ret _ _ _ _ _ H1).
    split; [done|exact (printed_app _ _ _ _ _ P1 P2)].
Qed.

(** The scan prints, for the status file of a process, its process ID, its parent's and
    its name, each from its own line and in the order of the file. *)
Lemma tree_readfdata_shows junk path kvs ts s :
  length junk = LINE_SIZE → Forall field_wf kvs → Forall2 tree_shows kvs ts →
  (po_fopen path (t_os s)).1 = inr (concat (field <$> kvs)) →
  ∃ s', tree_readfdata junk path s = (Ret tt, s') ∧
    printed (concat ts ++ cs "Child Pid: " ++ fmt_d (po_getpid (t_os s)) ++ [NL]) s s'.
Proof.
  intros Hj Hw Hts Hf. rw /tree_readfdata {1}/mbind {1}/M_bind tcall_same; [apply po_fopen_same|]. rw Hf.
  pose proof (fgets_fields kvs [] Hw) as E. rw !app_nil_r in E. rw E.
  destruct (tree_lines_show kvs ts (Reading junk 0 0 (-1) None (-1)) s Hw Hts Hj) as (s1 & H1 & P1).
  rw (bind_Ret _ _ _ _ _ H1) {1}/tchecked bind_assoc.
  rw (bind_Ret _ _ _ _ _ (tcall_ok _ s1 tt (t_os s1) (po_fclose_ok _))).
  eexists. split; [reflexivity|]. destruct P1 as (P1 & P2 & P3 & P4).
  rw /printed /= P1 P2 P3 P4 -!app_assoc //.
Qed.
End tree.

(** ** A /proc *)

Module PsSim.
(** The text of each file by its path; other paths under a name without a file
    are directories when the flag says so. *)
Definition kern : Type := list (cstring * list ascii).

Fixpoint find (p : cstring) (k : kern) : option (list ascii) :=
  match k with
  | [] => None
  | (q, t) :: k => if bool_decide (p = q) then Some t else find p k
  end.

#[export] Instance ps_sim_env : TlpiEnv kern := { te_strerror _ := cs "gone"; te_dumpcore := None }.
#[export] Instance ps_sim_os : PsOS kern := {
  po_getpwnam _ := None;
  po_opendir _ k := (inr ([cs "."; cs ".."; cs "bus"; cs "7"; cs "42"], 0), k);
  po_closedir k := (inr tt, k);
  po_stat p k := (match find p k with
                  | Some _ => inr (Z.lor S_IFREG 292)
                  | None => if bool_decide (p = cs "/proc/7" ∨ p = cs "/proc/42" ∨ p = cs "/proc/bus")
                            then inr S_IFDIR else inl ENOENT
                  end, k);
  po_fopen p k := (match find p k with Some t => inr t | None => inl ENOENT end, k);
  po_fclose k := (inr tt, k);
  po_getpid _ := 99;
}.
#[export, refine] Instance ps_sim_ok : PsOSOk kern := {}.
Proof. all: done. Defined.

Definition init : status :=
  Status (cs "init") [(cs "State", TAB :: cs "S (sleeping)")] (cs "7") [(cs "PPid", TAB :: cs "1")]
    (cs "0") (cs "0").
Definition shell : status :=
  Status (cs "bash") [(cs "State", TAB :: cs "S (sleeping)")] (cs "42") [(cs "PPid", TAB :: cs "7")]
    (cs "1000") (cs "1000").

Definition boot : tproc kern :=
  TProc (EState [] [] [] 0)
    [(cs "/proc/7/status", status_text init []);
     (cs "/proc/42/status", status_text shell (cs "Gid:" ++ [TAB] ++ cs "1000" ++ [NL]))].

Definition junk : list ascii := replicate LINE_SIZE "?"%char.

(** Decidable versions of the side conditions, for concrete files. *)
Lemma trimmed_check t :
  forallb (λ c, negb (Ascii.eqb c NUL)) t = true →
  match t with [] => false | c :: _ => negb (isspace c) && negb (isspace (List.last t NUL)) end = true →
  trimmed t.
Proof.
  intros Hn Ht. split; [by apply nul_free_spec|]. destruct t as [|c t]; [done|].
  apply andb_true_iff in Ht as [H1 H2]. apply negb_true_iff in H1, H2. split; [by intros ? ? [= <- _]|].
  exists (removelast (c :: t)), (List.last (c :: t) NUL). split; [|done]. by apply app_removelast_last.
Qed.

Lemma free_check c t : existsb (Ascii.eqb c) t = false → c ∉ t.
Proof.
  intros H Hin. apply list_elem_of_In in Hin.
  assert (existsb (Ascii.eqb c) t = true); [|congruence].
  apply existsb_exists. exists c. split; [done|apply Ascii.eqb_refl].
Qed.

Lemma field_check kv :
  bool_decide (kv.1 ≠ []) && negb (existsb (Ascii.eqb ":") kv.1) && negb (existsb (Ascii.eqb NUL) kv.1) &&
  negb (existsb (Ascii.eqb NL) kv.1) && negb (existsb (Ascii.eqb NUL) kv.2) &&
  negb (existsb (Ascii.eqb NL) kv.2) && (length (field kv) <? LINE_SIZE)%nat = true → field_wf kv.
Proof.
  rw !andb_true_iff !negb_true_iff bool_decide_eq_true Nat.ltb_lt.
  intros [[[[[[H1 H2] H3] H4] H5] H6] H7]. split_and!; try done; by apply free_check.
Qed.

Lemma fields_check kvs :
  forallb (λ kv, bool_decide (kv.1 ≠ []) && negb (existsb (Ascii.eqb ":") kv.1) &&
    negb (existsb (Ascii.eqb NUL) kv.1) && negb (existsb (Ascii.eqb NL) kv.1) &&
    negb (existsb (Ascii.eqb NUL) kv.2) && negb (existsb (Ascii.eqb NL) kv.2) &&
    (length (field kv) <? LINE_SIZE)%nat) kvs = true → Forall field_wf kvs.
Proof.
  intros H. apply Forall_forall. intros kv Hin. apply field_check.
  rw forallb_forall in H. by apply H, list_elem_of_In.
Qed.

Lemma shell_wf : status_wf shell 42 1000.
Proof.
  split_and!; try done.
  - by apply fields_check.
  - apply (bool_decide_unpack _). by vm_compute.
  - split; [by apply trimmed_check|by apply free_check].
  - split; [by apply trimmed_check|by apply free_check].
  - split; [by apply trimmed_check|by apply free_check].
  - by apply free_check.
  - by apply free_check.
Qed.

Lemma init_wf : status_wf init 7 0.
Proof.
  split_and!; try done.
  - by apply fields_check.
  - apply (bool_decide_unpack _). by vm_compute.
  - split; [by apply trimmed_check|by apply free_check].
  - split; [by apply trimmed_check|by apply free_check].
  - split; [by apply trimmed_check|by apply free_check].
  - by apply free_check.
  - by apply free_check.
Qed.
End PsSim.
Import PsSim.

(** The shell of user 1000 is listed under the name 1000. *)
Lemma ps_main_lists_witness :
  ∃ s', ps_main PsSim.junk [cs "ps"; cs "1000"] PsSim.boot = (Exit EXIT_SUCCESS, s') ∧
    e_stdout (t_io s') = cs "gone @ stat" ++ [NL] ++ cs "Pid: 42" ++ [NL] ++ cs "Name: 1000" ++ [NL; NL; NL] ++
      END_OF_DIR.
Proof.
  destruct (ps_main_lists (t_os PsSim.boot) PsSim.junk (cs "ps") (cs "1000")
    [cs "."; cs ".."; cs "bus"; cs "7"; cs "42"]
    [[]; []; te_strerror (K := PsSim.kern) ENOENT ++ cs " @ stat" ++ [NL]; []; shown 42 (cs "1000")] PsSim.boot) as (s' & H & Ho);
    [reflexivity|discriminate|reflexivity..| |].
  - repeat (apply Forall2_cons; split); [| | | | |constructor].
    + apply es_dot. by left.
    + apply es_dot. by right.
    + apply (es_no_stat _ _ _ ENOENT); [cbn; lia|discriminate|discriminate|reflexivity].
    + refine (es_process _ 1000 _ (Z.lor S_IFREG 292) PsSim.init [] 7 0 _ _ _ _ _ _ _);
        [cbn; lia|discriminate|discriminate|reflexivity..|apply PsSim.init_wf].
    + refine (es_process _ 1000 _ (Z.lor S_IFREG 292) PsSim.shell _ 42 1000 _ _ _ _ _ _ _);
        [cbn; lia|discriminate|discriminate|reflexivity..|apply PsSim.shell_wf].
  - exists s'. split; [exact H|]. rw Ho. reflexivity.
Defined.

(** A process that calls itself "Uid:5" is not listed, whoever owns it. *)
Lemma ps_hidden :
  (ps_lines 0 (fgets_all 127 127 (concat (field <$>
     [(cs "Name", TAB :: cs "Uid:5"); (cs "Pid", TAB :: cs "42"); (cs "Uid", TAB :: cs "0" ++ TAB :: cs "0")])))
     (Reading PsSim.junk 0 0 (-1) None (-1)) PsSim.boot).2 = PsSim.boot.
Proof. by vm_compute. Qed.

(** White space before and after the first tab of the user IDs: [trim] goes
    back beyond its argument and moves a negative number of bytes. *)
Lemma trim_underruns :
  trim (cs "Uid" ++ NUL :: TAB :: TAB :: TAB :: cs " " ++ NL :: NUL :: []) 7 = None.
Proof. by vm_compute. Qed.

(** An entry of 87 characters overruns [pathname]. *)
Lemma ps_entry_overruns :
  (ps_entry PsSim.junk 0 (replicate 87 "a"%char) PsSim.boot).1 = Crash.
Proof. by vm_compute. Qed.

Lemma tree_readfdata_shows_witness :
  ∃ s', tree_readfdata PsSim.junk (cs "/proc/7/status") PsSim.boot = (Ret tt, s') ∧
    e_buffered (t_io s') = cs "Name: init" ++ [NL] ++ cs "Pid: string 7 or integer 7" ++ [NL] ++
      cs "PPid: string 1 or integer 1" ++ [NL] ++ cs "Child Pid: 99" ++ [NL].
Proof.
  destruct (tree_readfdata_shows PsSim.junk (cs "/proc/7/status") (st_fields PsSim.init)
    [cs "Name: init" ++ [NL]; []; number_line "Pid" (cs "7") 7; number_line "PPid" (cs "1") 1; []] PsSim.boot)
    as (s' & H & (_ & _ & Ho & _)); [reflexivity|by apply PsSim.fields_check| | |].
  - assert (∀ t, trimmed t → existsb (Ascii.eqb ":") t = false → value_wf t) as Hv
      by (intros t Ht Hc; split; [done|by apply PsSim.free_check]).
    repeat (apply Forall2_cons; split); [| | | | |constructor].
    + apply ts_name. by apply Hv; [apply PsSim.trimmed_check|].
    + apply ts_other. by apply (bool_decide_unpack _).
    + apply ts_pid; [by apply Hv; [apply PsSim.trimmed_check|]|done].
    + apply ts_ppid; [by apply Hv; [apply PsSim.trimmed_check|]|done].
    + apply ts_other. by apply (bool_decide_unpack _).
  - reflexivity.
  - exists s'. split; [exact H|]. rw Ho. reflexivity.
Defined.

(** An entry without a status file, read last, makes the scan end with the error
    of its [stat], although the directory was read to its end. *)
Lemma tree_rest_stale_errno :
  (tree_rest PsSim.junk 1 [cs "7"] 0 PsSim.boot).1 = Exit EXIT_SUCCESS ∧
  (tree_rest PsSim.junk 1 [cs "7"; cs "bus"] 0 PsSim.boot).1 = Exit EXIT_FAILURE.
Proof. split; by vm_compute. Qed.
