(* ===== verification/SemInit.v ===== *)
(** * Creating and initializing a semaphore: [svsem/svsem_good_init.c] and
      [svsem/svsem_bad_init.c]

    Several processes run a program at once.  Creation and initialization are
    two calls, so a second process can find a set that exists and is not yet
    initialized.  One step is one system call of one process; any call may
    fail, which ends its process. *)

From S2P Require Import Prelude CStdlib GetNum Threads.

Definition SEMVMX : Z := 32767.
Definition MAX_TRIES : nat := 10.

(** The set with its one semaphore; [sem_otime] is zero until the first
    [semop]. *)
Record semset := SemSet { semval : Z; sem_otime : bool }.

(** A process is about to create the set, to set the value, to do the
    operation that marks the set as initialized, to get an existing set, to look
    at it for the [j]-th time, to do its own operation, or has ended. *)
Inductive gpc :=
  | GCreate | GSetVal | GNoop | GGet | GPoll (j : nat) | GOp | GExit (status : Z).
#[export] Instance gpc_eq_dec : EqDecision gpc.
Proof. solve_decision. Defined.

(** [g_op] is its operation, [None] when [getInt] rejects the argument. *)
Record gproc := GProc { g_pc : gpc; g_op : option Z }.
Record gstate := GState { g_set : option semset; g_procs : list gproc }.

(** [semop] with one operation on a semaphore of value [v]: [None] while it
    blocks, and when the value would be too large. *)
Definition sem_apply (op v : Z) : option Z :=
  if op =? 0 then (if v =? 0 then Some v else None)
  else if (0 <=? v + op) && (v + op <=? SEMVMX) then Some (v + op) else None.

(** The operation, in the 16-bit field of the structure. *)
Definition op_of_arg (arg : cstring) : option Z :=
  match getInt (Some arg) 0 (Some (cs "sem-op")) [] with
  | (Ret n, _) => Some (wrapS 16 n)
  | _ => None
  end.

Section programs.
(** What a new semaphore holds; on Linux it is 0. *)
Context (junk : Z).

Definition good_move (i : nat) (s : gstate) : option gstate :=
  p ← g_procs s !! i ;
  let put set pc := Some (GState set (<[i := GProc pc (g_op p)]> (g_procs s))) in
  match g_pc p, g_set s with
  | GCreate, None => put (Some (SemSet junk false)) GSetVal
  | GCreate, Some x => put (Some x) GGet
  | GSetVal, Some x => put (Some (SemSet 0 (sem_otime x))) GNoop
  | GNoop, Some x => v ← sem_apply 0 (semval x) ; put (Some (SemSet v true)) GOp
  | GGet, Some x => put (Some x) (GPoll 0)
  | GPoll j, Some x =>
      if sem_otime x then put (Some x) GOp
      else if (S j <? MAX_TRIES)%nat then put (Some x) (GPoll (S j))
      else put (Some x) (GExit EXIT_FAILURE)
  | GOp, Some x =>
      match g_op p with
      | None => put (Some x) (GExit EXIT_FAILURE)
      | Some op => v ← sem_apply op (semval x) ; put (Some (SemSet v true)) (GExit EXIT_SUCCESS)
      end
  | _, _ => None
  end.

(** [svsem_bad_init] adds 1 as soon as the set exists. *)
Definition bad_move (i : nat) (s : gstate) : option gstate :=
  p ← g_procs s !! i ;
  let put set pc := Some (GState set (<[i := GProc pc (g_op p)]> (g_procs s))) in
  match g_pc p, g_set s with
  | GCreate, None => put (Some (SemSet junk false)) GSetVal
  | GCreate, Some x => put (Some x) GGet
  | GSetVal, Some x => put (Some (SemSet 0 (sem_otime x))) GOp
  | GGet, Some x => put (Some x) GOp
  | GOp, Some x => v ← sem_apply 1 (semval x) ; put (Some (SemSet v true)) (GExit EXIT_SUCCESS)
  | _, _ => None
  end.

(** A call that fails. *)
Definition g_fail (i : nat) (s : gstate) : option gstate :=
  p ← g_procs s !! i ;
  match g_pc p with
  | GExit _ => None
  | _ => Some (GState (g_set s) (<[i := GProc (GExit EXIT_FAILURE) (g_op p)]> (g_procs s)))
  end.

Inductive gstep : gstate → gstate → Prop :=
  | gstep_move i s s' : good_move i s = Some s' → gstep s s'
  | gstep_fail i s s' : g_fail i s = Some s' → gstep s s'.
End programs.

(** Processes that have checked their arguments. *)
Definition g_start (args : list cstring) : gstate :=
  GState None ((λ a, GProc GCreate (op_of_arg a)) <$> args).

(** ** The invariant *)

(** What a process has added to the semaphore. *)
Definition added (p : gproc) : Z :=
  if decide (g_pc p = GExit EXIT_SUCCESS) then default 0 (g_op p) else 0.

(** Between creation and the first [semop]. *)
Definition creating (p : gproc) : bool := match g_pc p with GSetVal | GNoop => true | _ => false end.

Definition initialized (s : gstate) : bool :=
  match g_set s with Some x => sem_otime x | None => false end.

(** What the place of a process says of the set. *)
Definition g_ok (s : gstate) (p : gproc) : Prop :=
  match g_pc p with
  | GCreate => True
  | GSetVal => initialized s = false ∧ is_Some (g_set s)
  | GNoop => initialized s = false ∧ semval <$> g_set s = Some 0
  | GGet | GPoll _ => is_Some (g_set s)
  | GOp => initialized s = true
  | GExit status => (status = EXIT_FAILURE ∨ status = EXIT_SUCCESS) ∧
      (status = EXIT_SUCCESS → initialized s = true ∧ is_Some (g_op p))
  end.

Record g_inv (s : gstate) : Prop := {
  gi_procs : Forall (g_ok s) (g_procs s);
  gi_one i j p q : g_procs s !! i = Some p → g_procs s !! j = Some q →
    creating p = true → creating q = true → i = j;
  gi_val x : g_set s = Some x → sem_otime x = true → semval x = sumZ (added <$> g_procs s);
}.

(** One process moves; the set may change in a way the others do not mind. *)
Lemma g_update s i p q set' :
  g_inv s → g_procs s !! i = Some p →
  let s' := GState set' (<[i := q]> (g_procs s)) in
  g_ok s' q →
  (∀ j r, j ≠ i → g_procs s !! j = Some r → g_ok s r → g_ok s' r) →
  (creating q = true → creating p = true ∨ Forall (λ r, creating r = false) (g_procs s)) →
  (∀ x, set' = Some x → sem_otime x = true → semval x = sumZ (added <$> g_procs s) - added p + added q) →
  g_inv s'.
Proof.
  intros [Hp H1 Hv] Hi s' Hq Hoth Hc Hval. split.
  - apply Forall_lookup. intros j r Hj. cbn in Hj. apply list_lookup_insert_Some in Hj as [(-> & <- & _)|[Hne Hj]].
    + done.
    + exact (Hoth j r (not_eq_sym Hne) Hj (Forall_lookup_1 _ _ _ _ Hp Hj)).
  - cbn. intros j k r t Hj Hk Cr Ct.
    apply list_lookup_insert_Some in Hj as [(-> & <- & _)|[Hnj Hj]];
    apply list_lookup_insert_Some in Hk as [(-> & <- & _)|[Hnk Hk]]; [done|..].
    + destruct (Hc Cr) as [Cp|Hno]; [exact (H1 _ _ _ _ Hi Hk Cp Ct)|].
      by rw (Forall_lookup_1 _ _ _ _ Hno Hk) in Ct.
    + destruct (Hc Ct) as [Cp|Hno]; [exact (H1 _ _ _ _ Hj Hi Cr Cp)|].
      by rw (Forall_lookup_1 _ _ _ _ Hno Hj) in Cr.
    + exact (H1 _ _ _ _ Hj Hk Cr Ct).
  - cbn. intros x Hx Ho. rw (sumZ_insert _ _ _ _ _ Hi). by apply Hval.
Qed.

Lemma g_ok_other s s' r :
  (is_Some (g_set s) → is_Some (g_set s')) → (initialized s = true → initialized s' = true) →
  (creating r = true → initialized s' = false ∧ semval <$> g_set s' = semval <$> g_set s) →
  g_ok s r → g_ok s' r.
Proof.
  rw /g_ok /creating. intros H1 H2 H3. destruct (g_pc r); try done; try (by apply H1); try by apply H2.
  - intros [_ H]. split; [by apply H3|by apply H1].
  - intros [_ H]. destruct (H3 eq_refl) as [H4 H5]. split; [done|by rw H5].
  - intros [H4 H5]. split; [done|]. intros E. destruct (H5 E). by split; [apply H2|].
Qed.

(** A move that leaves the set as it is. *)
Lemma g_same_set s i p pc :
  g_inv s → g_procs s !! i = Some p → creating p = false → g_pc p ≠ GExit EXIT_SUCCESS →
  let s' := GState (g_set s) (<[i := GProc pc (g_op p)]> (g_procs s)) in
  g_ok s' (GProc pc (g_op p)) → creating (GProc pc (g_op p)) = false → pc ≠ GExit EXIT_SUCCESS → g_inv s'.
Proof.
  intros Hinv Hi Hc Hpc s' Hq Hcq Hne. apply (g_update s i p); try done.
  - by rw Hcq.
  - intros x Hx Ho. rw (gi_val _ Hinv x Hx Ho) /added. cbn. rw !decide_False //. lia.
Qed.

Lemma none_created s r : g_inv s → g_set s = None → r ∈ g_procs s → creating r = false ∧ added r = 0.
Proof.
  intros Hinv Hn Hr. pose proof (proj1 (Forall_forall _ _) (gi_procs _ Hinv) r Hr) as H.
  rw /g_ok /initialized Hn in H. rw /creating /added. destruct (g_pc r) as [| | | | | |st]; try done.
  - destruct H as [_ [? [=]]].
  - by destruct H.
  - case_decide as E; [|done]. destruct H as [_ H]. injection E as ->. by destruct (H eq_refl).
Qed.

Lemma none_added s : g_inv s → initialized s = false → sumZ (added <$> g_procs s) = 0.
Proof.
  intros Hinv Hn. assert (Forall (λ r, added r = 0) (g_procs s)) as H.
  { eapply Forall_impl; [exact (gi_procs _ Hinv)|]. intros r Hr. rw /added. case_decide as E; [|done].
    rw /g_ok E in Hr. destruct Hr as [_ Hr]. destruct (Hr eq_refl). congruence. }
  elim: H => [//|r l E _ IH]. by rw /= E IH.
Qed.

Section preserve.
Context (junk : Z).

Lemma good_move_inv i s s' : g_inv s → good_move junk i s = Some s' → g_inv s'.
Proof.
  intros Hinv. rw /good_move. destruct (g_procs s !! i) as [p|] eqn:Hi; [|done]. cbn.
  pose proof (Forall_lookup_1 _ _ _ _ (gi_procs _ Hinv) Hi) as Hp. rw /g_ok in Hp.
  assert (∀ j r, j ≠ i → g_procs s !! j = Some r → creating p = true → creating r = false) as Hothers.
  { intros j r Hj Hr Cp. destruct (creating r) eqn:Cr; [|done]. destruct Hj. exact (gi_one _ Hinv _ _ _ _ Hr Hi Cr Cp). }
  assert (∀ j r, initialized s = true → g_procs s !! j = Some r → creating r = false) as Hinit.
  { intros j r Hin Hr. pose proof (Forall_lookup_1 _ _ _ _ (gi_procs _ Hinv) Hr) as H. rw /g_ok in H.
    rw /creating. destruct (g_pc r); try done; destruct H; congruence. }
  destruct p as [pc op]. cbn [g_pc g_op] in *. destruct s as [set ps]. cbn [g_set g_procs] in *.
  destruct pc as [| | | |k| |st]; destruct set as [x|]; try done.
  - intros [= <-]. apply (g_same_set (GState (Some x) ps) i (GProc GCreate op)); try done; by eexists.
  - intros [= <-]. apply (g_update (GState None ps) i (GProc GCreate op)); try done.
    + intros j r Hj Hr. apply g_ok_other; try done. intros Cr.
      destruct (none_created _ r Hinv eq_refl (list_elem_of_lookup_2 _ _ _ Hr)). congruence.
    + intros _. right. apply Forall_forall. intros r Hr. by apply (none_created _ r Hinv eq_refl).
    + by intros y [= <-].
  - intros [= <-]. destruct Hp as [Hno _]. rw /initialized /= in Hno.
    apply (g_update (GState (Some x) ps) i (GProc GSetVal op)); try done.
    + intros j r Hj Hr. apply g_ok_other; try done. intros Cr. by rw (Hothers j r Hj Hr eq_refl) in Cr.
    + by left.
    + intros y [= <-]. cbn. by rw Hno.
  - destruct Hp as [Hno [= Hz]]. rw Hz /=. intros [= <-].
    apply (g_update (GState (Some x) ps) i (GProc GNoop op)); try done.
    + intros j r Hj Hr. apply g_ok_other; try done. intros Cr. by rw (Hothers j r Hj Hr eq_refl) in Cr.
    + intros y [= <-] _. rw (none_added _ Hinv Hno) /added /=. done.
  - intros [= <-]. apply (g_same_set (GState (Some x) ps) i (GProc GGet op)); try done; by eexists.
  - repeat case_match; intros [= <-];
      apply (g_same_set (GState (Some x) ps) i (GProc (GPoll k) op)); try done; first [by eexists|by split; [left|]].
  - destruct op as [op|]; [|intros [= <-]; by apply (g_same_set (GState (Some x) ps) i (GProc GOp None)); try done; split; [left|]].
    destruct (sem_apply op (semval x)) as [v|] eqn:Ha; [|done]. intros [= <-].
    apply (g_update (GState (Some x) ps) i (GProc GOp (Some op))); try done.
    + split; [by right|]. by split.
    + intros j r Hj Hr. apply g_ok_other; try done. intros Cr. by rw (Hinit j r Hp Hr) in Cr.
    + intros y [= <-] _. pose proof (gi_val _ Hinv x eq_refl Hp) as Hv. cbn in Hv. cbn [semval].
      rw -Hv /added /=. rw /sem_apply in Ha. repeat case_match; simplify_eq; lia.
Qed.

Lemma g_fail_inv i s s' : g_inv s → g_fail i s = Some s' → g_inv s'.
Proof.
  intros Hinv. rw /g_fail. destruct (g_procs s !! i) as [p|] eqn:Hi; [|done]. cbn. intros H.
  assert (g_pc p ≠ GExit EXIT_SUCCESS) as Hpc by (by intros E; rw E in H).
  assert (s' = GState (g_set s) (<[i := GProc (GExit EXIT_FAILURE) (g_op p)]> (g_procs s))) as ->
    by (by destruct (g_pc p); simplify_eq).
  apply (g_update s i p); try done.
  - split; [by left|done].
  - intros x Hx Ho. rw (gi_val _ Hinv x Hx Ho). assert (added p = 0) as -> by (by rw /added decide_False).
    change (added (GProc (GExit EXIT_FAILURE) (g_op p))) with 0. lia.
Qed.

Lemma g_start_inv args : g_inv (g_start args).
Proof.
  split; cbn; [|intros i j p q Hp Hq Cp|done].
  - apply Forall_fmap, Forall_forall. done.
  - apply list_lookup_fmap_Some in Hp as (a & -> & _). done.
Qed.

Lemma g_reach_inv args s : rtc (gstep junk) (g_start args) s → g_inv s.
Proof.
  apply (rtc_ind_r g_inv); [apply g_start_inv|].
  intros s1 s2 _ Hs IH. destruct Hs as [i ? ? Hm|i ? ? Hm]; [exact (good_move_inv _ _ _ IH Hm)|exact (g_fail_inv _ _ _ IH Hm)].
Qed.
End preserve.

(** ** What the good program guarantees *)

(** C25: However the processes interleave and whichever calls fail: no process works on the
    semaphore before it is initialized, and initialization undoes no work: once
    [sem_otime] is set, the value is the sum of the operations of the processes
    that have succeeded, each applied once.  Until then nobody has succeeded.  And
    no process waits for another but in its own operation: everywhere else it can
    take its next step. *)
Theorem good_init_safe junk args s :
  rtc (gstep junk) (g_start args) s →
  (∀ x, g_set s = Some x → sem_otime x = true → semval x = sumZ (added <$> g_procs s)) ∧
  (initialized s = false → Forall (λ p, g_pc p ≠ GExit EXIT_SUCCESS) (g_procs s)) ∧
  (∀ i p, g_procs s !! i = Some p → g_pc p ≠ GOp → (∀ st, g_pc p ≠ GExit st) →
     is_Some (good_move junk i s)).
Proof.
  intros Hr. pose proof (g_reach_inv junk args s Hr) as Hinv. split_and!; [exact (gi_val _ Hinv)| |].
  - intros Hn. eapply Forall_impl; [exact (gi_procs _ Hinv)|]. intros p Hp E. rw /g_ok E in Hp.
    destruct Hp as [_ Hp]. destruct (Hp eq_refl). congruence.
  - intros i p Hi Hop Hex. pose proof (Forall_lookup_1 _ _ _ _ (gi_procs _ Hinv) Hi) as Hp. rw /g_ok in Hp.
    rw /good_move Hi /=. destruct (g_pc p) as [| | | |k| |st]; [..|by destruct (Hex st)].
    + by destruct (g_set s).
    + by destruct Hp as [_ [x ->]].
    + destruct Hp as [_ Hz]. destruct (g_set s) as [x|]; [|done]. injection Hz as Hz. by rw Hz.
    + by destruct Hp as [x ->].
    + destruct Hp as [x ->]. by repeat case_match.
    + done.
Qed.

(** A run: the processes that move, in order. *)
Fixpoint g_run (move : nat → gstate → option gstate) (l : list nat) (s : gstate) : option gstate :=
  match l with
  | [] => Some s
  | i :: l => s' ← move i s ; g_run move l s'
  end.

Lemma g_run_rtc junk l s s' : g_run (good_move junk) l s = Some s' → rtc (gstep junk) s s'.
Proof.
  elim: l s => [|i l IH] s; [intros [= ->]; apply rtc_refl|]. cbn. destruct (good_move junk i s) as [s1|] eqn:E; [|done].
  intros H. eapply rtc_l; [exact (gstep_move junk i s s1 E)|exact (IH s1 H)].
Qed.

(** Two processes add 2 and 3; the second arrives before the set is
    initialized. *)
Definition good_end : gstate :=
  default (g_start []) (g_run (good_move 7) [0; 1; 1; 1; 0; 1; 0; 0; 1; 1]%nat (g_start [cs "2"; cs "3"])).

Lemma good_end_reached : rtc (gstep 7) (g_start [cs "2"; cs "3"]) good_end.
Proof. by apply (g_run_rtc 7 [0; 1; 1; 1; 0; 1; 0; 0; 1; 1]%nat). Qed.

Lemma good_init_safe_witness : ∃ x, g_set good_end = Some x ∧ semval x = 5.
Proof.
  destruct (good_init_safe 7 _ good_end good_end_reached) as (H & _ & _).
  exists (SemSet 5 true). split; [by vm_compute|]. by rw (H (SemSet 5 true)); vm_compute.
Defined.

(** In the other program the addition of a second process is lost when it comes
    between creation and initialization: both succeed and the value is 1. *)
Lemma bad_init_loses :
  g_run (bad_move 0) [0; 1; 1; 1; 0; 0]%nat (g_start [[]; []]) =
    Some (GState (Some (SemSet 1 true)) [GProc (GExit EXIT_SUCCESS) None; GProc (GExit EXIT_SUCCESS) None]).
Proof. by vm_compute. Qed.
