(* ===== verification/Daemon.v ===== *)
(** * Becoming a daemon: [daemons/become_daemon.c]

    The function forks twice and each parent ends at once, so a run of the model
    follows one of the three processes: [fork] returns 0 in the child and the
    child's ID in the parent.  [pview] is what the function changes of the
    process it runs in. *)

From S2P Require Import Prelude ErrFns Tlpi.

Definition BD_NO_CHDIR : Z := 1.
Definition BD_NO_CLOSE_FILES : Z := 2.
Definition BD_NO_REOPEN_STD_FDS : Z := 4.
Definition BD_NO_UMASK0 : Z := 8.
Definition BD_MAX_CLOSE : Z := 8192.

Definition STDIN_FILENO : Z := 0.
Definition STDOUT_FILENO : Z := 1.
Definition STDERR_FILENO : Z := 2.
Definition DEV_NULL : cstring := cs "/dev/null".

Class DaemonOS (K : Type) := {
  dk_fork : K → res Z * K;
  dk_setsid : K → res Z * K;
  dk_umask : Z → K → K;
  dk_chdir : cstring → K → res unit * K;
  dk_open_max : K → res Z * K;
  dk_close : Z → K → res unit * K;
  dk_open : cstring → K → res Z * K;
  dk_dup2 : Z → Z → K → res Z * K;
}.

Section daemon.
Context {K : Type} `{!DaemonOS K}.
Abbreviation T := (M (tproc K)).

(** [_exit] does not flush. *)
Definition fork_and_leave (k : T Z) : T Z :=
  r ← tcall dk_fork ;
  match r with
  | None => mret (-1)
  | Some pid => if pid =? 0 then k else exit EXIT_SUCCESS
  end.

(** [for (fd = lo; fd < maxfd; fd++) close(fd)], [n] turns. *)
Fixpoint close_from (lo : Z) (n : nat) : T unit :=
  match n with
  | O => mret tt
  | S n => tcall (dk_close lo) ;; close_from (lo + 1) n
  end.

Definition close_all : T unit :=
  r ← tcall dk_open_max ;
  let maxfd := match r with None => BD_MAX_CLOSE | Some n => to_int n end in
  let maxfd := if maxfd =? -1 then BD_MAX_CLOSE else maxfd in
  close_from 0 (Z.to_nat maxfd).

Definition reopen_std (k : T Z) : T Z :=
  tcall (dk_close STDIN_FILENO) ;;
  fd ← tcall (dk_open DEV_NULL) ;
  if negb (bool_decide (fd = Some STDIN_FILENO)) then mret (-1) else
  r ← tcall (dk_dup2 STDIN_FILENO STDOUT_FILENO) ;
  if negb (bool_decide (r = Some STDOUT_FILENO)) then mret (-1) else
  r ← tcall (dk_dup2 STDIN_FILENO STDERR_FILENO) ;
  if negb (bool_decide (r = Some STDERR_FILENO)) then mret (-1) else k.

Definition becomeDaemon (flags : Z) : T Z :=
  fork_and_leave (
  r ← tcall dk_setsid ;
  match r with
  | None => mret (-1)
  | Some _ =>
      fork_and_leave (
      when (negb (flag flags BD_NO_UMASK0)) (tsys_ (dk_umask 0)) ;;
      when (negb (flag flags BD_NO_CHDIR)) (tcall (dk_chdir (cs "/")) ;; mret tt) ;;
      when (negb (flag flags BD_NO_CLOSE_FILES)) close_all ;;
      if negb (flag flags BD_NO_REOPEN_STD_FDS) then reopen_std (mret 0) else mret 0)
  end).
End daemon.

(** ** What the calls do *)

Record pview := PView {
  pv_pid : Z; pv_pgid : Z; pv_sid : Z;
  pv_tty : bool;                   (** has a controlling terminal *)
  pv_umask : Z; pv_cwd : cstring;
  pv_fds : gmap Z cstring }.       (** what each descriptor is open on *)

Definition with_fds (v : pview) (fds : gmap Z cstring) : pview :=
  PView (pv_pid v) (pv_pgid v) (pv_sid v) (pv_tty v) (pv_umask v) (pv_cwd v) fds.

Definition with_umask (v : pview) (m : Z) : pview :=
  PView (pv_pid v) (pv_pgid v) (pv_sid v) (pv_tty v) m (pv_cwd v) (pv_fds v).
Definition with_cwd (v : pview) (p : cstring) : pview :=
  PView (pv_pid v) (pv_pgid v) (pv_sid v) (pv_tty v) (pv_umask v) p (pv_fds v).
(** In a child, and in the leader of a new session. *)
Definition with_pid (v : pview) (pid : Z) : pview :=
  PView pid (pv_pgid v) (pv_sid v) (pv_tty v) (pv_umask v) (pv_cwd v) (pv_fds v).
Definition in_session (v : pview) : pview :=
  PView (pv_pid v) (pv_pid v) (pv_pid v) false (pv_umask v) (pv_cwd v) (pv_fds v).

(** The lowest number that is not open. *)
Definition lowest_free (fds : gmap Z cstring) (fd : Z) : Prop :=
  0 ≤ fd ∧ fds !! fd = None ∧ ∀ n, 0 ≤ n < fd → is_Some (fds !! n).

Class DaemonOSOk (K : Type) `{!DaemonOS K} := {
  dk_view : K → pview;
  dk_limit : K → option Z;         (** RLIMIT_NOFILE, where there is one *)
  (** A child has a number of its own, no process group or session is known by. *)
  dk_fork_ok k n k' : dk_fork k = (inr n, k') → dk_limit k' = dk_limit k ∧
    if n =? 0 then ∃ pid, pid ≠ pv_pid (dk_view k) ∧ pid ≠ pv_pgid (dk_view k) ∧ pid ≠ pv_sid (dk_view k) ∧
      dk_view k' = with_pid (dk_view k) pid
    else dk_view k' = dk_view k;
  dk_setsid_ok k n k' : dk_setsid k = (inr n, k') → dk_limit k' = dk_limit k ∧
    pv_pid (dk_view k) ≠ pv_pgid (dk_view k) ∧ dk_view k' = in_session (dk_view k);
  dk_umask_ok m k : dk_limit (dk_umask m k) = dk_limit k ∧ dk_view (dk_umask m k) = with_umask (dk_view k) m;
  dk_chdir_ok p k r k' : dk_chdir p k = (r, k') → dk_limit k' = dk_limit k ∧
    dk_view k' = match r with inl _ => dk_view k | inr _ => with_cwd (dk_view k) p end;
  dk_open_max_ok k r k' : dk_open_max k = (r, k') → k' = k ∧
    dk_limit k = match r with inl _ => None | inr n => Some n end;
  (** The descriptor is free afterwards, whatever the result. *)
  dk_close_ok fd k r k' : dk_close fd k = (r, k') → dk_limit k' = dk_limit k ∧
    dk_view k' = with_fds (dk_view k) (delete fd (pv_fds (dk_view k)));
  dk_open_ok k fd k' : dk_open DEV_NULL k = (inr fd, k') → dk_limit k' = dk_limit k ∧
    lowest_free (pv_fds (dk_view k)) fd ∧
    dk_view k' = with_fds (dk_view k) (<[fd := DEV_NULL]> (pv_fds (dk_view k)));
  dk_dup2_ok a b k n k' : dk_dup2 a b k = (inr n, k') → dk_limit k' = dk_limit k ∧ n = b ∧
    ∃ p, pv_fds (dk_view k) !! a = Some p ∧
      dk_view k' = with_fds (dk_view k) (<[b := p]> (pv_fds (dk_view k)));
}.

(** Nothing that can be granted is refused. *)
Class DaemonWorks (K : Type) `{!DaemonOS K, !DaemonOSOk K} : Prop := {
  dw_fork k : ∃ n k', dk_fork k = (inr n, k');
  dw_setsid k : pv_pid (dk_view k) ≠ pv_pgid (dk_view k) → ∃ n k', dk_setsid k = (inr n, k');
  dw_chdir k : ∃ k', dk_chdir (cs "/") k = (inr tt, k');
  dw_open k : pv_fds (dk_view k) !! STDIN_FILENO = None → ∃ fd k', dk_open DEV_NULL k = (inr fd, k');
  dw_dup2 a b k : is_Some (pv_fds (dk_view k) !! a) → STDOUT_FILENO ≤ b ≤ STDERR_FILENO →
    ∃ n k', dk_dup2 a b k = (inr n, k');
}.

(** ** A daemon *)

(** Descriptors below [n] closed. *)
Definition closed_below (n : Z) (fds : gmap Z cstring) : gmap Z cstring :=
  filter (λ x, ¬ (0 ≤ x.1 < n)) fds.

(** The standard descriptors open on /dev/null. *)
Definition null_std (fds : gmap Z cstring) : gmap Z cstring :=
  <[STDERR_FILENO := DEV_NULL]> (<[STDOUT_FILENO := DEV_NULL]> (<[STDIN_FILENO := DEV_NULL]> fds)).

(** How many descriptors are closed: the limit, or a guess where there is
    none. *)
Definition close_count (limit : option Z) : Z :=
  match limit with
  | None => BD_MAX_CLOSE
  | Some n => if to_int n =? -1 then BD_MAX_CLOSE else to_int n
  end.

(** What the descriptors are afterwards. *)
Definition daemon_fds (flags : Z) (limit : option Z) (fds : gmap Z cstring) : gmap Z cstring :=
  let fds := if flag flags BD_NO_CLOSE_FILES then fds else closed_below (close_count limit) fds in
  if flag flags BD_NO_REOPEN_STD_FDS then fds else null_std fds.

(** [v'] is the daemon that [v] became; [W] says that nothing was refused. *)
Record daemonized (W : Prop) (flags : Z) (limit : option Z) (v v' : pview) : Prop := {
  da_not_leader : pv_pid v' ≠ pv_sid v' ∧ pv_pid v' ≠ pv_pgid v';
  da_session : pv_sid v' ≠ pv_sid v ∧ pv_pgid v' = pv_sid v';
  da_no_tty : pv_tty v' = false;
  da_umask : pv_umask v' = if flag flags BD_NO_UMASK0 then pv_umask v else 0;
  da_cwd : if flag flags BD_NO_CHDIR then pv_cwd v' = pv_cwd v
           else pv_cwd v' = cs "/" ∨ pv_cwd v' = pv_cwd v ∧ ¬ W;
  da_fds : pv_fds v' = daemon_fds flags limit (pv_fds v);
}.

Section proofs.
Context {K : Type} `{!DaemonOS K, !DaemonOSOk K}.
Implicit Types s : tproc K.
Abbreviation view s := (dk_view (t_os s)).

Lemma tcall_any {A} (f : K → res A * K) s :
  ∃ o s', tcall f s = (Ret o, s') ∧
    match o with Some v => f (t_os s) = (inr v, t_os s') | None => ∃ e, f (t_os s) = (inl e, t_os s') end.
Proof.
  rw /tcall /tsys /mbind /M_bind. destruct (f (t_os s)) as [[e|v] k].
  - eexists _, _. split; [reflexivity|]. by exists e.
  - eexists _, _. by split.
Qed.

Definition ends {A} (m : M (tproc K) A) (Q : A → tproc K → Prop) (E : tproc K → Prop) s : Prop :=
  match m s with
  | (Ret a, s') => Q a s'
  | (Exit n, s') => n = EXIT_SUCCESS ∧ E s'
  | _ => False
  end.

Lemma ends_bind {A B} (m : M (tproc K) A) (k : A → M (tproc K) B) Q E s :
  ends m (λ a, ends (k a) Q E) E s → ends (m ≫= k) Q E s.
Proof. rw /ends /mbind /M_bind. by destruct (m s) as [[] ?]. Qed.

Lemma ends_conseq {A} (m : M (tproc K) A) (Q Q' : A → tproc K → Prop) E s :
  ends m Q E s → (∀ a s', Q a s' → Q' a s') → ends m Q' E s.
Proof. rw /ends => H HQ. destruct (m s) as [[] ?]; eauto. Qed.

Lemma ends_tcall {A B} (f : K → res A * K) (k : option A → M (tproc K) B) Q E s :
  (∀ v s', f (t_os s) = (inr v, t_os s') → ends (k (Some v)) Q E s') →
  (∀ e s', f (t_os s) = (inl e, t_os s') → ends (k None) Q E s') →
  ends (tcall f ≫= k) Q E s.
Proof.
  intros H1 H2. destruct (tcall_any f s) as ([v|] & s' & Hf & Ho); rw /ends (bind_Ret _ _ _ _ _ Hf).
  - by apply H1.
  - destruct Ho as [e Ho]. by apply H2 in Ho.
Qed.

Lemma closed_below_step lo n (fds : gmap Z cstring) :
  0 ≤ lo → filter (λ x, ¬ (lo + 1 ≤ x.1 < lo + 1 + n)) (delete lo fds) =
    filter (λ x, ¬ (lo ≤ x.1 < lo + 1 + n)) fds ∨ n < 0.
Proof.
  intros Hlo. destruct (decide (n < 0)); [by right|left]. apply map_eq. intros x. apply option_eq. intros p.
  rw !map_lookup_filter_Some. rw lookup_delete_Some /=. split; [|intros [? ?]; split_and!]; naive_solver lia.
Qed.

Lemma close_from_spec lo n s :
  0 ≤ lo →
  ∃ s', close_from lo n s = (Ret tt, s') ∧ dk_limit (t_os s') = dk_limit (t_os s) ∧
    view s' = with_fds (view s) (filter (λ x, ¬ (lo ≤ x.1 < lo + Z.of_nat n)) (pv_fds (view s))).
Proof.
  elim: n lo s => [|n IH] lo s Hlo; cbn [close_from].
  - exists s. split; [done|]. split; [done|]. rw map_filter_id; [intros; cbn; lia|]. by destruct (view s).
  - destruct (tcall_any (dk_close lo) s) as (o & s1 & H1 & Ho).
    assert (dk_limit (t_os s1) = dk_limit (t_os s) ∧
      view s1 = with_fds (view s) (delete lo (pv_fds (view s)))) as [Hl1 Hv1].
    { destruct o; [|destruct Ho as [e Ho]]; by apply dk_close_ok in Ho. }
    destruct (IH (lo + 1) s1 ltac:(lia)) as (s2 & H2 & Hl2 & Hv2).
    exists s2. rw (bind_Ret _ _ _ _ _ H1). split; [done|]. split; [by rw Hl2|]. rw Hv2 Hv1 /with_fds /=. f_equal.
    destruct (closed_below_step lo (Z.of_nat n) (pv_fds (view s)) Hlo) as [->|?]; [|lia].
    by replace (lo + Z.of_nat (S n)) with (lo + 1 + Z.of_nat n) by lia.
Qed.

(** A refused call is one the kernel need not have refused. *)
Abbreviation W := (DaemonWorks K).

Lemma close_all_spec s :
  ∃ s', close_all s = (Ret tt, s') ∧
    view s' = with_fds (view s) (closed_below (close_count (dk_limit (t_os s))) (pv_fds (view s))).
Proof.
  rw /close_all. destruct (tcall_any dk_open_max s) as (o & s1 & H1 & Ho). rw (bind_Ret _ _ _ _ _ H1).
  assert (t_os s1 = t_os s ∧ dk_limit (t_os s) = o) as [Hs ->].
  { destruct o; [|destruct Ho as [e Ho]]; by apply dk_open_max_ok in Ho. }
  set (n := if _ =? _ then _ else _). destruct (close_from_spec 0 (Z.to_nat n) s1) as (s2 & H2 & _ & Hv); [done|].
  exists s2. split; [done|]. rw Hv Hs. f_equal. rw /closed_below.
  assert (n = close_count o) as <-. { rw /n /close_count. by destruct o. }
  apply map_filter_ext. intros fd p _. cbn. lia.
Qed.

Lemma ends_dup2 b p (k : M (tproc K) Z) Q E s :
  pv_fds (view s) !! STDIN_FILENO = Some p → STDOUT_FILENO ≤ b ≤ STDERR_FILENO →
  (∀ s', ¬ W → Q (-1) s') →
  (∀ s', view s' = with_fds (view s) (<[b := p]> (pv_fds (view s))) → ends k Q E s') →
  ends (r ← tcall (dk_dup2 STDIN_FILENO b) ;
        if negb (bool_decide (r = Some b)) then mret (-1) else k) Q E s.
Proof.
  intros Hp Hb Hbad Hok. apply ends_tcall.
  - intros n s1 (_ & -> & p' & Hp' & Hv)%dk_dup2_ok. rw bool_decide_eq_true_2 //=. apply Hok. congruence.
  - intros e s1 H. apply Hbad. intros Hw.
    destruct (dw_dup2 STDIN_FILENO b (t_os s)) as (? & ? & ?); [by exists p|done|congruence].
Qed.

Lemma ends_open_null (k : M (tproc K) Z) Q E s :
  pv_fds (view s) !! STDIN_FILENO = None →
  (∀ s', ¬ W → Q (-1) s') →
  (∀ s', view s' = with_fds (view s) (<[STDIN_FILENO := DEV_NULL]> (pv_fds (view s))) → ends k Q E s') →
  ends (fd ← tcall (dk_open DEV_NULL) ;
        if negb (bool_decide (fd = Some STDIN_FILENO)) then mret (-1) else k) Q E s.
Proof.
  intros Hnone Hbad Hok. apply ends_tcall.
  - intros fd s1 (_ & (Hfd & _ & Hlow) & Hv)%dk_open_ok.
    assert (fd = STDIN_FILENO) as ->.
    { destruct (decide (fd = STDIN_FILENO)) as [|Hne]; [done|]. destruct (Hlow STDIN_FILENO) as [p Hp]; [|congruence].
      rw /STDIN_FILENO in Hne *. lia. }
    rw bool_decide_eq_true_2 //=. by apply Hok.
  - intros e s1 H. apply Hbad. intros Hw. destruct (dw_open (t_os s)) as (? & ? & ?); [done|congruence].
Qed.

Lemma reopen_std_spec s (Q : Z → tproc K → Prop) E :
  (∀ s', ¬ W → Q (-1) s') →
  (∀ s', view s' = with_fds (view s) (null_std (pv_fds (view s))) → Q 0 s') →
  ends (reopen_std (mret 0)) Q E s.
Proof.
  intros Hbad Hok. rw /reopen_std. destruct (tcall_any (dk_close STDIN_FILENO) s) as (o & s1 & H1 & Ho).
  assert (view s1 = with_fds (view s) (delete STDIN_FILENO (pv_fds (view s)))) as Hv1.
  { destruct o; [|destruct Ho as [e Ho]]; by apply dk_close_ok in Ho as [_ Ho]. }
  rw /ends (bind_Ret _ _ _ _ _ H1) -/(ends _ _ _ _).
  apply ends_open_null; [by rw Hv1 /= lookup_delete_eq|done|]. intros s2 Hv2.
  eapply ends_dup2; [by rw Hv2 /= lookup_insert_eq|done|done|]. intros s3 Hv3.
  eapply ends_dup2; [by rw Hv3 /= lookup_insert_ne // Hv2 /= lookup_insert_eq|done|done|].
  intros s4 Hv4. apply Hok. rw Hv4 Hv3 Hv2 Hv1 /with_fds /null_std /=. f_equal. do 2 f_equal. by rw insert_delete_eq.
Qed.

(** The mask, the directory and the descriptors, one after another. *)
Lemma set_umask_spec flags s :
  ∃ s', when (negb (flag flags BD_NO_UMASK0)) (tsys_ (dk_umask 0)) s = (Ret tt, s') ∧
    dk_limit (t_os s') = dk_limit (t_os s) ∧
    view s' = with_umask (view s) (if flag flags BD_NO_UMASK0 then pv_umask (view s) else 0).
Proof.
  destruct (flag flags BD_NO_UMASK0); cbn.
  - exists s. do 2 (split; [done|]). by destruct (view s).
  - eexists. split; [reflexivity|]. cbn. by destruct (dk_umask_ok 0 (t_os s)).
Qed.

Definition moved_to (flags : Z) (old new : cstring) : Prop :=
  if flag flags BD_NO_CHDIR then new = old else new = cs "/" ∨ new = old ∧ ¬ W.

Lemma change_dir_spec flags s :
  ∃ s' cwd, when (negb (flag flags BD_NO_CHDIR)) (tcall (dk_chdir (cs "/")) ;; mret tt) s = (Ret tt, s') ∧
    dk_limit (t_os s') = dk_limit (t_os s) ∧ moved_to flags (pv_cwd (view s)) cwd ∧
    view s' = with_cwd (view s) cwd.
Proof.
  rw /moved_to. destruct (flag flags BD_NO_CHDIR); cbn.
  - exists s, (pv_cwd (view s)). do 3 (split; [done|]). by destruct (view s).
  - destruct (tcall_any (dk_chdir (cs "/")) s) as (o & s1 & H1 & Ho). exists s1. rw (bind_Ret _ _ _ _ _ H1).
    destruct o as [[]|]; [exists (cs "/")|destruct Ho as [e Ho]; exists (pv_cwd (view s))];
      (split; [done|]); pose proof (dk_chdir_ok _ _ _ _ Ho) as [? Hv]; [by auto|].
    split; [done|]. split; [|by rw Hv; destruct (view s)].
    right. split; [done|]. intros Hw. destruct (dw_chdir (t_os s)) as [? ?]. congruence.
Qed.

Lemma close_files_spec flags s :
  ∃ s', when (negb (flag flags BD_NO_CLOSE_FILES)) close_all s = (Ret tt, s') ∧
    view s' = with_fds (view s) (if flag flags BD_NO_CLOSE_FILES then pv_fds (view s)
      else closed_below (close_count (dk_limit (t_os s))) (pv_fds (view s))).
Proof.
  destruct (flag flags BD_NO_CLOSE_FILES); cbn.
  - exists s. split; [done|]. by destruct (view s).
  - apply close_all_spec.
Qed.

Lemma settle_spec flags s (Q : Z → tproc K → Prop) E :
  (∀ s', ¬ W → Q (-1) s') →
  (∀ s' cwd, moved_to flags (pv_cwd (view s)) cwd →
     view s' = with_fds (with_cwd (with_umask (view s)
       (if flag flags BD_NO_UMASK0 then pv_umask (view s) else 0)) cwd)
       (daemon_fds flags (dk_limit (t_os s)) (pv_fds (view s))) → Q 0 s') →
  ends (when (negb (flag flags BD_NO_UMASK0)) (tsys_ (dk_umask 0)) ;;
        when (negb (flag flags BD_NO_CHDIR)) (tcall (dk_chdir (cs "/")) ;; mret tt) ;;
        when (negb (flag flags BD_NO_CLOSE_FILES)) close_all ;;
        if negb (flag flags BD_NO_REOPEN_STD_FDS) then reopen_std (mret 0) else mret 0) Q E s.
Proof.
  intros Hbad Hok. destruct (set_umask_spec flags s) as (s1 & H1 & Hl1 & Hv1).
  destruct (change_dir_spec flags s1) as (s2 & cwd & H2 & Hl2 & Hc & Hv2).
  destruct (close_files_spec flags s2) as (s3 & H3 & Hv3).
  rw /ends (bind_Ret _ _ _ _ _ H1) (bind_Ret _ _ _ _ _ H2) (bind_Ret _ _ _ _ _ H3) -/(ends _ _ _ _).
  rw Hv1 /= in Hc. rw Hv2 Hv1 Hl2 Hl1 /= in Hv3. rw /daemon_fds in Hok.
  destruct (flag flags BD_NO_REOPEN_STD_FDS); cbn [negb].
  - apply (Hok _ cwd); [done|]. by rw Hv3.
  - apply reopen_std_spec; [done|]. intros s4 Hv4. apply (Hok _ cwd); [done|]. by rw Hv4 Hv3.
Qed.

Lemma fork_and_leave_spec (k : M (tproc K) Z) (Q : Z → tproc K → Prop) (E : tproc K → Prop) s :
  (∀ s', ¬ W → Q (-1) s') →
  (∀ s', view s' = view s → E s') →
  (∀ s' pid, dk_limit (t_os s') = dk_limit (t_os s) → pid ≠ pv_pid (view s) → pid ≠ pv_pgid (view s) →
     pid ≠ pv_sid (view s) → view s' = with_pid (view s) pid → ends k Q E s') →
  ends (fork_and_leave k) Q E s.
Proof.
  intros Hbad HE Hk. apply ends_tcall.
  - intros n s' H. apply dk_fork_ok in H as [Hl H]. destruct (n =? 0).
    + destruct H as (pid & ? & ? & ? & ?). eauto.
    + split; [done|by apply HE].
  - intros e s' H. apply Hbad. intros Hw. destruct (dw_fork (t_os s)) as (? & ? & ?). congruence.
Qed.

(** C26: [becomeDaemon] returns 0 only in a process that is neither a session
    nor a group leader, whose session is a new one without a controlling
    terminal, whose umask, working directory and descriptors are what the flags
    ask for: all below the limit closed, the standard ones on /dev/null.  It
    returns -1 only where the kernel refused what it could have granted, and
    [chdir] is the one call whose refusal goes unnoticed.  The processes it
    leaves behind exit with success, their directory, umask and descriptors
    untouched. *)
Theorem becomeDaemon_daemonizes flags s :
  match becomeDaemon flags s with
  | (Ret r, s') => r = -1 ∧ ¬ W ∨ r = 0 ∧ daemonized W flags (dk_limit (t_os s)) (view s) (view s')
  | (Exit n, s') => n = EXIT_SUCCESS ∧ pv_fds (view s') = pv_fds (view s) ∧
      pv_cwd (view s') = pv_cwd (view s) ∧ pv_umask (view s') = pv_umask (view s)
  | _ => False
  end.
Proof.
  pose (Q := λ r s', r = -1 ∧ ¬ W ∨ r = 0 ∧ daemonized W flags (dk_limit (t_os s)) (view s) (view s')).
  pose (E := λ s', pv_fds (view s') = pv_fds (view s) ∧
    pv_cwd (view s') = pv_cwd (view s) ∧ pv_umask (view s') = pv_umask (view s)).
  enough (ends (becomeDaemon flags) Q E s) as H by exact H.
  apply fork_and_leave_spec; [by left|by intros s' H; rw /E H|].
  intros s1 pid1 Hl1 Hpid1 Hpg1 Hsid1 Hv1. apply ends_tcall.
  2: { intros e s2 H. left. split; [done|]. intros Hw.
       destruct (dw_setsid (t_os s1)) as (? & ? & ?); [by rw Hv1|congruence]. }
  intros sid s2 (Hl2 & _ & Hv2)%dk_setsid_ok. rw Hv1 in Hv2.
  apply fork_and_leave_spec; [by left|by intros s' H; rw /E H Hv2|].
  intros s3 pid2 Hl3 Hpid2 _ _ Hv3. rw Hv2 /= in Hpid2. rw Hv2 in Hv3.
  apply settle_spec; [by left|]. intros s4 cwd Hc Hv4. right. split; [done|].
  rw Hl3 Hl2 Hl1 Hv3 /= in Hv4. rw Hv3 /= in Hc. split; rw Hv4 //=.
Qed.
End proofs.

(** ** A kernel that does as asked *)

Module DaemonSim.
Record kern := Kern { k_view : pview; k_child : list bool; k_max : option Z }.

Definition EMFILE : Z := 24.
Definition new_pid (v : pview) : Z := 1 + Z.max (pv_pid v) (Z.max (pv_pgid v) (pv_sid v)).
Definition set_view (k : kern) (v : pview) : kern := Kern v (k_child k) (k_max k).

(** [k_child] says at each [fork] which of the two processes to follow. *)
Definition sim_fork (k : kern) : res Z * kern :=
  let v := k_view k in
  match k_child k with
  | false :: l => (inr (Z.max 1 (new_pid v)), Kern v l (k_max k))
  | l => (inr 0, Kern (with_pid v (new_pid v)) (tail l) (k_max k))
  end.

#[export] Instance daemon_sim_os : DaemonOS kern := {
  dk_fork := sim_fork;
  dk_setsid k := let v := k_view k in
    if pv_pid v =? pv_pgid v then (inl EPERM, k) else (inr (pv_pid v), set_view k (in_session v));
  dk_umask m k := set_view k (with_umask (k_view k) m);
  dk_chdir p k := (inr tt, set_view k (with_cwd (k_view k) p));
  dk_open_max k := (match k_max k with None => inl EINVAL | Some n => inr n end, k);
  dk_close fd k := (inr tt, set_view k (with_fds (k_view k) (delete fd (pv_fds (k_view k)))));
  dk_open p k := match pv_fds (k_view k) !! 0 with
    | None => (inr 0, set_view k (with_fds (k_view k) (<[0 := p]> (pv_fds (k_view k)))))
    | Some _ => (inl EMFILE, k)
    end;
  dk_dup2 a b k := match pv_fds (k_view k) !! a with
    | None => (inl EBADF, k)
    | Some p => (inr b, set_view k (with_fds (k_view k) (<[b := p]> (pv_fds (k_view k)))))
    end;
}.

#[export, refine] Instance daemon_sim_ok : DaemonOSOk kern := { dk_view := k_view; dk_limit := k_max }.
Proof.
  - intros [v [|[] l] m] n k'; cbn [dk_fork daemon_sim_os sim_fork k_child k_view k_max tail]; intros [= <- <-];
      (split; [done|]); cbn.
    1,2: exists (new_pid v); rw /new_pid; split_and!; [lia..|done].
    by destruct (Z.eqb_spec (Z.max 1 (new_pid v)) 0); [lia|].
  - intros k n k'. cbn. destruct (Z.eqb_spec (pv_pid (k_view k)) (pv_pgid (k_view k))); [done|]. by intros [= <- <-].
  - done.
  - by intros p k r k' [= <- <-].
  - intros k r k' [= <- <-]. split; [done|]. by destruct (k_max k).
  - by intros fd k r k' [= <- <-].
  - intros k fd k'. cbn. destruct (pv_fds (k_view k) !! 0) eqn:H; [done|]. intros [= <- <-].
    split; [done|]. split; [|done]. split; [done|]. split; [done|]. lia.
  - intros a b k n k'. cbn. destruct (pv_fds (k_view k) !! a) eqn:H; [|done]. intros [= <- <-]. eauto.
Defined.

#[export] Instance daemon_sim_works : DaemonWorks kern.
Proof.
  split.
  - intros [v [|[] l] m]; cbn; eauto.
  - intros k H. cbn. destruct (Z.eqb_spec (pv_pid (k_view k)) (pv_pgid (k_view k))); [done|eauto].
  - intros k. cbn. eauto.
  - intros k H. cbn. rw H. eauto.
  - intros a b k [p H] _. cbn. rw H. eauto.
Qed.

(** A shell's job: group leader in the shell's session, with a terminal. *)
Definition job (child : list bool) : tproc kern :=
  TProc (EState [] [] [] 0)
    (Kern (PView 120 120 100 true 18 (cs "/home/user")
       {[0 := cs "/dev/tty"; 1 := cs "/dev/tty"; 2 := cs "/dev/tty"; 5 := cs "log"]}) child (Some 16)).
End DaemonSim.
Import DaemonSim.

(** At a job of a shell: the grandchild returns, as a daemon in /. *)
Lemma becomeDaemon_daemonizes_witness :
  ∃ s', becomeDaemon 0 (job [true; true]) = (Ret 0, s') ∧
    daemonized (DaemonWorks kern) 0 (Some 16) (k_view (t_os (job []))) (k_view (t_os s')) ∧
    pv_cwd (k_view (t_os s')) = cs "/" ∧ pv_fds (k_view (t_os s')) !! 5 = None.
Proof.
  pose proof (becomeDaemon_daemonizes 0 (job [true; true])) as H.
  destruct (becomeDaemon 0 (job [true; true])) as [o s'] eqn:E. vm_compute in E. injection E as <- <-.
  destruct H as [[[=] _]|[_ H]]. eexists. split; [reflexivity|]. split; [exact H|]. by split.
Defined.
