(* ===== verification/Sendfile.v ===== *)
(** * [sendfile] in user space: [sockets/sendfile.c]

    A client of the interface of FileIO.  A write may be partial; the function
    then goes on with what follows the characters it has read. *)

From S2P Require Import Prelude CStdlib ErrFns GetNum Tlpi FileIO.

Definition BUF_SIZE : nat := Z.to_nat 8192.

Section sendfile.
Context {K : Type} `{!TlpiEnv K, !FileOS K}.
Abbreviation T := (M (tproc K)).

(** The characters sent, [None] after an error. *)
Fixpoint send_loop (fuel : nat) (out_fd in_fd : Z) (count totSent : nat) : T (option nat) :=
  match fuel with
  | O => stop NoFuel
  | S fuel =>
      if (0 <? count)%nat then
        let toRead := Nat.min BUF_SIZE count in
        numRead ← tcall (fo_read in_fd toRead) ;
        match numRead with
        | None => mret None
        | Some [] => mret (Some totSent)
        | Some buf =>
            numSent ← tcall (fo_write out_fd buf) ;
            match numSent with
            | None => mret None
            | Some O => tfatal (cs "sendfile: write() transferred 0 bytes")
            | Some n => send_loop fuel out_fd in_fd (count - n) (totSent + n)
            end
        end
      else mret (Some totSent)
  end.

(** The result, with what the argument [offset] points to afterwards. *)
Definition sendfile (fuel : nat) (out_fd in_fd : Z) (offset : option Z) (count : nat) : T (Z * option Z) :=
  match offset with
  | None =>
      totSent ← send_loop fuel out_fd in_fd count 0 ;
      mret (match totSent with Some n => wrapS 64 (Z.of_nat n) | None => -1 end, None)
  | Some z =>
      orig ← tcall (fo_lseek in_fd 0 SEEK_CUR) ;
      match orig with
      | None => mret (-1, Some z)
      | Some orig =>
          r ← tcall (fo_lseek in_fd z SEEK_SET) ;
          match r with
          | None => mret (-1, Some z)
          | Some _ =>
              totSent ← send_loop fuel out_fd in_fd count 0 ;
              match totSent with
              | None => mret (-1, Some z)
              | Some n =>
                  new ← tcall (fo_lseek in_fd 0 SEEK_CUR) ;
                  match new with
                  | None => mret (-1, Some (-1))
                  | Some new =>
                      r ← tcall (fo_lseek in_fd orig SEEK_SET) ;
                      match r with
                      | None => mret (-1, Some new)
                      | Some _ => mret (wrapS 64 (Z.of_nat n), Some new)
                      end
                  end
              end
          end
      end
  end.
End sendfile.

(** ** Writing piece by piece *)

Lemma write_at_ne c off d :
  d ≠ [] → write_at c off d =
    take off c ++ replicate (off - length c) NUL ++ d ++ drop (off + length d) c.
Proof. by destruct d. Qed.

Lemma write_at_app c off a b :
  write_at (write_at c off a) (off + length a) b = write_at c off (a ++ b).
Proof.
  destruct (decide (a = [])) as [->|Ha]; [by rw Nat.add_0_r|].
  destruct (decide (b = [])) as [->|Hb]; [by rw app_nil_r|].
  rw (write_at_ne c off a Ha) (write_at_ne c off (a ++ b)); [by destruct a|]. rw write_at_ne //.
  rw !app_assoc. set (p := take off c ++ _).
  assert (length p = off) as Hp by (rw /p length_app length_take length_replicate; lia).
  set (r := drop (off + length a) c).
  assert (length (p ++ a) = off + length a)%nat as Hpa by (by rw length_app Hp).
  rw take_app_length'; [by rw Hpa|]. rw (proj2 (Nat.sub_0_le _ _)); [rw length_app; lia|].
  rw app_nil_r. f_equal. rw drop_app_ge; [lia|]. rw Hpa /r drop_drop length_app. f_equal. lia.
Qed.

(** ** What is sent *)

Section proofs.
Context {K : Type} `{!TlpiEnv K, !FileOS K, !FileOSOk K}.
Implicit Types s : tproc K.
Abbreviation view s := (fo_view (t_os s)).
Abbreviation W := (FileWorks K).

(** Two files with a descriptor for each: [src] is read, [dst] is written at
    [at0]. *)
Context (i j : nat) (in_fd out_fd : Z) (src dst : list ascii) (at0 : nat).

(** The descriptor of the source is at [pos], and [sent] has been written;
    [v0] is the rest. *)
Definition sending (v0 : fview) (pos : nat) (sent : list ascii) (k : K) : Prop :=
  fo_view k = FView (v_names v0) (<[j := write_at dst at0 sent]> (v_files v0))
    (<[out_fd := (j, at0 + length sent)%nat]> (<[in_fd := (i, pos)]> (v_fds v0))).

(** What the characters [sent] are, when [m] have been read from [start] on:
    some of these in their order, and all of them where writes are whole. *)
Definition drawn (start m : nat) (sent : list ascii) : Prop :=
  sublist sent (take m (drop start src)) ∧
  (W → sent = take m (drop start src) ∧ length sent = m).

Context (Hij : i ≠ j) (Hfd : in_fd ≠ out_fd).

Lemma sending_in v0 pos sent k :
  sending v0 pos sent k → v_files v0 !! i = Some src →
  v_fds (fo_view k) !! in_fd = Some (i, pos) ∧ v_files (fo_view k) !! i = Some src.
Proof.
  intros -> Hs. cbn. split.
  - rw lookup_insert_ne; [by apply not_eq_sym|]. by rw lookup_insert_eq.
  - by rw lookup_insert_ne; [by apply not_eq_sym|].
Qed.

Lemma sending_out v0 pos sent k :
  sending v0 pos sent k →
  v_fds (fo_view k) !! out_fd = Some (j, at0 + length sent)%nat ∧
  v_files (fo_view k) !! j = Some (write_at dst at0 sent).
Proof. intros ->. cbn. by rw !lookup_insert_eq. Qed.

Lemma sending_move v0 pos sent k k' pos' :
  sending v0 pos sent k →
  fo_view k' = FView (v_names (fo_view k)) (v_files (fo_view k)) (<[in_fd := (i, pos')]> (v_fds (fo_view k))) →
  sending v0 pos' sent k'.
Proof. rw /sending. intros Hk ->. rw Hk /=. f_equal. by rw insert_insert_ne // insert_insert_eq. Qed.

Lemma sending_write v0 pos sent k k' d :
  sending v0 pos sent k →
  fo_view k' = FView (v_names (fo_view k))
    (<[j := write_at (write_at dst at0 sent) (at0 + length sent) d]> (v_files (fo_view k)))
    (<[out_fd := (j, at0 + length sent + length d)%nat]> (v_fds (fo_view k))) →
  sending v0 pos (sent ++ d) k'.
Proof.
  rw /sending. intros Hk ->. rw Hk /= write_at_app !insert_insert_eq length_app. f_equal. do 2 f_equal. lia.
Qed.

Lemma drawn_more start m sent d n :
  drawn start m sent → d = take (length d) (drop (start + m) src) → (W → n = length d) →
  drawn start (m + length d) (sent ++ take n d).
Proof.
  intros [Hsub HW] Hd Hn. rw /drawn. rw -drop_drop in Hd.
  assert (take (m + length d) (drop start src) = take m (drop start src) ++ d) as ->.
  { rw -(take_drop_more m (drop start src) d) //. }
  split; [apply sublist_app; [done|apply sublist_take]|].
  intros w. destruct (HW w) as [E1 E2]. rw (Hn w) firstn_all length_app E2 -E1. done.
Qed.

Lemma send_loop_strict v0 start fuel count m sent s :
  v_files v0 !! i = Some src → (count < fuel)%nat →
  drawn start m sent → sending v0 (start + m) sent (t_os s) →
  strict (¬ W) (send_loop fuel out_fd in_fd count (length sent))
    (λ r s', match r with
       | None => ¬ W
       | Some n => ∃ m' sent', n = length sent' ∧ (n ≤ length sent + count)%nat ∧
           drawn start m' sent' ∧ sending v0 (start + m') sent' (t_os s') ∧
           (W → sent' = take (length sent + count) (drop start src))
       end) s.
Proof.
  intros Hsrc. elim: fuel count m sent s => [|fuel IH] count m sent s Hf Hd Hs; [lia|]. cbn [send_loop].
  destruct (Nat.ltb_spec 0 count) as [Hc|Hc].
  2: { assert (count = 0)%nat as -> by lia. strict_step. exists m, sent. rw Nat.add_0_r.
       split_and!; [done..|]. intros w. destruct Hd as [_ Hd]. destruct (Hd w) as [E1 <-]. by rw -E1. }
  destruct (sending_in _ _ _ _ Hs Hsrc) as [Hi Hic]. do 2 strict_step.
  2: { intros e k E. strict_step. refine (read_refused _ (Nat.min BUF_SIZE count) _ _ _ _ False Hi Hic _). by rw E. }
  intros d k Hr. destruct (fo_read_ok _ _ _ _ _ _ _ _ Hr Hi Hic) as (Ed & Hdl & He & Hv).
  pose proof (sending_move _ _ _ _ k _ Hs Hv) as Hs1. rw -Nat.add_assoc in Hs1.
  destruct d as [|x d].
  - strict_step. exists m, sent. rw Nat.add_0_r in Hs1. split_and!; [done|lia|done..|].
    intros w. destruct Hd as [_ Hd]. destruct (Hd w) as [E1 E2].
    destruct (He eq_refl) as [He'|He']; [rw /BUF_SIZE in He'; lia|]. rw -drop_drop in He'.
    apply (f_equal length) in He'. rw length_drop /= in He'. rw E1 !take_ge //; lia.
  - destruct (sending_out _ _ _ _ Hs1) as [Ho Hoc]. do 2 strict_step.
    2: { intros e k1 E. strict_step. refine (write_refused _ (x :: d) _ _ _ _ False Ho Hoc _). intros k'. by rw E. }
    intros n k1 Hw. destruct (fo_write_ok _ _ _ _ _ _ _ _ Hw Ho Hoc) as (Hn & Hv1).
    assert (W → n = length (x :: d)) as Hfull.
    { intros w. destruct (fw_write out_fd (x :: d) k _ _ _ Ho Hoc) as [k2 E]. cbn in Hw. rw E in Hw. by injection Hw. }
    destruct n as [|n]; [strict_step; by intros w%Hfull|].
    replace (at0 + length sent + S n)%nat with (at0 + length sent + length (take (S n) (x :: d)))%nat in Hv1
      by (rw length_take; lia).
    pose proof (sending_write _ _ _ _ _ _ Hs1 Hv1) as Hs2.
    pose proof (drawn_more _ _ _ _ (S n) Hd Ed Hfull) as Hd2.
    assert (length (sent ++ take (S n) (x :: d)) = length sent + S n)%nat as Hl
      by (rw length_app length_take; lia).
    specialize (IH (count - S n)%nat _ _ (TProc (t_io s) k1) ltac:(lia) Hd2 Hs2). rw Hl in IH.
    replace (length sent + S n + (count - S n))%nat with (length sent + count)%nat in IH by lia. exact IH.
Qed.

Lemma sending_start v0 off k :
  fo_view k = v0 → v_fds v0 !! in_fd = Some (i, off) → v_fds v0 !! out_fd = Some (j, at0) →
  v_files v0 !! j = Some dst → sending v0 off [] k.
Proof.
  intros <- Hi Ho Hj. rw /sending /= Nat.add_0_r /write_at !insert_id //. by destruct (fo_view k).
Qed.

(** The source is moved to [z], or to where it is. *)
Lemma sending_seek G v0 pos sent z whence s (k1 : option Z → M (tproc K) (Z * option Z)) Q :
  sending v0 pos sent (t_os s) → v_files v0 !! i = Some src →
  (∀ k, 0 ≤ seek_base whence pos src + z →
     sending v0 (Z.to_nat (seek_base whence pos src + z)) sent k →
     strict G (k1 (Some (seek_base whence pos src + z))) Q (TProc (t_io s) k)) →
  (∀ s', (W → seek_base whence pos src + z < 0) → strict G (k1 None) Q s') →
  strict G (r ← tcall (fo_lseek in_fd z whence) ; k1 r) Q s.
Proof.
  intros Hs Hsrc Hok Hbad. destruct (sending_in _ _ _ _ Hs Hsrc) as [Hi Hic]. do 2 strict_step.
  - intros new k Hl. destruct (fo_lseek_ok _ _ _ _ _ _ _ _ _ Hl Hi Hic) as (-> & Hz & Hv).
    apply Hok; [done|]. exact (sending_move _ _ _ _ _ _ Hs Hv).
  - intros e k E. apply Hbad. intros w. destruct (Z.lt_ge_cases (seek_base whence pos src + z) 0) as [|Hz]; [done|].
    refine (seek_refused _ _ _ _ _ _ _ _ Hi Hic Hz _ w). by rw E.
Qed.

Definition start_of (offset : option Z) (off : nat) : nat :=
  match offset with Some z => Z.to_nat z | None => off end.

(** The result [r], what [offset] points to and the files afterwards. *)
Definition sent_ok (offset : option Z) (off count : nat) (v : fview) (r : Z) (new : option Z) (k : K) : Prop :=
  ∃ m sent, r = Z.of_nat (length sent) ∧ (length sent ≤ count)%nat ∧
    drawn (start_of offset off) m sent ∧
    (W → sent = take count (drop (start_of offset off) src)) ∧
    new = (λ _, Z.of_nat (start_of offset off + m)) <$> offset ∧
    sending v (match offset with Some _ => off | None => start_of offset off + m end)%nat sent k.

Lemma sendfile_strict fuel offset off count v s :
  view s = v → v_fds v !! in_fd = Some (i, off) → v_fds v !! out_fd = Some (j, at0) →
  v_files v !! i = Some src → v_files v !! j = Some dst →
  (count < fuel)%nat → Z.of_nat count < 2 ^ 63 →
  strict (¬ W) (sendfile fuel out_fd in_fd offset count)
    (λ '(r, new) s', r = -1 ∧ (W → ∃ z, offset = Some z ∧ z < 0) ∨ sent_ok offset off count v r new (t_os s')) s.
Proof.
  intros Hv Hi Ho Hsrc Hdst Hf Hc. pose proof (sending_start v off _ Hv Hi Ho Hdst) as Hs.
  assert (∀ n, (n ≤ count)%nat → wrapS 64 (Z.of_nat n) = Z.of_nat n) as Hwrap.
  { intros n Hn. rw /wrapS Z.mod_small; lia. }
  assert (∀ start, drawn start 0 []) as Hd0 by (intros start; by split; [apply sublist_nil_l|]).
  destruct offset as [z|]; cbn [sendfile].
  - apply (sending_seek _ _ _ _ _ _ _ _ _ Hs Hsrc); [|intros s1 H; strict_step; left; split; [done|intros w%H; cbn in w; lia]].
    cbn. rw Z.add_0_r Nat2Z.id. intros k1 _ Hs1.
    apply (sending_seek _ _ _ _ _ _ (TProc (t_io s) k1) _ _ Hs1 Hsrc); [|intros s1 H; strict_step; left; split; [done|intros w%H; eauto]].
    cbn. intros k2 Hz Hs2. strict_step.
    rw -{1}(Nat.add_0_r (Z.to_nat z)) in Hs2.
    eapply strict_conseq; [exact (send_loop_strict v _ _ count _ _ (TProc (t_io s) k2) Hsrc Hf (Hd0 _) Hs2)|].
    intros [n|] s3 H; [|strict_step; left; by split].
    destruct H as (m & sent & -> & Hn & Hd & Hs3 & Hall). cbn in Hn, Hall.
    apply (sending_seek _ _ _ _ _ _ _ _ _ Hs3 Hsrc); [|intros s1 H; strict_step; left; split; [done|intros w%H; cbn in w; lia]].
    cbn. rw Z.add_0_r Nat2Z.id. intros k4 _ Hs4.
    apply (sending_seek _ _ _ _ _ _ (TProc (t_io s3) k4) _ _ Hs4 Hsrc); [|intros s1 H; strict_step; left; split; [done|intros w%H; cbn in w; lia]].
    intros k5 _ Hs5. cbn in Hs5. rw Nat2Z.id in Hs5. strict_step. right. exists m, sent. rw Hwrap //.
  - strict_step. rw -{1}(Nat.add_0_r off) in Hs.
    eapply strict_conseq; [exact (send_loop_strict v _ _ count _ _ s Hsrc Hf (Hd0 _) Hs)|].
    intros [n|] s3 H; strict_step; [|left; by split].
    destruct H as (m & sent & -> & Hn & Hd & Hs3 & Hall). right. exists m, sent. by rw Hwrap.
Qed.

(** [sendfile] returns how many characters it has written, never more than asked
    for; what it has written comes from the source, from the given offset or the
    descriptor's own, in order, and is all of it up to the end of the source or
    the count when no write is partial.  With an offset argument the descriptor's
    own offset is as before and the argument is behind what was read; nothing else
    has changed.  Otherwise it returns -1 or ends the process, which needs a
    negative offset or a call that could have been granted.  The loop ends: one
    turn per character is enough. *)
Lemma sendfile_transfers fuel offset off count s :
  v_fds (view s) !! in_fd = Some (i, off) → v_fds (view s) !! out_fd = Some (j, at0) →
  v_files (view s) !! i = Some src → v_files (view s) !! j = Some dst →
  (count < fuel)%nat → Z.of_nat count < 2 ^ 63 →
  ∃ o s', sendfile fuel out_fd in_fd offset count s = (o, s') ∧
    ((∃ r new, o = Ret (r, new) ∧ sent_ok offset off count (view s) r new (t_os s')) ∨
     ((∃ new, o = Ret (-1, new)) ∨ failure o) ∧ (W → ∃ z, offset = Some z ∧ z < 0)).
Proof.
  intros Hi Ho Hsrc Hdst Hf Hc.
  pose proof (sendfile_strict fuel offset off count _ s eq_refl Hi Ho Hsrc Hdst Hf Hc) as H. rw /strict in H.
  destruct (sendfile fuel out_fd in_fd offset count s) as [[[r new]|n| | |] s']; try done; eexists _, s';
    (split; [done|]).
  - destruct H as [[-> H]|H]; [right; eauto|left; eauto].
  - destruct H as [-> H]. right. split; [right; by right|done].
  - right. split; [right; by left|done].
Qed.
End proofs.

(** ** Partial writes *)

(** The file system of FileIO, except that a write takes at most three
    characters, or is refused when [full]. *)
Import FileSim.
Module SendSim.
Definition kern (full : bool) : Type := fview.
Abbreviation whole := (FileSim.kern None).

#[export] Instance send_sim_env full : TlpiEnv (kern full) :=
  { te_strerror _ := cs "error"; te_dumpcore := None }.

Definition ENOSPC : Z := 28.

#[export] Instance send_sim_os full : FileOS (kern full) := {
  fo_open := fo_open (K := whole);
  fo_read := fo_read (K := whole);
  fo_write fd d k := if full then (inl ENOSPC, k) else fo_write (K := whole) fd (take 3 d) k;
  fo_lseek := fo_lseek (K := whole);
  fo_close := fo_close (K := whole);
  fo_malloc := fo_malloc (K := whole);
}.

#[export, refine] Instance send_sim_ok full : FileOSOk (kern full) := { fo_view v := v }.
Proof.
  - exact (fo_open_ok (K := whole)).
  - exact (fo_read_ok (K := whole)).
  - intros fd d k n k' i off c. cbn [fo_write send_sim_os]. destruct full; [done|]. intros Hw Hi Hc.
    destruct (@fo_write_ok whole _ (file_sim_ok None) _ _ _ _ _ _ _ _ Hw Hi Hc) as [Hn Hv].
    rw take_take in Hv. rw length_take in Hn. split; [lia|]. cbn in Hv |- *. rw Hv. by replace (n `min` 3)%nat with n by lia.
  - exact (fo_lseek_ok (K := whole)).
  - exact (fo_close_ok (K := whole)).
  - exact (fo_malloc_ok (K := whole)).
Defined.

(** File 1 open for reading at its second character, file 2 for writing. *)
Definition files : fview :=
  FView {[cs "a" := 1%nat; cs "b" := 2%nat]} {[1%nat := cs "abcdefgh"; 2%nat := cs "xy"]}
    {[3 := (1%nat, 1%nat); 4 := (2%nat, 2%nat)]}.
Definition ready : tproc (FileSim.kern None) := TProc (EState [] [] [] 0) files.
Definition partial full : tproc (kern full) := TProc (EState [] [] [] 0) files.
End SendSim.

Lemma sendfile_transfers_witness :
  ∃ o s', sendfile 5 4 3 (Some 2) 4 SendSim.ready = (o, s') ∧ o = Ret (4, Some 6) ∧
    v_files (fo_view (t_os s')) !! 2%nat = Some (cs "xycdef") ∧
    v_fds (fo_view (t_os s')) !! 3 = Some (1, 1)%nat.
Proof.
  destruct (sendfile_transfers 1 2 3 4 (cs "abcdefgh") (cs "xy") 2 ltac:(lia) ltac:(lia) 5 (Some 2) 1 4 SendSim.ready)
    as (o & s' & H & [(r & new & -> & Hok)|[_ Hno]]); [reflexivity..|lia|lia| |].
  - exists (Ret (r, new)), s'. split; [exact H|].
    destruct Hok as (m & sent & -> & _ & [_ Hm] & Hall & -> & Hv).
    assert (FileWorks (FileSim.kern None)) as w by apply _. destruct (Hm w) as [_ <-]. rw (Hall w) in Hv |- *.
    rw Hv. split; [reflexivity|]. split; reflexivity.
  - destruct (Hno _) as (z & [= <-] & Hz). lia.
Defined.

Import SendSim.

(** A partial write loses what was read behind it, and the count says
    otherwise: of "bcdefgh" three characters are written and the rest is gone. *)
Lemma sendfile_loses :
  ∃ s', sendfile 9 4 3 None 7 (SendSim.partial false) = (Ret (3, None), s') ∧
    v_files (fo_view (t_os s')) !! 2%nat = Some (cs "xybcd") ∧
    v_fds (fo_view (t_os s')) !! 3 = Some (1, 8)%nat.
Proof. eexists. split; [by vm_compute|]. by split; vm_compute. Qed.

(** After a failed write the descriptor stays moved, although an offset was
    given. *)
Lemma sendfile_moves :
  ∃ s', sendfile 9 4 3 (Some 2) 3 (SendSim.partial true) = (Ret (-1, Some 2), s') ∧
    v_fds (fo_view (t_os s')) !! 3 = Some (1, 5)%nat.
Proof. eexists. split; by vm_compute. Qed.
