(* ===== verification/Chiflag.v ===== *)
(** * Attribute flags of files: [files/chiflag.c]

    The program adds, removes or sets the attribute flags of its file arguments
    with one mask.  It keeps the new flags of a file in the variable of the mask,
    so that they take part in the change of the files after it. *)

From S2P Require Import Prelude ErrFns GetNum Tlpi.

Definition FS_SECRM_FL : Z := 1.
Definition FS_UNRM_FL : Z := 2.
Definition FS_COMPR_FL : Z := 4.
Definition FS_SYNC_FL : Z := 8.
Definition FS_IMMUTABLE_FL : Z := 16.
Definition FS_APPEND_FL : Z := 32.
Definition FS_NODUMP_FL : Z := 64.
Definition FS_NOATIME_FL : Z := 128.
Definition FS_JOURNAL_DATA_FL : Z := 16384.
Definition FS_NOTAIL_FL : Z := 32768.
Definition FS_DIRSYNC_FL : Z := 65536.
Definition FS_TOPDIR_FL : Z := 131072.

Class FlagOS (K : Type) := {
  ck_open : cstring → K → res Z * K;
  ck_getflags : Z → K → res Z * K;
  ck_setflags : Z → Z → K → res unit * K;
  ck_close : Z → K → res unit * K;
}.

Section chiflag.
Context {K : Type} `{!TlpiEnv K, !FlagOS K}.
Abbreviation T := (M (tproc K)).

Definition fpe (t : string) : cstring := cs "    " ++ cs t ++ [NL].

Definition chiflag_usage (progName : cstring) : cstring :=
  cs "Usage: " ++ progName ++ cs " {+-=}{attrib-chars} file..." ++ [NL; NL] ++
  fpe "+ add attribute; - remove attribute; = set attributes absolutely" ++ [NL] ++
  fpe "'attrib-chars' contains one or more of:" ++
  fpe "    a   Force open() to include O_APPEND (privilege required)" ++
  fpe "    A   Do not update last access time" ++
  fpe "    c   Compress (requires e2compr package)" ++
  fpe "    d   Do not backup with dump(8)" ++
  fpe "    D   Synchronous directory updates" ++
  fpe "    i   Immutable (privilege required)" ++
  fpe "    j   Enable ext3/ext4 data journaling" ++
  fpe "    s   Secure deletion (not implemented)" ++
  fpe "    S   Synchronous file updates" ++
  fpe "    t   Disable tail-packing (Reiserfs only)" ++
  fpe "    T   Mark as top-level directory for Orlov algorithm" ++
  fpe "    u   Undelete (not implemented)".

Definition usageError {A} (progName : cstring) : T A :=
  teprintf (chiflag_usage progName) ;; texit EXIT_FAILURE.

Definition attrib (c : ascii) : option Z :=
  match c with
  | "a" => Some FS_APPEND_FL
  | "A" => Some FS_NOATIME_FL
  | "c" => Some FS_COMPR_FL
  | "d" => Some FS_NODUMP_FL
  | "D" => Some FS_DIRSYNC_FL
  | "i" => Some FS_IMMUTABLE_FL
  | "j" => Some FS_JOURNAL_DATA_FL
  | "s" => Some FS_SECRM_FL
  | "S" => Some FS_SYNC_FL
  | "t" => Some FS_NOTAIL_FL
  | "T" => Some FS_TOPDIR_FL
  | "u" => Some FS_UNRM_FL
  | _ => None
  end%char.

Fixpoint attr_mask (p : cstring) (attr : Z) : option Z :=
  match p with
  | [] => Some attr
  | c :: p => f ← attrib c ; attr_mask p (Z.lor attr f)
  end.

Definition combine (op : ascii) (oldAttr attr : Z) : Z :=
  if bool_decide (op = "-"%char) then Z.land oldAttr (Z.lnot attr) else Z.lor oldAttr attr.

(** One turn of the loop over the files; the result is the variable [attr]. *)
Definition change_file (op : ascii) (file : cstring) (attr : Z) : T Z :=
  fd ← tcall (ck_open file) ;
  match fd with
  | None => terrMsg (cs "open: " ++ file) ;; mret attr
  | Some fd =>
      attr ← (if bool_decide (op = "+"%char) || bool_decide (op = "-"%char) then
                oldAttr ← tchecked (cs "ioctl1: " ++ file) (ck_getflags fd) ;
                mret (combine op oldAttr attr)
              else mret attr) ;
      tchecked (cs "ioctl2: " ++ file) (ck_setflags fd attr) ;;
      tchecked (cs "close") (ck_close fd) ;;
      mret attr
  end.

Fixpoint change_files (op : ascii) (files : list cstring) (attr : Z) : T unit :=
  match files with
  | [] => mret tt
  | file :: files => attr ← change_file op file attr ; change_files op files attr
  end.

(** [strchr] finds the terminating null of its string, so an empty argument
    passes the test and the loop starts behind it. *)
Definition chiflag_main (argv : list cstring) : T unit :=
  match argv with
  | prog :: spec :: file :: files =>
      match spec with
      | [] => stop Crash
      | op :: p =>
          if negb (bool_decide (op ∈ cs "+-=")) || bool_decide (spec = cs "--help") then usageError prog
          else
            match attr_mask p 0 with
            | None => usageError prog
            | Some attr => change_files op (file :: files) attr ;; texit EXIT_SUCCESS
            end
      end
  | prog :: _ => usageError prog
  | [] => stop Crash
  end.
End chiflag.

(** ** What the calls do *)

Record flview := FlView {
  fv_names : gmap cstring nat;
  fv_flags : gmap nat Z;
  fv_fds : gmap Z nat;
}.

(** There is a file of this name. *)
Definition known (v : flview) (p : cstring) : Prop := is_Some (fv_names v !! p ≫= (fv_flags v !!.)).
#[export] Instance known_dec v p : Decision (known v p) := _.

(** Changing the flags of a file makes no file known or unknown. *)
Lemma known_insert v i fl fds q :
  is_Some (fv_flags v !! i) →
  known (FlView (fv_names v) (<[i := fl]> (fv_flags v)) fds) q ↔ known v q.
Proof.
  intros Hi. rw /known /=. destruct (fv_names v !! q) as [j|]; [|done]. cbn.
  destruct (decide (i = j)) as [->|Hij]; [rw lookup_insert_eq|by rw lookup_insert_ne].
  by split; intros _; [|eexists].
Qed.

(** A file system has a set of flags that can be changed. *)
Definition merge (settable old new : Z) : Z :=
  Z.lor (Z.land new settable) (Z.ldiff old settable).

Class FlagOSOk (K : Type) `{!FlagOS K} := {
  ck_view : K → flview;
  ck_settable : Z;
  ck_open_ok p k fd k' : ck_open p k = (inr fd, k') →
    ∃ i, fv_names (ck_view k) !! p = Some i ∧ is_Some (fv_flags (ck_view k) !! i) ∧ fv_fds (ck_view k) !! fd = None ∧
      ck_view k' = FlView (fv_names (ck_view k)) (fv_flags (ck_view k)) (<[fd := i]> (fv_fds (ck_view k)));
  ck_open_fails p k e k' : ck_open p k = (inl e, k') → ck_view k' = ck_view k;
  ck_getflags_ok fd k old k' : ck_getflags fd k = (inr old, k') →
    ck_view k' = ck_view k ∧
    ∀ i, fv_fds (ck_view k) !! fd = Some i → fv_flags (ck_view k) !! i = Some old;
  ck_setflags_ok fd new k k' i old : ck_setflags fd new k = (inr tt, k') →
    fv_fds (ck_view k) !! fd = Some i → fv_flags (ck_view k) !! i = Some old →
    ck_view k' = FlView (fv_names (ck_view k)) (<[i := merge ck_settable old new]> (fv_flags (ck_view k)))
                   (fv_fds (ck_view k));
  ck_close_ok fd k k' : ck_close fd k = (inr tt, k') →
    ck_view k' = FlView (fv_names (ck_view k)) (fv_flags (ck_view k)) (delete fd (fv_fds (ck_view k)));
}.

(** Nothing that can be granted is refused. *)
Class FlagWorks (K : Type) `{!FlagOS K, !FlagOSOk K} : Prop := {
  cw_open p k : known (ck_view k) p → ∃ fd k', ck_open p k = (inr fd, k');
  cw_getflags fd k : is_Some (fv_fds (ck_view k) !! fd ≫= (fv_flags (ck_view k) !!.)) →
    ∃ old k', ck_getflags fd k = (inr old, k');
  cw_setflags fd new k : is_Some (fv_fds (ck_view k) !! fd ≫= (fv_flags (ck_view k) !!.)) →
    ∃ k', ck_setflags fd new k = (inr tt, k');
  cw_close fd k : is_Some (fv_fds (ck_view k) !! fd) → ∃ k', ck_close fd k = (inr tt, k');
}.

(** ** The change *)

(** The flags a file with flags [old] is to have. *)
Definition next_attr (op : ascii) (old attr : Z) : Z :=
  if bool_decide (op = "="%char) then attr else combine op old attr.

(** The flags of the files [ps] after the change: each file's result is the mask
    for the next. *)
Fixpoint set_all (settable : Z) (op : ascii) (names : gmap cstring nat) (ps : list cstring) (attr : Z)
    (flags : gmap nat Z) : gmap nat Z :=
  match ps with
  | [] => flags
  | p :: ps =>
      match names !! p ≫= λ i, pair i <$> flags !! i with
      | None => flags
      | Some (i, old) =>
          let attr := next_attr op old attr in
          set_all settable op names ps attr (<[i := merge settable old attr]> flags)
      end
  end.

(** As the usage message describes it: every file is changed by the mask. *)
Fixpoint set_each (settable : Z) (op : ascii) (names : gmap cstring nat) (ps : list cstring) (attr : Z)
    (flags : gmap nat Z) : gmap nat Z :=
  match ps with
  | [] => flags
  | p :: ps =>
      match names !! p ≫= λ i, pair i <$> flags !! i with
      | None => flags
      | Some (i, old) =>
          set_each settable op names ps attr (<[i := merge settable old (next_attr op old attr)]> flags)
      end
  end.

Lemma set_all_each settable op names ps attr flags :
  op = "="%char ∨ (length ps ≤ 1)%nat →
  set_all settable op names ps attr flags = set_each settable op names ps attr flags.
Proof.
  elim: ps attr flags => [//|p ps IH] attr flags [Hop|Hl]; cbn [set_all set_each]; case_match; try done;
    case_match.
  - rw /next_attr (bool_decide_eq_true_2 _ Hop). apply IH. by left.
  - destruct ps; [done|cbn in Hl; lia].
Qed.

Section proofs.
Context {K : Type} `{!TlpiEnv K, !FlagOS K, !FlagOSOk K}.
Implicit Types s : tproc K.
Abbreviation view s := (ck_view (t_os s)).
Abbreviation W := (FlagWorks K).

Definition is_op (op : ascii) : Prop := op = "+"%char ∨ op = "-"%char ∨ op = "="%char.

(** A file that is open is changed and closed; one that is not is passed over. *)
Lemma change_file_strict op file attr s :
  is_op op →
  strict (¬ W) (change_file op file attr)
    (λ attr' s', attr' = attr ∧ view s' = view s ∧ (W → ¬ known (view s) file) ∨
       ∃ i old, fv_names (view s) !! file = Some i ∧ fv_flags (view s) !! i = Some old ∧
         attr' = next_attr op old attr ∧
         view s' = FlView (fv_names (view s)) (<[i := merge ck_settable old attr']> (fv_flags (view s)))
                     (fv_fds (view s))) s.
Proof.
  intros Hop. rw /change_file. do 2 strict_step.
  2: { intros e k E. do 2 strict_step. intros io. strict_step. left. split_and!; [done|exact (ck_open_fails _ _ _ _ E)|].
       intros w Hk. destruct (cw_open _ _ Hk) as (? & ? & ?). congruence. }
  intros fd k (i & Hi & [old Hold] & Hfd & Hv)%ck_open_ok.
  assert (fv_fds (ck_view k) !! fd = Some i) as Hfi by (by rw Hv lookup_insert_eq).
  strict_step. eapply (strict_conseq _ _ (λ attr' s', attr' = next_attr op old attr ∧ ck_view (t_os s') = ck_view k)).
  - rw /next_attr. destruct Hop as [->|[->| ->]]; repeat (case_bool_decide; try done); cbn [orb]; try by strict_step.
    all: do 2 strict_step;
      [intros o k1 [Hv1 Ho]%ck_getflags_ok; strict_step; apply Ho in Hfi; rw Hv /= Hold in Hfi; by injection Hfi as ->
      |intros Hn w; destruct (cw_getflags fd k) as (? & ? & E); [by rw Hfi Hv /= Hold|by destruct (Hn _ _ E)]].
  - intros attr' s1 [-> Hv1]. rw -Hv1 in Hfi Hv. do 2 strict_step.
    2: { intros Hn w. destruct (cw_setflags fd (next_attr op old attr) (t_os s1)) as (? & E); [by rw Hfi Hv /= Hold|by destruct (Hn _ _ E)]. }
    intros [] k2 Hs. apply (ck_setflags_ok _ _ _ _ i old) in Hs; [|done|by rw Hv].
    do 2 strict_step.
    2: { intros Hn w. destruct (cw_close fd k2) as (? & E); [by rw Hs /= Hfi|by destruct (Hn _ _ E)]. }
    intros [] k3 Hc%ck_close_ok. strict_step. right. exists i, old. split_and!; [done..|].
    cbn. rw Hc Hs Hv /=. f_equal. by rw delete_insert_id.
Qed.

(** The files [ok] were opened and changed. *)
Definition changed (op : ascii) (attr : Z) (files ok : list cstring) (v v' : flview) : Prop :=
  sublist ok files ∧ (W → ok = filter (known v) files) ∧
  v' = FlView (fv_names v) (set_all ck_settable op (fv_names v) ok attr (fv_flags v)) (fv_fds v).

Lemma change_files_strict op files attr s :
  is_op op →
  strict (¬ W) (change_files op files attr) (λ _ s', ∃ ok, changed op attr files ok (view s) (view s')) s.
Proof.
  intros Hop. elim: files attr s => [|f files IH] attr s; cbn [change_files].
  - strict_step. exists []. split_and!; [constructor|done|]. by destruct (view s).
  - strict_step. eapply strict_conseq; [by apply change_file_strict|]. cbn.
    intros attr' s1 [(-> & Hv & Hn)|(i & old & Hi & Hold & -> & Hv)].
    + eapply strict_conseq; [apply IH|]. cbn. intros _ s2 (ok & Hsub & Hall & Hv2). rw Hv in Hall Hv2.
      exists ok. split_and!; [by constructor| |done]. intros w. rw filter_cons_False; [by apply Hn|by apply Hall].
    + eapply strict_conseq; [apply IH|]. cbn. intros _ s2 (ok & Hsub & Hall & Hv2). rw Hv /= in Hall Hv2.
      exists (f :: ok). split_and!; [by constructor| |].
      * intros w. rw filter_cons_True; [by rw /known Hi /= Hold|]. rw (Hall w). f_equal.
        apply list_filter_iff. intros q. apply known_insert. by exists old.
      * rw Hv2. f_equal. cbn [set_all]. by rw Hi /= Hold.
Qed.

(** C29: chiflag succeeds only after it has changed the files among its arguments that it
    could open, in their order, and nothing else; where the system grants what it
    can these are the files that exist, and it does succeed.  The flags are those
    the usage message promises if they are set absolutely or there is one such
    file; otherwise [set_all] gives them: the flags of a file get into those of
    the files after it. *)
Theorem chiflag_changes prog op p attr file files s :
  is_op op → op :: p ≠ cs "--help" → attr_mask p 0 = Some attr →
  ∃ o s', chiflag_main (prog :: (op :: p) :: file :: files) s = (o, s') ∧
    ((∃ ok, o = Exit EXIT_SUCCESS ∧ changed op attr (file :: files) ok (view s) (view s') ∧
       (op = "="%char ∨ (length ok ≤ 1)%nat →
          fv_flags (view s') = set_each ck_settable op (fv_names (view s)) ok attr (fv_flags (view s)))) ∨
     failure o ∧ ¬ W).
Proof.
  intros Hop Hh Hm. rw /chiflag_main. rw (bool_decide_eq_false_2 _ Hh) bool_decide_eq_true_2 /=.
  { destruct Hop as [->|[->| ->]]; set_solver. }
  rw Hm. destruct (strict_exit (B := unit) _ _ _ _ (change_files_strict op (file :: files) attr s Hop))
    as (o & s' & H & [(-> & s1 & (ok & Hc) & Hos & _)|Ho]); eexists _, s'; (split; [exact H|]); [left|by right].
  exists ok. rw Hos. split_and!; [done..|]. intros Hl. destruct Hc as (_ & _ & ->). by apply set_all_each.
Qed.
End proofs.

(** ** A file system *)

Module FlagSim.
Definition kern : Type := flview.

#[export] Instance flag_sim_env : TlpiEnv kern :=
  { te_strerror _ := cs "error"; te_dumpcore := None }.

Definition all_flags : Z := 262143.

#[export] Instance flag_sim_os : FlagOS kern := {
  ck_open p v :=
    match fv_names v !! p ≫= λ i, pair i <$> fv_flags v !! i with
    | None => (inl ENOENT, v)
    | Some (i, _) => let fd := fresh (dom (fv_fds v)) in
        (inr fd, FlView (fv_names v) (fv_flags v) (<[fd := i]> (fv_fds v)))
    end;
  ck_getflags fd v :=
    match fv_fds v !! fd ≫= (fv_flags v !!.) with
    | None => (inl EBADF, v)
    | Some old => (inr old, v)
    end;
  ck_setflags fd new v :=
    match fv_fds v !! fd ≫= λ i, pair i <$> fv_flags v !! i with
    | None => (inl EBADF, v)
    | Some (i, old) => (inr tt, FlView (fv_names v) (<[i := merge all_flags old new]> (fv_flags v)) (fv_fds v))
    end;
  ck_close fd v := (inr tt, FlView (fv_names v) (fv_flags v) (delete fd (fv_fds v)));
}.

#[export, refine] Instance flag_sim_ok : FlagOSOk kern := { ck_view v := v; ck_settable := all_flags }.
Proof.
  - intros p v fd v'. cbn. destruct (fv_names v !! p) as [i|] eqn:Hi; [|done]. cbn.
    destruct (fv_flags v !! i) as [old|] eqn:Ho; [|done]. intros [= <- <-]. exists i.
    split_and!; [done|by rw Ho| |done]. apply not_elem_of_dom, is_fresh.
  - intros p v e v'. cbn. case_match; [by case_match|by intros [= _ <-]].
  - intros fd v old v'. cbn. destruct (fv_fds v !! fd) as [i|]; [|done]. cbn.
    destruct (fv_flags v !! i) eqn:Ho; [|done]. intros [= -> <-]. split; [done|]. by intros j [= <-].
  - intros fd new v v' i old H Hi Ho. cbn in H, Hi, Ho. rw Hi /= Ho /= in H. by injection H as <-.
  - by intros fd v v' [= <-].
Defined.

#[export] Instance flag_sim_works : FlagWorks kern.
Proof.
  split.
  - intros p v. rw /known /=. destruct (fv_names v !! p) as [i|]; cbn; [|by intros [? ?]].
    destruct (fv_flags v !! i); [|by intros [? ?]]. eauto.
  - intros fd v. cbn. destruct (fv_fds v !! fd ≫= _); [eauto|by intros [? ?]].
  - intros fd new v. cbn. destruct (fv_fds v !! fd) as [i|]; cbn; [|by intros [? ?]].
    destruct (fv_flags v !! i); [cbn; eauto|by intros [? ?]].
  - intros fd v _. cbn. eauto.
Qed.

(** Two files, the first immutable. *)
Definition files : tproc kern :=
  TProc (EState [] [] [] 0)
    (FlView {[cs "a" := 1%nat; cs "b" := 2%nat]} {[1%nat := FS_IMMUTABLE_FL; 2%nat := FS_NODUMP_FL]} ∅).
End FlagSim.
Import FlagSim.

Lemma chiflag_changes_witness :
  ∃ o s', chiflag_main [cs "chiflag"; cs "=aA"; cs "a"; cs "x"; cs "b"] files = (o, s') ∧
    o = Exit EXIT_SUCCESS ∧ fv_flags (t_os s') = {[1%nat := 160; 2%nat := 160]}.
Proof.
  destruct (chiflag_changes (cs "chiflag") "="%char (cs "aA") 160 (cs "a") [cs "x"; cs "b"] files)
    as (o & s' & H & Ho); [by do 2 right|done|reflexivity|].
  exists o, s'. split; [exact H|]. vm_compute in H. injection H as <- <-.
  destruct Ho as [(ok & Ho & _)|[[[=]|[=]] _]]. split; [exact Ho|reflexivity].
Defined.

(** Asked to add the flag [A] to two files, the program makes the second file
    immutable because the first is. *)
Lemma chiflag_leaks :
  ∃ s', chiflag_main [cs "chiflag"; cs "+A"; cs "a"; cs "b"] files = (Exit EXIT_SUCCESS, s') ∧
    fv_flags (t_os s') !! 2%nat = Some (Z.lor (Z.lor FS_NODUMP_FL FS_NOATIME_FL) FS_IMMUTABLE_FL) ∧
    set_each all_flags "+"%char (fv_names (t_os files)) [cs "a"; cs "b"] FS_NOATIME_FL (fv_flags (t_os files))
      !! 2%nat = Some (Z.lor FS_NODUMP_FL FS_NOATIME_FL).
Proof. eexists. split; [by vm_compute|]. by split; vm_compute. Qed.

(** An empty first argument is read behind its end. *)
Lemma chiflag_empty_spec : (chiflag_main [cs "chiflag"; []; cs "a"] files).1 = Crash.
Proof. done. Qed.
