(* ===== verification/TimerFd.v ===== *)
(** * Timers: [timers/itimerspec_from_str.c] and [timers/demo_timerfd.c]

    The parser of timer settings, and the program that arms a timer and prints
    the expirations it reads, with the time since the start. *)

From S2P Require Import Prelude CStdlib ErrFns GetNum Tlpi.

Record itimerspec := ITimerSpec {
  value_sec : Z; value_nsec : Z; interval_sec : Z; interval_nsec : Z }.

(** [strchr] with the null stored at the character found: the string before it,
    and the string behind it if there is one. *)
Fixpoint cut (c : ascii) (s : cstring) : cstring * option cstring :=
  match s with
  | [] => ([], None)
  | x :: s => if bool_decide (x = c) then ([], Some s)
              else let '(a, b) := cut c s in (x :: a, b)
  end.

(** [(sptr != NULL) ? atoi(sptr + 1) : 0]. *)
Definition atoi_or_0 (s : option cstring) : Z :=
  match s with Some s => atoi s | None => 0 end.

(** On a copy of the string. *)
Definition itimerspecFromStr (str : cstring) : itimerspec :=
  let '(dupstr, cptr) := cut ":" str in
  let '(vsec, vnsec) := cut "/" dupstr in
  match cptr with
  | None => ITimerSpec (atoi vsec) (atoi_or_0 vnsec) 0 0
  | Some cptr =>
      let '(isec, insec) := cut "/" cptr in
      ITimerSpec (atoi vsec) (atoi_or_0 vnsec) (atoi isec) (atoi_or_0 insec)
  end.

Class TimerOS (K : Type) := {
  tm_malloc : K → bool * K;
  tm_create : K → res Z * K;
  tm_settime : Z → itimerspec → K → res unit * K;
  tm_gettime : K → res (Z * Z) * K;
  (** [read]: the bytes read, and the number in them. *)
  tm_read : Z → K → res (nat * Z) * K;
}.

Section demo.
Context {K : Type} `{!TlpiEnv K, !TimerOS K}.
Abbreviation T := (M (tproc K)).

Definition elapsed (start now : Z * Z) : Z * Z :=
  let secs := to_int (now.1 - start.1) in
  let nanosecs := to_int (now.2 - start.2) in
  if nanosecs <? 0 then (secs - 1, nanosecs + 1000000000) else (secs, nanosecs).

(** [%03d]. *)
Definition fmt_03d (n : Z) : cstring :=
  let t := fmt_d n in replicate (3 - length t) "0"%char ++ t.

Definition millis (nanosecs : Z) : Z := Z.quot (nanosecs + 500000) 1000000.

Definition exp_line (start now : Z * Z) (numExp totalExp : Z) : cstring :=
  let '(secs, nanosecs) := elapsed start now in
  fmt_d secs ++ cs "." ++ fmt_03d (millis nanosecs) ++ cs ": expirations read: " ++ fmt_d numExp ++
  cs "; total=" ++ fmt_d totalExp ++ [NL].

Fixpoint exp_loop (fuel : nat) (fd maxExp : Z) (start : Z * Z) (totalExp : Z) : T unit :=
  match fuel with
  | O => stop NoFuel
  | S fuel =>
      if totalExp <? wrapU 64 maxExp then
        r ← tcall (tm_read fd) ;
        match r with
        | Some (8%nat, numExp) =>
            let totalExp := wrapU 64 (totalExp + numExp) in
            now ← tchecked (cs "clock_gettime") tm_gettime ;
            tprintf (exp_line start now numExp totalExp) ;;
            exp_loop fuel fd maxExp start totalExp
        | _ => terrExit (cs "read")
        end
      else mret tt
  end.

(** [strdup] is not checked: [strchr] is given its null pointer. *)
Definition timer_run (fuel : nat) (spec : cstring) (rest : list cstring) : T unit :=
  ok ← tsys tm_malloc ;
  if negb ok then stop Crash else
  let ts := itimerspecFromStr spec in
  maxExp ← (match rest with
            | [] => mret 1
            | a :: _ => with_stderr (getInt (Some a) GN_GT_0 (Some (cs "max-exp")))
            end) ;
  fd ← tchecked (cs "timerfd_create") tm_create ;
  tchecked (cs "timerfd_settime") (tm_settime fd ts) ;;
  start ← tchecked (cs "clock_gettime") tm_gettime ;
  exp_loop fuel fd maxExp start 0.

Definition demo_timerfd (fuel : nat) (argv : list cstring) : T unit :=
  let usage prog := tusageErr (prog ++ cs " secs[/nsecs][:int-secs[/int-nsecs]] [max-exp]" ++ [NL]) in
  match argv with
  | prog :: spec :: rest =>
      if bool_decide (spec = cs "--help") then usage prog
      else timer_run fuel spec rest ;; texit EXIT_SUCCESS
  | prog :: _ => usage prog
  | [] => stop Crash
  end.
End demo.

(** ** The parser inverts printing *)

(** "sec[/nsec]". *)
Definition time_text (sec : Z) (nsec : option Z) : cstring :=
  fmt_d sec ++ match nsec with Some n => "/"%char :: fmt_d n | None => [] end.

Definition spec_text (sec : Z) (nsec : option Z) (interval : option (Z * option Z)) : cstring :=
  time_text sec nsec ++
  match interval with Some (isec, insec) => ":"%char :: time_text isec insec | None => [] end.

Lemma cut_free c a : c ∉ a → cut c a = (a, None).
Proof.
  elim: a => [//|x a IH] H. cbn. rw bool_decide_eq_false_2; [set_solver|]. rw IH //; set_solver.
Qed.

Lemma cut_at c a b : c ∉ a → cut c (a ++ c :: b) = (a, Some b).
Proof.
  elim: a => [|x a IH] H; cbn; [by rw bool_decide_eq_true_2|].
  rw bool_decide_eq_false_2; [set_solver|]. rw IH //; set_solver.
Qed.

Lemma sep_colon : separator ":"%char. Proof. done. Qed.
Lemma sep_slash : separator "/"%char. Proof. done. Qed.
#[local] Hint Resolve sep_colon sep_slash fmt_d_no_sep : core.

Lemma atoi_fmt_d n : in_int n → atoi (fmt_d n) = n.
Proof. intros Hn. rw /atoi strtol_fmt_d; [by apply in_int_long|]. by apply to_int_id. Qed.

Lemma time_text_cut sec nsec :
  cut "/" (time_text sec nsec) = (fmt_d sec, fmt_d <$> nsec).
Proof. rw /time_text. destruct nsec; [by apply cut_at; auto|rw app_nil_r; by apply cut_free; auto]. Qed.

Lemma time_text_no_colon sec nsec : ":"%char ∉ time_text sec nsec.
Proof.
  rw /time_text not_elem_of_app. split; [auto|]. destruct nsec; [|set_solver].
  rw not_elem_of_cons. split; [done|auto].
Qed.

(** Reading the text of a timer setting gives it back, in each of its forms: with and
    without nanoseconds, with and without an interval; a part left out is 0. *)
Lemma itimerspec_roundtrip sec nsec interval :
  in_int sec → in_int (default 0 nsec) →
  in_int (default 0 (fst <$> interval)) → in_int (default 0 (interval ≫= snd)) →
  itimerspecFromStr (spec_text sec nsec interval) =
    ITimerSpec sec (default 0 nsec) (default 0 (fst <$> interval)) (default 0 (interval ≫= snd)).
Proof.
  intros H1 H2 H3 H4. rw /itimerspecFromStr /spec_text.
  assert (∀ o : option Z, in_int (default 0 o) → atoi_or_0 (fmt_d <$> o) = default 0 o) as Ho.
  { intros [n|] Hn; [by apply atoi_fmt_d|done]. }
  destruct interval as [[isec insec]|].
  - rw cut_at; [apply time_text_no_colon|]. rw !time_text_cut !atoi_fmt_d // !Ho //.
  - rw app_nil_r cut_free; [apply time_text_no_colon|]. by rw time_text_cut atoi_fmt_d // Ho.
Qed.

Lemma itimerspec_roundtrip_witness :
  itimerspecFromStr (cs "2/500000000:1") = ITimerSpec 2 500000000 1 0.
Proof. exact (itimerspec_roundtrip 2 (Some 500000000) (Some (1, None)) ltac:(done) ltac:(done) ltac:(done) ltac:(done)). Defined.

(** ** The time since the start *)

(** A time of day, as the clock gives it. *)
Definition nanos (t : Z * Z) : Z := t.1 * 1000000000 + t.2.
Definition clock_ok (t : Z * Z) : Prop := 0 ≤ t.2 < 1000000000.

Lemma elapsed_exact start now :
  clock_ok start → clock_ok now → in_int (now.1 - start.1) →
  nanos (elapsed start now) = nanos now - nanos start ∧ clock_ok (elapsed start now).
Proof.
  intros Hs Hn Hi. rw /clock_ok /nanos in Hs Hn *. rw /elapsed !to_int_id //; [rw /in_int /INT_MIN /INT_MAX; lia|].
  destruct (Z.ltb_spec (now.2 - start.2) 0); cbn; lia.
Qed.

(** Half a millisecond before the full second the fraction has four digits. *)
Lemma exp_line_overflows :
  exp_line (5, 0) (5, 999600000) 1 1 = cs "0.1000: expirations read: 1; total=1" ++ [NL].
Proof. by vm_compute. Qed.

(** ** The expirations *)

Class TimerOSOk (K : Type) `{!TimerOS K} := {
  (** What the timer was last set to. *)
  tm_timer : K → option itimerspec;
  tm_malloc_ok k b k' : tm_malloc k = (b, k') → tm_timer k' = tm_timer k;
  tm_settime_ok fd ts k k' : tm_settime fd ts k = (inr tt, k') → tm_timer k' = Some ts;
  tm_gettime_ok k t k' : tm_gettime k = (inr t, k') → tm_timer k' = tm_timer k ∧ clock_ok t;
  (** At least one expiration; a timer expires at most once in a nanosecond, and
      no clock runs for [2 ^ 63] of them. *)
  tm_read_ok fd k n m k' : tm_read fd k = (inr (n, m), k') → tm_timer k' = tm_timer k ∧ 1 ≤ m < 2 ^ 63;
}.

Class TimerWorks (K : Type) `{!TimerOS K} : Prop := {
  tw_malloc k : ∃ k', tm_malloc k = (true, k');
  tw_create k : ∃ fd k', tm_create k = (inr fd, k');
  tw_settime fd ts k : ∃ k', tm_settime fd ts k = (inr tt, k');
  tw_gettime k : ∃ t k', tm_gettime k = (inr t, k');
  tw_read fd k : ∃ m k', tm_read fd k = (inr (8%nat, m), k');
}.

(** What is printed for a list of reads, each a number with the time after it. *)
Fixpoint exp_lines (start : Z * Z) (total : Z) (reads : list (Z * (Z * Z))) : cstring :=
  match reads with
  | [] => []
  | (m, now) :: reads => exp_line start now m (total + m) ++ exp_lines start (total + m) reads
  end.

(** The reads of a run: it goes on while the total is below [maxExp]. *)
Fixpoint reads_ok (maxExp total : Z) (reads : list (Z * (Z * Z))) : Prop :=
  match reads with
  | [] => maxExp ≤ total
  | (m, now) :: reads => total < maxExp ∧ 1 ≤ m ∧ clock_ok now ∧ reads_ok maxExp (total + m) reads
  end.

Section counts.
Context {K : Type} `{!TlpiEnv K, !TimerOS K, !TimerOSOk K}.
Implicit Types s : tproc K.
Abbreviation timer s := (tm_timer (t_os s)).
Abbreviation output s := (e_stdout (t_io s) ++ e_buffered (t_io s)).
Abbreviation W := (TimerWorks K).

Lemma exp_loop_strict fd maxExp start fuel total s :
  0 < maxExp ≤ INT_MAX → 0 ≤ total → Z.max 0 (maxExp - total) < Z.of_nat fuel →
  strict (¬ W) (exp_loop fuel fd maxExp start total)
    (λ _ s', ∃ reads, reads_ok maxExp total reads ∧ timer s' = timer s ∧
       output s' = output s ++ exp_lines start total reads) s.
Proof.
  rw {1}/INT_MAX. intros Hm. elim: fuel total s => [|fuel IH] total s Ht Hf; cbn [exp_loop]; [lia|].
  rw {1}/wrapU (Z.mod_small maxExp); [lia|]. destruct (Z.ltb_spec total maxExp) as [Hlt|Hge].
  2: { strict_step. exists []. by rw app_nil_r. }
  assert (∀ (Q : unit → tproc K → Prop) s', (W → False) → strict (¬ W) (terrExit (cs "read")) Q s') as Hbad
    by (intros; by strict_step).
  do 2 strict_step.
  2: { intros e k E. apply Hbad. intros w. destruct (tw_read fd (t_os s)) as (? & ? & ?). congruence. }
  intros [n m] k Hr. destruct (decide (n = 8%nat)) as [->|Hn].
  2: { assert (W → False) as Hno by (intros w; destruct (tw_read fd (t_os s)) as (? & ? & ?); congruence).
       do 9 (destruct n as [|n]; [first [by apply Hbad|by destruct Hn]|]). by apply Hbad. }
  apply tm_read_ok in Hr as [Hk Hmr]. do 2 strict_step.
  2: { intros Hn w. destruct (tw_gettime k) as (? & ? & E). by destruct (Hn _ _ E). }
  intros now k1 [Hk1 Hc]%tm_gettime_ok. do 2 strict_step. rw /wrapU Z.mod_small; [lia|].
  eapply strict_conseq; [apply (IH (total + m)); lia|]. cbn. intros _ s2 (reads & Hreads & Ht2 & Ho).
  exists ((m, now) :: reads). cbn. rw Ht2 Hk1 Hk Ho -!app_assoc. split_and!; [lia|lia|done..].
Qed.

(** The argument for the number of expirations. *)
Definition max_of (rest : list cstring) (n : Z) : Prop :=
  match rest with [] => n = 1 | a :: _ => a ≠ [] ∧ int_argument GN_GT_0 a n end.

Lemma timer_run_strict fuel spec rest n s :
  max_of rest n → n < Z.of_nat fuel →
  (tm_malloc (t_os s)).1 = true →
  strict (¬ W) (timer_run fuel spec rest)
    (λ _ s', ∃ start reads, clock_ok start ∧ reads_ok n 0 reads ∧ timer s' = Some (itimerspecFromStr spec) ∧
       output s' = output s ++ exp_lines start 0 reads) s.
Proof.
  intros Hn Hf Hma. rw /timer_run. do 2 strict_step. intros ok k Hm. rw Hm in Hma. cbn in Hma. subst ok. cbn [negb].
  assert (0 < n ≤ INT_MAX) as Hr.
  { destruct rest; [by rw /max_of in Hn; subst n|]. destruct Hn as (_ & _ & Hi & _ & H).
    rw /in_int in Hi. split; [by apply H|lia]. }
  strict_step. apply (strict_conseq _ _ (λ v s', v = n ∧ s' = TProc (t_io s) k)).
  { destruct rest as [|a rest]; [by strict_step|]. destruct Hn as [Ha Hi].
    eapply strict_getInt; [by right|done|exact Hi|done]. }
  intros v s0 [-> ->]. do 2 strict_step.
  2: { intros H w. destruct (tw_create k) as (? & ? & E). by destruct (H _ _ E). }
  intros fd k1 _. do 2 strict_step.
  2: { intros H w. destruct (tw_settime fd (itimerspecFromStr spec) k1) as (? & E). by destruct (H _ _ E). }
  intros [] k2 Hk2%tm_settime_ok. do 2 strict_step.
  2: { intros H w. destruct (tw_gettime k2) as (? & ? & E). by destruct (H _ _ E). }
  intros start k3 [Hk3 Hc]%tm_gettime_ok.
  eapply strict_conseq; [apply (exp_loop_strict fd n start fuel 0); lia|]. cbn.
  intros _ s4 (reads & Hreads & Ht & Ho). exists start, reads. rw Ht Hk3 Hk2. done.
Qed.

(** The program arms the timer with the setting its argument denotes and reads from
    it until it has seen the number of expirations asked for: each read prints a
    line with the number, the total and the time since the start, the total is
    below the number asked for before each read and not after the last, and then
    the program succeeds.  As many turns as expirations are enough.  It fails, or
    dereferences the null pointer of a failed [strdup], only where the system
    refuses what it could grant. *)
Lemma demo_timerfd_counts fuel prog spec rest n s :
  spec ≠ cs "--help" → max_of rest n → n < Z.of_nat fuel →
  ∃ o s', demo_timerfd fuel (prog :: spec :: rest) s = (o, s') ∧
    (o = Exit EXIT_SUCCESS ∧ timer s' = Some (itimerspecFromStr spec) ∧
       (∃ start reads, clock_ok start ∧ reads_ok n 0 reads ∧
          e_stdout (t_io s') = output s ++ exp_lines start 0 reads) ∨
     (failure o ∨ o = Crash) ∧ ¬ W).
Proof.
  intros Hh Hn Hf. rw /demo_timerfd bool_decide_false //.
  destruct (tm_malloc (t_os s)) as [[] k] eqn:Hm.
  - destruct (strict_exit (B := unit) _ _ _ _ (timer_run_strict fuel spec rest n s Hn Hf ltac:(by rw Hm)))
      as (o & s' & H & [(-> & s1 & (start & reads & Hc & Hr & Ht & Ho) & Hos & _ & Hout)|[Ho Hw]]);
      eexists _, s'; (split; [exact H|]); [left|right; split; [by left|done]].
    rw Hos. split_and!; [done..|]. exists start, reads. by rw Hout.
  - eexists Crash, (TProc (t_io s) k).
    split; [by rw /timer_run /mbind /M_bind /tsys Hm|]. right. split; [by right|].
    intros w. destruct (tw_malloc (t_os s)) as [? ?]. congruence.
Qed.
End counts.

(** ** A timer that expires twice as often as it is read *)

Module TimerSim.
Record kern := Kern { k_timer : option itimerspec; k_now : Z }.

#[export] Instance timer_sim_env : TlpiEnv kern :=
  { te_strerror _ := cs "error"; te_dumpcore := None }.

#[export] Instance timer_sim_os : TimerOS kern := {
  tm_malloc k := (true, k);
  tm_create k := (inr 3, k);
  tm_settime _ ts k := (inr tt, Kern (Some ts) (k_now k));
  tm_gettime k := (inr (k_now k, 0), k);
  tm_read _ k := (inr (8%nat, 2), Kern (k_timer k) (k_now k + 1));
}.

#[export, refine] Instance timer_sim_ok : TimerOSOk kern := { tm_timer := k_timer }.
Proof.
  - by intros k b k' [= _ <-].
  - by intros fd ts k k' [= <-].
  - by intros k t k' [= <- <-].
  - by intros fd k n m k' [= <- <- <-].
Defined.

#[export] Instance timer_sim_works : TimerWorks kern.
Proof. split; intros; cbn; eauto. Qed.

Definition boot : tproc kern := TProc (EState [] [] [] 0) (Kern None 100).
End TimerSim.
Import TimerSim.

Lemma demo_timerfd_counts_witness :
  ∃ s', demo_timerfd 4 [cs "demo_timerfd"; cs "1:0/500000000"; cs "3"] boot = (Exit EXIT_SUCCESS, s') ∧
    e_stdout (t_io s') = cs "1.000: expirations read: 2; total=2" ++ [NL] ++
                         cs "2.000: expirations read: 2; total=4" ++ [NL].
Proof.
  destruct (demo_timerfd_counts 4 (cs "demo_timerfd") (cs "1:0/500000000") [cs "3"] 3 boot)
    as (o & s' & H & Ho); [done| |lia|].
  - split; [done|]. apply (getInt_iff _ _ _ (Some []) []); [by right|done|by vm_compute].
  - destruct Ho as [(-> & _ & _)|[_ Hw]]; [|by destruct Hw; apply _].
    exists s'. split; [exact H|]. vm_compute in H. injection H as <-. reflexivity.
Defined.
