(* ===== verification/Strerror.v ===== *)
(** * Three versions of [strerror]: [threads/strerror.c], [threads/strerror_tsd.c]
      and [threads/strerror_tls.c]

    Any number of threads call [strerror], each with its list of error numbers.
    The three versions differ in the buffer they fill: a static one, one that
    each thread allocates and finds again under a key, or a thread-local one.  A
    buffer is filled one character at a time, so that calls interleave.

    When a call fails in the second version, [errExit] and [errExitEN] call
    [outputError] of lib/error_functions.c, which calls [strerror] for the text of the error: the
    function is entered again, in the same thread. *)

From S2P Require Import Prelude CStdlib Threads.

Definition MAX_ERROR_LEN : nat := 256.

Inductive variant := StaticBuf | ThreadSpecific | ThreadLocal.
#[export] Instance variant_eq_dec : EqDecision variant.
Proof. solve_decision. Defined.

(** [pthread_once_t]: not called, running in a thread, done. *)
Inductive once_t := OnceNew | OnceIn (i : nat) | OnceDone.

(** A thread is between calls, before [pthread_once], in [createKey], before
    [pthread_getspecific], [malloc] and [pthread_setspecific], about to store the
    [n]-th character, or has ended. *)
Inductive spc :=
  | SIdle | SOnce (err : Z) | SCreate (err : Z) | SGet (err : Z) | SMalloc (err : Z)
  | SSet (err : Z) (a : nat) | SWrite (err : Z) (a n : nat) | SExited.

#[export] Instance spc_eq_dec : EqDecision spc.
Proof. solve_decision. Defined.

(** Who has called [strerror]: the program; [outputError], on the way to the end of the process; or
    [outputError] called from [createKey], while [pthread_once] runs it. *)
Inductive caller := ByProgram | ByError | InCreateKey.
#[export] Instance caller_eq_dec : EqDecision caller.
Proof. solve_decision. Defined.

(** [st_str] is the pointer the last call of the program has returned, with its argument. *)
Record sthread := SThread { st_pc : spc; st_todo : list Z; st_str : option (nat * Z); st_from : caller }.

(** [s_slots] has each thread's buffer: its value for the key, or its
    thread-local variable; [s_over] when the process has ended. *)
Record sstate := SState {
  s_once : once_t;
  s_slots : gmap nat nat;
  s_heap : gmap nat (list ascii);
  s_threads : list sthread;
  s_over : bool }.

Section strerror.
(** [_sys_nerr] and [_sys_errlist]. *)
Context (nerr : Z) (errlist : Z → option cstring).
(** What allocated memory holds. *)
Context (junk : list ascii).

(** The text for an error number, and the characters stored in the buffer:
    [snprintf] ends them with a null, [strncpy] fills up with nulls. *)
Definition known_error (err : Z) : option cstring :=
  if (err <? 0) || (nerr <=? err) then None else errlist err.

Definition error_text (err : Z) : cstring :=
  take (MAX_ERROR_LEN - 1)
    (match known_error err with Some t => t | None => cs "Unknown error " ++ fmt_d err end).

Definition stored (err : Z) : list ascii :=
  let t := error_text err in
  match known_error err with
  | Some _ => t ++ replicate (MAX_ERROR_LEN - 1 - length t) NUL ++ [NUL]
  | None => t ++ [NUL]
  end.

(** The call begins. *)
Definition enter (v : variant) (i : nat) (err : Z) (s : sstate) : option spc :=
  match v with
  | StaticBuf => Some (SWrite err 0 0)
  | ThreadSpecific => Some (SOnce err)
  | ThreadLocal => a ← s_slots s !! i ; Some (SWrite err a 0)
  end.

Definition strerror_move (v : variant) (i : nat) (s : sstate) : option sstate :=
  if s_over s then None else
  t ← s_threads s !! i ;
  let '(SState once slots heap ts over) := s in
  let '(SThread pc todo str from) := t in
  let goto pc := <[i := SThread pc todo str from]> ts in
  match pc with
  | SIdle =>
      match todo with
      (** The destructor frees the buffer, or its storage ends. *)
      | [] => Some (SState once (delete i slots)
                (match slots !! i with Some a => delete a heap | None => heap end) (goto SExited) over)
      | err :: todo => pc ← enter v i err s ;
          Some (SState once slots heap (<[i := SThread pc todo str from]> ts) over)
      end
  | SOnce err =>
      match once with
      | OnceNew => Some (SState (OnceIn i) slots heap (goto (SCreate err)) over)
      | OnceIn _ => None
      | OnceDone => Some (SState once slots heap (goto (SGet err)) over)
      end
  | SCreate err => Some (SState OnceDone slots heap (goto (SGet err)) over)
  | SGet err =>
      Some (SState once slots heap
        (goto (match slots !! i with Some a => SWrite err a 0 | None => SMalloc err end)) over)
  | SMalloc err =>
      let a := fresh (dom heap) in
      Some (SState once slots (<[a := junk]> heap) (goto (SSet err a)) over)
  | SSet err a => Some (SState once (<[i := a]> slots) heap (goto (SWrite err a 0)) over)
  | SWrite err a n =>
      b ← heap !! a ;
      match stored err !! n with
      | Some c => Some (SState once slots (<[a := <[n := c]> b]> heap) (goto (SWrite err a (S n))) over)
      | None =>
          (** [outputError] prints the text and the process ends. *)
          match from with
          | ByProgram => Some (SState once slots heap (<[i := SThread SIdle todo (Some (a, err)) from]> ts) over)
          | _ => Some (SState once slots heap ts true)
          end
      end
  | SExited => None
  end.

(** A call fails with the error [e]: [strerror e] is called.  Memory that was allocated is not
    freed, and [pthread_once] does not return from [createKey]. *)
Definition strerror_fail (i : nat) (e : Z) (s : sstate) : option sstate :=
  if s_over s then None else
  t ← s_threads s !! i ;
  let again from := Some (SState (s_once s) (s_slots s) (s_heap s)
    (<[i := SThread (SOnce e) (st_todo t) (st_str t) from]> (s_threads s)) (s_over s)) in
  match st_pc t with
  | SCreate _ => again InCreateKey
  | SOnce _ => again (if decide (st_from t = InCreateKey) then InCreateKey else ByError)
  | SMalloc _ | SSet _ _ => again ByError
  | _ => None
  end.

Inductive strerror_step (v : variant) : sstate → sstate → Prop :=
  | strerror_step_move i s s' : strerror_move v i s = Some s' → strerror_step v s s'
  | strerror_step_fail i e s s' : strerror_fail i e s = Some s' → strerror_step v s s'.

(** A thread per list of error numbers; static storage is zero. *)
Definition zeros : list ascii := replicate MAX_ERROR_LEN NUL.
Definition strerror_start (v : variant) (calls : list (list Z)) : sstate :=
  let ids := seq 0 (length calls) in
  SState OnceNew
    (match v with ThreadLocal => list_to_map ((λ i, (i, i)) <$> ids) | _ => ∅ end)
    (match v with
     | StaticBuf => {[ 0%nat := zeros ]}
     | ThreadSpecific => ∅
     | ThreadLocal => list_to_map ((λ i, (i, zeros)) <$> ids)
     end)
    ((λ errs, SThread SIdle errs None ByProgram) <$> calls) false.

(** ** Texts *)

(** The string at a pointer. *)
Fixpoint cstr (b : list ascii) : cstring :=
  match b with
  | [] => []
  | c :: b => if bool_decide (c = NUL) then [] else c :: cstr b
  end.

Lemma cstr_text (t b r : list ascii) : NUL ∉ t → b = t ++ NUL :: r → cstr b = t.
Proof.
  intros Ht ->. elim: t Ht => [|c t IH] Ht; [done|]. cbn. rw bool_decide_eq_false_2; [set_solver|].
  rw IH //. set_solver.
Qed.

Lemma stored_text err : ∃ r, stored err = error_text err ++ NUL :: r.
Proof.
  rw /stored. destruct (known_error err); [|by eexists].
  destruct (MAX_ERROR_LEN - 1 - length (error_text err))%nat as [|n]; [by eexists|]. cbn. by eexists.
Qed.

Lemma length_stored err : (length (stored err) ≤ MAX_ERROR_LEN)%nat.
Proof.
  rw /stored. assert (length (error_text err) ≤ MAX_ERROR_LEN - 1)%nat by (rw /error_text length_take; lia).
  rw {3}/MAX_ERROR_LEN in H |- *. destruct (known_error err); rw !length_app ?length_replicate /=; rw /MAX_ERROR_LEN in H *; lia.
Qed.

(** ** The invariant *)

(** The buffer of a thread; one that it has allocated is its own before the key
    has it. *)
Definition own (so : option nat) (t : sthread) : option nat :=
  match st_pc t with SSet _ a => Some a | _ => so end.

(** The buffer has the characters of [stored err] up to [n]. *)
Definition filled (err : Z) (n : nat) (b : list ascii) : Prop := take n b = take n (stored err).

(** What holds of a thread with the slot [so] and the buffer content [b]. *)
Record t_ok (so : option nat) (b : option (list ascii)) (t : sthread) : Prop := {
  to_len : ∀ a, own so t = Some a → ∃ c, b = Some c ∧ length c = MAX_ERROR_LEN;
  to_pc : match st_pc t with
          | SMalloc _ | SSet _ _ | SExited => so = None
          | SWrite err a n => so = Some a ∧ ∀ c, b = Some c → filled err n c
          | _ => True
          end;
  to_from : match st_from t with
            | ByProgram => True
            | ByError => st_pc t ≠ SIdle ∧ st_pc t ≠ SExited
            | InCreateKey => ∃ err, st_pc t = SOnce err
            end;
  to_str : ∀ a err, st_str t = Some (a, err) → st_pc t ≠ SExited →
    so = Some a ∧ ((∀ e a n, st_pc t ≠ SWrite e a n) → ∀ c, b = Some c → filled err (length (stored err)) c);
}.

(** A thread in [createKey], also through [outputError]. *)
Definition creating (t : sthread) : Prop := (∃ err, st_pc t = SCreate err) ∨ st_from t = InCreateKey.

Lemma creating_same t t' :
  (∀ err, st_pc t ≠ SCreate err) → (∀ err, st_pc t' ≠ SCreate err) → st_from t' = st_from t →
  creating t ↔ creating t'.
Proof. rw /creating. intros H H' ->. split; (intros [[e E]|E]; [|by right]); [by destruct (H e)|by destruct (H' e)]. Qed.

Definition buffer (s : sstate) (i : nat) (t : sthread) : option (list ascii) :=
  own (s_slots s !! i) t ≫= (s_heap s !!.).

Record s_inv (v : variant) (s : sstate) : Prop := {
  si_thread : ∀ i t, s_threads s !! i = Some t → t_ok (s_slots s !! i) (buffer s i t) t;
  si_own : ∀ i j ti tj a, s_threads s !! i = Some ti → s_threads s !! j = Some tj →
    own (s_slots s !! i) ti = Some a → own (s_slots s !! j) tj = Some a → i = j;
  si_once : ∀ i, s_once s = OnceIn i ↔ ∃ t, s_threads s !! i = Some t ∧ creating t;
  si_local : v = ThreadLocal → ∀ i t, s_threads s !! i = Some t → st_pc t ≠ SExited → is_Some (s_slots s !! i);
}.

Lemma si_buffer v s i t a :
  s_inv v s → s_threads s !! i = Some t → own (s_slots s !! i) t = Some a →
  ∃ c, s_heap s !! a = Some c ∧ buffer s i t = Some c ∧ length c = MAX_ERROR_LEN.
Proof.
  intros Hinv Hi Ha. destruct (to_len _ _ _ (si_thread _ _ Hinv i t Hi) a Ha) as (c & Hb & Hl).
  exists c. split_and!; [|done..]. by rw /buffer Ha /= in Hb.
Qed.

(** A thread moves: the others keep their buffers. *)
Lemma s_inv_move v s i t t' once' slots' heap' :
  s_inv v s → s_threads s !! i = Some t →
  let s' := SState once' slots' heap' (<[i := t']> (s_threads s)) (s_over s) in
  (∀ j, j ≠ i → slots' !! j = s_slots s !! j) →
  (∀ a, own (s_slots s !! i) t ≠ Some a → is_Some (s_heap s !! a) → heap' !! a = s_heap s !! a) →
  (∀ a, own (slots' !! i) t' = Some a → own (s_slots s !! i) t = Some a ∨ s_heap s !! a = None) →
  (∀ k, once' = OnceIn k ↔ if decide (k = i) then creating t' else s_once s = OnceIn k) →
  (v = ThreadLocal → st_pc t' ≠ SExited → is_Some (slots' !! i)) →
  t_ok (slots' !! i) (own (slots' !! i) t' ≫= (heap' !!.)) t' →
  s_inv v s'.
Proof.
  intros Hinv Hi s' Hsl Hhp Hown Honce Hloc Hok.
  pose proof (lookup_lt_Some _ _ _ Hi) as Hlt.
  assert (∀ j tj, s_threads s' !! j = Some tj → j = i ∧ tj = t' ∨ j ≠ i ∧ s_threads s !! j = Some tj) as Hj.
  { intros j tj H. cbn in H. apply list_lookup_insert_Some in H as [(-> & -> & _)|[? ?]]; [by left|right]. by split; [apply not_eq_sym|]. }
  assert (∀ j tj a, j ≠ i → s_threads s !! j = Some tj → own (s_slots s !! j) tj = Some a →
    own (slots' !! i) t' = Some a → False) as Hdisj.
  { intros j tj a Hne Htj Ha Ha'. destruct (Hown a Ha') as [Ho|Ho].
    - by apply Hne, (si_own _ _ Hinv j i tj t a).
    - destruct (si_buffer v s j tj a Hinv Htj Ha) as (c & Hc & _). congruence. }
  split.
  - intros j tj [[-> ->]|[Hne Htj]]%Hj; [exact Hok|]. cbn. rw Hsl //.
    pose proof (si_thread _ _ Hinv j tj Htj) as H. enough (buffer s' j tj = buffer s j tj) as -> by done.
    rw /buffer /= Hsl //. destruct (own (s_slots s !! j) tj) as [a|] eqn:Ha; [|done]. cbn.
    destruct (si_buffer v s j tj a Hinv Htj Ha) as (c & Hc & _). apply Hhp; [|by rw Hc].
    intros Ho. by apply Hne, (si_own _ _ Hinv j i tj t a).
  - intros j k tj tk a [[-> ->]|[Hne Htj]]%Hj [[-> ->]|[Hnk Htk]]%Hj; cbn; try done.
    + rw (Hsl k) //. intros H1 H2. by destruct (Hdisj k tk a).
    + rw (Hsl j) //. intros H1 H2. by destruct (Hdisj j tj a).
    + rw !Hsl //. by apply (si_own _ _ Hinv).
  - intros k. cbn. rw Honce. destruct (decide (k = i)) as [->|Hk].
    + rw list_lookup_insert_eq //. split; [by exists t'|]. by intros (? & [= <-] & He).
    + rw list_lookup_insert_ne; [by apply not_eq_sym|]. apply (si_once _ _ Hinv).
  - intros Hv j tj [[-> ->]|[Hne Htj]]%Hj; cbn; [auto|]. rw Hsl //. by apply (si_local _ _ Hinv Hv).
Qed.

(** [pthread_once] is not involved. *)
Lemma once_same v s i t t' :
  s_inv v s → s_threads s !! i = Some t → (creating t ↔ creating t') →
  ∀ k, s_once s = OnceIn k ↔ if decide (k = i) then creating t' else s_once s = OnceIn k.
Proof.
  intros Hinv Hi Ht k. destruct (decide (k = i)) as [->|]; [|done]. rw (si_once _ _ Hinv) -Ht.
  split; [|by exists t]. intros (? & E & He). rw Hi in E. by injection E as <-.
Qed.

(** A move that changes only the program counter, not the buffers. *)
Lemma s_inv_goto v s i t pc todo from once' :
  s_inv v s → s_threads s !! i = Some t → let t' := SThread pc todo (st_str t) from in
  (∀ err a, st_pc t ≠ SSet err a) → (∀ err a, pc ≠ SSet err a) → pc ≠ SExited → st_pc t ≠ SExited →
  (∀ e a n, st_pc t ≠ SWrite e a n) →
  match pc with
  | SMalloc _ => s_slots s !! i = None
  | SWrite err a n => s_slots s !! i = Some a ∧ n = O
  | _ => True
  end →
  match from with
  | ByProgram => True
  | ByError => pc ≠ SIdle
  | InCreateKey => ∃ err, pc = SOnce err
  end →
  (∀ k, once' = OnceIn k ↔ if decide (k = i) then creating t' else s_once s = OnceIn k) →
  s_inv v (SState once' (s_slots s) (s_heap s) (<[i := t']> (s_threads s)) (s_over s)).
Proof.
  intros Hinv Hi t' Hs1 Hs2 He1 He2 Hw Hpc Hfr Ho.
  assert (∀ so, own so t = so) as Hown by (intros so; rw /own; destruct (st_pc t); try done; by destruct (Hs1 err a)).
  assert (∀ so, own so t' = so) as Hown' by (intros so; rw /own /=; destruct pc; try done; by destruct (Hs2 err a)).
  pose proof (si_thread _ _ Hinv i t Hi) as [Hlen _ _ Hstr].
  rw /buffer Hown in Hlen Hstr.
  apply (s_inv_move v s i t); try done.
  - intros a. rw Hown Hown'. by left.
  - intros Hv _. by apply (si_local _ _ Hinv Hv i t).
  - rw Hown'. split.
    + intros a. rw Hown'. apply Hlen.
    + cbn. destruct pc as [| | | | |e a|e a n|]; try done; [by destruct (Hs2 e a)|].
      destruct Hpc as [-> ->]. split; [done|]. by intros c.
    + by destruct from.
    + intros a err E Hn. cbn in E. destruct (Hstr a err E He2) as [Ha Hf]. split; [done|]. intros _. by apply Hf.
Qed.

Lemma filled_step err n c b :
  stored err !! n = Some c → length b = MAX_ERROR_LEN → filled err n b → filled err (S n) (<[n := c]> b).
Proof.
  intros Hc Hb Hf. pose proof (length_stored err). pose proof (lookup_lt_Some _ _ _ Hc).
  rw /filled (take_S_r _ n c); [by rw list_lookup_insert_eq; [lia|]|]. rw (take_S_r (stored err) n c) //.
  by rw take_insert_ge; [lia|]; rw Hf.
Qed.

Lemma s_inv_exit v s i t :
  s_inv v s → s_threads s !! i = Some t → st_pc t = SIdle →
  s_inv v (SState (s_once s) (delete i (s_slots s))
    (match s_slots s !! i with Some a => delete a (s_heap s) | None => s_heap s end)
    (<[i := SThread SExited [] (st_str t) (st_from t)]> (s_threads s)) (s_over s)).
Proof.
  intros Hinv Hi Hpc. assert (own (s_slots s !! i) t = s_slots s !! i) as Hown by (by rw /own Hpc).
  assert (st_from t = ByProgram) as Hfr.
  { pose proof (to_from _ _ _ (si_thread _ _ Hinv i t Hi)) as H. rw Hpc in H. destruct (st_from t); [done|by destruct H|by destruct H]. }
  apply (s_inv_move v s i t); rw ?Hown; try done.
  - intros j Hj. by rw lookup_delete_ne; [by apply not_eq_sym|].
  - intros a Ha _. destruct (s_slots s !! i) as [b|]; [|done]. rw lookup_delete_ne //. by intros ->.
  - intros a. by rw lookup_delete_eq.
  - apply (once_same v s i t); [done..|]. apply creating_same; by rw ?Hpc.
  - rw lookup_delete_eq. rw Hfr. by split.
Qed.

Lemma s_inv_write v s i t err a n c b :
  s_inv v s → s_threads s !! i = Some t → st_pc t = SWrite err a n →
  s_heap s !! a = Some b → stored err !! n = Some c →
  s_inv v (SState (s_once s) (s_slots s) (<[a := <[n := c]> b]> (s_heap s))
    (<[i := SThread (SWrite err a (S n)) (st_todo t) (st_str t) (st_from t)]> (s_threads s)) (s_over s)).
Proof.
  intros Hinv Hi Hpc Hb Hc. pose proof (si_thread _ _ Hinv i t Hi) as [Hlen Ht Hfr Hstr].
  assert (own (s_slots s !! i) t = s_slots s !! i) as Hown by (by rw /own Hpc).
  rw Hpc in Ht Hfr Hstr. destruct Ht as [Ha Hf]. rw /buffer Hown Ha /= Hb in Hlen Hf Hstr.
  apply (s_inv_move v s i t); rw ?Hown; try done.
  - intros a' Ha' _. rw lookup_insert_ne //. congruence.
  - intros a'. cbn. by left.
  - apply (once_same v s i t); [done..|]. apply creating_same; by rw ?Hpc.
  - rw Ha /own /= lookup_insert_eq. destruct (Hlen a eq_refl) as (c' & [= <-] & Hl). split.
    + intros a' _. eexists. split; [done|]. by rw length_insert.
    + cbn. split; [done|]. intros ? [= <-]. apply filled_step; [done..|]. by apply Hf.
    + cbn. destruct (st_from t); [done|done|by destruct Hfr].
    + cbn. intros a' err' E _. destruct (Hstr a' err' E) as [? _]; [done|]. split; [done|].
      intros Hn. by destruct (Hn err a (S n)).
Qed.

Lemma s_inv_return v s i t err a n b :
  s_inv v s → s_threads s !! i = Some t → st_pc t = SWrite err a n →
  s_heap s !! a = Some b → stored err !! n = None → st_from t = ByProgram →
  s_inv v (SState (s_once s) (s_slots s) (s_heap s)
    (<[i := SThread SIdle (st_todo t) (Some (a, err)) ByProgram]> (s_threads s)) (s_over s)).
Proof.
  intros Hinv Hi Hpc Hb Hc Hfr. pose proof (si_thread _ _ Hinv i t Hi) as [Hlen Ht _ _].
  assert (own (s_slots s !! i) t = s_slots s !! i) as Hown by (by rw /own Hpc).
  rw Hpc in Ht. destruct Ht as [Ha Hf]. rw /buffer Hown Ha /= Hb in Hlen Hf.
  apply (s_inv_move v s i t); rw ?Hown; try done.
  - intros a'. cbn. by left.
  - apply (once_same v s i t); [done..|]. apply creating_same; by rw ?Hpc.
  - rw Ha /own /= Hb. split; [done|done|done|]. cbn. intros a' err' [= <- <-] _. split; [done|]. intros _ ? [= <-].
    apply lookup_ge_None in Hc. specialize (Hf b eq_refl). rw /filled firstn_all.
    apply (f_equal (take (length (stored err)))) in Hf. rw !take_take in Hf.
    rw Nat.min_l // in Hf. by rw Hf firstn_all.
Qed.

Lemma s_inv_alloc v s i t err :
  length junk = MAX_ERROR_LEN →
  s_inv v s → s_threads s !! i = Some t → st_pc t = SMalloc err →
  let a := fresh (dom (s_heap s)) in
  s_inv v (SState (s_once s) (s_slots s) (<[a := junk]> (s_heap s))
    (<[i := SThread (SSet err a) (st_todo t) (st_str t) (st_from t)]> (s_threads s)) (s_over s)).
Proof.
  intros Hj Hinv Hi Hpc a. assert (s_heap s !! a = None) as Hfresh by apply not_elem_of_dom, is_fresh.
  pose proof (si_thread _ _ Hinv i t Hi) as [_ Ht Hfr Hstr]. rw Hpc in Ht Hfr Hstr.
  apply (s_inv_move v s i t); try done.
  - intros a' _ [c Hc]. rw lookup_insert_ne //. intros <-. by rw Hfresh in Hc.
  - cbn. intros ? [= <-]. by right.
  - apply (once_same v s i t); [done..|]. apply creating_same; by rw ?Hpc.
  - intros Hv _. apply (si_local _ _ Hinv Hv i t Hi). by rw Hpc.
  - rw /own /= lookup_insert_eq. split; [|done| |].
    + intros ? _. eauto.
    + cbn. destruct (st_from t); [done|done|by destruct Hfr].
    + intros a' err' E _. destruct (Hstr a' err' E) as [? _]; [done|]. congruence.
Qed.

Lemma s_inv_set v s i t err a :
  s_inv v s → s_threads s !! i = Some t → st_pc t = SSet err a →
  s_inv v (SState (s_once s) (<[i := a]> (s_slots s)) (s_heap s)
    (<[i := SThread (SWrite err a 0) (st_todo t) (st_str t) (st_from t)]> (s_threads s)) (s_over s)).
Proof.
  intros Hinv Hi Hpc. pose proof (si_thread _ _ Hinv i t Hi) as [Hlen Ht Hfr Hstr]. rw Hpc in Ht Hfr Hstr.
  assert (own (s_slots s !! i) t = Some a) as Hown by (by rw /own Hpc).
  apply (s_inv_move v s i t); rw ?Hown; try done.
  - intros j Hne. by rw lookup_insert_ne; [by apply not_eq_sym|].
  - intros a'. rw lookup_insert_eq. cbn. by left.
  - apply (once_same v s i t); [done..|]. apply creating_same; by rw ?Hpc.
  - intros _ _. rw lookup_insert_eq. eauto.
  - rw lookup_insert_eq /own /=. rw /buffer Hown /= in Hlen. split.
    + intros ? _. by apply (Hlen a).
    + cbn. split; [done|]. by intros c.
    + cbn. destruct (st_from t); [done|done|by destruct Hfr].
    + intros a' err' E _. destruct (Hstr a' err' E) as [? _]; [done|]. congruence.
Qed.

Lemma strerror_move_inv v i s s' :
  length junk = MAX_ERROR_LEN → v ≠ StaticBuf → s_inv v s → strerror_move v i s = Some s' → s_inv v s'.
Proof.
  intros Hj Hv Hinv. rw /strerror_move. destruct (s_over s) eqn:Hover; [done|].
  destruct (s_threads s !! i) as [t|] eqn:Hi; [|done]. cbn.
  pose proof (si_thread _ _ Hinv i t Hi) as Ht. pose proof (λ t', once_same v s i t t' Hinv Hi) as Honce.
  pose proof (λ pc todo from once', s_inv_goto v s i t pc todo from once' Hinv Hi) as Hgoto.
  destruct s as [once slots heap ts over]. cbn in Hover, Hi, Hgoto, Honce, Ht. subst over.
  destruct t as [pc todo str from]. cbn in Hgoto, Honce. pose proof (to_from _ _ _ Ht) as Hfr. cbn in Hfr.
  destruct pc as [|err|err|err|err|err a|err a n|].
  - destruct todo as [|err todo].
    + intros [= <-]. exact (s_inv_exit v _ i _ Hinv Hi eq_refl).
    + assert (from = ByProgram) as -> by (destruct from; [done|by destruct Hfr|by destruct Hfr]).
      destruct (enter v i err _) as [pc|] eqn:He; [|done]. cbn. intros [= <-].
      rw /enter in He. destruct v; [done| |]; cbn in He.
      * injection He as <-. apply Hgoto; try done. apply (Honce (SThread _ todo str _)). by apply creating_same.
      * destruct (slots !! i) as [a|] eqn:Ha; [|done]. injection He as <-.
        apply Hgoto; try done. apply (Honce (SThread _ todo str _)). by apply creating_same.
  - assert (once ≠ OnceIn i → from ≠ InCreateKey) as Hnot.
    { intros Ho ->. apply Ho, (si_once _ _ Hinv). eexists. split; [exact Hi|]. by right. }
    destruct once as [|j|] eqn:Eo; [| done |]; intros [= <-]; specialize (Hnot ltac:(done)); apply Hgoto; try done.
    + by destruct from.
    + intros k. split; [intros [= ->]; rw decide_True //; left; by eexists|]. case_decide as Hk; [by subst|done].
    + by destruct from.
    + apply (Honce (SThread _ todo str _)). by apply creating_same.
  - assert (from ≠ InCreateKey) as Hnot by (intros ->; by destruct Hfr).
    intros [= <-]. apply Hgoto; try done; [by destruct from|]. intros k. split; [done|].
    case_decide as Hk; [by intros [[? ?]|?]|].
    intros E. assert (once = OnceIn i) as E'.
    { apply (si_once _ _ Hinv). eexists. split; [exact Hi|]. left. by eexists. }
    congruence.
  - assert (from ≠ InCreateKey) as Hnot by (intros ->; by destruct Hfr).
    intros [= <-]. destruct (slots !! i) as [a|] eqn:Ha; apply Hgoto; try done; try (by destruct from);
      apply (Honce (SThread _ todo str _)); by apply creating_same.
  - intros [= <-]. exact (s_inv_alloc v _ i _ err Hj Hinv Hi eq_refl).
  - intros [= <-]. exact (s_inv_set v _ i _ err a Hinv Hi eq_refl).
  - destruct (heap !! a) as [b|] eqn:Hb; [|done]. cbn. destruct (stored err !! n) as [c|] eqn:Hc.
    + intros [= <-]. exact (s_inv_write v _ i _ err a n c b Hinv Hi eq_refl Hb Hc).
    + destruct from; intros [= <-]; [exact (s_inv_return v _ i _ err a n b Hinv Hi eq_refl Hb Hc eq_refl)|..];
        by destruct Hinv; split.
  - done.
Qed.

(** Setting the key has failed: the memory is lost. *)
Lemma s_inv_lost v s i t err a e :
  s_inv v s → s_threads s !! i = Some t → st_pc t = SSet err a →
  s_inv v (SState (s_once s) (s_slots s) (s_heap s)
    (<[i := SThread (SOnce e) (st_todo t) (st_str t) ByError]> (s_threads s)) (s_over s)).
Proof.
  intros Hinv Hi Hpc. pose proof (si_thread _ _ Hinv i t Hi) as [Hlen Ht Hfr Hstr]. rw Hpc in Ht Hfr Hstr.
  assert (own (s_slots s !! i) t = Some a) as Hown by (by rw /own Hpc).
  apply (s_inv_move v s i t); rw ?Hown; try done.
  - intros a'. rw /own /= Ht. done.
  - apply (once_same v s i t); [done..|]. rw /creating Hpc /=.
    split; (intros [[? ?]|E]; [done|]); [rw E in Hfr; by destruct Hfr|done].
  - intros Hv _. apply (si_local _ _ Hinv Hv i t Hi). by rw Hpc.
  - rw Ht /own /=. split; [done|done|done|].
    intros a' err' E _. destruct (Hstr a' err' E) as [? _]; [done|]. congruence.
Qed.

Lemma strerror_fail_inv v i e s s' : s_inv v s → strerror_fail i e s = Some s' → s_inv v s'.
Proof.
  intros Hinv. rw /strerror_fail. destruct (s_over s) eqn:Ho; [done|].
  destruct (s_threads s !! i) as [t|] eqn:Hi; [|done]. cbn. rw -{1 2 3 4}Ho.
  pose proof (to_from _ _ _ (si_thread _ _ Hinv i t Hi)) as Hfr.
  pose proof (λ from, s_inv_goto v s i t (SOnce e) (st_todo t) from (s_once s) Hinv Hi) as Hgoto.
  assert (st_from t ≠ InCreateKey → (∀ err, st_pc t ≠ SCreate err) →
    creating t ↔ creating (SThread (SOnce e) (st_todo t) (st_str t) ByError)) as Hc.
  { intros Hf Hp. rw /creating. split; intros [[? ?]|?]; try done. by destruct (Hp x). }
  destruct (st_pc t) as [|err|err|err|err|err a|err a n|] eqn:Hpc; try done; intros [= <-].
  - destruct (decide (st_from t = InCreateKey)) as [Ef|Ef]; apply Hgoto; try done; [by eexists|..].
    + apply (once_same v s i t); [done..|]. apply creating_same; by rw ?Hpc.
    + apply (once_same v s i t); [done..|]. by apply Hc.
  - apply Hgoto; try done; [by eexists|]. apply (once_same v s i t); [done..|].
    split; intros _; [by right|left; exists err; exact Hpc].
  - apply Hgoto; try done. apply (once_same v s i t); [done..|]. apply Hc; [|done]. intros Ef. rw Ef in Hfr. by destruct Hfr.
  - exact (s_inv_lost v s i t err a e Hinv Hi Hpc).
Qed.

Lemma strerror_start_inv v calls : v ≠ StaticBuf → s_inv v (strerror_start v calls).
Proof.
  intros Hv.
  assert (∀ i t, s_threads (strerror_start v calls) !! i = Some t →
    (i < length calls)%nat ∧ st_pc t = SIdle ∧ st_str t = None ∧ st_from t = ByProgram) as Ht.
  { intros i t. cbn. rw list_lookup_fmap. destruct (calls !! i) eqn:E; [|done]. intros [= <-].
    split; [exact (lookup_lt_Some _ _ _ E)|done]. }
  assert (∀ (A : Type) (f : nat → A) i, (i < length calls)%nat →
    (list_to_map ((λ i, (i, f i)) <$> seq 0 (length calls)) : gmap nat A) !! i = Some (f i)) as Hmap.
  { intros A f i Hi. apply elem_of_list_to_map_1'.
    - intros y (j & [= -> ->] & _)%list_elem_of_fmap. done.
    - apply list_elem_of_fmap. exists i. split; [done|]. apply elem_of_seq. lia. }
  split.
  - intros i t Hi. destruct (Ht i t Hi) as (Hl & Hpc & Hstr & Hf). split; rw ?Hpc ?Hstr ?Hf //.
    intros a. rw /buffer /own Hpc. destruct v; cbn; [done|done|]. rw (Hmap nat id) //. intros [= <-]. cbn.
    rw (Hmap (list ascii) (λ _, zeros)) //. eexists. split; [done|]. by rw length_replicate.
  - intros i j ti tj a Hi Hj. destruct (Ht i ti Hi) as (Hl & Hpc & _). destruct (Ht j tj Hj) as (Hl' & Hpc' & _).
    rw /own Hpc Hpc'. destruct v; cbn; [done..|]. rw !(Hmap nat id) //. by intros [= ->] [= ->].
  - intros i. split; [done|]. intros (t & Hi & [[err E]|E]); destruct (Ht i t Hi) as (_ & Hpc & _ & Hf); congruence.
  - intros -> i t Hi _. destruct (Ht i t Hi) as (Hl & _). cbn. by rw (Hmap nat id).
Qed.

Lemma strerror_reach_inv v calls s :
  length junk = MAX_ERROR_LEN → v ≠ StaticBuf → rtc (strerror_step v) (strerror_start v calls) s → s_inv v s.
Proof.
  intros Hj Hv H. apply (rtc_ind_r (s_inv v)) in H; [done|by apply strerror_start_inv|].
  intros s1 s2 _ [i s0 s' Hm|i e s0 s' Hm] Hinv; [exact (strerror_move_inv v i _ _ Hj Hv Hinv Hm)|exact (strerror_fail_inv v i e _ _ Hinv Hm)].
Qed.

(** ** Progress *)

Definition finished (s : sstate) : Prop := s_over s = true ∨ Forall (λ t, st_pc t = SExited) (s_threads s).

Lemma thread_moves v s i t :
  v ≠ StaticBuf → s_inv v s → s_over s = false → s_threads s !! i = Some t → st_pc t ≠ SExited →
  (∀ err, st_pc t ≠ SOnce err) → is_Some (strerror_move v i s).
Proof.
  intros Hv Hinv Ho Hi He Hon. rw /strerror_move Ho Hi /=. destruct s as [once slots heap ts over].
  pose proof (si_thread _ _ Hinv i t Hi) as [Hlen Ht _ _]. pose proof (λ H, si_local _ _ Hinv H i t Hi He) as Hloc.
  cbn in Hlen, Ht, Hloc. destruct t as [pc todo str from]. destruct pc as [|err|err|err|err|err a|err a n|]; try (by destruct He); try by eexists.
  - destruct todo as [|err todo]; [by eexists|]. rw /enter. destruct v; [done|by eexists|].
    destruct (Hloc eq_refl) as [a Ha]. cbn. rw Ha. by eexists.
  - by destruct (Hon err).
  - cbn in Ht. destruct Ht as [Ha _]. destruct (Hlen a) as (c & Hc & _); [done|].
    rw /buffer /own /= Ha /= in Hc. rw Hc /=. destruct (stored err !! n); [by eexists|]. destruct from; by eexists.
Qed.

(** [pthread_key_create] has failed. *)
Definition key_failed (s : sstate) : Prop := Exists (λ t, st_from t = InCreateKey) (s_threads s).

Lemma strerror_progress v s :
  v ≠ StaticBuf → s_inv v s → ¬ key_failed s → finished s ∨ ∃ i s', strerror_move v i s = Some s'.
Proof.
  intros Hv Hinv Hkey. destruct (s_over s) eqn:Ho; [by left; left|].
  destruct (decide (Exists (λ t, st_pc t ≠ SExited) (s_threads s))) as [He|Hn].
  2: { left. right. apply not_Exists_Forall in Hn; [|apply _]. eapply Forall_impl; [exact Hn|].
       intros t Ht. cbn in Ht. by apply dec_stable in Ht. }
  right. apply Exists_exists in He as (t & [i Hi]%list_elem_of_lookup & He).
  assert (∀ j tj, s_threads s !! j = Some tj → st_pc tj ≠ SExited → (∀ err, st_pc tj ≠ SOnce err) →
    ∃ j s', strerror_move v j s = Some s') as Hmove.
  { intros j tj Hj H1 H2. destruct (thread_moves v s j tj Hv Hinv Ho Hj H1 H2) as [s' Hs']. eauto. }
  destruct (st_pc t) as [|err| | | | | |] eqn:Hpc; try by (apply (Hmove i t); rw ?Hpc).
  destruct (s_once s) as [|j|] eqn:Eo.
  - exists i. rw /strerror_move Ho Hi /=. destruct s, t. cbn in *. subst. by eexists.
  - apply (si_once _ _ Hinv) in Eo as (tj & Hj & [[e Ej]|Ej]); [by apply (Hmove j tj); rw ?Ej|].
    destruct Hkey. apply Exists_exists. exists tj. split; [by apply (list_elem_of_lookup_2 _ j)|done].
  - exists i. rw /strerror_move Ho Hi /=. destruct s, t. cbn in *. subst. by eexists.
Qed.

(** What a thread has still to do, in steps. *)
Definition pc_work (pc : spc) : nat :=
  match pc with
  | SExited => 0
  | SIdle => 1
  | SWrite err _ n => 2 + (length (stored err) - n)
  | SSet err _ => 3 + length (stored err)
  | SMalloc err => 4 + length (stored err)
  | SGet err => 5 + length (stored err)
  | SCreate err => 6 + length (stored err)
  | SOnce err => 7 + length (stored err)
  end.
Definition work (t : sthread) : Z :=
  Z.of_nat (pc_work (st_pc t)) + sumZ ((λ err, 7 + Z.of_nat (length (stored err))) <$> st_todo t).
Definition s_bound (s : sstate) : Z := sumZ (work <$> s_threads s) + if s_over s then 0 else 1.

Lemma strerror_move_bound v i s s' : strerror_move v i s = Some s' → s_bound s' < s_bound s.
Proof.
  rw /strerror_move. destruct (s_over s) eqn:Ho; [done|]. destruct (s_threads s !! i) as [t|] eqn:Hi; [|done]. cbn.
    destruct s as [once slots heap ts over], t as [pc todo str from]. cbn in Ho, Hi. subst over.
    assert (∀ once' slots' heap' t', work t' < work (SThread pc todo str from) →
      s_bound (SState once' slots' heap' (<[i := t']> ts) false) <
      s_bound (SState once slots heap ts false)) as Hb.
    { intros ???? H. rw /s_bound /= (sumZ_insert work ts i _ _ Hi). lia. }
    destruct pc as [|err|err|err|err|err a|err a n|]; cbn.
    + destruct todo as [|err todo]; [intros [= <-]; by apply Hb|].
      destruct (enter v i err _) as [pc|] eqn:He; [|done]. cbn. intros [= <-]. apply Hb.
      assert (pc_work pc ≤ 7 + length (stored err))%nat; [|rw /work; csimpl; lia].
      rw /enter in He. destruct v; cbn in He; [injection He as <-; cbn; lia..|].
      destruct (slots !! i); [|done]. injection He as <-. cbn. lia.
    + destruct once; [|done|]; intros [= <-]; apply Hb; rw /work /=; lia.
    + intros [= <-]; apply Hb; rw /work /=; lia.
    + intros [= <-]; apply Hb; rw /work /=; destruct (slots !! i); cbn; lia.
    + intros [= <-]; apply Hb; rw /work /=; lia.
    + intros [= <-]; apply Hb; rw /work /=; lia.
    + destruct (heap !! a) as [b|]; [|done]. cbn. destruct (stored err !! n) eqn:Hc.
      { intros [= <-]. apply Hb. rw /work /=. apply lookup_lt_Some in Hc. lia. }
      destruct from; intros [= <-]; [apply Hb; rw /work /=; lia|rw /s_bound /=; lia..].
    + done.
Qed.

Lemma sumZ_nonneg l : Forall (λ z, 0 ≤ z) l → 0 ≤ sumZ l.
Proof. induction 1; cbn; lia. Qed.

Lemma s_bound_nonneg s : 0 ≤ s_bound s.
Proof.
  rw /s_bound. assert (0 ≤ sumZ (work <$> s_threads s)); [|destruct (s_over s); lia].
  apply sumZ_nonneg, Forall_fmap, Forall_true. intros t. cbn. rw /work.
  assert (0 ≤ sumZ ((λ err, 7 + Z.of_nat (length (stored err))) <$> st_todo t)); [|lia].
  apply sumZ_nonneg, Forall_fmap, Forall_true. intros err. cbn. lia.
Qed.

Lemma error_text_no_nul err : (∀ e t, errlist e = Some t → NUL ∉ t) → NUL ∉ error_text err.
Proof.
  intros Hnul [n H]%list_elem_of_lookup. rw /error_text in H.
  apply lookup_take_Some in H as [H%list_elem_of_lookup_2 _]. rw /known_error in H.
  assert (NUL ∉ cs "Unknown error " ++ fmt_d err) as Hun.
  { apply not_elem_of_app. split; [by apply (bool_decide_unpack _)|]. by apply fmt_d_no_sep. }
  destruct (_ || _); [done|]. destruct (errlist err) as [t|] eqn:E; [by apply (Hnul err t)|done].
Qed.

Lemma filled_text err b :
  (∀ e t, errlist e = Some t → NUL ∉ t) → filled err (length (stored err)) b → cstr b = error_text err.
Proof.
  intros Hnul Hf. rw /filled firstn_all in Hf. destruct (stored_text err) as [r Hr].
  apply (cstr_text _ _ (r ++ drop (length (stored err)) b)); [by apply error_text_no_nul|].
  rw -{1}(take_drop (length (stored err)) b) Hf Hr -app_assoc. done.
Qed.

(** C27: With a thread-specific or a thread-local buffer, in every interleaving and
    whichever calls fail, where a failing call enters [strerror] again for the text of its error: the pointer that a thread was given by [strerror] still
    shows the text of its error number whatever the other threads have called
    since, until its own next call; two threads never hold the same pointer.
    The calls return unless calls fail: each step of a thread decreases a bound, which only a
    failing call raises, and until all threads have ended or the process has, some thread can move, provided
    that pthread_key_create has not failed.  If it has, the process hangs: see
    [strerror_key_deadlock]; a malloc that keeps failing enters [strerror] without end: see
    [strerror_malloc_recurses]. *)
Theorem strerror_private v calls s :
  length junk = MAX_ERROR_LEN → (∀ e t, errlist e = Some t → NUL ∉ t) →
  v ≠ StaticBuf → rtc (strerror_step v) (strerror_start v calls) s →
  (∀ i todo a err from, s_threads s !! i = Some (SThread SIdle todo (Some (a, err)) from) →
     ∃ b, s_heap s !! a = Some b ∧ cstr b = error_text err) ∧
  (∀ i j ti tj a ei ej, s_threads s !! i = Some ti → s_threads s !! j = Some tj →
     st_pc ti = SIdle → st_pc tj = SIdle →
     st_str ti = Some (a, ei) → st_str tj = Some (a, ej) → i = j) ∧
  (¬ key_failed s → finished s ∨ ∃ i s', strerror_move v i s = Some s') ∧
  (∀ i s', strerror_move v i s = Some s' → 0 ≤ s_bound s' < s_bound s).
Proof.
  intros Hj Hnul Hv Hr. pose proof (strerror_reach_inv v calls s Hj Hv Hr) as Hinv.
  assert (∀ i t a err, s_threads s !! i = Some t → st_pc t = SIdle → st_str t = Some (a, err) →
    s_slots s !! i = Some a ∧ ∃ b, s_heap s !! a = Some b ∧ filled err (length (stored err)) b) as Hstr.
  { intros i t a err Hi Hpc Hs. destruct (to_str _ _ _ (si_thread _ _ Hinv i t Hi) a err Hs) as [Ha Hf]; [by rw Hpc|].
    split; [done|]. destruct (si_buffer v s i t a Hinv Hi) as (b & Hb & Hbuf & _); [by rw /own Hpc|].
    exists b. split; [done|]. apply Hf; [by rw Hpc|done]. }
  split_and!.
  - intros i todo a err from Hi. destruct (Hstr i _ a err Hi eq_refl eq_refl) as (_ & b & Hb & Hf).
    exists b. split; [done|]. by apply (filled_text _ _ Hnul).
  - intros i j ti tj a ei ej Hi Hj' Hpi Hpj Hsi Hsj.
    destruct (Hstr i ti a ei Hi Hpi Hsi) as [Ha _], (Hstr j tj a ej Hj' Hpj Hsj) as [Ha' _].
    by apply (si_own _ _ Hinv i j ti tj a); rw /own ?Hpi ?Hpj.
  - by apply strerror_progress.
  - intros i s' Hs. split; [apply s_bound_nonneg|by apply (strerror_move_bound v i)].
Qed.
(** A [malloc] that fails when the thread has no buffer yet leads back to the same [malloc], one call of
    [strerror] deeper. *)
Lemma strerror_malloc_recurses i t err e s :
  s_over s = false → s_once s = OnceDone → s_slots s !! i = None →
  s_threads s !! i = Some t → st_pc t = SMalloc err →
  ∃ s1 s2 s3, strerror_fail i e s = Some s1 ∧ strerror_move ThreadSpecific i s1 = Some s2 ∧
    strerror_move ThreadSpecific i s2 = Some s3 ∧
    s3 = SState (s_once s) (s_slots s) (s_heap s)
           (<[i := SThread (SMalloc e) (st_todo t) (st_str t) ByError]> (s_threads s)) false.
Proof.
  intros Ho Hon Hsl Hi Hpc. pose proof (lookup_lt_Some _ _ _ Hi) as Hlt.
  destruct s as [once slots heap ts over]. cbn in *. subst. rw /strerror_fail /= Hi /= Hpc /=.
  eexists _, _, _. split; [done|]. rw /strerror_move /= list_lookup_insert_eq //=. split; [done|].
  rw /= list_insert_insert_eq list_lookup_insert_eq //= Hsl list_insert_insert_eq. done.
Qed.
End strerror.

(** ** The test program *)

(** A schedule: the threads that move, in order. *)
Fixpoint strerror_run nerr errlist junk (v : variant) (l : list nat) (s : sstate) : option sstate :=
  match l with
  | [] => Some s
  | i :: l => strerror_move nerr errlist junk v i s ≫= strerror_run nerr errlist junk v l
  end.

Lemma strerror_run_reaches nerr errlist junk v l s s' :
  strerror_run nerr errlist junk v l s = Some s' → rtc (strerror_step nerr errlist junk v) s s'.
Proof.
  elim: l s => [|i l IH] s; cbn; [intros [= ->]; apply rtc_refl|].
  destruct (strerror_move _ _ _ v i s) as [s1|] eqn:E; [|done]. cbn. intros H%IH.
  eapply rtc_l; [exact (strerror_step_move _ _ _ v i _ _ E)|done].
Qed.

Module StrerrorSim.
Definition nerr : Z := 134.
Definition errlist (e : Z) : option cstring :=
  if e =? 1 then Some (cs "Operation not permitted") else if e =? 22 then Some (cs "Invalid argument") else None.
Definition junk : list ascii := replicate MAX_ERROR_LEN "?"%char.
Definition run := strerror_run nerr errlist junk.

(** The main thread and the thread it creates, with the error numbers of
    strerror_test.c; the first calls [strerror] before the second does. *)
Definition EPERM : Z := 1.
Definition calls : list (list Z) := [[EINVAL]; [EPERM]].
Definition schedule (first second : nat) : list nat := replicate first 0%nat ++ replicate second 1%nat.

Lemma errlist_no_nul e t : errlist e = Some t → NUL ∉ t.
Proof. rw /errlist. repeat case_match; intros [= <-]; by apply (bool_decide_unpack _). Qed.
End StrerrorSim.
Import StrerrorSim.

Lemma strerror_private_witness :
  ∃ s a b, run ThreadSpecific (schedule 263 262) (strerror_start ThreadSpecific calls) = Some s ∧
    s_threads s !! 0%nat = Some (SThread SIdle [] (Some (a, EINVAL)) ByProgram) ∧
    s_heap s !! a = Some b ∧ cstr b = cs "Invalid argument".
Proof.
  destruct (run ThreadSpecific (schedule 263 262) (strerror_start ThreadSpecific calls)) as [s|] eqn:E;
    [|by vm_compute in E].
  destruct (strerror_private nerr errlist junk ThreadSpecific calls s) as (H & _);
    [reflexivity|exact errlist_no_nul|discriminate|exact (strerror_run_reaches _ _ _ _ _ _ _ E)|].
  assert (∃ a, s_threads s !! 0%nat = Some (SThread SIdle [] (Some (a, EINVAL)) ByProgram)) as [a Ha].
  { vm_compute in E. injection E as <-. by eexists. }
  destruct (H 0%nat [] a EINVAL ByProgram Ha) as (b & Hb & Ht). exists s, a, b. split_and!; [done..|]. by rw Ht.
Defined.

(** With the static buffer the first thread finds the second's text. *)
Lemma strerror_static_shared :
  ∃ s b, run StaticBuf (schedule 258 258) (strerror_start StaticBuf calls) = Some s ∧
    s_threads s !! 0%nat = Some (SThread SIdle [] (Some (0%nat, EINVAL)) ByProgram) ∧
    s_heap s !! 0%nat = Some b ∧ cstr b = cs "Operation not permitted".
Proof. eexists _, _. split_and!; [by vm_compute|by vm_compute|by vm_compute|by vm_compute]. Qed.

(** The first call of [pthread_key_create] fails: the thread waits in [pthread_once] for itself, the
    other one waits as well, and nothing is ever printed. *)
Lemma strerror_key_deadlock :
  ∃ s1 s2 s3, run ThreadSpecific [0; 0]%nat (strerror_start ThreadSpecific calls) = Some s1 ∧
    strerror_fail 0 EAGAIN s1 = Some s2 ∧ run ThreadSpecific [1]%nat s2 = Some s3 ∧
    ¬ finished s3 ∧ ∀ i, strerror_move nerr errlist junk ThreadSpecific i s3 = None.
Proof.
  eexists _, _, _. do 3 (split; [reflexivity|]). split.
  - intros [H|H]; [done|]. by apply Forall_cons in H as [? _].
  - by intros [|[|i]].
Qed.
