(* ===== verification/SimpleInit.v ===== *)
(** * A shell that is init: [namespaces/simple_init.c]

    The program as it runs once it is set up: the main loop that reads commands,
    creates a child for each and pauses, and the handler of SIGCHLD, which may
    run at any point of the loop, against children that stop, continue and end
    at any time and orphans that become its children. *)

From S2P Require Import Prelude Threads.

(** A child: running, stopped or continued (with the change not yet reported by
    [waitpid], or reported), ended. *)
Inductive cstatus := CRunning | CStopped (reported : bool) | CContinued | CZombie.
#[export] Instance cstatus_eq_dec : EqDecision cstatus.
Proof. solve_decision. Defined.

(** The main program: about to read a command, to create a child, to call
    [pause], inside it, about to take the terminal back, to unmount, ended.
    [NCrash] has accessed [cmd] outside its bounds. *)
Inductive npc := NRead | NFork (cmd : cstring) | NPause | NPaused | NForeground | NEnd | NExit (status : Z) | NCrash.
#[export] Instance npc_eq_dec : EqDecision npc.
Proof. solve_decision. Defined.

(** [n_handler] while the handler runs; [n_reported] are the process IDs it has
    reported as terminated; [n_mounted] while the procfs is mounted. *)
Record nstate := NState {
  n_pc : npc;
  n_input : list (list ascii);
  n_children : gmap Z cstatus;
  n_pending : bool;
  n_handler : bool;
  n_reported : list Z;
  n_mounted : bool }.

Definition at_pc (s : nstate) (pc : npc) : nstate :=
  NState pc (n_input s) (n_children s) (n_pending s) (n_handler s) (n_reported s) (n_mounted s).

(** ** The handler *)

(** [waitpid] with WNOHANG, WUNTRACED and WCONTINUED: the change of a child that
    is yet to be reported. *)
Definition reportable (c : cstatus) : bool :=
  match c with CZombie | CStopped false | CContinued => true | _ => false end.

Definition report (pid : Z) (c : cstatus) (children : gmap Z cstatus) : gmap Z cstatus :=
  match c with
  | CZombie => delete pid children
  | CStopped _ => <[pid := CStopped true]> children
  | _ => <[pid := CRunning]> children
  end.

(** One turn of the loop that reports a change of [pid]. *)
Definition handler_report (pid : Z) (s : nstate) : option nstate :=
  c ← n_children s !! pid ;
  if n_handler s && reportable c then
    Some (NState (n_pc s) (n_input s) (report pid c (n_children s)) (n_pending s) true
            (n_reported s ++ [pid]) (n_mounted s))
  else None.

(** A [pause] that was interrupted returns. *)
Definition woken (pc : npc) : npc := match pc with NPaused => NForeground | pc => pc end.

(** Nothing left to report, or no child: the handler returns, and so does a
    [pause] that it has interrupted. *)
Definition handler_return (s : nstate) : option nstate :=
  if n_handler s && bool_decide (map_Forall (λ _ c, reportable c = false) (n_children s)) then
    Some (NState (woken (n_pc s)) (n_input s) (n_children s)
            (n_pending s) false (n_reported s) (n_mounted s))
  else None.

(** Delivery of SIGCHLD, which is blocked inside the handler. *)
Definition handler_enter (s : nstate) : option nstate :=
  match n_pc s with
  | NExit _ | NCrash => None
  | _ =>
      if n_pending s && negb (n_handler s) then
        Some (NState (n_pc s) (n_input s) (n_children s) false true (n_reported s) (n_mounted s))
      else None
  end.

(** ** The main loop *)

(** The string in [cmd], without its newline; [None] where the string is empty
    and the character before the buffer is looked at. *)
Fixpoint cstr (b : list ascii) : cstring :=
  match b with
  | [] => []
  | c :: b => if bool_decide (c = NUL) then [] else c :: cstr b
  end.

Definition command (line : list ascii) : option cstring :=
  match reverse (cstr line) with
  | [] => None
  | c :: r => Some (if bool_decide (c = NL) then reverse r else cstr line)
  end.

(** A move of the main program; [pid] is what [fork] returns, [None] when it
    fails. *)
Definition init_move (pid : option Z) (s : nstate) : option nstate :=
  if n_handler s then None else
  match n_pc s with
  | NRead =>
      match n_input s with
      | [] => Some (at_pc s NEnd)
      | line :: input =>
          let goto pc := Some (NState pc input (n_children s) (n_pending s) false (n_reported s) (n_mounted s)) in
          match command line with
          | None => goto NCrash
          | Some [] => goto NRead
          | Some cmd => goto (NFork cmd)
          end
      end
  | NFork _ =>
      match pid with
      | None => Some (at_pc s NEnd)
      | Some pid =>
          if bool_decide (n_children s !! pid = None) then
            Some (NState NPause (n_input s) (<[pid := CRunning]> (n_children s)) (n_pending s) false
                    (n_reported s) (n_mounted s))
          else None
      end
  | NPause => Some (at_pc s NPaused)
  | NPaused => None
  | NForeground => Some (at_pc s NRead)
  | NEnd => Some (NState (NExit EXIT_SUCCESS) (n_input s) (n_children s) (n_pending s) false (n_reported s) false)
  | NExit _ | NCrash => None
  end.

(** [tcsetpgrp] or [umount] fails. *)
Definition init_fail (s : nstate) : option nstate :=
  if n_handler s then None else
  match n_pc s with
  | NForeground => Some (at_pc s (NExit EXIT_FAILURE))
  | NEnd => if n_mounted s then Some (at_pc s (NExit EXIT_FAILURE)) else None
  | _ => None
  end.

(** ** The children *)

Definition with_children (s : nstate) (children : gmap Z cstatus) (signal : bool) : nstate :=
  NState (n_pc s) (n_input s) children (n_pending s || signal) (n_handler s) (n_reported s) (n_mounted s).

(** A child changes state.  With SA_NOCLDSTOP only its end is signalled. *)
Definition child_change (pid : Z) (new : cstatus) (s : nstate) : option nstate :=
  c ← n_children s !! pid ;
  match c, new with
  | CZombie, _ | _, CRunning | _, CStopped true => None
  | CStopped _, CStopped _ => None
  | CRunning, CContinued | CContinued, CContinued => None
  | _, _ => Some (with_children s (<[pid := new]> (n_children s)) (bool_decide (new = CZombie)))
  end.

(** An orphan becomes a child of init; one that has ended is signalled. *)
Definition child_adopted (pid : Z) (zombie : bool) (s : nstate) : option nstate :=
  match n_children s !! pid with
  | Some _ => None
  | None => Some (with_children s (<[pid := if zombie then CZombie else CRunning]> (n_children s)) zombie)
  end.

(** What the program does by itself, and what happens to it. *)
Inductive own_step : nstate → nstate → Prop :=
  | own_report pid s s' : handler_report pid s = Some s' → own_step s s'
  | own_return s s' : handler_return s = Some s' → own_step s s'
  | own_enter s s' : handler_enter s = Some s' → own_step s s'
  | own_move pid s s' : init_move pid s = Some s' → own_step s s'
  | own_fail s s' : init_fail s = Some s' → own_step s s'.

Inductive nstep : nstate → nstate → Prop :=
  | n_own s s' : own_step s s' → nstep s s'
  | n_change pid c s s' : child_change pid c s = Some s' → nstep s s'
  | n_adopt pid z s s' : child_adopted pid z s = Some s' → nstep s s'.

Definition init_start (input : list (list ascii)) (mounted : bool) : nstate :=
  NState NRead input ∅ false false [] mounted.

(** ** The words of a command *)

(** [expand_words] with the result of [wordexp]: the vector with its null
    pointer, or [None]; a failed [calloc] ends the process. *)
Definition expand_words (words : option (list cstring)) (calloc_ok : bool) : option (option (list (option cstring))) :=
  match words with
  | None => Some None
  | Some ws => if calloc_ok then Some (Some ((Some <$> ws) ++ [None])) else None
  end.

(** What the child comes to: the file and arguments of [execvp], or its exit. *)
Inductive child_end := CExec (argv : list (option cstring)) | CExit (status : Z) | CCrash.

(** [None] as the file is dereferenced by [execvp]. *)
Definition child_run (words : option (list cstring)) (calloc_ok setpgid_ok tcsetpgrp_ok exec_ok : bool) : child_end :=
  match expand_words words calloc_ok with
  | None | Some None => CExit EXIT_FAILURE
  | Some (Some arg_vec) =>
      if negb setpgid_ok || negb tcsetpgrp_ok then CExit EXIT_FAILURE
      else match arg_vec with
      | Some _ :: _ => if exec_ok then CExec arg_vec else CExit EXIT_FAILURE
      | _ => CCrash
      end
  end.

(** ** No child is left unreaped *)

(** An ended child is known to the program: the signal is pending or the
    handler runs.  Nothing is mounted after a successful end. *)
Record n_inv (s : nstate) : Prop := {
  ni_zombie : ∀ pid, n_children s !! pid = Some CZombie → n_pending s = true ∨ n_handler s = true;
  ni_exit : n_pc s = NExit EXIT_SUCCESS → n_mounted s = false;
}.

Lemma with_children_inv s children signal :
  n_inv s → (signal = false → ∀ pid, children !! pid = Some CZombie → n_children s !! pid = Some CZombie) →
  n_inv (with_children s children signal).
Proof.
  intros [Hz He] Hc. split; [|done]. cbn. intros pid Hp. destruct signal; [left; apply orb_true_r|].
  rw orb_false_r. exact (Hz pid (Hc eq_refl pid Hp)).
Qed.

Lemma init_move_inv pid s s' : init_move pid s = Some s' → n_inv s → n_inv s'.
Proof.
  rw /init_move. destruct (n_handler s) eqn:Hh; [done|]. intros H [Hz He]. rw Hh in Hz.
  destruct (n_pc s) as [|cmd| | | | | |].
  - destruct (n_input s) as [|line input]; [|destruct (command line) as [[|c cmd]|]];
      injection H as <-; split; cbn; rw ?Hh //.
  - destruct pid as [pid|]; [|injection H as <-; split; cbn; rw ?Hh //].
    destruct (bool_decide (n_children s !! pid = None)); [|done]. injection H as <-. split; [cbn|done].
    intros q [(_ & [=])|[_ Hq]]%lookup_insert_Some. by apply (Hz q).
  - injection H as <-; split; cbn; rw ?Hh //.
  - done.
  - injection H as <-; split; cbn; rw ?Hh //.
  - injection H as <-; split; cbn; done.
  - done.
  - done.
Qed.

Lemma nstep_inv s s' : nstep s s' → n_inv s → n_inv s'.
Proof.
  intros [s0 s1 [pid s2 s3 H|s2 s3 H|s2 s3 H|pid s2 s3 H|s2 s3 H]|pid c s0 s1 H|pid z s0 s1 H] Hinv.
  - move: H. rw /handler_report. destruct (n_children s2 !! pid) as [c|] eqn:Hc; [|done]. cbn.
    destruct (n_handler s2 && reportable c); [|done]. intros [= <-]. split; [by right|apply Hinv].
  - move: H. rw /handler_return. destruct (n_handler s2); [|done]. cbn. case_bool_decide as Hall; [|done].
    intros [= <-]. split; cbn; [by intros pid Hp%Hall|]. destruct Hinv as [_ He]. by destruct (n_pc s2).
  - move: H. rw /handler_enter. destruct Hinv as [_ He]. destruct (n_pc s2) eqn:Hpc; try done;
      (destruct (n_pending s2 && negb (n_handler s2)); [|done]); intros [= <-]; split; cbn; try done; by right.
  - exact (init_move_inv _ _ _ H Hinv).
  - move: H. rw /init_fail. destruct (n_handler s2) eqn:Hh; [done|]. destruct Hinv as [Hz He].
    destruct (n_pc s2); try done; [|destruct (n_mounted s2); [|done]]; intros [= <-]; by split.
  - move: H. rw /child_change. destruct (n_children s0 !! pid) as [d|] eqn:Hd; [|done]. cbn.
    destruct d as [|[]| |], c as [|[]| |]; try done; intros [= <-]; apply with_children_inv; try done;
      by intros _ q [(_ & [=])|[_ Hq]]%lookup_insert_Some.
  - move: H. rw /child_adopted. destruct (n_children s0 !! pid) eqn:Hd; [done|]. intros [= <-].
    apply with_children_inv; [done|]. intros -> q. by intros [(_ & [=])|[_ Hq]]%lookup_insert_Some.
Qed.

(** ** The handler reaps them *)

Definition to_report (children : gmap Z cstatus) : gmap Z cstatus := filter (λ x, reportable x.2 = true) children.

Lemma to_report_report pid c children :
  children !! pid = Some c → reportable c = true →
  to_report (report pid c children) = delete pid (to_report children).
Proof.
  intros Hc Hr. rw /to_report -map_filter_delete. destruct c as [|[]| |]; try done; by rw /= map_filter_insert_False.
Qed.

Lemma to_report_None children :
  to_report children = ∅ → map_Forall (λ _ c, reportable c = false) children.
Proof.
  intros H pid c Hc. destruct (reportable c) eqn:Hr; [|done].
  assert (to_report children !! pid = Some c) as E by (by apply map_lookup_filter_Some).
  by rw H lookup_empty in E.
Qed.

Definition quiet (s : nstate) : Prop :=
  n_handler s = false ∧ map_Forall (λ _ c, reportable c = false) (n_children s).

Lemma handler_runs s :
  n_handler s = true →
  ∃ s', rtc own_step s s' ∧ quiet s' ∧ n_pending s' = n_pending s ∧ n_pc s' = woken (n_pc s).
Proof.
  remember (size (to_report (n_children s))) as n eqn:Hn. elim: n s Hn => [|n IH] s Hn Hh.
  - symmetry in Hn. apply map_size_empty_inv, to_report_None in Hn.
    assert (handler_return s = Some (NState (woken (n_pc s)) (n_input s) (n_children s) (n_pending s) false
      (n_reported s) (n_mounted s))) as H.
    { rw /handler_return Hh /=. rw (bool_decide_eq_true_2 _ Hn). reflexivity. }
    eexists. split; [apply rtc_once, own_return, H|]. done.
  - destruct (map_choose (to_report (n_children s))) as (pid & c & Hpc).
    { intros E. by rw E map_size_empty in Hn. }
    pose proof Hpc as Hin. apply map_lookup_filter_Some in Hpc as [Hc Hr]. cbn in Hr.
    assert (handler_report pid s = Some (NState (n_pc s) (n_input s) (report pid c (n_children s)) (n_pending s) true
      (n_reported s ++ [pid]) (n_mounted s))) as H by (by rw /handler_report Hc /= Hh Hr).
    destruct (IH (NState (n_pc s) (n_input s) (report pid c (n_children s)) (n_pending s) true
      (n_reported s ++ [pid]) (n_mounted s))) as (s' & Hrun & Hq & Hp & Hpc').
    + cbn. rw (to_report_report _ _ _ Hc Hr) map_size_delete Hin -Hn. lia.
    + done.
    + exists s'. split; [|done]. eapply rtc_l; [apply (own_report pid), H|done].
Qed.

Lemma signal_handled s :
  n_pending s = true → n_handler s = false → (∀ st, n_pc s ≠ NExit st) → n_pc s ≠ NCrash →
  ∃ s', rtc own_step s s' ∧ quiet s' ∧ n_pending s' = false ∧ n_pc s' = woken (n_pc s).
Proof.
  intros Hp Hh He Hcr.
  assert (handler_enter s = Some (NState (n_pc s) (n_input s) (n_children s) false true (n_reported s) (n_mounted s))) as H.
  { rw /handler_enter Hp Hh /=. destruct (n_pc s); try done. by destruct (He status). }
  destruct (handler_runs (NState (n_pc s) (n_input s) (n_children s) false true (n_reported s) (n_mounted s)))
    as (s' & Hrun & Hq & Hp' & Hpc); [done|].
  exists s'. split; [|done]. eapply rtc_l; [apply own_enter, H|done].
Qed.

Lemma n_reach_inv input mounted s : rtc nstep (init_start input mounted) s → n_inv s.
Proof.
  intros H. apply (rtc_ind_r n_inv) in H; [done|by split|]. intros s1 s2 _ Hs. exact (nstep_inv _ _ Hs).
Qed.

(** C28: Whatever the commands, and however children stop, continue and end and orphans
    are inherited: a child that has ended is never forgotten, since then the
    signal is pending or the handler at work; until the program has ended it
    comes by itself to a point where every child that has ended is reaped and
    every change reported, and, if it was pausing and there was a signal, to the
    end of the pause; and a successful end leaves nothing mounted. *)
Theorem init_reaps input mounted s :
  rtc nstep (init_start input mounted) s →
  (∀ pid, n_children s !! pid = Some CZombie → n_pending s = true ∨ n_handler s = true) ∧
  ((∀ st, n_pc s ≠ NExit st) → n_pc s ≠ NCrash → n_pending s = true ∨ n_handler s = true →
     ∃ s', rtc own_step s s' ∧ quiet s' ∧ n_pending s' = false ∧ n_pc s' = woken (n_pc s)) ∧
  (n_pc s = NExit EXIT_SUCCESS → n_mounted s = false).
Proof.
  intros [Hz He]%n_reach_inv. split_and!; [done| |done]. intros Hne Hnc Hsig.
  destruct (n_handler s) eqn:Hh.
  - destruct (handler_runs s Hh) as (s1 & Hr1 & Hq1 & Hp1 & Hpc1).
    destruct (n_pending s) eqn:Hp; [|by exists s1].
    destruct (signal_handled s1 Hp1 (proj1 Hq1)) as (s2 & Hr2 & Hq2 & Hp2 & Hpc2).
    + intros st. rw Hpc1. by destruct (n_pc s).
    + rw Hpc1. by destruct (n_pc s).
    + exists s2. split; [exact (transitivity Hr1 Hr2)|]. split; [done|]. split; [done|]. rw Hpc2 Hpc1. by destruct (n_pc s).
  - destruct Hsig as [Hp|]; [|done]. by apply signal_handled.
Qed.

(** One command; its child ends before the pause. *)
Definition echo : list ascii := cs "echo hello" ++ [NL].
Definition waiting_for_ever : nstate := NState NPaused [] ∅ false false [7] false.

Ltac own_go t := eapply rtc_l; [apply n_own; t; reflexivity|cbn].

Lemma early_end_reached : rtc nstep (init_start [echo] false) waiting_for_ever.
Proof.
  own_go ltac:(eapply (own_move None)). own_go ltac:(eapply (own_move (Some 7))).
  eapply rtc_l; [apply (n_change 7 CZombie); reflexivity|cbn].
  own_go ltac:(eapply own_enter). own_go ltac:(eapply (own_report 7)). own_go ltac:(eapply own_return).
  own_go ltac:(eapply (own_move None)). apply rtc_refl.
Qed.

(** If the child ends before [pause] is called, the handler has come and gone
    and nothing wakes the program: it has no child and cannot move. *)
Lemma simple_init_hangs :
  rtc nstep (init_start [echo] false) waiting_for_ever ∧ ∀ s', ¬ own_step waiting_for_ever s'.
Proof.
  split; [exact early_end_reached|]. intros s' H. inversion H as [? ? ? E|? ? E|? ? E|? ? ? E|? ? E]; subst; done.
Qed.

Lemma init_reaps_witness :
  let s := NState NPaused [] {[7 := CZombie]} true false [] false in
  rtc nstep (init_start [echo] false) s ∧
  ∃ s', rtc own_step s s' ∧ quiet s' ∧ n_pending s' = false ∧ n_pc s' = NForeground.
Proof.
  intros s. assert (rtc nstep (init_start [echo] false) s) as Hr.
  { own_go ltac:(eapply (own_move None)). own_go ltac:(eapply (own_move (Some 7))).
    own_go ltac:(eapply (own_move None)).
    eapply rtc_l; [apply (n_change 7 CZombie); reflexivity|cbn]. apply rtc_refl. }
  split; [exact Hr|]. destruct (init_reaps [echo] false s Hr) as (_ & H & _).
  apply H; [done|done|by left].
Defined.

(** The pause ends with any child: here it is an orphan that ends, and the
    program takes the terminal from the command that still runs. *)
Lemma pause_ends_early :
  rtc nstep (init_start [echo] false) (NState NForeground [] {[7 := CRunning]} false false [9] false).
Proof.
  own_go ltac:(eapply (own_move None)). own_go ltac:(eapply (own_move (Some 7))).
  own_go ltac:(eapply (own_move None)).
  eapply rtc_l; [apply (n_adopt 9 true); reflexivity|cbn].
  own_go ltac:(eapply own_enter). own_go ltac:(eapply (own_report 9)).
  own_go ltac:(eapply own_return). apply rtc_refl.
Qed.

(** A command that stops is not noticed: the handler does not run for it. *)
Lemma stopped_child_unnoticed s s' pid :
  child_change pid (CStopped false) s = Some s' → n_pending s' = n_pending s.
Proof.
  rw /child_change. destruct (n_children s !! pid) as [c|]; [|done]. cbn.
  destruct c as [|[]| |]; try done; intros [= <-]; cbn; apply orb_false_r.
Qed.

(** A line of blanks is a command without words, and [execvp] is given a null
    pointer. *)
Lemma blank_command_crashes :
  command (cs " " ++ [NL]) = Some (cs " ") ∧ child_run (Some []) true true true true = CCrash.
Proof. by split. Qed.

(** A line that starts with a null character is looked at before its start. *)
Lemma null_line_underruns : command (NUL :: [NL]) = None.
Proof. done. Qed.
