(* ===== verification/Pty.v ===== *)
(** * Pseudoterminals: [tty/tty_functions.c], [pty/pty_master_open.c] and
      [pty/pty_fork.c]

    A client of the process interface of Daemon: descriptors are what they are
    open on, sessions and process IDs are those of [pview].  [PtyOS] adds the
    calls on terminals. *)

From S2P Require Import Prelude ErrFns GetNum Tlpi Daemon.

(** ** Terminal attributes *)

Record termios := Termios {
  c_iflag : Z; c_oflag : Z; c_cflag : Z; c_lflag : Z; c_cc : list Z }.

Definition ISIG : Z := 1.
Definition ICANON : Z := 2.
Definition ECHO : Z := 8.
Definition IEXTEN : Z := 32768.
Definition IGNBRK : Z := 1.
Definition BRKINT : Z := 2.
Definition PARMRK : Z := 8.
Definition INPCK : Z := 16.
Definition ISTRIP : Z := 32.
Definition INLCR : Z := 64.
Definition IGNCR : Z := 128.
Definition ICRNL : Z := 256.
Definition IXON : Z := 1024.
Definition OPOST : Z := 1.
Definition VTIME : nat := 5.
Definition VMIN : nat := 6.

(** [x &= ~m]. *)
Definition clear (x m : Z) : Z := Z.land x (Z.lnot m).
Definition mask (l : list Z) : Z := foldr Z.lor 0 l.

Definition cbreak (t : termios) : termios :=
  Termios (clear (c_iflag t) ICRNL) (c_oflag t) (c_cflag t)
    (Z.lor (clear (c_lflag t) (Z.lor ICANON ECHO)) ISIG)
    (<[VTIME := 0]> (<[VMIN := 1]> (c_cc t))).

Definition RAW_LFLAGS : Z := mask [ICANON; ISIG; IEXTEN; ECHO].
Definition RAW_IFLAGS : Z := mask [BRKINT; ICRNL; IGNBRK; IGNCR; INLCR; INPCK; ISTRIP; IXON; PARMRK].

Definition raw (t : termios) : termios :=
  Termios (clear (c_iflag t) RAW_IFLAGS) (clear (c_oflag t) OPOST) (c_cflag t)
    (clear (c_lflag t) RAW_LFLAGS) (<[VTIME := 0]> (<[VMIN := 1]> (c_cc t))).

Record winsize := WinSize { ws_row : Z; ws_col : Z }.

Class PtyOS (K : Type) := {
  pk_tcgetattr : Z → K → res termios * K;
  pk_tcsetattr : Z → termios → K → res unit * K;
  pk_getwinsz : Z → K → res winsize * K;
  pk_setwinsz : Z → winsize → K → res unit * K;
  pk_openpt : K → res Z * K;
  pk_grantpt : Z → K → res unit * K;
  pk_unlockpt : Z → K → res unit * K;
  pk_ptsname : Z → K → res cstring * K;
  pk_setctty : Z → K → res unit * K;
}.

Definition EOVERFLOW : Z := 75.
Definition MAX_SNAME : nat := 1000.

Section pty.
Context {K : Type} `{!TlpiEnv K, !DaemonOS K, !PtyOS K}.
Abbreviation T := (M (tproc K)).

(** The result, and what [prevTermios] points to afterwards: [None] when it was
    not stored. *)
Definition ttySet (f : termios → termios) (fd : Z) : T (Z * option termios) :=
  t ← tcall (pk_tcgetattr fd) ;
  match t with
  | None => mret (-1, None)
  | Some t =>
      r ← tcall (pk_tcsetattr fd (f t)) ;
      mret (match r with None => -1 | Some _ => 0 end, Some t)
  end.
Definition ttySetCbreak : Z → T (Z * option termios) := ttySet cbreak.
Definition ttySetRaw : Z → T (Z * option termios) := ttySet raw.

Definition terr_exit {A} (msg : cstring) : T A := io (err_exit te_strerror te_dumpcore msg).

(** [savedErrno = errno; close(fd); errno = savedErrno; return -1]. *)
Definition leave_pty {A} (fd : Z) : T (option A) :=
  savedErrno ← errno ; tcall (dk_close fd) ;; io (set_errno savedErrno) ;; mret None.

(** [close(fd); errno = EOVERFLOW; return -1]. *)
Definition too_long {A} (fd : Z) : T (option A) :=
  tcall (dk_close fd) ;; io (set_errno EOVERFLOW) ;; mret None.

(** The master descriptor and the name stored for the slave; [None] for -1. *)
Definition ptyMasterOpen (snLen : nat) : T (option (Z * cstring)) :=
  masterFd ← tcall pk_openpt ;
  match masterFd with
  | None => mret None
  | Some masterFd =>
      r ← tcall (pk_grantpt masterFd) ;
      match r with None => leave_pty masterFd | Some _ =>
      r ← tcall (pk_unlockpt masterFd) ;
      match r with None => leave_pty masterFd | Some _ =>
      p ← tcall (pk_ptsname masterFd) ;
      match p with
      | None => leave_pty masterFd
      | Some p => if (length p <? snLen)%nat then mret (Some (masterFd, p)) else too_long masterFd
      end end end
  end.

(** [if (call == -1) err_exit(msg)]. *)
Definition pchecked {A} (msg : string) (f : K → res A * K) : T A :=
  r ← tcall f ;
  match r with
  | None => terr_exit (cs msg)
  | Some v => mret v
  end.

Definition set_opt {A} (o : option A) (f : A → T unit) : T unit :=
  match o with None => mret tt | Some a => f a end.

(** [dup2] with its check. *)
Definition dup_to (slaveFd fd : Z) (msg : string) : T unit :=
  r ← tcall (dk_dup2 slaveFd fd) ;
  if bool_decide (r = Some fd) then mret tt else terr_exit (cs msg).

Definition pty_child (mfd : Z) (slname : cstring) (slaveTermios : option termios)
    (slaveWS : option winsize) : T unit :=
  pchecked "ptyFork:setsid" dk_setsid ;;
  tcall (dk_close mfd) ;;
  slaveFd ← pchecked "ptyFork:open-slave" (dk_open slname) ;
  pchecked "ptyFork:ioctl-TIOCSCTTY" (pk_setctty slaveFd) ;;
  set_opt slaveTermios (λ t, pchecked "ptyFork:tcsetattr" (pk_tcsetattr slaveFd t)) ;;
  set_opt slaveWS (λ w, pchecked "ptyFork:ioctl-TIOCSWINSZ" (pk_setwinsz slaveFd w)) ;;
  dup_to slaveFd STDIN_FILENO "ptyFork:dup2-STDIN_FILENO" ;;
  dup_to slaveFd STDOUT_FILENO "ptyFork:dup2-STDOUT_FILENO" ;;
  dup_to slaveFd STDERR_FILENO "ptyFork:dup2-STDERR_FILENO" ;;
  when (STDERR_FILENO <? slaveFd) (tcall (dk_close slaveFd) ;; mret tt).

(** What the caller gets: -1; the child's ID with the master descriptor and the
    slave's name in the parent; 0 in the child. *)
Inductive forked := PtyError | PtyParent (childPid masterFd : Z) (slaveName : option cstring) | PtyChild.

(** [sn] is the length of the caller's buffer for the name, [None] for a null
    pointer. *)
Definition ptyFork (sn : option nat) (slaveTermios : option termios) (slaveWS : option winsize) : T forked :=
  m ← ptyMasterOpen MAX_SNAME ;
  match m with
  | None => mret PtyError
  | Some (mfd, slname) =>
      if match sn with Some snLen => (snLen <=? length slname)%nat | None => false end
      then too_long (A := unit) mfd ;; mret PtyError else
      childPid ← tcall dk_fork ;
      match childPid with
      | None => leave_pty (A := unit) mfd ;; mret PtyError
      | Some pid =>
          if pid =? 0 then pty_child mfd slname slaveTermios slaveWS ;; mret PtyChild
          else mret (PtyParent pid mfd ((λ _, slname) <$> sn))
      end
  end.
End pty.

(** ** Raw and cbreak mode *)

(** A flag is cleared and no other one is touched. *)
Lemma clear_bit x m n : 0 ≤ n → Z.testbit (clear x m) n = Z.testbit x n && negb (Z.testbit m n).
Proof. intros Hn. by rw /clear Z.land_spec Z.lnot_spec. Qed.

Lemma clear_clear x m : clear (clear x m) m = clear x m.
Proof.
  apply Z.bits_inj'. intros n Hn. rw !clear_bit //. by destruct (Z.testbit x n), (Z.testbit m n).
Qed.

Lemma clear_subset x a b : Z.land a b = a → clear (clear x b) a = clear x b.
Proof.
  intros H. apply Z.bits_inj'. intros n Hn. rw !clear_bit // -H Z.land_spec.
  by destruct (Z.testbit x n), (Z.testbit a n), (Z.testbit b n).
Qed.

Lemma modes_cc (l : list Z) :
  <[VTIME := 0]> (<[VMIN := 1]> (<[VTIME := 0]> (<[VMIN := 1]> l))) = <[VTIME := 0]> (<[VMIN := 1]> l).
Proof.
  rw (list_insert_insert_ne _ VMIN VTIME) // list_insert_insert_eq list_insert_insert_eq //.
Qed.

(** ** What the calls do *)

Definition PTMX : cstring := cs "/dev/ptmx".

(** The controlling terminal, and the attributes and size of each terminal. *)
Record terminals := Terminals {
  t_ctty : option cstring; t_attr : gmap cstring termios; t_win : gmap cstring winsize }.

Definition with_tty (v : pview) (b : bool) : pview :=
  PView (pv_pid v) (pv_pgid v) (pv_sid v) b (pv_umask v) (pv_cwd v) (pv_fds v).

Class PtyOSOk (K : Type) `{!DaemonOS K, !DaemonOSOk K, !PtyOS K} := {
  pk_terms : K → terminals;
  (** Calls that fail change nothing. *)
  pk_fork_fails k e k' : dk_fork k = (inl e, k') → dk_view k' = dk_view k;
  pk_fork_keeps k r k' : dk_fork k = (r, k') → pk_terms k' = pk_terms k;
  pk_openpt_fails k e k' : pk_openpt k = (inl e, k') → dk_view k' = dk_view k;
  pk_openpt_keeps k r k' : pk_openpt k = (r, k') → pk_terms k' = pk_terms k;
  pk_openpt_ok k fd k' : pk_openpt k = (inr fd, k') →
    lowest_free (pv_fds (dk_view k)) fd ∧
    dk_view k' = with_fds (dk_view k) (<[fd := PTMX]> (pv_fds (dk_view k)));
  pk_grantpt_ok fd k r k' : pk_grantpt fd k = (r, k') → dk_view k' = dk_view k ∧ pk_terms k' = pk_terms k;
  pk_unlockpt_ok fd k r k' : pk_unlockpt fd k = (r, k') → dk_view k' = dk_view k ∧ pk_terms k' = pk_terms k;
  pk_ptsname_ok fd k r k' : pk_ptsname fd k = (r, k') → dk_view k' = dk_view k ∧ pk_terms k' = pk_terms k;
  (** A session leader may get its controlling terminal by opening it. *)
  pk_open_ok p k fd k' : dk_open p k = (inr fd, k') →
    lowest_free (pv_fds (dk_view k)) fd ∧
    ∃ b, dk_view k' = with_tty (with_fds (dk_view k) (<[fd := p]> (pv_fds (dk_view k)))) b;
  pk_setctty_ok fd k k' p : pk_setctty fd k = (inr tt, k') → pv_fds (dk_view k) !! fd = Some p →
    dk_view k' = with_tty (dk_view k) true ∧
    pk_terms k' = Terminals (Some p) (t_attr (pk_terms k)) (t_win (pk_terms k));
  pk_tcsetattr_ok fd t k k' p : pk_tcsetattr fd t k = (inr tt, k') → pv_fds (dk_view k) !! fd = Some p →
    dk_view k' = dk_view k ∧
    pk_terms k' = Terminals (t_ctty (pk_terms k)) (<[p := t]> (t_attr (pk_terms k))) (t_win (pk_terms k));
  pk_setwinsz_ok fd w k k' p : pk_setwinsz fd w k = (inr tt, k') → pv_fds (dk_view k) !! fd = Some p →
    dk_view k' = dk_view k ∧
    pk_terms k' = Terminals (t_ctty (pk_terms k)) (t_attr (pk_terms k)) (<[p := w]> (t_win (pk_terms k)));
  pk_dup2_keeps a b k r k' : dk_dup2 a b k = (r, k') → pk_terms k' = pk_terms k;
  pk_close_keeps fd k r k' : dk_close fd k = (r, k') → pk_terms k' = pk_terms k;
}.

(** Nothing that can be granted is refused. *)
Class PtyWorks (K : Type) `{!DaemonOS K, !DaemonOSOk K, !PtyOS K} : Prop := {
  pw_daemon :: DaemonWorks K;
  pw_openpt k : ∃ fd k', pk_openpt k = (inr fd, k');
  pw_grantpt fd k : pv_fds (dk_view k) !! fd = Some PTMX → ∃ k', pk_grantpt fd k = (inr tt, k');
  pw_unlockpt fd k : pv_fds (dk_view k) !! fd = Some PTMX → ∃ k', pk_unlockpt fd k = (inr tt, k');
  pw_ptsname fd k : pv_fds (dk_view k) !! fd = Some PTMX → ∃ p k', pk_ptsname fd k = (inr p, k');
  pw_open p k : ∃ fd k', dk_open p k = (inr fd, k');
  (** A session leader. *)
  pw_setctty fd k : is_Some (pv_fds (dk_view k) !! fd) → pv_pid (dk_view k) = pv_sid (dk_view k) →
    ∃ k', pk_setctty fd k = (inr tt, k');
  pw_tcsetattr fd t k : is_Some (pv_fds (dk_view k) !! fd) → ∃ k', pk_tcsetattr fd t k = (inr tt, k');
  pw_setwinsz fd w k : is_Some (pv_fds (dk_view k) !! fd) → ∃ k', pk_setwinsz fd w k = (inr tt, k');
  pw_dup2 a b k : is_Some (pv_fds (dk_view k) !! a) → 0 ≤ b ≤ STDERR_FILENO →
    ∃ n k', dk_dup2 a b k = (inr n, k');
}.

Section proofs.
Context {K : Type} `{!TlpiEnv K, !DaemonOS K, !DaemonOSOk K, !PtyOS K, !PtyOSOk K}.
Implicit Types s : tproc K.
Abbreviation view s := (dk_view (t_os s)).
Abbreviation terms s := (pk_terms (t_os s)).
Abbreviation W := (PtyWorks K).
Abbreviation ok := (strict (¬ PtyWorks K)).

Lemma ok_terr_exit {A} msg (Q : A → tproc K → Prop) s : ¬ W → ok (terr_exit msg) Q s.
Proof.
  intros HF. rw /strict /terr_exit /io /err_exit (bind_Ret (gets _) _ _ _ _ eq_refl).
  rw (bind_Ret _ _ _ _ _ (outputError_eq te_strerror true (e_errno (t_io s)) false msg (t_io s))) /terminate.
  by destruct te_dumpcore as [[]|].
Qed.

Lemma ok_pchecked {A B} msg (f : K → res A * K) (k1 : A → M (tproc K) B) Q s :
  (∀ v s', f (t_os s) = (inr v, t_os s') → ok (k1 v) Q s') →
  (W → ∃ v k', f (t_os s) = (inr v, k')) →
  ok (pchecked msg f ≫= k1) Q s.
Proof.
  intros H HW. strict_step. rw /pchecked.
  destruct (tcall_any f s) as ([v|] & s' & Hf & Ho); eapply strict_bind_Ret; [exact Hf| |exact Hf|].
  - by apply H.
  - apply ok_terr_exit. intros w. destruct (HW w) as (v & k' & E), Ho as [e Ho]. congruence.
Qed.

(** The descriptor is closed, whatever the result. *)
Lemma ok_close {B} fd (k1 : option unit → M (tproc K) B) Q s :
  (∀ o s', view s' = with_fds (view s) (delete fd (pv_fds (view s))) → terms s' = terms s → ok (k1 o) Q s') →
  ok (tcall (dk_close fd) ≫= k1) Q s.
Proof.
  intros H. destruct (tcall_any (dk_close fd) s) as (o & s' & Hc & Ho). rw /strict (bind_Ret _ _ _ _ _ Hc).
  apply H; destruct o; [|destruct Ho as [e Ho]|..|destruct Ho as [e Ho]].
  1,2: by apply dk_close_ok in Ho as [_ Ho]. 1,2: by apply pk_close_keeps in Ho.
Qed.

(** After [fd] was opened and closed the descriptors are as before. *)
Lemma with_fds_back v fd p :
  pv_fds v !! fd = None → with_fds (with_fds v (<[fd := p]> (pv_fds v))) (delete fd (<[fd := p]> (pv_fds v))) = v.
Proof. intros H. rw /with_fds /= delete_insert_id //. by destruct v. Qed.

(** The master was opened and set up from the state [k], and [p] is the name it then gave
    for its slave. *)
Inductive named (k : K) : Z → cstring → K → Prop :=
  | named_intro mfd k1 k2 k3 p k4 :
      pk_openpt k = (inr mfd, k1) → pk_grantpt mfd k1 = (inr tt, k2) → pk_unlockpt mfd k2 = (inr tt, k3) →
      pk_ptsname mfd k3 = (inr p, k4) → named k mfd p k4.

(** Which of the calls made from the state [k] failed, with its error number; a name of
    [lim] characters or more is too long. *)
Inductive refused (lim : nat) (k : K) : Z → Prop :=
  | refused_openpt e k' : pk_openpt k = (inl e, k') → refused lim k e
  | refused_grantpt mfd k1 e k' :
      pk_openpt k = (inr mfd, k1) → pk_grantpt mfd k1 = (inl e, k') → refused lim k e
  | refused_unlockpt mfd k1 k2 e k' :
      pk_openpt k = (inr mfd, k1) → pk_grantpt mfd k1 = (inr tt, k2) → pk_unlockpt mfd k2 = (inl e, k') →
      refused lim k e
  | refused_ptsname mfd k1 k2 k3 e k' :
      pk_openpt k = (inr mfd, k1) → pk_grantpt mfd k1 = (inr tt, k2) → pk_unlockpt mfd k2 = (inr tt, k3) →
      pk_ptsname mfd k3 = (inl e, k') → refused lim k e
  | refused_long mfd p k' : named k mfd p k' → (lim ≤ length p)%nat → refused lim k EOVERFLOW
  | refused_fork mfd p k1 e k' :
      named k mfd p k1 → (length p < lim)%nat → dk_fork k1 = (inl e, k') → refused lim k e.

(** Nothing is left open, and [errno] tells which call failed. *)
Definition undone lim s0 s' : Prop :=
  view s' = view s0 ∧ terms s' = terms s0 ∧ refused lim (t_os s0) (e_errno (t_io s')).

Lemma leave_pty_ok {A} lim fd p s0 s :
  pv_fds (view s0) !! fd = None → view s = with_fds (view s0) (<[fd := p]> (pv_fds (view s0))) →
  terms s = terms s0 → refused lim (t_os s0) (e_errno (t_io s)) →
  ok (leave_pty (A := A) fd) (λ r s', r = None ∧ undone lim s0 s') s.
Proof.
  intros Hn Hv Ht He. rw /leave_pty. strict_step. cbn. apply ok_close. intros o s' Hv' Ht'.
  split; [done|]. split; [|split; [by rw /= Ht' Ht|done]]. cbn. rw Hv' Hv. by apply with_fds_back.
Qed.

Lemma too_long_ok {A} lim fd p s0 s :
  pv_fds (view s0) !! fd = None → view s = with_fds (view s0) (<[fd := p]> (pv_fds (view s0))) →
  terms s = terms s0 → refused lim (t_os s0) EOVERFLOW →
  ok (too_long (A := A) fd) (λ r s', r = None ∧ undone lim s0 s') s.
Proof.
  intros Hn Hv Ht He. rw /too_long. apply ok_close. intros o s' Hv' Ht'.
  split; [done|]. split; [|split; [by rw /= Ht' Ht|done]]. cbn. rw Hv' Hv. by apply with_fds_back.
Qed.

(** A step of [ptyMasterOpen] that keeps the view. *)
Lemma ok_master_call {A B} (f : Z → K → res A * K) lim fd p s0 s (k1 : option A → M (tproc K) (option B)) Q :
  (∀ k r k', f fd k = (r, k') → dk_view k' = dk_view k ∧ pk_terms k' = pk_terms k) →
  (∀ e k', f fd (t_os s) = (inl e, k') → refused lim (t_os s0) e) →
  pv_fds (view s0) !! fd = None → view s = with_fds (view s0) (<[fd := p]> (pv_fds (view s0))) → terms s = terms s0 →
  (W → ∃ v k', f fd (t_os s) = (inr v, k')) →
  k1 None = leave_pty fd →
  (∀ s', undone lim s0 s' → ¬ W → Q None s') →
  (∀ v s', f fd (t_os s) = (inr v, t_os s') → view s' = view s → terms s' = terms s0 → ok (k1 (Some v)) Q s') →
  ok (tcall (f fd) ≫= k1) Q s.
Proof.
  intros Hkeep Href Hn Hv Ht HW Hk Hbad Hok. do 2 strict_step.
  - intros v k E. destruct (Hkeep _ _ _ E) as [Hv' Ht']. apply Hok; [exact E|exact Hv'|by rw /= Ht'].
  - intros e k E. rw Hk. eapply strict_conseq.
    + destruct (Hkeep _ _ _ E) as [Hv' Ht'].
      apply (leave_pty_ok lim _ p s0); [done|by rw /= Hv'|by rw /= Ht'|exact (Href _ _ E)].
    + intros r s' [-> Hu]. apply Hbad; [done|]. intros w. destruct (HW w) as (v & k' & E'). cbn in E'. congruence.
Qed.

Lemma ptyMasterOpen_ok lim snLen s :
  (lim ≤ snLen)%nat →
  ok (ptyMasterOpen snLen)
    (λ r s', match r with
       | None => undone lim s s' ∧ (W → ∃ mfd p k', named (t_os s) mfd p k' ∧ (lim ≤ length p)%nat)
       | Some (mfd, p) => lowest_free (pv_fds (view s)) mfd ∧ named (t_os s) mfd p (t_os s') ∧ (length p < snLen)%nat ∧
           view s' = with_fds (view s) (<[mfd := PTMX]> (pv_fds (view s))) ∧ terms s' = terms s
       end) s.
Proof.
  intros Hlim. rw /ptyMasterOpen. do 2 strict_step.
  2: { intros e k E. strict_step.
       split; [split_and!; [exact (pk_openpt_fails _ _ _ E)|exact (pk_openpt_keeps _ _ _ E)|exact (refused_openpt _ _ _ _ E)]|].
       intros w. destruct (pw_openpt (t_os s)) as (? & ? & ?). congruence. }
  intros mfd k1 E1. pose proof (pk_openpt_keeps _ _ _ E1) as Ht1.
  destruct (pk_openpt_ok _ _ _ E1) as [Hlow Hv1]. set (s1 := TProc (t_io s) k1).
  assert (pv_fds (view s) !! mfd = None) as Hn by apply Hlow.
  assert (∀ s', view s' = view s1 → pv_fds (view s') !! mfd = Some PTMX) as Hm.
  { intros s' ->. by rw /= Hv1 /= lookup_insert_eq. }
  eapply (ok_master_call pk_grantpt lim _ PTMX s); [apply pk_grantpt_ok| |done|done|done| |done| |].
  { intros e k'. exact (refused_grantpt _ _ _ _ _ _ E1). }
  { intros w. destruct (pw_grantpt mfd (t_os s1)) as (? & ?); [by apply Hm|eauto]. }
  { intros s' Hu Hw. by split. }
  intros [] s2 E2 Hv2 Ht2.
  eapply (ok_master_call pk_unlockpt lim _ PTMX s); [apply pk_unlockpt_ok| |done|by rw Hv2|done| |done| |].
  { intros e k'. exact (refused_unlockpt _ _ _ _ _ _ _ E1 E2). }
  { intros w. destruct (pw_unlockpt mfd (t_os s2)) as (? & ?); [by apply Hm|eauto]. }
  { intros s' Hu Hw. by split. }
  intros [] s3 E3 Hv3 Ht3. rw Hv2 in Hv3.
  eapply (ok_master_call pk_ptsname lim _ PTMX s); [apply pk_ptsname_ok| |done|by rw Hv3|done| |done| |].
  { intros e k'. exact (refused_ptsname _ _ _ _ _ _ _ _ E1 E2 E3). }
  { intros w. destruct (pw_ptsname mfd (t_os s3)) as (? & ? & ?); [by apply Hm|eauto]. }
  { intros s' Hu Hw. by split. }
  intros p s4 E4 Hv4 Ht4. rw Hv3 in Hv4. pose proof (named_intro _ _ _ _ _ _ _ E1 E2 E3 E4) as Hp.
  destruct (Nat.ltb_spec (length p) snLen) as [Hl|Hl].
  - strict_step. by rw Hv4.
  - assert (lim ≤ length p)%nat as Hlong by lia.
    eapply strict_conseq; [apply (too_long_ok lim _ PTMX s); [done|by rw Hv4|done|exact (refused_long _ _ _ _ _ Hp Hlong)]|].
    intros r s' [-> Hu]. split; [done|]. eauto.
Qed.

(** ** The child *)

(** The standard descriptors on the slave. *)
Definition std_on (p : cstring) (fds : gmap Z cstring) : gmap Z cstring :=
  <[STDERR_FILENO := p]> (<[STDOUT_FILENO := p]> (<[STDIN_FILENO := p]> fds)).

Lemma ok_dup_to {B} a b msg p (k1 : unit → M (tproc K) B) Q s :
  pv_fds (view s) !! a = Some p → 0 ≤ b ≤ STDERR_FILENO →
  (∀ s', view s' = with_fds (view s) (<[b := p]> (pv_fds (view s))) → terms s' = terms s → ok (k1 tt) Q s') →
  ok (dup_to a b msg ≫= k1) Q s.
Proof.
  intros Ha Hb H. strict_step. rw /dup_to.
  destruct (tcall_any (dk_dup2 a b) s) as ([n|] & s' & Hd & Ho); eapply strict_bind_Ret; [exact Hd| |exact Hd|].
  - pose proof (pk_dup2_keeps _ _ _ _ _ Ho) as Ht. apply dk_dup2_ok in Ho as (_ & -> & p' & Hp & Hv).
    rw bool_decide_eq_true_2 //. strict_step. apply H; [|done]. congruence.
  - rw bool_decide_eq_false_2 //. apply ok_terr_exit. intros w. destruct Ho as [e Ho].
    destruct (pw_dup2 a b (t_os s)) as (? & ? & ?); [by rw Ha|done|congruence].
Qed.

(** What the child has: a session of its own with the slave as its controlling
    terminal, which is set up as asked, and the slave on its standard
    descriptors, beside the descriptors it had. *)
Record on_slave (p : cstring) (slaveTermios : option termios) (slaveWS : option winsize) (v : pview) s' : Prop := {
  os_session : pv_sid (view s') = pv_pid (view s') ∧ pv_pgid (view s') = pv_pid (view s') ∧
    pv_pid (view s') ≠ pv_pid v ∧ pv_sid (view s') ≠ pv_sid v;
  os_ctty : pv_tty (view s') = true ∧ t_ctty (terms s') = Some p;
  os_attr : ∀ t, slaveTermios = Some t → t_attr (terms s') !! p = Some t;
  os_win : ∀ w, slaveWS = Some w → t_win (terms s') !! p = Some w;
  os_fds : pv_fds (view s') = std_on p (pv_fds v);
  os_rest : pv_umask (view s') = pv_umask v ∧ pv_cwd (view s') = pv_cwd v;
}.

Lemma std_on_lookup p fds n :
  std_on p fds !! n = if bool_decide (0 ≤ n ≤ STDERR_FILENO) then Some p else fds !! n.
Proof.
  rw /std_on. case_bool_decide as H; rw /STDERR_FILENO /STDOUT_FILENO /STDIN_FILENO in H *.
  - assert (n = 0 ∨ n = 1 ∨ n = 2) as [->|[->| ->]] by lia; by simplify_map_eq.
  - rw !lookup_insert_ne //; lia.
Qed.

Lemma std_on_open p fds fd : 0 ≤ fd ≤ STDERR_FILENO → std_on p (<[fd := p]> fds) = std_on p fds.
Proof.
  intros H. apply map_eq. intros n. rw !std_on_lookup. case_bool_decide; [done|].
  rw lookup_insert_ne //. by intros ->.
Qed.

Lemma std_on_close p fds fd :
  STDERR_FILENO < fd → fds !! fd = None → delete fd (std_on p (<[fd := p]> fds)) = std_on p fds.
Proof.
  intros H Hn. apply map_eq. intros n. destruct (decide (n = fd)) as [->|Hne].
  - rw lookup_delete_eq std_on_lookup bool_decide_eq_false_2 //. lia.
  - rw lookup_delete_ne; [by apply not_eq_sym|]. rw !std_on_lookup. case_bool_decide; [done|].
    by rw lookup_insert_ne; [by apply not_eq_sym|].
Qed.

Lemma ok_set_attr {B} fd p o (k1 : unit → M (tproc K) B) Q s :
  pv_fds (view s) !! fd = Some p →
  (∀ s', view s' = view s → t_ctty (terms s') = t_ctty (terms s) → t_win (terms s') = t_win (terms s) →
     (∀ t, o = Some t → t_attr (terms s') !! p = Some t) → ok (k1 tt) Q s') →
  ok (set_opt o (λ t, pchecked "ptyFork:tcsetattr" (pk_tcsetattr fd t)) ≫= k1) Q s.
Proof.
  intros Hp H. destruct o as [t|]; [|by apply H]. cbn [set_opt]. apply ok_pchecked.
  - intros [] s' E. destruct (pk_tcsetattr_ok _ _ _ _ _ E Hp) as [Hv Ht]. apply H; rw ?Ht //.
    intros t' [= <-]. by rw lookup_insert_eq.
  - intros w. destruct (pw_tcsetattr fd t (t_os s)) as [? ?]; [by rw Hp|eauto].
Qed.

Lemma ok_set_win {B} fd p o (k1 : unit → M (tproc K) B) Q s :
  pv_fds (view s) !! fd = Some p →
  (∀ s', view s' = view s → t_ctty (terms s') = t_ctty (terms s) → t_attr (terms s') = t_attr (terms s) →
     (∀ t, o = Some t → t_win (terms s') !! p = Some t) → ok (k1 tt) Q s') →
  ok (set_opt o (λ t, pchecked "ptyFork:ioctl-TIOCSWINSZ" (pk_setwinsz fd t)) ≫= k1) Q s.
Proof.
  intros Hp H. destruct o as [t|]; [|by apply H]. cbn [set_opt]. apply ok_pchecked.
  - intros [] s' E. destruct (pk_setwinsz_ok _ _ _ _ _ E Hp) as [Hv Ht]. apply H; rw ?Ht //.
    intros t' [= <-]. by rw lookup_insert_eq.
  - intros w. destruct (pw_setwinsz fd t (t_os s)) as [? ?]; [by rw Hp|eauto].
Qed.

(** The three [dup2] calls. *)
Lemma ok_dup_std {B} fd p v (k1 : unit → M (tproc K) B) Q s :
  pv_fds v !! fd = Some p → view s = v →
  (∀ s', view s' = with_fds v (std_on p (pv_fds v)) → terms s' = terms s → ok (k1 tt) Q s') →
  ok (dup_to fd STDIN_FILENO "ptyFork:dup2-STDIN_FILENO" ;;
      dup_to fd STDOUT_FILENO "ptyFork:dup2-STDOUT_FILENO" ;;
      dup_to fd STDERR_FILENO "ptyFork:dup2-STDERR_FILENO" ≫= k1) Q s.
Proof.
  intros Hp Hv H.
  assert (∀ b (m : gmap Z cstring), m !! fd = Some p → <[b := p]> m !! fd = Some p) as Hins.
  { intros b m Hm. destruct (decide (b = fd)) as [->|]; [by rw lookup_insert_eq|by rw lookup_insert_ne]. }
  apply (ok_dup_to _ _ _ p); [by rw Hv|done|]. intros s1 Hv1 Ht1. rw Hv in Hv1.
  apply (ok_dup_to _ _ _ p); [by rw Hv1; apply Hins|done|]. intros s2 Hv2 Ht2. rw Hv1 in Hv2.
  apply (ok_dup_to _ _ _ p); [by rw Hv2; do 2 apply Hins|done|]. intros s3 Hv3 Ht3. rw Hv2 in Hv3.
  apply H; [by rw Hv3|congruence].
Qed.

Lemma pty_child_ok mfd slname slaveTermios slaveWS v pid s :
  pv_fds v !! mfd = None → pid ≠ pv_pid v → pid ≠ pv_pgid v → pid ≠ pv_sid v →
  view s = with_pid (with_fds v (<[mfd := PTMX]> (pv_fds v))) pid →
  ok (pty_child mfd slname slaveTermios slaveWS) (λ _ s', on_slave slname slaveTermios slaveWS v s') s.
Proof.
  intros Hm Hpid Hpg Hsid Hv. rw /pty_child. apply ok_pchecked.
  2: { intros w. apply dw_setsid. by rw Hv. }
  intros sid s1 (_ & _ & Hv1)%dk_setsid_ok. apply ok_close. intros o s2 Hv2 _.
  rw Hv1 Hv /with_fds /= delete_insert_id // in Hv2. apply ok_pchecked; [|by intros w; apply pw_open].
  intros fd s3 ((Hfd & Hnone & _) & b & Hv3)%pk_open_ok. rw Hv2 /= in Hnone Hv3.
  assert (pv_fds (view s3) !! fd = Some slname) as Hp by (by rw Hv3 /= lookup_insert_eq).
  apply ok_pchecked.
  2: { intros w. destruct (pw_setctty fd (t_os s3)) as [? ?]; [by rw Hp|by rw Hv3|eauto]. }
  intros [] s4 E. destruct (pk_setctty_ok _ _ _ _ E Hp) as [Hv4 Ht4]. rw Hv3 in Hv4.
  apply (ok_set_attr _ slname); [by rw Hv4 /= lookup_insert_eq|]. intros s5 Hv5 Hc5 Hw5 Ha5.
  apply (ok_set_win _ slname); [by rw Hv5 Hv4 /= lookup_insert_eq|]. intros s6 Hv6 Hc6 Ha6 Hw6.
  rw Hv5 Hv4 in Hv6. eapply (ok_dup_std fd slname _); [|exact Hv6|]; [by rw /= lookup_insert_eq|].
  intros s7 Hv7 Ht7. cbn in Hv7.
  assert (∀ s', terms s' = terms s7 → view s' = PView pid pid pid true (pv_umask v) (pv_cwd v) (std_on slname (pv_fds v)) →
    on_slave slname slaveTermios slaveWS v s') as Hend.
  { intros s' Ht' Hv'. split; rw ?Ht' ?Ht7 ?Hv' //=.
    - split; [done|]. by rw Hc6 Hc5 Ht4.
    - intros t Ht. rw Ha6. by apply Ha5. }
  destruct (Z.ltb_spec STDERR_FILENO fd) as [Hgt|Hle]; cbn [when].
  - apply ok_close. intros _ s8 Hv8 Ht8. strict_step. apply Hend; [done|]. rw Hv8 Hv7 /with_fds /=. f_equal.
    by apply std_on_close.
  - strict_step. apply Hend; [done|]. rw Hv7 /with_fds /=. f_equal. by apply std_on_open.
Qed.

(** The least length of a name that does not fit: the caller's buffer, if there is one, and that
    of the function. *)
Definition name_limit (sn : option nat) : nat := match sn with Some n => Nat.min MAX_SNAME n | None => MAX_SNAME end.

(** What the function promises its caller. *)
Definition forked_as sn slaveTermios slaveWS s (r : forked) s' : Prop :=
  match r with
  | PtyError => undone (name_limit sn) s s' ∧
      (W → ∃ mfd p k', named (t_os s) mfd p k' ∧ (name_limit sn ≤ length p)%nat)
  | PtyParent pid mfd name =>
      ∃ p k', named (t_os s) mfd p k' ∧ (length p < name_limit sn)%nat ∧ dk_fork k' = (inr pid, t_os s') ∧
      pid ≠ 0 ∧ name = (λ _, p) <$> sn ∧ lowest_free (pv_fds (view s)) mfd ∧
      view s' = with_fds (view s) (<[mfd := PTMX]> (pv_fds (view s))) ∧ terms s' = terms s
  | PtyChild => ∃ mfd p k', named (t_os s) mfd p k' ∧ (length p < name_limit sn)%nat ∧
      on_slave p slaveTermios slaveWS (view s) s'
  end.

Lemma ptyFork_ok sn slaveTermios slaveWS s :
  ok (ptyFork sn slaveTermios slaveWS) (forked_as sn slaveTermios slaveWS s) s.
Proof.
  assert (name_limit sn ≤ MAX_SNAME)%nat as Hlim by (destruct sn; cbn [name_limit]; lia).
  rw /ptyFork. strict_step. eapply strict_conseq; [by apply (ptyMasterOpen_ok (name_limit sn))|].
  intros [[mfd p]|] s1 H1; [|by strict_step].
  destruct H1 as (Hlow & Hp & Hl & Hv1 & Ht1). assert (pv_fds (view s) !! mfd = None) as Hn by apply Hlow.
  set (long := match sn with Some _ => _ | None => _ end).
  assert (if long then (name_limit sn ≤ length p)%nat else (length p < name_limit sn)%nat) as Hlong.
  { rw /long. destruct sn as [n|]; [|done]. cbn [name_limit]. destruct (Nat.leb_spec n (length p)); lia. }
  clearbody long. destruct long.
  { strict_step. eapply strict_conseq; [apply (too_long_ok (name_limit sn) _ PTMX s); [done..|exact (refused_long _ _ _ _ _ Hp Hlong)]|].
    intros r s2 [_ Hu]. strict_step. split; [done|]. eauto. }
  do 2 strict_step.
  2: { intros e k E. strict_step. eapply strict_conseq.
       - apply (leave_pty_ok (name_limit sn) _ PTMX s);
           [done|by rw /= (pk_fork_fails _ _ _ E)|by rw /= (pk_fork_keeps _ _ _ E)|exact (refused_fork _ _ _ _ _ _ _ Hp Hlong E)].
       - intros r s2 [_ Hu]. strict_step. split; [done|]. intros w. destruct (dw_fork (t_os s1)) as (? & ? & ?). congruence. }
  intros pid k E. pose proof (pk_fork_keeps _ _ _ E) as Ht. destruct (dk_fork_ok _ _ _ E) as [_ H].
  destruct (Z.eqb_spec pid 0) as [->|Hpid].
  - destruct H as (cpid & H1 & H2 & H3 & Hv). rw Hv1 /= in H1 H2 H3. strict_step.
    eapply strict_conseq; [apply (pty_child_ok _ _ _ _ (view s) cpid); [done..|by rw /= Hv Hv1]|].
    intros [] s2 Hc. strict_step. by exists mfd, p, (t_os s1).
  - strict_step. exists p, (t_os s1). split_and!; [done|done|done|done|done|done|by rw /= H|by rw /= Ht].
Qed.

(** C13: [ptyFork] fails without leaving a descriptor open or changing anything else, and
    then [errno] is that of the call that failed, and not of the clean-up, or
    EOVERFLOW if the name that [ptsname] gave for the slave does not fit the caller's buffer
    or that of the function.  Otherwise the
    parent gets the child's ID that fork returned, that name, and one new descriptor, the master; the child
    leads a session of its own with the terminal of that name as controlling terminal, set up
    with the attributes and size given, has it and nothing else on its
    standard descriptors, and all other descriptors are as they were.  The child
    exits only if a call is refused that could be granted, and if none is, the function fails
    only because the name is too long. *)
Theorem ptyFork_correct sn slaveTermios slaveWS s :
  match ptyFork sn slaveTermios slaveWS s with
  | (Ret PtyError, s') => undone (name_limit sn) s s' ∧
      (W → ∃ mfd p k', named (t_os s) mfd p k' ∧ (name_limit sn ≤ length p)%nat)
  | (Ret (PtyParent pid mfd name), s') =>
      ∃ p k', named (t_os s) mfd p k' ∧ (length p < name_limit sn)%nat ∧ dk_fork k' = (inr pid, t_os s') ∧
      pid ≠ 0 ∧ name = (λ _, p) <$> sn ∧ lowest_free (pv_fds (view s)) mfd ∧
      view s' = with_fds (view s) (<[mfd := PTMX]> (pv_fds (view s))) ∧ terms s' = terms s
  | (Ret PtyChild, s') => ∃ mfd p k', named (t_os s) mfd p k' ∧ (length p < name_limit sn)%nat ∧
      on_slave p slaveTermios slaveWS (view s) s'
  | (Exit n, _) => n = EXIT_FAILURE ∧ ¬ W
  | (Abort, _) => ¬ W
  | _ => False
  end.
Proof.
  pose proof (ptyFork_ok sn slaveTermios slaveWS s) as H. rw /strict in H.
  destruct (ptyFork sn slaveTermios slaveWS s) as [[[| |]| | | |] s']; exact H.
Qed.

(** ** Setting the mode of a terminal *)

(** The functions store the attributes they find and set the new ones, or fail. *)
Lemma ttySet_correct f fd s :
  (∀ k t k', pk_tcgetattr fd k = (inr t, k') → dk_view k' = dk_view k ∧ pk_terms k' = pk_terms k ∧
     ∀ p, pv_fds (dk_view k) !! fd = Some p → t_attr (pk_terms k) !! p = Some t) →
  ∀ p, pv_fds (view s) !! fd = Some p →
  match ttySet f fd s with
  | (Ret (r, prev), s') => r = -1 ∨ r = 0 ∧ ∃ t, prev = Some t ∧ t_attr (terms s) !! p = Some t ∧
      t_attr (terms s') = <[p := f t]> (t_attr (terms s))
  | _ => False
  end.
Proof.
  intros Hget p Hp. rw /ttySet.
  destruct (tcall_any (pk_tcgetattr fd) s) as ([t|] & s1 & H1 & Ho); rw (bind_Ret _ _ _ _ _ H1); [|by left].
  destruct (Hget _ _ _ Ho) as (Hv & Ht & Ha).
  destruct (tcall_any (pk_tcsetattr fd (f t)) s1) as ([[]|] & s2 & H2 & Ho2); rw (bind_Ret _ _ _ _ _ H2); [right|by left].
  split; [done|]. exists t. split_and!; [done|by apply Ha|].
  destruct (pk_tcsetattr_ok _ _ _ _ p Ho2) as [_ ->]; [by rw Hv|]. cbn. by rw Ht.
Qed.
End proofs.

Lemma raw_idempotent t : raw (raw t) = raw t.
Proof. rw /raw /=. f_equal; [apply clear_clear..|apply modes_cc]. Qed.

(** Every flag of the mask is off, and every other flag as it was. *)
Lemma raw_flags t n :
  0 ≤ n →
  Z.testbit (c_iflag (raw t)) n = Z.testbit (c_iflag t) n && negb (Z.testbit RAW_IFLAGS n) ∧
  Z.testbit (c_oflag (raw t)) n = Z.testbit (c_oflag t) n && negb (Z.testbit OPOST n) ∧
  Z.testbit (c_lflag (raw t)) n = Z.testbit (c_lflag t) n && negb (Z.testbit RAW_LFLAGS n) ∧
  c_cflag (raw t) = c_cflag t.
Proof. intros Hn. by rw /raw /= !clear_bit. Qed.

(** Cbreak mode after raw mode turns signals on again, and nothing else. *)
Lemma cbreak_raw t :
  cbreak (raw t) = Termios (c_iflag (raw t)) (c_oflag (raw t)) (c_cflag t) (Z.lor (c_lflag (raw t)) ISIG) (c_cc (raw t)).
Proof.
  rw /cbreak /=. f_equal; [by apply clear_subset| |apply modes_cc]. f_equal. by apply clear_subset.
Qed.

(** ** A kernel with one pseudoterminal *)

Module PtySim.
(** What can be read, in order, and all that was read and written. *)
Record channels := Channels {
  c_in : list (Z * list ascii); c_got : Z → list ascii; c_put : Z → list ascii }.
Definition silent : channels := Channels [] (λ _, []) (λ _, []).

Record kern := Kern {
  k_view : pview; k_child : list bool; k_terms : terminals; k_name : cstring; k_chan : channels }.

Definition set_view (k : kern) (v : pview) : kern := Kern v (k_child k) (k_terms k) (k_name k) (k_chan k).
Definition set_terms (k : kern) (t : terminals) : kern := Kern (k_view k) (k_child k) t (k_name k) (k_chan k).
Definition set_chan (k : kern) (c : channels) : kern := Kern (k_view k) (k_child k) (k_terms k) (k_name k) c.

(** The lowest descriptor that is not open, from [n] on. *)
Fixpoint low (fuel : nat) (n : Z) (fds : gmap Z cstring) : Z :=
  match fuel with
  | O => n
  | S fuel => match fds !! n with Some _ => low fuel (n + 1) fds | None => n end
  end.
Definition lowest (fds : gmap Z cstring) : Z := low (size fds) 0 fds.

Lemma low_spec fuel n fds :
  0 ≤ n → (∀ m, 0 ≤ m < n → is_Some (fds !! m)) → let r := low fuel n fds in
  0 ≤ r ∧ (∀ m, 0 ≤ m < r → is_Some (fds !! m)) ∧ (fds !! r = None ∨ r = n + Z.of_nat fuel).
Proof.
  elim: fuel n => [|fuel IH] n Hn Hm; cbn; [split_and!; [done|done|right; lia]|].
  destruct (fds !! n) as [p|] eqn:E; [|by auto].
  destruct (IH (n + 1)) as (H1 & H2 & H3); [lia| |split_and!; [done|done|]].
  - intros m Hm'. destruct (decide (m = n)) as [->|]; [by rw E|apply Hm; lia].
  - destruct H3 as [?|H3]; [by left|right; lia].
Qed.

(** As many descriptors as are open cannot fill the numbers up to their count. *)
Lemma filled_size (fds : gmap Z cstring) (n : nat) :
  (∀ m, 0 ≤ m < Z.of_nat n → is_Some (fds !! m)) → (n ≤ size fds)%nat.
Proof.
  intros H. rw -size_dom.
  assert ((list_to_set (seqZ 0 (Z.of_nat n)) : gset Z) ⊆ dom fds) as Hs.
  { intros m Hm. apply elem_of_list_to_set, elem_of_seqZ in Hm. apply elem_of_dom, H. lia. }
  apply subseteq_size in Hs. rw size_list_to_set in Hs; [apply NoDup_seqZ|]. rw length_seqZ Nat2Z.id in Hs. done.
Qed.

Lemma lowest_spec fds : lowest_free fds (lowest fds).
Proof.
  destruct (low_spec (size fds) 0 fds) as (H1 & H2 & H3); [done|lia|]. split_and!; [done| |done].
  destruct H3 as [?|H3]; [done|]. destruct (fds !! lowest fds) as [p|] eqn:E; [|done].
  rw /lowest in E. pose proof (filled_size fds (S (size fds))) as Hc.
  enough (S (size fds) ≤ size fds)%nat by lia. apply Hc. intros m Hm.
  destruct (decide (m = low (size fds) 0 fds)) as [->|]; [by rw E|]. apply H2. lia.
Qed.

Definition open_on (p : cstring) (k : kern) : res Z * kern :=
  let fds := pv_fds (k_view k) in
  (inr (lowest fds), set_view k (with_fds (k_view k) (<[lowest fds := p]> fds))).

Definition sim_fork (k : kern) : res Z * kern :=
  let v := k_view k in
  match k_child k with
  | false :: l => (inr (Z.max 1 (DaemonSim.new_pid v)), Kern v l (k_terms k) (k_name k) (k_chan k))
  | l => (inr 0, Kern (with_pid v (DaemonSim.new_pid v)) (tail l) (k_terms k) (k_name k) (k_chan k))
  end.

#[export] Instance pty_sim_env : TlpiEnv kern := { te_strerror _ := cs "error"; te_dumpcore := None }.

#[export] Instance pty_sim_daemon : DaemonOS kern := {
  dk_fork := sim_fork;
  dk_setsid k := let v := k_view k in
    if pv_pid v =? pv_pgid v then (inl EPERM, k) else (inr (pv_pid v), set_view k (in_session v));
  dk_umask m k := set_view k (with_umask (k_view k) m);
  dk_chdir p k := (inr tt, set_view k (with_cwd (k_view k) p));
  dk_open_max k := (inr 1024, k);
  dk_close fd k := (inr tt, set_view k (with_fds (k_view k) (delete fd (pv_fds (k_view k)))));
  dk_open := open_on;
  dk_dup2 a b k := match pv_fds (k_view k) !! a with
    | None => (inl EBADF, k)
    | Some p => (inr b, set_view k (with_fds (k_view k) (<[b := p]> (pv_fds (k_view k)))))
    end;
}.

#[export, refine] Instance pty_sim_daemon_ok : DaemonOSOk kern := { dk_view := k_view; dk_limit _ := Some 1024 }.
Proof.
  - intros [v [|[] l] t m c] n k'; cbn [dk_fork pty_sim_daemon sim_fork k_child k_view k_terms k_name k_chan tail]; intros [= <- <-];
      (split; [done|]); cbn.
    1,2: exists (DaemonSim.new_pid v); rw /DaemonSim.new_pid; split_and!; [lia..|done].
    by destruct (Z.eqb_spec (Z.max 1 (DaemonSim.new_pid v)) 0); [lia|].
  - intros k n k'. cbn. destruct (Z.eqb_spec (pv_pid (k_view k)) (pv_pgid (k_view k))); [done|]. by intros [= <- <-].
  - done.
  - by intros p k r k' [= <- <-].
  - by intros k r k' [= <- <-].
  - by intros fd k r k' [= <- <-].
  - intros k fd k' [= <- <-]. split; [done|]. split; [apply lowest_spec|done].
  - intros a b k n k'. cbn. destruct (pv_fds (k_view k) !! a) eqn:H; [|done]. intros [= <- <-]. eauto.
Defined.

(** A call on an open descriptor. *)
Definition on_fd (fd : Z) (k : kern) (f : cstring → kern) : res unit * kern :=
  match pv_fds (k_view k) !! fd with None => (inl EBADF, k) | Some p => (inr tt, f p) end.

#[export] Instance pty_sim_os : PtyOS kern := {
  pk_tcgetattr fd k := match pv_fds (k_view k) !! fd ≫= (t_attr (k_terms k) !!.) with
    | None => (inl EBADF, k) | Some t => (inr t, k) end;
  pk_tcsetattr fd t k := on_fd fd k (λ p, set_terms k
    (Terminals (t_ctty (k_terms k)) (<[p := t]> (t_attr (k_terms k))) (t_win (k_terms k))));
  pk_getwinsz fd k := match pv_fds (k_view k) !! fd ≫= (t_win (k_terms k) !!.) with
    | None => (inl EBADF, k) | Some t => (inr t, k) end;
  pk_setwinsz fd w k := on_fd fd k (λ p, set_terms k
    (Terminals (t_ctty (k_terms k)) (t_attr (k_terms k)) (<[p := w]> (t_win (k_terms k)))));
  pk_openpt := open_on PTMX;
  pk_grantpt fd k := on_fd fd k (λ _, k);
  pk_unlockpt fd k := on_fd fd k (λ _, k);
  pk_ptsname fd k := (inr (k_name k), k);
  pk_setctty fd k := on_fd fd k (λ p, set_terms (set_view k (with_tty (k_view k) true))
    (Terminals (Some p) (t_attr (k_terms k)) (t_win (k_terms k))));
}.

Lemma on_fd_ok fd k f k' p :
  on_fd fd k f = (inr tt, k') → pv_fds (k_view k) !! fd = Some p → k' = f p.
Proof. rw /on_fd. intros H Hp. rw Hp in H. by injection H as <-. Qed.

#[export, refine] Instance pty_sim_ok : PtyOSOk kern := { pk_terms := k_terms }.
Proof.
  - intros [v [|[] l] t m c] e k'; done.
  - intros [v [|[] l] t m c] r k'; by intros [= _ <-].
  - done.
  - by intros k r k' [= _ <-].
  - intros k fd k' [= <- <-]. split; [apply lowest_spec|done].
  - intros fd k r k'. cbn. rw /on_fd. by case_match; intros [= _ <-].
  - intros fd k r k'. cbn. rw /on_fd. by case_match; intros [= _ <-].
  - by intros fd k r k' [= _ <-].
  - intros p k fd k' [= <- <-]. split; [apply lowest_spec|]. exists (pv_tty (k_view k)). done.
  - intros fd k k' p H Hp. by rw (on_fd_ok _ _ _ _ _ H Hp).
  - intros fd t k k' p H Hp. by rw (on_fd_ok _ _ _ _ _ H Hp).
  - intros fd t k k' p H Hp. by rw (on_fd_ok _ _ _ _ _ H Hp).
  - intros a b k r k'. cbn. by case_match; intros [= _ <-].
  - by intros fd k r k' [= _ <-].
Defined.

Lemma on_fd_works fd k f : is_Some (pv_fds (k_view k) !! fd) → ∃ k', on_fd fd k f = (inr tt, k').
Proof. intros [p Hp]. rw /on_fd Hp. eauto. Qed.

#[export] Instance pty_sim_works : PtyWorks kern.
Proof.
  split; [split|..].
  - intros [v [|[] l] t m c]; cbn; eauto.
  - intros k H. cbn. destruct (Z.eqb_spec (pv_pid (k_view k)) (pv_pgid (k_view k))); [done|eauto].
  - intros k. cbn. eauto.
  - intros k _. cbn. rw /open_on. eauto.
  - intros a b k [p H] _. cbn. rw H. eauto.
  - intros k. cbn. rw /open_on. eauto.
  - intros fd k H. apply on_fd_works. exists PTMX. exact H.
  - intros fd k H. apply on_fd_works. exists PTMX. exact H.
  - intros fd k _. cbn. eauto.
  - intros p k. cbn. rw /open_on. eauto.
  - intros fd k H _. by apply on_fd_works.
  - intros fd t k H. by apply on_fd_works.
  - intros fd t k H. by apply on_fd_works.
  - intros a b k [p H] _. cbn. rw H. eauto.
Qed.

(** A process with its standard descriptors open, but for standard input. *)
Definition boot (child : list bool) : tproc kern :=
  TProc (EState [] [] [] 0)
    (Kern (PView 120 120 100 true 18 (cs "/") {[1 := cs "/dev/tty"; 2 := cs "/dev/tty"]}) child
       (Terminals (Some (cs "/dev/tty")) ∅ ∅) (cs "/dev/pts/3") silent).
End PtySim.
Import PtySim.

Lemma ptyFork_correct_witness :
  ∃ s', ptyFork (Some 20%nat) None (Some (WinSize 24 80)) (boot [true]) = (Ret PtyChild, s') ∧
    (∃ mfd p k', named (t_os (boot [true])) mfd p k' ∧ (length p < 20)%nat ∧
       on_slave p None (Some (WinSize 24 80)) (dk_view (t_os (boot []))) s') ∧
    pv_fds (dk_view (t_os s')) = std_on (cs "/dev/pts/3") ∅.
Proof.
  pose proof (ptyFork_correct (Some 20%nat) None (Some (WinSize 24 80)) (boot [true])) as H.
  destruct (ptyFork _ _ _ (boot [true])) as [o s'] eqn:E. vm_compute in E. injection E as <- <-.
  eexists. split; [reflexivity|]. split; [exact H|]. by vm_compute.
Defined.

(** A buffer of ten characters is too small for the name. *)
Example ptyFork_small_buffer :
  ∃ s', ptyFork (Some 10%nat) None None (boot [true]) = (Ret PtyError, s') ∧ e_errno (t_io s') = EOVERFLOW.
Proof. eexists. split; vm_compute; reflexivity. Qed.
