(* ===== verification/Script.v ===== *)
(** * A terminal session recorded: [pty/script.c]

    A client of Pty: the child runs a shell on the slave, the parent relays what
    is typed and shown and writes a copy to a file.  [exit] runs the handler
    that was set with [atexit]. *)

From S2P Require Import Prelude ErrFns GetNum Tlpi Daemon Pty.

Definition BUF_SIZE : nat := 256.

Class ScriptOS (K : Type) := {
  (** Which of standard input and the master can be read. *)
  sc_select : Z → K → res (bool * bool) * K;
  sc_read : Z → nat → K → res (list ascii) * K;
  sc_write : Z → list ascii → K → res nat * K;
  sc_open : cstring → K → res Z * K;
  sc_atexit : K → bool * K;
  sc_getenv : cstring → K → option cstring;
  (** [execlp]; a result means that the new program runs. *)
  sc_execlp : cstring → K → res unit * K;
}.

(** How [main] leaves the model: as the program of the shell, or it has not
    left its loop. *)
Inductive script_end := ShellRuns (shell : cstring).

Section script.
Context {K : Type} `{!TlpiEnv K, !DaemonOS K, !PtyOS K, !ScriptOS K}.
Abbreviation T := (M (tproc K)).

Definition ttyReset (ttyOrig : termios) : T unit :=
  tchecked (cs "tcsetattr") (pk_tcsetattr STDIN_FILENO ttyOrig).

(** [exit] after [atexit(handler)]. *)
Definition with_atexit {A} (handler : T unit) (body : T A) : T A := λ s,
  match body s with
  | (Exit n, s') =>
      match handler s' with
      | (Ret _, s'') => (Exit n, s'')
      | (Exit m, s'') => (Exit m, s'')
      | (Abort, s'') => (Abort, s'')
      | (Crash, s'') => (Crash, s'')
      | (NoFuel, s'') => (NoFuel, s'')
      end
  | r => r
  end.

(** [read] from [fd]; end of file and errors end the program. *)
Definition read_some (fd : Z) : T (list ascii) :=
  r ← tcall (sc_read fd BUF_SIZE) ;
  match r with
  | None | Some [] => texit EXIT_SUCCESS
  | Some buf => mret buf
  end.

(** [if (write(fd, buf, numRead) != numRead) fatal(msg)]. *)
Definition write_all (fd : Z) (buf : list ascii) (msg : string) : T unit :=
  n ← tcall (sc_write fd buf) ;
  if bool_decide (n = Some (length buf)) then mret tt else tfatal (cs msg).

(** One turn of the loop. *)
Definition relay (masterFd scriptFd : Z) : T unit :=
  ready ← tchecked (cs "select") (sc_select masterFd) ;
  when ready.1 (
    buf ← read_some STDIN_FILENO ;
    write_all masterFd buf "partial/failed write (masterFd)") ;;
  when ready.2 (
    buf ← read_some masterFd ;
    write_all STDOUT_FILENO buf "partial/failed write (STDOUT_FILENO)" ;;
    write_all scriptFd buf "partial/failed write (scriptFd)").

Fixpoint relay_loop (fuel : nat) (masterFd scriptFd : Z) : T script_end :=
  match fuel with
  | O => stop NoFuel
  | S fuel => relay masterFd scriptFd ;; relay_loop fuel masterFd scriptFd
  end.

Definition run_shell : T script_end := λ s,
  let shell := match sc_getenv (cs "SHELL") (t_os s) with
               | Some (c :: r) => c :: r
               | _ => cs "/bin/sh"
               end in
  (r ← tcall (sc_execlp shell) ;
   match r with Some _ => mret (ShellRuns shell) | None => terrExit (cs "execlp") end) s.

(** The parent, once the child has been created. *)
Definition script_parent (fuel : nat) (masterFd : Z) (ttyOrig : termios) (argv : list cstring) : T script_end :=
  scriptFd ← tchecked (cs "open typescript")
    (sc_open (match argv with _ :: file :: _ => file | _ => cs "typescript" end)) ;
  r ← ttySetRaw STDIN_FILENO ;
  let ttyOrig := default ttyOrig r.2 in
  ok ← tsys sc_atexit ;
  if negb ok then terrExit (cs "atexit")
  else with_atexit (ttyReset ttyOrig) (relay_loop fuel masterFd scriptFd).

Definition script_main (fuel : nat) (argv : list cstring) : T script_end :=
  ttyOrig ← tchecked (cs "tcgetattr") (pk_tcgetattr STDIN_FILENO) ;
  ws ← tchecked (cs "ioctl-TIOCGWINSZ") (pk_getwinsz STDIN_FILENO) ;
  child ← ptyFork (Some MAX_SNAME) (Some ttyOrig) (Some ws) ;
  match child with
  | PtyError => terrExit (cs "ptyFork")
  | PtyChild => run_shell
  | PtyParent _ masterFd _ => script_parent fuel masterFd ttyOrig argv
  end.
End script.

(** ** What the calls do *)

Definition upd (f : Z → list ascii) (fd : Z) (d : list ascii) : Z → list ascii :=
  λ x, if x =? fd then f x ++ d else f x.

(** [sc_got] and [sc_put]: all that was read from a descriptor and written to
    it. *)
Class ScriptOSOk (K : Type) `{!DaemonOS K, !DaemonOSOk K, !PtyOS K, !PtyOSOk K, !ScriptOS K} := {
  sc_got : K → Z → list ascii;
  sc_put : K → Z → list ascii;
  sc_tcgetattr_ok fd k r k' : pk_tcgetattr fd k = (r, k') →
    pk_terms k' = pk_terms k ∧ dk_view k' = dk_view k ∧ sc_got k' = sc_got k ∧ sc_put k' = sc_put k ∧
    ∀ t p, r = inr t → pv_fds (dk_view k) !! fd = Some p → t_attr (pk_terms k) !! p = Some t;
  sc_getwinsz_ok fd k r k' : pk_getwinsz fd k = (r, k') → pk_terms k' = pk_terms k ∧ dk_view k' = dk_view k;
  sc_execlp_ok sh k r k' : sc_execlp sh k = (r, k') → pk_terms k' = pk_terms k ∧ dk_view k' = dk_view k;
  sc_tcsetattr_fails fd t k e k' : pk_tcsetattr fd t k = (inl e, k') →
    pk_terms k' = pk_terms k ∧ dk_view k' = dk_view k;
  sc_tcsetattr_keeps fd t k r k' : pk_tcsetattr fd t k = (r, k') → sc_got k' = sc_got k ∧ sc_put k' = sc_put k;
  sc_open_keeps p k r k' : sc_open p k = (r, k') →
    pk_terms k' = pk_terms k ∧ sc_got k' = sc_got k ∧ sc_put k' = sc_put k;
  sc_open_ok p k fd k' : sc_open p k = (inr fd, k') →
    lowest_free (pv_fds (dk_view k)) fd ∧
    dk_view k' = with_fds (dk_view k) (<[fd := p]> (pv_fds (dk_view k)));
  sc_atexit_ok k b k' : sc_atexit k = (b, k') →
    pk_terms k' = pk_terms k ∧ dk_view k' = dk_view k ∧ sc_got k' = sc_got k ∧ sc_put k' = sc_put k;
  sc_select_ok m k r k' : sc_select m k = (r, k') →
    pk_terms k' = pk_terms k ∧ dk_view k' = dk_view k ∧ sc_got k' = sc_got k ∧ sc_put k' = sc_put k;
  sc_read_ok fd n k r k' : sc_read fd n k = (r, k') →
    pk_terms k' = pk_terms k ∧ dk_view k' = dk_view k ∧ sc_put k' = sc_put k ∧
    sc_got k' = match r with inl _ => sc_got k | inr d => upd (sc_got k) fd d end;
  sc_write_ok fd d k r k' : sc_write fd d k = (r, k') →
    pk_terms k' = pk_terms k ∧ dk_view k' = dk_view k ∧ sc_got k' = sc_got k ∧
    sc_put k' = match r with inl _ => sc_put k | inr n => upd (sc_put k) fd (take n d) end;
}.

Section proofs.
Context {K : Type} `{!TlpiEnv K, !DaemonOS K, !DaemonOSOk K, !PtyOS K, !PtyOSOk K, !ScriptOS K, !ScriptOSOk K}.
Implicit Types s : tproc K.
Abbreviation view s := (dk_view (t_os s)).
Abbreviation terms s := (pk_terms (t_os s)).
Abbreviation got s := (sc_got (t_os s)).
Abbreviation put s := (sc_put (t_os s)).

(** The relay between the master [m], the terminal and the file [f], since the
    state [b]: what was typed was written to the master; what came from it was
    shown and recorded. *)
Context (m f : Z) (b : K).
Definition relayed s : Prop := ∃ typed shown,
  got s STDIN_FILENO = sc_got b STDIN_FILENO ++ typed ∧ put s m = sc_put b m ++ typed ∧
  got s m = sc_got b m ++ shown ∧
  put s STDOUT_FILENO = sc_put b STDOUT_FILENO ++ shown ∧ put s f = sc_put b f ++ shown.

(** The same for a beginning of the data. *)
Definition relaying s : Prop := ∃ typed typed' shown shown1 shown2,
  got s STDIN_FILENO = sc_got b STDIN_FILENO ++ typed ∧ put s m = sc_put b m ++ typed' ∧
  got s m = sc_got b m ++ shown ∧
  put s STDOUT_FILENO = sc_put b STDOUT_FILENO ++ shown1 ∧ put s f = sc_put b f ++ shown2 ∧
  typed' `prefix_of` typed ∧ shown1 `prefix_of` shown ∧ shown2 `prefix_of` shown.

(** The ends of a run in which the terminal is left alone. *)
Definition ends_in {A} (P : A → tproc K → Prop) (m1 : M (tproc K) A) s : Prop :=
  match m1 s with
  | (Ret a, s') => terms s' = terms s ∧ view s' = view s ∧ P a s'
  | (Exit n, s') => terms s' = terms s ∧ view s' = view s ∧ relaying s' ∧ (n = EXIT_SUCCESS → relayed s')
  | (NoFuel, s') => relayed s'
  | (Abort, s') => relaying s'
  | (Crash, _) => False
  end.

Lemma ends_in_bind {A B} (P : A → tproc K → Prop) (Q : B → tproc K → Prop) m1 (k1 : A → M (tproc K) B) s :
  ends_in P m1 s → (∀ a s', P a s' → ends_in Q (k1 a) s') → ends_in Q (m1 ≫= k1) s.
Proof.
  rw /ends_in /mbind /M_bind. destruct (m1 s) as [[a| | | |] s'] eqn:E; try done. intros (Ht & Hv & HP) Hk.
  specialize (Hk a s' HP). destruct (k1 a s') as [[| | | |] s'']; try done; by rw -Ht -Hv.
Qed.

Lemma ends_in_conseq {A} (P Q : A → tproc K → Prop) m1 s :
  ends_in P m1 s → (∀ a s', P a s' → Q a s') → ends_in Q m1 s.
Proof. rw /ends_in. destruct (m1 s) as [[| | | |] s']; naive_solver. Qed.

Context (Hm0 : m ≠ STDIN_FILENO) (Hm1 : m ≠ STDOUT_FILENO) (Hmf : m ≠ f) (Hf1 : f ≠ STDOUT_FILENO).

Lemma upd_eq g fd d : upd g fd d fd = g fd ++ d.
Proof. by rw /upd Z.eqb_refl. Qed.
Lemma upd_ne g fd d x : x ≠ fd → upd g fd d x = g x.
Proof. rw /upd. by destruct (Z.eqb_spec x fd). Qed.
Lemma upd_nil g fd x : upd g fd [] x = g x.
Proof. rw /upd. case_match; [apply app_nil_r|done]. Qed.

(** The parts of the state that matter here. *)
Definition same_as s s' : Prop := terms s' = terms s ∧ view s' = view s.

Lemma relayed_relaying s : relayed s → relaying s.
Proof. intros (typed & shown & ?). exists typed, typed, shown, shown, shown. naive_solver. Qed.

Lemma tcall_sc {A} (c : K → res A * K) s :
  ∃ o s', tcall c s = (Ret o, s') ∧ ∃ r, c (t_os s) = (r, t_os s') ∧
    match o with Some v => r = inr v | None => ∃ e, r = inl e end.
Proof.
  destruct (tcall_any c s) as ([v|] & s' & H & Ho); eexists _, s'; (split; [exact H|]); [eauto|].
  destruct Ho as [e Ho]. eauto.
Qed.

(** [fatal] and [errExit] keep everything but the streams. *)
Lemma tfatal_ends {A} msg (P : A → tproc K → Prop) s0 s :
  terms s = terms s0 → view s = view s0 → relaying s →
  match tfatal msg s with
  | (Ret a, s') => terms s' = terms s0 ∧ view s' = view s0 ∧ P a s'
  | (Exit n, s') => terms s' = terms s0 ∧ view s' = view s0 ∧ relaying s' ∧ (n = EXIT_SUCCESS → relayed s')
  | (NoFuel, s') => relayed s'
  | (Abort, s') => relaying s'
  | (Crash, _) => False
  end.
Proof.
  intros Ht Hv Hr. rw /tfatal /io /fatal.
  rw (bind_Ret _ _ _ _ _ (outputError_eq te_strerror false 0 true msg (t_io s))) /terminate.
  by destruct te_dumpcore as [[]|].
Qed.

Lemma terrExit_ends {A} msg (P : A → tproc K → Prop) s :
  relaying s → ends_in P (terrExit msg) s.
Proof. intros Hr. rw /ends_in /terrExit /io errExit_eq. by case_bool_decide. Qed.

Lemma read_some_ends fd s :
  relayed s →
  ends_in (λ d s', put s' = put s ∧ got s' = upd (got s) fd d) (read_some fd) s.
Proof.
  intros Hr. rw /ends_in /read_some. destruct (tcall_sc (sc_read fd BUF_SIZE) s) as (o & s' & H & r & E & Ho).
  destruct (sc_read_ok _ _ _ _ _ E) as (Ht & Hv & Hp & Hg). rw (bind_Ret _ _ _ _ _ H).
  assert ((∀ x, got s' x = got s x) → relayed s') as Hrel by (intros Hx; rw /relayed Hp; setoid_rewrite Hx; apply Hr).
  destruct o as [[|x d]|]; cbn.
  - subst r. assert (relayed s') as Hr' by (apply Hrel; intros x; rw Hg; apply upd_nil).
    split_and!; [done|done|by apply relayed_relaying|done].
  - by subst r.
  - destruct Ho as [e ->]. assert (relayed s') as Hr' by (apply Hrel; by rw Hg).
    split_and!; [done|done|by apply relayed_relaying|done].
Qed.

(** [P] is what the whole of [buf] leads to; a part of it keeps the prefixes. *)
Lemma write_all_ends fd buf msg s :
  (∀ n s', got s' = got s → (∀ x, put s' x = upd (put s) fd (take n buf) x) → relaying s') →
  ends_in (λ _ s', got s' = got s ∧ put s' = upd (put s) fd buf) (write_all fd buf msg) s.
Proof.
  intros Hpart. rw /ends_in /write_all. destruct (tcall_sc (sc_write fd buf) s) as (o & s' & H & r & E & Ho).
  destruct (sc_write_ok _ _ _ _ _ E) as (Ht & Hv & Hg & Hp). rw (bind_Ret _ _ _ _ _ H).
  case_bool_decide as Ho'.
  - subst o. subst r. rw firstn_all in Hp. done.
  - apply tfatal_ends; [done..|]. destruct o as [n|].
    + subst r. apply (Hpart n s'); [done|by rw Hp].
    + destruct Ho as [e ->]. apply (Hpart O s'); [done|]. intros x. by rw Hp upd_nil.
Qed.

Lemma relay_ends s : relayed s → ends_in (λ _ s', relayed s') (relay m f) s.
Proof.
  pose proof (not_eq_sym Hm0) as Hm0'. pose proof (not_eq_sym Hm1) as Hm1'. pose proof (not_eq_sym Hmf) as Hmf'. pose proof (not_eq_sym Hf1) as Hf1'.
  intros Hr. rw /relay. apply (ends_in_bind (λ _ s', relayed s')).
  { rw /ends_in /tchecked. destruct (tcall_sc (sc_select m) s) as (o & s' & H & r & E & Ho).
    destruct (sc_select_ok _ _ _ _ E) as (Ht & Hv & Hg & Hp). rw (bind_Ret _ _ _ _ _ H).
    assert (relayed s') as Hr' by (by rw /relayed Hg Hp). destruct o as [rd|]; [done|].
    pose proof (terrExit_ends (cs "select") (λ (_ : bool * bool) s', relayed s') s' (relayed_relaying _ Hr')) as He.
    rw /ends_in in He. destruct (terrExit (cs "select") s') as [[| | | |] s'']; try done; by rw -Ht -Hv. }
  intros [b1 b2] s1 Hr1. cbn [fst snd]. apply (ends_in_bind (λ _ s', relayed s')).
  { destruct b1; [|by split_and!]. cbn [when]. apply (ends_in_bind _ _ _ _ _ (read_some_ends STDIN_FILENO s1 Hr1)).
    intros d s2 [Hp Hg]. destruct Hr1 as (typed & shown & R0 & R1 & R2 & R3 & R4).
    assert (got s2 STDIN_FILENO = sc_got b STDIN_FILENO ++ typed ++ d) as G0 by (by rw Hg upd_eq R0 app_assoc).
    assert (got s2 m = sc_got b m ++ shown) as Gm by (by rw Hg upd_ne // R2). eapply ends_in_conseq; [apply write_all_ends|].
    - intros n s' Hg' Hp'. exists (typed ++ d), (typed ++ take n d), shown, shown, shown.
      rw Hg' !Hp' Hp upd_eq !(upd_ne _ m) // R1 R3 R4 -?app_assoc. split_and!; try done. all: apply prefix_app, prefix_take.
    - intros _ s' [Hg' Hp']. exists (typed ++ d), shown. rw Hg' Hp' Hp upd_eq !(upd_ne _ m) // R1 R3 R4 -?app_assoc. done. }
  intros _ s2 Hr2. destruct b2; [|by split_and!]. cbn [when].
  apply (ends_in_bind _ _ _ _ _ (read_some_ends m s2 Hr2)). intros d s3 [Hp Hg].
  destruct Hr2 as (typed & shown & R0 & R1 & R2 & R3 & R4).
  assert (got s3 STDIN_FILENO = sc_got b STDIN_FILENO ++ typed) as G0 by (by rw Hg upd_ne // R0).
  assert (got s3 m = sc_got b m ++ shown ++ d) as Gm by (by rw Hg upd_eq R2 app_assoc).
  eapply ends_in_bind; [apply write_all_ends|].
  - intros n s' Hg' Hp'. exists typed, typed, (shown ++ d), (shown ++ take n d), shown.
    rw Hg' !Hp' Hp upd_eq !(upd_ne _ STDOUT_FILENO) // R1 R3 R4 -?app_assoc.
    split_and!; try done; [apply prefix_app, prefix_take|by apply prefix_app_r].
  - intros _ s4 [Hg4 Hp4].
    assert (put s4 m = sc_put b m ++ typed ∧ put s4 STDOUT_FILENO = sc_put b STDOUT_FILENO ++ shown ++ d ∧
      put s4 f = sc_put b f ++ shown) as (P1 & P2 & P3).
    { rw Hp4 Hp upd_eq !(upd_ne _ STDOUT_FILENO) // R1 R3 R4 -?app_assoc. done. }
    eapply ends_in_conseq; [apply write_all_ends|].
    + intros n s' Hg' Hp'. exists typed, typed, (shown ++ d), (shown ++ d), (shown ++ take n d).
      rw Hg' Hg4 !Hp' upd_eq !(upd_ne _ f) // P1 P2 P3 -?app_assoc. split_and!; try done. all: apply prefix_app, prefix_take.
    + intros _ s' [Hg' Hp']. exists typed, (shown ++ d). rw Hg' Hg4 Hp' upd_eq !(upd_ne _ f) // P1 P2 P3 -?app_assoc. done.
Qed.

Lemma relay_loop_ends fuel s : relayed s → ends_in (λ _ _, False) (relay_loop fuel m f) s.
Proof.
  elim: fuel s => [|fuel IH] s Hr; [exact Hr|]. cbn [relay_loop].
  apply (ends_in_bind _ _ _ _ _ (relay_ends s Hr)). intros _ s1. apply IH.
Qed.
End proofs.

Section parent.
Context {K : Type} `{!TlpiEnv K, !DaemonOS K, !DaemonOSOk K, !PtyOS K, !PtyOSOk K, !ScriptOS K, !ScriptOSOk K}.
Implicit Types s : tproc K.
Abbreviation view s := (dk_view (t_os s)).
Abbreviation terms s := (pk_terms (t_os s)).
Abbreviation got s := (sc_got (t_os s)).
Abbreviation put s := (sc_put (t_os s)).

(** A terminal can be set and a handler be registered. *)
Definition script_works : Prop := PtyWorks K ∧ ∀ k, (sc_atexit k).1 = true.

(** Nothing was read or written. *)
Definition quiet s s' : Prop := got s' = got s ∧ put s' = put s.

Lemma quiet_trans s1 s2 s3 : quiet s1 s2 → quiet s2 s3 → quiet s1 s3.
Proof. rw /quiet. intros [-> ->]. done. Qed.

Lemma quiet_relayed m f s s' : quiet s s' → relayed m f (t_os s) s'.
Proof. intros [Hg Hp]. exists [], []. by rw Hg Hp !app_nil_r. Qed.

(** The terminal [p] has the attributes [t], everything else is as in [ts]. *)
Definition attr_set (ts : terminals) (p : cstring) (t : termios) : terminals :=
  Terminals (t_ctty ts) (<[p := t]> (t_attr ts)) (t_win ts).

Lemma attr_set_id ts p t : t_attr ts !! p = Some t → attr_set ts p t = ts.
Proof. intros H. rw /attr_set insert_id //. by destruct ts. Qed.
Lemma attr_set_set ts p t t' : attr_set (attr_set ts p t) p t' = attr_set ts p t'.
Proof. by rw /attr_set /= insert_insert_eq. Qed.

(** Raw mode is set or not; the attributes to restore are those of [p]. *)
Lemma ttySetRaw_keeps p t0 s :
  pv_fds (view s) !! STDIN_FILENO = Some p → t_attr (terms s) !! p = Some t0 →
  ∃ r s', ttySetRaw STDIN_FILENO s = (Ret r, s') ∧ view s' = view s ∧ quiet s s' ∧
    default t0 r.2 = t0 ∧ (terms s' = terms s ∨ terms s' = attr_set (terms s) p (raw t0)).
Proof.
  intros Hp Ht. rw /ttySetRaw /ttySet.
  destruct (tcall_sc (pk_tcgetattr STDIN_FILENO) s) as (o & s1 & H1 & r1 & E1 & Ho1). rw (bind_Ret _ _ _ _ _ H1).
  destruct (sc_tcgetattr_ok _ _ _ _ E1) as (Ht1 & Hv1 & Hg1 & Hp1 & Ha1).
  destruct o as [t|]; [subst r1|eexists _, s1; split_and!; try done; by left].
  assert (t = t0) as -> by (specialize (Ha1 t p eq_refl Hp); congruence).
  destruct (tcall_sc (pk_tcsetattr STDIN_FILENO (raw t0)) s1) as (o & s2 & H2 & r2 & E2 & Ho2). rw (bind_Ret _ _ _ _ _ H2).
  destruct (sc_tcsetattr_keeps _ _ _ _ _ E2) as [Hg2 Hp2]. destruct o as [[]|].
  - subst r2. destruct (pk_tcsetattr_ok _ _ _ _ p E2) as [Hv2 Ht2]; [by rw Hv1|].
    eexists _, s2. split; [done|]. rw /quiet Hg2 Hp2 Hv2 Ht2 /attr_set Ht1. split_and!; try done. by right.
  - destruct Ho2 as [e ->]. destruct (sc_tcsetattr_fails _ _ _ _ _ E2) as [Ht2 Hv2].
    eexists _, s2. split; [done|]. rw /quiet Hg2 Hp2 Hv2 Ht2 Ht1. split_and!; try done. by left.
Qed.

(** The handler puts the attributes back, or ends the program with a failure. *)
Lemma ttyReset_resets p t0 ts s :
  pv_fds (view s) !! STDIN_FILENO = Some p → t_attr ts !! p = Some t0 →
  terms s = ts ∨ terms s = attr_set ts p (raw t0) →
  match ttyReset t0 s with
  | (Ret _, s') => terms s' = ts ∧ quiet s s'
  | (Exit n, s') => n = EXIT_FAILURE ∧ quiet s s' ∧ ¬ script_works
  | (Abort, s') => quiet s s'
  | _ => False
  end.
Proof.
  intros Hp Ht Hts. rw /ttyReset /tchecked.
  destruct (tcall_sc (pk_tcsetattr STDIN_FILENO t0) s) as (o & s1 & H1 & r1 & E1 & Ho1). rw (bind_Ret _ _ _ _ _ H1).
  pose proof (sc_tcsetattr_keeps _ _ _ _ _ E1) as Hq. destruct o as [[]|].
  - subst r1. destruct (pk_tcsetattr_ok _ _ _ _ p E1) as [_ Ht1]; [done|]. split; [|done].
    rw Ht1 -/(attr_set _ _ _). destruct Hts as [-> | ->]; rw ?attr_set_set; by apply attr_set_id.
  - destruct Ho1 as [e ->]. rw /terrExit /io errExit_eq. case_bool_decide; cbn; [done|].
    split_and!; [done|done|]. intros [w _]. destruct (pw_tcsetattr STDIN_FILENO t0 (t_os s)) as [k' H']; [by exists p|congruence].
Qed.

Lemma relayed_quiet m f k s s' : quiet s s' → relayed m f k s → relayed m f k s'.
Proof. rw /relayed. by intros [-> ->]. Qed.
Lemma relaying_quiet m f k s s' : quiet s s' → relaying m f k s → relaying m f k s'.
Proof. rw /relaying. by intros [-> ->]. Qed.

(** The relay with the handler set, from a state like [s] but for the mode of
    the terminal. *)
Lemma at_exit_relays fuel m f p t0 ts k s :
  pv_fds (view s) !! STDIN_FILENO = Some p → t_attr ts !! p = Some t0 →
  terms s = ts ∨ terms s = attr_set ts p (raw t0) →
  m ≠ STDIN_FILENO → m ≠ STDOUT_FILENO → m ≠ f → f ≠ STDOUT_FILENO → relayed m f k s →
  match with_atexit (ttyReset t0) (relay_loop fuel m f) s with
  | (Exit n, s') => relaying m f k s' ∧ (n = EXIT_SUCCESS → relayed m f k s' ∧ terms s' = ts) ∧
      (script_works → terms s' = ts)
  | (Abort, s') => relaying m f k s'
  | (NoFuel, s') => relayed m f k s'
  | _ => False
  end.
Proof.
  intros Hp Ht Hts Hm0 Hm1 Hmf Hf1 Hr.
  pose proof (relay_loop_ends m f k Hm0 Hm1 Hmf Hf1 fuel s Hr) as He. rw /ends_in in He. rw /with_atexit.
  destruct (relay_loop fuel m f s) as [[a|n| | |] s1]; try done; [naive_solver|].
  destruct He as (Ht1 & Hv1 & Hr1 & Hs1).
  pose proof (ttyReset_resets p t0 ts s1) as H. rw Hv1 Ht1 in H. specialize (H Hp Ht Hts).
  destruct (ttyReset t0 s1) as [[[]|e| | |] s2]; try done.
  - destruct H as [-> Hq]. split_and!; [by apply (relaying_quiet _ _ _ s1)|intros ->; split; [|done]|done].
    apply (relayed_quiet _ _ _ s1); [done|]. by apply Hs1.
  - destruct H as (-> & Hq & Hw). split_and!; [by apply (relaying_quiet _ _ _ s1)|done|done].
  - by apply (relaying_quiet _ _ _ s1).
Qed.

Lemma script_parent_ends fuel m p t0 argv s :
  pv_fds (view s) !! STDIN_FILENO = Some p → is_Some (pv_fds (view s) !! STDOUT_FILENO) →
  is_Some (pv_fds (view s) !! m) → m ≠ STDIN_FILENO → m ≠ STDOUT_FILENO →
  t_attr (terms s) !! p = Some t0 →
  let on R s' := ∃ f, lowest_free (pv_fds (view s)) f ∧ R m f (t_os s) s' in
  match script_parent fuel m t0 argv s with
  | (Exit n, s') => (quiet s s' ∨ on relaying s') ∧
      (n = EXIT_SUCCESS → on relayed s' ∧ terms s' = terms s) ∧ (script_works → terms s' = terms s)
  | (Abort, s') => quiet s s' ∨ on relaying s'
  | (NoFuel, s') => on relayed s'
  | (Ret _, _) | (Crash, _) => False
  end.
Proof.
  intros Hp Ho Hm Hm0 Hm1 Ht on. rw /script_parent. set (file := match argv with _ :: _ :: _ => _ | _ => _ end).
  rw {1}/tchecked. destruct (tcall_sc (sc_open file) s) as (o & s1 & H1 & r1 & E1 & Ho1).
  destruct (sc_open_keeps _ _ _ _ E1) as (Ht1 & Hq1). rw bind_assoc (bind_Ret _ _ _ _ _ H1). destruct o as [f|].
  2: { rw /mbind /M_bind /terrExit /io errExit_eq. case_bool_decide; cbn; [by left|].
       split_and!; [by left|done|done]. }
  subst r1. destruct (sc_open_ok _ _ _ _ E1) as [Hlow Hv1].
  assert (∀ x, is_Some (pv_fds (view s) !! x) → x ≠ f) as Hne.
  { intros x Hx ->. destruct Hlow as (_ & Hn & _). rw Hn in Hx. by destruct Hx. }
  assert (pv_fds (view s1) !! STDIN_FILENO = Some p) as Hp1.
  { rw Hv1 /=. rw lookup_insert_ne //. apply not_eq_sym, Hne. by exists p. }
  rw (bind_Ret (mret f) _ _ _ _ eq_refl).
  destruct (ttySetRaw_keeps p t0 s1) as (r & s2 & H2 & Hv2 & Hq2 & Hd & Hts2); [done|by rw Ht1|].
  rw (bind_Ret _ _ _ _ _ H2) Hd. rw Ht1 in Hts2.
  destruct (sc_atexit (t_os s2)) as [b k3] eqn:E3. destruct (sc_atexit_ok _ _ _ E3) as (Ht3 & Hv3 & Hq3).
  set (s3 := TProc (t_io s2) k3). rw (bind_Ret (tsys sc_atexit) _ s2 b s3); [by rw /tsys E3|].
  assert (quiet s s3) as Hq by (apply (quiet_trans _ s1); [done|]; by apply (quiet_trans _ s2)).
  destruct b; cbn [negb].
  - assert (pv_fds (view s3) !! STDIN_FILENO = Some p) as Hp3 by (by rw /= Hv3 Hv2).
    assert (terms s3 = terms s ∨ terms s3 = attr_set (terms s) p (raw t0)) as Hts3 by (by rw /= Ht3).
    pose proof (at_exit_relays fuel m f p t0 (terms s) (t_os s) s3 Hp3 Ht Hts3 Hm0 Hm1 (Hne m Hm)
      (not_eq_sym (Hne _ Ho)) (quiet_relayed m f s s3 Hq)) as H.
    rw /on. destruct (with_atexit _ _ s3) as [[a|n| | |] s4]; try done; eauto 10. naive_solver.
  - rw /terrExit /io errExit_eq. case_bool_decide; cbn; [by left|]. split_and!; [by left|done|].
    intros [_ w]. specialize (w (t_os s2)). by rw E3 in w.
Qed.

(** C14: The recorder copies everything that is typed to the program on the
    pseudoterminal and everything that comes from it both to the terminal and to
    the typescript, in order and without loss or duplication, as long as it
    runs and when it ends normally; if it ends with an error, what was written is
    a beginning of what was read.  When it ends normally the terminal has the
    attributes it had before; the same after an error if the handler could be
    registered and the terminal could be set. *)
Theorem script_parent_relays fuel m p t0 argv s :
  pv_fds (view s) !! STDIN_FILENO = Some p → is_Some (pv_fds (view s) !! STDOUT_FILENO) →
  is_Some (pv_fds (view s) !! m) → m ≠ STDIN_FILENO → m ≠ STDOUT_FILENO →
  t_attr (terms s) !! p = Some t0 →
  let on R s' := ∃ f, lowest_free (pv_fds (view s)) f ∧ R m f (t_os s) s' in
  match script_parent fuel m t0 argv s with
  | (Exit n, s') => (quiet s s' ∨ on relaying s') ∧
      (n = EXIT_SUCCESS → on relayed s' ∧ terms s' = terms s) ∧ (script_works → terms s' = terms s)
  | (Abort, s') => quiet s s' ∨ on relaying s'
  | (NoFuel, s') => on relayed s'
  | (Ret _, _) | (Crash, _) => False
  end.
Proof. apply script_parent_ends. Qed.

(** The child as the shell: it runs on a pseudoterminal with the attributes of
    the user's terminal; the parent gives the terminal back as it was. *)
Lemma script_main_ends fuel argv p t0 s :
  pv_fds (view s) !! STDIN_FILENO = Some p → is_Some (pv_fds (view s) !! STDOUT_FILENO) →
  t_attr (terms s) !! p = Some t0 →
  match script_main fuel argv s with
  | (Ret (ShellRuns shell), s') => shell ≠ [] ∧ ∃ slave ws, on_slave slave (Some t0) (Some ws) (view s) s'
  | (Exit n, s') => n = EXIT_SUCCESS → terms s' = terms s
  | (Crash, _) => False
  | _ => True
  end.
Proof.
  intros Hp Ho Ht. rw /script_main {1}/tchecked bind_assoc.
  destruct (tcall_sc (pk_tcgetattr STDIN_FILENO) s) as (o & s1 & H1 & r1 & E1 & Ho1). rw (bind_Ret _ _ _ _ _ H1).
  destruct (sc_tcgetattr_ok _ _ _ _ E1) as (Ht1 & Hv1 & _ & _ & Ha1).
  destruct o as [t|]; [subst r1|by rw /mbind /M_bind /terrExit /io errExit_eq; case_bool_decide].
  assert (t = t0) as -> by (specialize (Ha1 t p eq_refl Hp); congruence).
  rw (bind_Ret (mret t0) _ _ _ _ eq_refl) bind_assoc.
  destruct (tcall_sc (pk_getwinsz STDIN_FILENO) s1) as (o & s2 & H2 & r2 & E2 & Ho2). rw (bind_Ret _ _ _ _ _ H2).
  destruct (sc_getwinsz_ok _ _ _ _ E2) as (Ht2 & Hv2).
  destruct o as [ws|]; [subst r2|by rw /mbind /M_bind /terrExit /io errExit_eq; case_bool_decide].
  rw (bind_Ret (mret ws) _ _ _ _ eq_refl).
  pose proof (ptyFork_ok (Some MAX_SNAME) (Some t0) (Some ws) s2) as HF. rw /strict in HF.
  destruct (ptyFork _ _ _ s2) as [[fk|n| | |] s3] eqn:EF; rw {1}/mbind /M_bind EF; [|naive_solver..].
  destruct fk as [|pid mfd name|].
  - by rw /terrExit /io errExit_eq; case_bool_decide.
  - destruct HF as (_ & _ & _ & _ & _ & _ & _ & Hlow & Hv3 & Ht3). rw Hv2 Hv1 in Hlow Hv3. rw Ht2 Ht1 in Ht3.
    assert (∀ x, is_Some (pv_fds (view s) !! x) → mfd ≠ x ∧ pv_fds (view s3) !! x = pv_fds (view s) !! x) as Hne.
    { intros x Hx. assert (mfd ≠ x) as Hx' by (intros ->; destruct Hlow as (_ & Hn & _); rw Hn in Hx; by destruct Hx).
      split; [done|]. by rw Hv3 /= lookup_insert_ne. }
    destruct (Hne STDIN_FILENO) as [Hm0 H0]; [by exists p|]. destruct (Hne STDOUT_FILENO Ho) as [Hm1 H1'].
    pose proof (script_parent_ends fuel mfd p t0 argv s3) as H. rw H0 H1' Ht3 in H.
    specialize (H Hp Ho ltac:(rw Hv3 /= lookup_insert_eq; by eexists) Hm0 Hm1 Ht). cbv zeta in H.
    destruct (script_parent fuel mfd t0 argv s3) as [[[]|n| | |] s4]; try done. intros Hn. destruct H as (_ & H & _). by destruct (H Hn).
  - destruct HF as (_ & slave & _ & _ & _ & Hs). rw /run_shell. set (sh := match _ with Some _ => _ | None => _ end).
    assert (sh ≠ []) as Hsh by (rw /sh; by destruct (sc_getenv _ _) as [[|]|]).
    destruct (tcall_sc (sc_execlp sh) s3) as (o & s4 & H4 & r4 & E4 & Ho4). rw (bind_Ret _ _ _ _ _ H4).
    destruct (sc_execlp_ok _ _ _ _ E4) as [Ht4 Hv4].
    destruct o; [|by rw /terrExit /io errExit_eq; case_bool_decide].
    split; [done|]. exists slave, ws. rw Hv2 Hv1 in Hs. destruct Hs. by split; rw ?Ht4 ?Hv4.
Qed.
End parent.

(** ** A session on the kernel of Pty *)

Import PtySim.

Module ScriptSim.
Definition chan_read (fd : Z) (n : nat) (k : kern) : res (list ascii) * kern :=
  let c := k_chan k in
  match c_in c with
  | (fd', d) :: l =>
      if fd' =? fd then
        let rest := match drop n d with [] => l | d' => (fd, d') :: l end in
        (inr (take n d), set_chan k (Channels rest (upd (c_got c) fd (take n d)) (c_put c)))
      else (inl EAGAIN, k)
  | [] => (inr [], set_chan k (Channels [] (upd (c_got c) fd []) (c_put c)))
  end.

#[export] Instance script_sim : ScriptOS kern := {
  sc_select m k := match c_in (k_chan k) with
    | (fd, _) :: _ => (inr (fd =? STDIN_FILENO, fd =? m), k)
    | [] => (inr (true, true), k)
    end;
  sc_read := chan_read;
  sc_write fd d k :=
    (inr (length d), set_chan k (Channels (c_in (k_chan k)) (c_got (k_chan k)) (upd (c_put (k_chan k)) fd d)));
  sc_open := open_on;
  sc_atexit k := (true, k);
  sc_getenv _ _ := None;
  sc_execlp _ k := (inr tt, k);
}.

#[export, refine] Instance script_sim_ok : ScriptOSOk kern := {
  sc_got k := c_got (k_chan k); sc_put k := c_put (k_chan k) }.
Proof.
  - intros fd k r k'. cbn. destruct (pv_fds (k_view k) !! fd) as [q|] eqn:Eq; cbn; [|by intros [= <- <-]].
    destruct (t_attr (k_terms k) !! q) eqn:Et; intros [= <- <-]; split_and!; try done; naive_solver.
  - intros fd k r k'. cbn. by case_match; intros [= _ <-].
  - by intros sh k r k' [= _ <-].
  - intros fd t k e k'. cbn. rw /on_fd. case_match; [done|]. by intros [= _ <-].
  - intros fd t k r k'. cbn. rw /on_fd. by case_match; intros [= _ <-].
  - by intros p k r k' [= _ <-].
  - intros p k fd k' [= <- <-]. split; [apply lowest_spec|done].
  - by intros k b k' [= _ <-].
  - intros m k r k'. cbn. by destruct (c_in (k_chan k)) as [|[] ?]; intros [= _ <-].
  - intros fd n k r k'. cbn. rw /chan_read. destruct (c_in (k_chan k)) as [|[fd' d] l]; [by intros [= <- <-]|].
    by destruct (fd' =? fd); intros [= <- <-].
  - intros fd d k r k' [= <- <-]. cbn. by rw firstn_all.
Defined.

Definition tty : cstring := cs "/dev/tty".
Definition cooked : termios := Termios 1280 5 191 35387 (repeat 0 19).

(** The standard descriptors on the terminal, the master at 3. *)
Definition session (input : list (Z * list ascii)) : tproc kern :=
  TProc (EState [] [] [] 0)
    (Kern (PView 120 120 100 true 18 (cs "/") {[0 := tty; 1 := tty; 2 := tty; 3 := PTMX]}) []
       (Terminals (Some tty) {[tty := cooked]} ∅) (cs "/dev/pts/3") (Channels input (λ _, []) (λ _, []))).
End ScriptSim.
Import ScriptSim.

Lemma script_parent_relays_witness :
  ∃ s', let input := [(0, cs "ls"); (3, cs "ls"); (3, cs "a b")] in
    script_parent 4 3 cooked [cs "script"] (session input) = (Exit EXIT_SUCCESS, s') ∧
    pk_terms (t_os s') = pk_terms (t_os (session input)) ∧
    (∃ f, lowest_free (pv_fds (dk_view (t_os (session input)))) f ∧ relayed 3 f (t_os (session input)) s') ∧
    sc_put (t_os s') 4 = cs "lsa b".
Proof.
  set (input := [(0, cs "ls"); (3, cs "ls"); (3, cs "a b")]).
  pose proof (script_parent_relays 4 3 tty cooked [cs "script"] (session input)) as H.
  specialize (H ltac:(reflexivity) ltac:(by vm_compute; eauto) ltac:(by vm_compute; eauto) ltac:(done) ltac:(done) ltac:(reflexivity)).
  destruct (script_parent 4 3 cooked [cs "script"] (session input)) as [o s'] eqn:E. exists s'.
  assert (o = Exit EXIT_SUCCESS) as ->.
  { assert (fst (script_parent 4 3 cooked [cs "script"] (session input)) = Exit EXIT_SUCCESS) as E' by (by vm_compute).
    by rw E in E'. }
  destruct H as (_ & H & _). destruct (H eq_refl) as [Hr Ht]. cbv zeta. split_and!; [done|done|exact Hr|].
  replace s' with (snd (script_parent 4 3 cooked [cs "script"] (session input))) by (by rw E). by vm_compute.
Defined.
