(* ===== verification/TtyTest.v ===== *)
(** * A terminal mode across signals and stops: [tty/test_tty_functions.c]

    The program puts the terminal in cbreak or raw mode and echoes what is
    typed.  Its handlers give the terminal back when the program is ended or
    stopped, and take it again when it continues.  Here the main program and
    the handlers that have interrupted it are a stack, a signal may arrive
    before each of their system calls, and the user may change the terminal
    while the program is stopped. *)

From S2P Require Import Prelude CStdlib Tlpi Pty.

Inductive sig := SigQuit | SigInt | SigTstp | SigTerm.
#[export] Instance sig_eq_dec : EqDecision sig.
Proof. solve_decision. Defined.

Inductive disp := SigDfl | SigIgn | Handler | TstpHandler.
#[export] Instance disp_eq_dec : EqDecision disp.
Proof. solve_decision. Defined.

Definition upd_sig {A} (f : sig → A) (g : sig) (a : A) : sig → A :=
  λ x, if decide (x = g) then a else f x.

(** ** What is echoed *)

Definition isalpha (c : ascii) : bool :=
  bool_decide (65 ≤ byte_Z c ≤ 90) || bool_decide (97 ≤ byte_Z c ≤ 122).
Definition tolower (c : ascii) : ascii :=
  if bool_decide (65 ≤ byte_Z c ≤ 90) then Z_byte (byte_Z c + 32) else c.
Definition iscntrl (c : ascii) : bool := bool_decide (byte_Z c < 32) || bool_decide (byte_Z c = 127).
Definition CR : ascii := "013".

Definition echo_char (c : ascii) : cstring :=
  if isalpha c then [tolower c]
  else if bool_decide (c = NL) || bool_decide (c = CR) then [c]
  else if iscntrl c then ["^"%char; Z_byte (Z.lxor (byte_Z c) 64)]
  else ["*"%char].

(** ** The state *)

(** The main program before each of its calls; [MAsk] and [MSet] are the two
    calls of sigaction for a signal, [MEcho] the echo of what was read. *)
Inductive tty_pc := MMode | MAsk (g : sig) | MSet (g : sig) | MTerm | MLoop | MEcho (c : ascii) | MReset | MExit.
#[export] Instance mpc_eq_dec : EqDecision tty_pc.
Proof. solve_decision. Defined.

(** [handler]: before tcsetattr, before _exit. *)
Inductive handler_pc := HReset | HExit.
(** [tstpHandler]: before each of its calls, and before its return. *)
Inductive tstp_pc := TGet | TRestore | TDefault | TRaise | TUnblock | TBlock | TAction | TSave | TOurs | TReturn.

(** A handler that runs, with the signal mask to restore when it returns;
    [tstpHandler] has [ourTermios] and [prevMask]. *)
Inductive frame :=
  | FHandler (pc : handler_pc)
  | FTstp (pc : tstp_pc) (ours : termios) (prevMask saved : sig → bool).

Inductive pstatus := Running | Stopped | Ended (status : Z) | Killed (g : sig).

(** [x_user] is the variable userTermios; [x_wanted] are the settings that the
    user gave the terminal last; [x_in] and [x_out] what was read and echoed. *)
Record ttystate := XState {
  x_status : pstatus;
  x_tty : termios;
  x_user : termios;
  x_wanted : termios;
  x_disp : sig → disp;
  x_mask : sig → bool;
  x_pending : bool;
  x_stack : list frame;
  x_main : tty_pc;
  x_in : list ascii;
  x_out : cstring }.

Section program.
(** [argc > 1]. *)
Context (cb : bool).
Definition mode (t : termios) : termios := if cb then cbreak t else raw t.

Definition set_status (s : ttystate) (p : pstatus) : ttystate :=
  XState p (x_tty s) (x_user s) (x_wanted s) (x_disp s) (x_mask s) (x_pending s) (x_stack s) (x_main s) (x_in s) (x_out s).
Definition set_tty (s : ttystate) (t : termios) : ttystate :=
  XState (x_status s) t (x_user s) (x_wanted s) (x_disp s) (x_mask s) (x_pending s) (x_stack s) (x_main s) (x_in s) (x_out s).
Definition set_user (s : ttystate) (t : termios) : ttystate :=
  XState (x_status s) (x_tty s) t (x_wanted s) (x_disp s) (x_mask s) (x_pending s) (x_stack s) (x_main s) (x_in s) (x_out s).
Definition set_wanted (s : ttystate) (t : termios) : ttystate :=
  XState (x_status s) (x_tty s) (x_user s) t (x_disp s) (x_mask s) (x_pending s) (x_stack s) (x_main s) (x_in s) (x_out s).
Definition set_disp (s : ttystate) (g : sig) (d : disp) : ttystate :=
  XState (x_status s) (x_tty s) (x_user s) (x_wanted s) (upd_sig (x_disp s) g d) (x_mask s) (x_pending s) (x_stack s) (x_main s) (x_in s) (x_out s).
Definition set_mask (s : ttystate) (m : sig → bool) : ttystate :=
  XState (x_status s) (x_tty s) (x_user s) (x_wanted s) (x_disp s) m (x_pending s) (x_stack s) (x_main s) (x_in s) (x_out s).
Definition set_pending (s : ttystate) (b : bool) : ttystate :=
  XState (x_status s) (x_tty s) (x_user s) (x_wanted s) (x_disp s) (x_mask s) b (x_stack s) (x_main s) (x_in s) (x_out s).
Definition set_stack (s : ttystate) (l : list frame) : ttystate :=
  XState (x_status s) (x_tty s) (x_user s) (x_wanted s) (x_disp s) (x_mask s) (x_pending s) l (x_main s) (x_in s) (x_out s).
Definition set_main (s : ttystate) (pc : tty_pc) : ttystate :=
  XState (x_status s) (x_tty s) (x_user s) (x_wanted s) (x_disp s) (x_mask s) (x_pending s) (x_stack s) pc (x_in s) (x_out s).
Definition set_io (s : ttystate) (i : list ascii) (o : cstring) : ttystate :=
  XState (x_status s) (x_tty s) (x_user s) (x_wanted s) (x_disp s) (x_mask s) (x_pending s) (x_stack s) (x_main s) i o.

(** ** Signals *)

(** The signal takes effect.  While a handler runs, its signal is blocked. *)
Definition deliver (g : sig) (s : ttystate) : ttystate :=
  let enter f := set_mask (set_stack s (f :: x_stack s)) (upd_sig (x_mask s) g true) in
  match x_disp s g with
  | SigIgn => s
  | SigDfl => set_status s (if decide (g = SigTstp) then Stopped else Killed g)
  | Handler => enter (FHandler HReset)
  | TstpHandler => enter (FTstp TGet (x_tty s) (x_mask s) (x_mask s))
  end.

(** A signal that is blocked waits.  Only SIGTSTP is unblocked again before the
    program ends. *)
Definition send (g : sig) (s : ttystate) : ttystate :=
  if x_mask s g then if decide (g = SigTstp) then set_pending s true else s else deliver g s.

(** The mask is set; a SIGTSTP that was waiting is delivered. *)
Definition new_mask (m : sig → bool) (s : ttystate) : ttystate :=
  let s := set_mask s m in
  if x_pending s && negb (m SigTstp) then deliver SigTstp (set_pending s false) else s.

(** ** The handlers *)

Definition handler (pc : handler_pc) (rest : list frame) (s : ttystate) : ttystate :=
  match pc with
  | HReset => set_stack (set_tty s (x_user s)) (FHandler HExit :: rest)
  | HExit => set_status s (Ended EXIT_SUCCESS)
  end.

Definition tstpHandler (pc : tstp_pc) (ours : termios) (prevMask saved : sig → bool)
    (rest : list frame) (s : ttystate) : ttystate :=
  let at_ pc s := set_stack s (FTstp pc ours prevMask saved :: rest) in
  match pc with
  | TGet => set_stack s (FTstp TRestore (x_tty s) prevMask saved :: rest)
  | TRestore => at_ TDefault (set_tty s (x_user s))
  | TDefault => at_ TRaise (set_disp s SigTstp SigDfl)
  | TRaise => send SigTstp (at_ TUnblock s)
  | TUnblock =>
      new_mask (upd_sig (x_mask s) SigTstp false) (set_stack s (FTstp TBlock ours (x_mask s) saved :: rest))
  | TBlock => new_mask prevMask (at_ TAction s)
  | TAction => at_ TSave (set_disp s SigTstp TstpHandler)
  | TSave => at_ TOurs (set_user s (x_tty s))
  | TOurs => at_ TReturn (set_tty s ours)
  | TReturn => new_mask saved (set_stack s rest)
  end.

(** ** The main program *)

Inductive input := RChar (c : ascii) | REof | RError.

Definition handler_for (g : sig) : disp := if decide (g = SigTstp) then TstpHandler else Handler.
Definition after (g : sig) : tty_pc :=
  match g with SigQuit => MAsk SigInt | SigInt => MAsk SigTstp | _ => MTerm end.

(** [r] is what [read] returns. *)
Definition tty_main_move (r : input) (s : ttystate) : ttystate :=
  match x_main s with
  | MMode => set_main (set_user (set_tty s (mode (x_tty s))) (x_tty s)) (if cb then MAsk SigQuit else MTerm)
  | MAsk g => set_main s (if decide (x_disp s g = SigIgn) then after g else MSet g)
  | MSet g => set_main (set_disp s g (handler_for g)) (after g)
  | MTerm => set_main (set_disp s SigTerm Handler) MLoop
  | MLoop =>
      match r with
      | RChar c => set_main (set_io s (x_in s ++ [c]) (x_out s)) (MEcho c)
      | REof | RError => set_main s MReset
      end
  | MEcho c =>
      set_main (set_io s (x_in s) (x_out s ++ echo_char c)) (if bool_decide (c = "q"%char) then MReset else MLoop)
  | MReset => set_main (set_tty s (x_user s)) MExit
  | MExit => set_status s (Ended EXIT_SUCCESS)
  end.

Definition own_move (r : input) (s : ttystate) : ttystate :=
  match x_stack s with
  | FHandler pc :: rest => handler pc rest s
  | FTstp pc ours prevMask saved :: rest => tstpHandler pc ours prevMask saved rest s
  | [] => tty_main_move r s
  end.

(** The calls whose failure ends the program. *)
Definition may_fail (s : ttystate) : bool :=
  match x_stack s with
  | FHandler HReset :: _ => true
  | FHandler HExit :: _ => false
  | FTstp (TRaise | TReturn) _ _ _ :: _ => false
  | FTstp _ _ _ _ :: _ => true
  | [] => match x_main s with MLoop | MEcho _ | MExit => false | _ => true end
  end.

(** ** Steps *)

(** The program, a call that fails, a signal, SIGCONT, the user. *)
Inductive action := Own (r : input) | CallFails | Send (g : sig) | Continue | UserSets (t : termios).

Definition act (a : action) (s : ttystate) : option ttystate :=
  match x_status s, a with
  | Running, Own r => Some (own_move r s)
  | Running, CallFails => if may_fail s then Some (set_status s (Ended EXIT_FAILURE)) else None
  | Running, Send g => Some (send g s)
  | (Running | Stopped), Continue => Some (set_pending (set_status s Running) false)
  | Stopped, UserSets t => Some (set_wanted (set_tty s t) t)
  | _, _ => None
  end.

Definition in_loop (pc : tty_pc) : bool := match pc with MLoop | MEcho _ => true | _ => false end.

(** Signals come while the main program is in its loop and no handler runs, or
    are blocked; a program in raw mode is not stopped; when the program is
    stopped once more it is at the point where it stops itself. *)
Definition calm (a : action) (s : ttystate) : bool :=
  match a with
  | Send g => x_mask s g ||
      match x_stack s with
      | [] => in_loop (x_main s) && (cb || negb (bool_decide (g = SigTstp)))
      | FTstp TBlock _ _ _ :: _ => bool_decide (g = SigTstp)
      | _ => false
      end
  | _ => true
  end.

Definition tty_step (s s' : ttystate) : Prop := ∃ a, act a s = Some s'.
Definition calm_step (s s' : ttystate) : Prop := ∃ a, calm a s = true ∧ act a s = Some s'.

(** The program as it is started: the settings of the terminal, and the
    dispositions, which are the default or ignored. *)
Definition tty_start (t : termios) (ignored : sig → bool) : ttystate :=
  XState Running t (Termios 0 0 0 0 []) t (λ g, if ignored g then SigIgn else SigDfl) (λ _, false) false
    [] MMode [] [].
End program.

(** ** The terminal between the program and the user *)

Section proofs.
Context (cb : bool) (t0 : termios).
Implicit Types s : ttystate.

(** Outside the handlers the program has the terminal in its mode and knows the
    user's settings. *)
Definition main_ok s : Prop :=
  match x_main s with
  | MMode => x_tty s = t0 ∧ x_wanted s = t0
  | MExit => x_tty s = x_wanted s
  | _ => x_tty s = mode cb t0 ∧ x_user s = x_wanted s
  end.

Definition tstp_ok (pc : tstp_pc) (ours : termios) s : Prop :=
  match pc with
  | TGet | TReturn => x_tty s = mode cb t0 ∧ x_user s = x_wanted s
  | TRestore => ours = mode cb t0 ∧ x_tty s = mode cb t0 ∧ x_user s = x_wanted s
  | TDefault | TRaise | TUnblock | TOurs => ours = mode cb t0 ∧ x_tty s = x_wanted s ∧ x_user s = x_wanted s
  | TBlock | TAction | TSave => ours = mode cb t0 ∧ x_tty s = x_wanted s
  end.

Definition tstp_mask (pc : tstp_pc) (g : sig) : bool :=
  match pc with TBlock => false | _ => bool_decide (g = SigTstp) end.

Definition stack_ok s : Prop :=
  match x_stack s with
  | [] => (∀ g, x_mask s g = false) ∧ main_ok s
  | [FHandler HReset] => x_user s = x_wanted s
  | [FHandler HExit] => x_tty s = x_wanted s
  | [FTstp pc ours prev saved] =>
      cb = true ∧ in_loop (x_main s) = true ∧ (∀ g, saved g = false) ∧ (∀ g, x_mask s g = tstp_mask pc g) ∧
      (pc = TBlock → prev SigTstp = true ∧ ∀ g, g ≠ SigTstp → prev g = false) ∧ tstp_ok pc ours s
  | _ => False
  end.

(** [tstpHandler] has set the default disposition of its signal. *)
Definition defaulted (l : list frame) : bool :=
  match l with FTstp (TRaise | TUnblock | TBlock | TAction) _ _ _ :: _ => true | _ => false end.

Definition rank (g : sig) : nat := match g with SigQuit => 0 | SigInt => 1 | SigTstp => 2 | SigTerm => 3 end.
(** The signals whose handlers are set up at a point of the main program. *)
Definition installed (pc : tty_pc) (g : sig) : bool :=
  match pc with
  | MMode => false
  | MAsk h | MSet h => (rank g <? rank h)%nat
  | MTerm => cb && (rank g <? rank SigTerm)%nat
  | _ => cb || bool_decide (g = SigTerm)
  end.

Record disp_ok s : Prop := {
  d_any g : x_disp s g = SigIgn ∨ x_disp s g = SigDfl ∨ x_disp s g = handler_for g;
  d_set g : installed (x_main s) g = true → g ≠ SigTstp ∨ defaulted (x_stack s) = false → x_disp s g ≠ SigDfl;
  d_default : defaulted (x_stack s) = true → x_disp s SigTstp = SigDfl;
}.

Definition io_ok s : Prop :=
  match x_main s with
  | MEcho c => ∃ l, x_in s = l ++ [c] ∧ x_out s = mjoin (echo_char <$> l) ∧ "q"%char ∉ l
  | MLoop => x_out s = mjoin (echo_char <$> x_in s) ∧ "q"%char ∉ x_in s
  | MReset | MExit => x_out s = mjoin (echo_char <$> x_in s)
  | _ => x_in s = [] ∧ x_out s = []
  end.

Definition status_ok s : Prop :=
  match x_status s with
  | Running => stack_ok s ∧ disp_ok s
  | Stopped => (∃ ours prev saved, x_stack s = [FTstp TBlock ours prev saved]) ∧ stack_ok s ∧ disp_ok s
  | Ended n => n = EXIT_SUCCESS → x_tty s = x_wanted s
  | Killed _ => cb = false
  end.

Definition tty_inv s : Prop := status_ok s ∧ io_ok s.

Lemma tty_start_inv ignored : tty_inv (tty_start t0 ignored).
Proof.
  split; [|done]. split; [done|]. split; [|done..]. intros g. cbn. destruct (ignored g); auto.
Qed.

(** Signals and handlers leave the main program where it is. *)
Definition main_same s s' : Prop := x_main s' = x_main s ∧ x_in s' = x_in s ∧ x_out s' = x_out s.

Lemma io_same s s' : main_same s s' → io_ok s → io_ok s'.
Proof. rw /io_ok. by intros (-> & -> & ->). Qed.

Lemma deliver_same g s : main_same s (deliver g s).
Proof. rw /deliver. by destruct (x_disp s g). Qed.
Lemma send_same g s : main_same s (send g s).
Proof. rw /send. destruct (x_mask s g); [by case_decide|apply deliver_same]. Qed.
Lemma new_mask_same m s : main_same s (new_mask m s).
Proof. rw /new_mask /=. case_match; [exact (deliver_same _ _)|done]. Qed.

(** The pending signal matters to none of the conditions. *)
Lemma pending_ok s b : x_status s = Running → status_ok s → status_ok (set_pending s b).
Proof. rw /status_ok /=. intros ->. intros [Hs Hd]. by destruct Hd; split. Qed.

(** A signal that comes to the loop. *)
Lemma deliver_loop g s :
  x_status s = Running → x_stack s = [] → in_loop (x_main s) = true → (cb = false → g ≠ SigTstp) →
  status_ok s → status_ok (deliver g s).
Proof.
  destruct s as [st tty user want d mk pd stk pc i o]. cbn. intros -> -> Hl Hcb [Hs Hd]. cbn in Hs, Hd.
  destruct Hs as [Hmk Hm], Hd as [Hany Hset _]. cbn in *.
  assert (tty = mode cb t0 ∧ user = want) as [-> ->] by (by destruct pc).
  rw /deliver /=. destruct (d g) eqn:Eg.
  - destruct (decide (g = SigTstp)) as [->|Hg].
    + exfalso. destruct (bool_dec cb true) as [E|E%not_true_is_false]; [|by apply Hcb].
      apply (Hset SigTstp); [by destruct pc; rw // /installed E|by right|done].
    + cbn. destruct (bool_dec cb true) as [E|E%not_true_is_false]; [|done].
      exfalso. apply (Hset g); [by destruct pc; rw // /installed E|by left|done].
  - split; cbn; [done|]. by split.
  - split; cbn; [done|]. split; cbn; [done|auto|done].
  - assert (g = SigTstp) as ->.
    { destruct (Hany g) as [?|[?|E]]; [congruence..|]. rw Eg /handler_for in E. by case_decide. }
    split; cbn; [|split; cbn; [done|auto|done]].
    split_and!; try done; [by destruct (bool_dec cb true) as [E|E%not_true_is_false]; [|destruct (Hcb E)]|]. intros g. rw /upd_sig. case_decide; [by rw bool_decide_true|].
    by rw bool_decide_false.
Qed.

Lemma send_ok g s :
  x_status s = Running → calm cb (Send g) s = true → status_ok s → status_ok (send g s).
Proof.
  intros Hr Hc Hs. rw /send. cbn in Hc. destruct (x_mask s g) eqn:Em; cbn in Hc.
  { case_decide; [by apply pending_ok|done]. }
  destruct (x_stack s) as [|[pc|pc ours prev saved] rest] eqn:Est; [|done|].
  - apply andb_prop in Hc as [Hl Hg]. apply deliver_loop; try done. intros -> ->. done.
  - destruct pc; try done. apply bool_decide_eq_true in Hc as ->. rw /deliver.
    rw /status_ok Hr in Hs. destruct Hs as [Hs Hd]. rw (d_default _ Hd); [by rw Est|].
    rw /status_ok /=. rw /stack_ok Est in Hs. destruct rest; [|done].
    split; [by exists ours, prev, saved|]. split; [by rw /stack_ok /= Est|]. by destruct Hd; split.
Qed.

Lemma upd_tstp m g : (∀ x, x ≠ SigTstp → m x = false) → upd_sig m SigTstp false g = false.
Proof. intros H. rw /upd_sig. case_decide; [done|by apply H]. Qed.

(** A move of [tstpHandler]. *)
Lemma tstp_move_ok pc ours prev saved s :
  x_status s = Running → x_stack s = [FTstp pc ours prev saved] → status_ok s →
  status_ok (tstpHandler pc ours prev saved [] s).
Proof.
  destruct s as [st tty user want d mk pd stk tty_pc i o]. cbn. intros -> -> [Hs Hd]. cbn in Hs.
  destruct Hs as (Hcb & Hl & Hsv & Hmk & Hpv & Ht), Hd as [Hany Hset Hdef]. cbn in *.
  assert (∀ g, upd_sig d SigTstp SigDfl g = SigIgn ∨ upd_sig d SigTstp SigDfl g = SigDfl ∨
    upd_sig d SigTstp SigDfl g = handler_for g) as Hdfl by (intros g; rw /upd_sig; case_decide; auto).
  destruct pc; cbn in *; destruct_and? Ht; subst.
  - split; [by split_and!|]. by split.
  - split; [by split_and!|]. by split.
  - split; [by split_and!|]. split; cbn; [done| |done].
    intros g Hg [?|?]; [|done]. rw /upd_sig decide_False //. apply Hset; auto.
  - by rw /send /= Hmk bool_decide_true.
  - assert (∀ g, upd_sig mk SigTstp false g = false) as Hmk' by (intros g; apply upd_tstp; intros x Hx; by rw Hmk bool_decide_false).
    assert (mk SigTstp = true ∧ ∀ g, g ≠ SigTstp → mk g = false) as Hpv'.
    { split; [by rw Hmk bool_decide_true|]. intros g Hg. by rw Hmk bool_decide_false. }
    rw /new_mask /= andb_true_r. destruct pd.
    + rw /deliver /= Hdef //. split; cbn; [by eexists _, _, _|]. split; [by split_and!|by split].
    + split; [by split_and!|by split].
  - destruct Hpv as [Hp1 Hp2]; [done|]. rw /new_mask /= Hp1 andb_false_r. split; [|by split].
    split_and!; try done. intros g. cbn. case_bool_decide; [by subst|by apply Hp2].
  - split; [by split_and!|]. split; cbn; [|intros g Hg _|done]; rw /upd_sig.
    + intros g. case_decide; [subst; by auto|done].
    + case_decide; [done|]. apply Hset; auto.
  - split; [by split_and!|by split].
  - split; [by split_and!|by split].
  - assert (status_ok (XState Running (mode cb t0) want want d saved pd [] tty_pc i o)) as Hs.
    { split; [|by split]. split; [done|]. by destruct tty_pc. }
    rw /new_mask /= Hsv andb_true_r. destruct pd; [|done]. apply deliver_loop; try done; [congruence|].
    by apply (pending_ok _ false) in Hs.
Qed.

(** ** The main program *)

Lemma installed_after g h : installed (after g) h = true → h = g ∨ installed (MAsk g) h = true.
Proof. destruct g, h; cbn; auto; by rw andb_false_r. Qed.

Lemma main_move_ok r s :
  x_status s = Running → x_stack s = [] → status_ok s → status_ok (tty_main_move cb r s).
Proof.
  destruct s as [st tty user want d mk pd stk tty_pc i o]. cbn. intros -> -> [[Hmk Hm] [Hany Hset Hdef]]. cbn in *.
  assert (∀ g, ∀ h, upd_sig d g (handler_for g) h = SigIgn ∨ upd_sig d g (handler_for g) h = SigDfl ∨
    upd_sig d g (handler_for g) h = handler_for h) as Hupd by (intros g h; rw /upd_sig; case_decide; subst; auto).
  rw /tty_main_move /=. destruct tty_pc as [|g|g| | |c| |]; cbn in *; destruct_and? Hm; subst.
  - assert (cb = true ∨ cb = false) as Hcb by (by destruct cb; auto).
    split; [split; [done|]; rw /main_ok /=; by destruct Hcb as [E|E]; rw E|]. split; cbn; [done| |done].
    intros g. destruct Hcb as [E|E]; rw E /= ?E //.
  - destruct (decide (d g = SigIgn)) as [E|E].
    + split; [split; [done|]; by destruct g|]. split; cbn; [done| |done].
      intros h [->|H]%installed_after _; [congruence|]. by apply Hset; [|right].
    + split; [done|]. by split.
  - split; [split; [done|]; by destruct g|]. split; cbn; [done| |done].
    intros h [->|H]%installed_after _; rw /upd_sig; case_decide; try done; [by rw /handler_for; case_decide|..].
    + by rw /handler_for; case_decide.
    + by apply Hset; [|right].
  - split; [done|]. split; cbn; [exact (Hupd SigTerm)| |done].
    intros h Hh _. rw /upd_sig. case_decide; [done|]. apply Hset; [|by right]. by destruct cb, h.
  - destruct r; split; try done; by split.
  - destruct (bool_decide (c = "q"%char)); split; try done; by split.
  - split; [done|]. by split.
  - done.
Qed.

Lemma main_move_io r s : io_ok s → io_ok (tty_main_move cb r s).
Proof.
  destruct s as [st tty user want d mk pd stk tty_pc i o]. rw /io_ok /tty_main_move /=.
  destruct tty_pc as [|g|g| | |c| |]; cbn.
  - by destruct cb.
  - intros [-> ->]. case_decide; [by destruct g|done].
  - intros [-> ->]. by destruct g.
  - intros [-> ->]. split; [done|apply not_elem_of_nil].
  - intros [-> Hq]. destruct r; [|done..]. by exists i.
  - intros (l & -> & -> & Hq).
    assert (mjoin (echo_char <$> l) ++ echo_char c = mjoin (echo_char <$> l ++ [c])) as -> by (by rw fmap_app join_app /= app_nil_r).
    case_bool_decide as Hc; [done|]. split; [done|]. rw not_elem_of_app list_elem_of_singleton. naive_solver.
  - done.
  - done.
Qed.

Lemma own_move_inv r s : x_status s = Running → tty_inv s → tty_inv (own_move cb r s).
Proof.
  intros Hr [Hs Hio]. rw /own_move. destruct (x_stack s) as [|[pc|pc ours prev saved] rest] eqn:Est.
  - split; [by apply main_move_ok|by apply main_move_io].
  - split; [|by apply (io_same s); destruct pc]. rw /status_ok Hr /stack_ok Est in Hs.
    destruct Hs as [Hs [Hany Hset Hdef]], pc, rest; try done; rw /handler /status_ok /= ?Hr //.
    split; [done|]. rw Est in Hset. by split.
  - assert (rest = []) as ->. { rw /status_ok Hr /stack_ok Est in Hs. by destruct rest, Hs. }
    split; [by apply tstp_move_ok|]. apply (io_same s); [|done].
    destruct pc; try done; [exact (send_same _ _)|exact (new_mask_same _ _)..].
Qed.

Lemma calm_step_inv s s' : tty_inv s → calm_step cb s s' → tty_inv s'.
Proof.
  intros Hi (a & Hc & Ha). pose proof Hi as [Hs Hio]. rw /act in Ha.
  destruct (x_status s) as [| |n|k] eqn:Hst, a as [r| |g| |t]; simplify_eq/=.
  - by apply own_move_inv.
  - case_match; simplify_eq. by split.
  - split; [by apply send_ok|]. apply (io_same s); [apply send_same|done].
  - split; [|done]. rw /status_ok Hst in Hs. destruct Hs as [? []]. split; [done|]. by split.
  - split; [|done]. rw /status_ok Hst in Hs. destruct Hs as (_ & ? & []). split; [done|]. by split.
  - split; [|done]. rw /status_ok Hst in Hs. destruct Hs as ((ours & prev & saved & Est) & Hs & []).
    rw /status_ok /= Hst. split; [by exists ours, prev, saved|]. split; [|by split].
    rw /stack_ok /= Est in Hs |- *. destruct Hs as (? & ? & ? & ? & ? & [? _]). by split_and!.
Qed.

Lemma calm_reach ignored s : rtc (calm_step cb) (tty_start t0 ignored) s → tty_inv s.
Proof.
  apply (rtc_ind_r tty_inv); [apply tty_start_inv|]. intros s1 s2 _ Hs IH. exact (calm_step_inv _ _ IH Hs).
Qed.
End proofs.

(** C15: In the runs in which signals come only while the main program is in its loop and no handler
    runs (a blocked signal, and a second SIGTSTP at the point where the program stops
    itself, may come at any time; in raw mode no SIGTSTP comes): the program has
    the terminal in its mode whenever it is in its loop, before and after any
    number of stops; whenever it is stopped, and when it has ended through
    [exit] or a handler, the terminal has the settings the user gave it last,
    also if they were changed while the program was stopped.  In cbreak mode
    none of these signals kills it.  What was echoed corresponds to what was read, up to
    the first q.  Signals that come elsewhere can break this: see [tty_signal_race] and
    [tty_killed_in_setup] below. *)
Theorem tty_given_back cb t0 ignored s :
  rtc (calm_step cb) (tty_start t0 ignored) s →
  (x_status s = Running → in_loop (x_main s) = true → x_stack s = [] → x_tty s = mode cb t0) ∧
  (x_status s = Stopped ∨ x_status s = Ended EXIT_SUCCESS → x_tty s = x_wanted s) ∧
  (∀ g, x_status s = Killed g → cb = false) ∧
  (x_main s = MLoop → x_out s = mjoin (echo_char <$> x_in s) ∧ "q"%char ∉ x_in s).
Proof.
  intros [Hs Hio]%calm_reach. rw /status_ok in Hs. split_and!.
  - intros E Hl Est. rw E /stack_ok Est in Hs. destruct Hs as [[_ Hm] _]. rw /main_ok in Hm.
    by destruct (x_main s); try done; destruct Hm.
  - intros [E|E]; rw E in Hs; [|by apply Hs].
    destruct Hs as ((ours & prev & saved & Est) & Hs & _). rw /stack_ok Est in Hs. by destruct Hs as (_ & _ & _ & _ & _ & _ & ?).
  - intros g E. by rw E in Hs.
  - intros E. by rw /io_ok E in Hio.
Qed.

(** ** Runs *)

Definition run_calm (cb : bool) (l : list action) (s : ttystate) : option ttystate :=
  foldl (λ o a, s ← o; if calm cb a s then act cb a s else None) (Some s) l.
Definition run_any (cb : bool) (l : list action) (s : ttystate) : option ttystate :=
  foldl (λ o a, s ← o; act cb a s) (Some s) l.

Lemma run_calm_rtc cb l s s' : run_calm cb l s = Some s' → rtc (calm_step cb) s s'.
Proof.
  rw /run_calm. elim/rev_ind: l s' => [|a l IH] s'; [intros [= ->]; constructor|]. rw foldl_app /=.
  destruct (foldl _ _ l) as [s1|]; [|done]. cbn. destruct (calm cb a s1) eqn:E; [|done]. intros H.
  eapply rtc_r; [by apply IH|]. by exists a.
Qed.
Lemma run_any_rtc cb l s s' : run_any cb l s = Some s' → rtc (tty_step cb) s s'.
Proof.
  rw /run_any. elim/rev_ind: l s' => [|a l IH] s'; [intros [= ->]; constructor|]. rw foldl_app /=.
  destruct (foldl _ _ l) as [s1|]; [|done]. cbn. intros H. eapply rtc_r; [by apply IH|]. by exists a.
Qed.

Definition cooked : termios := Termios 1280 5 191 35387 (repeat 0 19).
Definition changed : termios := Termios 1280 5 191 35379 (repeat 0 19).
Definition go (n : nat) : list action := replicate n (Own REof).

(** Set up in cbreak mode, type a letter, stop, change the settings. *)
Definition stopping : list action :=
  go 8 ++ [Own (RChar "A"%char)] ++ go 1 ++ [Send SigTstp] ++ go 5 ++ [UserSets changed; Continue].

(** What can be seen at the end of a run. *)
Definition seen (s : ttystate) : pstatus * termios * termios * cstring := (x_status s, x_tty s, x_wanted s, x_out s).

Lemma tty_given_back_witness :
  ∃ s, rtc (calm_step true) (tty_start cooked (λ _, false)) s ∧ x_status s = Ended EXIT_SUCCESS ∧
    x_tty s = x_wanted s ∧ x_tty s = changed ∧ x_out s = cs "a".
Proof.
  pose (l := stopping ++ go 5 ++ [Own REof] ++ go 2).
  assert (seen <$> run_calm true l (tty_start cooked (λ _, false)) =
    Some (Ended EXIT_SUCCESS, changed, changed, cs "a")) as Hs by (by vm_compute).
  destruct (run_calm true l (tty_start cooked (λ _, false))) as [s|] eqn:E; [|done].
  injection Hs as H1 H2 H3 H4. apply run_calm_rtc in E as Hr.
  exists s. split_and!; [done|done| |done..].
  destruct (tty_given_back true cooked (λ _, false) s Hr) as (_ & H & _). apply H. by right.
Defined.

Lemma run_any_seen cb l s v :
  seen <$> run_any cb l s = Some v → ∃ s', rtc (tty_step cb) s s' ∧ seen s' = v.
Proof.
  destruct (run_any cb l s) as [s'|] eqn:E; [|done]. intros [= H]. exists s'. by apply run_any_rtc in E.
Qed.

(** A SIGTERM after the program continues and before it has saved the settings
    again: the user's change is lost. *)
Lemma tty_signal_race :
  ∃ s, rtc (tty_step true) (tty_start cooked (λ _, false)) s ∧ x_status s = Ended EXIT_SUCCESS ∧
    x_tty s ≠ x_wanted s.
Proof.
  destruct (run_any_seen true (stopping ++ [Send SigTerm] ++ go 2) (tty_start cooked (λ _, false))
    (Ended EXIT_SUCCESS, cooked, changed, cs "a")) as (s & Hr & Hs); [by vm_compute|].
  injection Hs as H1 H2 H3 _. exists s. by rw H1 H2 H3.
Qed.

(** A SIGINT before its handler is set up: the terminal stays in cbreak mode. *)
Lemma tty_killed_in_setup :
  ∃ s, rtc (tty_step true) (tty_start cooked (λ _, false)) s ∧ x_status s = Killed SigInt ∧
    x_wanted s = cooked ∧ x_tty s = cbreak cooked.
Proof.
  destruct (run_any_seen true (go 1 ++ [Send SigInt]) (tty_start cooked (λ _, false))
    (Killed SigInt, cbreak cooked, cooked, [])) as (s & Hr & Hs); [by vm_compute|].
  injection Hs as H1 H2 H3 _. by exists s.
Qed.
