(* ===== verification/Barrier.v ===== *)
(** * Threads that meet at a barrier: [threads/pthread_barrier_demo.c]

    Every thread of the program as a state machine; one move is one call.  The
    barrier is that of POSIX: the call that completes the number of threads
    unblocks all of them, and one of them, any one, gets the return value
    PTHREAD_BARRIER_SERIAL_THREAD. *)

From S2P Require Import Prelude CStdlib Threads.

(** The output, line by line. *)
Inductive bline :=
  | LStarted (i : nat)
  | LAbout (i : nat) (j nsecs : Z)
  | LPassed (i : nat) (j : Z) (serial : bool)
  | LBlank
  | LTerminating (i : nat).
#[export] Instance bline_eq_dec : EqDecision bline.
Proof. solve_decision. Defined.

Definition bline_text (l : bline) : cstring :=
  match l with
  | LStarted i => cs "Thread " ++ fmt_d (Z.of_nat i) ++ cs " started"
  | LAbout i j n => cs "Thread " ++ fmt_d (Z.of_nat i) ++ cs " about to wait on barrier " ++ fmt_d j ++
      cs " after sleeping " ++ fmt_d n ++ cs " seconds"
  | LPassed i j s => cs "Thread " ++ fmt_d (Z.of_nat i) ++ cs " passed barrier " ++ fmt_d j ++
      cs ": return value was " ++ (if s then cs "PTHREAD_BARRIER_SERIAL_THREAD" else cs "0")
  | LBlank => []
  | LTerminating i => cs "Thread " ++ fmt_d (Z.of_nat i) ++ cs " terminating"
  end ++ [NL].

(** A thread: before its first message, at the test of its loop with the
    counter, before the call that waits, inside it, returned from it, before
    the empty line, after the loop, returned. *)
Inductive btpc :=
  | BStart | BTop (j : Z) | BCall (j : Z) | BWait (j : Z) | BBack (j : Z) (serial : bool) | BLine (j : Z) | BEnd | BDone.
#[export] Instance btpc_eq_dec : EqDecision btpc.
Proof. solve_decision. Defined.

(** The main thread has created [k] threads, is before the empty line, has
    joined [k] threads, or the process has ended. *)
Inductive bmpc := BCreate (k : nat) | BBlank | BJoin (k : nat) | BExit (status : Z).

Record bstate := BState { b_thr : list btpc; b_main : bmpc; b_out : list bline }.

Section program.
Context (numBarriers : Z) (numThreads : nat).

Definition is_waiting (t : btpc) : bool := match t with BWait _ => true | _ => false end.
Definition waiting (ts : list btpc) : nat := length (filter (λ t, is_waiting t = true) ts).

(** All threads in the barrier leave it; thread [k] gets the special value. *)
Definition release (k : nat) (i : nat) (t : btpc) : btpc :=
  match t with BWait j => BBack j (bool_decide (i = k)) | t => t end.

(** pthread_barrier_wait by thread [i]. *)
Definition barrier_wait (k i : nat) (j : Z) (ts : list btpc) : list btpc :=
  let ts := <[i := BWait j]> ts in
  if (numThreads <=? waiting ts)%nat then imap (release k) ts else ts.

(** A move of thread [i]; [r] is the result of random(), [k] the thread that
    the barrier chooses when it opens. *)
Definition bar_move (r : Z) (k i : nat) (s : bstate) : option bstate :=
  let '(BState ts mp o) := s in
  t ← ts !! i;
  match t with
  | BStart => Some (BState (<[i := BTop 0]> ts) mp (o ++ [LStarted i]))
  | BTop j =>
      if j <? numBarriers then Some (BState (<[i := BCall j]> ts) mp (o ++ [LAbout i j (r mod 5 + 1)]))
      else Some (BState (<[i := BEnd]> ts) mp o)
  | BCall j => if (k <? numThreads)%nat then Some (BState (barrier_wait k i j ts) mp o) else None
  | BWait _ => None
  | BBack j serial =>
      Some (BState (<[i := if serial then BLine j else BTop (j + 1)]> ts) mp (o ++ [LPassed i j serial]))
  | BLine j => Some (BState (<[i := BTop (j + 1)]> ts) mp (o ++ [LBlank]))
  | BEnd => Some (BState (<[i := BDone]> ts) mp (o ++ [LTerminating i]))
  | BDone => None
  end.

Definition bar_main_move (s : bstate) : option bstate :=
  let '(BState ts mp o) := s in
  match mp with
  | BCreate k =>
      if (k <? numThreads)%nat then Some (BState (ts ++ [BStart]) (BCreate (S k)) o)
      else Some (BState ts BBlank o)
  | BBlank => Some (BState ts (BJoin 0) (o ++ [LBlank]))
  | BJoin k =>
      if (k <? numThreads)%nat then
        t ← ts !! k; if decide (t = BDone) then Some (BState ts (BJoin (S k)) o) else None
      else Some (BState ts (BExit EXIT_SUCCESS) o)
  | BExit _ => None
  end.

Definition b_exited (s : bstate) : bool := match b_main s with BExit _ => true | _ => false end.

(** The points at which a thread calls the library and checks the result. *)
Definition bar_main_calls (mp : bmpc) : bool := match mp with BCreate _ | BJoin _ => true | _ => false end.
Definition bar_calls (t : btpc) : bool := match t with BCall _ => true | _ => false end.

Inductive bworks : bstate → bstate → Prop :=
  | bw_thread r k i s s' : b_exited s = false → bar_move r k i s = Some s' → bworks s s'
  | bw_main s s' : bar_main_move s = Some s' → bworks s s'.
Inductive bfails : bstate → bstate → Prop :=
  | bf_any s : b_exited s = false →
      bar_main_calls (b_main s) = true ∨ Exists (λ t, bar_calls t = true) (b_thr s) →
      bfails s (BState (b_thr s) (BExit EXIT_FAILURE) (b_out s)).
Definition bmoves (s s' : bstate) : Prop := bworks s s' ∨ bfails s s'.
End program.

(** The arguments: the number of barriers and the number of threads. *)
Definition bar_args (argv : list cstring) : option (Z * Z) :=
  match argv with
  | [_; a; b] => if bool_decide (a = cs "--help") then None else Some (atoi a, atoi b)
  | _ => None
  end.

(** A number of threads that is negative makes calloc fail, and 0 makes
    pthread_barrier_init fail. *)
Definition bar_start (numThreads : Z) : bstate :=
  BState [] (if numThreads <=? 0 then BExit EXIT_FAILURE else BCreate 0) [].

Definition bar_runs (argv : list cstring) (s : bstate) : Prop :=
  match bar_args argv with
  | Some (b, n) => rtc (bmoves b (Z.to_nat n)) (bar_start n) s
  | None => s = BState [] (BExit EXIT_FAILURE) []
  end.

(** ** Counting *)

Definition ind (b : bool) : Z := if b then 1 else 0.
Definition cnt {A} (p : A → bool) (l : list A) : Z := sumZ ((λ x, ind (p x)) <$> l).

#[global] Arguments cnt : simpl never.
#[global] Arguments waiting : simpl never.

Lemma cnt_app {A} (p : A → bool) l k : cnt p (l ++ k) = cnt p l + cnt p k.
Proof. by rw /cnt fmap_app sumZ_app. Qed.
Lemma cnt_cons {A} (p : A → bool) x l : cnt p (x :: l) = ind (p x) + cnt p l.
Proof. done. Qed.
Lemma cnt_nonneg {A} (p : A → bool) l : 0 ≤ cnt p l.
Proof. elim: l => [|x l IH]; [done|]. rw cnt_cons /ind. destruct (p x); lia. Qed.
Lemma cnt_insert {A} (p : A → bool) l i x y :
  l !! i = Some x → cnt p (<[i := y]> l) = cnt p l - ind (p x) + ind (p y).
Proof. apply (sumZ_insert (λ x, ind (p x))). Qed.
Lemma cnt_pos {A} (p : A → bool) l : 0 < cnt p l ↔ ∃ x, x ∈ l ∧ p x = true.
Proof.
  elim: l => [|x l IH].
  - split; [done|]. intros (x & H & _). by apply elem_of_nil in H.
  - rw cnt_cons. pose proof (cnt_nonneg p l) as Hn. destruct (p x) eqn:E.
    + split; [|rw /ind; lia]. intros _. exists x. split; [by left|done].
    + rw /ind Z.add_0_l IH. split; intros (y & Hy & Hp); exists y; (split; [|done]); [by right|].
      apply elem_of_cons in Hy as [->|?]; [congruence|done].
Qed.
Lemma cnt_zero {A} (p : A → bool) l : Forall (λ x, p x = false) l → cnt p l = 0.
Proof. induction 1 as [|x l Hx _ IH]; [done|]. by rw cnt_cons Hx IH. Qed.

(** One index of a list. *)
Lemma cnt_imap_eq {A B} (f : nat → A → B) (p : B → bool) l k :
  (∀ i x, l !! i = Some x → p (f i x) = bool_decide (i = k)) → (k < length l)%nat → cnt p (imap f l) = 1.
Proof.
  elim: l f k => [|x l IH] f k H Hk; cbn in Hk; [lia|]. rw imap_cons cnt_cons (H 0%nat x eq_refl). destruct k as [|k].
  - rw bool_decide_true //. enough (cnt p (imap (f ∘ S) l) = 0) as -> by done.
    apply cnt_zero, Forall_lookup. intros i y. rw list_lookup_imap. intros (z & Hz & ->)%fmap_Some.
    rw /compose (H (S i) z) //.
  - rw bool_decide_false // (IH _ k) //; [|lia]. intros i y Hy. rw /compose (H (S i) y) //.
    apply bool_decide_ext. lia.
Qed.

Definition is_pass (i : nat) (j : Z) (l : bline) : bool :=
  match l with LPassed i' j' _ => bool_decide (i' = i) && (j' =? j) | _ => false end.
Definition is_about (i : nat) (j : Z) (l : bline) : bool :=
  match l with LAbout i' j' _ => bool_decide (i' = i) && (j' =? j) | _ => false end.
Definition is_serial (j : Z) (l : bline) : bool :=
  match l with LPassed _ j' true => j' =? j | _ => false end.

Section proofs.
Context (N : Z) (n : nat) (Hn : (0 < n)%nat).
Implicit Types (ts : list btpc) (o : list bline).

(** The barriers a thread has left behind, those it has reported, and those it
    has announced. *)
Definition done (t : btpc) : Z :=
  match t with
  | BStart => 0
  | BTop j | BCall j | BWait j => j
  | BBack j _ | BLine j => j + 1
  | BEnd | BDone => Z.max 0 N
  end.
Definition passed (t : btpc) : Z := match t with BBack j _ => j | t => done t end.
Definition announced (t : btpc) : Z := match t with BCall j | BWait j => j + 1 | t => done t end.
Definition back_serial (j : Z) (t : btpc) : bool := match t with BBack j' true => j' =? j | _ => false end.

Definition bt_ok (t : btpc) : Prop := 
  match t with BCall j | BWait j => j < N | BBack j _ | BLine j => 0 ≤ j | _ => True end.

Definition below (j m : Z) : Z := ind ((0 <=? j) && (j <? m)).
Definition of_thr (f : btpc → Z) ts i : Z := match ts !! i with Some t => f t | None => 0 end.

Definition bmain_ok (mp : bmpc) ts : Prop :=
  match mp with
  | BCreate k => length ts = k ∧ (k ≤ n)%nat
  | BBlank => length ts = n
  | BJoin k => length ts = n ∧ (k ≤ n)%nat ∧ ∀ i, (i < k)%nat → ts !! i = Some BDone
  | BExit status => status = EXIT_SUCCESS → length ts = n ∧ Forall (λ t, t = BDone) ts
  end.

(** All threads have left the same number [R] of barriers behind. *)
Record b_inv (R : Z) (s : bstate) : Prop := {
  e_R : 0 ≤ R ≤ Z.max 0 N;
  e_done : Forall (λ t, done t = R ∧ bt_ok t) (b_thr s);
  e_len : (length (b_thr s) ≤ n)%nat ∧ (0 < R → length (b_thr s) = n);
  e_wait : (waiting (b_thr s) < n)%nat;
  e_pass i j : cnt (is_pass i j) (b_out s) = below j (of_thr passed (b_thr s) i);
  e_about i j : cnt (is_about i j) (b_out s) = below j (of_thr announced (b_thr s) i);
  e_serial j : cnt (is_serial j) (b_out s) + cnt (back_serial j) (b_thr s) = below j R;
  e_main : bmain_ok (b_main s) (b_thr s);
}.

Lemma of_thr_insert f ts i t u k :
  ts !! i = Some t → of_thr f (<[i := u]> ts) k = if decide (k = i) then f u else of_thr f ts k.
Proof.
  intros Hi. rw /of_thr. case_decide as Hk; [subst|]; [rw list_lookup_insert_eq //; exact (lookup_lt_Some _ _ _ Hi)|].
  rw list_lookup_insert_ne //. congruence.
Qed.

Lemma bmain_set mp ts i t u :
  bmain_ok mp ts → ts !! i = Some t → t ≠ BDone → (∀ st, mp ≠ BExit st) → bmain_ok mp (<[i := u]> ts).
Proof.
  intros H Hi Hd Hm. destruct mp as [k| |k|st]; cbn in *; rw ?length_insert //; [|by destruct (Hm st)].
  destruct H as (? & ? & H). split_and!; [done..|]. intros i' Hi'. destruct (decide (i' = i)) as [->|].
  - specialize (H _ Hi'). congruence.
  - rw list_lookup_insert_ne; [congruence|]. by apply H.
Qed.

(** A thread moves and prints [l]. *)
Lemma b_set R ts mp o i t u l :
  b_inv R (BState ts mp o) → ts !! i = Some t → t ≠ BDone → (∀ st, mp ≠ BExit st) →
  done u = done t → bt_ok u → (waiting (<[i := u]> ts) < n)%nat →
  (∀ i' j, cnt (is_pass i' j) l = if decide (i' = i) then below j (passed u) - below j (passed t) else 0) →
  (∀ i' j, cnt (is_about i' j) l = if decide (i' = i) then below j (announced u) - below j (announced t) else 0) →
  (∀ j, cnt (is_serial j) l + ind (back_serial j u) = ind (back_serial j t)) →
  b_inv R (BState (<[i := u]> ts) mp (o ++ l)).
Proof.
  intros [HR Hd Hl Hw Hp Ha Hs Hm] Hi Htd Hmp Hdu Hu Hw' Hp' Ha' Hs'. cbn in *.
  destruct (Forall_lookup_1 _ _ _ _ Hd Hi) as [Ht _].
  split; cbn; rw ?length_insert; try done.
  - apply Forall_insert; [done|]. by rw Hdu.
  - intros i' j. rw cnt_app Hp Hp' (of_thr_insert _ _ _ _ _ _ Hi). case_decide; [subst|lia].
    rw {1}/of_thr Hi. lia.
  - intros i' j. rw cnt_app Ha Ha' (of_thr_insert _ _ _ _ _ _ Hi). case_decide; [subst|lia].
    rw {1}/of_thr Hi. lia.
  - intros j. rw cnt_app (cnt_insert _ _ _ _ _ Hi) -(Hs j). specialize (Hs' j). lia.
  - by apply (bmain_set _ _ _ t).
Qed.

Lemma cnt_one {A} (p : A → bool) x : cnt p [x] = ind (p x).
Proof. by rw /cnt /= Z.add_0_r. Qed.

Lemma below_S j m : 0 ≤ m → below j (m + 1) - below j m = ind (m =? j).
Proof.
  intros Hm. rw /below. destruct (Z.leb_spec 0 j), (Z.ltb_spec j (m + 1)), (Z.ltb_spec j m), (Z.eqb_spec m j); cbn; lia.
Qed.

Lemma waiting_cnt ts : Z.of_nat (waiting ts) = cnt is_waiting ts.
Proof.
  rw /waiting. elim: ts => [|t ts IH]; [done|]. rw filter_cons cnt_cons /ind.
  case_decide as H; [rw H /=; lia|]. destruct (is_waiting t); [done|exact IH].
Qed.

(** A thread that neither enters nor leaves the barrier. *)
Lemma waiting_same ts i t u : ts !! i = Some t → is_waiting u = is_waiting t → waiting (<[i := u]> ts) = waiting ts.
Proof.
  intros Hi E. apply Nat2Z.inj. rw !waiting_cnt (cnt_insert _ _ _ _ _ Hi) E. lia.
Qed.

(** When as many threads wait as there are, all of them do. *)
Lemma all_waiting ts :
  (length ts ≤ n)%nat → (n ≤ waiting ts)%nat → length ts = n ∧ Forall (λ t, is_waiting t = true) ts.
Proof.
  rw /waiting. intros Hl Hw. pose proof (length_filter (λ t, is_waiting t = true) ts) as Hle.
  assert (length ts = n) as E by lia. split; [done|].
  assert (∀ l, length (filter (λ t, is_waiting t = true) l) = length l → Forall (λ t, is_waiting t = true) l) as H.
  { clear. elim=> [|t l IH]; [done|]. rw filter_cons. pose proof (length_filter (λ t, is_waiting t = true) l).
    case_decide; cbn; intros E; [|lia]. constructor; [done|]. apply IH. lia. }
  apply H. lia.
Qed.

(** The barrier opens. *)
Lemma b_release R ts mp o k :
  (k < n)%nat → 0 ≤ R < N → length ts = n → Forall (λ t, t = BWait R) ts →
  (∀ i j, cnt (is_pass i j) o = below j (of_thr passed ts i)) →
  (∀ i j, cnt (is_about i j) o = below j (of_thr announced ts i)) →
  (∀ j, cnt (is_serial j) o + cnt (back_serial j) ts = below j R) →
  bmain_ok mp ts → (∀ st, mp ≠ BExit st) →
  b_inv (R + 1) (BState (imap (release k) ts) mp o).
Proof.
  intros Hk HR Hl Hall Hp Ha Hs Hm Hmp.
  assert (∀ i, imap (release k) ts !! i = (λ _, BBack R (bool_decide (i = k))) <$> ts !! i) as Hi.
  { intros i. rw list_lookup_imap. destruct (ts !! i) as [t|] eqn:E; [|done].
    by rw /= (Forall_lookup_1 _ _ _ _ Hall E). }
  split; cbn; rw ?length_imap.
  - lia.
  - apply Forall_lookup. intros i t. rw Hi. intros (x & _ & ->)%fmap_Some. split; cbn; [done|lia].
  - by rw Hl.
  - apply Nat2Z.inj_lt. rw waiting_cnt cnt_zero; [|lia]. apply Forall_lookup. intros i t. rw Hi.
    by intros (x & _ & ->)%fmap_Some.
  - intros i j. rw Hp /of_thr Hi. destruct (ts !! i) as [t|] eqn:E; [|done].
    by rw (Forall_lookup_1 _ _ _ _ Hall E).
  - intros i j. rw Ha /of_thr Hi. destruct (ts !! i) as [t|] eqn:E; [|done].
    by rw (Forall_lookup_1 _ _ _ _ Hall E).
  - intros j. assert (cnt (back_serial j) ts = 0) as E0.
    { apply cnt_zero. eapply Forall_impl; [exact Hall|]. by intros t ->. }
    specialize (Hs j). pose proof (below_S j R) as HS. destruct (Z.eqb_spec R j) as [<-|Hj].
    + rw (cnt_imap_eq _ _ _ k); [|lia|]; [|cbn in HS; lia]. intros i x Hx. rw (Forall_lookup_1 _ _ _ _ Hall Hx) /=.
      case_bool_decide; [by rw Z.eqb_refl|done].
    + rw (cnt_zero _ (imap _ _)); [|cbn in HS; lia]. apply Forall_lookup. intros i t. rw Hi. intros (x & _ & ->)%fmap_Some.
      cbn. case_bool_decide; [by apply Z.eqb_neq|done].
  - destruct mp as [m| |m|st]; cbn in *; rw ?length_imap //; [|by destruct (Hmp st)].
    destruct Hm as (? & ? & Hm). split_and!; [done..|]. intros i Hi'. specialize (Hm i Hi').
    by pose proof (Forall_lookup_1 _ _ _ _ Hall Hm).
Qed.

(** Nothing is counted in a line of another kind. *)
Lemma quiet_line l f (t u : btpc) :
  (l = [] ∨ ∃ x, l = [x] ∧ match x with LPassed _ _ _ | LAbout _ _ _ => False | _ => True end) → f u = f t →
  (∀ i i' j, cnt (is_pass i' j) l = if decide (i' = i) then below j (f u) - below j (f t) else 0) ∧
  (∀ i i' j, cnt (is_about i' j) l = if decide (i' = i) then below j (f u) - below j (f t) else 0) ∧
  (∀ j, cnt (is_serial j) l = 0).
Proof.
  intros Hl Hf. assert (∀ p : bline → bool, (∀ x, match x with LPassed _ _ _ | LAbout _ _ _ => False | _ => True end → p x = false) →
    cnt p l = 0) as H0.
  { intros p Hp. destruct Hl as [->|(x & -> & Hx)]; [done|]. by rw cnt_one Hp. }
  rw Hf. split_and!; [intros i i' j|intros i i' j|intros j]; (rw H0; [by intros []|]); [case_decide; lia..|done].
Qed.

Lemma bar_move_inv R r k i s s' :
  b_inv R s → b_exited s = false → bar_move N n r k i s = Some s' → ∃ R', b_inv R' s'.
Proof.
  intros Hi He H. destruct s as [ts mp o]. assert (∀ st, mp ≠ BExit st) as Hmp by (by intros st ->).
  rw /bar_move in H. destruct (ts !! i) as [t|] eqn:E; [|done]. cbn -[Nat.ltb] in H.
  pose proof (e_R _ _ Hi) as HR. pose proof (e_wait _ _ Hi) as Hw. cbn in Hw.
  destruct (Forall_lookup_1 _ _ _ _ (e_done _ _ Hi) E) as [Hd Hok]. cbn in Hd, Hok.
  assert (∀ u, is_waiting u = is_waiting t → (waiting (<[i := u]> ts) < n)%nat) as Hsame
    by (intros u Hu; by rw (waiting_same _ _ _ _ E Hu)).
  destruct t as [|j|j|j|j b|j| |]; cbn in Hd, Hok, Hsame; subst; try done; try (injection H as <-).
  - exists 0. destruct (quiet_line [LStarted i] done BStart (BTop 0)) as (H1 & H2 & H3); [naive_solver|done|].
    apply (b_set _ _ _ _ _ _ _ _ Hi E); try done; auto.
  - destruct (Z.ltb_spec R N); injection H as <-; exists R.
    + apply (b_set _ _ _ _ _ _ _ _ Hi E); try done; [by apply Hsame|..].
      * intros i' j. rw cnt_one /=. case_decide; [lia|done].
      * intros i' j. rw cnt_one /= below_S; [lia|]. case_decide as Hx; [subst; by rw bool_decide_true|].
        rw bool_decide_false //. congruence.
    + destruct (quiet_line [] done (BTop R) BEnd) as (H1 & H2 & H3); [by left|cbn; lia|]. rw -(app_nil_r o).
      apply (b_set _ _ _ _ _ _ _ _ Hi E); try done; auto. cbn. lia.
  - destruct (Nat.ltb_spec k n) as [Hk|]; [|done]. injection H as <-. rw /barrier_wait.
    destruct (Nat.leb_spec n (waiting (<[i := BWait R]> ts))) as [Hall|Hless].
    + exists (R + 1). destruct (all_waiting (<[i := BWait R]> ts)) as [Hl Hf]; [rw length_insert; apply Hi|done|].
      assert (∀ f, f (BWait R) = f (BCall R) → ∀ i', of_thr f (<[i := BWait R]> ts) i' = of_thr f ts i') as Hof.
      { intros f Hf' i'. rw (of_thr_insert _ _ _ _ _ _ E). case_decide; [subst|done]. by rw /of_thr E. }
      apply b_release; try done; [lia|..].
      * apply Forall_lookup. intros i' t Ht. pose proof (Forall_lookup_1 _ _ _ _ Hf Ht) as Hwt.
        destruct t; try done. destruct (decide (i' = i)) as [->|].
        { rw list_lookup_insert_eq in Ht; [exact (lookup_lt_Some _ _ _ E)|congruence]. }
        rw list_lookup_insert_ne in Ht; [congruence|].
        destruct (Forall_lookup_1 _ _ _ _ (e_done _ _ Hi) Ht) as [<- _]. done.
      * intros i' j. rw Hof //. apply Hi.
      * intros i' j. rw Hof //. apply Hi.
      * intros j. rw (cnt_insert _ _ _ _ _ E) /=. pose proof (e_serial _ _ Hi j) as Hj. cbn in Hj. lia.
      * by apply (bmain_set _ _ _ (BCall R)); [apply Hi|..].
    + exists R. rw -(app_nil_r o). destruct (quiet_line [] announced (BCall R) (BWait R)) as (H1 & H2 & H3); [by left|done|].
      destruct (quiet_line [] passed (BCall R) (BWait R)) as (H4 & _ & _); [by left|done|].
      apply (b_set _ _ _ _ _ _ _ _ Hi E); try done; auto.
  - exists (j + 1). apply (b_set _ _ _ _ _ _ _ _ Hi E); try done; [by destruct b..| | | |].
    + by apply Hsame; destruct b.
    + intros i' j'. rw cnt_one /=. assert (passed (if b then BLine j else BTop (j + 1)) = j + 1) as -> by (by destruct b).
      rw below_S //. case_decide as Hx; [subst; by rw bool_decide_true|]. rw bool_decide_false //. congruence.
    + intros i' j'. rw cnt_one /=. assert (announced (if b then BLine j else BTop (j + 1)) = j + 1) as -> by (by destruct b).
      case_decide; lia.
    + intros j'. rw cnt_one. destruct b; cbn; lia.
  - exists (j + 1). destruct (quiet_line [LBlank] done (BLine j) (BTop (j + 1))) as (H1 & H2 & H3); [naive_solver|done|].
    apply (b_set _ _ _ _ _ _ _ _ Hi E); try done; auto.
  - exists (Z.max 0 N). destruct (quiet_line [LTerminating i] done BEnd BDone) as (H1 & H2 & H3); [naive_solver|done|].
    apply (b_set _ _ _ _ _ _ _ _ Hi E); try done; auto.
Qed.

Lemma of_thr_new f ts i : f BStart = 0 → of_thr f (ts ++ [BStart]) i = of_thr f ts i.
Proof.
  intros Hf. rw /of_thr. destruct (decide (i < length ts)%nat) as [Hi|Hi]; [by rw lookup_app_l|].
  rw lookup_app_r; [lia|]. rw (lookup_ge_None_2 ts); [lia|]. by destruct (i - length ts)%nat as [|[]].
Qed.

Lemma bar_main_inv R s s' : b_inv R s → bar_main_move n s = Some s' → b_inv R s'.
Proof.
  intros [HR Hd Hl Hw Hp Ha Hs Hm] H. destruct s as [ts mp o]. cbn -[Nat.ltb] in *.
  destruct mp as [k| |k|st]; [|injection H as <-| |done]; try destruct (Nat.ltb_spec k n) as [Hk|Hk].
  - injection H as <-. destruct Hm as [Hm1 Hm2]. split; cbn; rw ?length_app /=; try done.
    + apply Forall_app_2; [done|]. apply Forall_singleton. split; [|done]. cbn.
      destruct (decide (0 < R)); [|lia]. destruct Hl as [_ Hl]. specialize (Hl ltac:(done)). lia.
    + split; [lia|]. intros H0. destruct Hl as [_ Hl]. specialize (Hl H0). lia.
    + apply Nat2Z.inj_lt. rw waiting_cnt cnt_app cnt_one -waiting_cnt Z.add_0_r. lia.
    + intros i j. by rw of_thr_new.
    + intros i j. by rw of_thr_new.
    + intros j. rw cnt_app cnt_one Z.add_0_r. apply Hs.
    + lia.
  - injection H as <-. destruct Hm as [Hm1 Hm2]. split; cbn; try done. lia.
  - assert (∀ p, p LBlank = false → cnt p (o ++ [LBlank]) = cnt p o) as Hc.
    { intros p E. by rw cnt_app cnt_one E Z.add_0_r. }
    split; cbn; try done; [by intros i j; rw Hc..|by intros j; rw Hc|]. split_and!; [done|lia|lia].
  - destruct (ts !! k) as [t|] eqn:E; [|done]. cbn in H. destruct (decide (t = BDone)) as [->|]; [|done].
    injection H as <-. destruct Hm as (Hm1 & Hm2 & Hm3). split; cbn; try done. split_and!; [done|lia|].
    intros i Hi. destruct (decide (i = k)) as [->|]; [done|]. apply Hm3. lia.
  - injection H as <-. destruct Hm as (Hm1 & Hm2 & Hm3). split; cbn; try done. intros _. split; [done|].
    apply Forall_lookup. intros i t Ht. pose proof (lookup_lt_Some _ _ _ Ht). rw Hm3 in Ht; [lia|congruence].
Qed.

Lemma bar_reach s : rtc (bmoves N n) (BState [] (BCreate 0) []) s → ∃ R, b_inv R s.
Proof.
  apply (rtc_ind_r (λ s, ∃ R, b_inv R s)).
  - exists 0. assert (∀ j, below j 0 = 0) as Hb.
    { intros j. rw /below. destruct (Z.leb_spec 0 j), (Z.ltb_spec j 0); try done; lia. }
    split; cbn; rw ?Hb; try done; [lia|lia|by intros; rw Hb..|split; lia].
  - intros s1 s2 _ [[r k i t t' He H|t t' H]|[t He _]] [R IH].
    + exact (bar_move_inv _ _ _ _ _ _ IH He H).
    + exists R. exact (bar_main_inv _ _ _ IH H).
    + exists R. destruct IH. by split.
Qed.

(** ** Progress *)

Lemma bar_can_move R ts mp o i t :
  b_inv R (BState ts mp o) → (∀ st, mp ≠ BExit st) → ts !! i = Some t → t ≠ BDone → length ts = n →
  ∃ s', bworks N n (BState ts mp o) s'.
Proof.
  intros Hi Hmp Ht Hd Hl. assert (b_exited (BState ts mp o) = false) as He by (destruct mp; try done; by destruct (Hmp status)).
  assert (∀ k u, ts !! k = Some u → u ≠ BDone → is_waiting u = false → ∃ s', bworks N n (BState ts mp o) s') as Hmove.
  { intros k u Hu Hud Huw.
    assert (is_Some (bar_move N n 0 0 k (BState ts mp o))) as [s' Hs'].
    { rw /bar_move Hu. cbn -[Nat.ltb]. destruct u; try done. - by destruct (j <? N). - by destruct (Nat.ltb_spec 0 n); [|lia]. }
    exists s'. exact (bw_thread _ _ _ _ _ _ _ He Hs'). }
  destruct (decide (Exists (λ u, u ≠ BDone ∧ is_waiting u = false) ts)) as [Hex|Hno].
  { apply Exists_exists in Hex as (u & Hu & ? & ?). apply list_elem_of_lookup in Hu as [k Hu]. by apply (Hmove k u). }
  exfalso. apply not_Exists_Forall in Hno; [|apply _].
  destruct (Forall_lookup_1 _ _ _ _ (e_done _ _ Hi) Ht) as [HR Hok].
  assert (is_waiting t = true) as Hw.
  { pose proof (Forall_lookup_1 _ _ _ _ Hno Ht) as Hx. destruct (is_waiting t) eqn:E; [done|]. destruct Hx. by split. }
  destruct t as [| | |j| | | |]; try done. cbn in HR, Hok. subst j.
  pose proof (e_wait _ _ Hi) as Hlt. enough (Z.of_nat (waiting ts) = Z.of_nat n) as E.
  { apply Nat2Z.inj in E. cbn in Hlt. rw -E in Hlt. by apply Nat.lt_irrefl in Hlt. }
  pose proof (e_R _ _ Hi) as HR0.
  assert (Forall (λ u, is_waiting u = true) ts) as Hall.
  { apply Forall_lookup. intros k u Hu. destruct (Forall_lookup_1 _ _ _ _ (e_done _ _ Hi) Hu) as [HuR _].
    pose proof (Forall_lookup_1 _ _ _ _ Hno Hu) as Hx. destruct (is_waiting u) eqn:E; [done|].
    destruct (decide (u = BDone)) as [->|]; [cbn in HuR; lia|by destruct Hx]. }
  rw waiting_cnt -Hl. clear -Hall. induction Hall as [|u l Hu _ IH]; [done|]. rw cnt_cons Hu IH /=. lia.
Qed.

Lemma bar_progress R s : b_inv R s → b_exited s = false → ∃ s', bworks N n s s'.
Proof.
  intros Hi He. destruct s as [ts mp o]. pose proof (e_main _ _ Hi) as Hm. cbn in Hm.
  destruct mp as [k| |k|st]; [| | |done].
  - destruct (k <? n)%nat eqn:E; eexists; apply bw_main; cbn -[Nat.ltb]; by rw E.
  - eexists. by apply bw_main.
  - destruct Hm as (Hl & Hk & Hd). destruct (k <? n)%nat eqn:E.
    + destruct (lookup_lt_is_Some_2 ts k) as [t Ht]; [apply Nat.ltb_lt in E; lia|].
      destruct (decide (t = BDone)) as [->|Htd]; [|by apply (bar_can_move R _ _ _ k t)].
      eexists. apply bw_main. cbn -[Nat.ltb]. by rw E Ht.
    + eexists. apply bw_main. cbn -[Nat.ltb]. by rw E.
Qed.

(** ** An end *)

(** The moves left to a thread and to the main thread. *)
Definition bt_rank (t : btpc) : Z :=
  let left j := 8 * (Z.max 0 N - j) in
  match t with
  | BStart => left 0 + 4
  | BTop j => left j + 3
  | BCall j => left j + 2
  | BWait j => left j + 1
  | BBack j _ => left j - 2
  | BLine j => left j - 3
  | BEnd => 1
  | BDone => 0
  end.
Definition bm_rank (mp : bmpc) : Z :=
  match mp with
  | BCreate k => (Z.of_nat n - Z.of_nat k) * (8 * Z.max 0 N + 5) + Z.of_nat n + 3
  | BBlank => Z.of_nat n + 2
  | BJoin k => Z.of_nat n - Z.of_nat k + 1
  | BExit _ => 0
  end.
Definition b_rank (s : bstate) : Z := sumZ (bt_rank <$> b_thr s) + bm_rank (b_main s).

Lemma sumZ_imap_le (f : nat → btpc → btpc) (g : btpc → Z) ts :
  (∀ i t, g (f i t) ≤ g t) → sumZ (g <$> imap f ts) ≤ sumZ (g <$> ts).
Proof.
  elim: ts f => [|t ts IH] f H; [done|]. rw imap_cons. csimpl. 
  specialize (IH (f ∘ S) (λ i, H (S i))). pose proof (H 0%nat t). lia.
Qed.

Lemma bar_move_rank R r k i s s' :
  b_inv R s → bar_move N n r k i s = Some s' → b_rank s' < b_rank s.
Proof.
  intros Hi H. destruct s as [ts mp o]. rw /bar_move in H. destruct (ts !! i) as [t|] eqn:E; [|done].
  destruct (Forall_lookup_1 _ _ _ _ (e_done _ _ Hi) E) as [Hd _]. pose proof (e_R _ _ Hi) as HR.
  assert (∀ u, bt_rank u < bt_rank t → ∀ o', b_rank (BState (<[i := u]> ts) mp o') < b_rank (BState ts mp o)) as Hset.
  { intros u Hu o'. rw /b_rank /= (sumZ_insert _ _ _ _ _ E). lia. }
  cbn -[Nat.ltb] in H. destruct t as [|j|j|j|j b|j| |]; cbn in Hd; try done; try (injection H as <-).
  - apply Hset. cbn. lia.
  - destruct (j <? N); injection H as <-; apply Hset; cbn; lia.
  - destruct (k <? n)%nat; [|done]. injection H as <-. rw /barrier_wait. case_match; [|apply Hset; cbn; lia].
    eapply Z.le_lt_trans; [|apply (Hset (BWait j)) with (o' := o); cbn; lia]. rw /b_rank /=. apply Zplus_le_compat_r, sumZ_imap_le.
    intros i' t. destruct t; cbn; lia.
  - apply Hset. destruct b; cbn; lia.
  - apply Hset. cbn. lia.
  - apply Hset. cbn. lia.
Qed.

Lemma bar_main_rank R s s' : b_inv R s → bar_main_move n s = Some s' → b_rank s' < b_rank s.
Proof.
  intros Hi H. pose proof (e_main _ _ Hi) as Hm. destruct s as [ts mp o]. rw /b_rank. cbn -[Nat.ltb] in *.
  destruct mp as [k| |k|st]; [|injection H as <-; cbn; lia| |done]; destruct (Nat.ltb_spec k n) as [Hk|Hk]; cbn in Hm.
  - injection H as <-. cbn [b_thr b_main bm_rank]. rw fmap_app sumZ_app /=. nia.
  - injection H as <-. cbn. destruct Hm as [_ Hm]. assert (k = n) as -> by lia. lia.
  - destruct (ts !! k) as [t|]; [|done]. cbn in H. case_decide; [|done]. injection H as <-. cbn. lia.
  - injection H as <-. cbn. lia.
Qed.

Lemma b_rank_nonneg R s : b_inv R s → 0 ≤ b_rank s.
Proof.
  intros Hi. pose proof (e_R _ _ Hi) as HR. rw /b_rank.
  assert (0 ≤ sumZ (bt_rank <$> b_thr s)) as H1.
  { pose proof (e_done _ _ Hi) as Hd. induction Hd as [|t l [Ht _] _ IH]; [done|]. csimpl.
    enough (0 ≤ bt_rank t) by lia. destruct t; cbn in Ht |- *; lia. }
  pose proof (e_main _ _ Hi) as Hm. destruct (b_main s); cbn in Hm |- *; nia.
Qed.

(** ** What is printed *)

Lemma passed_le t : passed t ≤ done t.
Proof. destruct t; cbn; lia. Qed.
Lemma announced_ge t : done t ≤ announced t.
Proof. destruct t; cbn; lia. Qed.

Lemma below_pos j m : 0 < below j m ↔ 0 ≤ j < m.
Proof. rw /below /ind. destruct (Z.leb_spec 0 j), (Z.ltb_spec j m); cbn; lia. Qed.

Lemma passed_all_announced R s i j b k :
  b_inv R s → LPassed i j b ∈ b_out s → (k < n)%nat → ∃ secs, LAbout k j secs ∈ b_out s.
Proof.
  intros Hi Hin Hk.
  assert (0 < cnt (is_pass i j) (b_out s)) as Hp.
  { apply cnt_pos. eexists. split; [exact Hin|]. cbn. by rw bool_decide_true // Z.eqb_refl. }
  rw (e_pass _ _ Hi) below_pos in Hp. rw /of_thr in Hp. destruct (b_thr s !! i) as [t|] eqn:E; [|lia].
  destruct (Forall_lookup_1 _ _ _ _ (e_done _ _ Hi) E) as [Hd _]. pose proof (passed_le t).
  destruct (e_len _ _ Hi) as [_ Hl]. specialize (Hl ltac:(lia)).
  destruct (lookup_lt_is_Some_2 (b_thr s) k) as [u Hu]; [lia|].
  destruct (Forall_lookup_1 _ _ _ _ (e_done _ _ Hi) Hu) as [Hdu _]. pose proof (announced_ge u).
  assert (0 < cnt (is_about k j) (b_out s)) as Ha.
  { rw (e_about _ _ Hi) below_pos /of_thr Hu. lia. }
  apply cnt_pos in Ha as (x & Hx & Hk'). destruct x as [|i' j' secs| | |]; try done. cbn in Hk'.
  apply andb_prop in Hk' as [->%bool_decide_eq_true ->%Z.eqb_eq]. by exists secs.
Qed.
End proofs.

(** C16: In every interleaving of the threads: no thread passes a barrier
    before all threads have announced that they wait on it; the special return
    value is given to at most one thread per barrier; after a successful end
    each thread has passed each barrier once, and one of them got the special
    value.  Some thread can move until the process has ended, and every move
    decreases a bound on those left. *)
Theorem barrier_correct argv b n s :
  bar_args argv = Some (b, n) → bar_runs argv s →
  (∀ i j serial, LPassed i j serial ∈ b_out s →
     ∀ k, (k < Z.to_nat n)%nat → ∃ secs, LAbout k j secs ∈ b_out s) ∧
  (∀ j, 0 ≤ cnt (is_serial j) (b_out s) ≤ 1) ∧
  (b_main s = BExit EXIT_SUCCESS → ∀ j, 0 ≤ j < b → cnt (is_serial j) (b_out s) = 1 ∧
     ∀ i, (i < Z.to_nat n)%nat → cnt (is_pass i j) (b_out s) = 1) ∧
  (b_exited s = false → ∃ s', bworks b (Z.to_nat n) s s') ∧
  (∀ s', bworks b (Z.to_nat n) s s' →
     0 ≤ b_rank b (Z.to_nat n) s' < b_rank b (Z.to_nat n) s).
Proof.
  intros Ha Hr. rw /bar_runs Ha /bar_start in Hr. destruct (Z.leb_spec n 0) as [Hn|Hn].
  { apply rtc_inv in Hr as [<-|(s1 & H & _)].
    - split_and!; try done; [by intros i j x H%elem_of_nil|]. intros s'. inversion 1; subst; try done.
    - exfalso. destruct H as [H|H]; inversion H; subst; done. }
  assert (0 < Z.to_nat n)%nat as Hn' by lia. destruct (bar_reach b (Z.to_nat n) Hn' s Hr) as [R Hi]. split_and!.
  - intros i j serial H k Hk. eapply passed_all_announced; [exact Hn'|exact Hi|exact H|exact Hk].
  - intros j. pose proof (e_serial _ _ _ _ Hi j) as H. pose proof (cnt_nonneg (back_serial j) (b_thr s)).
    pose proof (cnt_nonneg (is_serial j) (b_out s)). assert (below j R ≤ 1) by (rw /below /ind; case_match; lia). lia.
  - intros E j Hj. pose proof (e_main _ _ _ _ Hi) as Hm. rw E in Hm. destruct (Hm eq_refl) as [Hl Hall].
    assert (∀ m, b ≤ m → below j m = 1) as Hb.
    { intros m Hm'. rw /below. destruct (Z.leb_spec 0 j), (Z.ltb_spec j m); try lia. done. }
    split.
    + pose proof (e_serial _ _ _ _ Hi j) as H. rw (cnt_zero _ (b_thr s)) in H.
      { eapply Forall_impl; [exact Hall|]. by intros t ->. }
      rw Z.add_0_r in H. rw H. destruct (lookup_lt_is_Some_2 (b_thr s) 0) as [t Ht]; [lia|].
      destruct (Forall_lookup_1 _ _ _ _ (e_done _ _ _ _ Hi) Ht) as [<- _].
      rw (Forall_lookup_1 _ _ _ _ Hall Ht). apply Hb. cbn. lia.
    + intros i Hik. rw (e_pass _ _ _ _ Hi) /of_thr. destruct (lookup_lt_is_Some_2 (b_thr s) i) as [t Ht]; [lia|].
      rw Ht (Forall_lookup_1 _ _ _ _ Hall Ht). apply Hb. cbn. lia.
  - by apply (bar_progress _ _ Hn' R).
  - intros s' Hs. destruct Hs as [r k i t t' He H|t t' H].
    + destruct (bar_move_inv b _ Hn' R r k i t t' Hi He H) as [R' Hi']. split; [by eauto using b_rank_nonneg|].
      by eauto using bar_move_rank.
    + split; [|by eauto using bar_main_rank]. by eauto using b_rank_nonneg, bar_main_inv.
Qed.

(** ** A run *)

(** Moves of the threads by number and of the main thread. *)
Definition bar_go (b : Z) (n : nat) (w : option nat) (s : bstate) : option bstate :=
  match w with
  | Some i => if b_exited s then None else bar_move b n 7 0 i s
  | None => bar_main_move n s
  end.
Definition bar_run (b : Z) (n : nat) (l : list (option nat)) (s : bstate) : option bstate :=
  foldr (λ w k s, bar_go b n w s ≫= k) Some l s.

Lemma bar_run_rtc b n l s s' : bar_run b n l s = Some s' → rtc (bmoves b n) s s'.
Proof.
  rw /bar_run. elim: l s => [|w l IH] s /=; [intros [= ->]; constructor|].
  destruct (bar_go b n w s) as [s1|] eqn:E; [|done]. cbn. intros H%IH. eapply rtc_l; [|exact H]. left.
  destruct w as [i|]; cbn in E; [|by apply bw_main].
  destruct (b_exited s) eqn:Ex; [done|]. exact (bw_thread _ _ _ _ _ _ _ Ex E).
Qed.

(** One barrier, two threads. *)
Definition bar_argv : list cstring := [cs "pthread_barrier_demo"; cs "1"; cs "2"].
Definition bar_schedule : list (option nat) :=
  replicate 3 None ++ replicate 3 (Some 0%nat) ++ replicate 3 (Some 1%nat) ++ [None] ++
  replicate 4 (Some 0%nat) ++ replicate 3 (Some 1%nat) ++ replicate 3 None.
Definition bar_end : bstate := default (bar_start 2) (bar_run 1 2 bar_schedule (bar_start 2)).

Lemma barrier_correct_witness :
  b_main bar_end = BExit EXIT_SUCCESS ∧ cnt (is_serial 0) (b_out bar_end) = 1 ∧
  (∀ i, (i < 2)%nat → cnt (is_pass i 0) (b_out bar_end) = 1).
Proof.
  assert (b_main bar_end = BExit EXIT_SUCCESS) as He by (by vm_compute).
  destruct (barrier_correct bar_argv 1 2 bar_end) as (_ & _ & H & _); [by vm_compute| |by split; [|apply H]].
  rw /bar_runs. change (rtc (bmoves 1 2) (bar_start 2) bar_end). apply (bar_run_rtc 1 2 bar_schedule). by vm_compute.
Defined.
