(* ===== verification/SelfPipe.v ===== *)
(** * The self-pipe trick: [altio/self_pipe.c]

    The arguments as a function; the program from [pipe] on as a machine that
    SIGINT may interrupt before each of its calls and after it, where the
    handler writes to the pipe that [select] watches.  [errno] is shared by the
    main program and the handler. *)

From S2P Require Import Prelude CStdlib ErrFns GetNum Tlpi TimerFd.

(** ** Arguments *)

Definition FD_SETSIZE : Z := 1024.

Section args.
Context {K : Type} `{!TlpiEnv K}.
Abbreviation T := (M (tproc K)).

(** The macro writes a bit of an array. *)
Definition FD_SET (fd : Z) (set : gset Z) : T (gset Z) :=
  if bool_decide (0 ≤ fd < FD_SETSIZE) then mret ({[fd]} ∪ set) else stop Crash.

Fixpoint parse_fds (args : list cstring) (fds : list Z) (set : gset Z) (nfds : Z) : T (list Z * gset Z * Z) :=
  match args with
  | [] => mret (fds, set, nfds)
  | a :: args =>
      fd ← with_stderr (getInt (Some a) 0 (Some (cs "fd"))) ;
      if FD_SETSIZE <=? fd then
        tcmdLineErr (cs "file descriptor exceeds limit (" ++ fmt_d FD_SETSIZE ++ cs ")" ++ [NL])
      else
        set ← FD_SET fd set ;
        parse_fds args (fds ++ [fd]) set (if nfds <=? fd then fd + 1 else nfds)
  end.

Definition self_pipe_usage (prog : cstring) : cstring :=
  prog ++ cs " {timeout|-} fd..." ++ [NL; "009"%char; "009"%char] ++ cs "('-' means infinite timeout)" ++ [NL].

(** The timeout, [None] for an infinite one, the descriptors as given, the set
    and [nfds]. *)
Definition self_pipe_args (argv : list cstring) : T (option Z * (list Z * gset Z * Z)) :=
  match argv with
  | prog :: a1 :: rest =>
      if bool_decide (a1 = cs "--help") then
        tusageErr (self_pipe_usage prog)
      else
        pto ← (if bool_decide (a1 = cs "-") then mret None
               else t ← with_stderr (getLong (Some a1) 0 (Some (cs "timeout"))) ; mret (Some t)) ;
        fds ← parse_fds rest [] ∅ 0 ;
        mret (pto, fds)
  | _ => tusageErr (self_pipe_usage (hd [] argv))
  end.
End args.

(** ** The program *)

(** Before each call; [PSelTest] and [PReadTest] after a call that has returned
    -1, before the test of [errno].  [ready] are the descriptors that [select]
    has left in the set. *)
Inductive pipe_pc :=
  | PPipe | PNonblockR | PNonblockW | PAction | PSelect | PSelTest
  | PReady (ready : gset Z) (rest : Z * Z) | PRead (ready : gset Z) (rest : Z * Z)
  | PReadTest (ready : gset Z) (rest : Z * Z) | PPrint (ready : gset Z) (rest : Z * Z).

(** The handler, with [savedErrno]. *)
Inductive sig_pc := HWrite (savedErrno : Z) | HRestore (savedErrno : Z).

Inductive pend := PRunning | PEnded (status : Z) | PKilled.
#[export] Instance pend_eq_dec : EqDecision pend.
Proof. solve_decision. Defined.

(** [p_bytes] in the pipe, the flags of its ends, whether the handler is set up
    and runs; [p_caught] counts its writes, [p_seen] those made before [select]
    returned. *)
Record pstate := PState {
  p_end : pend;
  p_bytes : nat;
  p_nbr : bool;
  p_nbw : bool;
  p_installed : bool;
  p_pending : bool;
  p_handler : option sig_pc;
  p_errno : Z;
  p_main : pipe_pc;
  p_out : cstring;
  p_caught : nat;
  p_seen : nat }.

(** What [select] finds: descriptors ready, the timeout expired, the rest of
    the timeout. *)
Record choice := Choice { ch_ready : gset Z; ch_expired : bool; ch_left : Z * Z }.

Section machine.
(** [cap] is the capacity of a pipe, [pfd0] the descriptor of its read end. *)
Context (cap : nat) (pto : option Z) (fds : list Z) (set : gset Z) (pfd0 : Z).

Definition at_main (s : pstate) (pc : pipe_pc) : pstate :=
  PState (p_end s) (p_bytes s) (p_nbr s) (p_nbw s) (p_installed s) (p_pending s) (p_handler s) (p_errno s) pc
    (p_out s) (p_caught s) (p_seen s).
Definition p_finish (s : pstate) (e : pend) : pstate :=
  PState e (p_bytes s) (p_nbr s) (p_nbw s) (p_installed s) (p_pending s) (p_handler s) (p_errno s) (p_main s)
    (p_out s) (p_caught s) (p_seen s).
Definition p_print (s : pstate) (t : cstring) : pstate :=
  PState (p_end s) (p_bytes s) (p_nbr s) (p_nbw s) (p_installed s) (p_pending s) (p_handler s) (p_errno s) (p_main s)
    (p_out s ++ t) (p_caught s) (p_seen s).
Definition p_set_errno (s : pstate) (e : Z) : pstate :=
  PState (p_end s) (p_bytes s) (p_nbr s) (p_nbw s) (p_installed s) (p_pending s) (p_handler s) e (p_main s)
    (p_out s) (p_caught s) (p_seen s).
Definition p_set_handler (s : pstate) (h : option sig_pc) : pstate :=
  PState (p_end s) (p_bytes s) (p_nbr s) (p_nbw s) (p_installed s) (p_pending s) h (p_errno s) (p_main s)
    (p_out s) (p_caught s) (p_seen s).
Definition p_set_pending (s : pstate) (b : bool) : pstate :=
  PState (p_end s) (p_bytes s) (p_nbr s) (p_nbw s) (p_installed s) b (p_handler s) (p_errno s) (p_main s)
    (p_out s) (p_caught s) (p_seen s).

(** [FD_ISSET(fd, &readfds) ? "r" : ""]. *)
Definition isset (fd : Z) (ready : gset Z) : cstring := if bool_decide (fd ∈ ready) then cs "r" else [].

Definition fd_line (ready : gset Z) (fd : Z) : cstring := fmt_d fd ++ cs ": " ++ isset fd ready ++ [NL].

Definition report (ready : gset Z) (rest : Z * Z) : cstring :=
  cs "ready = " ++ fmt_d (Z.of_nat (size ready)) ++ [NL] ++ mjoin (fd_line ready <$> fds) ++
  fmt_d pfd0 ++ cs ": " ++ isset pfd0 ready ++ cs "   (read end of pipe)" ++ [NL] ++
  match pto with
  | None => []
  | Some _ => cs "timeout after select(): " ++ fmt_d rest.1 ++ cs "." ++ fmt_03d (Z.quot rest.2 1000) ++ [NL]
  end.

Definition caught_line : cstring := cs "A signal was caught" ++ [NL].

(** The descriptors of the set that are ready: any of the others, and the pipe
    if there is something in it. *)
Definition ready_fds (bytes : nat) (c : choice) : gset Z :=
  (ch_ready c ∩ set) ∖ {[pfd0]} ∪ (if (0 <? bytes)%nat then {[pfd0]} else ∅).

Definition pmain_move (c : choice) (s : pstate) : option pstate :=
  match p_main s with
  | PPipe => Some (at_main s PNonblockR)
  | PNonblockR =>
      Some (PState (p_end s) (p_bytes s) true (p_nbw s) (p_installed s) (p_pending s) (p_handler s) (p_errno s)
              PNonblockW (p_out s) (p_caught s) (p_seen s))
  | PNonblockW =>
      Some (PState (p_end s) (p_bytes s) (p_nbr s) true (p_installed s) (p_pending s) (p_handler s) (p_errno s)
              PAction (p_out s) (p_caught s) (p_seen s))
  | PAction =>
      Some (PState (p_end s) (p_bytes s) (p_nbr s) (p_nbw s) true (p_pending s) (p_handler s) (p_errno s)
              PSelect (p_out s) (p_caught s) (p_seen s))
  | PSelect =>
      let ready := ready_fds (p_bytes s) c in
      if negb (bool_decide (ready = ∅)) || (bool_decide (pto ≠ None) && ch_expired c) then
        Some (PState (p_end s) (p_bytes s) (p_nbr s) (p_nbw s) (p_installed s) (p_pending s) (p_handler s) (p_errno s)
                (PReady ready (ch_left c)) (p_out s) (p_caught s) (p_caught s))
      else None
  | PSelTest => Some (if p_errno s =? EINTR then at_main s PSelect else p_finish s (PEnded EXIT_FAILURE))
  | PReady ready rest =>
      Some (if bool_decide (pfd0 ∈ ready) then p_print (at_main s (PRead ready rest)) caught_line
            else at_main s (PPrint ready rest))
  | PRead ready rest =>
      match p_bytes s with
      | S n => Some (PState (p_end s) n (p_nbr s) (p_nbw s) (p_installed s) (p_pending s) (p_handler s) (p_errno s)
                       (p_main s) (p_out s) (p_caught s) (p_seen s))
      | O => if p_nbr s then Some (p_set_errno (at_main s (PReadTest ready rest)) EAGAIN) else None
      end
  | PReadTest ready rest =>
      Some (if p_errno s =? EAGAIN then at_main s (PPrint ready rest) else p_finish s (PEnded EXIT_FAILURE))
  | PPrint ready rest => Some (p_finish (p_print s (report ready rest)) (PEnded EXIT_SUCCESS))
  end.

(** The handler.  When it returns a [select] that it has interrupted returns -1,
    and a SIGINT that was waiting is delivered. *)
Definition enter_handler (s : pstate) : pstate := p_set_handler s (Some (HWrite (p_errno s))).

Definition back_in_main (interrupts : bool) (s : pstate) : pstate :=
  match p_main s with
  | PSelect => if interrupts then p_set_errno (at_main s PSelTest) EINTR else s
  | _ => s
  end.

Definition handler_move (interrupts : bool) (s : pstate) : option pstate :=
  match p_handler s with
  | None => None
  | Some (HWrite saved) =>
      if (p_bytes s <? cap)%nat then
        Some (PState (p_end s) (S (p_bytes s)) (p_nbr s) (p_nbw s) (p_installed s) (p_pending s)
                (Some (HRestore saved)) (p_errno s) (p_main s) (p_out s) (S (p_caught s)) (p_seen s))
      else if p_nbw s then
        Some (PState (p_end s) (p_bytes s) (p_nbr s) (p_nbw s) (p_installed s) (p_pending s)
                (Some (HRestore saved)) EAGAIN (p_main s) (p_out s) (S (p_caught s)) (p_seen s))
      else None
  | Some (HRestore saved) =>
      let s := back_in_main interrupts (p_set_errno (p_set_handler s None) saved) in
      Some (if p_pending s then enter_handler (p_set_pending s false) else s)
  end.

(** SIGINT. *)
Definition interrupt (s : pstate) : pstate :=
  if p_installed s then
    match p_handler s with Some _ => p_set_pending s true | None => enter_handler s end
  else p_finish s PKilled.

Definition p_own (c : choice) (interrupts : bool) (s : pstate) : option pstate :=
  match p_handler s with
  | Some _ => handler_move interrupts s
  | None => pmain_move c s
  end.

Inductive pstep : pstate → pstate → Prop :=
  | ps_own c b s s' : p_end s = PRunning → p_own c b s = Some s' → pstep s s'
  | ps_signal s : p_end s = PRunning → pstep s (interrupt s).

(** A call that fails for another reason than a signal, an empty or a full pipe. *)
Definition p_call_fails (s s' : pstate) : Prop :=
  p_end s = PRunning ∧ s' = p_finish s (PEnded EXIT_FAILURE) ∧
  match p_handler s with
  | Some (HWrite _) => True
  | Some (HRestore _) => False
  | None => match p_main s with PReady _ _ | PPrint _ _ | PSelTest | PReadTest _ _ => False | _ => True end
  end.

Definition p_start : pstate := PState PRunning 0 false false false false None 0 PPipe [] 0 0.
Definition p_steps (s s' : pstate) : Prop := pstep s s' ∨ p_call_fails s s'.
End machine.

(** ** No signal is lost *)

Section proofs.
Context (cap : nat) (Hcap : (0 < cap)%nat) (pto : option Z) (fds : list Z) (set : gset Z) (pfd0 : Z).
Implicit Types s : pstate.

(** The value of [errno] that the main program will see. *)
Definition main_errno s : Z :=
  match p_handler s with Some (HWrite e | HRestore e) => e | None => p_errno s end.

(** [select] has not returned yet. *)
Definition before_ready (pc : pipe_pc) : bool :=
  match pc with PReady _ _ | PRead _ _ | PReadTest _ _ | PPrint _ _ => false | _ => true end.

Definition flags_ok s : Prop :=
  match p_main s with
  | PPipe | PNonblockR => p_installed s = false
  | PNonblockW => p_nbr s = true ∧ p_installed s = false
  | PAction => p_nbr s = true ∧ p_nbw s = true ∧ p_installed s = false
  | _ => p_nbr s = true ∧ p_nbw s = true ∧ p_installed s = true
  end.

Definition ready_ok s (ready : gset Z) : Prop := ready ⊆ {[pfd0]} ∪ set ∧ (pfd0 ∈ ready ↔ (0 < p_seen s)%nat).
Definition caught_text s : cstring := if (0 <? p_seen s)%nat then caught_line else [].

Definition pmain_ok s : Prop :=
  match p_main s with
  | PSelTest => main_errno s = EINTR ∧ p_out s = []
  | PReady ready _ => ready_ok s ready ∧ p_out s = []
  | PRead ready _ => ready_ok s ready ∧ pfd0 ∈ ready ∧ p_out s = caught_text s
  | PReadTest ready _ => ready_ok s ready ∧ pfd0 ∈ ready ∧ p_out s = caught_text s ∧ main_errno s = EAGAIN
  | PPrint ready _ => ready_ok s ready ∧ p_out s = caught_text s
  | _ => p_out s = []
  end.

Record p_inv s : Prop := {
  g_flags : flags_ok s;
  g_quiet : p_installed s = false → p_handler s = None ∧ p_caught s = 0%nat;
  g_bytes : if before_ready (p_main s) then p_bytes s = Nat.min cap (p_caught s) else True;
  g_main : pmain_ok s;
}.

Definition p_ok s : Prop :=
  match p_end s with
  | PRunning => p_inv s
  | PEnded status => status = EXIT_SUCCESS → ∃ ready rest,
      p_main s = PPrint ready rest ∧ ready_ok s ready ∧ p_out s = caught_text s ++ report pto fds pfd0 ready rest
  | PKilled => True
  end.

(** The handler can run. *)
Lemma installed_flags s : flags_ok s → p_installed s = true → p_nbr s = true ∧ p_nbw s = true.
Proof. rw /flags_ok. destruct (p_main s); intros H E; destruct_and? H; split; congruence. Qed.

Lemma enter_ok s : p_inv s → p_installed s = true → p_handler s = None → p_inv (enter_handler s).
Proof.
  intros [Hf Hq Hb Hm] Hi Hh. split; cbn; [done|congruence|done|].
  rw /pmain_ok /main_errno Hh /= in Hm |- *. done.
Qed.

Lemma pending_inv s b : p_inv s → p_inv (p_set_pending s b).
Proof. by intros [Hf Hq Hb Hm]; split. Qed.

Lemma handler_inv b s s' : p_inv s → handler_move cap b s = Some s' → p_inv s'.
Proof.
  intros [Hf Hq Hb Hm] H. rw /handler_move in H.
  assert (p_handler s ≠ None → p_installed s = true) as Hi.
  { intros Hh. destruct (p_installed s); [done|]. by destruct (Hq eq_refl). }
  destruct (p_handler s) as [[saved|saved]|] eqn:Eh; [| |done]; specialize (Hi ltac:(done)).
  - destruct (Nat.ltb_spec (p_bytes s) cap) as [Hlt|Hge]; [|destruct (p_nbw s) eqn:En; [|done]]; injection H as <-.
    + split; cbn; [done|congruence| |by rw /pmain_ok /main_errno /= Eh in Hm |- *].
      destruct (before_ready (p_main s)); [lia|done].
    + split; cbn; [by rw /flags_ok En in Hf|congruence| |by rw /pmain_ok /main_errno /= Eh in Hm |- *].
      destruct (before_ready (p_main s)); [lia|done].
  - injection H as <-.
    set (s1 := p_set_errno (p_set_handler s None) saved).
    assert (p_inv s1) as H1.
    { split; cbn; [done|congruence|done|]. by rw /pmain_ok /main_errno /= Eh in Hm |- *. }
    set (s2 := back_in_main b s1).
    assert (p_inv s2 ∧ p_installed s2 = true ∧ p_handler s2 = None) as (H2 & Hi2 & Hh2).
    { rw /s2 /back_in_main. destruct (p_main s1) eqn:Em; try done. destruct b; [|done]. split; [|done].
      destruct H1 as [Hf1 Hq1 Hb1 Hm1]. rw /flags_ok Em in Hf1. rw Em in Hb1. rw /pmain_ok Em in Hm1.
      split; cbn; try done. }
    destruct (p_pending s2); [|done]. by apply enter_ok; [apply pending_inv|..].
Qed.

Lemma ready_fds_in bytes c : pfd0 ∈ ready_fds set pfd0 bytes c ↔ (0 < bytes)%nat.
Proof. rw /ready_fds. destruct (Nat.ltb_spec 0 bytes); split; intros H'; [done|set_solver|set_solver|lia]. Qed.

Lemma caught_text_seen s ready : ready_ok s ready → caught_text s = if bool_decide (pfd0 ∈ ready) then caught_line else [].
Proof.
  intros [_ Hr]. rw /caught_text. destruct (Nat.ltb_spec 0 (p_seen s)) as [H|H].
  - by rw bool_decide_true; [apply Hr|].
  - rw bool_decide_false //. intros Hin%Hr. lia.
Qed.

Lemma pmain_inv c s s' :
  p_inv s → p_end s = PRunning → p_handler s = None → pmain_move pto fds set pfd0 c s = Some s' → p_ok s'.
Proof.
  intros Hi He Hh. pose proof Hi as [Hf Hq Hb Hm]. destruct s as [e by_ nr nw ins pd h er pc o ct sn]. cbn in *. subst e h.
  rw /flags_ok /= in Hf. rw /pmain_ok /main_errno /= in Hm.
  destruct pc as [| | | | | |r l|r l|r l|r l]; cbn -[Nat.ltb] in *; intros H.
  - injection H as <-. by split.
  - injection H as <-. by split.
  - injection H as <-. destruct Hf. by split.
  - injection H as <-. destruct Hf as (? & ? & ?). destruct Hq as [_ ->]; [done|]. by split.
  - case_match; [|done]. injection H as <-. split; cbn; try done.
    split; [|done]. split; cbn; [rw /ready_fds; case_match; set_solver|]. rw ready_fds_in. lia.
  - injection H as <-. destruct Hm as [-> ->]. by split.
  - injection H as <-. destruct Hm as [Hr ->]. pose proof (caught_text_seen _ _ Hr) as Ht. rw /caught_text /= in Ht.
    case_bool_decide; split; cbn; try done; by rw /pmain_ok /caught_text /= Ht.
  - destruct Hf as (-> & ? & ?). destruct by_; injection H as <-; split; cbn; try done. naive_solver.
  - injection H as <-. destruct Hm as (? & ? & -> & ->). by split.
  - injection H as <-. intros _. exists r, l. split; [done|]. destruct Hm as [Hr Ho]. split; [done|]. cbn.
    by rw Ho.
Qed.

Lemma own_ok c b s s' :
  p_inv s → p_end s = PRunning → p_own cap pto fds set pfd0 c b s = Some s' → p_ok s'.
Proof.
  intros Hi He H. rw /p_own in H. destruct (p_handler s) as [h|] eqn:Eh; [|by apply (pmain_inv c s)].
  pose proof (handler_inv _ _ _ Hi H) as Hi'. rw /p_ok. enough (p_end s' = PRunning) as -> by done.
  rw /handler_move Eh in H. destruct h; [repeat case_match; naive_solver|]. injection H as <-.
  by rw /back_in_main; repeat case_match.
Qed.

Lemma interrupt_ok s : p_inv s → p_end s = PRunning → p_ok (interrupt s).
Proof.
  intros Hi He. rw /interrupt. destruct (p_installed s) eqn:Ei; [|done].
  destruct (p_handler s) as [h|] eqn:Eh; rw /p_ok /= He; [by apply pending_inv|by apply enter_ok].
Qed.

Lemma p_reach s : rtc (p_steps cap pto fds set pfd0) p_start s → p_ok s.
Proof.
  apply (rtc_ind_r p_ok).
  - split; cbn; [done..| |done]. by destruct cap.
  - intros s1 s2 _ [[c b t t' He H|t He]|(He & -> & _)] IH; [| |done]; rw /p_ok He in IH.
    + by apply (own_ok c b t).
    + by apply interrupt_ok.
Qed.

(** Outside [select] nothing blocks. *)
Lemma own_total c b s :
  p_inv s → p_handler s ≠ None ∨ p_main s ≠ PSelect → is_Some (p_own cap pto fds set pfd0 c b s).
Proof.
  intros [Hf Hq Hb Hm] H. rw /p_own. destruct (p_handler s) as [h|] eqn:Eh.
  - assert (p_installed s = true) as Hi by (destruct (p_installed s); [done|]; by destruct (Hq eq_refl)).
    destruct (installed_flags _ Hf Hi) as [_ Hw]. rw /handler_move Eh Hw. destruct h; [|done]. by destruct (p_bytes s <? cap)%nat; eexists.
  - destruct H as [|H]; [done|]. rw /pmain_move. rw /flags_ok in Hf. destruct (p_main s); try done.
    destruct Hf as (-> & _). by destruct (p_bytes s).
Qed.

(** No move of the program or of the handler ends it with a failure. *)
Lemma step_no_failure s s' :
  p_inv s → pstep cap pto fds set pfd0 s s' →
  p_end s' ≠ PEnded EXIT_FAILURE ∧ (p_end s' = PKilled → p_installed s = false).
Proof.
  intros [Hf Hq Hb Hm] Hs. destruct Hs as [c b s s' He H|s He].
  2: { rw /interrupt. destruct (p_installed s) eqn:Ei; [|done]. destruct (p_handler s); cbn; by rw He. }
  enough (p_end s' = PRunning ∨ p_end s' = PEnded EXIT_SUCCESS) as [-> | ->] by done.
  rw /p_own in H. destruct (p_handler s) as [h|] eqn:Eh.
  - left. rw /handler_move Eh in H. destruct h; [repeat case_match; naive_solver|]. injection H as <-.
    by rw /back_in_main; repeat case_match.
  - rw /pmain_move in H. rw /pmain_ok /main_errno Eh in Hm.
    destruct (p_main s) eqn:Em; try (injection H as <-; by left).
    + case_match; [|done]. injection H as <-. by left.
    + injection H as <-. destruct Hm as [-> _]. by left.
    + injection H as <-. left. by destruct (bool_decide (pfd0 ∈ ready)).
    + repeat case_match; try done; injection H as <-; by left.
    + injection H as <-. destruct Hm as (_ & _ & _ & ->). by left.
    + injection H as <-. by right.
Qed.
End proofs.

(** C17: However SIGINT interrupts the program: once a signal was caught,
    [select] returns at once and finds the pipe ready; the program blocks
    nowhere else and the handler never does, also when the pipe is full; the
    handler changes no [errno] that the main program tests, so that the program
    fails only if a call does, and it is killed only before the handler was
    set up; at the end the output says that a signal was caught if and only if
    one was before [select] returned, and reports the ready descriptors. *)
Theorem self_pipe_correct cap pto fds set pfd0 s :
  (0 < cap)%nat → rtc (p_steps cap pto fds set pfd0) p_start s →
  (p_end s = PRunning → p_handler s = None → p_main s = PSelect → (0 < p_caught s)%nat →
     ∀ c, ∃ s' ready rest, pmain_move pto fds set pfd0 c s = Some s' ∧ p_main s' = PReady ready rest ∧ pfd0 ∈ ready) ∧
  (p_end s = PRunning → p_handler s ≠ None ∨ p_main s ≠ PSelect →
     ∀ c b, is_Some (p_own cap pto fds set pfd0 c b s)) ∧
  (∀ s', pstep cap pto fds set pfd0 s s' →
     p_end s' ≠ PEnded EXIT_FAILURE ∧ (p_end s' = PKilled → p_installed s = false)) ∧
  (p_end s = PEnded EXIT_SUCCESS → ∃ ready rest,
     ready ⊆ {[pfd0]} ∪ set ∧ (pfd0 ∈ ready ↔ (0 < p_seen s)%nat) ∧
     p_out s = (if (0 <? p_seen s)%nat then caught_line else []) ++ report pto fds pfd0 ready rest).
Proof.
  intros Hcap Hr. pose proof (p_reach cap Hcap pto fds set pfd0 s Hr) as Hok. rw /p_ok in Hok. split_and!.
  - intros He Hh Em Hc c. rw He in Hok. pose proof (g_bytes _ _ _ _ Hok) as Hb. rw Em /= in Hb.
    assert (pfd0 ∈ ready_fds set pfd0 (p_bytes s) c) as Hin by (apply (ready_fds_in cap Hcap); lia).
    rw /pmain_move Em bool_decide_false; [set_solver|]. cbn. eexists _, _, _. split; [done|]. by split.
  - intros He H c b. rw He in Hok. by eapply own_total.
  - intros s' Hs. assert (p_end s = PRunning) as He by (by destruct Hs). rw He in Hok. eapply step_no_failure; [exact Hok|exact Hs].
  - intros He. rw He in Hok. destruct (Hok eq_refl) as (ready & rest & _ & [H1 H2] & Ho). by exists ready, rest.
Qed.

(** ** The arguments of [select] *)

(** The descriptors given are in the set, within its size and below [nfds]. *)
Lemma parse_fds_spec {K} `{!TlpiEnv K} args fds set nfds (s : tproc K) fds' set' nfds' s' :
  parse_fds args fds set nfds s = (Ret (fds', set', nfds'), s') →
  ∃ l, fds' = fds ++ l ∧ length l = length args ∧ set' = set ∪ list_to_set l ∧ nfds ≤ nfds' ≤ Z.max nfds FD_SETSIZE ∧
    Forall (λ fd, 0 ≤ fd < nfds' ∧ fd < FD_SETSIZE) l.
Proof.
  elim: args fds set nfds s => [|a args IH] fds set nfds s; cbn [parse_fds].
  - intros [= <- <- <- <-]. exists []. rw app_nil_r. split_and!; [done|done|set_solver|lia|lia|done].
  - rw {1}/mbind /M_bind. destruct (with_stderr _ s) as [[fd| | | |] s1]; try done.
    destruct (Z.leb_spec FD_SETSIZE fd) as [|Hfd]; [by rw /tcmdLineErr /io /cmdLineErr|].
    rw {1}/mbind /M_bind /FD_SET. case_bool_decide as Hr; [|done].
    rw -[(mret _ : M (tproc K) _) s1]/(Ret ({[fd]} ∪ set), s1). intros H. destruct (IH _ _ _ _ H) as (l & -> & Hlen & -> & Hn & Hl).
    exists (fd :: l). rw -app_assoc. split_and!; try done; [by rw /= Hlen|..].
    + set_solver.
    + destruct (Z.leb_spec nfds fd); lia.
    + destruct (Z.leb_spec nfds fd); lia.
    + constructor; [|done]. destruct (Z.leb_spec nfds fd); lia.
Qed.

(** ** A run *)

Module SelfPipeSim.
#[export] Instance env : TlpiEnv unit := { te_strerror _ := cs "error"; te_dumpcore := None }.

(** A negative descriptor passes the check, and the macro writes outside the
    set. *)
Lemma negative_fd_crashes :
  (self_pipe_args [cs "self_pipe"; cs "-"; cs "-1"] (TProc (EState [] [] [] 0) tt)).1 = Crash.
Proof. by vm_compute. Qed.

Definition nothing : choice := Choice ∅ false (0, 0).
Definition move (o : option bool) (s : pstate) : option pstate :=
  if decide (p_end s = PRunning) then
    match o with Some b => p_own 2 None [0] {[0]} 3 nothing b s | None => Some (interrupt s) end
  else None.
Definition run (l : list (option bool)) : option pstate := foldl (λ o m, o ≫= move m) (Some p_start) l.

Lemma run_rtc l s : run l = Some s → rtc (p_steps 2 None [0] {[0]} 3) p_start s.
Proof.
  rw /run. elim/rev_ind: l s => [|m l IH] s; [intros [= <-]; constructor|]. rw foldl_app /=.
  destruct (foldl _ _ l) as [s1|]; [|done]. cbn. rw /move. case_decide as He; [|done]. intros H.
  eapply rtc_r; [by apply IH|]. left. destruct m as [b|]; [exact (ps_own _ _ _ _ _ _ _ _ _ He H)|].
  injection H as <-. by apply ps_signal.
Qed.

(** Three signals on a pipe with room for two: one interrupts [select], the
    others come while its result is tested. *)
Definition schedule : list (option bool) :=
  replicate 4 (Some false) ++ [None; Some true; Some true; None; Some false; Some false; None] ++
  replicate 10 (Some false).
End SelfPipeSim.

Lemma self_pipe_correct_witness :
  ∃ s, SelfPipeSim.run SelfPipeSim.schedule = Some s ∧ p_end s = PEnded EXIT_SUCCESS ∧ p_seen s = 3%nat ∧
    ∃ ready rest, p_out s = caught_line ++ report None [0] 3 ready rest ∧ 3 ∈ ready.
Proof.
  assert ((λ s, (p_end s, p_seen s)) <$> SelfPipeSim.run SelfPipeSim.schedule = Some (PEnded EXIT_SUCCESS, 3%nat)) as H
    by (by vm_compute).
  destruct (SelfPipeSim.run SelfPipeSim.schedule) as [s|] eqn:E; [|done]. injection H as H1 H2.
  apply SelfPipeSim.run_rtc in E. exists s. split_and!; [done..|].
  destruct (self_pipe_correct 2 None [0] {[0]} 3 s) as (_ & _ & _ & H); [lia|done|].
  destruct (H H1) as (ready & rest & _ & Hin & Ho). rw H2 in Hin Ho. exists ready, rest. split; [exact Ho|]. apply Hin. lia.
Defined.
