(* ===== verification/RandDtree.v ===== *)
(** * Random operations on a directory tree: [inotify/rand_dtree.c]

    The companion of the directory tree monitor: it creates, deletes or renames
    directories of a tree at random, to exercise the monitor.  What it creates
    has a marker in its name, and only what has the marker is deleted or
    renamed.  The file system and the random numbers are an interface. *)

From S2P Require Import Prelude CStdlib ErrFns GetNum Tlpi Getopt.

Definition DLIM : nat := 60.
Definition D_INCR : Z := 1000.
Definition MARKER_STRING : cstring := cs "--".
Definition SLASH : ascii := "/".

(** ** Strings *)

Fixpoint prefixb (t s : cstring) : bool :=
  match t, s with
  | [], _ => true
  | x :: t, y :: s => bool_decide (x = y) && prefixb t s
  | _, _ => false
  end.

(** [strstr]: where [t] begins in [s]. *)
Fixpoint strstr (s t : cstring) : option nat :=
  if prefixb t s then Some O
  else match s with
       | [] => None
       | _ :: s => S <$> strstr s t
       end.

(** [strrchr(s, '/')]: what is before and behind the last slash. *)
Fixpoint last_slash (s : cstring) : option (cstring * cstring) :=
  match s with
  | [] => None
  | c :: r =>
      match last_slash r with
      | Some (a, b) => Some (c :: a, b)
      | None => if bool_decide (c = SLASH) then Some ([], r) else None
      end
  end.

(** [%04d] of a number that is not negative. *)
Definition fmt_04d (n : Z) : cstring := let t := fmt_d n in replicate (4 - length t) "0"%char ++ t.

Class RandOS (K : Type) := {
  (** [random]. *)
  rd_random : K → Z * K;
  rd_getpid : K → Z;
  (** The objects that [nftw] calls the function for, with whether they are
      directories, and whether it succeeds. *)
  rd_nftw : cstring → K → (list (cstring * bool) * res unit) * K;
  rd_realloc : Z → K → res unit * K;
  rd_strdup : cstring → K → bool * K;
  rd_mkdir : cstring → K → bool * K;
  rd_rmdir : cstring → K → bool * K;
  rd_rename : cstring → cstring → K → bool * K;
  rd_usleep : Z → K → K;
  (** [access(stopFile, F_OK)], where [stopFile] may be a null pointer. *)
  rd_access : option cstring → K → bool * K;
  rd_fopen : cstring → K → res unit * K;
  rd_fprintf : cstring → K → K;
}.

Section rand.
Context {K : Type} `{!TlpiEnv K, !RandOS K}.
Abbreviation T := (M (tproc K)).

(** The array: the pointers stored, which are null when [strdup] failed, and
    its size. *)
Record dirs := Dirs { dirList : list (option cstring); dlSize : Z }.

Definition rand_traverseTree (d : dirs) (entry : cstring * bool) : T dirs :=
  let '(pathname, isdir) := entry in
  if negb isdir then mret d
  else
    size ← (if dlSize d <=? Z.of_nat (length (dirList d)) then
              let size := to_int (dlSize d + D_INCR) in
              tchecked (cs "realloc") (rd_realloc size) ;; mret size
            else mret (dlSize d)) ;
    ok ← tsys (rd_strdup pathname) ;
    mret (Dirs (dirList d ++ [if ok : bool then Some pathname else None]) size).

Fixpoint traverse (d : dirs) (l : list (cstring * bool)) : T dirs :=
  match l with
  | [] => mret d
  | e :: l => d ← rand_traverseTree d e ; traverse d l
  end.

Definition getDirList (size : Z) (pathname : cstring) : T dirs :=
  r ← tsys (rd_nftw pathname) ;
  d ← traverse (Dirs [] size) r.1 ;
  match r.2 with
  | inl e => io (set_errno e) ;; terrMsg (cs "nftw: " ++ pathname) ;; mret d
  | inr _ => mret d
  end.

Definition rand_logMessage (log : bool) (t : cstring) : T unit := when log (tsys_ (rd_fprintf t)).

(** [dirList[random() % dcnt]]: a division by zero without directories, and a
    null pointer is not a string. *)
Definition pick (d : dirs) : T cstring :=
  match dirList d with
  | [] => stop Crash
  | _ =>
      r ← tsys rd_random ;
      match dirList d !! Z.to_nat (r mod Z.of_nat (length (dirList d))) with
      | Some (Some p) => mret p
      | _ => stop Crash
      end
  end.

(** Whether the turn of the main loop goes on behind the switch, or starts
    again. *)
Inductive next := Break | Continue.

Definition nslashes (p : cstring) : nat := length (filter (λ c, c = SLASH) p).

Definition try_mkdir (log : bool) (path : cstring) : T unit :=
  ok ← tsys (rd_mkdir path) ;
  when ok (rand_logMessage log (cs "mkdir: " ++ path ++ [NL])).

Definition pid100 (k : K) : cstring := fmt_d (Z.rem (rd_getpid k) 100).

(** The inner loop of the creation. *)
Fixpoint create_loop (fuel : nat) (log : bool) (opcnt : Z) (path : cstring) (scnt : Z) : T next :=
  match fuel with
  | O => stop NoFuel
  | S fuel =>
      r ← tsys rd_random ;
      if r mod 3 <? 2 then
        pid ← gets (λ s, pid100 (t_os s)) ;
        let full := path ++ [SLASH] ++ pid ++ MARKER_STRING ++ cs "scr" ++ fmt_d scnt ++ cs "_" ++ fmt_d opcnt in
        let spath := snprintf PATH_MAX full in
        if (DLIM <? length full)%nat then mret Break
        else
          try_mkdir log spath ;;
          create_loop fuel log opcnt (snprintf PATH_MAX spath) (scnt + 1)
      else mret Break
  end.

Definition op_create (log : bool) (opcnt : Z) (d : dirs) : T next :=
  p ← pick d ;
  pid ← gets (λ s, pid100 (t_os s)) ;
  let path := snprintf PATH_MAX (p ++ [SLASH] ++ pid ++ MARKER_STRING ++ cs "cr" ++ cs "_" ++ fmt_d opcnt) in
  if (DLIM <? length path)%nat then mret Continue
  else
    skip ← (if (1 <? nslashes path)%nat
            then r ← tsys rd_random ; mret (0 <? r mod Z.of_nat (nslashes path))
            else mret false) ;
    if skip : bool then mret Continue
    else
      try_mkdir log path ;;
      create_loop (S DLIM) log opcnt path 1.

Fixpoint delete_loop (fuel : nat) (log : bool) (path : cstring) : T next :=
  match fuel with
  | O => stop NoFuel
  | S fuel =>
      match strstr path MARKER_STRING with
      | None => mret Break
      | Some _ =>
          ok ← tsys (rd_rmdir path) ;
          if negb ok then mret Break
          else
            rand_logMessage log (cs "rmdir: " ++ path ++ [NL]) ;;
            match last_slash path with
            | None => mret Break
            | Some (path, _) => delete_loop fuel log path
            end
      end
  end.

Definition op_delete (log : bool) (d : dirs) : T next :=
  match dirList d with
  | [] => mret Continue
  | _ =>
      p ← pick d ;
      let path := snprintf PATH_MAX p in
      delete_loop (S (length path)) log path
  end.

(** A path without a slash has no name behind one: [p + 1] is not a string. *)
Definition op_move (log : bool) (opcnt : Z) (d : dirs) : T next :=
  if (length (dirList d) <? 3)%nat then mret Continue
  else
    to_move ← pick d ;
    match strstr to_move MARKER_STRING with
    | None => mret Break
    | Some _ =>
        match last_slash to_move with
        | None => stop Crash
        | Some (_, name) =>
            let tfile := snprintf PATH_MAX name in
            let tfile := match strstr tfile (cs "__ren") with Some i => take i tfile | None => tfile end in
            dir ← pick d ;
            pid ← gets (λ s, fmt_d (rd_getpid (t_os s))) ;
            let full := dir ++ [SLASH] ++ tfile ++ cs "__ren" ++ fmt_04d opcnt ++ cs "-" ++ pid in
            if (DLIM <? length full)%nat then mret Break
            else
              let target := snprintf PATH_MAX full in
              ok ← tsys (rd_rename to_move target) ;
              when ok (rand_logMessage log (cs "rename: " ++ to_move ++ cs " ==> " ++ target ++ [NL])) ;;
              mret Break
        end
    end.

(** [argv[optind + 1][0]]. *)
Definition operation (mode : cstring) (log : bool) (opcnt : Z) (d : dirs) : T next :=
  match mode with
  | "c"%char :: _ => op_create log opcnt d
  | "d"%char :: _ => op_delete log d
  | "m"%char :: _ => op_move log opcnt d
  | _ => mret Break
  end.

Record settings := Settings { s_log : bool; s_maxops : Z; s_usecs : Z; s_stopFile : option cstring }.

Fixpoint rand_loop (fuel : nat) (o : settings) (root mode : cstring) (size opcnt : Z) : T unit :=
  match fuel with
  | O => stop NoFuel
  | S fuel =>
      d ← getDirList size root ;
      n ← operation mode (s_log o) opcnt d ;
      match n with
      | Continue => rand_loop fuel o root mode (dlSize d) opcnt
      | Break =>
          let opcnt := to_int (opcnt + 1) in
          tsys_ (rd_usleep (s_usecs o)) ;;
          if (0 <? s_maxops o) && (s_maxops o <=? opcnt) then texit EXIT_SUCCESS
          else
            stopped ← tsys (rd_access (s_stopFile o)) ;
            if stopped : bool then texit EXIT_SUCCESS else rand_loop fuel o root mode (dlSize d) opcnt
      end
  end.

Definition rand_usage (pname : cstring) : cstring :=
  cs "Usage: " ++ pname ++ cs " [options] dirpath {c|d|m}" ++ [NL; NL] ++
  cs "Perform random operations in the directory tree 'dirpath'" ++ [NL] ++
  cs "    c == create directories" ++ [NL] ++
  cs "    d == delete directories" ++ [NL] ++
  cs "    m == rename directories" ++ [NL; NL] ++
  cs "Options:" ++ [NL] ++
  cs "    -l logfile     Record activity in log file" ++ [NL] ++
  cs "    -m maxops      Do at most 'maxops' operations (default is unlimited)" ++ [NL] ++
  cs "    -s usecs       Sleep 'usecs' microseconds between each operation" ++ [NL] ++
  cs "    -z stopfile    Immediately stop when the file 'stopfile' is created" ++ [NL].

Definition usageError {A} (pname : cstring) : T A := teprintf (rand_usage pname) ;; texit EXIT_FAILURE.

Definition rand_option (prog : cstring) (e : opt_event) (o : settings) : T settings :=
  match e with
  | Opt "s" (Some a) => mret (Settings (s_log o) (s_maxops o) (atoi a) (s_stopFile o))
  | Opt "z" (Some a) => mret (Settings (s_log o) (s_maxops o) (s_usecs o) (Some a))
  | Opt "m" (Some a) => mret (Settings (s_log o) (atoi a) (s_usecs o) (s_stopFile o))
  | Opt "l" (Some a) =>
      tchecked (cs "fopen") (rd_fopen a) ;;
      mret (Settings true (s_maxops o) (s_usecs o) (s_stopFile o))
  | BadOpt t => teprintf t ;; usageError prog
  | _ => usageError prog
  end%char.

Fixpoint rand_options (prog : cstring) (l : list opt_event) (o : settings) : T settings :=
  match l with
  | [] => mret o
  | e :: l => o ← rand_option prog e o ; rand_options prog l o
  end.

Definition rand_main (fuel : nat) (argv : list cstring) : T unit :=
  let prog := hd [] argv in
  let '(opts, rest) := options prog "l:m:s:z:" (tail argv) in
  o ← rand_options prog opts (Settings false 0 1 None) ;
  match rest with
  | root :: mode :: _ => rand_loop fuel o root mode 0 0
  | _ => usageError prog
  end.
End rand.

(** ** Strings with the marker *)

Definition marked (p : cstring) : Prop := ∃ a b, p = a ++ MARKER_STRING ++ b.

Lemma prefixb_spec t s : prefixb t s = true → ∃ r, s = t ++ r.
Proof.
  elim: t s => [|x t IH] [|y s] //=; [by exists []|by exists (y :: s)|].
  intros [->%bool_decide_eq_true (r & ->)%IH]%andb_prop. by exists r.
Qed.

Lemma strstr_split s t i : strstr s t = Some i → s = take i s ++ t ++ drop (i + length t) s.
Proof.
  elim: s i => [|c s IH] i; cbn [strstr]; destruct (prefixb t _) eqn:E; try done.
  1,2: apply prefixb_spec in E as [r E]; intros [= <-]; by rw E /= drop_app_length.
  destruct (strstr s t) as [j|] eqn:Ej; [|done]. intros [= <-]. cbn. f_equal. by apply IH.
Qed.

Lemma strstr_marked p i : strstr p MARKER_STRING = Some i → marked p.
Proof. intros H%strstr_split. rw H. by eexists _, _. Qed.

Lemma last_slash_split s a b : last_slash s = Some (a, b) → s = a ++ SLASH :: b.
Proof.
  elim: s a b => [|c s IH] a b //=. destruct (last_slash s) as [[a' b']|].
  - intros [= <- <-]. cbn. f_equal. by apply IH.
  - case_bool_decide; [|done]. intros [= <- <-]. by subst.
Qed.

(** ** What is done to the tree *)

Inductive fsop := Mkdir (p : cstring) | Rmdir (p : cstring) | Rename (a b : cstring).

(** [rd_ops] are the operations asked for. *)
Class RandOSOk (K : Type) `{!RandOS K} := {
  rd_ops : K → list fsop;
  rd_random_ok k r k' : rd_random k = (r, k') → rd_ops k' = rd_ops k ∧ 0 ≤ r;
  rd_getpid_ok k : 0 < rd_getpid k;
  rd_nftw_ok p k r k' : rd_nftw p k = (r, k') → rd_ops k' = rd_ops k;
  rd_realloc_ok n k r k' : rd_realloc n k = (r, k') → rd_ops k' = rd_ops k;
  rd_strdup_ok p k r k' : rd_strdup p k = (r, k') → rd_ops k' = rd_ops k;
  rd_mkdir_ok p k r k' : rd_mkdir p k = (r, k') → rd_ops k' = rd_ops k ++ [Mkdir p];
  rd_rmdir_ok p k r k' : rd_rmdir p k = (r, k') → rd_ops k' = rd_ops k ++ [Rmdir p];
  rd_rename_ok a b k r k' : rd_rename a b k = (r, k') → rd_ops k' = rd_ops k ++ [Rename a b];
  rd_usleep_ok n k : rd_ops (rd_usleep n k) = rd_ops k;
  rd_access_ok p k r k' : rd_access p k = (r, k') → rd_ops k' = rd_ops k;
  rd_fopen_ok p k r k' : rd_fopen p k = (r, k') → rd_ops k' = rd_ops k;
  rd_fprintf_ok t k : rd_ops (rd_fprintf t k) = rd_ops k;
}.

Section proofs.
Context {K : Type} `{!TlpiEnv K, !RandOS K, !RandOSOk K}.
Implicit Types (s : tproc K) (ok : fsop → Prop).
Abbreviation ops s := (rd_ops (t_os s)).

(** Every operation of the run is [ok].  The program may crash only if [C], and
    run out of fuel only if [F]. *)
Definition does (C F : Prop) ok {A} (m : M (tproc K) A) (Q : A → Prop) s : Prop :=
  let '(o, s') := m s in
  (∃ l, ops s' = ops s ++ l ∧ Forall ok l) ∧
  match o with Ret a => Q a | Crash => C | NoFuel => F | _ => True end.

Section rules.
Context (C F : Prop) ok.

Lemma does_ret {A} (a : A) (Q : A → Prop) s : Q a → does C F ok (mret a) Q s.
Proof. intros H. split; [|exact H]. exists []. by rw app_nil_r. Qed.

Lemma does_crash {A} (Q : A → Prop) s : C → does C F ok (stop Crash) Q s.
Proof. intros H. split; [|exact H]. exists []. by rw app_nil_r. Qed.

Lemma does_bind {A B} (m : M (tproc K) A) (k : A → M (tproc K) B) Q s :
  does C F ok m (λ a, ∀ s', does C F ok (k a) Q s') s → does C F ok (m ≫= k) Q s.
Proof.
  rw /does /mbind /M_bind. destruct (m s) as [o s1]. intros [(l & Hl & Hok) Ho].
  destruct o; try by split; [exists l|].
  specialize (Ho s1). destruct (k a s1) as [o s2]. destruct Ho as [(l2 & Hl2 & Hok2) Ho]. split; [|done].
  exists (l ++ l2). rw Hl2 Hl app_assoc. split; [done|by apply Forall_app_2].
Qed.

Lemma does_conseq {A} (m : M (tproc K) A) (Q Q' : A → Prop) s :
  does C F ok m Q s → (∀ a, Q a → Q' a) → does C F ok m Q' s.
Proof. rw /does. destruct (m s) as [o s']. intros [H Ho] HQ. split; [done|]. destruct o; auto. Qed.

(** A call that does [l]. *)
Lemma does_tsys {A} (f : K → A * K) l (Q : A → Prop) s :
  (∀ k v k', f k = (v, k') → rd_ops k' = rd_ops k ++ l ∧ Q v) → Forall ok l → does C F ok (tsys f) Q s.
Proof.
  intros H Hl. rw /does /tsys. destruct (f (t_os s)) as [v k] eqn:E. destruct (H _ _ _ E) as [Ho Hv].
  split; [|done]. exists l. by cbn.
Qed.

Lemma does_gets {A} (f : tproc K → A) (Q : A → Prop) s : (∀ s, Q (f s)) → does C F ok (gets f) Q s.
Proof. intros H. split; [|apply H]. exists []. by rw app_nil_r. Qed.

Lemma does_io {A} (m : M estate A) (Q : A → Prop) s :
  (∀ e, match (m e).1 with Ret a => Q a | Crash => C | NoFuel => F | _ => True end) → does C F ok (io m) Q s.
Proof.
  intros H. rw /does /io. specialize (H (t_io s)). destruct (m (t_io s)) as [o e]. split; [|exact H].
  exists []. by rw /= app_nil_r.
Qed.

Lemma does_terrExit {A} msg (Q : A → Prop) s : does C F ok (terrExit msg) Q s.
Proof. apply does_io. intros e. rw errExit_eq. by case_bool_decide. Qed.

Lemma does_tchecked {A} msg (f : K → res A * K) (Q : A → Prop) s :
  (∀ k v k', f k = (v, k') → rd_ops k' = rd_ops k) → (∀ v, Q v) → does C F ok (tchecked msg f) Q s.
Proof.
  intros H HQ. rw /tchecked /tcall. do 2 apply does_bind. apply (does_tsys _ []); [|done].
  intros k v k' E. rw app_nil_r. split; [exact (H _ _ _ E)|]. intros s1. destruct v as [e|v].
  - apply does_bind, does_io. intros e' s2. apply does_ret. intros s3. apply does_terrExit.
  - apply does_ret. intros s2. by apply does_ret.
Qed.

Lemma does_log log t (Q : unit → Prop) s : Q tt → does C F ok (rand_logMessage log t) Q s.
Proof.
  intros H. rw /rand_logMessage. destruct log; [|by apply does_ret]. split; [|exact H]. exists [].
  by rw /= rd_fprintf_ok app_nil_r.
Qed.

Lemma does_texit {A} n (Q : A → Prop) s : does C F ok (texit n) Q s.
Proof. apply does_bind, does_io. intros e s1. split; [|done]. exists []. by rw app_nil_r. Qed.
End rules.

(** A name that the program makes up. *)
Definition new_dir (p : cstring) : Prop :=
  (length p ≤ DLIM)%nat ∧ ∃ dir name, p = dir ++ SLASH :: name ∧ marked name ∧ SLASH ∉ name.

Definition op_ok (mode : cstring) (o : fsop) : Prop :=
  match o with
  | Mkdir p => head mode = Some "c"%char ∧ new_dir p
  | Rmdir p => head mode = Some "d"%char ∧ marked p
  | Rename a b => head mode = Some "m"%char ∧ marked a ∧ (length b ≤ DLIM)%nat
  end.

Lemma slash_separator : separator SLASH.
Proof. by split. Qed.

(** [<dir>/<pid>--<kind>...]. *)
Lemma new_dir_made dir pid kind t :
  (length (dir ++ [SLASH] ++ fmt_d pid ++ MARKER_STRING ++ kind ++ t) ≤ DLIM)%nat →
  SLASH ∉ kind → SLASH ∉ t → new_dir (dir ++ [SLASH] ++ fmt_d pid ++ MARKER_STRING ++ kind ++ t).
Proof.
  intros Hl Hk Ht. split; [done|]. exists dir, (fmt_d pid ++ MARKER_STRING ++ kind ++ t). split; [done|]. split.
  - by exists (fmt_d pid), (kind ++ t).
  - rw !not_elem_of_app. split_and!; try done; [apply fmt_d_no_sep, slash_separator|].
    by rw /MARKER_STRING /= !not_elem_of_cons; split_and!; [..|apply not_elem_of_nil].
Qed.

Lemma number_no_slash n : SLASH ∉ fmt_d n.
Proof. apply fmt_d_no_sep, slash_separator. Qed.

Section operations.
Context (C : Prop).
Abbreviation D m ok := (does C False ok m).

Lemma does_random ok (Q : Z → Prop) s : (∀ r, 0 ≤ r → Q r) → does C False ok (tsys rd_random) Q s.
Proof.
  intros H. apply (does_tsys _ _ _ _ []); [|done]. intros k r k' [Ho Hr]%rd_random_ok. rw app_nil_r. auto.
Qed.

Lemma does_mkdir mode log p (Q : unit → Prop) s :
  op_ok mode (Mkdir p) → Q tt → does C False (op_ok mode) (try_mkdir log p) Q s.
Proof.
  intros Hp HQ. rw /try_mkdir. apply does_bind, (does_tsys _ _ _ _ [Mkdir p]); [|by constructor].
  intros k r k' E. split; [exact (rd_mkdir_ok _ _ _ _ E)|]. intros s1. destruct r; [by apply does_log|by apply does_ret].
Qed.

Lemma does_pick ok d (Q : cstring → Prop) s :
  (dirList d = [] ∨ None ∈ dirList d → C) → (∀ p, Some p ∈ dirList d → Q p) → does C False ok (pick d) Q s.
Proof.
  intros HC HQ. rw /pick. destruct (dirList d) as [|x l] eqn:E; [apply does_crash; auto|].
  apply does_bind, does_random. intros r Hr s1.
  destruct (_ !! _) as [[p|]|] eqn:El.
  - apply does_ret, HQ. exact (list_elem_of_lookup_2 _ _ _ El).
  - apply does_crash, HC. right. exact (list_elem_of_lookup_2 _ _ _ El).
  - exfalso. apply lookup_ge_None in El.
    pose proof (Z.mod_pos_bound r (Z.of_nat (length (x :: l))) ltac:(cbn; lia)). lia.
Qed.

(** The inner loop ends whatever [random] returns, since the path grows. *)
Lemma create_loop_does mode fuel log opcnt path scnt s :
  head mode = Some "c"%char → (length path ≤ DLIM)%nat → (DLIM < fuel + length path)%nat →
  does C False (op_ok mode) (create_loop fuel log opcnt path scnt) (λ _, True) s.
Proof.
  intros Hc. elim: fuel path scnt s => [|fuel IH] path scnt s Hl Hf; [lia|]. cbn [create_loop].
  apply does_bind, does_random. intros r _ s1. destruct (r mod 3 <? 2); [|by apply does_ret].
  apply does_bind, does_gets. intros s2 s3. set (full := path ++ _).
  destruct (Nat.ltb_spec DLIM (length full)) as [|Hle]; [by apply does_ret|].
  assert (snprintf PATH_MAX full = full) as E by (apply snprintf_fits; rw /PATH_MAX; rw /DLIM in Hle; lia).
  rw !E. assert (length path < length full)%nat as Hlt by (rw /full length_app /=; lia).
  apply does_bind, does_mkdir; [split; [done|]|].
  - apply new_dir_made; [done| |].
    + by rw /= !not_elem_of_cons; split_and!; [..|apply not_elem_of_nil].
    + rw !not_elem_of_app. split_and!; [apply number_no_slash| |apply number_no_slash].
      by rw /= not_elem_of_cons; split; [|apply not_elem_of_nil].
  - intros s4. apply IH; lia.
Qed.

Lemma op_create_does mode log opcnt d s :
  head mode = Some "c"%char → (dirList d = [] ∨ None ∈ dirList d → C) →
  does C False (op_ok mode) (op_create log opcnt d) (λ _, True) s.
Proof.
  intros Hc HC. rw /op_create. apply does_bind, does_pick; [done|]. intros p _ s1.
  apply does_bind, does_gets. intros s2 s3. set (full := p ++ _).
  destruct (Nat.ltb_spec DLIM (length (snprintf PATH_MAX full))) as [|Hle]; [by apply does_ret|].
  assert (snprintf PATH_MAX full = full) as E.
  { rw /snprintf. apply take_ge. rw /snprintf length_take in Hle. rw /DLIM /PATH_MAX in Hle |- *. lia. }
  rw !E in Hle |- *. apply does_bind. eapply does_conseq.
  { instantiate (1 := λ _, True). destruct (1 <? nslashes full)%nat; [|by apply does_ret].
    apply does_bind, does_random. intros r _ s4. by apply does_ret. }
  intros [] _ s4; [by apply does_ret|]. apply does_bind, does_mkdir; [split; [done|]|].
  - apply new_dir_made; [done| |].
    + by rw /= !not_elem_of_cons; split_and!; [..|apply not_elem_of_nil].
    + rw not_elem_of_app. split; [|apply number_no_slash]. by rw /= not_elem_of_cons; split; [|apply not_elem_of_nil].
  - intros s5. apply create_loop_does; [done|done|lia].
Qed.

(** The loop ends since the path gets shorter. *)
Lemma delete_loop_does mode fuel log path s :
  head mode = Some "d"%char → (length path < fuel)%nat →
  does C False (op_ok mode) (delete_loop fuel log path) (λ _, True) s.
Proof.
  intros Hd. elim: fuel path s => [|fuel IH] path s Hf; [lia|]. cbn [delete_loop].
  destruct (strstr path MARKER_STRING) as [i|] eqn:Em; [|by apply does_ret].
  apply does_bind, (does_tsys _ _ _ _ [Rmdir path]).
  2: { constructor; [|done]. split; [done|exact (strstr_marked _ _ Em)]. }
  intros k r k' E. split; [exact (rd_rmdir_ok _ _ _ _ E)|]. intros s1. destruct r; [|by apply does_ret]. cbn [negb].
  apply does_bind, does_log. intros s2. destruct (last_slash path) as [[a b]|] eqn:Es; [|by apply does_ret].
  apply IH. apply last_slash_split in Es. rw Es length_app /= in Hf. lia.
Qed.

Lemma op_delete_does mode log d s :
  head mode = Some "d"%char → (None ∈ dirList d → C) →
  does C False (op_ok mode) (op_delete log d) (λ _, True) s.
Proof.
  intros Hd HC. rw /op_delete. destruct (dirList d) as [|x l] eqn:E; [by apply does_ret|].
  apply does_bind, does_pick; [rw E; naive_solver|]. intros p _ s1. apply delete_loop_does; [done|lia].
Qed.

Lemma op_move_does mode log opcnt d s :
  head mode = Some "m"%char → (None ∈ dirList d ∨ (∃ p, Some p ∈ dirList d ∧ last_slash p = None) → C) →
  does C False (op_ok mode) (op_move log opcnt d) (λ _, True) s.
Proof.
  intros Hm HC. rw /op_move. destruct (Nat.ltb_spec (length (dirList d)) 3) as [|Hl]; [by apply does_ret|].
  assert (dirList d = [] ∨ None ∈ dirList d → C) as HC'.
  { intros [E|?]; [rw E /= in Hl; lia|auto]. }
  apply does_bind, does_pick; [done|]. intros p Hp s1.
  destruct (strstr p MARKER_STRING) as [i|] eqn:Em; [|by apply does_ret].
  destruct (last_slash p) as [[a name]|] eqn:Es; [|apply does_crash; eauto].
  apply does_bind, does_pick; [done|]. intros dir _ s2. apply does_bind, does_gets. intros s3 s4.
  set (full := dir ++ _). destruct (Nat.ltb_spec DLIM (length full)) as [|Hle]; [by apply does_ret|].
  apply does_bind, (does_tsys _ _ _ _ [Rename p (snprintf PATH_MAX full)]).
  2: { constructor; [|done]. split_and!; [done|exact (strstr_marked _ _ Em)|]. rw /snprintf length_take. lia. }
  intros k r k' E. split; [exact (rd_rename_ok _ _ _ _ _ E)|]. intros s5. apply does_bind.
  destruct r; [|by do 2 (apply does_ret; try intros s6)]. apply does_log. intros s6. by apply does_ret.
Qed.
End operations.

(** Why an operation may crash: a directory whose name could not be stored,
    nothing to choose from, or a name without a slash. *)
Definition crashes (mode : cstring) (d : dirs) : Prop :=
  None ∈ dirList d ∨ head mode = Some "c"%char ∧ dirList d = [] ∨
  head mode = Some "m"%char ∧ ∃ p, Some p ∈ dirList d ∧ last_slash p = None.

Lemma operation_does mode log opcnt d s :
  does (crashes mode d) False (op_ok mode) (operation mode log opcnt d) (λ _, True) s.
Proof.
  rw /operation. destruct mode as [|c r]; [by apply does_ret|].
  destruct (decide (c = "c"%char)) as [->|Hc]; [apply op_create_does; [done|rw /crashes; naive_solver]|].
  destruct (decide (c = "d"%char)) as [->|Hd]; [apply op_delete_does; [done|rw /crashes; naive_solver]|].
  destruct (decide (c = "m"%char)) as [->|Hm]; [apply op_move_does; [done|rw /crashes; naive_solver]|].
  replace (match c with "c"%char => _ | _ => _ end) with (mret Break : M (tproc K) next); [by apply does_ret|].
  by destruct c as [[] [] [] [] [] [] [] []].
Qed.

(** C36: An operation of the generator ends whatever random numbers it gets.
    It asks only for directories with the marker in their own name and paths
    within the limit to be created, only for paths with the marker to be
    removed or renamed, and only for what its mode says; it crashes only if a
    name could not be stored, the tree is empty or a name has no slash. *)
Theorem operation_correct mode log opcnt d s :
  let '(o, s') := operation mode log opcnt d s in
  (∃ l, rd_ops (t_os s') = rd_ops (t_os s) ++ l ∧ Forall (op_ok mode) l) ∧
  match o with NoFuel => False | Crash => crashes mode d | _ => True end.
Proof.
  pose proof (operation_does mode log opcnt d s) as H.
  rw /does in H. destruct (operation mode log opcnt d s) as [[a|n| | |] s']; naive_solver.
Qed.

(** ** The whole program *)

Lemma does_weaken (C F C' F' : Prop) ok {A} (m : M (tproc K) A) Q s :
  (C → C') → (F → F') → does C F ok m Q s → does C' F' ok m Q s.
Proof. rw /does. destruct (m s) as [o s']. intros HC HF [H Ho]. split; [done|]. destruct o; auto. Qed.

Lemma getDirList_does C F ok size root s : does C F ok (getDirList size root) (λ _, True) s.
Proof.
  assert (∀ l d s, does C F ok (traverse d l) (λ _, True) s) as Ht.
  { elim=> [|[p isdir] l IH] d s1; cbn [traverse]; [by apply does_ret|]. apply does_bind.
    eapply does_conseq; [|intros d' _ s2; apply IH]. instantiate (1 := λ _, True). rw /rand_traverseTree.
    destruct isdir; [|by apply does_ret]. cbn [negb]. apply does_bind. eapply (does_conseq _ _ _ _ (λ _, True)).
    - destruct (_ <=? _); [|by apply does_ret]. apply does_bind, does_tchecked; [exact (rd_realloc_ok _)|].
      intros _ s2. by apply does_ret.
    - intros z _ s2. apply does_bind, (does_tsys _ _ _ _ []); [|done]. intros k v k' E. rw app_nil_r.
      split; [exact (rd_strdup_ok _ _ _ _ E)|]. intros s3. by apply does_ret. }
  rw /getDirList. apply does_bind, (does_tsys _ _ _ _ []); [|done]. intros k v k' E. rw app_nil_r.
  split; [exact (rd_nftw_ok _ _ _ _ E)|]. intros s1. apply does_bind. eapply does_conseq; [apply Ht|]. intros d _ s2.
  destruct v.2 as [e|]; [|by apply does_ret]. apply does_bind, does_io. intros e' s3.
  apply does_bind. rw /terrMsg. apply does_bind, does_gets. intros s4 s5. apply does_io. intros e2.
  rw errMsg_keeps_errno. intros s6. by apply does_ret.
Qed.

Lemma rand_loop_does fuel o root mode size opcnt s :
  does True True (op_ok mode) (rand_loop fuel o root mode size opcnt) (λ _, True) s.
Proof.
  elim: fuel size opcnt s => [|fuel IH] size opcnt s; cbn [rand_loop].
  { split; [|done]. exists []. by rw app_nil_r. }
  apply does_bind. eapply does_conseq; [apply getDirList_does|]. intros d _ s1. apply does_bind.
  eapply (does_weaken (crashes mode d) False); [done..|].
  eapply does_conseq; [apply operation_does|]. intros [] _ s2; [|apply IH].
  apply does_bind. split; [exists []; by rw /= rd_usleep_ok app_nil_r|]. intros s3.
  case_match; [apply does_texit|]. apply does_bind, (does_tsys _ _ _ _ []); [|done]. intros k v k' E. rw app_nil_r.
  split; [exact (rd_access_ok _ _ _ _ E)|]. intros s4. destruct v; [apply does_texit|apply IH].
Qed.

Lemma usageError_does {A} C F ok pname (Q : A → Prop) s : does C F ok (usageError pname) Q s.
Proof. apply does_bind, does_io. intros e s1. apply does_texit. Qed.

Lemma rand_options_does C F ok prog l o s : does C F ok (rand_options prog l o) (λ _, True) s.
Proof.
  elim: l o s => [|e l IH] o s; cbn [rand_options]; [by apply does_ret|]. apply does_bind.
  eapply (does_conseq _ _ _ _ (λ _, True)); [|intros o' _ s1; apply IH].
  destruct e as [c a|t]; cbn [rand_option]; [|apply does_bind, does_io; intros e s1; apply usageError_does].
  destruct (decide (c = "l"%char)) as [->|Hc].
  - destruct a; [|apply usageError_does]. apply does_bind, does_tchecked; [exact (rd_fopen_ok _)|].
    intros _ s1. by apply does_ret.
  - destruct a as [a|], c as [[] [] [] [] [] [] [] []]; try done; try apply usageError_does; by apply does_ret.
Qed.

(** Whatever the arguments, the run asks only for what its mode allows. *)
Lemma rand_main_ops fuel argv s :
  let mode := match (options (hd [] argv) "l:m:s:z:" (tail argv)).2 with _ :: m :: _ => m | _ => [] end in
  ∃ l, rd_ops (t_os (rand_main fuel argv s).2) = rd_ops (t_os s) ++ l ∧ Forall (op_ok mode) l.
Proof.
  intros mode. assert (does True True (op_ok mode) (rand_main fuel argv) (λ _, True) s) as H.
  { rw /rand_main /mode. destruct (options _ _ _) as [opts rest]. apply does_bind.
    eapply does_conseq; [apply rand_options_does|]. intros o _ s1. cbn [snd].
    destruct rest as [|root [|m rest]]; [apply usageError_does..|apply rand_loop_does]. }
  rw /does in H. destruct (rand_main fuel argv s) as [o s']. apply H.
Qed.
End proofs.

(** ** A file system *)

Module RandSim.
Record kern := Kern { k_dirs : list cstring; k_random : list Z; k_ops : list fsop }.

Definition below (root p : cstring) : bool := bool_decide (p = root) || prefixb (root ++ [SLASH]) p.
Definition log_op (k : kern) (dirs : list cstring) (o : fsop) : kern := Kern dirs (k_random k) (k_ops k ++ [o]).

#[export] Instance rand_env : TlpiEnv kern := { te_strerror _ := cs "error"; te_dumpcore := None }.

#[export] Instance rand_os : RandOS kern := {
  rd_random k := match k_random k with [] => (0, k) | r :: l => (Z.abs r, Kern (k_dirs k) l (k_ops k)) end;
  rd_getpid _ := 1234;
  rd_nftw root k := (((λ p, (p, true)) <$> filter (λ p, below root p = true) (k_dirs k), inr tt), k);
  rd_realloc _ k := (inr tt, k);
  rd_strdup _ k := (true, k);
  rd_mkdir p k := (true, log_op k (k_dirs k ++ [p]) (Mkdir p));
  (** Only a directory without others in it. *)
  rd_rmdir p k :=
    let empty := forallb (λ q, negb (prefixb (p ++ [SLASH]) q)) (k_dirs k) in
    (empty, log_op k (if empty then filter (λ q, q ≠ p) (k_dirs k) else k_dirs k) (Rmdir p));
  rd_rename a b k := (true, log_op k ((λ p, if decide (p = a) then b else p) <$> k_dirs k) (Rename a b));
  rd_usleep _ k := k;
  rd_access p k := (false, k);
  rd_fopen _ k := (inr tt, k);
  rd_fprintf _ k := k;
}.

#[export, refine] Instance rand_os_ok : RandOSOk kern := { rd_ops := k_ops }.
Proof.
  - intros [d [|r l] o] r' k' [= <- <-]; cbn; split; [done|lia|done|lia].
  - done.
  - by intros p k r k' [= _ <-].
  - by intros n k r k' [= _ <-].
  - by intros p k r k' [= _ <-].
  - by intros p k r k' [= _ <-].
  - by intros p k r k' [= _ <-].
  - by intros a b k r k' [= _ <-].
  - done.
  - by intros p k r k' [= _ <-].
  - by intros p k r k' [= _ <-].
  - done.
Defined.

Definition boot (dirs : list cstring) (random : list Z) : tproc kern :=
  TProc (EState [] [] [] 0) (Kern dirs random []).
Definition args (root mode : string) : list cstring := [cs "rand_dtree"; cs "-m"; cs "1"; cs root; cs mode].
End RandSim.
Import RandSim.

(** A directory and one in it are created. *)
Lemma operation_correct_witness :
  ∃ s', operation (cs "c") false 0 (Dirs [Some (cs "t")] 1000) (boot [cs "t"] [0; 1; 2]) = (Ret Break, s') ∧
    rd_ops (t_os s') = [Mkdir (cs "t/34--cr_0"); Mkdir (cs "t/34--cr_0/34--scr1_0")] ∧
    Forall (op_ok (cs "c")) (rd_ops (t_os s')).
Proof.
  pose proof (operation_correct (cs "c") false 0 (Dirs [Some (cs "t")] 1000) (boot [cs "t"] [0; 1; 2])) as H.
  destruct (operation _ _ _ _ (boot _ _)) as [o s'] eqn:E. vm_compute in E. injection E as <- <-.
  eexists. split; [reflexivity|]. split; [by vm_compute|]. destruct H as [(l & -> & Hl) _]. exact Hl.
Defined.

(** Without a directory the remainder by zero is computed. *)
Lemma rand_create_empty : (rand_main 1 (args "t" "c") (boot [] [])).1 = Crash.
Proof. by vm_compute. Qed.

(** A marker above the tree: its parent is removed too. *)
Lemma rand_delete_above :
  rd_ops (t_os (rand_main 1 (args "x--y/t" "d") (boot [cs "x--y"; cs "x--y/t"] [])).2) =
  [Rmdir (cs "x--y/t"); Rmdir (cs "x--y")].
Proof. by vm_compute. Qed.

(** With less than three directories the renaming never ends, although it was
    to do one operation. *)
Lemma rand_move_spins fuel : (rand_main fuel (args "t" "m") (boot [cs "t"] [])).1 = NoFuel.
Proof.
  rw /rand_main. replace (options _ _ _) with ([Opt "m"%char (Some (cs "1"))], [cs "t"; cs "m"]) by (by vm_compute).
  cbn [rand_options rand_option]. set (s := boot [cs "t"] []).
  assert (∀ size, size = 0 ∨ size = 1000 →
    (rand_loop fuel (Settings false 1 1 None) (cs "t") (cs "m") size 0 s).1 = NoFuel) as H; [|by apply (H 0); left].
  elim: fuel => [|fuel IH] size Hs; [done|]. cbn [rand_loop].
  assert (getDirList size (cs "t") s = (Ret (Dirs [Some (cs "t")] 1000), s)) as Hd by (by destruct Hs as [-> | ->]; vm_compute).
  rw (bind_Ret _ _ _ _ _ Hd). rw (bind_Ret _ _ s Continue s) //. apply IH. by right.
Qed.
