(* ===== verification/InitSetup.v ===== *)
(** * The start of init: [namespaces/simple_init.c]

    What the program of SimpleInit does before its loop: options, handler,
    process group and terminal, procfs.  The state it leaves is the initial
    state of that machine. *)

From S2P Require Import Prelude Process Getopt Threads SimpleInit.

Class InitOS (K : Type) := {
  ik_sigaction : K → res unit * K;
  ik_getpid : K → Z;
  (** [signal(SIGTTOU, SIG_IGN)]. *)
  ik_ignore_ttou : K → unit * K;
  ik_setpgid : K → res unit * K;
  ik_getpgrp : K → Z;
  ik_tcsetpgrp : Z → K → res unit * K;
  ik_make_slave : cstring → K → res unit * K;
  ik_mount_proc : cstring → K → res unit * K;
}.

Section setup.
Context {K : Type} `{!Strerror K, !InitOS K}.
Abbreviation P := (M (proc K)).

Definition TAB : ascii := "009".

Definition init_usage {A} (pname : cstring) : P A :=
  eprintf (cs "Usage: " ++ pname ++ cs " [-v] [-p proc-mount]" ++ [NL]) ;;
  eprintf ([TAB] ++ cs "-v              Provide verbose logging" ++ [NL]) ;;
  eprintf ([TAB] ++ cs "-p proc-mount   Mount a procfs at specified path" ++ [NL]) ;;
  exit EXIT_FAILURE.

(** [proc_path] and [verbose]. *)
Definition init_option (pname : cstring) (e : opt_event) (o : option cstring * bool) : P (option cstring * bool) :=
  match e with
  | Opt "p" (Some a) => mret (Some a, o.2)
  | Opt "v" _ => mret (o.1, true)
  | BadOpt t => eprintf t ;; init_usage pname
  | _ => init_usage pname
  end%char.

Fixpoint init_options (pname : cstring) (l : list opt_event) (o : option cstring * bool) : P (option cstring * bool) :=
  match l with
  | [] => mret o
  | e :: l => o ← init_option pname e o ; init_options pname l o
  end.

Definition mount_procfs (verbose : bool) (proc_path : cstring) : P unit :=
  when verbose (printf (cs "Making " ++ proc_path ++ cs " a private mount" ++ [NL])) ;;
  r ← psys (ik_make_slave proc_path) ;
  match r with
  | inl e => when (negb (e =? EINVAL)) (perror (cs "mount-make-slave-/") e)
  | inr _ => mret tt
  end ;;
  when verbose (printf (cs "Mounting procfs at " ++ proc_path ++ [NL])) ;;
  checked "mount-procfs" (ik_mount_proc proc_path).

Definition init_setup (argv : list cstring) : P (option cstring * bool) :=
  let pname := hd [] argv in
  o ← init_options pname (options pname "p:v" (tail argv)).1 (None, false) ;
  checked "sigaction" ik_sigaction ;;
  when o.2 (s ← get ; printf ([TAB] ++ cs "init: my PID is " ++ fmt_d (ik_getpid (p_os s)) ++ [NL])) ;;
  psys ik_ignore_ttou ;;
  checked "setpgid" ik_setpgid ;;
  s ← get ;
  checked "tcsetpgrp-child" (ik_tcsetpgrp (ik_getpgrp (p_os s))) ;;
  match o.1 with
  | Some proc_path => mount_procfs o.2 proc_path
  | None => mret tt
  end ;;
  mret o.

(** The machine that the loop is. *)
Definition loop_start (o : option cstring * bool) (input : list (list ascii)) : nstate :=
  init_start input (bool_decide (is_Some o.1)).
End setup.

(** ** What the calls do *)

Record iview := IView {
  iv_handler : bool; iv_ttou_ignored : bool; iv_pid : Z; iv_pgid : Z; iv_foreground : Z; iv_mounts : list cstring }.

Class InitOSOk (K : Type) `{!InitOS K} := {
  ik_view : K → iview;
  ik_getpid_ok k : ik_getpid k = iv_pid (ik_view k);
  ik_getpgrp_ok k : ik_getpgrp k = iv_pgid (ik_view k);
  ik_sigaction_ok k k' : ik_sigaction k = (inr tt, k') → let v := ik_view k in
    ik_view k' = IView true (iv_ttou_ignored v) (iv_pid v) (iv_pgid v) (iv_foreground v) (iv_mounts v);
  ik_ignore_ttou_ok k u k' : ik_ignore_ttou k = (u, k') → let v := ik_view k in
    ik_view k' = IView (iv_handler v) true (iv_pid v) (iv_pgid v) (iv_foreground v) (iv_mounts v);
  ik_setpgid_ok k k' : ik_setpgid k = (inr tt, k') → let v := ik_view k in
    ik_view k' = IView (iv_handler v) (iv_ttou_ignored v) (iv_pid v) (iv_pid v) (iv_foreground v) (iv_mounts v);
  ik_tcsetpgrp_ok g k k' : ik_tcsetpgrp g k = (inr tt, k') → let v := ik_view k in
    ik_view k' = IView (iv_handler v) (iv_ttou_ignored v) (iv_pid v) (iv_pgid v) g (iv_mounts v);
  ik_make_slave_ok p k r k' : ik_make_slave p k = (r, k') → ik_view k' = ik_view k;
  ik_mount_ok p k k' : ik_mount_proc p k = (inr tt, k') → let v := ik_view k in
    ik_view k' = IView (iv_handler v) (iv_ttou_ignored v) (iv_pid v) (iv_pgid v) (iv_foreground v) (p :: iv_mounts v);
}.

Section proofs.
Context {K : Type} `{!Strerror K, !InitOS K, !InitOSOk K}.
Implicit Types s : proc K.
Abbreviation view s := (ik_view (p_os s)).

Lemma usage_safe {A} pname (Q : A → proc K → Prop) s : safe (init_usage pname) Q s.
Proof. done. Qed.

Lemma init_options_safe pname l o s : safe (init_options pname l o) (λ _ s', p_os s' = p_os s) s.
Proof.
  elim: l o s => [|e l IH] o s; cbn [init_options]; [done|]. apply safe_bind.
  eapply (safe_conseq _ (λ _ s', p_os s' = p_os s)).
  - destruct e as [c a|t]; cbn [init_option]; [|done].
    destruct a as [a|], c as [[] [] [] [] [] [] [] []]; done.
  - intros o' s1 H. eapply safe_conseq; [apply IH|]. intros o'' s2 ->. exact H.
Qed.

Lemma mount_procfs_safe verbose p s :
  safe (mount_procfs verbose p) (λ _ s', let v := view s in
    view s' = IView (iv_handler v) (iv_ttou_ignored v) (iv_pid v) (iv_pgid v) (iv_foreground v) (p :: iv_mounts v)) s.
Proof.
  assert (∀ t (Q : unit → proc K → Prop) s b, (∀ s', p_os s' = p_os s → Q tt s') → safe (when b (printf t)) Q s) as Hp.
  { intros t Q s1 b H. destruct b; [apply safe_printf|apply safe_ret]; by apply H. }
  rw /mount_procfs. apply safe_bind, Hp. intros s1 E1. apply safe_bind, safe_psys. intros r k Hr.
  apply ik_make_slave_ok in Hr. apply safe_bind. eapply (safe_conseq _ (λ _ s', p_os s' = k)).
  { destruct r as [e|]; [|done]. by destruct (negb (e =? EINVAL)). }
  intros _ s2 E2. apply safe_bind, Hp. intros s3 E3. apply safe_checked. intros [] k' Hm. cbn.
  rw (ik_mount_ok _ _ _ Hm) E3 E2 Hr E1. done.
Qed.

(** The setup neither crashes nor hangs; when it is done, the handler is set,
    the program leads the foreground process group with SIGTTOU ignored, and the
    procfs is mounted exactly if that was asked for. *)
Lemma init_setup_ready argv s :
  safe (init_setup argv) (λ o s', let v := view s in
    view s' = IView true true (iv_pid v) (iv_pid v) (iv_pid v)
                (match o.1 with Some p => p :: iv_mounts v | None => iv_mounts v end)) s.
Proof.
  rw /init_setup. apply safe_bind. eapply safe_conseq; [apply init_options_safe|]. intros o s1 E1.
  apply safe_bind, safe_checked. intros [] k2 H2%ik_sigaction_ok. apply safe_bind.
  eapply (safe_conseq _ (λ _ s', p_os s' = k2)); [by destruct o.2|]. intros _ s3 E3.
  apply safe_bind, safe_psys. intros [] k4 H4%ik_ignore_ttou_ok.
  apply safe_bind, safe_checked. intros [] k5 H5%ik_setpgid_ok. apply safe_bind. cbn.
  apply safe_bind, safe_checked. intros [] k6 H6%ik_tcsetpgrp_ok. apply safe_bind. cbn in *.
  rw ik_getpgrp_ok H5 H4 E3 H2 E1 /= in H6.
  destruct o.1 as [p|] eqn:Eo.
  - eapply safe_conseq; [apply mount_procfs_safe|]. intros [] s7 H7. apply safe_ret. by rw Eo H7 /= H6.
  - apply safe_ret, safe_ret. by rw Eo.
Qed.
End proofs.

(** After a successful end of the loop nothing is mounted that was not before
    the setup. *)
Lemma init_unmounts {K} `{!Strerror K, !InitOS K, !InitOSOk K} argv (s : proc K) o s' input n :
  init_setup argv s = (Ret o, s') → rtc nstep (loop_start o input) n → n_pc n = NExit EXIT_SUCCESS →
  n_mounted n = false ∧
  iv_mounts (ik_view (p_os s')) = (if n_mounted (loop_start o input) then [default [] o.1] else []) ++ iv_mounts (ik_view (p_os s)).
Proof.
  intros Hs Hr Hn. split; [apply (n_reach_inv _ _ _ Hr), Hn|].
  pose proof (init_setup_ready argv s) as H. rw /safe Hs in H. rw H /=.
  destruct o.1; [by rw bool_decide_true|by rw bool_decide_false; [intros []|]].
Qed.
