(* ===== verification/ShmSetup.v ===== *)
(** * The start of the shared memory transfer: [svshm/svshm_xfr_writer.c] and
      [svshm/svshm_xfr_reader.c]

    The two programs of ShmXfr from their first call on: the writer creates and
    initializes the objects while the reader may already look for them. *)

From S2P Require Import Prelude ShmXfr.

(** Before each call; behind them the loop of the program. *)
Inductive wsetup := WsSemget | WsInitWrite | WsInitRead | WsShmget | WsAttach | WsRun | WsFailed.
Inductive rsetup := RsSemget | RsShmget | RsAttach | RsRun | RsFailed.
#[export] Instance wsetup_eq_dec : EqDecision wsetup.
Proof. solve_decision. Defined.
#[export] Instance rsetup_eq_dec : EqDecision rsetup.
Proof. solve_decision. Defined.

(** Whether the semaphores and the segment exist; their values are those of
    [f_x]. *)
Record setup_state := FState { f_sem : bool; f_shm : bool; f_w : wsetup; f_r : rsetup; f_x : xfr }.

Definition set_sems (x : xfr) (ws rs : Z) : xfr :=
  Xfr ws rs (x_cnt x) (x_buf x) (x_w x) (x_w_bytes x) (x_w_xfrs x) (x_left x) (x_r x) (x_r_bytes x) (x_r_xfrs x) (x_out x).
Definition set_segment (x : xfr) (c : Z) (b : list ascii) : xfr :=
  Xfr (x_write_sem x) (x_read_sem x) c b (x_w x) (x_w_bytes x) (x_w_xfrs x) (x_left x) (x_r x) (x_r_bytes x) (x_r_xfrs x) (x_out x).

(** [semget] with IPC_CREAT: new semaphores have the value 0; a new segment is
    filled with zeros. *)
Definition writer_setup (s : setup_state) : option setup_state :=
  let '(FState sem shm w r x) := s in
  match w with
  | WsSemget => Some (FState true shm WsInitWrite r (if sem then x else set_sems x 0 0))
  | WsInitWrite => Some (FState sem shm WsInitRead r (set_sems x 1 (x_read_sem x)))
  | WsInitRead => Some (FState sem shm WsShmget r (set_sems x (x_write_sem x) 0))
  | WsShmget => Some (FState sem true WsAttach r (if shm then x else set_segment x 0 (replicate BUF_SIZE NUL)))
  | WsAttach => Some (FState sem shm WsRun r x)
  | WsRun | WsFailed => None
  end.

(** The reader does not create anything. *)
Definition reader_setup (s : setup_state) : option setup_state :=
  let '(FState sem shm w r x) := s in
  match r with
  | RsSemget => Some (FState sem shm w (if sem then RsShmget else RsFailed) x)
  | RsShmget => Some (FState sem shm w (if shm then RsAttach else RsFailed) x)
  | RsAttach => Some (FState sem shm w RsRun x)
  | RsRun | RsFailed => None
  end.

Inductive fstep : setup_state → setup_state → Prop :=
  | f_writer s s' : writer_setup s = Some s' → fstep s s'
  | f_reader s s' : reader_setup s = Some s' → fstep s s'
  (** The loops.  The writer removes the objects at its end. *)
  | f_wstep sem shm r x x' : wstep x x' →
      fstep (FState sem shm WsRun r x)
        (if decide (x_w x' = WDone) then FState false false WsRun r x' else FState sem shm WsRun r x')
  | f_rstep sem shm w x x' : rstep x x' → fstep (FState sem shm w RsRun x) (FState sem shm w RsRun x')
  (** A call of a setup fails. *)
  | f_wfail sem shm w r x : w ≠ WsRun → fstep (FState sem shm w r x) (FState sem shm WsFailed r x)
  | f_rfail sem shm w r x : r ≠ RsRun → fstep (FState sem shm w r x) (FState sem shm w RsFailed x).

(** The programs as they are started, with what is left of the objects of
    other runs. *)
Definition f_start (sem shm : bool) (ws rs c : Z) (b input : list ascii) : setup_state :=
  FState sem shm WsSemget RsSemget (Xfr ws rs c b WReserve 0 0 input RReserve 0 0 []).

(** ** Without old objects the start is harmless *)

(** The loops have not begun. *)
Definition idle (input : list ascii) (x : xfr) : Prop :=
  ∃ ws rs c b, x = Xfr ws rs c b WReserve 0 0 input RReserve 0 0 [].

Definition setup_inv (input : list ascii) (s : setup_state) : Prop :=
  match f_w s with
  | WsAttach | WsRun => reach input (f_x s)
  | _ => f_shm s = false ∧ f_r s ≠ RsAttach ∧ f_r s ≠ RsRun ∧ idle input (f_x s) ∧
         (f_w s = WsInitRead → x_write_sem (f_x s) = 1) ∧
         (f_w s = WsShmget → x_write_sem (f_x s) = 1 ∧ x_read_sem (f_x s) = 0)
         ∨ f_w s = WsFailed ∧ reach input (f_x s)
  end.

Lemma setup_step_inv input s s' : setup_inv input s → fstep s s' → setup_inv input s'.
Proof.
  intros Hi Hs. destruct Hs as [s s' H|s s' H|sem shm r x x' H|sem shm w x x' H|sem shm w r x Hw|sem shm w r x Hr].
  - destruct s as [sem shm w r x]. rw /setup_inv /= in Hi. destruct w; simplify_eq/=; rw /setup_inv /=.
    + destruct Hi as [(-> & H1 & H2 & (ws & rs & c & b & ->) & _)|[? _]]; [|done]. left.
      split_and!; try done. destruct sem; by eexists _, _, _, _.
    + destruct Hi as [(-> & H1 & H2 & (ws & rs & c & b & ->) & _)|[? _]]; [|done]. left.
      split_and!; try done. by eexists _, _, _, _.
    + destruct Hi as [(-> & H1 & H2 & (ws & rs & c & b & ->) & H3 & _)|[? _]]; [|done]. left.
      cbn in H3. rw (H3 eq_refl). split_and!; try done. by eexists _, _, _, _.
    + destruct Hi as [(-> & H1 & H2 & (ws & rs & c & b & ->) & _ & H3)|[? _]]; [|done]. cbn in H3.
      destruct (H3 eq_refl) as [-> ->]. apply reach_start. exists 0, (replicate BUF_SIZE NUL). split; reflexivity.
    + done.
  - destruct s as [sem shm w r x]. rw /setup_inv /= in Hi.
    destruct r; simplify_eq/=; rw /setup_inv /=; destruct w; try done; destruct sem, shm; naive_solver.
  - rw /setup_inv /= in Hi. assert (reach input x') as Hr by (apply (reach_step _ x); [done|by left]). by case_decide.
  - rw /setup_inv /= in Hi |- *. assert (reach input x → reach input x') as Hr by (intros ?; apply (reach_step _ x); [done|by right]).
    destruct w; naive_solver.
  - rw /setup_inv /= in Hi |- *. destruct w; naive_solver.
  - rw /setup_inv /= in Hi |- *. destruct w; naive_solver.
Qed.

(** From a state without the objects, however the two programs start: both loops
    run as in ShmXfr, from initialized semaphores and an empty segment. *)
Lemma setup_refines ws rs c b input s :
  rtc fstep (f_start false false ws rs c b input) s →
  f_w s = WsRun ∨ f_r s = RsRun → reach input (f_x s).
Proof.
  intros Hr. assert (setup_inv input s) as Hi.
  { revert Hr. apply (rtc_ind_r (setup_inv input)); [|intros s1 s2 _ H IH; exact (setup_step_inv _ _ _ IH H)].
    left. split_and!; try done. by eexists _, _, _, _. }
  rw /setup_inv in Hi. destruct (f_w s) eqn:E; naive_solver.
Qed.

(** With objects that a run has left behind, the reader takes their content for
    the data: it must not be started first. *)
Lemma setup_stale b :
  ∃ s, rtc fstep (f_start true true 0 1 3 (cs "old" ++ b) (cs "new")) s ∧
    x_out (f_x s) = cs "old".
Proof.
  eexists. split.
  - eapply rtc_l; [by apply f_reader|]. eapply rtc_l; [by apply f_reader|]. eapply rtc_l; [by apply f_reader|].
    eapply rtc_l; [apply f_rstep, r_reserve; lia|].
    eapply rtc_l; [apply f_rstep, r_test|]. eapply rtc_l; [apply f_rstep, r_write|]. constructor.
  - done.
Qed.
