(* ===== verification/SeccompRun.v ===== *)
(** * Programs that run under their filter: the main programs of [seccomp/]

    Each program installs the filter of Seccomp that is its own and then makes
    calls that the filter judges.  [filtered] is the entry of the kernel: the
    installed filters decide whether a call is performed, logged, failed,
    trapped to the handler of SIGSYS or ends the process.  The calls themselves
    are the operations of [SeccompOS].

    The calls with which the library writes out what is printed and ends the
    process are judged too; [output_allowed] shows that no filter stops
    them, so that printing is modelled without asking the filters. *)

From S2P Require Import Prelude CStdlib ErrFns Tlpi Seccomp.

(** The three ABIs of the processor, with the architecture and the call number
    that the kernel sees. *)
Inductive abi := ABI_x86_64 | ABI_x32 | ABI_i386.

Definition abi_arch (a : abi) : Z :=
  match a with ABI_i386 => AUDIT_ARCH_I386 | _ => AUDIT_ARCH_X86_64 end.
Definition abi_mq_notify (a : abi) : Z :=
  match a with
  | ABI_x86_64 => NR_mq_notify_x86_64
  | ABI_x32 => NR_mq_notify_x32 + X32_SYSCALL_BIT
  | ABI_i386 => NR_mq_notify_i386
  end.

Definition NR_write : Z := 1.
Definition NR_geteuid : Z := 107.
Definition NR_exit_group : Z := 231.
Definition AT_FDCWD : Z := -100.
Definition ENOSYS : Z := 38.

(** The calls as the kernel performs them when no filter stops them; [so_openat]
    tells whether the library makes [openat] of [open], [so_ptr] where a string
    is, [so_ip] where the calling instruction is. *)
Class SeccompOS (K : Type) := {
  so_openat : bool;
  so_ptr : cstring → Z;
  so_ip : Z;
  so_prctl : K → res unit * K;
  so_seccomp : list sock_filter → K → res unit * K;
  so_sigaction : K → res unit * K;
  so_open : cstring → Z → Z → K → res Z * K;
  so_lseek : Z → Z → K → res Z * K;
  so_getppid : K → Z * K;
  so_geteuid : K → Z * K;
  so_getpid : Z;
  so_mq_notify : K → res unit * K;
  so_getenv : cstring → K → option cstring;
  so_setenv : cstring → cstring → K → K;
  so_system : cstring → K → K;
  so_execv : cstring → list cstring → K → res unit * K;
}.

(** The filters of the process, the latest first; the numbers of the calls that
    were logged; whether SIGSYS has its handler; whether a filter has ended the
    process. *)
Record skernel (K : Type) := SK {
  k_filters : list (list sock_filter);
  k_log : list Z;
  k_sigsys : bool;
  k_killed : bool;
  k_os : K;
}.
Arguments SK {K} _ _ _ _ _.
Arguments k_filters {K} _.
Arguments k_log {K} _.
Arguments k_sigsys {K} _.
Arguments k_killed {K} _.
Arguments k_os {K} _.

(** One filter decides alone. *)
Lemma action_mask r : ∃ q, Z.land r SECCOMP_RET_ACTION_FULL = 65536 * q ∧ 0 ≤ q < 65536.
Proof.
  exists (Z.land (Z.shiftr r 16) 65535). split.
  - rw (Z.mul_comm 65536). change 65536 with (2 ^ 16). rw -Z.shiftl_mul_pow2 //.
    rw Z.shiftl_land. apply Z.bits_inj'. intros i Hi. rw !Z.land_spec.
    change (Z.shiftl 65535 16) with SECCOMP_RET_ACTION_FULL.
    destruct (Z.ltb_spec i 16).
    + replace (Z.testbit SECCOMP_RET_ACTION_FULL i) with false; [by rw !andb_false_r|].
      change SECCOMP_RET_ACTION_FULL with (65535 * 2 ^ 16).
      by rw Z.mul_pow2_bits_low.
    + rw Z.shiftl_spec // Z.shiftr_spec; [lia|]. by replace (i - 16 + 16) with i by lia.
  - change 65535 with (Z.ones 16). rw Z.land_ones //. by apply Z.mod_pos_bound.
Qed.

Lemma combine_single p d : combine [p] d = decide_call p d.
Proof.
  rw /combine /decide_call /=. destruct (bpf_run p 0 0 d) as [r|]; [|done]. cbn.
  f_equal. destruct (Z.ltb_spec (ret_prec r) (ret_prec SECCOMP_RET_ALLOW)) as [|Hge]; [done|].
  rw /action_of. destruct (action_mask r) as (q & Hq & Hr). rw /ret_prec Hq in Hge.
  assert (Z.land r SECCOMP_RET_ACTION_FULL = SECCOMP_RET_ALLOW) as ->; [|done].
  rw Hq /SECCOMP_RET_ALLOW. change (to_int (Z.land SECCOMP_RET_ALLOW SECCOMP_RET_ACTION_FULL))
    with 2147418112 in Hge. rw /to_int /wrapS in Hge. change (2 ^ (32 - 1)) with 2147483648 in Hge.
  change (2 ^ 32) with 4294967296 in Hge. Z.div_mod_to_equations. lia.
Qed.

Class SeccompOSOk (K : Type) `{!SeccompOS K} := so_ip_range : 0 ≤ so_ip < 2 ^ 64.

Section programs.
Context {K : Type} `{!TlpiEnv (skernel K), !SeccompOS K}.
Abbreviation T := (M (tproc (skernel K))).
Implicit Types s : tproc (skernel K).

(** A call that no filter of these programs concerns. *)
Definition os {A} (f : K → A * K) (k : skernel K) : A * skernel K :=
  let '(a, k') := f (k_os k) in (a, SK (k_filters k) (k_log k) (k_sigsys k) (k_killed k) k').

Definition killed {A} : T A :=
  tsys_ (λ k, SK (k_filters k) (k_log k) (k_sigsys k) true (k_os k)) ;; stop Abort.

Definition sigHandler : T unit := tprintf (cs "SIGSYS!" ++ [NL]).

(** What becomes of a call: the result of one that was not performed is an error,
    [ENOSYS] where the filter does not say which. *)
Definition judged {A} (nr : Z) (verdict : option action) (f : K → res A * K) : T (option A) :=
  match verdict with
  | Some Allow => tcall (os f)
  | Some Log =>
      tsys_ (λ k, SK (k_filters k) (k_log k ++ [nr]) (k_sigsys k) (k_killed k) (k_os k)) ;;
      tcall (os f)
  | Some (Errno e) => io (set_errno e) ;; mret None
  | Some Trap =>
      h ← gets (k_sigsys ∘ t_os) ;
      if (h : bool) then sigHandler ;; io (set_errno ENOSYS) ;; mret None else killed
  | Some UserNotif | Some Trace => io (set_errno ENOSYS) ;; mret None
  | Some KillProcess | Some KillThread | None => killed
  end.

Definition filtered {A} (nr arch : Z) (args : list Z) (f : K → res A * K) : T (option A) :=
  fs ← gets (k_filters ∘ t_os) ;
  judged nr (combine fs (SData nr arch so_ip args)) f.

Definition reg (x : Z) : Z := wrapU 64 x.

Definition native_call {A} (nr : Z) (args : list Z) (f : K → res A * K) : T (option A) :=
  filtered nr AUDIT_ARCH_X86_64 args f.

Definition open_nr : Z := if so_openat : bool then NR_openat else NR_open.
Definition open_args (path : cstring) (flags mode : Z) : list Z :=
  if so_openat : bool then [reg AT_FDCWD; reg (so_ptr path); reg flags; reg mode; 0; 0]
  else [reg (so_ptr path); reg flags; reg mode; 0; 0; 0].
Definition open (path : cstring) (flags mode : Z) : T (option Z) :=
  native_call open_nr (open_args path flags mode) (so_open path flags mode).
Definition lseek (fd offset : Z) : T (option Z) :=
  native_call NR_lseek [reg fd; reg offset; 0; 0; 0; 0] (so_lseek fd offset).
(** A call that the kernel never fails. *)
Definition total_call (f : K → Z * K) (k : K) : res Z * K := let '(v, k') := f k in (inr v, k').
Definition getppid : T (option Z) := native_call NR_getppid [0; 0; 0; 0; 0; 0] (total_call so_getppid).
Definition geteuid : T (option Z) := native_call NR_geteuid [0; 0; 0; 0; 0; 0] (total_call so_geteuid).
Definition mq_notify (a : abi) : T (option unit) :=
  filtered (abi_mq_notify a) (abi_arch a) [0; 0; 0; 0; 0; 0] so_mq_notify.

Definition O_RDONLY : Z := 0.
Definition perror (msg : string) : T unit :=
  e ← errno ; teprintf (cs msg ++ cs ": " ++ te_strerror e ++ [NL]).

(** [prctl(PR_SET_NO_NEW_PRIVS, ...)] and the end of each [install_filter]; [fail] is the
    [errExit] of the program. *)
Definition no_new_privs (fail : string → T unit) : T unit :=
  r ← tcall (os so_prctl) ; if r is None then fail "prctl" else mret tt.

Definition seccomp (filter : list sock_filter) : T (option unit) :=
  r ← tcall (os (so_seccomp filter)) ;
  match r with
  | None => mret None
  | Some _ =>
      tsys_ (λ k, SK (filter :: k_filters k) (k_log k) (k_sigsys k) (k_killed k) (k_os k)) ;;
      mret (Some tt)
  end.

Definition install_filter (fail : string → T unit) (filter : list sock_filter) : T unit :=
  r ← seccomp filter ; if r is None then fail "seccomp" else mret tt.

Definition lib_errExit {A} (msg : string) : T A := terrExit (cs msg).
(** The macro [errExit] of the programs that do not use the book's library. *)
Definition macro_errExit {A} (msg : string) : T A := perror msg ;; texit EXIT_FAILURE.

(** ** The programs *)

Definition deny_open_main : T unit :=
  no_new_privs lib_errExit ;;
  install_filter lib_errExit deny_open_filter ;;
  fd ← open (cs "/tmp/a") O_RDONLY 0 ;
  when (bool_decide (fd = None)) (lib_errExit "open") ;;
  tprintf (cs "We shouldn't see this message" ++ [NL]) ;;
  texit EXIT_SUCCESS.

(** [if (open("/tmp/a", flags, mode) == -1) perror(msg)] *)
Definition try_open (flags mode : Z) (msg : string) : T unit :=
  fd ← open (cs "/tmp/a") flags mode ; when (bool_decide (fd = None)) (perror msg).

(** The mode 0600 is 0x180. *)
Definition control_open_main : T unit :=
  no_new_privs lib_errExit ;;
  install_filter lib_errExit control_open_filter ;;
  try_open O_RDONLY 0 "open1" ;;
  try_open O_WRONLY 0 "open2" ;;
  try_open O_RDWR 0 "open3" ;;
  try_open (Z.lor O_CREAT O_RDWR) 0x180 "open4" ;;
  texit EXIT_SUCCESS.

Definition seek_test (fd offset : Z) : T unit :=
  tprintf (cs "Seek to byte " ++ fmt_d offset ++ cs ": ") ;;
  ret ← lseek fd offset ;
  if bool_decide (ret = Some 0) then tprintf (cs "succeeded" ++ [NL])
  else e ← errno ; tprintf (cs "failed with errno = " ++ fmt_d e ++ [NL]).

Definition arg64_main : T unit :=
  no_new_privs lib_errExit ;;
  install_filter lib_errExit arg64_filter ;;
  fd ← open (cs "/dev/zero") O_RDWR 0 ;
  match fd with
  | None => lib_errExit "open"
  | Some fd =>
      seek_test fd 0 ;;
      seek_test fd 10000 ;;
      seek_test fd 0x100000001 ;;
      texit EXIT_SUCCESS
  end.

Definition logging_main : T unit :=
  no_new_privs lib_errExit ;;
  install_filter lib_errExit logging_filter ;;
  geteuid ;;
  getppid ;;
  texit EXIT_SUCCESS.

Definition trap_main : T unit :=
  no_new_privs lib_errExit ;;
  install_filter lib_errExit trap_sigsys_filter ;;
  r ← tcall (os so_sigaction) ;
  when (bool_decide (r = None)) (lib_errExit "sigaction") ;;
  tsys_ (λ k, SK (k_filters k) (k_log k) true (k_killed k) (k_os k)) ;;
  tprintf (cs "About to call getppid()" ++ [NL]) ;;
  getppid ;;
  tprintf (cs "Bye" ++ [NL]) ;;
  texit EXIT_SUCCESS.

(** [for (int j = 0; j < nloops; j++) getppid();] *)
Fixpoint perf_loop (n : nat) : T unit :=
  match n with
  | O => mret tt
  | S m => getppid ;; perf_loop m
  end.

Definition perf_main (argv : list cstring) : T unit :=
  match argv with
  | pname :: a1 :: rest =>
      when (bool_decide (rest ≠ []))
        (tprintf (cs "Applying BPF filter" ++ [NL]) ;;
         no_new_privs macro_errExit ;;
         install_filter macro_errExit perf_filter) ;;
      perf_loop (Z.to_nat (atoi a1)) ;;
      texit EXIT_SUCCESS
  | _ =>
      teprintf (cs "Usage: " ++ default [] (head argv) ++ cs " <num-loops> [x]" ++ [NL]) ;;
      teprintf (cs "       (use 'x' to run with BPF filter applied)" ++ [NL]) ;;
      texit EXIT_FAILURE
  end.

Definition no_seccomp_filter_var : cstring := cs "NO_SECCOMP_FILTER".
Definition TAB : ascii := "009"%char.

(** The text that [snprintf(buf, sizeof(buf), ...)] leaves, and [system(buf)]. *)
Definition command_text (before after : string) : cstring :=
  snprintf 1024 (cs "echo -n '" ++ [TAB] ++ cs before ++ fmt_d so_getpid ++ cs after).
Definition status_command : cstring := command_text "'; grep Seccomp /proc/" "/status".
Definition exe_command : cstring := command_text "'; file -L /proc/" "/exe | sed 's/,.*//'".
Definition run_system (command : cstring) : T unit :=
  tsys_ (λ k, SK (k_filters k) (k_log k) (k_sigsys k) (k_killed k) (so_system command (k_os k))).

(** What the program prints before the call, and when the filter has failed it. *)
Definition initial_text : cstring := cs "Initial execution; installing seccomp filter" ++ [NL].
Definition process_text (argv0 : cstring) : cstring :=
  [TAB] ++ cs "argv[0] = " ++ argv0 ++ cs "; PID = " ++ fmt_d so_getpid ++ [NL].
Definition failed_text (e : Z) : cstring := cs "mq_notify() failed with errno = " ++ fmt_d e ++ [NL].

Definition not_failed_text : cstring :=
  cs "mq_notify() was not failed by seccomp() filter!" ++ [NL] ++
  cs "*** Make sure that the " ++ no_seccomp_filter_var ++ cs " environment variable is not set" ++ [NL] ++
  cs "    when running this program." ++ [NL] ++
  cs "*** Otherwise, check the syscall numbers in kernel headers" ++ [NL] ++
  cs "    to see that they are correct" ++ [NL].

(** [main] of the program built for an ABI; it returns when another program has
    replaced it. *)
Definition multiarch_main (a : abi) (argv0 : cstring) (rest : list cstring) : T unit :=
  v ← gets (so_getenv no_seccomp_filter_var ∘ k_os ∘ t_os) ;
  when (bool_decide (v = None))
    (no_new_privs macro_errExit ;;
     tprintf initial_text ;;
     install_filter macro_errExit multiarch_filter) ;;
  tprintf (process_text argv0) ;;
  run_system status_command ;;
  run_system exe_command ;;
  r ← mq_notify a ;
  e ← errno ;
  if bool_decide (r = None) && negb (e =? EBADF) then
    tprintf (failed_text e) ;;
    match rest with
    | prog :: _ =>
        tsys_ (λ k, SK (k_filters k) (k_log k) (k_sigsys k) (k_killed k)
                 (so_setenv no_seccomp_filter_var (cs "y") (k_os k))) ;;
        tprintf [NL] ;;
        tprintf (cs "About to exec: " ++ prog ++ [NL]) ;;
        x ← tcall (os (so_execv prog rest)) ;
        if x is None then macro_errExit "execvp" else mret tt
    | [] => texit EXIT_SUCCESS
    end
  else
    tprintf not_failed_text ;;
    texit EXIT_FAILURE.

(** ** What the programs do *)

Lemma filtered_judged {A} nr arch args (f : K → res A * K) p s :
  k_filters (t_os s) = [p] →
  filtered nr arch args f s = judged nr (decide_call p (SData nr arch so_ip args)) f s.
Proof.
  intros H. rw /filtered (bind_Ret (gets _) _ _ _ _ eq_refl) /= H combine_single //.
Qed.

Context `{!SeccompOSOk K}.

Lemma reg_range x : 0 ≤ reg x < 2 ^ 64.
Proof. by apply Z.mod_pos_bound. Qed.

Lemma reg_id x : 0 ≤ x < 2 ^ 64 → reg x = x.
Proof. intros H. by rw /reg /wrapU Z.mod_small. Qed.

Lemma data_wf nr arch args :
  in_int nr → 0 ≤ arch < 2 ^ 32 → length args = 6%nat → Forall (λ x, 0 ≤ x < 2 ^ 64) args →
  sd_wf (SData nr arch so_ip args).
Proof. intros. rw /sd_wf. cbn. pose proof so_ip_range. split_and!; first [done|lia]. Qed.

Lemma native_wf nr args :
  in_int nr → length args = 6%nat → Forall (λ x, 0 ≤ x < 2 ^ 64) args →
  sd_wf (SData nr AUDIT_ARCH_X86_64 so_ip args).
Proof. intros. by apply data_wf. Qed.

Lemma open_wf path flags mode :
  sd_wf (SData open_nr AUDIT_ARCH_X86_64 so_ip (open_args path flags mode)).
Proof.
  rw /open_nr /open_args. destruct so_openat; apply native_wf; try done;
    repeat (apply Forall_cons; split; [by (apply reg_range || lia)|]); by apply Forall_nil.
Qed.

Lemma zeros_wf nr : in_int nr → sd_wf (SData nr AUDIT_ARCH_X86_64 so_ip [0; 0; 0; 0; 0; 0]).
Proof. intros. apply native_wf; try done. by repeat (apply Forall_cons; split; [lia|]). Qed.

(** The number and the arguments of an [open], in either form, as the filters see them. *)
Lemma open_control path flags mode s :
  k_filters (t_os s) = [control_open_filter] → 0 ≤ flags < 2 ^ 32 →
  open path flags mode s = judged open_nr (Some (open_policy flags)) (so_open path flags mode) s.
Proof.
  intros Hf Hfl. rw /open /native_call (filtered_judged _ _ _ _ _ _ Hf).
  rw (control_open_decides _ (open_wf path flags mode)) /native /open_nr /open_args /=.
  assert (lo32 (reg flags) = flags) as Hl.
  { rw reg_id; [lia|]. by rw /lo32 Z.mod_small. }
  by destruct so_openat; rw /arg /= Hl.
Qed.

Lemma tcall_os {A} (f : K → res A * K) io fs l h d k r k' :
  f k = (r, k') →
  tcall (os f) (TProc io (SK fs l h d k)) =
  match r with
  | inl e => (Ret None, TProc (EState (e_buffered io) (e_stdout io) (e_stderr io) e) (SK fs l h d k'))
  | inr v => (Ret (Some v), TProc io (SK fs l h d k'))
  end.
Proof. intros H. rw /tcall /mbind /M_bind /tsys /os /= H. by destruct r. Qed.

Lemma no_new_privs_ok fail io fs l h d k k1 :
  so_prctl k = (inr tt, k1) →
  no_new_privs fail (TProc io (SK fs l h d k)) = (Ret tt, TProc io (SK fs l h d k1)).
Proof. intros H. by rw /no_new_privs /mbind /M_bind (tcall_os _ io fs l h d k _ _ H). Qed.

Lemma install_filter_ok fail p io fs l h d k k1 :
  so_seccomp p k = (inr tt, k1) →
  install_filter fail p (TProc io (SK fs l h d k)) = (Ret tt, TProc io (SK (p :: fs) l h d k1)).
Proof. intros H. by rw /install_filter /seccomp /mbind /M_bind (tcall_os _ io fs l h d k _ _ H). Qed.

(** Once [prctl] and [seccomp] have succeeded, the program runs under its filter. *)
Lemma installed {A} fail p (m : T A) io l h d k k1 k2 :
  so_prctl k = (inr tt, k1) → so_seccomp p k1 = (inr tt, k2) →
  (no_new_privs fail ;; install_filter fail p ;; m) (TProc io (SK [] l h d k)) =
  m (TProc io (SK [p] l h d k2)).
Proof.
  intros H1 H2. rw (bind_Ret _ _ _ _ _ (no_new_privs_ok _ _ _ _ _ _ _ _ H1)).
  by rw (bind_Ret _ _ _ _ _ (install_filter_ok _ _ _ _ _ _ _ _ _ H2)).
Qed.

Lemma killed_eq {A} io fs l h d k :
  killed (A := A) (TProc io (SK fs l h d k)) = (Abort, TProc io (SK fs l h true k)).
Proof. done. Qed.

Lemma tprintf_eq t b o e n k :
  tprintf (K := skernel K) t (TProc (EState b o e n) k) = (Ret tt, TProc (EState (b ++ t) o e n) k).
Proof. done. Qed.

Lemma errno_eq b o e n k :
  errno (K := skernel K) (TProc (EState b o e n) k) = (Ret n, TProc (EState b o e n) k).
Proof. done. Qed.

Lemma run_system_eq c io fs l h d k :
  run_system c (TProc io (SK fs l h d k)) = (Ret tt, TProc io (SK fs l h d (so_system c k))).
Proof. done. Qed.

(** A line of [perror]. *)
Definition perror_line (msg : string) (e : Z) : cstring := cs msg ++ cs ": " ++ te_strerror e ++ [NL].

Lemma try_open_denied flags mode msg b o e n l h d k :
  0 ≤ flags < 2 ^ 32 → open_policy flags = Errno ENOTSUP →
  try_open flags mode msg (TProc (EState b o e n) (SK [control_open_filter] l h d k)) =
  (Ret tt, TProc (EState b o (e ++ perror_line msg ENOTSUP) ENOTSUP) (SK [control_open_filter] l h d k)).
Proof.
  intros Hf Hp. rw /try_open (bind_Ret _ _ _ None
    (TProc (EState b o e ENOTSUP) (SK [control_open_filter] l h d k))) //.
  by rw open_control // Hp.
Qed.

(** Under the control of its filter the program opens the file for reading, is refused with
    [ENOTSUP] both times it asks to write, and is killed when it asks to create: of
    the four calls the kernel performs the first one only. *)
Lemma control_open_runs b o e n l h d k k1 k2 k3 r :
  so_prctl k = (inr tt, k1) → so_seccomp control_open_filter k1 = (inr tt, k2) →
  so_open (cs "/tmp/a") O_RDONLY 0 k2 = (r, k3) →
  control_open_main (TProc (EState b o e n) (SK [] l h d k)) =
  (Abort, TProc (EState b o (e ++ (if r is inl x then perror_line "open1" x else []) ++
                             perror_line "open2" ENOTSUP ++ perror_line "open3" ENOTSUP) ENOTSUP)
                (SK [control_open_filter] l h true k3)).
Proof.
  intros H1 H2 H3. rw /control_open_main (installed _ _ _ _ _ _ _ _ _ _ H1 H2).
  rw (bind_Ret _ _ _ tt (TProc (EState b o (e ++ (if r is inl x then perror_line "open1" x else []))
      (if r is inl x then x else n)) (SK [control_open_filter] l h d k3))).
  { rw /try_open /mbind /M_bind open_control //.
    change (open_policy O_RDONLY) with Allow. rw /judged (tcall_os _ _ _ _ _ _ _ _ _ H3).
    by destruct r; rw /= ?app_nil_r. }
  rw (bind_Ret _ _ _ _ _ (try_open_denied _ _ _ _ _ _ _ _ _ _ _ _ _)) //.
  rw (bind_Ret _ _ _ _ _ (try_open_denied _ _ _ _ _ _ _ _ _ _ _ _ _)) //.
  rw /try_open {1 2}/mbind /M_bind open_control //.
  change (open_policy (Z.lor O_CREAT O_RDWR)) with KillProcess.
  by rw /judged killed_eq -!app_assoc.
Qed.

(** The program that may not open files is killed by its first call, before the file is
    opened and without the message. *)
Lemma deny_open_runs io l h d k k1 k2 :
  so_prctl k = (inr tt, k1) → so_seccomp deny_open_filter k1 = (inr tt, k2) →
  deny_open_main (TProc io (SK [] l h d k)) = (Abort, TProc io (SK [deny_open_filter] l h true k2)).
Proof.
  intros H1 H2. rw /deny_open_main (installed _ _ _ _ _ _ _ _ _ _ H1 H2).
  rw {1}/mbind /M_bind /open /native_call (filtered_judged _ _ _ _ deny_open_filter) //.
  destruct (simple_filter_policies _ (open_wf (cs "/tmp/a") O_RDONLY 0)) as [-> _].
  rw /native /open_nr /=. by destruct so_openat.
Qed.

Lemma arg64_open path flags mode s :
  k_filters (t_os s) = [arg64_filter] →
  open path flags mode s = judged open_nr (Some Allow) (so_open path flags mode) s.
Proof.
  intros Hf. rw /open /native_call (filtered_judged _ _ _ _ _ _ Hf).
  rw (arg64_policy _ (open_wf path flags mode)) /native /open_nr /=. by destruct so_openat.
Qed.

Lemma arg64_lseek fd off s :
  k_filters (t_os s) = [arg64_filter] → 0 ≤ off < 2 ^ 63 →
  lseek fd off s = judged NR_lseek
    (Some (if off <=? 1000 then Allow else if off <? 2 ^ 32 then Errno 1 else Errno 2))
    (so_lseek fd off) s.
Proof.
  intros Hf Ho. rw /lseek /native_call (filtered_judged _ _ _ _ _ _ Hf).
  rw arg64_policy.
  { apply native_wf; [done|done|]. repeat (apply Forall_cons; split; [by (apply reg_range || lia)|]).
    by apply Forall_nil. }
  rw /arg /= reg_id //. lia.
Qed.

Definition seek_line (offset : Z) (result : cstring) : cstring :=
  cs "Seek to byte " ++ fmt_d offset ++ cs ": " ++ result ++ [NL].
Definition seek_failed (e : Z) : cstring := cs "failed with errno = " ++ fmt_d e.

Lemma seek_test_denied fd off x b o e n l h d k :
  1000 < off < 2 ^ 63 → x = (if off <? 2 ^ 32 then 1 else 2) →
  seek_test fd off (TProc (EState b o e n) (SK [arg64_filter] l h d k)) =
  (Ret tt, TProc (EState (b ++ seek_line off (seek_failed x)) o e x) (SK [arg64_filter] l h d k)).
Proof.
  intros Ho ->. rw /seek_test (bind_Ret (tprintf _) _ _ _ _ eq_refl) /mbind /M_bind arg64_lseek //; [lia|].
  rw (proj2 (Z.leb_gt off 1000)); [lia|].
  rw /seek_line /seek_failed. destruct (off <? 2 ^ 32);
    (etrans; [refine (tprintf_eq (_ ++ _ ++ _) (b ++ _ ++ _ ++ _) o e _ _)|by rw -!app_assoc]).
Qed.

(** Of the three seeks, by a descriptor on which seeking succeeds, only the one up to byte
    1000 is performed; the others fail with the error that tells which half of
    the offset was too large. *)
Lemma arg64_runs b o e n l h d k k1 k2 k3 k4 fd :
  so_prctl k = (inr tt, k1) → so_seccomp arg64_filter k1 = (inr tt, k2) →
  so_open (cs "/dev/zero") O_RDWR 0 k2 = (inr fd, k3) → so_lseek fd 0 k3 = (inr 0, k4) →
  arg64_main (TProc (EState b o e n) (SK [] l h d k)) =
  (Exit EXIT_SUCCESS,
   TProc (EState [] (o ++ b ++ seek_line 0 (cs "succeeded") ++ seek_line 10000 (seek_failed 1) ++
                     seek_line 0x100000001 (seek_failed 2)) e 2)
     (SK [arg64_filter] l h d k4)).
Proof.
  intros H1 H2 H3 H4. rw /arg64_main (installed _ _ _ _ _ _ _ _ _ _ H1 H2).
  rw (bind_Ret _ _ _ (Some fd) (TProc (EState b o e n) (SK [arg64_filter] l h d k3))).
  { by rw arg64_open // /judged (tcall_os _ _ _ _ _ _ _ _ _ H3). }
  rw (bind_Ret _ _ _ tt (TProc (EState (b ++ seek_line 0 (cs "succeeded")) o e n)
    (SK [arg64_filter] l h d k4))).
  { rw /seek_test (bind_Ret (tprintf _) _ _ _ _ eq_refl) /mbind /M_bind arg64_lseek //.
    change (0 <=? 1000) with true. rw /judged (tcall_os _ _ _ _ _ _ _ _ _ H4). rw /seek_line.
    etrans; [refine (tprintf_eq (_ ++ _) (b ++ _ ++ _ ++ _) o e _ _)|by rw -!app_assoc]. }
  rw (bind_Ret _ _ _ _ _ (seek_test_denied _ _ 1 _ _ _ _ _ _ _ _ _ _)) //.
  rw (bind_Ret _ _ _ _ _ (seek_test_denied _ _ 2 _ _ _ _ _ _ _ _ _ _)) //.
  by rw /texit -!app_assoc.
Qed.

(** The calls without arguments. *)
Lemma nullary_judged {A} nr (f : K → res A * K) p s :
  k_filters (t_os s) = [p] →
  native_call nr [0; 0; 0; 0; 0; 0] f s =
  judged nr (decide_call p (SData nr AUDIT_ARCH_X86_64 so_ip [0; 0; 0; 0; 0; 0])) f s.
Proof. apply filtered_judged. Qed.

(** Both calls are logged and performed. *)
Lemma logging_runs b o e n l h d k k1 k2 :
  so_prctl k = (inr tt, k1) → so_seccomp logging_filter k1 = (inr tt, k2) →
  logging_main (TProc (EState b o e n) (SK [] l h d k)) =
  (Exit EXIT_SUCCESS, TProc (EState [] (o ++ b) e n)
     (SK [logging_filter] (l ++ [NR_geteuid; NR_getppid]) h d
       (so_getppid (so_geteuid k2).2).2)).
Proof.
  intros H1 H2. rw /logging_main (installed _ _ _ _ _ _ _ _ _ _ H1 H2).
  destruct (simple_filter_policies _ (zeros_wf NR_geteuid ltac:(done))) as (_ & _ & Hu & _).
  destruct (simple_filter_policies _ (zeros_wf NR_getppid ltac:(done))) as (_ & _ & Hp & _).
  destruct (so_geteuid k2) as [u k3] eqn:E3, (so_getppid k3) as [q k4] eqn:E4.
  rw (bind_Ret _ _ _ (Some u) (TProc (EState b o e n) (SK [logging_filter] (l ++ [NR_geteuid]) h d k3))).
  { rw /geteuid (nullary_judged _ _ logging_filter) // Hu /= (bind_Ret (tsys_ _) _ _ _ _ eq_refl).
    by apply (tcall_os _ _ _ _ _ _ _ (inr u)); rw /total_call E3. }
  rw (bind_Ret _ _ _ (Some q) (TProc (EState b o e n)
    (SK [logging_filter] (l ++ [NR_geteuid; NR_getppid]) h d k4))).
  { rw /getppid (nullary_judged _ _ logging_filter) // Hp /= (bind_Ret (tsys_ _) _ _ _ _ eq_refl).
    rw /= -app_assoc. by apply (tcall_os _ _ _ _ _ _ _ (inr q)); rw /total_call E4. }
  by rw /= E4.
Qed.

(** The trapped call is not performed: its handler runs instead, and the program goes on. *)
Lemma trap_runs b o e n l h d k k1 k2 k3 :
  so_prctl k = (inr tt, k1) → so_seccomp trap_sigsys_filter k1 = (inr tt, k2) →
  so_sigaction k2 = (inr tt, k3) →
  trap_main (TProc (EState b o e n) (SK [] l h d k)) =
  (Exit EXIT_SUCCESS,
   TProc (EState [] (o ++ b ++ cs "About to call getppid()" ++ [NL] ++ cs "SIGSYS!" ++ [NL] ++
                     cs "Bye" ++ [NL]) e ENOSYS) (SK [trap_sigsys_filter] l true d k3)).
Proof.
  intros H1 H2 H3. rw /trap_main (installed _ _ _ _ _ _ _ _ _ _ H1 H2).
  rw (bind_Ret _ _ _ _ _ (tcall_os _ _ _ _ _ _ _ _ _ H3)).
  rw bool_decide_eq_false_2 // (bind_Ret (when false _) _ _ _ _ eq_refl) (bind_Ret (tsys_ _) _ _ _ _ eq_refl).
  rw (bind_Ret _ _ _ _ _ (tprintf_eq _ _ _ _ _ _)).
  destruct (simple_filter_policies _ (zeros_wf NR_getppid ltac:(done))) as (_ & _ & _ & Hp).
  rw {1}/mbind /M_bind /getppid (nullary_judged _ _ trap_sigsys_filter) // Hp.
  etrans; [refine (_ : _ = (Exit EXIT_SUCCESS, TProc (EState [] (o ++ ((b ++ _ ++ _) ++ _ ++ _) ++ _ ++ _) e _) _)); reflexivity|].
  by rw -!app_assoc.
Qed.

Definition next_getppid (k : K) : K := (so_getppid k).2.

(** The filter lets every one of the calls pass, as does a process without filters. *)
Lemma perf_loop_runs m io fs l h d k :
  fs = [] ∨ fs = [perf_filter] →
  perf_loop m (TProc io (SK fs l h d k)) =
  (Ret tt, TProc io (SK fs l h d (Nat.iter m next_getppid k))).
Proof.
  intros Hfs. elim: m k => [//|m IH] k. cbn [perf_loop].
  rw Nat.iter_succ_r /next_getppid. destruct (so_getppid k) as [q k'] eqn:E.
  rw (bind_Ret _ _ _ (Some q) (TProc io (SK fs l h d k'))); [|by rw IH].
  rw /getppid /native_call /filtered (bind_Ret (gets _) _ _ _ _ eq_refl) /=.
  assert (combine fs (SData NR_getppid AUDIT_ARCH_X86_64 so_ip [0; 0; 0; 0; 0; 0]) = Some Allow) as ->.
  { destruct Hfs as [->| ->]; [done|]. rw combine_single.
    by destruct (simple_filter_policies _ (zeros_wf NR_getppid ltac:(done))) as (_ & -> & _). }
  apply (tcall_os _ _ _ _ _ _ _ (inr q)). by rw /total_call E.
Qed.

(** [perf n] makes exactly [n] calls, none for a negative number, with the filter or without. *)
Lemma perf_runs pname a1 rest b o e n l h d k k1 k2 :
  so_prctl k = (inr tt, k1) → so_seccomp perf_filter k1 = (inr tt, k2) →
  perf_main (pname :: a1 :: rest) (TProc (EState b o e n) (SK [] l h d k)) =
  (Exit EXIT_SUCCESS,
   if bool_decide (rest = []) then
     TProc (EState [] (o ++ b) e n)
       (SK [] l h d (Nat.iter (Z.to_nat (atoi a1)) next_getppid k))
   else
     TProc (EState [] (o ++ b ++ cs "Applying BPF filter" ++ [NL]) e n)
       (SK [perf_filter] l h d (Nat.iter (Z.to_nat (atoi a1)) next_getppid k2))).
Proof.
  intros H1 H2. rw /perf_main. destruct rest as [|x rest].
  - rw bool_decide_eq_false_2; [by intros []|]. rw (bind_Ret (when false _) _ _ _ _ eq_refl).
    rw (bind_Ret _ _ _ _ _ (perf_loop_runs _ _ _ _ _ _ _ _)); [by left|done].
  - rw bool_decide_eq_true_2 // [bool_decide (_ = [])]bool_decide_eq_false_2 // /when.
    rw !bind_assoc (bind_Ret _ _ _ _ _ (tprintf_eq _ _ _ _ _ _)).
    rw bind_assoc (installed _ _ _ _ _ _ _ _ _ _ H1 H2).
    rw (bind_Ret _ _ _ _ _ (perf_loop_runs _ _ _ _ _ _ _ _)); [by right|done].
Qed.

Definition abi_errno (a : abi) : Z :=
  match a with
  | ABI_x86_64 => NR_mq_notify_x86_64
  | ABI_x32 => NR_mq_notify_x32
  | ABI_i386 => NR_mq_notify_i386
  end.

Lemma mq_notify_failed a b o e n l h d k :
  mq_notify a (TProc (EState b o e n) (SK [multiarch_filter] l h d k)) =
  (Ret None, TProc (EState b o e (abi_errno a)) (SK [multiarch_filter] l h d k)).
Proof.
  rw /mq_notify (filtered_judged _ _ _ _ multiarch_filter) // multiarch_policy.
  { destruct a; apply data_wf; try done; by repeat (apply Forall_cons; split; [lia|]). }
  by destruct a.
Qed.

(** Up to the test of the result: on every ABI the filter that the first execution installs
    fails the call with an error of that ABI's own. *)
Lemma multiarch_start a argv0 rest b o e n l h d k k1 k2 :
  so_getenv no_seccomp_filter_var k = None →
  so_prctl k = (inr tt, k1) → so_seccomp multiarch_filter k1 = (inr tt, k2) →
  let k' := so_system exe_command (so_system status_command k2) in
  let out := b ++ initial_text ++ process_text argv0 ++ failed_text (abi_errno a) in
  multiarch_main a argv0 rest (TProc (EState b o e n) (SK [] l h d k)) =
  match rest with
  | [] => (Exit EXIT_SUCCESS, TProc (EState [] (o ++ out) e (abi_errno a))
                                (SK [multiarch_filter] l h d k'))
  | prog :: _ =>
      (x ← tcall (os (so_execv prog rest)) ;
       if x is None then macro_errExit "execvp" else mret tt)
      (TProc (EState (out ++ [NL] ++ cs "About to exec: " ++ prog ++ [NL]) o e (abi_errno a))
         (SK [multiarch_filter] l h d (so_setenv no_seccomp_filter_var (cs "y") k')))
  end.
Proof.
  intros Hv H1 H2 k' out. rw /multiarch_main (bind_Ret (gets _) _ _ _ _ eq_refl).
  rw bool_decide_eq_true_2; [done|]. rw /when bind_assoc.
  rw (bind_Ret _ _ _ _ _ (no_new_privs_ok _ _ _ _ _ _ _ _ H1)) bind_assoc.
  rw (bind_Ret _ _ _ _ _ (tprintf_eq _ _ _ _ _ _)).
  rw (bind_Ret _ _ _ _ _ (install_filter_ok _ _ _ _ _ _ _ _ _ H2)).
  rw (bind_Ret _ _ _ _ _ (tprintf_eq _ _ _ _ _ _)).
  do 2 rw (bind_Ret _ _ _ _ _ (run_system_eq _ _ _ _ _ _ _)).
  rw (bind_Ret _ _ _ _ _ (mq_notify_failed _ _ _ _ _ _ _ _ _)) (bind_Ret _ _ _ _ _ (errno_eq _ _ _ _ _)).
  rw bool_decide_eq_true_2; [done|]. replace (abi_errno a =? EBADF) with false by by destruct a.
  cbn [andb negb]. rw (bind_Ret _ _ _ _ _ (tprintf_eq _ _ _ _ _ _)).
  assert (((b ++ initial_text) ++ process_text argv0) ++ failed_text (abi_errno a) = out) as ->
    by by rw /out -!app_assoc.
  clearbody out. destruct rest as [|prog rest]; [done|].
  rw (bind_Ret (tsys_ _) _ _ _ _ eq_refl) (bind_Ret _ _ _ _ _ (tprintf_eq _ _ _ _ _ _)).
  by rw (bind_Ret _ _ _ _ _ (tprintf_eq _ _ _ _ _ _)) -app_assoc.
Qed.

(** With another program to execute, standard output is not flushed before that program
    takes the place of this one: what was printed and is still buffered, as it is
    when standard output is not a terminal, is lost. *)
Lemma multiarch_exec_loses a argv0 prog rest b o e n l h d k k1 k2 k3 :
  so_getenv no_seccomp_filter_var k = None →
  so_prctl k = (inr tt, k1) → so_seccomp multiarch_filter k1 = (inr tt, k2) →
  so_execv prog (prog :: rest) (so_setenv no_seccomp_filter_var (cs "y")
    (so_system exe_command (so_system status_command k2))) = (inr tt, k3) →
  ∃ s, multiarch_main a argv0 (prog :: rest) (TProc (EState b o e n) (SK [] l h d k)) = (Ret tt, s) ∧
       e_stdout (t_io s) = o ∧ e_buffered (t_io s) ≠ [].
Proof.
  intros Hv H1 H2 H3. rw (multiarch_start _ _ _ _ _ _ _ _ _ _ _ _ _ Hv H1 H2).
  rw (bind_Ret _ _ _ _ _ (tcall_os _ _ _ _ _ _ _ _ _ H3)).
  eexists. split_and!; [done|done|]. cbn. by destruct b.
Qed.

(** The library writes and ends the process with calls that no filter stops. *)
Lemma output_allowed nr args p :
  nr = NR_write ∨ nr = NR_exit_group →
  p ∈ [deny_open_filter; control_open_filter; arg64_filter; multiarch_filter; perf_filter;
       logging_filter; trap_sigsys_filter] →
  length args = 6%nat → Forall (λ x, 0 ≤ x < 2 ^ 64) args →
  combine [p] (SData nr AUDIT_ARCH_X86_64 so_ip args) =
  Some (if bool_decide (p = logging_filter) then Log else Allow).
Proof.
  intros Hnr Hp Hl Ha. rw combine_single.
  assert (sd_wf (SData nr AUDIT_ARCH_X86_64 so_ip args)) as Hwf
    by (apply native_wf; [by destruct Hnr as [->| ->]|done..]).
  destruct (simple_filter_policies _ Hwf) as (H1 & H2 & H3 & H4).
  rw !elem_of_cons elem_of_nil in Hp.
  destruct Hp as [->|[->|[->|[->|[->|[->|[->|[]]]]]]]];
    rw ?H1 ?H2 ?H3 ?H4 ?(control_open_decides _ Hwf) ?(arg64_policy _ Hwf) ?(multiarch_policy _ Hwf);
    by destruct Hnr as [->| ->].
Qed.

End programs.

(** ** A concrete kernel: it keeps the names of the calls that it performs *)

Definition trace := list string.

#[export] Instance trace_env : TlpiEnv (skernel trace) :=
  {| te_strerror e := cs "error " ++ fmt_d e; te_dumpcore := None |}.

#[export] Instance trace_os : SeccompOS trace := {|
  so_openat := true;
  so_ptr _ := 0x555555556004;
  so_ip := 0x7ffff7d1a5b4;
  so_prctl k := (inr tt, k ++ ["prctl"%string]);
  so_seccomp _ k := (inr tt, k ++ ["seccomp"%string]);
  so_sigaction k := (inr tt, k ++ ["sigaction"%string]);
  so_open _ _ _ k := (inr 3, k ++ ["open"%string]);
  so_lseek _ _ k := (inr 0, k ++ ["lseek"%string]);
  so_getppid k := (1, k ++ ["getppid"%string]);
  so_geteuid k := (1000, k ++ ["geteuid"%string]);
  so_getpid := 42;
  so_mq_notify k := (inl EBADF, k ++ ["mq_notify"%string]);
  so_getenv _ k := if bool_decide ("setenv"%string ∈ k) then Some (cs "y") else None;
  so_setenv _ _ k := k ++ ["setenv"%string];
  so_system _ k := k ++ ["system"%string];
  so_execv _ _ k := (inr tt, k ++ ["execv"%string]);
|}.

#[export] Instance trace_ok : SeccompOSOk trace.
Proof. done. Qed.

Definition fresh (k : trace) : tproc (skernel trace) :=
  TProc (EState [] [] [] 0) (SK [] [] false false k).

Definition ran {A} (r : outcome A * tproc (skernel trace)) : outcome A * string * string * trace :=
  (r.1, String.string_of_list_ascii (e_stdout (t_io r.2)),
   String.string_of_list_ascii (e_stderr (t_io r.2)), k_os (t_os r.2)).

Example run_trap : (ran (trap_main (fresh []))).2 = ["prctl"; "seccomp"; "sigaction"]%string.
Proof. vm_compute. reflexivity. Qed.

Example run_perf :
  (ran (perf_main [cs "perf"; cs "2"; cs "x"] (fresh []))).2 =
  ["prctl"; "seccomp"; "getppid"; "getppid"]%string.
Proof. vm_compute. reflexivity. Qed.

(** A program that follows in the place of this one installs no filter of its own; run
    without any filter it finds the call not failed. *)
Example run_second :
  (ran (multiarch_main ABI_x86_64 (cs "prog") [] (fresh ["setenv"%string]))).1.1.1 = Exit EXIT_FAILURE.
Proof. vm_compute. reflexivity. Qed.

Lemma control_open_runs_witness :
  control_open_main (fresh []) =
  (Abort, TProc (EState [] [] (perror_line "open2" ENOTSUP ++ perror_line "open3" ENOTSUP) ENOTSUP)
            (SK [control_open_filter] [] false true ["prctl"; "seccomp"; "open"]%string)).
Proof.
  refine (control_open_runs [] [] [] 0 [] false false [] _ _ _ (inr 3) eq_refl eq_refl eq_refl).
Defined.
