(* ===== verification/TreeFork.v ===== *)
(** * The two processes of the process tree scan: [twelve-two/pstree_implementation.c]

    The program opens /proc, forks, and both processes then scan the
    directory with the functions of PsUser, the parent after it has waited for its
    child.  A directory stream that was opened before [fork] has one position for
    both processes, so that what the child has read is not given to the parent. *)

From S2P Require Import Prelude ErrFns Tlpi PsUser.

(** The pointer that [waitpid] is given is not initialized: it may be null, an
    address that is not mapped, for which the call fails once the child has ended,
    or the address of something else, which is overwritten. *)
Inductive wild := WNull | WUnmapped | WMapped.

(** [to_fork] gives the child's number and the kernel as the child sees it,
    [to_parent] the kernel as the parent sees it when the child has ended. *)
Class TreeOS (K : Type) := {
  to_fork : K → res Z * K;
  to_parent : K → K;
}.

Section tree_fork.
Context {K : Type} `{!TlpiEnv K, !PsOS K, !TreeOS K}.
Abbreviation T := (M (tproc K)).
Implicit Types s : tproc K.

Definition tree_child_start : T unit :=
  tprintf (cs "Inside child" ++ [NL]) ;;
  pid ← gets (po_getpid ∘ t_os) ;
  tprintf (cs "Child Pid: " ++ fmt_d pid ++ [NL]).

Definition tree_parent_start (status : wild) : T unit :=
  tprintf (cs "Inside parent" ++ [NL]) ;;
  if status is WMapped then stop Crash else mret tt.

(** The scan of a process comes to the end of the directory. *)
Definition scans_all (junk : list ascii) (childPid : Z) (names : list cstring) s : bool :=
  match tree_scan junk childPid names 0 (TProc (EState (e_buffered (t_io s)) (e_stdout (t_io s))
    (e_stderr (t_io s)) 0) (t_os s)) with
  | (Ret _, _) => true
  | _ => false
  end.

(** [main], followed into both processes: what the child has done, if there is one, and what
    the parent has.  [unread] are the names the child leaves in the directory if it ends
    before its scan does. *)
Definition tree_main (junk : list ascii) (status : wild) (unread : list cstring) s :
    option (outcome unit * estate) * (outcome unit * tproc K) :=
  match tcall (po_opendir (cs "/proc/")) s with
  | (Ret (Some (names, err)), s1) =>
      match tcall to_fork s1 with
      | (Ret (Some childPid), s2) =>
          let '(_, c) := tree_child_start s2 in
          let left := if scans_all junk 0 names c then [] else unread in
          let '(oc, c') := tree_rest junk 0 names err c in
          (Some (oc, t_io c'),
           (tree_parent_start status ;; tree_rest junk childPid left err)
             (TProc (t_io s2) (to_parent (t_os c'))))
      | (_, s2) => (None, terrExit (cs "fork") s2)
      end
  | (_, s1) => (None, terrExit (cs "opendir") s1)
  end.

(** At the end of the directory a process prints so and exits. *)
Lemma tree_rest_end junk childPid b o e n k k' :
  po_closedir k = (inr tt, k') →
  tree_rest junk childPid [] 0 (TProc (EState b o e n) k) =
  (Exit EXIT_SUCCESS, TProc (EState [] (o ++ b ++ END_OF_DIR) e 0) k').
Proof.
  intros Hc. rw /tree_rest /tchecked /tcall /tsys /mbind /M_bind. cbn -[END_OF_DIR].
  by rw Hc.
Qed.

(** Where the child scans the whole directory, nothing is left for the parent: it lists no
    process, and says that it has reached the end. *)
Lemma tree_parent_lists_nothing junk status unread names childPid b o e n k k1 k2 k3 :
  po_opendir (cs "/proc/") k = (inr (names, 0), k1) → to_fork k1 = (inr childPid, k2) →
  status ≠ WMapped →
  let c := (tree_child_start (TProc (EState b o e n) k2)).2 in
  scans_all junk 0 names c = true →
  po_closedir (to_parent (t_os (tree_rest junk 0 names 0 c).2)) = (inr tt, k3) →
  (tree_main junk status unread (TProc (EState b o e n) k)).2 =
  (Exit EXIT_SUCCESS, TProc (EState [] (o ++ b ++ cs "Inside parent" ++ [NL] ++ END_OF_DIR) e 0) k3).
Proof.
  intros H1 H2 Hw c Hs Hc. rw /tree_main (tcall_ok (po_opendir _) (TProc _ k) _ _ H1) (tcall_ok to_fork (TProc _ k1) _ _ H2).
  destruct (tree_child_start _) as [? c'] eqn:E. cbn in c. subst c. rw Hs.
  destruct (tree_rest junk 0 names 0 c') as [oc c''] eqn:Er. cbn [snd] in Hc |- *.
  rw bind_assoc (bind_Ret (tprintf _) _ _ _ _ eq_refl).
  rw (bind_Ret _ _ _ tt (TProc (EState (b ++ cs "Inside parent" ++ [NL]) o e n) (to_parent (t_os c'')))).
  { by destruct status. }
  by rw (tree_rest_end _ _ _ _ _ _ _ _ Hc) -!app_assoc.
Qed.

(** An initialized pointer would not matter; this one may overwrite anything. *)
Lemma tree_wait_crashes junk unread names err childPid io k k1 k2 :
  po_opendir (cs "/proc/") k = (inr (names, err), k1) → to_fork k1 = (inr childPid, k2) →
  (tree_main junk WMapped unread (TProc io k)).2.1 = Crash.
Proof.
  intros H1 H2. rw /tree_main (tcall_ok (po_opendir _) (TProc io k) _ _ H1) (tcall_ok to_fork (TProc io k1) _ _ H2).
  destruct (tree_child_start _) as [? c]. by destruct (tree_rest _ _ _ _ c).
Qed.
End tree_fork.

(** ** The /proc of PsUser, scanned by both processes *)

Import PsSim.

#[export] Instance tree_sim : TreeOS PsSim.kern := {| to_fork k := (inr 99, k); to_parent k := k |}.

Example tree_runs :
  let '(child, parent) := tree_main PsSim.junk WNull [] PsSim.boot in
  match child with
  | Some (o, io) =>
      (o, bool_decide (0 < length (e_stdout io))%nat) = (Exit EXIT_SUCCESS, true)
  | None => False
  end ∧
  parent.1 = Exit EXIT_SUCCESS ∧
  e_stdout (t_io parent.2) = cs "Inside parent" ++ [NL] ++ END_OF_DIR.
Proof. vm_compute. split_and!; reflexivity. Qed.
